(* ===== verification/_CoqProject ===== *)
-Q . S2P
Prelude.v
RustStr.v
Io.v
Address.v
Crypto.v
StreamBuf.v
ChunkStream.v
TcpAead.v
CopyBuffer.v
UdpAead.v
NetAddr.v
ServerConfig.v
Resolver.v
Crypto2022.v
UdpAead2022.v
TcpAead2022.v
CryptoStream.v
ProxyStream.v
Session.v
Float64.v
Duration.v
Trie.v
Bloom.v
Dns.v
DnsServer.v
RwLock.v
Upstream.v
PoolLife.v
Sniffing.v
Relay.v
EndToEnd.v
Louds.v
UdpSocket.v
Replay.v
DateTime.v
Logger.v
ProcStat.v
Controller.v
Tasks.v
Cron.v
Settings.v
Program.v
