(* ===== verification/Prelude.v ===== *)
(** * Roxy: a verification library

    Roxy is a transparent proxy.  It sniffs the destination of a local connection, picks a
    Shadowsocks server from a pool, and relays the connection to it through an encrypted
    stream; it also answers DNS queries with rules that hijack or reject names.  This
    library models the program's own code and proves what each part promises to the others.
    A file of the library is named after the part it models; the source files are given
    under src/.

    ** The parts and their files

    - [Prelude], [RustStr], [Io], [Float64]: the language.  Results with panics ([res]),
      machine integers at their width with overflow that is checked or wraps ([Profile]),
      programs on a state ([prog]), big-endian codecs; UTF-8, splitting, trimming and
      integer parsing of [str]; error kinds, the traits [AsyncRead] and [AsyncWrite] as
      classes with their contracts ([AsyncReadOk], [AsyncWriteOk], and [WriteOk] for a
      writer that may report more than it carried), poll-based operations on a state as a
      monad; IEEE doubles with the conversions of [as].
    - [Address] (lib/shadowsocks/src/addr.rs, socks5.rs): addresses on the wire.
      [NetAddr]: addresses in text, with the standard library's parser and printer.
      [Resolver] (lib/resolver): names, over the lookup of trust-dns.
    - [Crypto] (lib/shadowsocks/src/crypto): cipher kinds, the AEAD wrappers and the stream
      [Cipher] with its counter of nonces.  The cryptographic crates are the class
      [CryptoLib]; [CryptoLibOk] states that opening undoes sealing and the lengths.
      [Crypto2022] (crypto/v2, sys/linux.rs): session keys, the UDP ciphers and the clock of
      AEAD-2022, over [Crypto2022Lib].
    - [StreamBuf] and [ChunkStream]: what the two encrypted streams share, reading exactly
      so many bytes, flushing a buffer, and the chunks that follow a stream's header.
    - [TcpAead] (tcp/aead.rs) and [TcpAead2022] (tcp/aead2022.rs): the decrypting readers and
      the encrypting writers, state machines polled over a transport.  [CopyBuffer]
      (tcp/utils.rs): the copy loops on top of them.  [CryptoStream] (tcp/crypto.rs): both
      protocols behind one stream.  [ProxyStream] (tcp/proxy.rs, option.rs): the connection
      to a server, from the resolution of its name on, whose first packet carries the
      target.  [Session] (tcp/proxy.rs, [proxy]): the two copies between a client and such a
      connection, on sockets that both of them use, until one ends.
    - [UdpAead] (udp/aead.rs) and [UdpAead2022] (udp/aead2022.rs): datagrams, the latter with
      the cache of ciphers that all sockets share.  [UdpSocket] (udp/crypto.rs,
      udp/proxy_socket.rs, sys/net): the client socket, its system calls answered by an
      oracle.
    - [Replay] (security/replay/ppbloom.rs): the filter of nonces.
    - [ServerConfig] (config.rs): servers, SIP002 URLs and key derivation.
    - [Upstream] (src/src/upstream): the pool of servers in a shared heap, health checks,
      the two balancers and the provider, with the relation [reachable] on its states.
      [PoolLife]: [Upstream::new] and its two tasks, as sequences of events.
    - [Sniffing] (src/src/relay/thp/sniffing.rs): the destination of a connection.  [Relay]
      (relay/thp/server.rs): the task of one connection, on top of [Sniffing] and the pool.
      [EndToEnd]: that task with [ProxyStream] and [Session] in place of its oracles.
    - [Tasks] (upstream/mod.rs, relay/thp/server.rs): all connections, the requests for
      statistics, the task that checks and the task that reloads at once, as one transition
      system whose steps are the single accesses to shared data; its labels carry what the
      environment does and its schedules are lists of labels.  [RwLock]: the lock around the
      list of servers as an interface, what holders and waiters may rely on, with a queue
      that implements it.
    - [Trie] (src/src/dns/rule): rules for names, over any store ([Entries]).  [Bloom]
      (rule/trie/bloom.rs): the store that is a Bloom filter.  [Louds] (rule/trie/louds.rs): the bitmap of an unfinished store.
      [Dns] (src/src/dns/handle, src/src/dns/server): cache, hijacking, rejection and one
      request, over trust-dns as the class [DnsProto] and the LRU cache as [LruCache].
      [DnsServer]: construction, and the tasks of datagrams and of TCP connections, which
      share one handler, as one transition system.
    - [Logger] (src/src/log/logger.rs): events as lines of the standard output, through a
      buffer of the thread that events within events share.
    - [ProcStat] (src/src/controller/stats/proc.rs): the statistics of the process from the
      files of /proc, with the standard library's reading of doubles.  [Controller]
      (src/src/controller, [Upstream::stats]): requests and the responses to them.
    - [Settings] (src/src/config.rs, upstream/config.rs, dns/config.rs, serde/duration.rs): the
      structs of the configuration and how they are read from the tree of a document.
    - [Program] (src/src/main.rs, config.rs): loading the configuration, the start of the
      services, what can end each of them (also the listeners of the proxy and of the DNS server), and
      the group of tasks.
    - [Duration] (src/src/serde/duration.rs), [DateTime] (src/src/datetime.rs) and [Cron]
      (lib/cron): the text formats of times.

    ** What the theorems show

    - The tunnel: [TcpAead.stream_integrity] and [CopyBuffer.tunnel_transparent] take the
      bytes of one end through encryption, a transport that may stall and cut its reads and
      writes anywhere, and decryption, and find the same bytes at the other end;
      [TcpAead.reader_on_any_wire] refines a decoder of whole streams, so that a damaged
      stream yields its authentic part and the error that is there; [CopyBuffer.copy_exact]
      is the copy loop alone, against the contracts; [ProxyStream.proxy_carries_target] adds
      the target address, for a first buffer that fits one packet with it;
      [Session.session_relays] puts both directions together, from the
      socket calls that connect to the end of either stream: the connection to the server
      is shown to be an end that keeps its two directions apart ([DuplexOk]) over any socket
      that is one.  What the first packet cannot hold is lost in a release build (at most as
      many bytes as the address has), and a development build panics there: [carried]
      states exactly what arrives.  [Crypto.nonces_never_repeat] is that no two messages
      of a run of [encrypt] or [decrypt] use one nonce.
    - AEAD-2022: [UdpSocket.aead2022_panics], what the program does with these kinds, and
      [UdpAead2022.cipher_cache_transparent], for any lengths.  What the code would do once
      the lengths exist is left to lemmas, about kinds that have lengths or under
      [LengthsOk], which is false of the source ([Crypto2022.source_lengths_not_ok]):
      [TcpAead2022.request_carries_data], [TcpAead2022.response_on_any_wire],
      [ProxyStream.response_answers_request], [UdpAead2022.udp_request_reaches_server] and
      [UdpAead2022.udp_response_on_any_packet].
    - Datagrams: [UdpSocket.udp_exchange], [UdpAead.udp_decrypt_decides]; replayed nonces:
      [Replay.replay_rejected].
    - Codecs: [Address.address_roundtrip], [Address.read_from_decides],
      [NetAddr.address_text_roundtrip], [Duration.duration_roundtrip],
      [Duration.parse_duration_total], [DateTime.date_is_right], [Cron.parse_field_denotes],
      [Cron.cron_roundtrip].
    - Configuration: [Settings.config_read_back], [ServerConfig.from_url_decides], [ServerConfig.from_url_usable],
      [ServerConfig.bytes_to_key_is_evp].
    - The pool: [PoolLife.pool_stays_well_formed] for any sequence of checks, failures and
      reloads (the pool serves the last list that was read, which may be empty; a fetch that
      panics is reported), [Upstream.pick_finds_alive], [Upstream.check_chooses_best],
      [Upstream.jumphash_in_range]; on top of it [Relay.tls_connection_relayed] and
      [Relay.connection_outcomes], from the first bytes of a client to the server.
    - The threads: [Tasks.every_schedule_safe] for every interleaving of any number of
      connections with checks and reloads, as long as the lists read are not empty and the
      checks neither panic nor overflow (no step panics, a task dies only of a panic of its
      own, a sound pool, a lock that is held by those who asked, at most five attempts),
      [Tasks.pick_survives_interference] (a pick finds a live server of the list it entered with), [Tasks.service_settles] (no deadlock,
      and a bound on the steps that are left).  [Tasks.looks_are_pick],
      [Tasks.round_is_check_once] and [Tasks.serial_is_schedule] connect them with the serial models of [Upstream] and
      [Relay], on which the theorems end to end are built.
    - End to end: [EndToEnd.client_reaches_host] puts sniffing, the pool, connecting and the
      session together, from the ClientHello of a client, of which the name is within the
      bytes that are peeked, to the plaintext that the chosen server reads.
    - The program: [Program.program_stays_up] composes the constructors of the DNS handler
      and of the pool and follows the group of tasks through any events that are not fatal;
      [Controller.controller_answers] shows that the responses are the state of the pool and
      of the process, with the lemmas on dates, addresses and doubles;
      [Logger.events_print_their_lines] that every enabled event is one line.
    - Sniffing: [Sniffing.http_host_decides], and for TLS the lemma
      [Sniffing.destination_of_hello].
    - DNS: [DnsServer.replies_genuine_interleaved] for all interleavings of datagrams, TCP
      connections and reloads, with a cache whose keys ignore case,
      [DnsServer.rejected_name_not_asked] from the text of the rules to the response (the upstream is not asked, but the cache may answer first with what it holds
      of another spelling), [Trie.trie_matches]; [Bloom.bloom_agrees_with_set] reduces the Bloom store to
      the set, up to the false positives among the keys that a lookup asks for.
    - Defects of the code, proved of the model: [ProxyStream.first_packet_loses_data],
      [UdpSocket.aead2022_panics], [Dns.cache_serves_only_expired], and the lemmas
      [Sniffing.long_hello_panics], [TcpAead2022.conforming_response_refused], [Trie.wildcard_shadowed],
      [Duration.leading_int_overflows], [Upstream.empty_pool_panics],
      [UdpAead2022.short_response_panics], [Cron.zero_step_panics],
      [Cron.out_of_range_accepted], [Bloom.false_positive_hides_rule],
      [ProcStat.short_stat_panics], and the runs [Session.Demo.closing_loses_answer],
      [Logger.Demo.refused_line_stays], [Logger.Demo.short_write_loses],
      [ProcStat.Demo.spaced_name_shifts], [Program.Demo.proxy_stops_silently],
      [Tasks.Demo.writer_stalls_picks], [DnsServer.Demo.other_case_served].

    ** Conventions

    A fallible function returns [res E A]; [Panic] is a value, so that a theorem excludes or
    exhibits it.  A loop that is not structural has fuel and returns [None] (or [NoFuel] in
    a poll) when it runs out; theorems give the fuel that is enough: the reader of [TcpAead]
    needs one turn for each byte of the wire and three more, that of [TcpAead2022] one more,
    [from_url] one more than the length of the text, [jumphash] as many as there are
    buckets, [key_loop] as many as the key has bytes, [parse_loop] and [load_lines] the
    length of the text, the loops of [Sniffing] one more than the bytes that are left.
    Randomness is a list of what the generator gives; clocks and the operating system are
    arguments.  Code of other crates is a class of operations with, where something is
    relied on, a class of laws, and an instance of both shows that the laws can hold.  The
    lengths of the AEAD-2022 kinds are [todo!()] in crypto/mod.rs: with the source's lengths
    every use of those kinds panics, which is proved ([UdpAead2022.source_lengths_panic],
    [TcpAead2022.kind2022_read_panics], [TcpAead2022.kind2022_write_panics] and the claim
    [UdpSocket.aead2022_panics]), and only lemmas are about given lengths ([Lengths]) or
    kinds that have them.  A claim is a theorem whose comment begins
    with its number; a lemma with the suffix [_witness] applies it to concrete data.

    ** What is not modelled

    The construction of the HTTP client, the parser of YAML, the JSON of the responses and
    the tests.  [CipherKey]'s order, which no container uses, the [From] conversions of error
    types that nothing calls (lib/shadowsocks/src/error.rs, upstream/error.rs) and the enter
    and exit of spans, which do nothing.  Two functions of lib/cron, next and years, have no body.  The
    wrapper in security/replay/mod.rs calls methods that do not exist, and no module
    declares it or src/src/dns/client.rs.  Timers appear as the order of events, signals as
    events.  [poll_shutdown], which the copy loops never call, passes on to the socket.  In
    [DnsServer] the two halves of a request, before and after the upstream answers, are one
    step each.

    The sessions of [EndToEnd] are steps of the environment in [Tasks]: whether an attempt
    opens, fails or panics and how a session ends is part of a label.  The memory of servers that
    were replaced is not reclaimed in the model, where the program drops the last [Arc]. *)

From Stdlib Require Export ZArith Lia.
From stdpp Require Export base tactics list numbers option.

Open Scope Z_scope.

(** ** Results of fallible code

    [Ok] and [Err] are the constructors of Rust's [Result]; [Panic] is what the
    program does at a failed [assert!], [expect], [unreachable!], [todo!], at a
    slice index out of range and at an arithmetic overflow that is checked. *)

Inductive res (E A : Type) : Type :=
  | Ok (a : A)
  | Err (e : E)
  | Panic.
Global Arguments Ok {E A} a.
Global Arguments Err {E A} e.
Global Arguments Panic {E A}.

Global Instance res_ret E : MRet (res E) := λ A a, Ok a.
Global Instance res_bind E : MBind (res E) := λ A B f m,
  match m with Ok a => f a | Err e => Err e | Panic => Panic end.
Global Instance res_fmap E : FMap (res E) := λ A B f m,
  match m with Ok a => Ok (f a) | Err e => Err e | Panic => Panic end.

Definition map_err {E F A} (f : E → F) (m : res E A) : res F A :=
  match m with Ok a => Ok a | Err e => Err (f e) | Panic => Panic end.

Definition ok_or {E A} (e : E) (o : option A) : res E A :=
  match o with Some a => Ok a | None => Err e end.

Definition expect {E A} (o : option A) : res E A :=
  match o with Some a => Ok a | None => Panic end.

(** [if c { return Err(e) }] and [assert!(c)]. *)
Definition fail_if {E} (c : bool) (e : E) : res E () := if c then Err e else Ok ().
Definition assert_ {E} (c : bool) : res E () := if c then Ok () else Panic.

Definition is_ok {E A} (m : res E A) : bool := match m with Ok _ => true | _ => false end.

(** The value of an asynchronous poll.  [NoFuel] is not a value of the program: a
    definition with a loop returns it when its bound on the iterations is reached, and
    every specification excludes it. *)
Inductive poll (A : Type) : Type :=
  | Pending
  | Ready (a : A)
  | NoFuel.
Global Arguments Pending {A}.
Global Arguments NoFuel {A}.
Global Arguments Ready {A} a.

Section res_lemmas.
Context {E A B : Type}.
Implicit Types m : res E A.

Lemma Ok_inj (a b : A) : Ok (E:=E) a = Ok b → a = b.
Proof. by intros [= ->]. Qed.

Lemma bind_Ok m (f : A → res E B) b :
  m ≫= f = Ok b ↔ ∃ a, m = Ok a ∧ f a = Ok b.
Proof. destruct m; naive_solver. Qed.

Lemma bind_Err m (f : A → res E B) e :
  m ≫= f = Err e ↔ m = Err e ∨ ∃ a, m = Ok a ∧ f a = Err e.
Proof. destruct m; naive_solver. Qed.

Lemma fail_if_Ok (c : bool) (e : E) u : fail_if c e = Ok u ↔ c = false.
Proof. by destruct c, u. Qed.

Lemma assert_Ok (c : bool) u : assert_ (E:=E) c = Ok u ↔ c = true.
Proof. by destruct c, u. Qed.

Lemma ok_or_Ok (e : E) (o : option A) a : ok_or e o = Ok a ↔ o = Some a.
Proof. destruct o; naive_solver. Qed.
End res_lemmas.

(** ** Programs with a state

    A program that reads and changes a state of type [S]; what it did to the state before
    an error stays. *)
Definition prog (S E A : Type) : Type := S → res E A * S.

Definition sret {S E A} (a : A) : prog S E A := λ t, (Ok a, t).
Definition slift {S E A} (r : res E A) : prog S E A := λ t, (r, t).
Definition sfail {S E A} (e : E) : prog S E A := λ t, (Err e, t).
Definition sbind {S E A B} (m : prog S E A) (f : A → prog S E B) : prog S E B := λ t,
  match m t with
  | (Ok a, t) => f a t
  | (Err e, t) => (Err e, t)
  | (Panic, t) => (Panic, t)
  end.
Declare Scope prog_scope.
Delimit Scope prog_scope with prog.
Notation "'do!' x ':=' m 'in' k" := (sbind m (λ x, k))
  (at level 200, x name, m at level 100, k at level 200) : prog_scope.
Notation "'do!' ' x ':=' m 'in' k" := (sbind m (λ x, k))
  (at level 200, x strict pattern, m at level 100, k at level 200) : prog_scope.
Notation "m ';;' k" := (sbind m (λ _, k)) (at level 100, k at level 200, right associativity) : prog_scope.

Lemma sbind_Ok {S E A B} (m : prog S E A) (f : A → prog S E B) t b t' :
  sbind m f t = (Ok b, t') ↔ ∃ a t1, m t = (Ok a, t1) ∧ f a t1 = (Ok b, t').
Proof.
  unfold sbind. destruct (m t) as [[a|e|] t1]; [|naive_solver..]. split; [by eauto|].
  by intros (a' & t1' & [= -> ->] & ?).
Qed.

Lemma sbind_run {S E A B} (m : prog S E A) (f : A → prog S E B) t a t' :
  m t = (Ok a, t') → sbind m f t = f a t'.
Proof. intros H. unfold sbind. by rewrite H. Qed.
Lemma sbind_lift {S E A B} (r : res E A) (f : A → prog S E B) t a :
  r = Ok a → sbind (slift r) f t = f a t.
Proof. by intros ->. Qed.

(** ** Machine integers

    A build either checks arithmetic overflow (the [dev] profile) or wraps (the
    [release] profile); the definitions take the profile as a parameter. *)

Class Profile := overflow_checks : bool.
Definition dev : Profile := true.
Definition release : Profile := false.

Definition u8_max : Z := 2 ^ 8 - 1.
Definition u16_max : Z := 2 ^ 16 - 1.
Definition u32_max : Z := 2 ^ 32 - 1.
Definition u64_max : Z := 2 ^ 64 - 1.
Definition i64_max : Z := 2 ^ 63 - 1.
Definition i64_min : Z := - 2 ^ 63.

Definition wrap_u (w z : Z) : Z := z mod 2 ^ w.
Definition wrap_i (w z : Z) : Z := (z + 2 ^ (w - 1)) mod 2 ^ w - 2 ^ (w - 1).

(** The result of an arithmetic operation whose mathematical value is [z]. *)
Definition arith_u `{Profile} {E} (w z : Z) : res E Z :=
  if (0 <=? z) && (z <? 2 ^ w) then Ok z
  else if overflow_checks then Panic else Ok (wrap_u w z).
Definition arith_i `{Profile} {E} (w z : Z) : res E Z :=
  if (- 2 ^ (w - 1) <=? z) && (z <? 2 ^ (w - 1)) then Ok z
  else if overflow_checks then Panic else Ok (wrap_i w z).

Lemma arith_u_small `{Profile} {E} w z : 0 <= z < 2 ^ w → arith_u (E:=E) w z = Ok z.
Proof.
  intros [??]. unfold arith_u.
  by rewrite (proj2 (Z.leb_le _ _)), (proj2 (Z.ltb_lt _ _)).
Qed.

Lemma arith_i_small `{Profile} {E} w z :
  - 2 ^ (w - 1) <= z < 2 ^ (w - 1) → arith_i (E:=E) w z = Ok z.
Proof.
  intros [??]. unfold arith_i.
  by rewrite (proj2 (Z.leb_le _ _)), (proj2 (Z.ltb_lt _ _)).
Qed.

Lemma wrap_u_small w z : 0 <= z < 2 ^ w → wrap_u w z = z.
Proof. apply Z.mod_small. Qed.

Lemma wrap_u_bound w z : 0 <= w → 0 <= wrap_u w z < 2 ^ w.
Proof. intros. apply Z.mod_pos_bound. lia. Qed.

(** ** Bytes *)

Abbreviation bytes := (list Z).
Definition is_byte (z : Z) : Prop := 0 <= z < 256.
Definition is_byteb (z : Z) : bool := (0 <=? z) && (z <? 256).
Abbreviation bytes_ok := (Forall is_byte).

Global Instance is_byte_dec z : Decision (is_byte z).
Proof. unfold is_byte. apply _. Defined.

(** [&buf[a..b]] *)
Definition slice {E} (buf : bytes) (a b : nat) : res E bytes :=
  if bool_decide (a ≤ b ∧ b ≤ length buf)%nat then Ok (take (b - a) (drop a buf)) else Panic.

Lemma slice_full {E} b : slice (E:=E) b 0 (length b) = Ok b.
Proof.
  unfold slice. rewrite bool_decide_eq_true_2 by lia.
  by rewrite drop_0, Nat.sub_0_r, firstn_all.
Qed.

(** Big-endian codec of [n] bytes ([put_u16], [get_u64], [u16::from_be_bytes], ...). *)
Fixpoint be_encode (n : nat) (z : Z) : bytes :=
  match n with
  | O => []
  | S n => (z / 2 ^ (8 * Z.of_nat n)) mod 256 :: be_encode n z
  end.
Definition be_decode (bs : bytes) : Z := foldl (λ acc b, acc * 256 + b) 0 bs.

Definition put_u16 (z : Z) : bytes := be_encode 2 z.
Definition put_u64 (z : Z) : bytes := be_encode 8 z.

(** [Buf::get_u8], [get_u16] and [get_u64]: the value and the rest, or a panic when the
    buffer is too short. *)
Definition get_uint {E} (n : nat) (bs : bytes) : res E (Z * bytes) :=
  if bool_decide (n ≤ length bs)%nat then Ok (be_decode (take n bs), drop n bs) else Panic.

Lemma length_be_encode n z : length (be_encode n z) = n.
Proof. induction n; simpl; auto. Qed.

Lemma be_encode_ok n z : bytes_ok (be_encode n z).
Proof. induction n; simpl; constructor; auto. apply Z.mod_pos_bound. lia. Qed.

Lemma be_decode_acc bs acc :
  foldl (λ acc b, acc * 256 + b) acc bs = acc * 2 ^ (8 * Z.of_nat (length bs)) + be_decode bs.
Proof.
  unfold be_decode. revert acc. induction bs as [|b bs IH]; intros acc; simpl; [lia|].
  rewrite (IH (acc * 256 + b)), (IH (0 * 256 + b)).
  replace (8 * Z.of_nat (S (length bs))) with (8 + 8 * Z.of_nat (length bs)) by lia.
  rewrite Z.pow_add_r by lia. change (2 ^ 8) with 256. ring.
Qed.

Lemma be_decode_cons b bs :
  be_decode (b :: bs) = b * 2 ^ (8 * Z.of_nat (length bs)) + be_decode bs.
Proof. unfold be_decode at 1. simpl. rewrite be_decode_acc. lia. Qed.

Lemma be_decode_bound bs : bytes_ok bs → 0 <= be_decode bs < 2 ^ (8 * Z.of_nat (length bs)).
Proof.
  induction 1 as [|b bs Hb _ IH]; [unfold be_decode; simpl; lia|].
  rewrite be_decode_cons. simpl length.
  replace (8 * Z.of_nat (S (length bs))) with (8 + 8 * Z.of_nat (length bs)) by lia.
  rewrite Z.pow_add_r by lia. change (2 ^ 8) with 256. unfold is_byte in Hb. nia.
Qed.

Lemma be_decode_encode_mod n z : be_decode (be_encode n z) = z mod 2 ^ (8 * Z.of_nat n).
Proof.
  induction n as [|n IH]; [by rewrite Z.mod_1_r|].
  simpl be_encode. rewrite be_decode_cons, length_be_encode, IH.
  replace (8 * Z.of_nat (S n)) with (8 * Z.of_nat n + 8) by lia.
  rewrite Z.pow_add_r by lia. change (2 ^ 8) with 256.
  set (p := 2 ^ (8 * Z.of_nat n)). assert (0 < p) by (apply Z.pow_pos_nonneg; lia).
  rewrite Z.rem_mul_r by lia. lia.
Qed.

Lemma be_decode_encode n z :
  0 <= z < 2 ^ (8 * Z.of_nat n) → be_decode (be_encode n z) = z.
Proof. intros. rewrite be_decode_encode_mod. by apply Z.mod_small. Qed.

(** [n] bytes only depend on the value modulo [256^n]. *)
Lemma be_encode_mod n z z' :
  z mod 2 ^ (8 * Z.of_nat n) = z' mod 2 ^ (8 * Z.of_nat n) → be_encode n z = be_encode n z'.
Proof.
  induction n as [|n IH]; [done|]. intros Heq. cbn [be_encode].
  replace (8 * Z.of_nat (S n)) with (8 * Z.of_nat n + 8) in Heq by lia.
  rewrite Z.pow_add_r in Heq by lia. change (2 ^ 8) with 256 in Heq.
  set (p := 2 ^ (8 * Z.of_nat n)) in *. assert (0 < p) by (apply Z.pow_pos_nonneg; lia).
  rewrite !Z.rem_mul_r in Heq by lia.
  pose proof (Z.mod_pos_bound z p ltac:(lia)). pose proof (Z.mod_pos_bound z' p ltac:(lia)).
  assert ((z / p) mod 256 = (z' / p) mod 256) as E by nia.
  rewrite E in *. f_equal. apply IH. lia.
Qed.

Lemma be_encode_decode bs : bytes_ok bs → be_encode (length bs) (be_decode bs) = bs.
Proof.
  induction 1 as [|b bs Hb Hbs IH]; [done|].
  pose proof (be_decode_bound bs Hbs) as Hd.
  set (p := 2 ^ (8 * Z.of_nat (length bs))) in *. assert (0 < p) by lia.
  cbn [length be_encode]. rewrite be_decode_cons. fold p. f_equal.
  - rewrite Z.div_add_l, (Z.div_small (be_decode bs)) by lia.
    rewrite Z.add_0_r. by apply Z.mod_small.
  - transitivity (be_encode (length bs) (be_decode bs)); [|done].
    apply be_encode_mod. fold p.
    rewrite Z.add_comm, Z.mod_add by lia. done.
Qed.

Lemma get_uint_encode {E} n z bs :
  0 <= z < 2 ^ (8 * Z.of_nat n) → get_uint (E:=E) n (be_encode n z ++ bs) = Ok (z, bs).
Proof.
  intros Hz. unfold get_uint.
  rewrite bool_decide_eq_true_2 by (rewrite length_app, length_be_encode; lia).
  rewrite take_app_length', drop_app_length' by (by rewrite length_be_encode).
  by rewrite be_decode_encode.
Qed.

Lemma get_uint_long {E} n bs :
  (n ≤ length bs)%nat → get_uint (E:=E) n bs = Ok (be_decode (take n bs), drop n bs).
Proof. intros. unfold get_uint. by rewrite bool_decide_eq_true_2. Qed.

Lemma length_put_u16 z : length (put_u16 z) = 2%nat.
Proof. apply length_be_encode. Qed.
Lemma length_put_u64 z : length (put_u64 z) = 8%nat.
Proof. apply length_be_encode. Qed.

Global Arguments be_encode : simpl never.
Global Arguments be_decode : simpl never.
Global Arguments put_u16 : simpl never.
Global Arguments put_u64 : simpl never.

(** ** Automation

    The [codec] database rewrites the lengths of encoded fields; [solve_len] closes the
    length side conditions of [take] and [drop] on concatenations. *)
Create HintDb codec discriminated.
#[export] Hint Rewrite @length_app @length_be_encode length_put_u16 length_put_u64
  @length_replicate @length_take @length_drop @length_cons @length_nil : codec.

Ltac solve_len := autorewrite with codec in *; first [lia | simpl in *; lia].
