(* ===== verification/RustStr.v ===== *)
(** * Rust's [str]: UTF-8, splitting, trimming and integer parsing

    What the program uses of [core::str], [alloc::string] and [core::num].  A [String]
    or [&str] is its list of UTF-8 bytes where the code works on bytes, and its list of
    scalar values ([char]s, as [Z]) where the code works on characters. *)

From Stdlib Require Import String Ascii.
From stdpp Require Import strings sets.
From S2P Require Import Prelude.

(** A string literal as its characters, which are its bytes where it is ASCII, and back. *)
Definition text (s : string) : list Z := (λ a, Z.of_N (N_of_ascii a)) <$> list_ascii_of_string s.
Definition untext (s : list Z) : string := string_of_list_ascii ((λ z, ascii_of_N (Z.to_N z)) <$> s).

Module Utf8.

Definition is_cont (b : Z) : bool := (128 <=? b) && (b <? 192).

(** Second byte of a three-byte and of a four-byte sequence (Unicode, table 3-7). *)
Definition second3 (b0 b1 : Z) : bool :=
  if b0 =? 224 then (160 <=? b1) && (b1 <? 192)
  else if b0 =? 237 then (128 <=? b1) && (b1 <? 160)
  else is_cont b1.
Definition second4 (b0 b1 : Z) : bool :=
  if b0 =? 240 then (144 <=? b1) && (b1 <? 192)
  else if b0 =? 244 then (128 <=? b1) && (b1 <? 144)
  else is_cont b1.

Fixpoint decode (bs : bytes) : option (list Z) :=
  match bs with
  | [] => Some []
  | b0 :: r0 =>
    if (0 <=? b0) && (b0 <? 128) then cons b0 <$> decode r0
    else match r0 with
    | [] => None
    | b1 :: r1 =>
      if (194 <=? b0) && (b0 <=? 223) then
        if is_cont b1 then cons ((b0 - 192) * 64 + (b1 - 128)) <$> decode r1 else None
      else match r1 with
      | [] => None
      | b2 :: r2 =>
        if (224 <=? b0) && (b0 <=? 239) then
          if second3 b0 b1 && is_cont b2
          then cons ((b0 - 224) * 4096 + (b1 - 128) * 64 + (b2 - 128)) <$> decode r2
          else None
        else match r2 with
        | [] => None
        | b3 :: r3 =>
          if (240 <=? b0) && (b0 <=? 244) && second4 b0 b1 && is_cont b2 && is_cont b3
          then cons ((b0 - 240) * 262144 + (b1 - 128) * 4096
                     + (b2 - 128) * 64 + (b3 - 128)) <$> decode r3
          else None
        end
      end
    end
  end.

(** [std::str::from_utf8(bs).is_ok()] *)
Definition from_utf8_ok (bs : bytes) : bool :=
  match decode bs with Some _ => true | None => false end.

Definition encode_char (c : Z) : bytes :=
  if c <? 128 then [c]
  else if c <? 2048 then [192 + c / 64; 128 + c mod 64]
  else if c <? 65536 then [224 + c / 4096; 128 + c / 64 mod 64; 128 + c mod 64]
  else [240 + c / 262144; 128 + c / 4096 mod 64; 128 + c / 64 mod 64; 128 + c mod 64].
Definition encode (cs : list Z) : bytes := cs ≫= encode_char.

(** Unicode scalar values. *)
Definition is_char (c : Z) : Prop := 0 <= c < 55296 ∨ 57344 <= c < 1114112.

End Utf8.

(** [char::is_whitespace] (the [White_Space] property). *)
Definition is_whitespace (c : Z) : bool :=
  ((9 <=? c) && (c <=? 13)) || (c =? 32) || (c =? 133) || (c =? 160) || (c =? 5760)
  || ((8192 <=? c) && (c <=? 8202)) || (c =? 8232) || (c =? 8233) || (c =? 8239)
  || (c =? 8287) || (c =? 12288).

Fixpoint trim_start (s : list Z) : list Z :=
  match s with
  | c :: s' => if is_whitespace c then trim_start s' else s
  | [] => []
  end.
Definition trim_end (s : list Z) : list Z := reverse (trim_start (reverse s)).
Definition trim (s : list Z) : list Z := trim_end (trim_start s).

(** [str::trim] on the UTF-8 bytes of a string. *)
Definition trim_bytes (bs : bytes) : bytes :=
  match Utf8.decode bs with Some cs => Utf8.encode (trim cs) | None => bs end.

(** [s.split(c)]: the pieces between the separators, at least one. *)
Fixpoint split (c : Z) (s : list Z) : list (list Z) :=
  match s with
  | [] => [[]]
  | x :: s' =>
    if x =? c then [] :: split c s'
    else match split c s' with
         | p :: ps => (x :: p) :: ps
         | [] => [[x]]
         end
  end.

(** [s.splitn(2, c)]: the text before the first separator and what follows it. *)
Fixpoint splitn2 (c : Z) (s : list Z) : list Z * option (list Z) :=
  match s with
  | [] => ([], None)
  | x :: s' =>
    if x =? c then ([], Some s')
    else let '(l, r) := splitn2 c s' in (x :: l, r)
  end.

(** [parts.join(c)] *)
Fixpoint join (c : Z) (ps : list (list Z)) : list Z :=
  match ps with
  | [] => []
  | [p] => p
  | p :: ps' => p ++ c :: join c ps'
  end.

(** The maximal runs of characters that are not separators: [s.split_whitespace()] and
    [s.split_ascii_whitespace()]. *)
Fixpoint split_runs (sep : Z → bool) (cur : list Z) (s : list Z) : list (list Z) :=
  let flush := match cur with [] => [] | _ => [reverse cur] end in
  match s with
  | [] => flush
  | c :: s' =>
    if sep c then flush ++ split_runs sep [] s'
    else split_runs sep (c :: cur) s'
  end.
Definition split_whitespace (s : list Z) : list (list Z) := split_runs is_whitespace [] s.

Definition is_ascii_whitespace (c : Z) : bool :=
  (c =? 32) || (c =? 9) || (c =? 10) || (c =? 12) || (c =? 13).
Definition split_ascii_whitespace (s : list Z) : list (list Z) := split_runs is_ascii_whitespace [] s.

(** [str::parse::<uN>()] with [max] the largest value of the type. *)
Inductive ParseIntError := PIEmpty | PIInvalidDigit | PIPosOverflow.

Definition is_ascii_digit (c : Z) : bool := (48 <=? c) && (c <=? 57).

Fixpoint parse_digits (max acc : Z) (s : list Z) : res ParseIntError Z :=
  match s with
  | [] => Ok acc
  | c :: s' =>
    if is_ascii_digit c then
      let acc' := acc * 10 + (c - 48) in
      if max <? acc' then Err PIPosOverflow else parse_digits max acc' s'
    else Err PIInvalidDigit
  end.

Definition parse_uint (max : Z) (s : list Z) : res ParseIntError Z :=
  match s with
  | [] => Err PIEmpty
  | [c] => if (c =? 43) || (c =? 45) then Err PIInvalidDigit else parse_digits max 0 s
  | c :: s' => if c =? 43 then parse_digits max 0 s' else parse_digits max 0 s
  end.

(** ** Lemmas *)

Module Utf8Facts.
Import Utf8.

Lemma encode_cons c cs : encode (c :: cs) = encode_char c ++ encode cs.
Proof. done. Qed.

Ltac zb :=
  repeat match goal with
  | H : (_ && _) = true |- _ => apply andb_true_iff in H as [? ?]
  | H : (_ && _) = false |- _ => apply andb_false_iff in H as [?|?]
  | H : (_ <? _) = true |- _ => apply Z.ltb_lt in H
  | H : (_ <? _) = false |- _ => apply Z.ltb_ge in H
  | H : (_ <=? _) = true |- _ => apply Z.leb_le in H
  | H : (_ <=? _) = false |- _ => apply Z.leb_gt in H
  | H : (_ =? _) = true |- _ => apply Z.eqb_eq in H
  | H : (_ =? _) = false |- _ => apply Z.eqb_neq in H
  end.

(** Any string's bytes decode to its characters. *)
Lemma decode_encode_char c bs :
  is_char c → decode (encode_char c ++ bs) = cons c <$> decode bs.
Proof.
  intros Hc. unfold is_char in Hc.
  assert (64 * (c / 64) + c mod 64 = c ∧ 0 <= c mod 64 < 64) as [E1 ?]
    by (split; [symmetry; apply Z.div_mod|apply Z.mod_pos_bound]; lia).
  assert (64 * (c / 64 / 64) + c / 64 mod 64 = c / 64 ∧ 0 <= c / 64 mod 64 < 64) as [E2 ?]
    by (split; [symmetry; apply Z.div_mod|apply Z.mod_pos_bound]; lia).
  assert (64 * (c / 64 / 64 / 64) + c / 64 / 64 mod 64 = c / 64 / 64
          ∧ 0 <= c / 64 / 64 mod 64 < 64) as [E3 ?]
    by (split; [symmetry; apply Z.div_mod|apply Z.mod_pos_bound]; lia).
  assert (c / 4096 = c / 64 / 64) as E4 by (rewrite Z.div_div by lia; done).
  assert (c / 262144 = c / 64 / 64 / 64) as E5 by (rewrite !Z.div_div by lia; done).
  unfold encode_char. rewrite ?E4, ?E5.
  assert (∀ (P : bool) (x y : option (list Z)), P = true → (if P then x else y) = x) as Ht
    by (by intros [] ??).
  assert (∀ (P : bool) (x y : option (list Z)), P = false → (if P then x else y) = y) as Hf
    by (by intros [] ??).
  repeat case_match; zb; simpl.
  - rewrite Ht by lia. done.
  - rewrite Hf by lia. rewrite Ht by lia. unfold is_cont. rewrite Ht by lia.
    by replace ((192 + c / 64 - 192) * 64 + (128 + c mod 64 - 128)) with c by lia.
  - rewrite !Hf by lia. rewrite !Ht; unfold second3, is_cont; repeat case_match; zb; try lia.
    all: by replace ((224 + c / 64 / 64 - 224) * 4096 + (128 + c / 64 mod 64 - 128) * 64
                     + (128 + c mod 64 - 128)) with c by lia.
  - rewrite !Hf by lia. rewrite !Ht; unfold second4, is_cont; repeat case_match; zb; try lia.
    all: by replace ((240 + c / 64 / 64 / 64 - 240) * 262144
                     + (128 + c / 64 / 64 mod 64 - 128) * 4096
                     + (128 + c / 64 mod 64 - 128) * 64 + (128 + c mod 64 - 128)) with c by lia.
Qed.

Lemma decode_encode cs : Forall is_char cs → decode (encode cs) = Some cs.
Proof.
  induction 1 as [|c cs Hc _ IH]; [done|].
  by rewrite encode_cons, decode_encode_char, IH.
Qed.
End Utf8Facts.

(** [split] and [join] are inverse on pieces without the separator. *)
Section split_join.
Context (c : Z).

Lemma split_ne s : split c s ≠ [].
Proof. induction s as [|x s IH]; simpl; [done|]. case_match; [done|]. by destruct (split c s). Qed.

Lemma join_cons p ps : ps ≠ [] → join c (p :: ps) = p ++ c :: join c ps.
Proof. by destruct ps. Qed.

Lemma join_split s : join c (split c s) = s.
Proof.
  induction s as [|x s IH]; [done|]. simpl. destruct (Z.eqb_spec x c) as [->|Hx].
  - rewrite join_cons by apply split_ne. simpl. by rewrite IH.
  - pose proof (split_ne s). destruct (split c s) as [|p [|q ps]]; simpl in *; congruence.
Qed.

Lemma split_no_sep s : Forall (λ p, c ∉ p) (split c s).
Proof.
  induction s as [|x s IH]; simpl; [constructor; [apply not_elem_of_nil|done]|].
  destruct (Z.eqb_spec x c) as [->|Hx]; [constructor; [apply not_elem_of_nil|done]|].
  destruct (split c s) as [|p ps]; [constructor; [set_solver|done]|].
  apply Forall_cons_1 in IH as [Hp Hps]. constructor; [|done]. set_solver.
Qed.

Lemma split_app_sep p s : c ∉ p → split c (p ++ c :: s) = p :: split c s.
Proof.
  induction p as [|x p IH]; intros Hp; simpl; [by rewrite Z.eqb_refl|].
  rewrite (proj2 (Z.eqb_neq x c)) by set_solver. rewrite IH by set_solver. done.
Qed.

Lemma split_single p : c ∉ p → split c p = [p].
Proof.
  induction p as [|x p IH]; intros Hp; simpl; [done|].
  rewrite (proj2 (Z.eqb_neq x c)) by set_solver. rewrite IH by set_solver. done.
Qed.

Lemma split_join ps : ps ≠ [] → Forall (λ p, c ∉ p) ps → split c (join c ps) = ps.
Proof.
  intros Hne Hps. induction Hps as [|p ps Hp Hps IH]; [done|].
  destruct ps as [|q ps]; [by apply split_single|].
  rewrite join_cons by done. rewrite split_app_sep by done. by rewrite IH.
Qed.

Lemma join_app ps qs : ps ≠ [] → qs ≠ [] → join c (ps ++ qs) = join c ps ++ c :: join c qs.
Proof.
  induction ps as [|p ps IH]; intros Hp Hq; [done|]. destruct ps as [|p' ps].
  - simpl app at 1. by rewrite join_cons.
  - rewrite <- app_comm_cons, !join_cons by done. rewrite IH by done. by rewrite <- app_assoc.
Qed.

(** [splitn2] cuts at the first separator. *)
Lemma splitn2_app s1 s2 : c ∉ s1 → splitn2 c (s1 ++ c :: s2) = (s1, Some s2).
Proof.
  induction s1 as [|x s1 IH]; intros Hc; simpl; [by rewrite Z.eqb_refl|].
  rewrite (proj2 (Z.eqb_neq x c)) by set_solver. by rewrite IH by set_solver.
Qed.

Lemma splitn2_none s : c ∉ s → splitn2 c s = (s, None).
Proof.
  induction s as [|x s IH]; intros Hc; simpl; [done|].
  rewrite (proj2 (Z.eqb_neq x c)) by set_solver. by rewrite IH by set_solver.
Qed.

Lemma splitn2_inv s l o :
  splitn2 c s = (l, o) →
  c ∉ l ∧ match o with Some r => s = l ++ c :: r | None => s = l end.
Proof.
  revert l o. induction s as [|x s IH]; simpl; intros l o Hs; simplify_eq.
  - split; [apply not_elem_of_nil|done].
  - destruct (Z.eqb_spec x c) as [->|Hx]; simplify_eq; [split; [apply not_elem_of_nil|done]|].
    destruct (splitn2 c s) as [l' o'] eqn:E. simplify_eq. destruct (IH _ _ eq_refl) as [Hl Ho].
    split; [set_solver|]. destruct o; by rewrite Ho.
Qed.
End split_join.

(** Splitting into runs undoes joining with separators. *)
Section runs.
Context (sep : Z → bool).

Definition run (w : list Z) : Prop := w ≠ [] ∧ Forall (λ c, sep c = false) w.

Lemma split_runs_word w cur s :
  Forall (λ c, sep c = false) w → split_runs sep cur (w ++ s) = split_runs sep (reverse w ++ cur) s.
Proof.
  intros Hw. revert cur. induction Hw as [|c w Hc _ IH]; intros cur; [done|].
  simpl. rewrite Hc, IH. by rewrite reverse_cons, <- app_assoc.
Qed.

Lemma split_runs_seps tl s : Forall (λ c, sep c = true) tl → split_runs sep [] (tl ++ s) = split_runs sep [] s.
Proof. induction 1 as [|c tl Hc _ IH]; [done|]. simpl. by rewrite Hc. Qed.

(** A word and a separator behind it. *)
Lemma split_runs_cons w c s : run w → sep c = true →
  split_runs sep [] (w ++ c :: s) = w :: split_runs sep [] s.
Proof.
  intros [Hne Hw] Hc. rewrite split_runs_word by done. cbn [split_runs]. rewrite Hc, app_nil_r.
  destruct (reverse w) eqn:E; [|by rewrite <- E, reverse_involutive].
  by apply (f_equal reverse) in E; rewrite reverse_involutive in E.
Qed.

Lemma split_runs_last w : run w → split_runs sep [] w = [w].
Proof.
  intros [Hne Hw]. rewrite <- (app_nil_r w) at 1. rewrite split_runs_word by done.
  cbn [split_runs]. rewrite app_nil_r. destruct (reverse w) eqn:E; [|by rewrite <- E, reverse_involutive].
  by apply (f_equal reverse) in E; rewrite reverse_involutive in E.
Qed.

Lemma split_runs_join c ws tl : sep c = true → Forall run ws → Forall (λ c, sep c = true) tl →
  split_runs sep [] (join c ws ++ tl) = ws.
Proof.
  intros Hc Hws Htl. induction Hws as [|w ws Hw Hws IH].
  { simpl. rewrite <- (app_nil_r tl). by rewrite split_runs_seps. }
  destruct ws as [|w' ws].
  - destruct Htl as [|t tl Ht Htl]; [rewrite app_nil_r; by apply split_runs_last|].
    change (join c [w]) with w. rewrite split_runs_cons by done.
    rewrite <- (app_nil_r tl). by rewrite split_runs_seps.
  - rewrite join_cons by done. rewrite <- app_assoc. cbn [app]. by rewrite split_runs_cons, IH.
Qed.
End runs.

Definition word (w : list Z) : Prop := run is_whitespace w.

Lemma split_whitespace_join ws : Forall word ws → split_whitespace (join 32 ws) = ws.
Proof.
  intros Hws. rewrite <- (app_nil_r (join 32 ws)). by apply split_runs_join.
Qed.
