(* ===== verification/Io.v ===== *)
(** * I/O interfaces

    [std::io::ErrorKind], and the two interfaces the stream code is written against:
    tokio's [AsyncRead] and [AsyncWrite].  An implementation is a state type with a
    non-blocking operation; [AsyncReadOk] and [AsyncWriteOk] state the contract of the
    traits, and clients are verified against the contract, for every implementation. *)

From S2P Require Import Prelude.

(** The error kinds the program constructs or inspects; [KOs] stands for the kinds that
    only the operating system produces. *)
Inductive ErrorKind :=
  | ConnectionRefused
  | UnexpectedEof
  | WriteZero
  | TimedOut
  | NotConnected
  | InvalidData
  | InvalidInput
  | AddrInUse
  | OtherError
  | KOs (code : Z).

Global Instance ErrorKind_eq_dec : EqDecision ErrorKind.
Proof. solve_decision. Defined.

(** ** [AsyncReadExt::read_exact] on a source of bytes

    A source delivers [avail], in pieces that [read_exact] hides, and then reports
    [fin]: [UnexpectedEof] at end of file, or the error of the connection. *)
Record Source := { avail : bytes; fin : ErrorKind }.

Definition cursor (bs : bytes) : Source := {| avail := bs; fin := UnexpectedEof |}.

Definition read_exact (n : nat) (s : Source) : res ErrorKind (bytes * Source) :=
  if bool_decide (n ≤ length (avail s))%nat
  then Ok (take n (avail s), {| avail := drop n (avail s); fin := fin s |})
  else Err (fin s).

Lemma read_exact_app n bs rest k :
  length bs = n →
  read_exact n {| avail := bs ++ rest; fin := k |} = Ok (bs, {| avail := rest; fin := k |}).
Proof.
  intros <-. unfold read_exact. simpl.
  rewrite bool_decide_eq_true_2 by (rewrite length_app; lia).
  by rewrite take_app_length, drop_app_length.
Qed.

Lemma read_exact_one b rest k :
  read_exact 1 {| avail := b :: rest; fin := k |} = Ok ([b], {| avail := rest; fin := k |}).
Proof. exact (read_exact_app 1 [b] rest k eq_refl). Qed.

Lemma read_exact_short n s :
  (length (avail s) < n)%nat → read_exact n s = Err (fin s).
Proof. intros. unfold read_exact. rewrite bool_decide_eq_false_2 by lia. done. Qed.

(** ** Non-blocking readers and writers *)

(** [poll_read n s]: a read into a buffer with [n] bytes of room.  No byte at all,
    with [0 < n], is end of file. *)
Class AsyncRead (S : Type) := {
  poll_read : nat → S → poll (res ErrorKind bytes) * S
}.

(** [poll_write bs s]: the number of bytes of [bs] that were accepted. *)
Class AsyncWrite (S : Type) := {
  poll_write : bytes → S → poll (res ErrorKind nat) * S;
  poll_flush : S → poll (res ErrorKind ()) * S
}.

(** [readable s c]: [c] is what the reader has still to deliver.  Every read takes a prefix
    of it that fits the buffer, and delivers nothing only at its end. *)
Class AsyncReadOk (S : Type) `{AsyncRead S} := {
  readable : S → bytes → Prop;
  poll_read_spec : ∀ n s c r s',
    readable s c → poll_read n s = (r, s') →
    match r with
    | Pending | Ready (Err _) => readable s' c
    | Ready (Ok bs) =>
      ∃ c', c = bs ++ c' ∧ readable s' c' ∧ (length bs ≤ n)%nat
        ∧ (bs = [] → (0 < n)%nat → c = [])
    | Ready Panic | NoFuel => False
    end
}.

(** The same for a reader that is not used again after an error, and that reports the end
    only if its stream is [whole]. *)
Class ReadOk (S : Type) `{AsyncRead S} := {
  delivers : S → bytes → Prop;
  whole : Prop;
  poll_read_delivers : ∀ n s c r s',
    delivers s c → poll_read n s = (r, s') →
    match r with
    | Pending => delivers s' c
    | Ready (Ok bs) =>
      ∃ c', c = bs ++ c' ∧ delivers s' c' ∧ (length bs ≤ n)%nat
        ∧ (bs = [] → (0 < n)%nat → c = [] ∧ whole)
    | Ready (Err _) => True
    | Ready Panic | NoFuel => False
    end
}.

#[global] Instance readable_ReadOk (S : Type) `{AsyncReadOk S} : ReadOk S.
Proof.
  refine {| delivers := readable; whole := True |}. intros n s c r s' Hs Hr.
  pose proof (poll_read_spec n s c r s' Hs Hr) as Hp. destruct r as [|[]|]; naive_solver.
Defined.

(** [accepted s w o]: [w] is what the writer has accepted so far, and [o] the buffer of a
    write that was left pending, which the caller must submit again. *)
Definition resubmits (o : option bytes) (bs : bytes) : Prop := o = None ∨ o = Some bs.

Class AsyncWriteOk (S : Type) `{AsyncWrite S} := {
  accepted : S → bytes → option bytes → Prop;
  poll_write_spec : ∀ bs s w o r s',
    accepted s w o → resubmits o bs → poll_write bs s = (r, s') →
    match r with
    | Pending => ∃ o', resubmits o' bs ∧ accepted s' w o'
    | Ready (Ok n) => (n ≤ length bs)%nat ∧ accepted s' (w ++ take n bs) None
    | Ready (Err _) => True
    | Ready Panic | NoFuel => False
    end;
  poll_flush_spec : ∀ s w r s',
    accepted s w None → poll_flush s = (r, s') →
    match r with
    | Pending | Ready (Ok _) => accepted s' w None
    | Ready (Err _) => True
    | Ready Panic | NoFuel => False
    end
}.

(** The same for a writer to which only the buffers that it [offers] to take are given. *)
Class WriteOk (S : Type) `{AsyncWrite S} := {
  offers : bytes → Prop;
  taken : S → bytes → option bytes → Prop;
  poll_write_taken : ∀ bs s w o r s',
    offers bs → taken s w o → resubmits o bs → poll_write bs s = (r, s') →
    match r with
    | Pending => ∃ o', resubmits o' bs ∧ taken s' w o'
    | Ready (Ok n) => (n ≤ length bs)%nat ∧ taken s' (w ++ take n bs) None
    | Ready (Err _) => True
    | Ready Panic | NoFuel => False
    end;
  poll_flush_taken : ∀ s w r s',
    taken s w None → poll_flush s = (r, s') →
    match r with
    | Pending | Ready (Ok _) => taken s' w None
    | Ready (Err _) => True
    | Ready Panic | NoFuel => False
    end
}.

#[global] Instance accepted_WriteOk (S : Type) `{AsyncWriteOk S} : WriteOk S.
Proof.
  refine {| offers := λ _, True; taken := accepted |}.
  - intros bs s w o r s' _. apply poll_write_spec.
  - apply poll_flush_spec.
Defined.

(** ** Asynchronous operations on a state

    [ready!(m)?] is the bind of this monad: it returns early when [m] is pending or
    fails, keeping the effects [m] had on the state. *)

Definition async (St E A : Type) : Type := St → poll (res E A) * St.

Definition ret {St E A} (a : A) : async St E A := λ st, (Ready (Ok a), st).
Definition abind {St E A B} (m : async St E A) (f : A → async St E B) : async St E B := λ st,
  match m st with
  | (Ready (Ok a), st') => f a st'
  | (Ready (Err e), st') => (Ready (Err e), st')
  | (Ready Panic, st') => (Ready Panic, st')
  | (Pending, st') => (Pending, st')
  | (NoFuel, st') => (NoFuel, st')
  end.

Declare Scope async_scope.
Delimit Scope async_scope with async.
Notation "'let!' x ':=' m 'in' k" := (abind m (λ x, k))
  (at level 200, x name, m at level 100, k at level 200, right associativity,
   format "'let!'  x  ':='  m  'in' '//' k") : async_scope.
Notation "'let!' ' x ':=' m 'in' k" := (abind m (λ x, k))
  (at level 200, x strict pattern, m at level 100, k at level 200, right associativity,
   format "'let!'  ' x  ':='  m  'in' '//' k") : async_scope.
Notation "m ';!' k" := (abind m (λ _, k))
  (at level 199, right associativity, format "m  ';!' '//' k") : async_scope.

Definition no_fuel {St E A} : async St E A := λ st, (NoFuel, st).
Definition get_state {St E} : async St E St := λ st, (Ready (Ok st), st).
Definition put_state {St E} (st' : St) : async St E () := λ _, (Ready (Ok ()), st').
Definition lift {St E A} (m : res E A) : async St E A := λ st, (Ready m, st).
Definition fail {St E A} (e : E) : async St E A := λ st, (Ready (Err e), st).
Definition async_map_err {St E F A} (f : E → F) (m : async St E A) : async St F A := λ st,
  match m st with
  | (Ready r, st') => (Ready (map_err f r), st')
  | (Pending, st') => (Pending, st')
  | (NoFuel, st') => (NoFuel, st')
  end.

(** ** Reasoning about asynchronous operations

    [wp m Φ Π Ξ st]: from [st], [m] neither panics nor runs out of fuel; if it completes
    then [Φ] holds of the value and the state, if it is pending then [Π] holds of the
    state, and if it fails then [Ξ] holds of the error and the state. *)

Definition wp {St E A} (m : async St E A) (Φ : A → St → Prop) (Π : St → Prop)
    (Ξ : E → St → Prop) (st : St) : Prop :=
  match m st with
  | (Ready (Ok a), st') => Φ a st'
  | (Ready (Err e), st') => Ξ e st'
  | (Pending, st') => Π st'
  | (Ready Panic, _) | (NoFuel, _) => False
  end.

Section wp.
Context {St E A B : Type}.
Implicit Types (Π : St → Prop) (Ξ : E → St → Prop).

Lemma wp_bind (m : async St E A) (f : A → async St E B) Φ Π Ξ st :
  wp m (λ a, wp (f a) Φ Π Ξ) Π Ξ st → wp (abind m f) Φ Π Ξ st.
Proof. unfold wp, abind. by destruct (m st) as [[|[]|] ?]. Qed.

Lemma wp_ret (a : A) Φ Π Ξ st : Φ a st → wp (ret a) Φ Π Ξ st.
Proof. done. Qed.

Lemma wp_fail (e : E) (Φ : A → St → Prop) Π Ξ st : Ξ e st → wp (fail e) Φ Π Ξ st.
Proof. done. Qed.

Lemma wp_lift (m : res E A) a Φ Π Ξ st : m = Ok a → Φ a st → wp (lift m) Φ Π Ξ st.
Proof. by intros -> ?. Qed.

Lemma wp_mono (m : async St E A) (Φ Φ' : A → St → Prop) Π Π' Ξ Ξ' st :
  wp m Φ Π Ξ st →
  (∀ a st', Φ a st' → Φ' a st') → (∀ st', Π st' → Π' st') → (∀ e st', Ξ e st' → Ξ' e st') →
  wp m Φ' Π' Ξ' st.
Proof. unfold wp. destruct (m st) as [[|[]|] ?]; naive_solver. Qed.

Lemma wp_map_err {F} (g : F → E) (m : async St F A) Φ Π Ξ st :
  wp m Φ Π (λ e, Ξ (g e)) st → wp (async_map_err g m) Φ Π Ξ st.
Proof. unfold wp, async_map_err. by destruct (m st) as [[|[]|] ?]. Qed.

(** A pending result comes from a pending transport. *)
Definition never_pending (m : async St E A) : Prop := ∀ st st', m st ≠ (Pending, st').
End wp.

Lemma never_pending_bind {St E A B} (m : async St E A) (f : A → async St E B) :
  never_pending m → (∀ a, never_pending (f a)) → never_pending (abind m f).
Proof.
  intros Hm Hf st st'. unfold abind. specialize (Hm st).
  destruct (m st) as [[|[]|] st1] eqn:E1; try done; [by destruct (Hm st1)|apply Hf].
Qed.

Lemma never_pending_map_err {St E F A} (g : E → F) (m : async St E A) :
  never_pending m → never_pending (async_map_err g m).
Proof.
  intros Hm st st'. unfold async_map_err. specialize (Hm st).
  destruct (m st) as [[|[]|] st1] eqn:E1; try done. by destruct (Hm st1).
Qed.

Create HintDb progress discriminated.
#[export] Hint Resolve never_pending_bind never_pending_map_err : progress.

(** ** A scripted socket

    The two interfaces are inhabited: a socket that serves a list of events, one per
    poll, with the rest of a delivery that does not fit the buffer kept for the next. *)

Module Script.

Inductive event := EvPending | EvError (e : ErrorKind) | EvBytes (bs : bytes).

Definition source := list event.

Fixpoint source_contents (s : source) : bytes :=
  match s with
  | [] => []
  | EvBytes bs :: s' => bs ++ source_contents s'
  | _ :: s' => source_contents s'
  end.

Fixpoint source_read (n : nat) (s : source) : poll (res ErrorKind bytes) * source :=
  match s with
  | [] => (Ready (Ok []), [])
  | EvPending :: s' => (Pending, s')
  | EvError e :: s' => (Ready (Err e), s')
  | EvBytes [] :: s' => source_read n s'
  | EvBytes bs :: s' => (Ready (Ok (take n bs)), EvBytes (drop n bs) :: s')
  end.

Global Instance source_AsyncRead : AsyncRead source := { poll_read := source_read }.

Global Instance source_AsyncReadOk : AsyncReadOk source.
Proof.
  refine {| readable s c := source_contents s = c |}.
  intros n s c r s' <- H. revert r s' H.
  induction s as [|[|e|[|b bs]] s IH]; simpl; intros r s' H; simplify_eq; try done.
  - exists []. split_and!; [done|done|simpl; lia|done].
  - by apply IH.
  - exists (drop n (b :: bs) ++ source_contents s). split_and!; [|done| |].
    + by rewrite app_assoc, take_drop.
    + solve_len.
    + destruct n; [lia|done].
Defined.

(** Each poll of the sink accepts at most [limit] bytes when the next quota is
    [Some limit], and is pending when it is [None]; it accepts everything when the
    script has run out. *)
Record sink := { quota : list (option nat); got : bytes }.

Definition sink_write (bs : bytes) (s : sink) : poll (res ErrorKind nat) * sink :=
  match quota s with
  | [] => (Ready (Ok (length bs)), {| quota := []; got := got s ++ bs |})
  | None :: q => (Pending, {| quota := q; got := got s |})
  | Some k :: q =>
    let n := Nat.min k (length bs) in
    (Ready (Ok n), {| quota := q; got := got s ++ take n bs |})
  end.
Definition sink_flush (s : sink) : poll (res ErrorKind ()) * sink := (Ready (Ok ()), s).

Global Instance sink_AsyncWrite : AsyncWrite sink :=
  { poll_write := sink_write; poll_flush := sink_flush }.

Global Instance sink_AsyncWriteOk : AsyncWriteOk sink.
Proof.
  refine {| accepted s w o := got s = w ∧ o = None |};
    simpl; unfold sink_write, sink_flush.
  - intros bs s w o r s' [<- ->] _ H.
    destruct (quota s) as [|[k|] q]; simplify_eq/=.
    + by rewrite firstn_all.
    + split; [lia|done].
    + exists None. by repeat split; left.
  - intros s w r s' [<- _] H. by simplify_eq.
Defined.

(** Both directions of a socket. *)
Definition duplex : Type := source * sink.

Global Instance duplex_AsyncRead : AsyncRead duplex :=
  { poll_read n s := let '(p, r) := source_read n s.1 in (p, (r, s.2)) }.
Global Instance duplex_AsyncWrite : AsyncWrite duplex :=
  { poll_write bs s := let '(p, w) := sink_write bs s.2 in (p, (s.1, w));
    poll_flush s := let '(p, w) := sink_flush s.2 in (p, (s.1, w)) }.

Global Instance duplex_AsyncReadOk : AsyncReadOk duplex.
Proof.
  refine {| readable s c := readable s.1 c |}.
  intros n [r k] c p s' Hc Hp. simpl in *. destruct (source_read n r) as [q r'] eqn:E.
  pose proof (poll_read_spec _ _ _ _ _ Hc E) as Hs. injection Hp as <- <-. exact Hs.
Defined.

Global Instance duplex_AsyncWriteOk : AsyncWriteOk duplex.
Proof.
  refine {| accepted s w o := accepted s.2 w o |}.
  - intros bs [r k] w o p s' Ha Ho Hp. simpl in *. destruct (sink_write bs k) as [q k'] eqn:E.
    simplify_eq. pose proof (poll_write_spec _ _ _ _ _ _ Ha Ho E) as Hs.
    by destruct p as [|[]|].
  - intros [r k] w p s' Ha Hp. simpl in *. simplify_eq. done.
Defined.

End Script.
