(* ===== verification/Address.v ===== *)
(** * Shadowsocks target addresses (lib/shadowsocks/src/socks5.rs, addr.rs)

    The SOCKS5 reply codes and errors, and the wire format of an address: the type byte,
    the host and the big-endian port. *)

From S2P Require Import Prelude RustStr Io.

Module Socks5.

Inductive Reply :=
  | Succeeded
  | GeneralFailure
  | ConnectionNotAllowed
  | NetworkUnreachable
  | HostUnreachable
  | ReplyConnectionRefused
  | TtlExpired
  | CommandNotSupported
  | ReplyAddressTypeNotSupported
  | OtherReply (c : Z).

Definition as_u8 (r : Reply) : Z :=
  match r with
  | Succeeded => 0
  | GeneralFailure => 1
  | ConnectionNotAllowed => 2
  | NetworkUnreachable => 3
  | HostUnreachable => 4
  | ReplyConnectionRefused => 5
  | TtlExpired => 6
  | CommandNotSupported => 7
  | ReplyAddressTypeNotSupported => 8
  | OtherReply c => c
  end.

Definition from_u8 (code : Z) : Reply :=
  match code with
  | 0 => Succeeded
  | 1 => GeneralFailure
  | 2 => ConnectionNotAllowed
  | 3 => NetworkUnreachable
  | 4 => HostUnreachable
  | 5 => ReplyConnectionRefused
  | 6 => TtlExpired
  | 7 => CommandNotSupported
  | 8 => ReplyAddressTypeNotSupported
  | _ => OtherReply code
  end.

Inductive Error :=
  | Io (e : ErrorKind)
  | AddressTypeNotSupported (t : Z)
  | AddressDomainInvalidEncoding
  | UnsupportedSocksVersion (v : Z)
  | UnsupportedCommand (c : Z)
  | UnsupportedPasswdAuthVersion (v : Z)
  | PasswdAuthInvalidRequest
  | EReply (r : Reply).

(** [impl From<Error> for io::Error], up to the kind of the error. *)
Definition into_io (err : Error) : ErrorKind :=
  match err with
  | Io e => e
  | _ => OtherError
  end.

Definition as_reply (err : Error) : Reply :=
  match err with
  | Io e =>
    match e with
    | ConnectionRefused => ReplyConnectionRefused
    | _ => GeneralFailure
    end
  | AddressTypeNotSupported _ => ReplyAddressTypeNotSupported
  | AddressDomainInvalidEncoding => GeneralFailure
  | UnsupportedSocksVersion _ => GeneralFailure
  | UnsupportedCommand _ => CommandNotSupported
  | UnsupportedPasswdAuthVersion _ => GeneralFailure
  | PasswdAuthInvalidRequest => GeneralFailure
  | EReply r => r
  end.

End Socks5.

Definition ADDR_TYPE_IPV4 : Z := 1.
Definition ADDR_TYPE_DOMAIN_NAME : Z := 3.
Definition ADDR_TYPE_IPV6 : Z := 4.

(** [std::net::SocketAddr]: the four octets, or the eight 16-bit segments. *)
Inductive SocketAddr :=
  | V4 (octets : bytes) (port : Z)
  | V6 (segments : list Z) (port flowinfo scope_id : Z).

Inductive Address :=
  | SocketAddress (sa : SocketAddr)
  | DomainNameAddress (domain : bytes) (port : Z).

Global Instance SocketAddr_eq_dec : EqDecision SocketAddr.
Proof. solve_decision. Defined.
Global Instance Address_eq_dec : EqDecision Address.
Proof. solve_decision. Defined.

(** What the Rust types guarantee: four octets, eight [u16] segments, a [u16] port, a
    [String] that is UTF-8. *)
Definition is_u16 (z : Z) : Prop := 0 <= z < 2 ^ 16.

Definition socket_addr_wf (sa : SocketAddr) : Prop :=
  match sa with
  | V4 ip port => length ip = 4%nat ∧ bytes_ok ip ∧ is_u16 port
  | V6 segs port flow scope =>
    length segs = 8%nat ∧ Forall is_u16 segs ∧ is_u16 port
    ∧ 0 <= flow < 2 ^ 32 ∧ 0 <= scope < 2 ^ 32
  end.

Definition address_wf (a : Address) : Prop :=
  match a with
  | SocketAddress sa => socket_addr_wf sa
  | DomainNameAddress dn port =>
    bytes_ok dn ∧ Utf8.from_utf8_ok dn = true ∧ is_u16 port
  end.

(** [impl From<SocketAddr>], [impl From<(&str, u16)>] *)
Definition from_socket_addr (sa : SocketAddr) : Address := SocketAddress sa.
Definition from_pair (dn : bytes) (port : Z) : Address := DomainNameAddress dn port.

Definition get_addr_len (a : Address) : nat :=
  match a with
  | SocketAddress (V4 _ _) => 1 + 4 + 2
  | SocketAddress (V6 _ _ _ _) => 1 + 8 * 2 + 2
  | DomainNameAddress dn _ => 1 + 1 + length dn + 2
  end.

Definition serialized_len (a : Address) : nat := get_addr_len a.

(** [Address::write_to_buf]: the buffer after the call. *)
Definition write_to_buf {E} (a : Address) (buf : bytes) : res E bytes :=
  match a with
  | SocketAddress (V4 ip port) =>
    Ok (buf ++ [ADDR_TYPE_IPV4] ++ ip ++ put_u16 port)
  | SocketAddress (V6 segs port _ _) =>
    Ok (buf ++ [ADDR_TYPE_IPV6] ++ (segs ≫= put_u16) ++ put_u16 port)
  | DomainNameAddress dn port =>
    _ ← assert_ (bool_decide (length dn ≤ 255)%nat);
    Ok (buf ++ [ADDR_TYPE_DOMAIN_NAME] ++ [Z.of_nat (length dn)] ++ dn ++ put_u16 port)
  end.

(** The [n] big-endian 16-bit integers of a buffer. *)
Fixpoint be_u16s (n : nat) (buf : bytes) : list Z :=
  match n with
  | O => []
  | S n => be_decode (take 2 buf) :: be_u16s n (drop 2 buf)
  end.

(** [Address::read_from]: the address and what is left of the stream.  The ports and segments,
    which the source reads through [u16] pointers into byte buffers (unsafe, and undefined
    where the buffer is not aligned), are read here byte by byte in network order. *)
Definition read_from (stream : Source) : res Socks5.Error (Address * Source) :=
  '(addr_type_buf, stream) ← map_err Socks5.Io (read_exact 1 stream);
  let addr_type := default 0 (addr_type_buf !! 0%nat) in
  if addr_type =? ADDR_TYPE_IPV4 then
    '(buf, stream) ← map_err Socks5.Io (read_exact 6 stream);
    let v4addr := take 4 buf in
    let port := be_decode (drop 4 buf) in
    Ok (SocketAddress (V4 v4addr port), stream)
  else if addr_type =? ADDR_TYPE_IPV6 then
    '(buf, stream) ← map_err Socks5.Io (read_exact 18 stream);
    let words := be_u16s 9 buf in
    let v6addr := take 8 words in
    let port := default 0 (words !! 8%nat) in
    Ok (SocketAddress (V6 v6addr port 0 0), stream)
  else if addr_type =? ADDR_TYPE_DOMAIN_NAME then
    '(length_buf, stream) ← map_err Socks5.Io (read_exact 1 stream);
    let length := Z.to_nat (default 0 (length_buf !! 0%nat)) in
    let buf_len := (length + 2)%nat in
    '(raw_addr, stream) ← map_err Socks5.Io (read_exact buf_len stream);
    let port := be_decode (drop length raw_addr) in
    let raw_addr := take length raw_addr in
    if Utf8.from_utf8_ok raw_addr then Ok (DomainNameAddress raw_addr port, stream)
    else Err Socks5.AddressDomainInvalidEncoding
  else Err (Socks5.AddressTypeNotSupported addr_type).

(** The IPv6 flow label and scope are not part of the format. *)
Definition wire_address (a : Address) : Address :=
  match a with
  | SocketAddress (V6 segs port _ _) => SocketAddress (V6 segs port 0 0)
  | _ => a
  end.

(** ** Properties *)

Definition sendable (a : Address) : Prop :=
  match a with DomainNameAddress dn _ => (length dn ≤ 255)%nat | _ => True end.

Lemma length_put_u16s (segs : list Z) : length (segs ≫= put_u16) = (2 * length segs)%nat.
Proof.
  induction segs as [|s segs IH]; [done|].
  cbn [mbind list_bind]. rewrite length_app, IH. solve_len.
Qed.

Lemma be_u16s_put segs rest :
  Forall is_u16 segs → be_u16s (length segs) ((segs ≫= put_u16) ++ rest) = segs.
Proof.
  induction 1 as [|s segs Hs _ IH]; [done|].
  cbn [mbind list_bind length be_u16s]. rewrite <- app_assoc.
  rewrite take_app_length', drop_app_length' by solve_len.
  rewrite IH. f_equal. apply be_decode_encode. exact Hs.
Qed.

(** The wire form of a sendable address. *)
Definition address_wire (a : Address) : bytes :=
  match a with
  | SocketAddress (V4 ip port) => ADDR_TYPE_IPV4 :: ip ++ put_u16 port
  | SocketAddress (V6 segs port _ _) => ADDR_TYPE_IPV6 :: (segs ≫= put_u16) ++ put_u16 port
  | DomainNameAddress dn port =>
    ADDR_TYPE_DOMAIN_NAME :: Z.of_nat (length dn) :: dn ++ put_u16 port
  end.

Lemma write_to_buf_wire {E} a buf :
  sendable a → write_to_buf (E:=E) a buf = Ok (buf ++ address_wire a).
Proof.
  destruct a as [[]|dn port]; simpl; try done.
  intros ?. by rewrite bool_decide_eq_true_2.
Qed.

Lemma length_address_wire a : address_wf a → length (address_wire a) = serialized_len a.
Proof.
  destruct a as [[]|dn port]; simpl; autorewrite with codec;
    rewrite ?length_put_u16s; naive_solver lia.
Qed.

Lemma read_from_wire a rest k :
  address_wf a → sendable a →
  read_from {| avail := address_wire a ++ rest; fin := k |}
  = Ok (wire_address a, {| avail := rest; fin := k |}).
Proof.
  intros Hwf Hs. unfold read_from.
  destruct a as [[ip port|segs port flow scope]|dn port]; cbn [address_wire app].
  - destruct Hwf as (Hl & Hb & Hp).
    rewrite read_exact_one. simpl.
    rewrite (read_exact_app 6) by solve_len. simpl.
    rewrite take_app_length', drop_app_length' by done.
    unfold put_u16. by rewrite be_decode_encode.
  - destruct Hwf as (Hl & Hb & Hp & _).
    rewrite read_exact_one. cbn -[be_u16s read_exact be_encode].
    rewrite (read_exact_app 18)
      by (rewrite length_app, length_put_u16s; solve_len).
    cbn [map_err mbind res_bind].
    change (put_u16 port) with ([port] ≫= put_u16).
    rewrite <- bind_app, <- (app_nil_r (_ ≫= _)).
    replace 9%nat with (length (segs ++ [port])) by (rewrite length_app; simpl; lia).
    rewrite be_u16s_put by (apply Forall_app; auto).
    rewrite take_app_length' by done.
    rewrite lookup_app_r by lia. by rewrite Hl.
  - destruct Hwf as (Hb & Hu & Hp). cbn in Hs.
    rewrite read_exact_one. cbn [map_err mbind res_bind].
    change (default 0 ([ADDR_TYPE_DOMAIN_NAME] !! 0%nat)) with 3. simpl (Z.eqb _ _).
    cbn iota. rewrite read_exact_one.
    cbn [map_err mbind res_bind]. simpl (default _ _). rewrite Nat2Z.id.
    rewrite (read_exact_app (length dn + 2)) by solve_len.
    cbn [map_err mbind res_bind].
    rewrite take_app_length, drop_app_length, Hu. unfold put_u16.
    by rewrite be_decode_encode.
Qed.

(** Reading consumes exactly the wire form of the address it returns. *)
Lemma read_exact_Ok n s bs s' :
  read_exact n s = Ok (bs, s') →
  length bs = n ∧ avail s = bs ++ avail s' ∧ fin s' = fin s.
Proof.
  unfold read_exact. case_bool_decide; [|done]. intros. simplify_eq/=.
  rewrite take_drop, length_take. split_and!; [lia|done|done].
Qed.

Lemma be_u16s_encode n buf :
  length buf = (2 * n)%nat → bytes_ok buf →
  (be_u16s n buf ≫= put_u16) = buf ∧ length (be_u16s n buf) = n ∧ Forall is_u16 (be_u16s n buf).
Proof.
  revert buf. induction n as [|n IH]; intros buf Hl Hb.
  - destruct buf; [|done]. split_and!; [done|done|constructor].
  - destruct buf as [|b1 [|b2 buf]]; [done|simpl in Hl; lia|].
    apply Forall_cons_1 in Hb as [H1 [H2 Hb]%Forall_cons_1].
    destruct (IH buf) as (E & L & F); [simpl in Hl; lia|done|].
    assert (bytes_ok [b1; b2]) as H12 by (repeat constructor; apply H1 || apply H2).
    change (be_u16s (S n) (b1 :: b2 :: buf)) with (be_decode [b1; b2] :: be_u16s n buf).
    split_and!.
    + rewrite bind_cons, E. change (put_u16 _) with (be_encode (length [b1; b2]) (be_decode [b1; b2])).
      by rewrite be_encode_decode.
    + simpl. lia.
    + constructor; [|done]. exact (be_decode_bound [b1; b2] H12).
Qed.

Lemma put_u16_decode buf : length buf = 2%nat → bytes_ok buf → put_u16 (be_decode buf) = buf.
Proof. intros Hl Hb. unfold put_u16. rewrite <- Hl. by apply be_encode_decode. Qed.

Lemma be_decode_u16 buf : length buf = 2%nat → bytes_ok buf → is_u16 (be_decode buf).
Proof. intros Hl Hb. pose proof (be_decode_bound buf Hb) as H. by rewrite Hl in H. Qed.

Lemma map_err_Ok {E F A} (f : E → F) (m : res E A) a : map_err f m = Ok a ↔ m = Ok a.
Proof. destruct m; simpl; split; congruence. Qed.

(** Split the byte-list hypotheses of a successful [read_exact]. *)
Ltac invert_read :=
  match goal with
  | H : mbind _ (map_err _ (read_exact _ _)) = Ok _ |- _ =>
    let bs := fresh "bs" in let s := fresh "s" in let Hr := fresh "Hr" in
    apply bind_Ok in H as ((bs & s) & Hr%map_err_Ok & H);
    apply read_exact_Ok in Hr as (? & ? & ?)
  end.

Lemma read_v4_wire bs rest :
  length bs = 6%nat → bytes_ok bs →
  let a := SocketAddress (V4 (take 4 bs) (be_decode (drop 4 bs))) in
  address_wf a ∧ ADDR_TYPE_IPV4 :: bs ++ rest = address_wire a ++ rest.
Proof.
  intros Hl Hb. simpl. split_and!.
  - solve_len.
  - by apply Forall_take.
  - apply be_decode_u16; [solve_len|by apply Forall_drop].
  - by rewrite put_u16_decode, take_drop by (solve_len || by apply Forall_drop).
Qed.

Lemma read_v6_wire bs rest :
  length bs = 18%nat → bytes_ok bs →
  let ws := be_u16s 9 bs in
  let a := SocketAddress (V6 (take 8 ws) (default 0 (ws !! 8%nat)) 0 0) in
  address_wf a ∧ ADDR_TYPE_IPV6 :: bs ++ rest = address_wire a ++ rest.
Proof.
  intros Hl Hb. destruct (be_u16s_encode 9 bs) as (Eenc & El & Ef); [lia|done|].
  revert Eenc El Ef. generalize (be_u16s 9 bs). intros ws <- El Ef. cbv zeta.
  destruct (lookup_lt_is_Some_2 ws 8) as [w Hw]; [lia|].
  pose proof (take_drop_middle ws 8 w Hw) as Eq.
  rewrite (drop_ge ws 9) in Eq by lia. rewrite Hw. simpl default.
  rewrite <- Eq in Ef. apply Forall_app in Ef as [Ef Ew]. apply Forall_inv in Ew. split.
  - simpl. unfold is_u16 in *. split_and!; [solve_len|done|lia..].
  - rewrite <- Eq at 1. by rewrite bind_app, bind_cons.
Qed.

Lemma read_domain_wire l bs rest :
  is_byte l → length bs = (Z.to_nat l + 2)%nat → bytes_ok bs →
  Utf8.from_utf8_ok (take (Z.to_nat l) bs) = true →
  let a := DomainNameAddress (take (Z.to_nat l) bs) (be_decode (drop (Z.to_nat l) bs)) in
  address_wf a ∧ sendable a
  ∧ ADDR_TYPE_DOMAIN_NAME :: l :: bs ++ rest = address_wire a ++ rest.
Proof.
  intros [Hl0 Hl1] Hl Hb Hu. simpl. split_and!.
  - by apply Forall_take.
  - done.
  - apply be_decode_u16; [solve_len|by apply Forall_drop].
  - rewrite length_take. lia.
  - rewrite put_u16_decode, take_drop by (solve_len || by apply Forall_drop).
    rewrite length_take, Nat.min_l by lia. by rewrite Z2Nat.id.
Qed.

Lemma read_from_Ok src a src' :
  read_from src = Ok (a, src') → bytes_ok (avail src) →
  address_wf a ∧ sendable a ∧ wire_address a = a
  ∧ avail src = address_wire a ++ avail src' ∧ fin src' = fin src.
Proof.
  intros H Hok. unfold read_from in H. invert_read.
  destruct bs as [|t []]; [done| |done]. cbn -[Z.eqb be_u16s] in H.
  match goal with E : avail src = _ |- _ => rewrite E in * end.
  apply Forall_app in Hok as [Ht Hok]. apply Forall_inv in Ht.
  repeat case_match; try done; invert_read;
    match goal with E : avail s = _ |- _ => rewrite E in * end;
    apply Forall_app in Hok as [Hbs Hok];
    repeat match goal with E : (t =? _) = _ |- _ =>
      first [apply Z.eqb_eq in E; subst t | clear E] end.
  - simplify_eq. destruct (read_v4_wire bs (avail src')) as [? ?]; [done..|].
    split_and!; [done..|congruence].
  - simplify_eq. destruct (read_v6_wire bs (avail src')) as [? ?]; [done..|].
    split_and!; [done..|congruence].
  - destruct bs as [|l []]; [done| |done]. apply Forall_inv in Hbs.
    cbn -[Z.eqb] in H. invert_read. case_match; [|done]. simplify_eq.
    match goal with E : avail s0 = _ |- _ => rewrite E in * end.
    apply Forall_app in Hok as [Hbs' Hok].
    destruct (read_domain_wire l bs (avail src')) as (? & ? & ?); [done..|].
    split_and!; [done..|congruence].
Qed.

Lemma read_from_no_panic src : read_from src ≠ Panic.
Proof.
  assert (∀ n s A (f : _ → res Socks5.Error A),
    (∀ x, f x ≠ Panic) → map_err Socks5.Io (read_exact n s) ≫= f ≠ Panic) as Hb.
  { intros n s A f Hf. unfold read_exact. case_bool_decide; simpl; [apply Hf|done]. }
  unfold read_from. apply Hb. intros [bs s].
  repeat case_match; try done; apply Hb; intros [bs' s']; try done.
  apply Hb. intros [bs'' s'']. by case_match.
Qed.

(** C9: an address that fits the format (a domain name of at most 255 bytes) is written in
    exactly [serialized_len] bytes, and reading those bytes back from any stream returns
    the address (without the IPv6 flow label and scope, which the format does not carry)
    and leaves the rest of the stream untouched. *)
Theorem address_roundtrip (a : Address) (rest : bytes) (k : ErrorKind)
    (Hwf : address_wf a) (Hs : sendable a) :
  ∃ w, write_to_buf (E:=()) a [] = Ok w
    ∧ length w = serialized_len a
    ∧ read_from {| avail := w ++ rest; fin := k |}
      = Ok (wire_address a, {| avail := rest; fin := k |}).
Proof.
  exists (address_wire a). split_and!.
  - by rewrite write_to_buf_wire.
  - by apply length_address_wire.
  - by apply read_from_wire.
Qed.

Definition example_domain : bytes := [119; 119; 119; 46; 97; 46; 105; 111].

Lemma address_roundtrip_witness :
  ∃ w, write_to_buf (E:=()) (DomainNameAddress example_domain 443) [] = Ok w
    ∧ length w = serialized_len (DomainNameAddress example_domain 443)
    ∧ read_from {| avail := w ++ [1; 2; 3]; fin := UnexpectedEof |}
      = Ok (wire_address (DomainNameAddress example_domain 443),
            {| avail := [1; 2; 3]; fin := UnexpectedEof |}).
Proof.
  apply (address_roundtrip (DomainNameAddress example_domain 443) [1; 2; 3] UnexpectedEof).
  - split_and!; [|reflexivity|vm_compute; split; congruence].
    apply (bool_decide_unpack _). vm_compute. exact I.
  - apply (bool_decide_unpack _). vm_compute. exact I.
Defined.

(** C10: reading an address decides the format.  On every byte stream it either succeeds,
    and then what it consumed is what [write_to_buf] writes for the well-formed address it
    returns, or it fails, and then no encodable address is a prefix of the stream; it never
    panics. *)
Theorem read_from_decides (src : Source) (Hb : bytes_ok (avail src)) :
  (∃ a src' w, read_from src = Ok (a, src') ∧ address_wf a
     ∧ write_to_buf (E:=()) a [] = Ok w ∧ avail src = w ++ avail src' ∧ fin src' = fin src)
  ∨ (∃ e, read_from src = Err e
     ∧ ∀ a w rest, address_wf a → write_to_buf (E:=()) a [] = Ok w → avail src ≠ w ++ rest).
Proof.
  destruct (read_from src) as [[a src']|e|] eqn:H.
  - left. destruct (read_from_Ok _ _ _ H Hb) as (? & ? & ? & ? & ?).
    exists a, src', (address_wire a). split_and!; try done. by rewrite write_to_buf_wire.
  - right. exists e. split; [done|]. intros a w rest Hwf Hw Heq.
    assert (sendable a) as Hs.
    { destruct a as [|dn port]; simpl in *; [done|]. case_bool_decide; [done|]. done. }
    rewrite write_to_buf_wire in Hw by done. simplify_eq.
    destruct src as [av k]. simpl in *. subst av.
    by rewrite (read_from_wire a rest k) in H.
  - by destruct (read_from_no_panic src).
Qed.

Lemma read_from_decides_witness :
  (∃ a src' w, read_from (cursor [3; 1; 65; 0; 80; 9]) = Ok (a, src') ∧ address_wf a
     ∧ write_to_buf (E:=()) a [] = Ok w
     ∧ avail (cursor [3; 1; 65; 0; 80; 9]) = w ++ avail src'
     ∧ fin src' = fin (cursor [3; 1; 65; 0; 80; 9]))
  ∨ (∃ e, read_from (cursor [3; 1; 65; 0; 80; 9]) = Err e
     ∧ ∀ a w rest, address_wf a → write_to_buf (E:=()) a [] = Ok w →
       avail (cursor [3; 1; 65; 0; 80; 9]) ≠ w ++ rest).
Proof.
  apply (read_from_decides (cursor [3; 1; 65; 0; 80; 9])).
  apply (bool_decide_unpack _). vm_compute. exact I.
Defined.

(** The reply codes round trip: every code names one reply. *)
Lemma reply_code_roundtrip c : Socks5.as_u8 (Socks5.from_u8 c) = c.
Proof.
  destruct c as [|p|p]; try done.
  do 4 (try destruct p as [p|p|]; try done).
Qed.
