(* ===== verification/Crypto.v ===== *)
(** * Ciphers (lib/shadowsocks/src/crypto)

    The cipher kinds with their parameters, the AES-GCM and XChaCha20-Poly1305 wrappers,
    and the stream [Cipher] with its running nonce.  The cryptographic crates are the
    class [CryptoLib]; what the code relies on is [CryptoLibOk]. *)

From stdpp Require Import strings.
From S2P Require Import Prelude.

(** ** Cipher kinds (crypto/mod.rs) *)

Inductive CipherCategory := Aead | Aead2022.

Inductive CipherKind :=
  | AES_128_GCM
  | AES_256_GCM
  | AEAD2022_BLAKE3_AES_128_GCM
  | AEAD2022_BLAKE3_AES_256_GCM
  | AEAD2022_BLAKE3_CHACHA20_POLY1305
  | AEAD2022_BLAKE3_CHACHA8_POLY1305.

Global Instance CipherKind_eq_dec : EqDecision CipherKind.
Proof. solve_decision. Defined.

Definition is_aead (k : CipherKind) : bool :=
  match k with AES_128_GCM | AES_256_GCM => true | _ => false end.

Definition is_aead2022 (k : CipherKind) : bool :=
  match k with
  | AEAD2022_BLAKE3_AES_128_GCM
  | AEAD2022_BLAKE3_AES_256_GCM
  | AEAD2022_BLAKE3_CHACHA20_POLY1305
  | AEAD2022_BLAKE3_CHACHA8_POLY1305 => true
  | _ => false
  end.

Definition category (k : CipherKind) : CipherCategory :=
  match k with
  | AES_128_GCM | AES_256_GCM => Aead
  | AEAD2022_BLAKE3_AES_128_GCM
  | AEAD2022_BLAKE3_AES_256_GCM
  | AEAD2022_BLAKE3_CHACHA20_POLY1305
  | AEAD2022_BLAKE3_CHACHA8_POLY1305 => Aead2022
  end.

(** The AEAD 2022 kinds are [todo!()] in the three length functions. *)
Definition key_len {E} (k : CipherKind) : res E nat :=
  match k with
  | AES_128_GCM => Ok 16%nat
  | AES_256_GCM => Ok 32%nat
  | AEAD2022_BLAKE3_AES_128_GCM => Panic
  | AEAD2022_BLAKE3_AES_256_GCM => Panic
  | AEAD2022_BLAKE3_CHACHA20_POLY1305 => Panic
  | AEAD2022_BLAKE3_CHACHA8_POLY1305 => Panic
  end.

Definition tag_len {E} (k : CipherKind) : res E nat :=
  match k with
  | AES_128_GCM => Ok 16%nat
  | AES_256_GCM => Ok 16%nat
  | AEAD2022_BLAKE3_AES_128_GCM => Panic
  | AEAD2022_BLAKE3_AES_256_GCM => Panic
  | AEAD2022_BLAKE3_CHACHA20_POLY1305 => Panic
  | AEAD2022_BLAKE3_CHACHA8_POLY1305 => Panic
  end.

Definition salt_len {E} (k : CipherKind) : res E nat := key_len k.

Definition nonce_len {E} (k : CipherKind) : res E nat :=
  match k with
  | AEAD2022_BLAKE3_AES_128_GCM | AEAD2022_BLAKE3_AES_256_GCM => Panic
  | AEAD2022_BLAKE3_CHACHA20_POLY1305 => Panic
  | AEAD2022_BLAKE3_CHACHA8_POLY1305 => Panic
  | _ => Panic
  end.

(** [impl Display], [impl FromStr] *)
Definition kind_to_string (k : CipherKind) : string :=
  match k with
  | AES_128_GCM => "aes-128-gcm"
  | AES_256_GCM => "aes-256-gcm"
  | AEAD2022_BLAKE3_AES_128_GCM => "2022-blake3-aes-128-gcm"
  | AEAD2022_BLAKE3_AES_256_GCM => "2022-blake3-aes-256-gcm"
  | AEAD2022_BLAKE3_CHACHA20_POLY1305 => "2022-blake3-chacha20-poly1305"
  | AEAD2022_BLAKE3_CHACHA8_POLY1305 => "2022-blake3-chacha8-poly1305"
  end.

Inductive ParseCipherKindError := ParseCipherKindErr.

Definition kind_from_str (s : string) : res ParseCipherKindError CipherKind :=
  if decide (s = "aes-128-gcm"%string) then Ok AES_128_GCM
  else if decide (s = "aes-256-gcm"%string) then Ok AES_256_GCM
  else if decide (s = "2022-blake3-aes-128-gcm"%string) then Ok AEAD2022_BLAKE3_AES_128_GCM
  else if decide (s = "2022-blake3-aes-256-gcm"%string) then Ok AEAD2022_BLAKE3_AES_256_GCM
  else if decide (s = "2022-blake3-chacha20-poly1305"%string)
       then Ok AEAD2022_BLAKE3_CHACHA20_POLY1305
  else if decide (s = "2022-blake3-chacha8-poly1305"%string)
       then Ok AEAD2022_BLAKE3_CHACHA8_POLY1305
  else Err ParseCipherKindErr.

(** ** The cryptographic crates *)

Inductive AeadAlg := Gcm128 | Gcm256 | XChaCha.

Definition alg_key_size (a : AeadAlg) : nat := match a with Gcm128 => 16 | _ => 32 end.
Definition alg_nonce_size (a : AeadAlg) : nat := match a with XChaCha => 24 | _ => 12 end.

(** - [hkdf salt ikm info n]: HKDF-SHA1 extract and expand to [n] bytes;
    - [seal alg key nonce pt]: [encrypt_in_place_detached] with no associated data, the
      ciphertext and the tag;
    - [open alg key nonce ct tag]: [decrypt_in_place_detached], whether the tag was
      accepted and what the buffer holds afterwards. *)
Class CryptoLib := {
  hkdf : bytes → bytes → bytes → nat → bytes;
  seal : AeadAlg → bytes → bytes → bytes → bytes * bytes;
  open : AeadAlg → bytes → bytes → bytes → bytes → bool * bytes
}.

Class CryptoLibOk `(L : CryptoLib) : Prop := {
  hkdf_length : ∀ salt ikm info n, length (hkdf salt ikm info n) = n;
  seal_length : ∀ alg k n pt, length (seal alg k n pt).1 = length pt;
  seal_tag_length : ∀ alg k n pt, length (seal alg k n pt).2 = 16%nat;
  open_length : ∀ alg k n ct tag, length (open alg k n ct tag).2 = length ct;
  open_seal : ∀ alg k n pt, open alg k n (seal alg k n pt).1 (seal alg k n pt).2 = (true, pt)
}.

(** The laws can hold: a transparent "cipher" with a checksum for a tag. *)
Module Toy.
Definition checksum (k n pt : bytes) : Z := foldr Z.add 0 (k ++ n ++ pt).
Definition toy_tag (k n pt : bytes) : bytes := checksum k n pt :: replicate 15 0.
Definition toy : CryptoLib := {|
  hkdf salt ikm info n := replicate n (foldr Z.add 0 (salt ++ ikm ++ info) mod 256);
  seal a k n pt := (Z.add 1 <$> pt, toy_tag k n pt);
  open a k n ct tag :=
    let pt := (λ b, b - 1) <$> ct in
    if decide (tag = toy_tag k n pt) then (true, pt) else (false, ct)
|}.

Global Instance toy_ok : CryptoLibOk toy.
Proof.
  assert (∀ pt : bytes, (λ b, b - 1) <$> (Z.add 1 <$> pt) = pt) as Hinv.
  { induction pt as [|b pt IH]; [done|]. rewrite !fmap_cons, IH. f_equal. lia. }
  constructor; intros; cbn [hkdf seal open toy fst snd]; cbv zeta;
    rewrite ?length_replicate, ?length_fmap; try done.
  - case_decide; cbn [snd]; by rewrite ?length_fmap.
  - rewrite Hinv. by rewrite decide_True.
Qed.
End Toy.

(** ** AEAD wrappers (crypto/aead/aes_gcm.rs, xchacha20_poly1305.rs)

    [Aes128Gcm], [Aes256Gcm] and [XChaCha20Poly1305] differ in the crate type and the key
    and nonce sizes only; the slice conversions panic on any other size. *)

Section aead.
Context `{L : CryptoLib}.

Record AeadCipher := { alg : AeadAlg; akey : bytes }.

Definition TAG_SIZE : nat := 16.

Definition aead_new {E} (a : AeadAlg) (key : bytes) : res E AeadCipher :=
  _ ← assert_ (bool_decide (length key = alg_key_size a));
  Ok {| alg := a; akey := key |}.

Definition aead_encrypt {E} (c : AeadCipher) (nonce buf : bytes) : res E bytes :=
  _ ← assert_ (bool_decide (length nonce = alg_nonce_size (alg c)));
  _ ← assert_ (bool_decide (TAG_SIZE ≤ length buf)%nat);
  let plaintext := take (length buf - TAG_SIZE) buf in
  let '(ct, tag) := seal (alg c) (akey c) nonce plaintext in
  Ok (ct ++ tag).

Definition aead_decrypt {E} (c : AeadCipher) (nonce buf : bytes) : res E (bool * bytes) :=
  _ ← assert_ (bool_decide (length nonce = alg_nonce_size (alg c)));
  _ ← assert_ (bool_decide (TAG_SIZE ≤ length buf)%nat);
  let ciphertext := take (length buf - TAG_SIZE) buf in
  let in_tag := drop (length buf - TAG_SIZE) buf in
  let '(ok, out) := open (alg c) (akey c) nonce ciphertext in_tag in
  Ok (ok, out ++ in_tag).

(** ** The stream cipher (crypto/cipher.rs) *)

Inductive CipherVariant :=
  | VAes128Gcm (c : AeadCipher)
  | VAes256Gcm (c : AeadCipher).

Definition variant_new {E} (kind : CipherKind) (key : bytes) : res E CipherVariant :=
  match kind with
  | AES_128_GCM => c ← aead_new Gcm128 key; Ok (VAes128Gcm c)
  | AES_256_GCM => c ← aead_new Gcm256 key; Ok (VAes256Gcm c)
  | _ => Panic
  end.

Definition variant_nonce_size (v : CipherVariant) : nat :=
  match v with
  | VAes128Gcm _ => 12
  | VAes256Gcm _ => 12
  end.

Definition variant_kind (v : CipherVariant) : CipherKind :=
  match v with
  | VAes128Gcm _ => AES_128_GCM
  | VAes256Gcm _ => AES_256_GCM
  end.

Definition variant_encrypt {E} (v : CipherVariant) (nonce out : bytes) : res E bytes :=
  match v with
  | VAes128Gcm c => aead_encrypt c nonce out
  | VAes256Gcm c => aead_encrypt c nonce out
  end.

Definition variant_decrypt {E} (v : CipherVariant) (nonce out : bytes) : res E (bool * bytes) :=
  match v with
  | VAes128Gcm c => aead_decrypt c nonce out
  | VAes256Gcm c => aead_decrypt c nonce out
  end.

Record Cipher := { cipher : CipherVariant; nlen : nat; nonce : bytes }.

Definition N_MAX : nat := 24.
(** "ss-subkey" *)
Definition SUBKEY_INFO : bytes := [115; 115; 45; 115; 117; 98; 107; 101; 121].
Definition MAX_KEY_LEN : nat := 64.

Definition Cipher_new {E} (kind : CipherKind) (key iv_or_salt : bytes) : res E Cipher :=
  let okm := hkdf iv_or_salt key SUBKEY_INFO MAX_KEY_LEN in
  subkey ← slice okm 0 (length key);
  cipher ← variant_new kind subkey;
  let nlen := variant_nonce_size cipher in
  _ ← assert_ (bool_decide (nlen ≤ N_MAX)%nat);
  Ok {| cipher := cipher; nlen := nlen; nonce := replicate N_MAX 0 |}.

Definition cipher_tag_len {E} (c : Cipher) : res E nat := tag_len (variant_kind (cipher c)).

(** The carry loop of [increase_nonce]: [c += nonce[n]; nonce[n] = c as u8; c >>= 8]. *)
Fixpoint increase_loop (fuel nlen n : nat) (c : Z) (nonce : bytes) : bytes :=
  match fuel with
  | O => nonce
  | S fuel =>
    if bool_decide (n < nlen)%nat then
      let c := c + default 0 (nonce !! n) in
      increase_loop fuel nlen (S n) (Z.shiftr c 8) (<[n := wrap_u 8 c]> nonce)
    else nonce
  end.

Definition increase_nonce (ci : Cipher) : Cipher :=
  let c := default 0 (nonce ci !! 0%nat) + 1 in
  let nonce1 := <[0%nat := wrap_u 8 c]> (nonce ci) in
  {| cipher := cipher ci; nlen := nlen ci;
     nonce := increase_loop (nlen ci) (nlen ci) 1 (Z.shiftr c 8) nonce1 |}.

Definition encrypt {E} (ci : Cipher) (buf : bytes) : res E (bytes * Cipher) :=
  out ← variant_encrypt (cipher ci) (take (nlen ci) (nonce ci)) buf;
  Ok (out, increase_nonce ci).

Definition decrypt {E} (ci : Cipher) (buf : bytes) : res E (bool * bytes * Cipher) :=
  '(ret, out) ← variant_decrypt (cipher ci) (take (nlen ci) (nonce ci)) buf;
  Ok (ret, out, increase_nonce ci).

End aead.

(** ** What one AEAD operation seals and opens *)

Section sealing.
Context `{L : CryptoLib}.

(** Ciphertext then tag. *)
Definition aead_sealed (c : AeadCipher) (nonce pt : bytes) : bytes :=
  let '(ct, tag) := seal (alg c) (akey c) nonce pt in ct ++ tag.

(** The plaintext under a tag that verifies. *)
Definition aead_opened (c : AeadCipher) (nonce buf : bytes) : option bytes :=
  let n := (length buf - 16)%nat in
  let '(ok, out) := open (alg c) (akey c) nonce (take n buf) (drop n buf) in
  if ok then Some out else None.

Context `{!CryptoLibOk L}.

Lemma length_aead_sealed c nonce pt : length (aead_sealed c nonce pt) = (length pt + 16)%nat.
Proof.
  unfold aead_sealed.
  pose proof (seal_length (alg c) (akey c) nonce pt) as H1.
  pose proof (seal_tag_length (alg c) (akey c) nonce pt) as H2.
  destruct (seal _ _ _ pt) as [ct tag]. simpl in *. solve_len.
Qed.

Lemma aead_encrypt_sealed {E} c nonce pt pad :
  length nonce = alg_nonce_size (alg c) → length pad = 16%nat →
  aead_encrypt (E:=E) c nonce (pt ++ pad) = Ok (aead_sealed c nonce pt).
Proof.
  intros Hn Hp. unfold aead_encrypt, aead_sealed, TAG_SIZE.
  rewrite !bool_decide_eq_true_2 by (done || solve_len). simpl.
  rewrite take_app_length' by solve_len. by destruct (seal _ _ _ pt).
Qed.

Lemma aead_opened_sealed c nonce pt : aead_opened c nonce (aead_sealed c nonce pt) = Some pt.
Proof.
  pose proof (length_aead_sealed c nonce pt) as Hl. unfold aead_opened. rewrite Hl.
  unfold aead_sealed in *. pose proof (seal_length (alg c) (akey c) nonce pt) as H1.
  pose proof (open_seal (alg c) (akey c) nonce pt) as H3.
  destruct (seal _ _ nonce pt) as [ct tag]. simpl in *.
  rewrite take_app_length', drop_app_length' by lia. by rewrite H3.
Qed.

Lemma aead_opened_length c nonce buf pt :
  aead_opened c nonce buf = Some pt → (16 ≤ length buf)%nat → (length pt + 16 = length buf)%nat.
Proof.
  unfold aead_opened. intros Ho Hl.
  pose proof (open_length (alg c) (akey c) nonce (take (length buf - 16) buf)
                (drop (length buf - 16) buf)) as Hlen.
  destruct (open _ _ _ _ _) as [[] out]; simplify_eq/=. rewrite Hlen. solve_len.
Qed.

(** Decryption never panics on a unit that has a tag, and accepts what [aead_opened] does. *)
Lemma aead_decrypt_opens {E} c nonce buf :
  length nonce = alg_nonce_size (alg c) → (16 ≤ length buf)%nat →
  ∃ out, length out = length buf
    ∧ aead_decrypt (E:=E) c nonce buf = Ok (bool_decide (aead_opened c nonce buf ≠ None), out)
    ∧ ∀ pt, aead_opened c nonce buf = Some pt → out = pt ++ drop (length pt) out.
Proof.
  intros Hn Hl. unfold aead_decrypt, TAG_SIZE, aead_opened.
  rewrite (bool_decide_eq_true_2 _ Hn), (bool_decide_eq_true_2 _ Hl).
  cbn [assert_ mbind res_bind].
  pose proof (open_length (alg c) (akey c) nonce (take (length buf - 16) buf)
                (drop (length buf - 16) buf)) as Hlen.
  destruct (open _ _ _ _ _) as [ok out]. simpl in Hlen |- *.
  exists (out ++ drop (length buf - 16) buf). split_and!.
  - rewrite length_app, Hlen. solve_len.
  - by destruct ok.
  - intros pt. destruct ok; [|done]. intros [= ->]. by rewrite drop_app_length.
Qed.
End sealing.

(** ** Nonce and salt generation (crypto/utils.rs)

    [rng] is the sequence of fills the thread's generator produces; a fill of zeros is
    drawn again. *)

Definition is_zeros (bs : bytes) : bool := forallb (λ b, b =? 0) bs.

Fixpoint random_loop (rng : list bytes) : option bytes :=
  match rng with
  | [] => None
  | bs :: rng' => if is_zeros bs then random_loop rng' else Some bs
  end.

Definition random_iv_or_salt (rng : list bytes) (iv_or_salt : bytes) : option bytes :=
  match iv_or_salt with
  | [] => Some []
  | _ => random_loop rng
  end.

Definition generate_nonce (rng : list bytes) (kind : CipherKind) (nonce : bytes) : option bytes :=
  match nonce with
  | [] => Some []
  | _ => random_iv_or_salt rng nonce
  end.

(** ** The nonce is a little-endian counter *)

Fixpoint le_value (bs : bytes) : Z :=
  match bs with [] => 0 | b :: bs => b + 256 * le_value bs end.

(** One addition with carry over a byte string. *)
Fixpoint add_carry (c : Z) (bs : bytes) : bytes :=
  match bs with
  | [] => []
  | b :: bs => wrap_u 8 (c + b) :: add_carry (Z.shiftr (c + b) 8) bs
  end.

Lemma le_value_bound bs : bytes_ok bs → 0 <= le_value bs < 256 ^ Z.of_nat (length bs).
Proof.
  induction 1 as [|b bs [? ?] _ IH]; simpl length; [simpl; lia|].
  rewrite Nat2Z.inj_succ, Z.pow_succ_r by lia. cbn [le_value]. lia.
Qed.

Lemma le_value_inj bs1 bs2 :
  bytes_ok bs1 → bytes_ok bs2 → length bs1 = length bs2 → le_value bs1 = le_value bs2 →
  bs1 = bs2.
Proof.
  intros H. revert bs2. induction H as [|b1 bs1 [? ?] _ IH]; intros [|b2 bs2] Hb ?; try done.
  apply Forall_cons_1 in Hb as [[? ?] Hb]. cbn [le_value]. intros E.
  assert (b1 = b2) as -> by lia. f_equal. apply IH; [done|simpl in *; lia|lia].
Qed.

Lemma add_carry_ok c bs : bytes_ok (add_carry c bs).
Proof.
  revert c. induction bs as [|b bs IH]; intros c; constructor; [|apply IH].
  by apply (wrap_u_bound 8).
Qed.

Lemma length_add_carry c bs : length (add_carry c bs) = length bs.
Proof. revert c. induction bs; intros; simpl; auto. Qed.

Lemma le_value_add_carry c bs :
  le_value (add_carry c bs) = (c + le_value bs) mod 256 ^ Z.of_nat (length bs).
Proof.
  revert c. induction bs as [|b bs IH]; intros c; [by rewrite Z.mod_1_r|].
  cbn [add_carry le_value length]. rewrite IH.
  rewrite Nat2Z.inj_succ, Z.pow_succ_r by lia.
  set (p := 256 ^ Z.of_nat (length bs)). assert (0 < p) by (apply Z.pow_pos_nonneg; lia).
  rewrite Z.shiftr_div_pow2 by lia. unfold wrap_u. change (2 ^ 8) with 256.
  rewrite (Z.rem_mul_r (c + _) 256 p) by lia.
  replace (c + (b + 256 * le_value bs)) with ((c + b) + le_value bs * 256) by lia.
  by rewrite Z.mod_add, Z.div_add by lia.
Qed.

Lemma increase_loop_spec pre mid tl c fuel :
  (length mid ≤ fuel)%nat →
  increase_loop fuel (length pre + length mid) (length pre) c (pre ++ mid ++ tl)
  = pre ++ add_carry c mid ++ tl.
Proof.
  revert pre c fuel. induction mid as [|b mid IH]; intros pre c fuel Hf.
  - destruct fuel; simpl; [done|]. rewrite bool_decide_eq_false_2 by lia. done.
  - destruct fuel as [|fuel]; [simpl in Hf; lia|]. cbn [increase_loop].
    rewrite bool_decide_eq_true_2 by (simpl; lia).
    rewrite lookup_app_r, Nat.sub_diag by lia. cbn [app lookup list_lookup default]. change (id b) with b.
    rewrite insert_app_r_alt, Nat.sub_diag by lia. cbn [insert list_insert add_carry].
    specialize (IH (pre ++ [wrap_u 8 (c + b)]) (Z.shiftr (c + b) 8) fuel).
    rewrite <- !app_assoc in IH. cbn [app] in IH. rewrite !length_app in IH. simpl in *.
    replace (length pre + S (length mid))%nat with (length pre + 1 + length mid)%nat by lia.
    replace (S (length pre)) with (length pre + 1)%nat by lia. apply IH. lia.
Qed.

Section nonce.
Context `{L : CryptoLib}.

(** The state every cipher is in: 12 of the 24 nonce bytes are used. *)
Record cipher_wf (ci : Cipher) : Prop := {
  wf_nlen : nlen ci = 12%nat;
  wf_nonce : length (nonce ci) = N_MAX;
  wf_bytes : bytes_ok (nonce ci);
  wf_alg : match cipher ci with
           | VAes128Gcm c => alg c = Gcm128
           | VAes256Gcm c => alg c = Gcm256
           end
}.

Definition nonce_value (ci : Cipher) : Z := le_value (take (nlen ci) (nonce ci)).

Lemma increase_nonce_eq ci :
  (0 < nlen ci ≤ length (nonce ci))%nat →
  nonce (increase_nonce ci)
  = add_carry 1 (take (nlen ci) (nonce ci)) ++ drop (nlen ci) (nonce ci).
Proof.
  destruct ci as [c n nc]. cbn [nlen nonce increase_nonce]. intros [? ?].
  destruct nc as [|b nc]; [simpl in *; lia|]. destruct n as [|n]; [lia|].
  cbn [lookup list_lookup default insert list_insert take drop add_carry app].
  change (id b) with b. rewrite <- (take_drop n nc) at 1.
  pose proof (increase_loop_spec [wrap_u 8 (b + 1)] (take n nc) (drop n nc)
                (Z.shiftr (b + 1) 8) (S n)) as Hl.
  cbn [length app Nat.add] in Hl. rewrite length_take, Nat.min_l in Hl by (simpl in *; lia).
  rewrite Hl by lia. by rewrite (Z.add_comm b 1).
Qed.

Lemma increase_nonce_wf ci : cipher_wf ci → cipher_wf (increase_nonce ci).
Proof.
  intros [H1 H2 H3 H4]. unfold N_MAX in *. constructor; try done; unfold N_MAX.
  - rewrite increase_nonce_eq by lia. rewrite length_app, length_add_carry. solve_len.
  - rewrite increase_nonce_eq by lia. apply Forall_app. split; [apply add_carry_ok|].
    by apply Forall_drop.
Qed.

Lemma increase_nonce_value ci :
  cipher_wf ci → nonce_value (increase_nonce ci) = (nonce_value ci + 1) mod 2 ^ 96.
Proof.
  intros [H1 H2 H3 H4]. unfold N_MAX in *. unfold nonce_value.
  rewrite increase_nonce_eq by lia. change (nlen (increase_nonce ci)) with (nlen ci).
  rewrite take_app_length' by (rewrite length_add_carry; solve_len).
  rewrite le_value_add_carry, length_take, H1, Nat.min_l by lia.
  by rewrite (Z.add_comm 1).
Qed.

Lemma nonce_value_iter k ci :
  cipher_wf ci →
  cipher_wf (Nat.iter k increase_nonce ci)
  ∧ nonce_value (Nat.iter k increase_nonce ci) = (nonce_value ci + Z.of_nat k) mod 2 ^ 96.
Proof.
  intros Hwf. induction k as [|k [IHw IHv]].
  - split; [done|]. simpl. rewrite Z.add_0_r, Z.mod_small; [done|].
    destruct Hwf as [H1 H2 H3 _]. unfold nonce_value, N_MAX in *.
    pose proof (le_value_bound (take (nlen ci) (nonce ci))) as Hb.
    rewrite length_take, H1, Nat.min_l in Hb by lia.
    rewrite H1. apply Hb. by apply Forall_take.
  - simpl Nat.iter. split; [by apply increase_nonce_wf|].
    rewrite increase_nonce_value, IHv by done.
    rewrite Zplus_mod_idemp_l. f_equal. lia.
Qed.

(** What one [encrypt] appends to the wire, and what one [decrypt] accepts. *)
Definition cipher_key (ci : Cipher) : AeadCipher :=
  match cipher ci with VAes128Gcm c => c | VAes256Gcm c => c end.
Definition sealed (ci : Cipher) (pt : bytes) : bytes :=
  aead_sealed (cipher_key ci) (take (nlen ci) (nonce ci)) pt.
Definition opened (ci : Cipher) (buf : bytes) : option bytes :=
  aead_opened (cipher_key ci) (take (nlen ci) (nonce ci)) buf.

Context `{!CryptoLibOk L}.

Lemma length_sealed ci pt : length (sealed ci pt) = (length pt + 16)%nat.
Proof. apply length_aead_sealed. Qed.
Lemma opened_sealed ci pt : opened ci (sealed ci pt) = Some pt.
Proof. apply aead_opened_sealed. Qed.
Lemma opened_length ci buf pt :
  opened ci buf = Some pt → (16 ≤ length buf)%nat → (length pt + 16 = length buf)%nat.
Proof. apply aead_opened_length. Qed.

(** The nonce slice has the size the AEAD wrapper asserts. *)
Lemma nonce_size_ok ci :
  cipher_wf ci → length (take (nlen ci) (nonce ci)) = alg_nonce_size (alg (cipher_key ci)).
Proof.
  intros [H1 H2 H3 H4]. unfold cipher_key, N_MAX in *.
  rewrite length_take, H1, H2. by destruct (cipher ci); rewrite H4.
Qed.

Lemma encrypt_sealed {E} ci pt pad :
  cipher_wf ci → length pad = 16%nat →
  encrypt (E:=E) ci (pt ++ pad) = Ok (sealed ci pt, increase_nonce ci).
Proof.
  intros Hwf Hp. unfold encrypt, sealed.
  pose proof (aead_encrypt_sealed (E:=E) (cipher_key ci) _ pt pad (nonce_size_ok ci Hwf) Hp) as He.
  unfold cipher_key in *. destruct (cipher ci); simpl in *; by rewrite He.
Qed.

(** [decrypt] never panics on a unit that has a tag, and accepts what [opened] does. *)
Lemma decrypt_opens {E} ci buf :
  cipher_wf ci → (16 ≤ length buf)%nat →
  ∃ out, length out = length buf
    ∧ decrypt (E:=E) ci buf = Ok (bool_decide (opened ci buf ≠ None), out, increase_nonce ci)
    ∧ ∀ pt, opened ci buf = Some pt → out = pt ++ drop (length pt) out.
Proof.
  intros Hwf Hl.
  destruct (aead_decrypt_opens (E:=E) (cipher_key ci) _ buf (nonce_size_ok ci Hwf) Hl)
    as (out & Hlen & Hd & Ho).
  exists out. split_and!; [done| |done]. unfold decrypt, opened, cipher_key in *.
  destruct (cipher ci); simpl in *; by rewrite Hd.
Qed.

Lemma decrypt_sealed {E} ci pt :
  cipher_wf ci →
  ∃ tag, length tag = 16%nat
    ∧ decrypt (E:=E) ci (sealed ci pt) = Ok (true, pt ++ tag, increase_nonce ci).
Proof.
  intros Hwf. pose proof (length_sealed ci pt) as Hl.
  destruct (decrypt_opens (E:=E) ci (sealed ci pt) Hwf) as (out & Hlen & -> & Ho); [lia|].
  rewrite (Ho pt (opened_sealed ci pt)), opened_sealed, bool_decide_eq_true_2 by done.
  exists (drop (length pt) out). split; [solve_len|done].
Qed.

Lemma decrypt_Ok {E} ci buf ok out ci' :
  decrypt (E:=E) ci buf = Ok (ok, out, ci') →
  length out = length buf ∧ ci' = increase_nonce ci ∧ (16 ≤ length buf)%nat.
Proof.
  unfold decrypt. intros ((r & o) & Hd & ?)%bind_Ok. simplify_eq.
  assert (aead_decrypt (E:=E) (cipher_key ci) (take (nlen ci) (nonce ci)) buf = Ok (ok, out))
    as Ha by (unfold cipher_key; by destruct (cipher ci)).
  clear Hd. unfold aead_decrypt, TAG_SIZE in Ha.
  apply bind_Ok in Ha as (? & _ & Ha). apply bind_Ok in Ha as (? & Hl%assert_Ok & Ha).
  apply bool_decide_eq_true in Hl.
  set (ct := take _ buf) in Ha. set (tag := drop _ buf) in Ha.
  pose proof (open_length (alg (cipher_key ci)) (akey (cipher_key ci))
                (take (nlen ci) (nonce ci)) ct tag) as Ho.
  destruct (open _ _ _ ct tag) as [r o]. simplify_eq/=. subst ct tag.
  split_and!; [solve_len|done|done].
Qed.

Lemma Cipher_new_wf {E} kind key salt :
  is_aead kind = true → Ok (length key) = key_len (E:=E) kind →
  ∃ ci, Cipher_new (E:=E) kind key salt = Ok ci ∧ cipher_wf ci
    ∧ nonce ci = replicate N_MAX 0 ∧ variant_kind (cipher ci) = kind.
Proof.
  intros Hk Hl. unfold Cipher_new, slice, N_MAX, MAX_KEY_LEN.
  rewrite bool_decide_eq_true_2
    by (rewrite hkdf_length; destruct kind; simplify_eq/=; lia). simpl.
  rewrite drop_0, Nat.sub_0_r.
  destruct kind; try done; simplify_eq/=; unfold aead_new; simpl;
    rewrite bool_decide_eq_true_2 by (rewrite length_take, hkdf_length; lia); simpl;
    (eexists; split_and!; [reflexivity| |reflexivity|reflexivity]);
    (constructor; [reflexivity|reflexivity| |reflexivity]; simpl;
     repeat constructor; unfold is_byte; lia).
Qed.

(** The error type of a computation that does not fail is immaterial. *)
Lemma Cipher_new_poly {E F} k b1 b2 c :
  Cipher_new (E:=E) k b1 b2 = Ok c → Cipher_new (E:=F) k b1 b2 = Ok c.
Proof.
  unfold Cipher_new, slice. case_bool_decide; [|done]. cbn [mbind res_bind].
  destruct k; try done; simpl; unfold aead_new; repeat case_bool_decide; simpl; congruence.
Qed.

Lemma salt_len_poly {E F} k n : salt_len (E:=E) k = Ok n → salt_len (E:=F) k = Ok n.
Proof. destruct k; simpl; congruence. Qed.

Lemma aead_tag_len {E} k : is_aead k = true → tag_len (E:=E) k = Ok 16%nat.
Proof. by destruct k. Qed.

Lemma aead_salt_len {E} k : is_aead k = true → ∃ n, salt_len (E:=E) k = Ok n ∧ n ≠ 0%nat.
Proof. destruct k; try done; intros _; eexists; by split. Qed.

Lemma Cipher_new_Ok_wf {E} kind key salt ci :
  Cipher_new (E:=E) kind key salt = Ok ci →
  cipher_wf ci ∧ nonce_value ci = 0 ∧ is_aead kind = true.
Proof.
  unfold Cipher_new. intros (sub & _ & (v & Hv & (? & _ & [= <-])%bind_Ok)%bind_Ok)%bind_Ok.
  destruct kind; try done; apply bind_Ok in Hv as (c & Hc & [= <-]);
    apply bind_Ok in Hc as (? & _ & [= <-]);
    (split_and!; [|done|done]); (constructor; [done|done| |done]);
    repeat constructor; unfold is_byte; lia.
Qed.
End nonce.

(** ** The messages of a cipher *)

(** A unit to seal, with room for the tag at its end, or to open. *)
Inductive Message := ToSeal (unit : bytes) | ToOpen (unit : bytes).
Definition unit_bytes (m : Message) : bytes := match m with ToSeal u | ToOpen u => u end.

Section messages.
Context `{L : CryptoLib}.

(** Calls of [encrypt] and [decrypt] on one cipher: whether each was in order, and its
    buffer after it. *)
Fixpoint process {E} (ci : Cipher) (ms : list Message) : res E (list (bool * bytes) * Cipher) :=
  match ms with
  | [] => Ok ([], ci)
  | m :: ms =>
    '(ok, out, ci) ← match m with
                     | ToSeal u => '(out, ci) ← encrypt ci u; Ok (true, out, ci)
                     | ToOpen u => decrypt ci u
                     end;
    '(outs, ci) ← process ci ms;
    Ok ((ok, out) :: outs, ci)
  end.

(** The message [m] was sealed or opened under the nonce [n]. *)
Definition under (c : AeadCipher) (n : bytes) (m : Message) (r : bool * bytes) : Prop :=
  match m with
  | ToSeal u => r = (true, aead_sealed c n (take (length u - 16) u))
  | ToOpen u => r.1 = bool_decide (aead_opened c n u ≠ None)
      ∧ ∀ pt, aead_opened c n u = Some pt → take (length pt) r.2 = pt
  end.

Definition nonce_at (ci : Cipher) (k : nat) : bytes := take (nlen ci) (nonce (Nat.iter k increase_nonce ci)).

Lemma nonce_at_next ci k : nonce_at (increase_nonce ci) k = nonce_at ci (S k).
Proof. unfold nonce_at. by rewrite Nat.iter_succ_r. Qed.

Lemma nlen_iter ci k : nlen (Nat.iter k increase_nonce ci) = nlen ci.
Proof. by induction k. Qed.

Lemma nonce_at_value ci k : cipher_wf ci → nonce_value ci = 0 → Z.of_nat k < 2 ^ 96 →
  le_value (nonce_at ci k) = Z.of_nat k ∧ length (nonce_at ci k) = 12%nat.
Proof.
  intros Hwf H0 Hk. destruct (nonce_value_iter k ci Hwf) as [Hw Hv].
  rewrite H0, Z.mod_small in Hv by lia. unfold nonce_value in Hv. rewrite nlen_iter in Hv. split; [done|].
  unfold nonce_at. rewrite length_take, (wf_nonce _ Hw), (wf_nlen _ Hwf). done.
Qed.

Lemma process_under `{!CryptoLibOk L} {E} ms ci :
  cipher_wf ci → Forall (λ m, 16 ≤ length (unit_bytes m))%nat ms →
  ∃ outs ci', process (E:=E) ci ms = Ok (outs, ci') ∧ length outs = length ms
    ∧ ∀ k m, ms !! k = Some m → ∃ out, outs !! k = Some out ∧ under (cipher_key ci) (nonce_at ci k) m out.
Proof.
  revert ci. induction ms as [|m ms IH]; intros ci Hwf Hms; [by exists [], ci|].
  apply Forall_cons_1 in Hms as [Hm Hms].
  destruct (IH (increase_nonce ci) (increase_nonce_wf ci Hwf) Hms) as (outs & ci' & Hp & Hl & Hu).
  assert (∃ ok out, match m with
                    | ToSeal u => '(out, ci) ← encrypt (E:=E) ci u; Ok (true, out, ci)
                    | ToOpen u => decrypt ci u
                    end = Ok (ok, out, increase_nonce ci)
          ∧ under (cipher_key ci) (nonce_at ci 0) m (ok, out)) as (ok & out & Hstep & Hfirst).
  { destruct m as [u|u]; simpl in Hm.
    - exists true, (sealed ci (take (length u - 16) u)). rewrite <- (take_drop (length u - 16) u) at 1.
      rewrite encrypt_sealed by (done || rewrite length_drop; lia). by split.
    - destruct (decrypt_opens (E:=E) ci u Hwf Hm) as (out & _ & -> & Ho). eexists _, out.
      split; [done|]. split; [done|]. intros pt Hpt. rewrite (Ho pt Hpt). apply take_app_length. }
  exists ((ok, out) :: outs), ci'. cbn [process]. rewrite Hstep. cbn [mbind res_bind]. rewrite Hp.
  split_and!; [done|simpl; lia|]. intros [|k] m' Hk; simpl in Hk.
  - injection Hk as <-. by exists (ok, out).
  - destruct (Hu k m' Hk) as (out' & ? & ?). exists out'. by rewrite <- nonce_at_next.
Qed.
End messages.

(** C11: a stream cipher never reuses a nonce.  Any sequence of at most [2^96] calls of
    [encrypt] and [decrypt] on a freshly created cipher, with units that hold a tag, goes
    through without a panic, and every message is sealed or opened under a nonce of twelve
    bytes of its own: the nonces of the calls are pairwise different. *)
Theorem nonces_never_repeat `{L : CryptoLib} `{!CryptoLibOk L} (kind : CipherKind) (key salt : bytes)
    (ci : Cipher) (ms : list Message)
    (Hnew : Cipher_new (E:=()) kind key salt = Ok ci)
    (Hms : Forall (λ m, 16 ≤ length (unit_bytes m))%nat ms) (Hcount : Z.of_nat (length ms) <= 2 ^ 96) :
  ∃ outs ci' nonces, process (E:=()) ci ms = Ok (outs, ci')
    ∧ length nonces = length ms ∧ NoDup nonces
    ∧ ∀ k m, ms !! k = Some m → ∃ n out, nonces !! k = Some n ∧ outs !! k = Some out
        ∧ length n = 12%nat ∧ under (cipher_key ci) n m out.
Proof.
  destruct (Cipher_new_Ok_wf _ _ _ _ Hnew) as (Hwf & H0 & _).
  destruct (process_under (E:=()) ms ci Hwf Hms) as (outs & ci' & Hp & _ & Hu).
  exists outs, ci', (nonce_at ci <$> seq 0 (length ms)). split_and!.
  - done.
  - by rewrite length_fmap, length_seq.
  - apply NoDup_alt. intros i j n Hi Hj.
    rewrite list_lookup_fmap in Hi, Hj.
    apply fmap_Some in Hi as (i' & [-> ?]%lookup_seq & ->). apply fmap_Some in Hj as (j' & [-> ?]%lookup_seq & Hn).
    apply (f_equal le_value) in Hn. simpl in Hn.
    rewrite !(fun k H => proj1 (nonce_at_value ci k Hwf H0 H)) in Hn by lia. lia.
  - intros k m Hk. destruct (Hu k m Hk) as (out & Ho & Hun). apply lookup_lt_Some in Hk.
    exists (nonce_at ci k), out. split_and!; [|done|apply nonce_at_value; [done..|lia]|done].
    by rewrite list_lookup_fmap, lookup_seq_lt by done.
Qed.

Definition demo_cipher : Cipher :=
  {| cipher := VAes128Gcm {| alg := Gcm128; akey := replicate 16 214 |};
     nlen := 12; nonce := replicate 24 0 |}.

(** The same text sealed twice comes out different. *)
Lemma nonces_never_repeat_witness :
  Cipher_new (L:=Toy.toy) (E:=()) AES_128_GCM (replicate 16 1) (replicate 16 2) = Ok demo_cipher
  ∧ ∃ out1 out2 ci' nonces,
      process (L:=Toy.toy) (E:=()) demo_cipher [ToSeal (replicate 18 0); ToSeal (replicate 18 0)]
      = Ok ([(true, out1); (true, out2)], ci') ∧ out1 ≠ out2 ∧ length nonces = 2%nat ∧ NoDup (A:=bytes) nonces.
Proof.
  assert (Cipher_new (L:=Toy.toy) (E:=()) AES_128_GCM (replicate 16 1) (replicate 16 2)
          = Ok demo_cipher) as Hnew by (vm_compute; reflexivity).
  split; [exact Hnew|].
  destruct (nonces_never_repeat (L:=Toy.toy) AES_128_GCM (replicate 16 1) (replicate 16 2)
              demo_cipher [ToSeal (replicate 18 0); ToSeal (replicate 18 0)])
    as (outs & ci' & nonces & Hp & Hl & Hnd & _).
  - exact Hnew.
  - repeat constructor; simpl; lia.
  - simpl. lia.
  - eexists _, _, _, nonces. split_and!; [vm_compute; reflexivity|vm_compute; discriminate|exact Hl|exact Hnd].
Defined.

(** The cipher names round trip, and no other name is accepted. *)
Lemma kind_names (s : string) (k : CipherKind) :
  kind_from_str s = Ok k ↔ s = kind_to_string k.
Proof.
  unfold kind_from_str. split.
  - intros. repeat case_decide; by simplify_eq.
  - intros ->. by destruct k.
Qed.
