(* ===== verification/StreamBuf.v ===== *)
(** * The loops of the stream protocols

    Both stream protocols (tcp/aead.rs and tcp/aead2022.rs) collect a unit of the wire in
    the reader's buffer before they decrypt it, and drain the writer's buffer into the
    transport after they have filled it, with the same two loops.  Here they are once, for
    every state that has such a buffer ([ReadBuffer], [WriteBuffer]), with what they do on
    every transport that meets the contracts of [Io]. *)

From S2P Require Import Prelude Io.

Local Open Scope async_scope.

(** [self.buffer] of a reader. *)
Class ReadBuffer (R : Type) := {
  rbuf : R → bytes;
  set_rbuf : bytes → R → R
}.
Class ReadBufferOk (R : Type) `{ReadBuffer R} : Prop := {
  rbuf_set : ∀ b r, rbuf (set_rbuf b r) = b;
  set_rbuf_set : ∀ b b' r, set_rbuf b (set_rbuf b' r) = set_rbuf b r;
  set_rbuf_id : ∀ r, set_rbuf (rbuf r) r = r
}.

(** [self.buffer] and the [pos] of the state [Writing] of a writer. *)
Class WriteBuffer (W : Type) := {
  wbuf : W → bytes;
  set_wpos : nat → W → W
}.
Class WriteBufferOk (W : Type) `{WriteBuffer W} : Prop := {
  wbuf_set_wpos : ∀ p w, wbuf (set_wpos p w) = wbuf w;
  set_wpos_set : ∀ p q w, set_wpos p (set_wpos q w) = set_wpos p w
}.

(** ** Operations *)

Section state.
Context {R T E : Type}.

(** The reader or writer itself, beside its transport. *)
Definition modify (f : R → R) : async (R * T) E () :=
  let! '(r, s) := get_state in put_state (f r, s).
Definition self : async (R * T) E R := let! '(r, _) := get_state in ret r.
End state.

Section read_exact.
Context {R T : Type} `{ReadBuffer R} `{AsyncRead T}.

Abbreviation IO A := (async (R * T) ErrorKind A).

(** One read of the transport into [n] bytes of room. *)
Definition poll_transport (n : nat) : IO bytes := λ '(r, s),
  let '(p, s') := poll_read n s in (p, (r, s')).

(** The loop of [pool_read_exact]; every iteration reads at least one byte, so [size]
    iterations are enough. *)
Fixpoint read_exact_loop (fuel size : nat) : IO nat :=
  let! r := self in
  if bool_decide (length (rbuf r) < size)%nat then
    match fuel with
    | O => no_fuel
    | S fuel =>
      let remaining := (size - length (rbuf r))%nat in
      let! bs := poll_transport remaining in
      if bool_decide (length bs = 0)%nat then
        if bool_decide (rbuf r ≠ []) then fail UnexpectedEof else ret 0%nat
      else
        modify (set_rbuf (rbuf r ++ bs)) ;!
        read_exact_loop fuel size
    end
  else ret size.

Definition pool_read_exact (size : nat) : IO nat :=
  lift (assert_ (bool_decide (size ≠ 0)%nat)) ;!
  read_exact_loop size size.
End read_exact.

Section writing.
Context {W T : Type} `{WriteBuffer W} `{AsyncWrite T}.

(** The loop of [Writing]; every iteration writes at least one byte. *)
Fixpoint writing_loop (fuel pos : nat) : async (W * T) ErrorKind () :=
  let! w := self in
  if bool_decide (pos < length (wbuf w))%nat then
    match fuel with
    | O => no_fuel
    | S fuel =>
      let! n := λ '(w, s), (let '(p, s') := poll_write (drop pos (wbuf w)) s in (p, (w, s'))) in
      if bool_decide (n = 0)%nat then fail UnexpectedEof else
      modify (set_wpos (pos + n)) ;!
      writing_loop fuel (pos + n)
    end
  else ret ().
End writing.

(** ** Symbolic execution *)

Section wp_state.
Context {R T E : Type}.
Implicit Types (r : R) (s : T).

Lemma wp_self (Φ : R → R * T → Prop) Π (Ξ : E → R * T → Prop) r s :
  Φ r (r, s) → wp self Φ Π Ξ (r, s).
Proof. done. Qed.

Lemma wp_modify f (Φ : () → R * T → Prop) Π (Ξ : E → R * T → Prop) r s :
  Φ () (f r, s) → wp (modify f) Φ Π Ξ (r, s).
Proof. done. Qed.
End wp_state.

(** Up to the next external call or pure computation. *)
Ltac steps :=
  repeat (cbv beta iota zeta;
    lazymatch goal with
    | |- wp (abind _ _) _ _ _ _ => apply wp_bind
    | |- wp (async_map_err _ _) _ _ _ _ => apply wp_map_err
    | |- wp self _ _ _ _ => apply wp_self
    | |- wp (modify _) _ _ _ _ => apply wp_modify
    | |- wp (ret _) _ _ _ _ => apply wp_ret
    | |- wp (fail _) _ _ _ _ => apply wp_fail
    end).

(** ** Reading *)

Section read_proof.
Context {R T : Type} `{ReadBuffer R} `{!ReadBufferOk R} `{AsyncRead T} `{!AsyncReadOk T}.
Implicit Types (r : R) (s : T).

(** The bytes of the wire the reader has not processed: its buffer, then what the
    transport will deliver. *)
Definition pending_wire (r : R) (s : T) (w : bytes) : Prop :=
  ∃ c, readable s c ∧ w = rbuf r ++ c.

Definition in_progress (r : R) (size : nat) (w : bytes) (st : R * T) : Prop :=
  ∃ b s', st = (set_rbuf b r, s') ∧ pending_wire (set_rbuf b r) s' w ∧ (length b ≤ size)%nat.

(** The unit was read, or the wire is at its end and the buffer is empty. *)
Definition read_exact_post (r : R) (size : nat) (w : bytes) (n : nat) (st : R * T) : Prop :=
  (n = size ∧ ∃ b c s', st = (set_rbuf b r, s') ∧ readable s' c ∧ w = b ++ c ∧ length b = size)
  ∨ (n = 0%nat ∧ w = [] ∧ in_progress r size w st).

Lemma in_progress_start r s w size :
  pending_wire r s w → (length (rbuf r) ≤ size)%nat → in_progress r size w (r, s).
Proof.
  intros Hw Hl. exists (rbuf r), s. by rewrite set_rbuf_id.
Qed.

Lemma in_progress_set r b w size st :
  in_progress (set_rbuf b r) size w st → in_progress r size w st.
Proof. intros (b' & s' & -> & Hw & Hl). exists b', s'. by rewrite set_rbuf_set in *. Qed.

Lemma wp_poll_transport n r s c (Φ : bytes → R * T → Prop) Π Ξ :
  readable s c →
  (∀ bs c' s', c = bs ++ c' → readable s' c' → (length bs ≤ n)%nat →
     (bs = [] → (0 < n)%nat → c = []) → Φ bs (r, s')) →
  (∀ s', readable s' c → Π (r, s')) →
  (∀ e s', readable s' c → Ξ e (r, s')) →
  wp (poll_transport n) Φ Π Ξ (r, s).
Proof.
  intros Hs HΦ HΠ HΞ. unfold wp, poll_transport. destruct (poll_read n s) as [p s'] eqn:Ep.
  pose proof (poll_read_spec _ _ _ _ _ Hs Ep) as Hp.
  destruct p as [|[bs|e|]|]; eauto. destruct Hp as (c' & -> & ? & ? & ?). eauto.
Qed.

Lemma read_exact_loop_spec fuel size r s w :
  pending_wire r s w → (length (rbuf r) ≤ size)%nat →
  (size ≤ fuel + length (rbuf r))%nat → size ≠ 0%nat →
  wp (read_exact_loop fuel size) (read_exact_post r size w) (in_progress r size w)
    (λ _, in_progress r size w) (r, s).
Proof.
  assert (∀ r s c w, readable s c → w = rbuf r ++ c → length (rbuf r) = size →
          read_exact_post r size w size (r, s)) as Hdone.
  { intros r' s' c w' ? ? ?. left. split; [done|]. exists (rbuf r'), c, s'. by rewrite set_rbuf_id. }
  revert r s. induction fuel as [|fuel IH]; intros r s (c & Hs & Hw) Hle Hf Hsz.
  - cbn [read_exact_loop]. steps. rewrite bool_decide_eq_false_2 by lia. steps.
    apply (Hdone _ _ c); auto with lia.
  - cbn [read_exact_loop]. steps. case_bool_decide as Hlt.
    2:{ steps. apply (Hdone _ _ c); auto with lia. }
    assert (∀ s' c', readable s' c' → w = rbuf r ++ c' → in_progress r size w (r, s')) as Hin.
    { intros s' c' ? ?. apply in_progress_start; [by exists c'|lia]. }
    steps. apply (wp_poll_transport _ _ _ c); [done| |eauto|eauto].
    intros bs c' s' -> Hs' Hlen Heof. case_bool_decide as Hbs.
    + apply nil_length_inv in Hbs as ->. specialize (Heof eq_refl ltac:(lia)).
      simpl in Heof. subst c'. case_bool_decide as Hb; steps; [by eapply Hin|].
      right. split_and!; [done|by rewrite Hw, Hb|by eapply Hin].
    + steps. eapply wp_mono; [apply (IH (set_rbuf (rbuf r ++ bs) r) s')|..].
      * exists c'. split; [done|]. by rewrite rbuf_set, <- app_assoc.
      * rewrite rbuf_set, length_app. lia.
      * rewrite rbuf_set, length_app. lia.
      * done.
      * intros n st [(-> & b & d & s2 & -> & ?)|(-> & -> & ?%in_progress_set)]; [left|by right].
        split; [done|]. exists b, d, s2. by rewrite set_rbuf_set.
      * intros st. apply in_progress_set.
      * intros e st. apply in_progress_set.
Qed.

Lemma pool_read_exact_spec size r s w :
  pending_wire r s w → (length (rbuf r) ≤ size)%nat → size ≠ 0%nat →
  wp (pool_read_exact size) (read_exact_post r size w) (in_progress r size w)
    (λ _, in_progress r size w) (r, s).
Proof.
  intros Hw Hle Hsz. unfold pool_read_exact. steps.
  eapply wp_lift; [by rewrite bool_decide_eq_true_2|]. apply read_exact_loop_spec; auto with lia.
Qed.
End read_proof.

(** ** Writing *)

Section write_proof.
Context {W T : Type} `{WriteBuffer W} `{!WriteBufferOk W} `{AsyncWrite T} `{!AsyncWriteOk T}.
Implicit Types (w : W) (s : T).

(** The transport has an outstanding write of the rest of the buffer, or none. *)
Definition outstanding (o : option bytes) (pos : nat) (buf : bytes) : Prop :=
  o = None ∨ ((pos < length buf)%nat ∧ o = Some (drop pos buf)).

Definition writing_at (w : W) (total : bytes) (st : W * T) : Prop :=
  ∃ pos wr o, st.1 = set_wpos pos w ∧ (pos < length (wbuf w))%nat
    ∧ accepted st.2 wr o ∧ outstanding o pos (wbuf w)
    ∧ wr ++ drop pos (wbuf w) = total.

Lemma writing_loop_spec fuel pos w s wr o :
  set_wpos pos w = w → accepted s wr o → outstanding o pos (wbuf w) →
  (pos ≤ length (wbuf w))%nat → (length (wbuf w) ≤ fuel + pos)%nat →
  wp (writing_loop fuel pos)
    (λ _ st, ∃ pos', st.1 = set_wpos pos' w ∧ accepted st.2 (wr ++ drop pos (wbuf w)) None)
    (writing_at w (wr ++ drop pos (wbuf w))) (λ _ _, True) (w, s).
Proof.
  assert (∀ pos w s wr o, set_wpos pos w = w → accepted s wr o → outstanding o pos (wbuf w) →
          ¬ (pos < length (wbuf w))%nat →
          ∃ pos', (w, s).1 = set_wpos pos' w
            ∧ accepted (w, s).2 (wr ++ drop pos (wbuf w)) None) as Hdone.
  { intros pos' w' s' wr' o' Hst Ha Ho Hlt. destruct Ho as [->|[? _]]; [|lia]. exists pos'.
    split; [done|]. by rewrite drop_ge, app_nil_r by lia. }
  revert pos w s wr o. induction fuel as [|fuel IH]; intros pos w s wr o Hst Ha Ho Hle Hf;
    cbn [writing_loop]; steps; case_bool_decide as Hlt; try lia; [by steps; eapply Hdone| |by steps; eapply Hdone].
  assert (resubmits o (drop pos (wbuf w))) as Hr.
  { destruct Ho as [->|[_ ->]]; [by left|by right]. }
  steps. unfold wp at 1.
  destruct (poll_write (drop pos (wbuf w)) s) as [p s'] eqn:Ep.
  pose proof (poll_write_spec _ _ _ _ _ _ Ha Hr Ep) as Hp.
  destruct p as [|[n|e|]|]; try done.
  - destruct Hp as (o' & Ho' & Ha'). exists pos, wr, o'.
    split_and!; try done. destruct Ho' as [-> | ->]; [by left|by right].
  - destruct Hp as [Hn Ha']. rewrite length_drop in Hn. case_bool_decide as Hz; [done|]. steps.
    specialize (IH (pos + n)%nat (set_wpos (pos + n) w) s'
                  (wr ++ take n (drop pos (wbuf w))) None).
    rewrite !wbuf_set_wpos, <- app_assoc, <- drop_drop, take_drop in IH.
    eapply wp_mono; [apply IH; [apply set_wpos_set|done|by left|lia|lia]|..]; [|..|done].
    + intros _ st (pos' & E & ?). rewrite set_wpos_set in E. by exists pos'.
    + intros st (pos' & wr' & o' & E & Hpos). rewrite set_wpos_set in E.
      rewrite wbuf_set_wpos in Hpos. exists pos', wr', o'. naive_solver.
Qed.
End write_proof.

(** ** A pending call means a pending transport *)

Section progress.
Context {R T : Type} `{ReadBuffer R} `{AsyncRead T}.
Hypothesis ready : ∀ n (s s' : T), poll_read n s ≠ (Pending, s').

Lemma lift_ready {St E A} (m : res E A) : never_pending (St:=St) (lift m).
Proof. by intros ? ? [=]. Qed.
Lemma ret_ready {St E A} (a : A) : never_pending (St:=St) (E:=E) (ret a).
Proof. by intros ? ? [=]. Qed.
Lemma fail_ready {St E A} (e : E) : never_pending (St:=St) (A:=A) (fail e).
Proof. by intros ? ? [=]. Qed.
Lemma no_fuel_ready {St E A} : never_pending (St:=St) (E:=E) (A:=A) no_fuel.
Proof. by intros ? ? [=]. Qed.
Lemma self_ready {E} : never_pending (self (R:=R) (T:=T) (E:=E)).
Proof. by intros [] ? [=]. Qed.
Lemma modify_ready {E} f : never_pending (modify (R:=R) (T:=T) (E:=E) f).
Proof. by intros [] ? [=]. Qed.
Lemma poll_transport_ready n : never_pending (poll_transport (R:=R) (T:=T) n).
Proof.
  intros [r s] st'. unfold poll_transport. destruct (poll_read n s) as [p s'] eqn:E.
  intros [= -> <-]. by apply ready in E.
Qed.
End progress.

Ltac ready_tac :=
  repeat match goal with
  | |- never_pending (abind _ _) => apply never_pending_bind; [|intros ?]
  | |- never_pending (async_map_err _ _) => apply never_pending_map_err
  | |- never_pending (if ?c then _ else _) => destruct c
  | |- never_pending (let _ := _ in _) => cbv zeta
  | |- never_pending (match ?x with _ => _ end) => destruct x
  | |- _ => first [apply lift_ready | apply ret_ready | apply fail_ready | apply self_ready
                  | apply modify_ready | apply no_fuel_ready | by apply poll_transport_ready]
  end.

Section progress_read.
Context {R T : Type} `{ReadBuffer R} `{AsyncRead T}.
Hypothesis ready : ∀ n (s s' : T), poll_read n s ≠ (Pending, s').

Lemma read_exact_loop_ready fuel size :
  never_pending (read_exact_loop (R:=R) (T:=T) fuel size).
Proof. induction fuel as [|fuel IH]; cbn [read_exact_loop]; ready_tac. apply IH. Qed.

Lemma pool_read_exact_ready size : never_pending (pool_read_exact (R:=R) (T:=T) size).
Proof. unfold pool_read_exact. ready_tac. apply read_exact_loop_ready. Qed.
End progress_read.
