(* ===== verification/ChunkStream.v ===== *)
(** * Streams of sealed chunks

    The format the two stream protocols share after their headers: for every chunk its
    length and its data, each sealed with the next nonce.  [chunks_wire] is the encoder;
    [decode_chunks] is the reference decoder of a whole wire, on any bytes: the data of
    the chunks that are authentic up to the first defect, and what that defect is. *)

From S2P Require Import Prelude Io Crypto.

(** How a wire ends: after a whole chunk, inside of a unit, or with a unit that is not
    accepted. *)
Inductive verdict (E : Type) := Clean | Cut | Bad (e : E).
Global Arguments Clean {E}.
Global Arguments Cut {E}.
Global Arguments Bad {E} e.

Section chunks.
Context `{L : CryptoLib}.

(** The chunks on the wire, sealed with consecutive nonces. *)
Fixpoint chunks_wire (ci : Cipher) (chunks : list bytes) : bytes :=
  match chunks with
  | [] => []
  | p :: ps =>
    sealed ci (put_u16 (Z.of_nat (length p))) ++ sealed (increase_nonce ci) p
    ++ chunks_wire (increase_nonce (increase_nonce ci)) ps
  end.

Lemma chunks_wire_app ci ps qs :
  chunks_wire ci (ps ++ qs)
  = chunks_wire ci ps ++ chunks_wire (Nat.iter (2 * length ps) increase_nonce ci) qs.
Proof.
  revert ci. induction ps as [|p ps IH]; intros ci; [done|].
  cbn [app chunks_wire]. rewrite IH, <- !app_assoc. do 3 f_equal.
  cbn [length]. replace (2 * S (length ps))%nat with (2 * length ps + 2)%nat by lia.
  by rewrite Nat.iter_add.
Qed.

(** The decoder, with the errors of a protocol; [check] refuses lengths. *)
Section decode.
Context {E : Type} (bad_length bad_data : E) (check : nat → option E).

Definition plen (m : bytes) : nat := Z.to_nat (be_decode (take 2 m)).

(** The rest of a chunk of [n] bytes, and what follows it. *)
Definition decode_data (next : Cipher → bytes → option (bytes * verdict E))
    (ci : Cipher) (n : nat) (w : bytes) : option (bytes * verdict E) :=
  if bool_decide (length w < n + 16)%nat then Some ([], Cut) else
  match opened ci (take (n + 16) w) with
  | None => Some ([], Bad bad_data)
  | Some p =>
    '(pt, v) ← next (increase_nonce ci) (drop (n + 16) w);
    Some (p ++ pt, v)
  end.

Fixpoint decode_chunks (fuel : nat) (ci : Cipher) (w : bytes) : option (bytes * verdict E) :=
  match fuel with
  | O => None
  | S fuel =>
    if bool_decide (w = []) then Some ([], Clean)
    else if bool_decide (length w < 18)%nat then Some ([], Cut)
    else match opened ci (take 18 w) with
      | None => Some ([], Bad bad_length)
      | Some m =>
        match check (plen m) with
        | Some e => Some ([], Bad e)
        | None => decode_data (decode_chunks fuel) (increase_nonce ci) (plen m) (drop 18 w)
        end
      end
  end.

(** The decoder is total: one turn for each byte is enough. *)
Lemma decode_data_total next ci n w :
  (∀ ci w', (length w' + 16 ≤ length w)%nat → next ci w' ≠ None) →
  decode_data next ci n w ≠ None.
Proof.
  intros Hn. unfold decode_data. case_bool_decide; [done|]. case_match; [|done].
  specialize (Hn (increase_nonce ci) (drop (n + 16) w)). rewrite length_drop in Hn.
  destruct (next _ _) as [[]|]; [done|]. exfalso. apply Hn; [lia|done].
Qed.

Lemma decode_chunks_total fuel ci w : (length w < fuel)%nat → decode_chunks fuel ci w ≠ None.
Proof.
  revert ci w. induction fuel as [|fuel IH]; intros ci w Hf; [lia|]. cbn [decode_chunks].
  repeat (case_bool_decide; [done|]). repeat case_match; try done.
  apply decode_data_total. intros ci' w' Hw'. rewrite length_drop in Hw'. apply IH. lia.
Qed.

(** The errors the decoder blames on a wire. *)
Lemma decode_data_bad next ci n w pt e :
  decode_data next ci n w = Some (pt, Bad e) →
  e = bad_data ∨ ∃ ci' w' pt', next ci' w' = Some (pt', Bad e).
Proof.
  unfold decode_data. case_bool_decide; [done|].
  destruct (opened _ _); [|intros; simplify_eq; by left].
  destruct (next _ _) as [[]|] eqn:En; intros; simplify_eq/=. eauto.
Qed.

Lemma decode_chunks_bad fuel ci w pt e :
  decode_chunks fuel ci w = Some (pt, Bad e) →
  e = bad_length ∨ e = bad_data ∨ ∃ n, check n = Some e.
Proof.
  revert ci w pt. induction fuel as [|fuel IH]; intros ci w pt; [done|]. cbn [decode_chunks].
  repeat case_match; intros Hd; simplify_eq; eauto.
  destruct (decode_data_bad _ _ _ _ _ _ Hd) as [?|(? & ? & ? & ?)]; eauto.
Qed.

Context `{!CryptoLibOk L}.

Lemma decode_data_sealed next ci p w :
  decode_data next ci (length p) (sealed ci p ++ w)
  = ('(pt, v) ← next (increase_nonce ci) w; Some (p ++ pt, v)).
Proof.
  unfold decode_data. rewrite bool_decide_eq_false_2 by (rewrite length_app, length_sealed; lia).
  rewrite take_app_length', drop_app_length' by (rewrite length_sealed; lia).
  by rewrite opened_sealed.
Qed.

Lemma plen_put_u16 n tl : Z.of_nat n < 65536 → plen (put_u16 (Z.of_nat n) ++ tl) = n.
Proof.
  intros Hn. unfold plen. rewrite take_app_length' by (by rewrite length_put_u16).
  unfold put_u16. rewrite be_decode_encode by (simpl; lia). apply Nat2Z.id.
Qed.

Lemma chunks_wire_length ci chunks : (length chunks ≤ length (chunks_wire ci chunks))%nat.
Proof.
  revert ci. induction chunks as [|p ps IH]; intros ci; [done|]. cbn [chunks_wire length].
  rewrite !length_app, length_sealed. specialize (IH (increase_nonce (increase_nonce ci))). lia.
Qed.

(** The decoder undoes the encoder. *)
Lemma decode_chunks_wire fuel ci chunks :
  Forall (λ p, Z.of_nat (length p) < 65536 ∧ check (length p) = None) chunks →
  (length chunks < fuel)%nat →
  decode_chunks fuel ci (chunks_wire ci chunks) = Some (concat chunks, Clean).
Proof.
  intros Hc. revert fuel ci. induction Hc as [|p ps [Hp Hk] _ IH]; intros fuel ci Hf.
  - destruct fuel; [simpl in Hf; lia|]. done.
  - destruct fuel as [|fuel]; [simpl in Hf; lia|]. cbn [decode_chunks chunks_wire].
    set (len := sealed ci _). assert (length len = 18%nat) as Hl
      by (subst len; by rewrite length_sealed, length_put_u16).
    rewrite bool_decide_eq_false_2
      by (intros E0%(f_equal length); rewrite length_app, Hl in E0; simpl in E0; lia).
    rewrite bool_decide_eq_false_2 by (rewrite length_app, Hl; lia).
    rewrite take_app_length', drop_app_length' by done. subst len. rewrite opened_sealed.
    pose proof (plen_put_u16 (length p) [] Hp) as Hpl. rewrite app_nil_r in Hpl.
    rewrite Hpl, Hk, decode_data_sealed, IH by (simpl in Hf; lia). done.
Qed.
End decode.
End chunks.
