(* ===== verification/TcpAead.v ===== *)
(** * The AEAD stream protocol (lib/shadowsocks/src/tcp/aead.rs)

    [DecryptedReader] and [EncryptedWriter]: the chunked stream

      salt, then for every chunk: seal(length), seal(data)

    over a non-blocking transport.  Both are state machines that survive a pending
    transport at any point. *)

From S2P Require Import Prelude Io Crypto StreamBuf ChunkStream.

Local Open Scope async_scope.

(** AEAD packet payload must be smaller than 0x3FFF *)
Definition MAX_PACKET_SIZE : nat := Z.to_nat 16383.

Inductive ProtocolError :=
  | IoError (e : ErrorKind)
  | HeaderTooShort (expected found : nat)
  | DecryptDataError
  | DecryptLengthError
  | DataTooLong (n : nat).

(** [impl From<ProtocolError> for io::Error], up to the kind of the error. *)
Definition into_io (e : ProtocolError) : ErrorKind :=
  match e with
  | IoError err => err
  | _ => OtherError
  end.

Inductive DecryptReadState :=
  | WaitSalt (key : bytes)
  | ReadLength
  | ReadData (length : nat)
  | BufferedData (pos : nat).

Section aead_stream.
Context `{L : CryptoLib}.

Record DecryptedReader := {
  rstate : DecryptReadState;
  rkind : CipherKind;
  rcipher : option Cipher;
  rbuffer : bytes;
  rsalt : option bytes;
  rhandshaked : bool
}.

(** The buffer is allocated with [kind.salt_len()] bytes. *)
Definition DecryptedReader_new {E} (kind : CipherKind) (key : bytes) : res E DecryptedReader :=
  _ ← salt_len kind;
  Ok {| rstate := WaitSalt key; rkind := kind; rcipher := None; rbuffer := [];
        rsalt := None; rhandshaked := false |}.

Definition reader_salt (r : DecryptedReader) : option bytes := rsalt r.
Definition handshaked (r : DecryptedReader) : bool := rhandshaked r.

Definition set_buffer (b : bytes) (r : DecryptedReader) : DecryptedReader :=
  {| rstate := rstate r; rkind := rkind r; rcipher := rcipher r; rbuffer := b;
     rsalt := rsalt r; rhandshaked := rhandshaked r |}.
Definition set_state (st : DecryptReadState) (r : DecryptedReader) : DecryptedReader :=
  {| rstate := st; rkind := rkind r; rcipher := rcipher r; rbuffer := rbuffer r;
     rsalt := rsalt r; rhandshaked := rhandshaked r |}.
Definition set_cipher (c : Cipher) (r : DecryptedReader) : DecryptedReader :=
  {| rstate := rstate r; rkind := rkind r; rcipher := Some c; rbuffer := rbuffer r;
     rsalt := rsalt r; rhandshaked := rhandshaked r |}.
Definition set_salt (b : bytes) (r : DecryptedReader) : DecryptedReader :=
  {| rstate := rstate r; rkind := rkind r; rcipher := rcipher r; rbuffer := rbuffer r;
     rsalt := Some b; rhandshaked := rhandshaked r |}.
Definition set_handshaked (r : DecryptedReader) : DecryptedReader :=
  {| rstate := rstate r; rkind := rkind r; rcipher := rcipher r; rbuffer := rbuffer r;
     rsalt := rsalt r; rhandshaked := true |}.

Global Instance reader_ReadBuffer : ReadBuffer DecryptedReader :=
  { rbuf := rbuffer; set_rbuf := set_buffer }.
Global Instance reader_ReadBufferOk : ReadBufferOk DecryptedReader.
Proof. by split; [| |intros []]. Qed.

Section reader.
Context {T : Type} `{AsyncRead T}.

Abbreviation IO A := (async (DecryptedReader * T) ProtocolError A).

Definition poll_read_salt (key : bytes) : IO () :=
  let! r := self in
  let! salt_len := lift (salt_len (rkind r)) in
  let! n := async_map_err IoError (pool_read_exact salt_len) in
  if bool_decide (n < salt_len)%nat then fail (IoError UnexpectedEof) else
  let! r := self in
  let! salt := lift (slice (rbuffer r) 0 salt_len) in
  modify (set_salt salt) ;!
  let! cipher := lift (Cipher_new (rkind r) key salt) in
  modify (set_cipher cipher).

(** The outcome, and what is left in the two arguments it mutates. *)
Definition decrypt_length (cipher : Cipher) (m : bytes)
  : res ProtocolError (res ProtocolError nat * bytes * Cipher) :=
  '(ok, m, cipher) ← decrypt cipher m;
  let plen := Z.to_nat (be_decode (take 2 m)) in
  let outcome :=
    if negb ok then Err DecryptLengthError
    else if bool_decide (MAX_PACKET_SIZE < plen)%nat then Err (DataTooLong plen)
    else Ok plen in
  Ok (outcome, m, cipher).

Definition poll_read_length : IO (option nat) :=
  let! r := self in
  let! tag_len := lift (tag_len (rkind r)) in
  let length_len := (2 + tag_len)%nat in
  let! n := async_map_err IoError (pool_read_exact length_len) in
  if bool_decide (n = 0)%nat then ret None else
  let! r := self in
  let! cipher := lift (expect (rcipher r)) in
  let! m := lift (slice (rbuffer r) 0 length_len) in
  let! '(outcome, m, cipher) := lift (decrypt_length cipher m) in
  modify (λ r, set_cipher cipher (set_buffer (m ++ drop length_len (rbuffer r)) r)) ;!
  let! length := lift outcome in
  ret (Some length).

Definition poll_read_data (size : nat) : IO () :=
  let! r := self in
  let! tag_len := lift (tag_len (rkind r)) in
  let data_len := (size + tag_len)%nat in
  let! n := async_map_err IoError (pool_read_exact data_len) in
  if bool_decide (n = 0)%nat then fail (IoError UnexpectedEof) else
  let! r := self in
  let! cipher := lift (expect (rcipher r)) in
  let! m := lift (slice (rbuffer r) 0 data_len) in
  let! '(ok, m, cipher) := lift (decrypt cipher m) in
  modify (λ r, set_cipher cipher (set_buffer (m ++ drop data_len (rbuffer r)) r)) ;!
  if negb ok then fail DecryptDataError else
  modify (λ r, set_buffer (take size (rbuffer r)) r).

(** One turn of the loop of [poll_read_decrypted]: [Some bs] when the call returns,
    having put [bs] into the caller's buffer. *)
Definition read_turn (room : nat) : IO (option bytes) :=
  let! r := self in
  match rstate r with
  | WaitSalt key =>
    poll_read_salt key ;!
    modify (λ r, set_handshaked (set_state ReadLength (set_buffer [] r))) ;!
    ret None
  | ReadLength =>
    let! length := poll_read_length in
    match length with
    | None => ret (Some [])
    | Some length =>
      modify (λ r, set_state (ReadData length) (set_buffer [] r)) ;!
      ret None
    end
  | ReadData length =>
    poll_read_data length ;!
    modify (set_state (BufferedData 0)) ;!
    ret None
  | BufferedData pos =>
    if bool_decide (pos < length (rbuffer r))%nat then
      let buffered := drop pos (rbuffer r) in
      let consumed := Nat.min (length buffered) room in
      modify (set_state (BufferedData (pos + consumed))) ;!
      ret (Some (take consumed buffered))
    else
      modify (λ r, set_state ReadLength (set_buffer [] r)) ;!
      ret None
  end.

(** [poll_read_decrypted] with a caller's buffer that has [room] bytes left. *)
Fixpoint poll_read_decrypted (fuel room : nat) : IO bytes :=
  match fuel with
  | O => no_fuel
  | S fuel =>
    let! done := read_turn room in
    match done with
    | Some bs => ret bs
    | None => poll_read_decrypted fuel room
    end
  end.
End reader.

Inductive EncryptWriteState :=
  | AssemblePacket
  | Writing (pos : nat).

Record EncryptedWriter := {
  wcipher : Cipher;
  wbuffer : bytes;
  wstate : EncryptWriteState;
  wsalt : bytes
}.

Definition EncryptedWriter_new {E} (kind : CipherKind) (key nonce : bytes)
  : res E EncryptedWriter :=
  cipher ← Cipher_new kind key nonce;
  Ok {| wcipher := cipher; wbuffer := nonce; wstate := AssemblePacket; wsalt := nonce |}.

Definition writer_salt (w : EncryptedWriter) : bytes := wsalt w.

(** [encrypt] of a plaintext placed in front of [tag_len] bytes of spare capacity. *)
Definition append_sealed {E} (w : EncryptedWriter) (pt : bytes) : res E EncryptedWriter :=
  tag_len ← cipher_tag_len (wcipher w);
  '(out, cipher) ← encrypt (wcipher w) (pt ++ replicate tag_len 0);
  Ok {| wcipher := cipher; wbuffer := wbuffer w ++ out; wstate := wstate w;
        wsalt := wsalt w |}.

(** Steps 1 to 3 of [AssemblePacket]. *)
Definition assemble_packet {E} (buf : bytes) (w : EncryptedWriter) : res E EncryptedWriter :=
  w ← append_sealed w (put_u16 (Z.of_nat (length buf)));
  w ← append_sealed w buf;
  Ok {| wcipher := wcipher w; wbuffer := wbuffer w; wstate := Writing 0; wsalt := wsalt w |}.

Definition set_pos (pos : nat) (w : EncryptedWriter) : EncryptedWriter :=
  {| wcipher := wcipher w; wbuffer := wbuffer w; wstate := Writing pos; wsalt := wsalt w |}.
Definition reset_state (w : EncryptedWriter) : EncryptedWriter :=
  {| wcipher := wcipher w; wbuffer := []; wstate := AssemblePacket; wsalt := wsalt w |}.

Global Instance writer_WriteBuffer : WriteBuffer EncryptedWriter :=
  { wbuf := wbuffer; set_wpos := set_pos }.
Global Instance writer_WriteBufferOk : WriteBufferOk EncryptedWriter.
Proof. by split. Qed.

Section writer.
Context {T : Type} `{AsyncWrite T}.

Abbreviation IO A := (async (EncryptedWriter * T) ErrorKind A).

Definition poll_write_encrypted (buf : bytes) : IO nat :=
  let buf := if bool_decide (MAX_PACKET_SIZE < length buf)%nat
             then take MAX_PACKET_SIZE buf else buf in
  let! '(w, s) := get_state in
  let! w := lift (match wstate w with
            | AssemblePacket => assemble_packet buf w
            | Writing _ => Ok w
            end) in
  put_state (w, s) ;!
  let pos := match wstate w with Writing pos => pos | AssemblePacket => 0%nat end in
  writing_loop (length (wbuffer w)) pos ;!
  let! '(w, s) := get_state in
  put_state (reset_state w, s) ;!
  ret (length buf).
End writer.
End aead_stream.

(** ** The reference decoder of a whole stream *)

Definition chunk_ok (p : bytes) : Prop := (length p ≤ MAX_PACKET_SIZE)%nat.

Definition check_len (n : nat) : option ProtocolError :=
  if bool_decide (MAX_PACKET_SIZE < n)%nat then Some (DataTooLong n) else None.

Section decode.
Context `{L : CryptoLib}.

Definition decode : nat → Cipher → bytes → option (bytes * verdict ProtocolError) :=
  decode_chunks DecryptLengthError DecryptDataError check_len.

(** What the wire [w] carries for a reader with the key: the authentic data up to the
    first defect, and how the wire ends. *)
Definition decode_stream (fuel : nat) (kind : CipherKind) (key w : bytes)
  : option (bytes * verdict ProtocolError) :=
  match salt_len (E:=()) kind with
  | Ok n =>
    if bool_decide (length w < n)%nat then Some ([], Cut) else
    match Cipher_new (E:=()) kind key (take n w) with
    | Ok ci => decode fuel ci (drop n w)
    | _ => None
    end
  | _ => None
  end.

Lemma chunk_ok_check chunks :
  Forall chunk_ok chunks →
  Forall (λ p, Z.of_nat (length p) < 65536 ∧ check_len (length p) = None) chunks.
Proof.
  apply Forall_impl. unfold chunk_ok, check_len, MAX_PACKET_SIZE. intros p Hp.
  split; [lia|]. by rewrite bool_decide_eq_false_2 by lia.
Qed.

(** Every wire has a meaning. *)
Lemma decode_stream_total `{!CryptoLibOk L} fuel kind key w :
  is_aead kind = true → key_len (E:=()) kind = Ok (length key) → (length w < fuel)%nat →
  decode_stream fuel kind key w ≠ None.
Proof.
  intros Hk Hkey Hf. unfold decode_stream, salt_len. rewrite Hkey. case_bool_decide; [done|].
  destruct (Cipher_new_wf (E:=()) kind key (take (length key) w) Hk (eq_sym Hkey))
    as (ci & -> & _).
  apply decode_chunks_total. rewrite length_drop. lia.
Qed.

(** The stream of a writer means its data. *)
Lemma decode_stream_wire `{!CryptoLibOk L} fuel kind key salt ci chunks :
  salt_len (E:=()) kind = Ok (length salt) → Cipher_new (E:=()) kind key salt = Ok ci →
  Forall chunk_ok chunks → (length chunks < fuel)%nat →
  decode_stream fuel kind key (salt ++ chunks_wire ci chunks) = Some (concat chunks, Clean).
Proof.
  intros Hs Hci Hc Hf. unfold decode_stream. rewrite Hs.
  rewrite bool_decide_eq_false_2 by (rewrite length_app; lia).
  rewrite take_app_length, drop_app_length, Hci.
  apply decode_chunks_wire; [done|by apply chunk_ok_check|done].
Qed.
End decode.

(** ** The reader refines the decoder *)

Section reader_proof.
Context `{L : CryptoLib} `{!CryptoLibOk L}.
Context {T : Type} `{AsyncRead T} `{!AsyncReadOk T}.
Implicit Types (r : DecryptedReader) (s : T) (v : verdict ProtocolError).

(** [reader_sees r s n pt v]: what the reader has buffered and what the transport will
    deliver mean the plaintext [pt] and the end [v]; [n] bounds the turns of the loop. *)
Inductive reader_sees (r : DecryptedReader) (s : T) :
    nat → bytes → verdict ProtocolError → Prop :=
  | sees_salt key w f n pt v
      (Hst : rstate r = WaitSalt key) (Hk : is_aead (rkind r) = true)
      (Hw : pending_wire r s w) (Hsl : salt_len (E:=()) (rkind r) = Ok n)
      (Hb : (length (rbuf r) ≤ n)%nat)
      (Hdec : decode_stream f (rkind r) key w = Some (pt, v)) :
    reader_sees r s (length w + 3) pt v
  | sees_length ci w f pt v
      (Hst : rstate r = ReadLength) (Hk : is_aead (rkind r) = true)
      (Hw : pending_wire r s w) (Hci : rcipher r = Some ci) (Hwf : cipher_wf ci)
      (Hb : (length (rbuf r) ≤ 18)%nat) (Hdec : decode f ci w = Some (pt, v)) :
    reader_sees r s (length w + 2) pt v
  | sees_data ci len w f pt v
      (Hst : rstate r = ReadData len) (Hk : is_aead (rkind r) = true)
      (Hw : pending_wire r s w) (Hci : rcipher r = Some ci) (Hwf : cipher_wf ci)
      (Hb : (length (rbuf r) ≤ len + 16)%nat)
      (Hdec : decode_data DecryptDataError (decode f) ci len w = Some (pt, v)) :
    reader_sees r s (length w + 2) pt v
  | sees_buffered ci pos w f pt v
      (Hst : rstate r = BufferedData pos) (Hk : is_aead (rkind r) = true)
      (Hs : readable s w) (Hci : rcipher r = Some ci) (Hwf : cipher_wf ci)
      (Hpos : (pos ≤ length (rbuf r))%nat) (Hdec : decode f ci w = Some (pt, v)) :
    reader_sees r s (length w + 3) (drop pos (rbuf r) ++ pt) v.

(** A pending step, or one the transport fails, keeps what is still to be delivered;
    any other error is the defect of the wire, and comes when all is delivered. *)
Definition sees_kept (n : nat) (pt : bytes) v (st : DecryptedReader * T) : Prop :=
  ∃ n', (n' ≤ n)%nat ∧ reader_sees st.1 st.2 n' pt v.
Definition sees_failed (n : nat) (pt : bytes) v (e : ProtocolError) (st : DecryptedReader * T) :=
  match e with IoError _ => sees_kept n pt v st | _ => pt = [] ∧ v = Bad e end.

(** A turn either makes progress without delivering anything, or delivers a prefix of
    the plaintext that fits the room, which is empty only at a clean end. *)
Definition turn_post (room n : nat) (pt : bytes) v (out : option bytes)
    (st : DecryptedReader * T) : Prop :=
  match out with
  | None => ∃ n', (n' < n)%nat ∧ reader_sees st.1 st.2 n' pt v
  | Some bs =>
    ∃ n' pt', (n' ≤ n)%nat ∧ pt = bs ++ pt' ∧ reader_sees st.1 st.2 n' pt' v
      ∧ (length bs ≤ room)%nat ∧ (bs = [] → (0 < room)%nat → pt = [] ∧ v = Clean)
  end.

Abbreviation turn_spec room n pt v r s :=
  (wp (read_turn room) (turn_post room n pt v) (sees_kept n pt v) (sees_failed n pt v) (r, s)).

Lemma turn_salt room r s key w f n pt v :
  rstate r = WaitSalt key → is_aead (rkind r) = true →
  pending_wire r s w → salt_len (E:=()) (rkind r) = Ok n → (length (rbuf r) ≤ n)%nat →
  decode_stream f (rkind r) key w = Some (pt, v) →
  turn_spec room (length w + 3)%nat pt v r s.
Proof.
  intros Hst Hk Hw Hsl Hb Hdec.
  assert (n ≠ 0%nat) as Hnz by (destruct (aead_salt_len (E:=()) (rkind r) Hk) as (? & ? & ?); congruence).
  assert (∀ st, in_progress r n w st → sees_kept (length w + 3) pt v st) as Hkept.
  { intros ? (b & s' & -> & Hw' & Hb'). eexists; split; [done|]. by eapply sees_salt. }
  unfold read_turn, poll_read_salt. steps. rewrite Hst. steps.
  eapply wp_lift; [by apply (salt_len_poly (E:=()))|]. steps.
  eapply wp_mono; [by apply (pool_read_exact_spec n r s w)| |done|by intros e st ?; apply Hkept].
  intros m st [(-> & b & c & s' & -> & Hs' & -> & Hlb)|(-> & _ & Hin)].
  2:{ rewrite bool_decide_eq_true_2 by lia. steps. by apply Hkept. }
  rewrite bool_decide_eq_false_2 by lia.
  unfold decode_stream in Hdec. rewrite Hsl in Hdec.
  rewrite bool_decide_eq_false_2 in Hdec by (rewrite length_app; lia).
  rewrite take_app_length', drop_app_length' in Hdec by done.
  destruct (Cipher_new (rkind r) key b) as [ci| |] eqn:Hci; try done.
  steps. eapply wp_lift; [rewrite <- Hlb; apply slice_full|]. steps.
  eapply wp_lift; [by apply (Cipher_new_poly (E:=()))|]. steps.
  exists (length c + 2)%nat. split; [rewrite length_app; lia|].
  apply (sees_length _ _ ci c f); try done; [by exists c|by eapply Cipher_new_Ok_wf|simpl; lia].
Qed.

(** [decrypt_length] as the decoder sees it. *)
Lemma decrypt_length_opens ci m :
  cipher_wf ci → length m = 18%nat →
  ∃ m', decrypt_length ci m = Ok (match opened ci m with
    | None => Err DecryptLengthError
    | Some pt => match check_len (plen pt) with Some e => Err e | None => Ok (plen pt) end
    end, m', increase_nonce ci) ∧ length m' = 18%nat.
Proof.
  intros Hwf Hm. destruct (decrypt_opens (E:=ProtocolError) ci m Hwf ltac:(lia))
    as (out & Hlen & Hd & Ho).
  unfold decrypt_length. rewrite Hd. cbn [mbind res_bind]. exists out. split; [|lia].
  destruct (opened ci m) as [pt|] eqn:Eo; [|done]. cbn [bool_decide negb].
  rewrite bool_decide_eq_true_2 by done. cbn [negb].
  pose proof (opened_length _ _ _ Eo ltac:(lia)). rewrite (Ho pt eq_refl).
  unfold plen, check_len. rewrite take_app_le by lia. clear Hd. by case_bool_decide.
Qed.

Lemma turn_length room r s ci w f pt v :
  rstate r = ReadLength → is_aead (rkind r) = true →
  pending_wire r s w → rcipher r = Some ci → cipher_wf ci →
  (length (rbuf r) ≤ 18)%nat → decode f ci w = Some (pt, v) →
  turn_spec room (length w + 2)%nat pt v r s.
Proof.
  intros Hst Hk Hw Hci Hwf Hb Hdec.
  assert (∀ st, in_progress r 18 w st → sees_kept (length w + 2) pt v st) as Hkept.
  { intros ? (b & s' & -> & Hw' & Hb'). eexists; split; [done|]. by eapply sees_length. }
  unfold read_turn, poll_read_length. steps. rewrite Hst. steps.
  eapply wp_lift; [by apply aead_tag_len|]. steps.
  eapply wp_mono; [by apply (pool_read_exact_spec 18 r s w)| |done|by intros e st ?; apply Hkept].
  destruct f as [|f]; [done|]. unfold decode in Hdec. cbn [decode_chunks] in Hdec.
  intros n st [(-> & b & c & s' & -> & Hs' & -> & Hlb)|(-> & -> & Hin)].
  - rewrite bool_decide_eq_false_2 in Hdec by (intros [-> ->]%app_nil; done).
    rewrite bool_decide_eq_false_2 in Hdec by (rewrite length_app; lia).
    rewrite take_app_length', drop_app_length' in Hdec by done.
    rewrite bool_decide_eq_false_2 by lia. steps.
    eapply wp_lift; [by simpl; rewrite Hci|]. steps.
    eapply wp_lift; [simpl; rewrite <- Hlb; apply slice_full|]. steps.
    destruct (decrypt_length_opens ci b Hwf Hlb) as (m' & Hm & _).
    eapply wp_lift; [exact Hm|]. steps.
    destruct (opened ci b) as [m|]; [|by simplify_eq].
    destruct (check_len (plen m)) as [e|] eqn:Ec.
    { simplify_eq. unfold check_len in Ec. case_bool_decide; by simplify_eq. }
    eapply wp_lift; [done|]. steps.
    exists (length c + 2)%nat. split; [rewrite length_app; lia|].
    eapply (sees_data _ _ (increase_nonce ci) (plen m) c f); try done.
    + by exists c.
    + by apply increase_nonce_wf.
    + simpl. lia.
  - rewrite bool_decide_eq_true_2 in Hdec by done. simplify_eq. rewrite bool_decide_eq_true_2 by done.
    steps. destruct (Hkept _ Hin) as (n' & ? & ?).
    exists n', []. split_and!; [done|done|done|simpl; lia|done].
Qed.

Lemma turn_data room r s ci len w f pt v :
  rstate r = ReadData len → is_aead (rkind r) = true →
  pending_wire r s w → rcipher r = Some ci → cipher_wf ci →
  (length (rbuf r) ≤ len + 16)%nat →
  decode_data DecryptDataError (decode f) ci len w = Some (pt, v) →
  turn_spec room (length w + 2)%nat pt v r s.
Proof.
  intros Hst Hk Hw Hci Hwf Hb Hdec.
  assert (∀ st, in_progress r (len + 16) w st → sees_kept (length w + 2) pt v st) as Hkept.
  { intros ? (b & s' & -> & Hw' & Hb'). eexists; split; [done|]. by eapply sees_data. }
  unfold read_turn, poll_read_data. steps. rewrite Hst. steps.
  eapply wp_lift; [by apply aead_tag_len|]. steps.
  eapply wp_mono; [apply (pool_read_exact_spec (len + 16) r s w); auto with lia| |done|
                   by intros e st ?; apply Hkept].
  intros n st [(-> & b & c & s' & -> & Hs' & -> & Hlb)|(-> & -> & Hin)].
  2:{ rewrite bool_decide_eq_true_2 by done. steps. by apply Hkept. }
  unfold decode_data in Hdec.
  rewrite bool_decide_eq_false_2 in Hdec by (rewrite length_app; lia).
  rewrite take_app_length', drop_app_length' in Hdec by done.
  rewrite bool_decide_eq_false_2 by lia. steps.
  eapply wp_lift; [by simpl; rewrite Hci|]. steps.
  eapply wp_lift; [simpl; rewrite <- Hlb; apply slice_full|]. steps.
  destruct (decrypt_opens (E:=ProtocolError) ci b Hwf ltac:(lia)) as (out & Hlo & Hd & Ho).
  eapply wp_lift; [exact Hd|]. steps.
  destruct (opened ci b) as [p|] eqn:Eo.
  2:{ rewrite bool_decide_eq_false_2 by naive_solver. steps. by simplify_eq. }
  rewrite bool_decide_eq_true_2 by done. cbn [negb]. steps.
  pose proof (opened_length _ _ _ Eo ltac:(lia)) as Hpl.
  destruct (decode f (increase_nonce ci) c) as [[pt' v']|] eqn:Ed; [|done]. simplify_eq/=.
  exists (length c + 3)%nat. split; [rewrite length_app; lia|].
  rewrite (Ho p eq_refl), <- app_assoc, take_app_length' by lia.
  match goal with |- reader_sees ?r' _ _ _ _ =>
    apply (sees_buffered r' _ (increase_nonce ci) 0 c f pt') end; try done.
  - by apply increase_nonce_wf.
  - simpl. lia.
Qed.

Lemma turn_buffered room r s ci pos w f pt v :
  rstate r = BufferedData pos → is_aead (rkind r) = true →
  readable s w → rcipher r = Some ci → cipher_wf ci →
  (pos ≤ length (rbuf r))%nat → decode f ci w = Some (pt, v) →
  turn_spec room (length w + 3)%nat (drop pos (rbuf r) ++ pt) v r s.
Proof.
  intros Hst Hk Hs Hci Hwf Hpos Hdec. simpl rbuf in *.
  unfold read_turn. steps. rewrite Hst. case_bool_decide as Hlt; steps.
  - set (n := Nat.min (length (drop pos (rbuffer r))) room).
    exists (length w + 3)%nat, (drop (pos + n) (rbuffer r) ++ pt).
    assert (length (drop pos (rbuffer r)) = (length (rbuffer r) - pos)%nat)
      by apply length_drop.
    split_and!; [lia| | | |].
    + by rewrite <- drop_drop, app_assoc, take_drop.
    + apply (sees_buffered (set_state (BufferedData (pos + n)) r) s ci (pos + n) w f pt);
        try done. simpl. lia.
    + rewrite length_take. lia.
    + intros Hnil ?. apply (f_equal length) in Hnil. rewrite length_take in Hnil.
      simpl in Hnil. lia.
  - exists (length w + 2)%nat. split; [lia|]. rewrite drop_ge by lia.
    apply (sees_length _ _ ci w f); try done; [by exists w|simpl; lia].
Qed.

Lemma turn_sees room n pt v r s : reader_sees r s n pt v → turn_spec room n pt v r s.
Proof.
  destruct 1; eauto using turn_salt, turn_length, turn_data, turn_buffered.
Qed.

Lemma poll_read_decrypted_sees fuel room n pt v r s :
  reader_sees r s n pt v → (n < fuel)%nat →
  wp (poll_read_decrypted fuel room)
    (λ bs st, turn_post room n pt v (Some bs) st) (sees_kept n pt v) (sees_failed n pt v) (r, s).
Proof.
  revert n r s. induction fuel as [|fuel IH]; intros n r s Hr Hf; [lia|].
  cbn [poll_read_decrypted]. steps.
  eapply wp_mono; [by apply turn_sees| |done|done].
  intros [bs|] [r' s'] Hp; [by apply wp_ret|].
  destruct Hp as (n' & Hn' & Hr'). simpl in Hr'.
  eapply wp_mono; [by apply (IH n'); auto with lia|..]; unfold turn_post, sees_failed, sees_kept.
  - intros bs [r'' s''] (m & pt' & ? & ? & ? & ? & ?). exists m, pt'. split_and!; auto with lia.
  - intros [r'' s''] (m & ? & ?). exists m. split; auto with lia.
  - intros e [r'' s'']. destruct e; [|done..]. intros (m & ? & ?). exists m. split; auto with lia.
Qed.

(** Readers of a whole stream that ends cleanly. *)
Definition reader_rel (r : DecryptedReader) (s : T) (n : nat) (pt : bytes) : Prop :=
  reader_sees r s n pt Clean.
Definition rel_kept (n : nat) (pt : bytes) (st : DecryptedReader * T) : Prop :=
  ∃ n', (n' ≤ n)%nat ∧ reader_rel st.1 st.2 n' pt.
Definition rel_failed (n : nat) (pt : bytes) (e : ProtocolError) (st : DecryptedReader * T) :=
  (∃ k, e = IoError k) ∧ rel_kept n pt st.

Lemma poll_read_decrypted_rel fuel room n pt r s :
  reader_rel r s n pt → (n < fuel)%nat →
  wp (poll_read_decrypted fuel room)
    (λ bs st, ∃ n' pt', (n' ≤ n)%nat ∧ pt = bs ++ pt' ∧ reader_rel st.1 st.2 n' pt'
       ∧ (length bs ≤ room)%nat ∧ (bs = [] → (0 < room)%nat → pt = []))
    (rel_kept n pt) (rel_failed n pt) (r, s).
Proof.
  intros Hr Hf. eapply wp_mono; [by apply poll_read_decrypted_sees|..].
  - intros bs st (n' & pt' & ? & ? & ? & ? & He). exists n', pt'. split_and!; try done.
    intros. by apply He.
  - done.
  - intros e st. destruct e; [|by intros [??]..]. intros ?. split; [by eexists|done].
Qed.
End reader_proof.

(** ** The writer implements [AsyncWrite] on the plaintext *)

Section writer_proof.
Context `{L : CryptoLib} `{!CryptoLibOk L}.
Context {T : Type} `{AsyncWrite T} `{!AsyncWriteOk T}.
Implicit Types (w : EncryptedWriter) (s : T).

(** What one call sends: the buffer, cut at the maximal packet size. *)
Definition chunk_of (buf : bytes) : bytes := take MAX_PACKET_SIZE buf.

Lemma chunk_of_if buf :
  (if bool_decide (MAX_PACKET_SIZE < length buf)%nat then take MAX_PACKET_SIZE buf else buf)
  = chunk_of buf.
Proof. case_bool_decide; [done|]. unfold chunk_of. by rewrite take_ge by lia. Qed.

Lemma chunk_of_ok buf : chunk_ok (chunk_of buf).
Proof. unfold chunk_ok, chunk_of. rewrite length_take. lia. Qed.

Lemma set_pos_id pos w : wstate w = Writing pos → set_pos pos w = w.
Proof. destruct w. by intros [= ->]. Qed.

Lemma assemble_packet_spec {E} buf w :
  cipher_wf (wcipher w) →
  ∃ w', assemble_packet (E:=E) buf w = Ok w'
    ∧ wcipher w' = increase_nonce (increase_nonce (wcipher w))
    ∧ wbuffer w' = wbuffer w ++ chunks_wire (wcipher w) [buf]
    ∧ wstate w' = Writing 0 ∧ wsalt w' = wsalt w.
Proof.
  intros Hwf. unfold assemble_packet, append_sealed, cipher_tag_len.
  assert (∀ ci, tag_len (E:=E) (variant_kind (cipher ci)) = Ok 16%nat) as Ht
    by (intros ci; by destruct (cipher ci)).
  rewrite Ht. cbn [mbind res_bind]. rewrite encrypt_sealed by (done || apply length_replicate).
  cbn [mbind res_bind wcipher]. rewrite Ht. cbn [mbind res_bind].
  rewrite encrypt_sealed by (apply length_replicate || by apply increase_nonce_wf).
  eexists. split_and!; [done|done| |done|done].
  simpl. by rewrite app_nil_r, app_assoc.
Qed.

(** [writer_rel w s salt ci chunks o]: the wire carries the salt and the chunks, sealed
    from [ci] on; [o] is the buffer of a call that is pending. *)
Inductive writer_rel (w : EncryptedWriter) (s : T) (salt : bytes) (ci : Cipher)
    (chunks : list bytes) : option bytes → Prop :=
  | wrel_idle wr
      (Hst : wstate w = AssemblePacket) (Ha : accepted s wr None)
      (Heq : wr ++ wbuffer w = salt ++ chunks_wire ci chunks)
      (Hci : wcipher w = Nat.iter (2 * length chunks) increase_nonce ci)
      (Hwf : cipher_wf ci) (Hsalt : wsalt w = salt) (Hc : Forall chunk_ok chunks)
      (Hsent : chunks = [] ∨ wbuffer w = []) :
    writer_rel w s salt ci chunks None
  | wrel_writing pos wr o buf
      (Hst : wstate w = Writing pos) (Ha : accepted s wr o)
      (Ho : outstanding o pos (wbuffer w)) (Hpos : (pos < length (wbuffer w))%nat)
      (Heq : wr ++ drop pos (wbuffer w) = salt ++ chunks_wire ci (chunks ++ [chunk_of buf]))
      (Hci : wcipher w = Nat.iter (2 * length (chunks ++ [chunk_of buf])) increase_nonce ci)
      (Hwf : cipher_wf ci) (Hsalt : wsalt w = salt) (Hc : Forall chunk_ok chunks) :
    writer_rel w s salt ci chunks (Some buf).

Definition wrote (salt : bytes) (ci : Cipher) (chunks : list bytes) (buf : bytes) (n : nat)
    (st : EncryptedWriter * T) : Prop :=
  n = length (chunk_of buf) ∧ writer_rel st.1 st.2 salt ci (chunks ++ [chunk_of buf]) None.

(** From [Writing] on: send what is left and go back to [AssemblePacket]. *)
Lemma finish_writing w s salt ci chunks buf fuel pos wr o :
  wstate w = Writing pos → accepted s wr o → outstanding o pos (wbuffer w) →
  (pos < length (wbuffer w))%nat → (length (wbuffer w) ≤ fuel)%nat →
  wr ++ drop pos (wbuffer w) = salt ++ chunks_wire ci (chunks ++ [chunk_of buf]) →
  wcipher w = Nat.iter (2 * length (chunks ++ [chunk_of buf])) increase_nonce ci →
  cipher_wf ci → wsalt w = salt → Forall chunk_ok chunks →
  wp (writing_loop fuel pos ;!
      let! '(w, s) := get_state in
      put_state (reset_state w, s) ;!
      ret (length (chunk_of buf)))%async
    (wrote salt ci chunks buf)
    (λ st, writer_rel st.1 st.2 salt ci chunks (Some buf)) (λ _ _, True) (w, s).
Proof.
  intros Hst Ha Ho Hpos Hf Heq Hci Hwf Hsalt Hc. apply wp_bind.
  eapply wp_mono; [apply (writing_loop_spec fuel pos w s wr o); simpl; auto using set_pos_id with lia|..];
    [|..|done].
  - intros _ [w' s'] (pos' & Hw' & Ha'). simpl in Hw', Ha'. subst w'.
    cbv [wp abind get_state put_state ret]. split; [done|].
    eapply wrel_idle; try done; simpl.
    + by rewrite app_nil_r.
    + apply Forall_app. split; [done|]. constructor; [apply chunk_of_ok|done].
    + by right.
  - intros [w' s'] (pos' & wr' & o' & Hw' & ? & ? & ? & ?). simpl in *. subst w'.
    eapply (wrel_writing _ _ _ _ _ pos' wr' o'); try done. simpl. congruence.
Qed.

Lemma poll_write_encrypted_rel buf w s salt ci chunks o :
  writer_rel w s salt ci chunks o → resubmits o buf →
  wp (poll_write_encrypted buf) (wrote salt ci chunks buf)
    (λ st, writer_rel st.1 st.2 salt ci chunks (Some buf)) (λ _ _, True) (w, s).
Proof.
  intros Hrel Ho. unfold poll_write_encrypted. rewrite chunk_of_if.
  apply wp_bind. cbv [get_state wp]. apply wp_bind.
  destruct Hrel as [wr|pos wr o buf'].
  - destruct (assemble_packet_spec (E:=ErrorKind) (chunk_of buf) w)
      as (w' & Hw' & Hci' & Hb' & Hst' & Hsalt').
    { rewrite Hci. by apply nonce_value_iter. }
    eapply wp_lift; [by rewrite Hst|]. apply wp_bind. cbv [put_state wp]. rewrite Hst'.
    assert (0 < length (wbuffer w'))%nat as Hpos.
    { rewrite Hb'. cbn [chunks_wire]. rewrite !length_app, length_sealed. lia. }
    eapply (finish_writing w' s salt ci chunks buf _ 0 wr None);
      try done; [by left| | |congruence].
    + rewrite drop_0, Hb', app_assoc, Heq, chunks_wire_app, <- Hci. by rewrite app_assoc.
    + rewrite Hci', Hci, length_app. simpl length.
      replace (2 * (length chunks + 1))%nat with (S (S (2 * length chunks)))%nat by lia. done.
  - eapply wp_lift; [by rewrite Hst|]. apply wp_bind. cbv [put_state wp]. rewrite Hst.
    destruct Ho as [|[= ->]]; [done|].
    by eapply (finish_writing w s salt ci chunks buf _ pos wr o).
Qed.
End writer_proof.

(** ** Encrypted streams are streams

    The two state machines, with their transport, are themselves an [AsyncRead] and an
    [AsyncWrite] of plaintext, and meet the contract. *)

Section instances.
Context `{L : CryptoLib} `{!CryptoLibOk L} {T : Type}.

Definition reader_AsyncRead `{AsyncRead T} (fuel : nat) : AsyncRead (DecryptedReader * T) :=
  {| poll_read room := async_map_err into_io (poll_read_decrypted fuel room) |}.

Definition reader_AsyncReadOk `{AsyncRead T} `{!AsyncReadOk T} (fuel : nat) :
  @AsyncReadOk (DecryptedReader * T) (reader_AsyncRead fuel).
Proof.
  refine (@Build_AsyncReadOk _ (reader_AsyncRead fuel)
            (λ st pt, ∃ n, reader_rel st.1 st.2 n pt ∧ (n < fuel)%nat) _).
  intros room [r s] pt p st' (n & Hr & Hf). simpl. unfold async_map_err.
  pose proof (poll_read_decrypted_rel fuel room n pt r s Hr Hf) as Hw. unfold wp in Hw.
  destruct (poll_read_decrypted fuel room (r, s)) as [[|[bs|e|]|] st1]; try done;
    intros; simplify_eq/=.
  - destruct Hw as (n' & ? & ?). exists n'. split; [done|lia].
  - destruct Hw as (n' & pt' & ? & -> & ? & ? & ?). exists pt'.
    split_and!; try done. exists n'. split; [done|lia].
  - destruct Hw as (_ & n' & ? & ?). exists n'. split; [done|lia].
Defined.

Definition writer_flush `{AsyncWrite T} (st : EncryptedWriter * T)
  : poll (res ErrorKind ()) * (EncryptedWriter * T) :=
  let '(p, s') := poll_flush st.2 in (p, (st.1, s')).

Definition writer_AsyncWrite `{AsyncWrite T} : AsyncWrite (EncryptedWriter * T) :=
  {| poll_write := poll_write_encrypted; poll_flush := writer_flush |}.

Lemma take_chunk_of buf : take (length (chunk_of buf)) buf = chunk_of buf.
Proof.
  unfold chunk_of. rewrite length_take. destruct (decide (MAX_PACKET_SIZE ≤ length buf)%nat).
  - by rewrite Nat.min_l.
  - by rewrite Nat.min_r, !take_ge by lia.
Qed.

Definition writer_AsyncWriteOk `{AsyncWrite T} `{!AsyncWriteOk T} (salt : bytes) (ci : Cipher) :
  @AsyncWriteOk (EncryptedWriter * T) writer_AsyncWrite.
Proof.
  refine (@Build_AsyncWriteOk _ writer_AsyncWrite
    (λ st pt o, ∃ chunks, concat chunks = pt ∧ writer_rel st.1 st.2 salt ci chunks o) _ _).
  - intros buf [w s] pt o p st' (chunks & <- & Hr) Ho Hp. simpl in *.
    pose proof (poll_write_encrypted_rel buf w s salt ci chunks o Hr Ho) as Hw.
    unfold wp in Hw. rewrite Hp in Hw. destruct p as [|[n|e|]|]; try done.
    + exists (Some buf). split; [by right|]. eauto.
    + destruct Hw as [-> Hw]. split.
      * unfold chunk_of. rewrite length_take. lia.
      * exists (chunks ++ [chunk_of buf]). split; [|done].
        rewrite concat_app, take_chunk_of. simpl. by rewrite app_nil_r.
  - intros [w s] pt p st' (chunks & <- & Hr) Hp.
    simpl in Hp. unfold writer_flush in Hp. inversion Hr; subst.
    destruct (poll_flush (w, s).2) as [q s'] eqn:Ef. simplify_eq.
    pose proof (poll_flush_spec _ _ _ _ Ha Ef) as Hfl.
    destruct p as [|[u|e|]|]; try done; exists chunks; split; try done;
      by eapply wrel_idle.
Defined.
End instances.

(** ** Runs of a writer and of a reader *)

Section runs.
Context `{L : CryptoLib} {T U : Type} `{AsyncWrite T} `{!AsyncWriteOk T}.
Context `{AsyncRead U} `{!AsyncReadOk U}.

(** [writes kind key salt st log o]: the configurations a new writer reaches on a fresh
    transport, with the data of the completed calls and the buffer of a pending one. *)
Inductive writes (kind : CipherKind) (key salt : bytes) :
    EncryptedWriter * T → list bytes → option bytes → Prop :=
  | writes_new w tx :
      EncryptedWriter_new (E:=ErrorKind) kind key salt = Ok w → accepted tx [] None →
      writes kind key salt (w, tx) [] None
  | writes_pending st log o buf st' :
      writes kind key salt st log o → resubmits o buf →
      poll_write_encrypted buf st = (Pending, st') →
      writes kind key salt st' log (Some buf)
  | writes_done st log o buf n st' :
      writes kind key salt st log o → resubmits o buf →
      poll_write_encrypted buf st = (Ready (Ok n), st') →
      writes kind key salt st' (log ++ [take n buf]) None.

(** [reads allowed fuel kind key rx st out]: the configurations a new reader reaches on the
    transport [rx], with the bytes its calls have delivered, if it is polled again after a
    pending call and after the errors that are [allowed]. *)
Inductive reads (allowed : ProtocolError → Prop) (fuel : nat) (kind : CipherKind)
    (key : bytes) (rx : U) :
    DecryptedReader * U → bytes → Prop :=
  | reads_new r :
      DecryptedReader_new (E:=ProtocolError) kind key = Ok r →
      reads allowed fuel kind key rx (r, rx) []
  | reads_pending st out room st' :
      reads allowed fuel kind key rx st out → poll_read_decrypted fuel room st = (Pending, st') →
      reads allowed fuel kind key rx st' out
  | reads_error st out room e st' :
      reads allowed fuel kind key rx st out → allowed e →
      poll_read_decrypted fuel room st = (Ready (Err e), st') →
      reads allowed fuel kind key rx st' out
  | reads_done st out room bs st' :
      reads allowed fuel kind key rx st out →
      poll_read_decrypted fuel room st = (Ready (Ok bs), st') →
      reads allowed fuel kind key rx st' (out ++ bs).
End runs.

Section reads.
Context `{L : CryptoLib} `{!CryptoLibOk L} {U : Type} `{AsyncRead U} `{!AsyncReadOk U}.
Context (kind : CipherKind) (key : bytes).
Hypothesis Hkind : is_aead kind = true.

Lemma reader_sees_new f r (rx : U) w pt v :
  DecryptedReader_new (E:=ProtocolError) kind key = Ok r →
  readable rx w → decode_stream f kind key w = Some (pt, v) →
  reader_sees r rx (length w + 3) pt v.
Proof.
  intros Hr Hrx Hd. destruct (aead_salt_len (E:=()) kind Hkind) as (n & Hn & _).
  unfold DecryptedReader_new in Hr. rewrite (salt_len_poly _ _ Hn) in Hr. simplify_eq/=.
  eapply (sees_salt _ _ key w f n); try done; [by exists w|simpl; lia].
Qed.

(** A run keeps the invariant as long as its errors are no defects of the wire. *)
Lemma reads_sees allowed fuel rx (st : DecryptedReader * U) out w f pt v :
  readable rx w → decode_stream f kind key w = Some (pt, v) →
  (length w + 3 < fuel)%nat → (∀ e, allowed e → (∃ k, e = IoError k) ∨ v ≠ Bad e) →
  reads allowed fuel kind key rx st out →
  ∃ n rest, pt = out ++ rest ∧ reader_sees st.1 st.2 n rest v ∧ (n < fuel)%nat.
Proof.
  intros Hrx Hd Hf Hv.
  induction 1 as [r Hr|[r s] out room st' _ IH Hp|[r s] out room e st' _ IH He Hp
                  |[r s] out room bs st' _ IH Hp];
    [eexists _, _; split; [done|]; split; [by eapply reader_sees_new|done]|..];
    destruct IH as (n & rest & Hcat & Hr & Hn); simpl in Hr;
    pose proof (poll_read_decrypted_sees fuel room n rest v r s Hr Hn) as Hw;
    unfold wp in Hw; rewrite Hp in Hw.
  - destruct Hw as (n' & ? & ?). exists n', rest. split_and!; auto with lia.
  - assert (sees_kept n rest v st') as (n' & ? & ?).
    { destruct (Hv e He) as [[k ->]|Hne]; [done|].
      destruct e; [done|by destruct Hw as [_ ->]..]. }
    exists n', rest. split_and!; auto with lia.
  - destruct Hw as (n' & pt' & ? & -> & ? & ? & ?). exists n', pt'.
    split_and!; auto with lia. by rewrite Hcat, app_assoc.
Qed.

(** What one call of a reader in the middle of a wire may answer. *)
Lemma sees_call fuel room n rest v (rst : DecryptedReader * U) :
  reader_sees rst.1 rst.2 n rest v → (n < fuel)%nat →
  match poll_read_decrypted fuel room rst with
  | (Ready (Ok bs), _) =>
    bs `prefix_of` rest ∧ (length bs ≤ room)%nat
    ∧ (bs = [] → (0 < room)%nat → rest = [] ∧ v = Clean)
  | (Ready (Err e), _) => (∃ k, e = IoError k) ∨ (rest = [] ∧ v = Bad e)
  | (Pending, _) => True
  | (Ready Panic, _) | (NoFuel, _) => False
  end.
Proof.
  destruct rst as [r s]. simpl. intros Hrel Hn.
  pose proof (poll_read_decrypted_sees fuel room n rest v r s Hrel Hn) as Hp. unfold wp in Hp.
  destruct (poll_read_decrypted fuel room (r, s)) as [[|[bs|e|]|] st']; try done.
  - destruct Hp as (n' & pt' & _ & -> & _ & ? & ?). split_and!; [by eexists|done|done].
  - destruct e; [by left; eexists|by right..].
Qed.
End reads.

Section integrity.
Context `{L : CryptoLib} `{!CryptoLibOk L} {T U : Type} `{AsyncWrite T} `{!AsyncWriteOk T}.
Context `{AsyncRead U} `{!AsyncReadOk U}.
Context (kind : CipherKind) (key salt : bytes) (ci : Cipher).
Hypothesis Hci : Cipher_new (E:=ErrorKind) kind key salt = Ok ci.
Hypothesis Hsalt : salt_len (E:=ProtocolError) kind = Ok (length salt).

Lemma writer_rel_new w (tx : T) :
  EncryptedWriter_new (E:=ErrorKind) kind key salt = Ok w → accepted tx [] None →
  writer_rel w tx salt ci [] None.
Proof.
  destruct (Cipher_new_Ok_wf _ _ _ _ Hci) as (Hwf & _ & _). intros Hnew Ha.
  unfold EncryptedWriter_new in Hnew. rewrite Hci in Hnew. simpl in Hnew. simplify_eq.
  apply (wrel_idle _ _ _ _ _ []); try done; simpl; [by rewrite app_nil_r|by left].
Qed.

Lemma writes_rel (st : EncryptedWriter * T) log o :
  writes kind key salt st log o → writer_rel st.1 st.2 salt ci log o.
Proof.
  induction 1 as [w tx Hnew Ha|st log o buf st' _ IH Ho Hp|st log o buf n st' _ IH Ho Hp].
  - by apply writer_rel_new.
  - destruct st as [w tx].
    pose proof (poll_write_encrypted_rel buf w tx salt ci log o IH Ho) as Hw.
    unfold wp in Hw. by rewrite Hp in Hw.
  - destruct st as [w tx].
    pose proof (poll_write_encrypted_rel buf w tx salt ci log o IH Ho) as Hw.
    unfold wp in Hw. rewrite Hp in Hw. destruct Hw as [-> Hw]. by rewrite take_chunk_of.
Qed.

(** The wire after the completed calls of [log]. *)
Definition stream_wire (log : list bytes) : bytes := salt ++ chunks_wire ci log.

Lemma writer_rel_wire w (tx : T) log :
  writer_rel w tx salt ci log None → log ≠ [] →
  accepted tx (stream_wire log) None ∧ Forall chunk_ok log.
Proof.
  intros Hw Hne. inversion Hw; subst.
  destruct Hsent as [|Hb]; [done|]. rewrite Hb, app_nil_r in Heq. split; [|done].
  unfold stream_wire. by rewrite <- Heq.
Qed.

Lemma writes_wire (st : EncryptedWriter * T) log :
  writes kind key salt st log None → log ≠ [] →
  accepted st.2 (stream_wire log) None ∧ Forall chunk_ok log.
Proof. intros Hw. apply writes_rel in Hw. by eapply writer_rel_wire. Qed.

Lemma stream_wire_decodes log :
  Forall chunk_ok log →
  decode_stream (S (length log)) kind key (stream_wire log) = Some (concat log, Clean).
Proof.
  intros Hc. apply (decode_stream_wire _ _ _ salt ci); [|by apply (Cipher_new_poly (E:=ErrorKind))|done|lia].
  by apply (salt_len_poly (E:=ProtocolError)).
Qed.

Lemma reader_rel_new r (rx : U) log :
  DecryptedReader_new (E:=ProtocolError) kind key = Ok r →
  readable rx (stream_wire log) → Forall chunk_ok log →
  reader_rel r rx (length (stream_wire log) + 3) (concat log).
Proof.
  intros Hr Hrx Hc. destruct (Cipher_new_Ok_wf _ _ _ _ Hci) as (Hwf & _ & Hk).
  eapply reader_sees_new; [done|done|done|]. by apply stream_wire_decodes.
Qed.

Lemma reads_rel fuel rx (st : DecryptedReader * U) out log :
  readable rx (stream_wire log) → Forall chunk_ok log →
  (length (stream_wire log) + 3 < fuel)%nat →
  reads (λ _, True) fuel kind key rx st out →
  ∃ n rest, concat log = out ++ rest ∧ reader_rel st.1 st.2 n rest ∧ (n < fuel)%nat.
Proof.
  intros Hrx Hc Hf Hr. destruct (Cipher_new_Ok_wf _ _ _ _ Hci) as (_ & _ & Hk).
  eapply (reads_sees kind key Hk); [done|by apply stream_wire_decodes|done| |done].
  by intros; right.
Qed.
End integrity.

(** ** A pending call means a pending transport *)

Section progress.
Context `{L : CryptoLib} {T : Type} `{AsyncRead T}.
Hypothesis ready : ∀ n (s s' : T), poll_read n s ≠ (Pending, s').

Lemma read_turn_ready room : never_pending (read_turn (T:=T) room).
Proof.
  unfold read_turn, poll_read_salt, poll_read_length, poll_read_data.
  ready_tac; by apply pool_read_exact_ready.
Qed.

Lemma poll_read_decrypted_ready fuel room :
  never_pending (poll_read_decrypted (T:=T) fuel room).
Proof.
  induction fuel as [|fuel IH]; cbn [poll_read_decrypted]; ready_tac;
    [apply read_turn_ready|apply IH].
Qed.
End progress.

(** ** Properties *)

(** End-to-end integrity of the encrypted stream.  Whatever a new writer was asked to
    write, in calls of any size, over a transport that may be pending or accept partial
    writes at any point, the transport ends up with a byte string from which every new
    reader with the same key, however the bytes arrive and however large the caller's
    buffers are, delivers exactly those data in order: what was read so far is a prefix,
    the next call delivers a piece of the rest that fits the buffer, the only errors are
    those of the transport, end of file is reported only at the end of the data, and no
    call panics. *)
Theorem stream_integrity `{L : CryptoLib} `{!CryptoLibOk L} {T U : Type}
    `{AsyncWrite T} `{!AsyncWriteOk T} `{AsyncRead U} `{!AsyncReadOk U}
    (kind : CipherKind) (key salt : bytes) (st : EncryptedWriter * T) (log : list bytes)
    (Hkind : is_aead kind = true) (Hkey : key_len (E:=ErrorKind) kind = Ok (length key))
    (Hsalt : salt_len (E:=ProtocolError) kind = Ok (length salt))
    (Hw : writes kind key salt st log None) (Hne : log ≠ []) :
  ∃ wire, accepted st.2 wire None ∧
    ∀ (rx : U) fuel rst out room,
      readable rx wire → (length wire + 3 < fuel)%nat →
      reads (λ _, True) fuel kind key rx rst out →
      ∃ rest, concat log = out ++ rest ∧
        match poll_read_decrypted fuel room rst with
        | (Ready (Ok bs), _) =>
          bs `prefix_of` rest ∧ (length bs ≤ room)%nat ∧ (bs = [] → (0 < room)%nat → rest = [])
        | (Ready (Err e), _) => ∃ k, e = IoError k
        | (Pending, _) => True
        | (Ready Panic, _) | (NoFuel, _) => False
        end.
Proof.
  destruct (Cipher_new_wf (E:=ErrorKind) kind key salt Hkind (eq_sym Hkey)) as (ci & Hci & _).
  destruct (writes_wire kind key salt ci Hci st log Hw Hne) as [Ha Hc].
  exists (stream_wire salt ci log). split; [done|]. intros rx fuel rst out room Hrx Hf Hr.
  destruct (reads_rel kind key salt ci Hci Hsalt fuel rx rst out log Hrx Hc Hf Hr)
    as (n & rest & Hcat & Hrel & Hn).
  exists rest. split; [done|].
  pose proof (sees_call fuel room n rest Clean rst Hrel Hn) as Hp.
  destruct (poll_read_decrypted fuel room rst) as [[|[bs|e|]|] st']; [done| |naive_solver|done..].
  destruct Hp as (? & ? & He). split_and!; [done|done|]. intros. by apply He.
Qed.

Module Demo.
Definition key : bytes := replicate 16 7.
Definition salt : bytes := replicate 16 9.
Definition msg : bytes := [104; 101; 108; 108; 111].
Definition tx : Script.sink := {| Script.quota := [Some 20%nat; None]; Script.got := [] |}.
Definition writer : EncryptedWriter * Script.sink :=
  (match EncryptedWriter_new (L:=Toy.toy) (E:=ErrorKind) AES_128_GCM key salt with
   | Ok w => w
   | _ => {| wcipher := {| cipher := VAes128Gcm {| alg := Gcm128; akey := [] |};
                           nlen := 0; nonce := [] |};
             wbuffer := []; wstate := AssemblePacket; wsalt := [] |}
   end, tx).
(** One call that is pending after 20 bytes, and the call that completes it. *)
Definition st1 := Eval vm_compute in (poll_write_encrypted (L:=Toy.toy) msg writer).2.
Definition st2 := Eval vm_compute in (poll_write_encrypted (L:=Toy.toy) msg st1).2.

Lemma demo_writes : writes (L:=Toy.toy) AES_128_GCM key salt st2 [msg] None.
Proof.
  change [msg] with ([] ++ [take 5 msg]).
  eapply (writes_done (L:=Toy.toy) _ _ _ st1 [] (Some msg) msg 5).
  - eapply (writes_pending (L:=Toy.toy) _ _ _ writer [] None msg).
    + apply writes_new; [vm_compute; reflexivity|by split].
    + by left.
    + vm_compute. reflexivity.
  - by right.
  - vm_compute. reflexivity.
Qed.
End Demo.

Lemma stream_integrity_witness :
  ∃ wire, accepted Demo.st2.2 wire None ∧
    ∀ (rx : Script.source) fuel rst out room,
      readable rx wire → (length wire + 3 < fuel)%nat →
      reads (L:=Toy.toy) (λ _, True) fuel AES_128_GCM Demo.key rx rst out →
      ∃ rest, Demo.msg = out ++ rest ∧
        match poll_read_decrypted (L:=Toy.toy) fuel room rst with
        | (Ready (Ok bs), _) =>
          bs `prefix_of` rest ∧ (length bs ≤ room)%nat ∧ (bs = [] → (0 < room)%nat → rest = [])
        | (Ready (Err e), _) => ∃ k, e = IoError k
        | (Pending, _) => True
        | (Ready Panic, _) | (NoFuel, _) => False
        end.
Proof.
  apply (stream_integrity (L:=Toy.toy) (U:=Script.source) AES_128_GCM Demo.key Demo.salt
           Demo.st2 [Demo.msg]).
  - reflexivity.
  - reflexivity.
  - reflexivity.
  - exact Demo.demo_writes.
  - discriminate.
Defined.

(** C3: the reader refines the decoder of whole streams, on any bytes.  Whatever the
    transport delivers (a stream that was damaged, cut, replayed from another connection
    or invented), every wire has a meaning, the authentic data up to its first defect and
    the kind of its end; and a reader that is polled on through stalls and errors of the
    transport has delivered a prefix of those data, delivers next a piece of the rest that
    fits the buffer, reports the end only at the end of a wire that is whole, reports an
    error other than the transport's only when all authentic data are delivered, and then
    the defect that is there, and never panics. *)
Theorem reader_on_any_wire `{L : CryptoLib} `{!CryptoLibOk L} {U : Type}
    `{AsyncRead U} `{!AsyncReadOk U} (kind : CipherKind) (key w : bytes) (rx : U) (fuel : nat)
    (Hkind : is_aead kind = true) (Hkey : key_len (E:=()) kind = Ok (length key))
    (Hrx : readable rx w) (Hf : (length w + 3 < fuel)%nat) :
  ∃ pt v, decode_stream (S (length w)) kind key w = Some (pt, v) ∧
    ∀ rst out room,
      reads (λ e, ∃ k, e = IoError k) fuel kind key rx rst out →
      ∃ rest, pt = out ++ rest ∧
        match poll_read_decrypted fuel room rst with
        | (Ready (Ok bs), _) =>
          bs `prefix_of` rest ∧ (length bs ≤ room)%nat
          ∧ (bs = [] → (0 < room)%nat → rest = [] ∧ v = Clean)
        | (Ready (Err e), _) => (∃ k, e = IoError k) ∨ (rest = [] ∧ v = Bad e)
        | (Pending, _) => True
        | (Ready Panic, _) | (NoFuel, _) => False
        end.
Proof.
  destruct (decode_stream (S (length w)) kind key w) as [[pt v]|] eqn:Hd.
  2:{ exfalso. by apply (decode_stream_total (S (length w)) kind key w); auto with lia. }
  exists pt, v. split; [done|]. intros rst out room Hr.
  destruct (reads_sees kind key Hkind _ fuel rx rst out _ _ _ _ Hrx Hd Hf
              (λ _ He, or_introl He) Hr) as (n & rest & Hcat & Hrel & Hn).
  exists rest. split; [done|]. by eapply sees_call.
Qed.

(** A stream whose second chunk has lost its last byte. *)
Definition Demo_cut : bytes :=
  Eval vm_compute in
    match Cipher_new (L:=Toy.toy) (E:=()) AES_128_GCM Demo.key Demo.salt with
    | Ok ci => Demo.salt ++ removelast (chunks_wire (L:=Toy.toy) ci [Demo.msg; Demo.msg])
    | _ => []
    end.

Lemma reader_on_any_wire_witness :
  decode_stream (L:=Toy.toy) (S (length Demo_cut)) AES_128_GCM Demo.key Demo_cut
  = Some (Demo.msg, Cut)
  ∧ ∃ pt v, decode_stream (L:=Toy.toy) (S (length Demo_cut)) AES_128_GCM Demo.key Demo_cut
            = Some (pt, v) ∧
    ∀ rst out room,
      reads (L:=Toy.toy) (λ e, ∃ k, e = IoError k) 200 AES_128_GCM Demo.key
        [Script.EvBytes Demo_cut] rst out →
      ∃ rest, pt = out ++ rest ∧
        match poll_read_decrypted (L:=Toy.toy) 200 room rst with
        | (Ready (Ok bs), _) =>
          bs `prefix_of` rest ∧ (length bs ≤ room)%nat
          ∧ (bs = [] → (0 < room)%nat → rest = [] ∧ v = Clean)
        | (Ready (Err e), _) => (∃ k, e = IoError k) ∨ (rest = [] ∧ v = Bad e)
        | (Pending, _) => True
        | (Ready Panic, _) | (NoFuel, _) => False
        end.
Proof.
  split; [vm_compute; reflexivity|].
  apply (reader_on_any_wire (L:=Toy.toy) (U:=Script.source) AES_128_GCM Demo.key Demo_cut
           [Script.EvBytes Demo_cut] 200).
  - reflexivity.
  - reflexivity.
  - vm_compute. reflexivity.
  - vm_compute. lia.
Defined.

(** The reader does not lose wake-ups: a call is pending only if the transport was
    pending during the call. *)
Theorem reader_pends_with_transport `{L : CryptoLib} {T : Type} `{AsyncRead T}
    (fuel room : nat) (st : DecryptedReader * T)
    (Hready : ∀ n (s s' : T), poll_read n s ≠ (Pending, s')) :
  (poll_read_decrypted fuel room st).1 ≠ Pending.
Proof.
  destruct (poll_read_decrypted fuel room st) as [p st'] eqn:E. simpl. intros ->.
  by apply (poll_read_decrypted_ready Hready) in E.
Qed.

(** A transport that is always ready: a byte string in memory. *)
Definition mem_AsyncRead : AsyncRead bytes :=
  {| poll_read n s := (Ready (Ok (take n s)), drop n s) |}.

Lemma reader_pends_with_transport_witness :
  (poll_read_decrypted (L:=Toy.toy) (H:=mem_AsyncRead) 100 10
     ({| rstate := ReadLength; rkind := AES_128_GCM; rcipher := None; rbuffer := [];
         rsalt := None; rhandshaked := true |}, [1; 2; 3])).1 ≠ Pending.
Proof.
  apply (reader_pends_with_transport (L:=Toy.toy) (H:=mem_AsyncRead)). discriminate.
Defined.
