(* ===== verification/CopyBuffer.v ===== *)
(** * Copying a stream (lib/shadowsocks/src/tcp/utils.rs)

    [CopyBuffer] and the two copying directions of the proxy, over any reader and writer
    that meet the contracts of [Io]. *)

From S2P Require Import Prelude Io Crypto StreamBuf ChunkStream TcpAead.

Local Open Scope async_scope.

(** [aead2022::MAX_PACKET_SIZE] *)
Definition MAX_PACKET_SIZE_2022 : nat := Z.to_nat 65535.

Record CopyBuffer := {
  read_done : bool;
  pos : nat;
  cap : nat;
  amt : Z;
  buf : bytes
}.

Definition CopyBuffer_new (buffer_size : nat) : CopyBuffer :=
  {| read_done := false; pos := 0; cap := 0; amt := 0; buf := replicate buffer_size 0 |}.

Definition set_read_done (me : CopyBuffer) : CopyBuffer :=
  {| read_done := true; pos := pos me; cap := cap me; amt := amt me; buf := buf me |}.

(** A read fills the front of the fixed buffer. *)
Definition filled (bs : bytes) (me : CopyBuffer) : CopyBuffer :=
  {| read_done := read_done me; pos := 0; cap := length bs; amt := amt me;
     buf := bs ++ drop (length bs) (buf me) |}.

Definition written (i : nat) (amt : Z) (me : CopyBuffer) : CopyBuffer :=
  {| read_done := read_done me; pos := pos me + i; cap := cap me; amt := amt; buf := buf me |}.

(** [&buf[pos..cap]] *)
Definition unwritten (me : CopyBuffer) : bytes := take (cap me - pos me) (drop (pos me) (buf me)).

Section copy.
Context `{Profile} {R W : Type} `{AsyncRead R} `{AsyncWrite W}.

Abbreviation IO A := (async (CopyBuffer * R * W) ErrorKind A).

Definition fill : IO () :=
  let! '(me, r, w) := get_state in
  if bool_decide (pos me = cap me) && negb (read_done me) then
    let! bs := λ '(me, r, w),
      (let '(p, r') := poll_read (length (buf me)) r in (p, (me, r', w))) in
    let! '(me, r, w) := get_state in
    if bool_decide (length bs = 0)%nat then put_state (set_read_done me, r, w)
    else put_state (filled bs me, r, w)
  else ret ().

(** Every iteration writes at least one byte: [cap] iterations are enough. *)
Fixpoint drain (fuel : nat) : IO () :=
  let! '(me, r, w) := get_state in
  if bool_decide (pos me < cap me)%nat then
    match fuel with
    | O => no_fuel
    | S fuel =>
      let! src := lift (slice (buf me) (pos me) (cap me)) in
      let! i := λ '(me, r, w), (let '(p, w') := poll_write src w in (p, (me, r, w'))) in
      if bool_decide (i = 0)%nat then fail WriteZero else
      let! '(me, r, w) := get_state in
      let! amt := lift (arith_u 64 (amt me + Z.of_nat i)) in
      put_state (written i amt me, r, w) ;!
      drain fuel
    end
  else ret ().

(** The loop of [poll_copy]; an iteration that does not return has read something. *)
Fixpoint poll_copy (fuel : nat) : IO Z :=
  match fuel with
  | O => no_fuel
  | S fuel =>
    fill ;!
    let! '(me, _, _) := get_state in
    drain (cap me) ;!
    let! '(me, r, w) := get_state in
    if bool_decide (pos me = cap me) && read_done me then
      (λ '(me, r, w), let '(p, w') := poll_flush w in (p, (me, r, w'))) ;!
      ret (amt me)
    else poll_copy fuel
  end.
End copy.

(** The buffers of [copy_to_encrypted] and [copy_from_encrypted]. *)
Definition copy_to_encrypted (kind : CipherKind) : CopyBuffer :=
  CopyBuffer_new match category kind with
                 | Aead => MAX_PACKET_SIZE
                 | Aead2022 => MAX_PACKET_SIZE_2022
                 end.

Definition copy_from_encrypted {E} (kind : CipherKind) : res E CopyBuffer :=
  buf_size ← match category kind with
             | Aead => tag_len ← tag_len kind; Ok (MAX_PACKET_SIZE + tag_len)%nat
             | Aead2022 => tag_len ← tag_len kind; Ok (MAX_PACKET_SIZE_2022 + tag_len)%nat
             end;
  Ok (CopyBuffer_new buf_size).

(** ** Correctness against the contracts *)

Section copy_proof.
Context `{Profile} {R W : Type} `{AsyncRead R} `{!ReadOk R}.
Context `{AsyncWrite W} `{!WriteOk W}.
Implicit Types (me : CopyBuffer) (r : R) (w : W).

(** [copying base total n st]: of the [total] bytes the reader had to deliver, the writer
    has taken some after [base], the buffer holds the next, and the reader has [n] left. *)
Record copying (base total : bytes) (n : nat) (st : CopyBuffer * R * W) : Prop := {
  cp_room : (0 < length (buf st.1.1))%nat;
  cp_pos : (pos st.1.1 ≤ cap st.1.1 ≤ length (buf st.1.1))%nat;
  cp_offers : ∀ bs, (length bs ≤ length (buf st.1.1))%nat → offers bs;
  cp_total : ∃ done rest o,
    total = done ++ unwritten st.1.1 ++ rest ∧ delivers st.1.2 rest ∧ length rest = n
    ∧ taken st.2 (base ++ done) o
    ∧ (o = None ∨ ((pos st.1.1 < cap st.1.1)%nat ∧ o = Some (unwritten st.1.1)))
    ∧ amt st.1.1 = Z.of_nat (length done)
    ∧ (read_done st.1.1 = true → rest = [] ∧ whole)
}.

Lemma length_unwritten me : (cap me ≤ length (buf me))%nat →
  length (unwritten me) = (cap me - pos me)%nat.
Proof. intros. unfold unwritten. rewrite length_take, length_drop. lia. Qed.

Lemma unwritten_empty me : (pos me = cap me)%nat → unwritten me = [].
Proof. intros E. unfold unwritten. by rewrite E, Nat.sub_diag. Qed.

Lemma unwritten_filled bs me : unwritten (filled bs me) = bs.
Proof. unfold unwritten. simpl. by rewrite Nat.sub_0_r, drop_0, take_app_length. Qed.

Lemma unwritten_written i a me : unwritten (written i a me) = drop i (unwritten me).
Proof.
  unfold unwritten. simpl. rewrite skipn_firstn_comm.
  rewrite drop_drop. f_equal. lia.
Qed.

Lemma fill_spec base total n st :
  copying base total n st →
  wp fill
    (λ _ st', copying base total n st'
        ∧ (pos st.1.1 = cap st.1.1 → pos st'.1.1 = cap st'.1.1 ∧ read_done st'.1.1 = true)
      ∨ ∃ m, (m < n)%nat ∧ copying base total m st')
    (copying base total n) (λ _ _, True) st.
Proof.
  destruct st as [[me r] w]. intros [Hroom Hpos Hoff (dn & rest & o & Ht & Hr & Hl & Ha & Ho & Hamt & Hd)].
  simpl in *. unfold fill. apply wp_bind. cbv [get_state wp].
  destruct (bool_decide (pos me = cap me) && negb (read_done me)) eqn:Hc.
  - apply andb_true_iff in Hc as [Hpc%bool_decide_eq_true Hrd%negb_true_iff].
    apply wp_bind. unfold wp at 1. rewrite unwritten_empty in Ht by done.
    assert (o = None) as -> by (destruct Ho as [|[? _]]; [done|lia]).
    destruct (poll_read (length (buf me)) r) as [p r'] eqn:Ep.
    pose proof (poll_read_delivers _ _ _ _ _ Hr Ep) as Hp. destruct p as [|[bs|e|]|]; try done.
    + constructor; [done|done|done|]. exists dn, rest, None. simpl.
      rewrite unwritten_empty by done. split_and!; first [done | by left | congruence].
    + destruct Hp as (c' & -> & Hr' & Hlen & Heof). apply wp_bind. cbv [wp get_state].
      case_bool_decide as Hz; cbv [put_state].
      * apply nil_length_inv in Hz as ->. specialize (Heof eq_refl ltac:(lia)) as [Heof Hwh]. simpl in Heof.
        subst c'. left. split; [|by split]. constructor; [done|done|done|].
        exists dn, [], None. simpl. change (unwritten (set_read_done me)) with (unwritten me).
        rewrite unwritten_empty by done. split_and!; first [done | by left].
      * right. exists (length c'). split; [rewrite length_app in Hl; lia|].
        constructor; simpl; [rewrite length_app; lia|rewrite length_app; lia| |].
        { intros cs. rewrite length_app, length_drop. intros. apply Hoff. lia. }
        exists dn, c', None. rewrite unwritten_filled. split_and!; first [done | by left | simpl; congruence].
  - apply wp_ret. left. split.
    + constructor; [done|done|done|]. exists dn, rest, o. by split_and!.
    + intros E. simpl in *. split; [done|].
      apply andb_false_iff in Hc as [Hc|Hc%negb_false_iff]; [|done].
      by apply bool_decide_eq_false in Hc.
Qed.

Lemma copying_write base total n me r w i w' dn rest :
  copying base total n (me, r, w) → total = dn ++ unwritten me ++ rest → length rest = n →
  delivers r rest → amt me = Z.of_nat (length dn) → (read_done me = true → rest = [] ∧ whole) →
  (i ≤ length (unwritten me))%nat → taken w' ((base ++ dn) ++ take i (unwritten me)) None →
  copying base total n (written i (amt me + Z.of_nat i) me, r, w').
Proof.
  intros [Hroom Hpos Hoff _] Ht Hl Hr Hamt Hd Hi Ha'. simpl in *.
  rewrite length_unwritten in Hi by lia.
  constructor; simpl; [done|lia|done|].
  exists (dn ++ take i (unwritten me)), rest, None. rewrite unwritten_written.
  split_and!; try done.
  - by rewrite Ht, <- app_assoc, (app_assoc (take _ _)), take_drop.
  - by rewrite app_assoc.
  - by left.
  - rewrite length_app, length_take, length_unwritten by lia. lia.
Qed.

Lemma drain_spec fuel base total n st :
  copying base total n st → Z.of_nat (length total) < 2 ^ 64 →
  (cap st.1.1 - pos st.1.1 ≤ fuel)%nat →
  wp (drain fuel)
    (λ _ st', copying base total n st' ∧ pos st'.1.1 = cap st'.1.1
       ∧ read_done st'.1.1 = read_done st.1.1)
    (copying base total n) (λ _ _, True) st.
Proof.
  revert st. induction fuel as [|fuel IH]; intros [[me r] w] Hcp Htot Hf; simpl in Hf;
    cbn [drain]; apply wp_bind; cbv [get_state wp]; pose proof (cp_pos _ _ _ _ Hcp) as Hpos;
    simpl in Hpos; (case_bool_decide as Hlt;
      [|apply wp_ret; split_and!; [done|simpl; lia|done]]); [lia|].
  pose proof Hcp as [Hroom _ Hoff (dn & rest & o & Ht & Hr & Hl & Ha & Ho & Hamt & Hd)].
  simpl in *.
  assert (offers (unwritten me)) as Hof by (apply Hoff; rewrite length_unwritten; lia).
  assert (slice (E:=ErrorKind) (buf me) (pos me) (cap me) = Ok (unwritten me)) as Hsl.
  { unfold slice. by rewrite bool_decide_eq_true_2. }
  assert (resubmits o (unwritten me)) as Hres.
  { destruct Ho as [->|[_ ->]]; [by left|by right]. }
  apply wp_bind. eapply wp_lift; [exact Hsl|]. apply wp_bind. unfold wp at 1.
  destruct (poll_write (unwritten me) w) as [p w'] eqn:Ep.
  pose proof (poll_write_taken _ _ _ _ _ _ Hof Ha Hres Ep) as Hp. destruct p as [|[i|e|]|]; try done.
  - destruct Hp as (o' & Ho' & Ha'). constructor; simpl; [done|done|done|].
    exists dn, rest, o'. split_and!; try done.
    destruct Ho' as [-> | ->]; [by left|by right].
  - destruct Hp as [Hi Ha']. case_bool_decide as Hz; [done|].
    apply wp_bind. cbv [wp get_state]. apply wp_bind.
    assert (Hb : (i ≤ length (unwritten me))%nat) by done.
    rewrite length_unwritten in Hi by lia.
    eapply wp_lift; [apply arith_u_small; rewrite Ht, !length_app, length_unwritten in Htot by lia; lia|].
    apply wp_bind. cbv [put_state wp].
    eapply (IH (written i (amt me + Z.of_nat i) me, r, w')); [|done|simpl; lia].
    by eapply copying_write.
Qed.

Definition copied (base total : bytes) (amt : Z) (st : CopyBuffer * R * W) : Prop :=
  amt = Z.of_nat (length total) ∧ taken st.2 (base ++ total) None ∧ delivers st.1.2 [] ∧ whole.

Abbreviation copy_kept base total n := (λ st, ∃ m, (m ≤ n)%nat ∧ copying base total m st).

Lemma finish_spec base total n st :
  copying base total n st → pos st.1.1 = cap st.1.1 → read_done st.1.1 = true →
  wp ((λ '(me, r, w), let '(p, w') := poll_flush w in (p, (me, r, w'))) ;! ret (amt st.1.1))
    (copied base total) (copying base total n) (λ _ _, True) st.
Proof.
  destruct st as [[me r] w].
  intros [Hroom Hpos Hoff (dn & rest & o & Ht & Hr & Hl & Ha & Ho & Hamt & Hd)] Hpc Hrd.
  simpl in *. specialize (Hd Hrd) as [-> Hwh].
  rewrite unwritten_empty in Ht, Ho by done. simpl in Ht. rewrite app_nil_r in Ht. subst dn.
  assert (o = None) as -> by (destruct Ho as [|[? _]]; [done|lia]).
  apply wp_bind. unfold wp at 1. destruct (poll_flush w) as [p w'] eqn:Ep.
  pose proof (poll_flush_taken _ _ _ _ Ha Ep) as Hp. destruct p as [|[u|e|]|]; try done.
  constructor; [done|done|done|]. exists total, [], None. simpl.
  rewrite unwritten_empty by done. rewrite app_nil_r. split_and!; first [done | by left].
Qed.

Lemma poll_copy_spec fuel base total n st :
  copying base total n st → Z.of_nat (length total) < 2 ^ 64 →
  (n < fuel)%nat → (pos st.1.1 = cap st.1.1 ∨ (S n < fuel)%nat) →
  wp (poll_copy fuel) (copied base total) (copy_kept base total n) (λ _ _, True) st.
Proof.
  revert n st. induction fuel as [|fuel IH]; intros n st Hcp Htot Hf Hm; [lia|].
  cbn [poll_copy]. apply wp_bind.
  eapply wp_mono; [by apply fill_spec| |by eauto|done].
  intros [] st1 Hfill. cbv beta in Hfill. apply wp_bind. cbv [get_state wp]. destruct st1 as [[me1 r1] w1].
  apply wp_bind.
  assert (∃ m, (m ≤ n)%nat ∧ copying base total m (me1, r1, w1)
    ∧ (read_done me1 = true ∨ (m < fuel)%nat)) as (m & Hmn & Hcp1 & Hor).
  { destruct Hfill as [[? Hrd]|(m & ? & ?)].
    - exists n. split_and!; [done|done|]. destruct Hm as [Hm|Hm]; [|right; lia].
      left. by apply Hrd.
    - exists m. split_and!; [lia|done|right; lia]. }
  eapply wp_mono; [apply (drain_spec _ base total m); [done|done|simpl; lia]| |by eauto|done].
  intros [] st2 (Hcp2 & Hpc & Hrd2). simpl in Hrd2. apply wp_bind. cbv [get_state wp].
  destruct st2 as [[me2 r2] w2]. simpl in Hpc, Hrd2.
  rewrite bool_decide_eq_true_2 by done. simpl andb. destruct (read_done me2) eqn:Erd.
  - eapply wp_mono; [by apply (finish_spec base total m (me2, r2, w2))|done|by eauto|done].
  - destruct Hor as [Hor|Hor]; [congruence|].
    eapply wp_mono; [apply (IH m (me2, r2, w2)); auto|done| |done].
    intros st' (k & ? & ?). exists k. split; [lia|done].
Qed.
End copy_proof.

(** ** Runs of a copy *)

Section runs.
Context `{Profile} {R W : Type} `{AsyncRead R} `{!ReadOk R}.
Context `{AsyncWrite W} `{!AsyncWriteOk W}.

(** The configurations a copy is in between two polls. *)
Inductive copies (fuel : nat) (st0 : CopyBuffer * R * W) : CopyBuffer * R * W → Prop :=
  | copies_new : copies fuel st0 st0
  | copies_pending st st' :
      copies fuel st0 st → poll_copy fuel st = (Pending, st') → copies fuel st0 st'.

Lemma copying_new size r w base total :
  (0 < size)%nat → delivers r total → accepted w base None →
  copying base total (length total) (CopyBuffer_new size, r, w).
Proof.
  intros. constructor; simpl; [by rewrite length_replicate|lia|done|].
  exists [], total, None. rewrite app_nil_r. split_and!; first [done | by left].
Qed.

Lemma copies_rel fuel size r w base total st :
  (0 < size)%nat → delivers r total → accepted w base None →
  Z.of_nat (length total) < 2 ^ 64 → (S (length total) < fuel)%nat →
  copies fuel (CopyBuffer_new size, r, w) st →
  ∃ n, (n ≤ length total)%nat ∧ copying base total n st.
Proof.
  intros Hsz Hr Hw Htot Hf. induction 1 as [|st st' _ (n & Hn & Hcp) Hp].
  - exists (length total). split; [done|]. by apply copying_new.
  - pose proof (poll_copy_spec fuel base total n st Hcp Htot ltac:(lia) ltac:(lia)) as Hw'.
    unfold wp in Hw'. rewrite Hp in Hw'. destruct Hw' as (m & ? & ?).
    exists m. split; [lia|done].
Qed.

(** What a poll of a copy does. *)
Definition copy_outcome (base total : bytes) (out : poll (res ErrorKind Z) * (CopyBuffer * R * W)) :=
  match out with
  | (Ready (Ok n), (_, _, w)) => n = Z.of_nat (length total) ∧ accepted w (base ++ total) None
  | (Ready (Err _), _) | (Pending, _) => True
  | (Ready Panic, _) | (NoFuel, _) => False
  end.

Lemma copies_outcome fuel size r w base total st :
  (0 < size)%nat → delivers r total → accepted w base None →
  Z.of_nat (length total) < 2 ^ 64 → (S (length total) < fuel)%nat →
  copies fuel (CopyBuffer_new size, r, w) st →
  copy_outcome base total (poll_copy fuel st).
Proof.
  intros Hsz Hr Hw Htot Hf Hc.
  destruct (copies_rel _ _ _ _ _ _ _ Hsz Hr Hw Htot Hf Hc) as (n & Hn & Hcp).
  pose proof (poll_copy_spec fuel base total n st Hcp Htot ltac:(lia) ltac:(lia)) as Hp.
  unfold wp, copied in Hp. destruct (poll_copy fuel st) as [[|[]|] [[? ?] ?]]; naive_solver.
Qed.
End runs.

(** ** Properties *)

(** A copy is exact.  Over any reader and writer that meet the contracts, after any
    number of pending polls, a poll of the copy never panics, and when it completes, it
    returns the number of bytes of the reader's contents and the writer has accepted
    exactly these, in order, after what it had before. *)
Theorem copy_exact `{Profile} {R W : Type} `{AsyncRead R} `{!AsyncReadOk R}
    `{AsyncWrite W} `{!AsyncWriteOk W}
    (fuel size : nat) (r : R) (w : W) (base total : bytes) (st : CopyBuffer * R * W)
    (Hsize : (0 < size)%nat) (Hr : readable r total) (Hw : accepted w base None)
    (Htotal : Z.of_nat (length total) < 2 ^ 64) (Hfuel : (S (length total) < fuel)%nat)
    (Hst : copies fuel (CopyBuffer_new size, r, w) st) :
  match poll_copy fuel st with
  | (Ready (Ok n), (_, _, w')) =>
    n = Z.of_nat (length total) ∧ accepted w' (base ++ total) None
  | (Ready (Err _), _) | (Pending, _) => True
  | (Ready Panic, _) | (NoFuel, _) => False
  end.
Proof. exact (copies_outcome fuel size r w base total st Hsize Hr Hw Htotal Hfuel Hst). Qed.

Lemma copy_exact_witness :
  let r := [Script.EvBytes [1; 2; 3]; Script.EvPending; Script.EvBytes [4; 5]] in
  let w := {| Script.quota := [Some 2%nat]; Script.got := [9] |} in
  let st := (poll_copy (H:=dev) 10 (CopyBuffer_new 4, r, w)).2 in
  match poll_copy (H:=dev) 10 st with
  | (Ready (Ok n), (_, _, w')) => n = 5 ∧ accepted w' [9; 1; 2; 3; 4; 5] None
  | (Ready (Err _), _) | (Pending, _) => True
  | (Ready Panic, _) | (NoFuel, _) => False
  end.
Proof.
  intros r w st.
  apply (copy_exact (H:=dev) 10 4 r w [9] [1; 2; 3; 4; 5] st).
  - lia.
  - reflexivity.
  - split; reflexivity.
  - simpl. lia.
  - simpl. lia.
  - eapply copies_pending; [apply copies_new|]. vm_compute. reflexivity.
Defined.

(** C2: the tunnel is transparent.  One end copies a non-empty stream to an encrypted
    writer ([copy_to_encrypted]); if that copy completes, its transport holds a byte
    string from which the other end, copying from a decrypting reader with the same key
    ([copy_from_encrypted]), never panics and, when it completes, has written exactly the
    original stream. *)
Theorem tunnel_transparent `{Profile} `{L : CryptoLib} `{!CryptoLibOk L} {R T U W : Type}
    `{HR : AsyncRead R} `{!AsyncReadOk R} `{HT : AsyncWrite T} `{!AsyncWriteOk T}
    `{HU : AsyncRead U} `{!AsyncReadOk U} `{HW : AsyncWrite W} `{!AsyncWriteOk W}
    (kind : CipherKind) (key salt total : bytes) (fuel : nat)
    (r : R) (w0 : EncryptedWriter) (tx : T)
    (st : CopyBuffer * R * (EncryptedWriter * T)) me r' w' tx' n
    (Hkind : is_aead kind = true) (Hkey : key_len (E:=ErrorKind) kind = Ok (length key))
    (Hsalt : salt_len (E:=ProtocolError) kind = Ok (length salt))
    (Hr : readable r total) (Hne : total ≠ []) (Hlen : Z.of_nat (length total) < 2 ^ 64)
    (Hfuel : (S (length total) < fuel)%nat)
    (Hw0 : EncryptedWriter_new (E:=ErrorKind) kind key salt = Ok w0) (Htx : accepted tx [] None)
    (Hrun : copies (H1:=writer_AsyncWrite) fuel (copy_to_encrypted kind, r, (w0, tx)) st)
    (Hend : poll_copy (H1:=writer_AsyncWrite) fuel st = (Ready (Ok n), (me, r', (w', tx')))) :
  n = Z.of_nat (length total) ∧
  ∃ wire, accepted tx' wire None ∧
    ∀ (rx : U) (w2 : W) base r0 cb fuel' (st' : CopyBuffer * (DecryptedReader * U) * W),
      readable rx wire → accepted w2 base None → (length wire + 3 < fuel')%nat →
      DecryptedReader_new (E:=ProtocolError) kind key = Ok r0 →
      copy_from_encrypted (E:=ErrorKind) kind = Ok cb →
      copies (H0:=reader_AsyncRead fuel') fuel (cb, (r0, rx), w2) st' →
      match poll_copy (H0:=reader_AsyncRead fuel') fuel st' with
      | (Ready (Ok m), (_, _, w2')) =>
        m = Z.of_nat (length total) ∧ accepted w2' (base ++ total) None
      | (Ready (Err _), _) | (Pending, _) => True
      | (Ready Panic, _) | (NoFuel, _) => False
      end.
Proof.
  destruct (Cipher_new_wf (E:=ErrorKind) kind key salt Hkind (eq_sym Hkey)) as (ci & Hci & _).
  assert (category kind = Aead) as Hcat by (by destruct kind).
  unfold copy_to_encrypted in Hrun. rewrite Hcat in Hrun.
  pose proof (copies_outcome (H1:=writer_AsyncWrite)
    (AsyncWriteOk0:=writer_AsyncWriteOk salt ci) fuel MAX_PACKET_SIZE r (w0, tx) [] total st
    ltac:(unfold MAX_PACKET_SIZE; lia) Hr) as Hout.
  rewrite Hend in Hout. destruct Hout as [-> (log & Hlog & Hrel)]; try done.
  { exists []. split; [done|]. by apply (writer_rel_new kind key). }
  split; [done|]. simpl in Hlog, Hrel. subst total.
  destruct (writer_rel_wire salt ci w' tx' log Hrel) as [Ha Hc]; [by intros ->|].
  exists (stream_wire salt ci log). split; [done|].
  intros rx w2 base r0 cb fuel' st' Hrx Hw2 Hf' Hr0 Hcb Hrun'.
  unfold copy_from_encrypted in Hcb. rewrite Hcat, aead_tag_len in Hcb by done.
  cbn [mbind res_bind] in Hcb. apply Ok_inj in Hcb as <-.
  eapply (copies_outcome (H0:=reader_AsyncRead fuel')
    (ReadOk0:=@readable_ReadOk _ _ (reader_AsyncReadOk fuel')) fuel _ (r0, rx) w2 base (concat log) st');
    try done; [unfold MAX_PACKET_SIZE; lia|].
  eexists. split; [by apply (reader_rel_new kind key salt ci)|done].
Qed.

Module Demo.
Definition source : Script.source := [Script.EvBytes [104; 105]; Script.EvPending; Script.EvBytes [33]].
Definition w0 : EncryptedWriter := TcpAead.Demo.writer.1.
Definition tx : Script.sink := {| Script.quota := [Some 20%nat; None]; Script.got := [] |}.
Definition start : CopyBuffer * Script.source * (EncryptedWriter * Script.sink) :=
  (copy_to_encrypted AES_128_GCM, source, (w0, tx)).
Abbreviation step := (poll_copy (H:=dev) (H1:=writer_AsyncWrite (L:=Toy.toy)) 5).
(** Pending on the sink, then on the source, then complete. *)
Definition s1 := (step start).2.
Definition s2 := (step s1).2.
Definition s3 := (step s2).2.

Lemma poll_eta {A B} (x : A * B) a : x.1 = a → x = (a, x.2).
Proof. by destruct x; intros <-. Qed.
Lemma poll_eta' {A B C D F} (x : A * (B * C * (D * F))) a :
  x.1 = a → x = (a, (x.2.1.1, x.2.1.2, (x.2.2.1, x.2.2.2))).
Proof. by destruct x as [? [[] []]]; intros <-. Qed.
Lemma step1 : step start = (Pending, s1).
Proof. unfold s1. refine (poll_eta (step start) Pending _). vm_compute. reflexivity. Qed.
Lemma step2 : step s1 = (Pending, s2).
Proof. unfold s2. refine (poll_eta (step s1) Pending _). vm_compute. reflexivity. Qed.
Lemma step3 :
  step s2 = (Ready (Ok 3), (s3.1.1, s3.1.2, (s3.2.1, s3.2.2))).
Proof.
  unfold s3. refine (poll_eta' (step s2) (Ready (Ok 3)) _). vm_compute. reflexivity.
Qed.
End Demo.

Lemma tunnel_transparent_witness :
  ∃ wire, accepted Demo.s3.2.2 wire None ∧
    ∀ (rx : Script.source) (w2 : Script.sink) base r0 cb fuel'
      (st' : CopyBuffer * (DecryptedReader * Script.source) * Script.sink),
      readable rx wire → accepted w2 base None → (length wire + 3 < fuel')%nat →
      DecryptedReader_new (E:=ProtocolError) AES_128_GCM TcpAead.Demo.key = Ok r0 →
      copy_from_encrypted (E:=ErrorKind) AES_128_GCM = Ok cb →
      copies (H:=dev) (H0:=reader_AsyncRead (L:=Toy.toy) fuel') 5 (cb, (r0, rx), w2) st' →
      match poll_copy (H:=dev) (H0:=reader_AsyncRead (L:=Toy.toy) fuel') 5 st' with
      | (Ready (Ok m), (_, _, w2')) => m = 3 ∧ accepted w2' (base ++ [104; 105; 33]) None
      | (Ready (Err _), _) | (Pending, _) => True
      | (Ready Panic, _) | (NoFuel, _) => False
      end.
Proof.
  refine (proj2 (tunnel_transparent (H:=dev) (L:=Toy.toy) (R:=Script.source) (T:=Script.sink)
    (U:=Script.source) (W:=Script.sink) AES_128_GCM
    TcpAead.Demo.key TcpAead.Demo.salt [104; 105; 33] 5 Demo.source Demo.w0 Demo.tx Demo.s2
    Demo.s3.1.1 Demo.s3.1.2 Demo.s3.2.1 Demo.s3.2.2 3
    _ _ _ _ _ _ _ _ _ _ _)).
  - reflexivity.
  - reflexivity.
  - reflexivity.
  - reflexivity.
  - discriminate.
  - reflexivity.
  - simpl. lia.
  - vm_compute. reflexivity.
  - split; reflexivity.
  - exact (copies_pending 5 _ _ _ (copies_pending 5 _ _ _ (copies_new 5 _) Demo.step1) Demo.step2).
  - exact Demo.step3.
Defined.
