(* ===== verification/UdpAead.v ===== *)
(** * AEAD datagrams (lib/shadowsocks/src/udp/aead.rs)

    A packet is a fresh salt followed by the sealed target address and payload. *)

From S2P Require Import Prelude RustStr Io Address Crypto TcpAead.

Inductive UdpError :=
  | PacketTooShortForSalt (expected found : nat)
  | PacketTooShortForTag (expected found : nat)
  | InvalidAddress (e : Socks5.Error)
  | DecryptPayloadError.

Section udp.
Context `{L : CryptoLib}.

(** [BytesMut::resize(n, 0)] *)
Definition resize (n : nat) (dst : bytes) : bytes := take n dst ++ replicate (n - length dst) 0.

(** [dst] is the destination before the call; [None] when the generator [rng] has run out
    before it produced a salt that is not all zeros. *)
Definition encrypt_payload_aead {E} (rng : list bytes) (method : CipherKind) (key : bytes)
    (addr : Address) (payload dst : bytes) : option (res E bytes) :=
  match salt_len method with
  | Ok salt_len =>
    let dst := resize salt_len dst in
    let salt := if bool_decide (0 < salt_len)%nat then generate_nonce rng method dst
                else Some dst in
    salt ← salt;
    Some (
      cipher ← Cipher_new method key salt;
      dst ← write_to_buf addr salt;
      tag_len ← tag_len method;
      let dst := dst ++ payload ++ replicate tag_len 0 in
      '(m, _) ← encrypt cipher (drop salt_len dst);
      Ok (take salt_len dst ++ m))
  | Err e => Some (Err e)
  | Panic => Some Panic
  end.

(** The position after the address, and the address. *)
Definition parse_packet (buf : bytes) : res UdpError (nat * Address) :=
  match read_from (cursor buf) with
  | Ok (address, cur) => Ok (length buf - length (avail cur), address)%nat
  | Err err => Err (InvalidAddress err)
  | Panic => Panic
  end.

(** The length of the payload and the address, and the packet buffer: on success the
    payload has been moved to its front. *)
Definition decrypt_payload_aead (kind : CipherKind) (key payload : bytes)
  : res UdpError (nat * Address * bytes) :=
  let plen := length payload in
  salt_len ← salt_len kind;
  if bool_decide (plen < salt_len)%nat then Err (PacketTooShortForSalt salt_len plen) else
  let salt := take salt_len payload in
  let data := drop salt_len payload in
  cipher ← Cipher_new kind key salt;
  tag_len ← cipher_tag_len cipher;
  if bool_decide (length data < tag_len)%nat
  then Err (PacketTooShortForTag tag_len (length data)) else
  '(ok, data, _) ← decrypt cipher data;
  if negb ok then Err DecryptPayloadError else
  let payload := salt ++ data in
  let data_len := (length data - tag_len)%nat in
  '(dn, addr) ← parse_packet (take data_len data);
  let data_length := (data_len - dn)%nat in
  let data_start_idx := (salt_len + dn)%nat in
  moved ← slice payload data_start_idx (data_start_idx + data_length);
  Ok (data_length, addr, moved ++ drop data_length payload).
End udp.

Section udp_proof.
Context `{L : CryptoLib} `{!CryptoLibOk L}.

Lemma parse_packet_wire addr payload :
  address_wf addr → sendable addr →
  parse_packet (address_wire addr ++ payload) = Ok (length (address_wire addr), wire_address addr).
Proof.
  intros Hwf Hs. unfold parse_packet, cursor. rewrite read_from_wire by done. simpl.
  rewrite length_app. do 2 f_equal. lia.
Qed.

Lemma slice_app {E} (a b c : bytes) (n m : nat) :
  length a = n → (n + length b)%nat = m → slice (E:=E) (a ++ b ++ c) n m = Ok b.
Proof.
  intros <- <-. unfold slice. rewrite bool_decide_eq_true_2 by solve_len.
  rewrite drop_app_length. f_equal.
  replace (length a + length b - length a)%nat with (length b) by lia.
  apply take_app_length.
Qed.

Lemma decrypt_payload_sealed kind key salt ci addr payload :
  is_aead kind = true → salt_len (E:=UdpError) kind = Ok (length salt) →
  Cipher_new (E:=UdpError) kind key salt = Ok ci → address_wf addr → sendable addr →
  ∃ buf, decrypt_payload_aead kind key (salt ++ sealed ci (address_wire addr ++ payload))
         = Ok (length payload, wire_address addr, payload ++ buf).
Proof.
  intros Hk Hsl Hci Hwf Hs. destruct (Cipher_new_Ok_wf _ _ _ _ Hci) as (Hcwf & _ & _).
  set (pt := address_wire addr ++ payload).
  pose proof (length_sealed ci pt) as Hlen.
  unfold decrypt_payload_aead. rewrite Hsl. cbn [mbind res_bind].
  rewrite bool_decide_eq_false_2 by solve_len.
  rewrite take_app_length, drop_app_length, Hci. cbn [mbind res_bind].
  assert (cipher_tag_len (E:=UdpError) ci = Ok 16%nat) as ->
    by (unfold cipher_tag_len; by destruct (cipher ci)). cbn [mbind res_bind].
  rewrite bool_decide_eq_false_2 by lia.
  destruct (decrypt_sealed (E:=UdpError) ci pt Hcwf) as (tag & Ht & ->).
  cbn [mbind res_bind negb].
  replace (length (pt ++ tag) - 16)%nat with (length pt) by solve_len.
  rewrite take_app_length. subst pt. rewrite parse_packet_wire by done. cbn [mbind res_bind].
  replace (length (address_wire addr ++ payload) - length (address_wire addr))%nat
    with (length payload) by solve_len.
  rewrite <- !app_assoc, (app_assoc salt (address_wire addr)).
  rewrite slice_app by solve_len. simpl. by eexists.
Qed.

Lemma random_loop_spec rng salt n :
  Forall (λ bs, length bs = n) rng → random_loop rng = Some salt →
  length salt = n ∧ is_zeros salt = false.
Proof.
  induction 1 as [|bs rng Hbs _ IH]; [done|]. simpl.
  destruct (is_zeros bs) eqn:?; [done|]. intros. by simplify_eq.
Qed.

Lemma generate_nonce_spec rng kind buf salt :
  buf ≠ [] → Forall (λ bs, length bs = length buf) rng → generate_nonce rng kind buf = Some salt →
  length salt = length buf ∧ is_zeros salt = false.
Proof. destruct buf; [done|]. intros _. apply random_loop_spec. Qed.

Lemma length_resize n dst : length (resize n dst) = n.
Proof. unfold resize. solve_len. Qed.

Lemma aead_cipher_tag_len {E} ci : cipher_tag_len (E:=E) ci = Ok 16%nat.
Proof. unfold cipher_tag_len. by destruct (cipher ci). Qed.

Lemma encrypt_payload_sealed {E} rng kind key addr payload dst out :
  is_aead kind = true → key_len (E:=UdpError) kind = Ok (length key) → sendable addr →
  Forall (λ bs, salt_len (E:=()) kind = Ok (length bs)) rng →
  encrypt_payload_aead (E:=E) rng kind key addr payload dst = Some out →
  ∃ salt ci, out = Ok (salt ++ sealed ci (address_wire addr ++ payload))
    ∧ salt_len (E:=UdpError) kind = Ok (length salt) ∧ is_zeros salt = false
    ∧ Cipher_new (E:=UdpError) kind key salt = Ok ci.
Proof.
  intros Hk Hkey Hs Hrng.
  assert (∃ n, (∀ F, salt_len (E:=F) kind = Ok n) ∧ (0 < n)%nat) as (n & Hn & Hpos).
  { destruct kind; try done; eexists; split; try done; lia. }
  unfold encrypt_payload_aead. rewrite Hn. cbv zeta.
  rewrite bool_decide_eq_true_2 by done.
  destruct (generate_nonce rng kind (resize n dst)) as [salt|] eqn:Hg; [|done].
  apply generate_nonce_spec in Hg as [Hsl Hz].
  2:{ intros E0. apply (f_equal length) in E0. rewrite length_resize in E0. simpl in E0. lia. }
  2:{ eapply Forall_impl; [|exact Hrng]. intros bs Hbs. simpl in Hbs.
      rewrite length_resize. rewrite Hn in Hbs. congruence. }
  rewrite length_resize in Hsl.
  destruct (Cipher_new_wf (E:=UdpError) kind key salt Hk (eq_sym Hkey)) as (ci & Hci & Hwf & _).
  cbn [mbind option_bind]. intros [= <-]. exists salt, ci.
  rewrite (Cipher_new_poly (E:=UdpError) (F:=E) _ _ _ _ Hci). cbn [mbind res_bind].
  rewrite write_to_buf_wire, aead_tag_len by done. cbn [mbind res_bind].
  rewrite <- !app_assoc, drop_app_length', take_app_length' by done.
  rewrite (app_assoc (address_wire addr)), encrypt_sealed
    by (done || apply length_replicate). cbn [mbind res_bind].
  split_and!; try done. by rewrite Hn, Hsl.
Qed.
End udp_proof.

Section udp_total.
Context `{L : CryptoLib} `{!CryptoLibOk L}.

Lemma decrypt_ok {E} ci buf :
  cipher_wf ci → (16 ≤ length buf)%nat → ∃ r, decrypt (E:=E) ci buf = Ok r.
Proof.
  intros Hwf Hl. pose proof (nonce_size_ok ci Hwf) as Hn.
  assert (variant_decrypt (E:=E) (cipher ci) (take (nlen ci) (nonce ci)) buf
          = aead_decrypt (cipher_key ci) (take (nlen ci) (nonce ci)) buf) as Hv
    by (unfold cipher_key; by destruct (cipher ci)).
  unfold decrypt. rewrite Hv. unfold aead_decrypt, TAG_SIZE.
  rewrite !bool_decide_eq_true_2 by done. cbn [assert_ mbind res_bind].
  destruct (open _ _ _ _ _). by eexists.
Qed.

(** What [read_from] consumes is a prefix of the source. *)
Lemma read_exact_suffix n s bs s' :
  read_exact n s = Ok (bs, s') → avail s = bs ++ avail s' ∧ fin s' = fin s.
Proof.
  unfold read_exact. case_bool_decide; [|done]. intros. simplify_eq/=. by rewrite take_drop.
Qed.

Lemma read_from_suffix src a src' :
  read_from src = Ok (a, src') → ∃ used, avail src = used ++ avail src' ∧ fin src' = fin src.
Proof.
  unfold read_from. intros ([b s1] & H1%map_err_Ok & H)%bind_Ok.
  apply read_exact_suffix in H1 as [E1 F1].
  repeat case_match; simplify_eq;
    apply bind_Ok in H as ([b2 s2] & R2%map_err_Ok & H); apply read_exact_suffix in R2 as [E2 F2].
  1,2: simplify_eq; exists (b ++ b2); rewrite <- app_assoc; split; congruence.
  apply bind_Ok in H as ([b3 s3] & R3%map_err_Ok & H). apply read_exact_suffix in R3 as [E3 F3].
  case_match; [|done]. simplify_eq.
  exists (b ++ b2 ++ b3). rewrite <- !app_assoc. split; congruence.
Qed.
End udp_total.

(** What the outcome of a packet says about it; [n] is the length of a salt. *)
Definition decided `{L : CryptoLib} (kind : CipherKind) (key packet : bytes) (n : nat)
    (r : res UdpError (nat * Address * bytes)) : Prop :=
  match r with
  | Ok (len, addr, buf) =>
    ∃ ci pt tag ci', Cipher_new (E:=UdpError) kind key (take n packet) = Ok ci
      ∧ decrypt (E:=UdpError) ci (drop n packet) = Ok (true, pt ++ tag, ci')
      ∧ length tag = 16%nat
      ∧ read_from (cursor pt) = Ok (addr, cursor (take len buf))
      ∧ length buf = length packet
  | Err (PacketTooShortForSalt e f) => e = n ∧ f = length packet ∧ (f < e)%nat
  | Err (PacketTooShortForTag e f) => e = 16%nat ∧ (n + f)%nat = length packet ∧ (f < e)%nat
  | Err _ => (n + 16 ≤ length packet)%nat
  | Panic => False
  end.

Lemma decrypt_payload_decided `{L : CryptoLib} `{!CryptoLibOk L} kind key packet n :
  is_aead kind = true → key_len (E:=UdpError) kind = Ok (length key) →
  salt_len (E:=UdpError) kind = Ok n →
  decided kind key packet n (decrypt_payload_aead kind key packet).
Proof.
  intros Hkind Hkey Hn. unfold decided.
  unfold decrypt_payload_aead. rewrite Hn. cbn [mbind res_bind].
  case_bool_decide as Hshort; [by split_and!|].
  destruct (Cipher_new_wf (E:=UdpError) kind key (take n packet) Hkind (eq_sym Hkey))
    as (ci & Hci & Hwf & _).
  rewrite Hci. cbn [mbind res_bind]. rewrite aead_cipher_tag_len. cbn [mbind res_bind].
  case_bool_decide as Htag; [split_and!; solve_len|].
  assert (n + 16 ≤ length packet)%nat as Hlen by solve_len.
  destruct (decrypt_ok (E:=UdpError) ci (drop n packet) Hwf) as ([[ok data] ci'] & Hd); [solve_len|].
  rewrite Hd. cbn [mbind res_bind].
  destruct ok; [|done]. cbn [negb].
  destruct (decrypt_Ok _ _ _ _ _ Hd) as (Hdl & -> & _). rewrite length_drop in Hdl.
  unfold parse_packet.
  destruct (read_from (cursor (take (length data - 16) data))) as [[addr cur]|e|] eqn:Hr;
    cbn [mbind res_bind]; [|done|by apply read_from_no_panic in Hr].
  pose proof (read_from_suffix _ _ _ Hr) as (used & Hu & Hfin). simpl in Hu, Hfin.
  assert (length data - 16 = length used + length (avail cur))%nat as Hsum.
  { apply (f_equal length) in Hu. autorewrite with codec in Hu. lia. }
  assert (length (take (length data - 16) data) - length (avail cur) = length used)%nat as ->
    by solve_len.
  replace (length data - 16 - length used)%nat with (length (avail cur)) by lia.
  assert (slice (E:=UdpError) (take n packet ++ data) (n + length used)
            (n + length used + length (avail cur)) = Ok (avail cur)) as ->.
  { rewrite <- (take_drop (length data - 16) data), Hu, <- app_assoc, app_assoc.
    apply slice_app; solve_len. }
  cbn [mbind res_bind].
  exists ci, (take (length data - 16) data), (drop (length data - 16) data), (increase_nonce ci).
  rewrite take_drop, take_app_length. split_and!; try done.
  - solve_len.
  - rewrite Hr. destruct cur as [av f]. simpl in *. by subst f.
  - solve_len.
Qed.

Lemma decrypt_payload_safe `{L : CryptoLib} `{!CryptoLibOk L} kind key packet :
  is_aead kind = true → key_len (E:=UdpError) kind = Ok (length key) →
  decrypt_payload_aead kind key packet ≠ Panic.
Proof.
  intros Hk Hkey E. pose proof (decrypt_payload_decided kind key packet (length key) Hk Hkey Hkey) as Hd.
  by rewrite E in Hd.
Qed.

(** ** Properties *)

(** Datagrams round trip.  Whatever the packet of an address and a payload is, for
    whatever salt the generator gives, it starts with a salt that is not all zeros, and
    the receiver with the same key gets the address and the payload. *)
Lemma udp_roundtrip `{L : CryptoLib} `{!CryptoLibOk L} (rng : list bytes) (kind : CipherKind)
    (key : bytes) (addr : Address) (payload : bytes) (out : res () bytes)
    (Hkind : is_aead kind = true) (Hkey : key_len (E:=UdpError) kind = Ok (length key))
    (Haddr : address_wf addr) (Hs : sendable addr)
    (Hrng : Forall (λ bs, salt_len (E:=()) kind = Ok (length bs)) rng)
    (Hout : encrypt_payload_aead rng kind key addr payload [] = Some out) :
  ∃ packet buf n, out = Ok packet ∧ salt_len (E:=()) kind = Ok n
    ∧ is_zeros (take n packet) = false
    ∧ decrypt_payload_aead kind key packet = Ok (length payload, wire_address addr, buf)
    ∧ take (length payload) buf = payload.
Proof.
  destruct (encrypt_payload_sealed _ _ _ _ _ _ _ Hkind Hkey Hs Hrng Hout)
    as (salt & ci & -> & Hsl & Hz & Hci).
  destruct (decrypt_payload_sealed kind key salt ci addr payload Hkind Hsl Hci Haddr Hs)
    as (buf & Hd).
  exists (salt ++ sealed ci (address_wire addr ++ payload)), (payload ++ buf), (length salt).
  rewrite take_app_length. split_and!; try done; [|apply take_app_length].
  destruct kind; try done; simpl in *; congruence.
Qed.

(** C7: the receiver decides every packet without a panic: one that is shorter than a salt
    and a tag is rejected with the length that was expected, and a payload and an address
    are returned only if the tag of the packet was accepted under the key that its salt
    derives, and then they are what the plaintext holds. *)
Theorem udp_decrypt_decides `{L : CryptoLib} `{!CryptoLibOk L} (kind : CipherKind)
    (key packet : bytes) (n : nat)
    (Hkind : is_aead kind = true) (Hkey : key_len (E:=UdpError) kind = Ok (length key))
    (Hn : salt_len (E:=UdpError) kind = Ok n) :
  match decrypt_payload_aead kind key packet with
  | Ok (len, addr, buf) =>
    ∃ ci pt tag ci', Cipher_new (E:=UdpError) kind key (take n packet) = Ok ci
      ∧ decrypt (E:=UdpError) ci (drop n packet) = Ok (true, pt ++ tag, ci')
      ∧ length tag = 16%nat
      ∧ read_from (cursor pt) = Ok (addr, cursor (take len buf))
      ∧ length buf = length packet
  | Err (PacketTooShortForSalt e f) => e = n ∧ f = length packet ∧ (f < e)%nat
  | Err (PacketTooShortForTag e f) => e = 16%nat ∧ (n + f)%nat = length packet ∧ (f < e)%nat
  | Err _ => (n + 16 ≤ length packet)%nat
  | Panic => False
  end.
Proof. by apply decrypt_payload_decided. Qed.

Lemma udp_decrypt_decides_witness :
  match decrypt_payload_aead (L:=Toy.toy) AES_128_GCM (replicate 16 7) (replicate 20 1) with
  | Ok (len, addr, buf) => False
  | Err (PacketTooShortForSalt e f) => e = 16%nat ∧ f = 20%nat ∧ (f < e)%nat
  | Err (PacketTooShortForTag e f) => e = 16%nat ∧ (16 + f)%nat = 20%nat ∧ (f < e)%nat
  | Err _ => (16 + 16 ≤ 20)%nat
  | Panic => False
  end.
Proof.
  exact (udp_decrypt_decides (L:=Toy.toy) AES_128_GCM (replicate 16 7) (replicate 20 1) 16
           eq_refl eq_refl eq_refl).
Defined.
