(* ===== verification/NetAddr.v ===== *)
(** * Addresses in text (std's [SocketAddr::from_str], lib/shadowsocks/src/addr.rs)

    [Address::from_str] reads a socket address in the syntax of [core::net::parser], or a
    domain name and a port.  A parser takes the rest of the text; on failure the caller
    goes on from where the parser began ([read_atomically]). *)

From S2P Require Import Prelude RustStr Io Address.

(** ** [core::net::parser] *)

Abbreviation parser A := (bytes → option (A * bytes)).

Definition colon : Z := 58.
Definition full_stop : Z := 46.

(** [char::to_digit(radix)] for a radix of ten or sixteen. *)
Definition to_digit (radix c : Z) : option Z :=
  let d := if (48 <=? c) && (c <=? 57) then c - 48
           else if (97 <=? c) && (c <=? 102) then c - 87
           else if (65 <=? c) && (c <=? 70) then c - 55 else radix in
  if d <? radix then Some d else None.

Definition read_given_char (x : Z) : parser () := λ s,
  match s with
  | c :: s => if c =? x then Some ((), s) else None
  | [] => None
  end.

(** The loop of [read_number]: the value, the number of digits and the rest.  A bounded
    number fails on one digit too many, an unbounded one when it exceeds [max]. *)
Fixpoint number_loop (radix max : Z) (max_digits : option nat) (acc : Z) (count : nat)
    (s : bytes) : option (Z * nat * bytes) :=
  match s with
  | [] => Some (acc, count, s)
  | c :: s' =>
    match to_digit radix c with
    | None => Some (acc, count, s)
    | Some d =>
      let acc := acc * radix + d in
      let count := Datatypes.S count in
      let stop := match max_digits with
                  | Some m => bool_decide (m < count)%nat
                  | None => max <? acc
                  end in
      if stop then None else number_loop radix max max_digits acc count s'
    end
  end.

Definition read_number (radix max : Z) (max_digits : option nat) (allow_zero_prefix : bool)
  : parser Z := λ s,
  let has_leading_zero := bool_decide (head s = Some 48) in
  '(v, count, s') ← number_loop radix max max_digits 0 0 s;
  if bool_decide (count = 0%nat) then None
  else if negb allow_zero_prefix && has_leading_zero && bool_decide (1 < count)%nat then None
  else if max <? v then None else Some (v, s').

Definition read_separator {A} (sep : Z) (index : nat) (inner : parser A) : parser A := λ s,
  if bool_decide (0 < index)%nat
  then '(_, s) ← read_given_char sep s; inner s
  else inner s.

Fixpoint read_octets (n index : nat) : parser bytes := λ s,
  match n with
  | O => Some ([], s)
  | Datatypes.S n =>
    '(b, s) ← read_separator full_stop index (read_number 10 255 (Some 3%nat) false) s;
    '(bs, s) ← read_octets n (Datatypes.S index) s;
    Some (b :: bs, s)
  end.
Definition read_ipv4_addr : parser bytes := read_octets 4 0.

(** [read_groups]: the groups that were read, whether the last two are an embedded IPv4
    address, and the rest; [left] is the number of groups that may follow. *)
Fixpoint read_groups (left index : nat) (s : bytes) : list Z * bool * bytes :=
  match left with
  | O => ([], false, s)
  | Datatypes.S left' =>
    let v4 := if bool_decide (0 < left')%nat
              then read_separator colon index read_ipv4_addr s else None in
    match v4 with
    | Some (octets, s) =>
      ([be_decode (take 2 octets); be_decode (drop 2 octets)], true, s)
    | None =>
      match read_separator colon index (read_number 16 65535 (Some 4%nat) true) s with
      | Some (g, s) =>
        let '(gs, ipv4, s) := read_groups left' (Datatypes.S index) s in (g :: gs, ipv4, s)
      | None => ([], false, s)
      end
    end
  end.

Definition read_ipv6_addr : parser (list Z) := λ s,
  let '(head, head_ipv4, s) := read_groups 8 0 s in
  if bool_decide (length head = 8%nat) then Some (head, s)
  else if head_ipv4 then None
  else
    '(_, s) ← read_given_char colon s;
    '(_, s) ← read_given_char colon s;
    let '(tail, _, s) := read_groups (8 - (length head + 1)) 0 s in
    Some (head ++ replicate (8 - length head - length tail) 0 ++ tail, s).

Definition read_port : parser Z := λ s,
  '(_, s) ← read_given_char colon s;
  read_number 10 u16_max None true s.

Definition read_scope_id : parser Z := λ s,
  '(_, s) ← read_given_char 37 s;
  read_number 10 u32_max None true s.

Definition read_socket_addr_v4 : parser SocketAddr := λ s,
  '(ip, s) ← read_ipv4_addr s;
  '(port, s) ← read_port s;
  Some (V4 ip port, s).

Definition read_socket_addr_v6 : parser SocketAddr := λ s,
  '(_, s) ← read_given_char 91 s;
  '(ip, s) ← read_ipv6_addr s;
  let '(scope_id, s) := match read_scope_id s with Some p => p | None => (0, s) end in
  '(_, s) ← read_given_char 93 s;
  '(port, s) ← read_port s;
  Some (V6 ip port 0 scope_id, s).

(** [s.parse::<SocketAddr>()] *)
Definition parse_socket_addr (s : bytes) : option SocketAddr :=
  let read := match read_socket_addr_v4 s with
              | Some r => Some r
              | None => read_socket_addr_v6 s
              end in
  match read with
  | Some (sa, []) => Some sa
  | _ => None
  end.

(** ** [impl FromStr for Address] *)

Inductive AddressError := InvalidPort | MissingDomain | WithoutPort.

Definition from_str (s : bytes) : res AddressError Address :=
  match parse_socket_addr s with
  | Some addr => Ok (SocketAddress addr)
  | None =>
    match split colon s with
    | dn :: port :: _ =>
      _ ← fail_if (bool_decide (dn = [])) MissingDomain;
      match parse_uint u16_max port with
      | Ok port => Ok (DomainNameAddress dn port)
      | _ => Err InvalidPort
      end
    | _ => Err WithoutPort
    end
  end.

(** [format!("{}", n)] of an unsigned number. *)
Fixpoint decimal_go (fuel : nat) (n : Z) (acc : bytes) : bytes :=
  match fuel with
  | O => acc
  | Datatypes.S fuel =>
    let acc := (48 + n mod 10) :: acc in
    if n <? 10 then acc else decimal_go fuel (n / 10) acc
  end.
Definition decimal (n : Z) : bytes := decimal_go (Datatypes.S (Z.to_nat (Z.log2 n))) n [].

(** [format!("{:x}", n)] of a [u16], which has at most four digits. *)
Definition hex_digit (d : Z) : Z := if d <? 10 then 48 + d else 87 + d.
Fixpoint hex_go (fuel : nat) (n : Z) (acc : bytes) : bytes :=
  match fuel with
  | O => acc
  | Datatypes.S fuel =>
    let acc := hex_digit (n mod 16) :: acc in
    if n <? 16 then acc else hex_go fuel (n / 16) acc
  end.
Definition hex (n : Z) : bytes := hex_go 4 n [].

(** [impl Display for Ipv4Addr] and [for SocketAddrV4] *)
Definition ipv4_text (ip : bytes) : bytes := join full_stop (decimal <$> ip).
Definition v4_text (ip : bytes) (port : Z) : bytes := ipv4_text ip ++ colon :: decimal port.

(** [impl Display for Ipv6Addr]: the longest run of zero groups, the first one of several,
    is left out if it has more than one group. *)
Record Span := { start : nat; len : nat }.

Fixpoint longest_zeroes (i : nat) (current longest : Span) (segments : list Z) : Span :=
  match segments with
  | [] => longest
  | segment :: segments =>
    let current :=
      if segment =? 0
      then {| start := if bool_decide (len current = 0%nat) then i else start current;
              len := Datatypes.S (len current) |}
      else {| start := 0; len := 0 |} in
    let longest := if bool_decide (len longest < len current)%nat then current else longest in
    longest_zeroes (Datatypes.S i) current longest segments
  end.

Definition fmt_subslice (chunk : list Z) : bytes := join colon (hex <$> chunk).

(** [to_ipv4] *)
Definition to_ipv4 (segments : list Z) : option bytes :=
  match segments with
  | [0; 0; 0; 0; 0; x; ab; cd] =>
    if (x =? 0) || (x =? 65535) then Some (put_u16 ab ++ put_u16 cd) else None
  | _ => None
  end.

Definition ipv6_text (segments : list Z) : bytes :=
  if bool_decide (segments = [0; 0; 0; 0; 0; 0; 0; 0]) then [colon; colon]
  else if bool_decide (segments = [0; 0; 0; 0; 0; 0; 0; 1]) then [colon; colon; 49]
  else match to_ipv4 segments with
  | Some ipv4 =>
    if default 0 (segments !! 5%nat) =? 0 then colon :: colon :: ipv4_text ipv4
    else colon :: colon :: hex 65535 ++ colon :: ipv4_text ipv4
  | None =>
    let none := {| start := 0; len := 0 |} in
    let zeroes := longest_zeroes 0 none none segments in
    if bool_decide (1 < len zeroes)%nat
    then fmt_subslice (take (start zeroes) segments) ++ colon :: colon
           :: fmt_subslice (drop (start zeroes + len zeroes) segments)
    else fmt_subslice segments
  end.

(** [impl Display for SocketAddr] *)
Definition socket_addr_text (sa : SocketAddr) : bytes :=
  match sa with
  | V4 ip port => v4_text ip port
  | V6 ip port _ scope_id =>
    let scope := if scope_id =? 0 then [] else 37 :: decimal scope_id in
    91 :: ipv6_text ip ++ scope ++ 93 :: colon :: decimal port
  end.

(** [impl Display for Address] *)
Definition domain_text (dn : bytes) (port : Z) : bytes := dn ++ colon :: decimal port.
Definition Address_fmt (a : Address) : bytes :=
  match a with
  | SocketAddress addr => socket_addr_text addr
  | DomainNameAddress addr port => domain_text addr port
  end.

(** ** Numbers are read as they are printed *)

Definition is_dec (c : Z) : Prop := 48 <= c <= 57.
Definition dec_val (ds : bytes) : Z := foldl (λ x c, x * 10 + (c - 48)) 0 ds.

Lemma to_digit_dec c : is_dec c → to_digit 10 c = Some (c - 48).
Proof.
  intros [??]. unfold to_digit.
  rewrite (proj2 (Z.leb_le 48 c)), (proj2 (Z.leb_le c 57)) by lia. simpl.
  by rewrite (proj2 (Z.ltb_lt (c - 48) 10)) by lia.
Qed.

Lemma foldl_dec_mono ds acc : Forall is_dec ds → 0 <= acc →
  acc <= foldl (λ x c, x * 10 + (c - 48)) acc ds.
Proof.
  intros Hds. revert acc. induction Hds as [|c ds [??] _ IH]; intros acc Ha; simpl; [lia|].
  etransitivity; [|apply IH; lia]. lia.
Qed.

(** The digits before [rest], which does not begin with one. *)
Definition no_digit (rest : bytes) : Prop := ∀ c, head rest = Some c → to_digit 10 c = None.

Lemma number_loop_dec max md ds rest acc count :
  Forall is_dec ds → no_digit rest → 0 <= acc →
  foldl (λ x c, x * 10 + (c - 48)) acc ds <= max →
  (∀ m, md = Some m → count + length ds ≤ m)%nat →
  number_loop 10 max md acc count (ds ++ rest)
  = Some (foldl (λ x c, x * 10 + (c - 48)) acc ds, (count + length ds)%nat, rest).
Proof.
  intros Hds Hr. revert acc count.
  induction Hds as [|c ds Hc Hds IH]; intros acc count Ha Hmax Hm; simpl.
  - rewrite Nat.add_0_r. destruct rest as [|c rest]; [done|]. simpl. by rewrite (Hr c).
  - rewrite to_digit_dec by done. simpl in Hmax, Hm. destruct Hc as [Hc1 Hc2].
    pose proof (foldl_dec_mono ds (acc * 10 + (c - 48)) Hds ltac:(lia)) as Hmono.
    assert (match md with Some m => bool_decide (m < Datatypes.S count)%nat
            | None => max <? acc * 10 + (c - 48) end = false) as ->.
    { destruct md as [m|]; [|apply Z.ltb_ge; lia].
      apply bool_decide_eq_false_2. specialize (Hm m eq_refl). lia. }
    rewrite IH; [do 2 f_equal; f_equal; lia|lia|done|].
    intros m E. specialize (Hm m E). lia.
Qed.

(** What [decimal] prints. *)
Record printed (n : Z) (ds : bytes) : Prop := {
  printed_dec : Forall is_dec ds;
  printed_val : dec_val ds = n;
  printed_head : head ds = Some 48 → ds = [48];
  printed_ne : ds ≠ [];
  printed_len : 10 ^ (Z.of_nat (length ds) - 1) <= n ∨ length ds = 1%nat
}.

Lemma dec_val_snoc ds c : dec_val (ds ++ [c]) = dec_val ds * 10 + (c - 48).
Proof. unfold dec_val. by rewrite foldl_app. Qed.

Lemma decimal_go_acc fuel n acc : decimal_go fuel n acc = decimal_go fuel n [] ++ acc.
Proof.
  revert n acc. induction fuel as [|fuel IH]; intros n acc; [done|]. simpl.
  destruct (n <? 10); [done|]. rewrite IH, (IH _ [_]). by rewrite <- app_assoc.
Qed.

Lemma decimal_go_printed fuel n : 0 <= n → (Z.log2 n < Z.of_nat fuel) →
  printed n (decimal_go fuel n []).
Proof.
  revert n. induction fuel as [|fuel IH]; intros n Hn Hf.
  { pose proof (Z.log2_nonneg n). lia. }
  cbn [decimal_go]. destruct (Z.ltb_spec n 10) as [Hlt|Hge].
  - rewrite Z.mod_small by lia. split; [by repeat constructor; unfold is_dec; lia| | |done|by right].
    + unfold dec_val. simpl. lia.
    + simpl. intros [= ->]. done.
  - rewrite decimal_go_acc. assert (0 < n / 10) by (apply Z.div_str_pos; lia).
    assert (n / 10 * 2 <= n) by (pose proof (Z.mul_div_le n 10); lia).
    assert (Z.log2 (n / 10) < Z.log2 n).
    { assert (Z.log2 (2 * (n / 10)) <= Z.log2 n) as Hm by (apply Z.log2_le_mono; lia).
      rewrite Z.log2_double in Hm by lia. lia. }
    destruct (IH (n / 10)) as [Hd Hv Hh Hne Hl]; [lia|lia|].
    pose proof (Z.mod_pos_bound n 10 ltac:(lia)).
    pose proof (Z.div_mod n 10 ltac:(lia)).
    set (ds := decimal_go fuel (n / 10) []) in *. split.
    + apply Forall_app. split; [done|]. repeat constructor; unfold is_dec; lia.
    + rewrite dec_val_snoc, Hv. lia.
    + destruct ds as [|d ds']; [done|]. simpl. intros [= ->]. injection (Hh eq_refl) as ->.
      unfold dec_val in Hv. simpl in Hv. lia.
    + by intros [? ?]%app_nil.
    + left. rewrite length_app. simpl. destruct ds as [|d ds']; [done|]. simpl length in *.
      replace (Z.of_nat (Datatypes.S (length ds') + 1) - 1)
        with (Z.succ (Z.of_nat (Datatypes.S (length ds')) - 1)) by lia.
      rewrite Z.pow_succ_r by lia. destruct Hl as [Hl|Hl]; [lia|].
      rewrite Hl. simpl. lia.
Qed.

Lemma decimal_printed n : 0 <= n → printed n (decimal n).
Proof.
  intros. apply decimal_go_printed; [done|]. pose proof (Z.log2_nonneg n). lia.
Qed.

Lemma printed_short n k ds : printed n ds → n < 10 ^ Z.of_nat k → (0 < k)%nat → (length ds ≤ k)%nat.
Proof.
  intros [_ _ _ _ [Hl|Hl]] Hn Hk; [|lia].
  destruct (decide (length ds ≤ k)%nat) as [|Hlt]; [done|].
  pose proof (Z.pow_le_mono_r 10 (Z.of_nat k) (Z.of_nat (length ds) - 1) ltac:(lia) ltac:(lia)). lia.
Qed.

Lemma read_number_decimal max md zero n rest :
  0 <= n <= max → no_digit rest →
  (∀ m : nat, md = Some m → (0 < m)%nat ∧ n < 10 ^ Z.of_nat m) →
  read_number 10 max md zero (decimal n ++ rest) = Some (n, rest).
Proof.
  intros Hn Hr Hm. pose proof (decimal_printed n ltac:(lia)) as Hp.
  pose proof Hp as [Hd Hv Hh Hne Hl].
  unfold read_number. rewrite (number_loop_dec max md (decimal n) rest); [|done|done|lia| |].
  - change (foldl _ 0 (decimal n)) with (dec_val (decimal n)). rewrite Hv. simpl.
    rewrite (bool_decide_eq_false_2 (length _ = 0%nat)) by (by destruct (decimal n)).
    assert (negb zero && bool_decide (head (decimal n ++ rest) = Some 48)
            && bool_decide (1 < length (decimal n))%nat = false) as ->.
    { destruct (decide (1 < length (decimal n))%nat) as [Hlt|]; 
        [|by rewrite (bool_decide_eq_false_2 (1 < _)%nat), andb_false_r].
      rewrite (bool_decide_eq_false_2 (head _ = _)); [by rewrite andb_false_r|].
      intros E. destruct (decimal n) as [|d ds]; [done|]. simpl in E, Hh.
      specialize (Hh E). rewrite Hh in Hlt. simpl in Hlt. lia. }
    by rewrite (proj2 (Z.ltb_ge max n)) by lia.
  - change (foldl _ 0 (decimal n)) with (dec_val (decimal n)). lia.
  - intros m E. destruct (Hm m E). simpl. apply (printed_short n); [done|done|lia].
Qed.

(** ** What the readers consume *)

Definition is_v4_char (c : Z) : Prop := is_dec c ∨ c = full_stop.

Lemma to_digit_Some c d : to_digit 10 c = Some d → is_dec c.
Proof.
  unfold to_digit, is_dec. intros Ht. repeat case_match; simplify_eq; try lia;
    rewrite ?Bool.andb_true_iff, ?Z.leb_le, ?Z.ltb_lt in *; lia.
Qed.

Lemma number_loop_consumes max md acc count s v n s' :
  number_loop 10 max md acc count s = Some (v, n, s') →
  ∃ ds, s = ds ++ s' ∧ Forall is_dec ds.
Proof.
  revert acc count. induction s as [|c s IH]; intros acc count; simpl.
  - intros [= <- <- <-]. by exists [].
  - destruct (to_digit 10 c) as [d|] eqn:Ed; [|intros [= <- <- <-]; by exists []].
    case_match; [done|]. intros (ds & -> & Hds)%IH. exists (c :: ds). split; [done|].
    constructor; [|done]. by apply (to_digit_Some c d).
Qed.

Lemma read_number_consumes max md zero s v s' :
  read_number 10 max md zero s = Some (v, s') → ∃ ds, s = ds ++ s' ∧ Forall is_dec ds.
Proof.
  unfold read_number. destruct (number_loop _ _ _ _ _ s) as [[[v' n] r]|] eqn:El; [|done].
  simpl. intros Hv. repeat case_match; simplify_eq. by apply number_loop_consumes in El.
Qed.

Lemma read_octets_consumes n i s bs s' :
  read_octets n i s = Some (bs, s') → ∃ cs, s = cs ++ s' ∧ Forall is_v4_char cs.
Proof.
  revert i s bs. induction n as [|n IH]; intros i s bs; simpl.
  - intros [= <- <-]. by exists [].
  - destruct (read_separator _ _ _ s) as [[b s1]|] eqn:E1; [|done]. simpl.
    destruct (read_octets n _ s1) as [[bs1 s2]|] eqn:E2; [|done]. simpl. intros [= <- <-].
    apply IH in E2 as (cs2 & -> & H2).
    assert (∃ cs1, s = cs1 ++ cs2 ++ s2 ∧ Forall is_v4_char cs1) as (cs1 & -> & H1).
    { unfold read_separator in E1. case_bool_decide.
      - destruct s as [|c s]; [done|]. simpl in E1. destruct (Z.eqb_spec c full_stop); [|done].
        simpl in E1. apply read_number_consumes in E1 as (ds & -> & Hds).
        exists (c :: ds). split; [done|]. constructor; [by right|].
        revert Hds. apply Forall_impl. by left.
      - apply read_number_consumes in E1 as (ds & -> & Hds).
        exists ds. split; [done|]. revert Hds. apply Forall_impl. by left. }
    exists (cs1 ++ cs2). rewrite app_assoc. split; [done|]. by apply Forall_app.
Qed.

(** A name with a character that is neither a digit nor a dot is no IPv4 address. *)
Lemma name_not_v4 dn rest : colon ∉ dn → ¬ Forall is_v4_char dn →
  read_socket_addr_v4 (dn ++ colon :: rest) = None.
Proof.
  intros Hc Hn. unfold read_socket_addr_v4, read_ipv4_addr.
  destruct (read_octets 4 0 _) as [[ip s]|] eqn:E; [|done]. simpl.
  apply read_octets_consumes in E as (cs & Heq & Hcs).
  destruct s as [|c s]; [done|]. unfold read_port. simpl.
  destruct (Z.eqb_spec c colon) as [->|]; [|done]. exfalso. apply Hn.
  assert (colon ∉ cs) as Hcs'.
  { intros Hin. rewrite list_elem_of_In in Hin. rewrite Forall_forall in Hcs. specialize (Hcs _ Hin).
    unfold is_v4_char, is_dec, colon, full_stop in Hcs. lia. }
  pose proof (f_equal (split colon) Heq) as Hs. rewrite !split_app_sep in Hs by done.
  by injection Hs as -> _.
Qed.

Lemma read_octets_printed ip i rest : Forall is_byte ip → no_digit rest → ip ≠ [] →
  read_octets (length ip) i ((if bool_decide (0 < i)%nat then [full_stop] else [])
                             ++ join full_stop (decimal <$> ip) ++ rest)
  = Some (ip, rest).
Proof.
  intros Hip Hr. revert i. induction Hip as [|b ip Hb Hip IH]; intros i Hne; [done|].
  set (tail := match ip with [] => [] | _ => full_stop :: join full_stop (decimal <$> ip) end).
  assert (join full_stop (decimal <$> b :: ip) = decimal b ++ tail) as ->.
  { destruct ip; simpl; by rewrite ?app_nil_r. }
  assert (read_separator full_stop i (read_number 10 255 (Some 3%nat) false)
           ((if bool_decide (0 < i)%nat then [full_stop] else []) ++ (decimal b ++ tail) ++ rest)
          = Some (b, tail ++ rest)) as E1.
  { rewrite <- app_assoc. unfold is_byte in Hb.
    assert (no_digit (tail ++ rest)) by (destruct ip; [done|]; by intros c [= <-]).
    unfold read_separator. case_bool_decide; simpl;
      (rewrite read_number_decimal; [done|lia|done|intros m [= <-]; split; [lia|simpl; lia]]). }
  cbn [length read_octets]. rewrite E1. simpl.
  destruct ip as [|b' ip']; [done|].
  specialize (IH (Datatypes.S i) ltac:(done)). rewrite bool_decide_eq_true_2 in IH by lia.
  subst tail. simpl in IH |- *. by rewrite IH.
Qed.

Lemma parse_v4_text ip port : length ip = 4%nat → bytes_ok ip → is_u16 port →
  parse_socket_addr (v4_text ip port) = Some (V4 ip port).
Proof.
  intros Hlen Hip Hport. unfold parse_socket_addr, read_socket_addr_v4, read_ipv4_addr, v4_text, ipv4_text.
  pose proof (read_octets_printed ip 0 (colon :: decimal port) Hip) as Hr.
  rewrite Hlen, app_nil_l in Hr. rewrite Hr; [|by intros c [= <-]|by destruct ip]. simpl.
  unfold read_port. simpl. rewrite <- (app_nil_r (decimal port)).
  rewrite read_number_decimal; [done|unfold is_u16, u16_max in *; lia|done|done].
Qed.

(** ** IPv6 addresses are read as they are printed *)

Lemma to_digit_hex v : 0 <= v < 16 → to_digit 16 (hex_digit v) = Some v.
Proof.
  intros Hv. unfold hex_digit, to_digit.
  destruct (Z.ltb_spec v 10); repeat case_match;
    rewrite ?Bool.andb_true_iff, ?Bool.andb_false_iff, ?Z.leb_le, ?Z.leb_gt, ?Z.ltb_lt, ?Z.ltb_ge in *;
    f_equal; lia.
Qed.

Lemma hex_go_spec fuel n acc : 0 <= n < 16 ^ Z.of_nat fuel → (0 < fuel)%nat →
  ∃ vs, hex_go fuel n acc = (hex_digit <$> vs) ++ acc ∧ Forall (λ v, 0 <= v < 16) vs
        ∧ foldl (λ x v, x * 16 + v) 0 vs = n ∧ (1 ≤ length vs ≤ fuel)%nat.
Proof.
  revert n acc. induction fuel as [|fuel IH]; intros n acc Hn Hf; [lia|]. cbn [hex_go].
  pose proof (Z.mod_pos_bound n 16 ltac:(lia)). pose proof (Z.div_mod n 16 ltac:(lia)).
  destruct (Z.ltb_spec n 16) as [Hlt|Hge].
  - exists [n mod 16]. split_and!; [done|by constructor| |done|simpl; lia].
    simpl. rewrite Z.mod_small; lia.
  - rewrite Nat2Z.inj_succ, Z.pow_succ_r in Hn by lia.
    destruct (IH (n / 16) (hex_digit (n mod 16) :: acc)) as (vs & -> & Hvs & Hval & Hlen).
    { split; [apply Z.div_pos; lia|apply Z.div_lt_upper_bound; lia]. }
    { destruct fuel; [simpl in Hn; lia|lia]. }
    exists (vs ++ [n mod 16]). rewrite fmap_app, <- app_assoc, foldl_app, length_app, Hval.
    split_and!; [done|by apply Forall_app; split; [|constructor]|simpl; lia|lia|simpl; lia].
Qed.

(** The text does not begin with a hexadecimal digit or a dot. *)
Definition stop (rest : bytes) : Prop :=
  ∀ c, head rest = Some c → to_digit 16 c = None ∧ c ≠ full_stop.

Lemma number_loop_hex max m vs rest acc count :
  Forall (λ v, 0 <= v < 16) vs → stop rest → (count + length vs ≤ m)%nat →
  number_loop 16 max (Some m) acc count ((hex_digit <$> vs) ++ rest)
  = Some (foldl (λ x v, x * 16 + v) acc vs, (count + length vs)%nat, rest).
Proof.
  intros Hvs Hr. revert acc count. induction Hvs as [|v vs Hv _ IH]; intros acc count Hm; simpl.
  - rewrite Nat.add_0_r. destruct rest as [|c rest]; [done|]. simpl. by rewrite (proj1 (Hr c eq_refl)).
  - rewrite to_digit_hex by done. simpl in Hm. rewrite bool_decide_eq_false_2 by lia.
    rewrite IH by lia. do 3 f_equal. lia.
Qed.

Lemma read_hex g rest : is_u16 g → stop rest →
  read_number 16 65535 (Some 4%nat) true (hex g ++ rest) = Some (g, rest).
Proof.
  intros Hg Hr. unfold is_u16 in Hg.
  destruct (hex_go_spec 4 g []) as (vs & E & Hvs & Hval & Hlen); [simpl; lia|lia|].
  unfold hex. rewrite E, app_nil_r. unfold read_number.
  rewrite number_loop_hex by (done || lia). simpl. rewrite Hval.
  rewrite bool_decide_eq_false_2 by lia. by rewrite (proj2 (Z.ltb_ge 65535 g)) by lia.
Qed.

(** The characters of a group are neither dots nor colons. *)
Lemma hex_chars g : is_u16 g → hex g ≠ [] ∧ Forall (λ c, c ≠ full_stop) (hex g).
Proof.
  intros Hg. unfold is_u16 in Hg.
  destruct (hex_go_spec 4 g []) as (vs & E & Hvs & _ & Hlen); [simpl; lia|lia|].
  unfold hex. rewrite E, app_nil_r. split; [by destruct vs; simpl in *; [lia|]|].
  apply Forall_fmap. revert Hvs. apply Forall_impl. intros v Hv. unfold compose, hex_digit, full_stop.
  destruct (v <? 10); lia.
Qed.

Lemma dec_is_hex c : to_digit 16 c = None → ¬ is_dec c.
Proof.
  unfold to_digit, is_dec. intros Hn Hc.
  rewrite (proj2 (Z.leb_le 48 c)), (proj2 (Z.leb_le c 57)) in Hn by lia. simpl in Hn.
  by rewrite (proj2 (Z.ltb_lt (c - 48) 16)) in Hn by lia.
Qed.

(** A number needs a dot behind it to begin an IPv4 address. *)
Lemma no_ipv4 w rest : Forall (λ c, c ≠ full_stop) w → stop rest → read_ipv4_addr (w ++ rest) = None.
Proof.
  intros Hw Hr. unfold read_ipv4_addr. cbn [read_octets].
  destruct (read_separator full_stop 0 _ _) as [[v s]|] eqn:E; [|done].
  apply read_number_consumes in E as (ds & Heq & Hds). cbn [mbind option_bind].
  destruct (read_separator full_stop 1 _ s) as [[v' s']|] eqn:E; [|done]. exfalso.
  destruct s as [|c s]; [done|]. unfold read_separator in E. simpl in E. destruct (Z.eqb_spec c full_stop) as [->|]; [|done].
  clear v v' E. revert w Hw Heq. induction Hds as [|d ds Hd _ IH]; intros w Hw Heq.
  - destruct w as [|c w]; [|inversion Hw; subst; simplify_eq/=; done].
    simpl in Heq. subst rest. by destruct (Hr full_stop eq_refl).
  - destruct w as [|c w].
    + simpl in Heq. subst rest. destruct (Hr d eq_refl) as [Hn _]. by apply dec_is_hex in Hn.
    + injection Heq as -> Heq. inversion Hw; subst. by apply (IH w).
Qed.

(** No further group follows: neither a group nor a colon with a group. *)
Definition ends_groups (rest : bytes) : Prop :=
  stop rest ∧ (head rest = Some colon → stop (tail rest)).

Lemma number_stop rest : stop rest → read_number 16 65535 (Some 4%nat) true rest = None.
Proof.
  intros Hr. unfold read_number. destruct rest as [|c rest]; [done|]. simpl.
  by rewrite (proj1 (Hr c eq_refl)).
Qed.

Lemma no_group {A} (inner : parser A) i rest :
  (∀ s, stop s → inner s = None) → ends_groups rest → read_separator colon i inner rest = None.
Proof.
  intros Hi [Hs Hc]. unfold read_separator. case_bool_decide; [|by apply Hi].
  destruct rest as [|c rest]; [done|]. simpl. destruct (Z.eqb_spec c colon) as [->|]; [|done].
  simpl. by apply Hi, Hc.
Qed.

(** The groups behind the index [i], with the colon that separates them. *)
Definition groups_text (i : nat) (gs : list Z) : bytes :=
  match gs with
  | [] => []
  | _ => (if bool_decide (0 < i)%nat then [colon] else []) ++ fmt_subslice gs
  end.

Lemma groups_text_cons i g gs :
  groups_text i (g :: gs)
  = (if bool_decide (0 < i)%nat then [colon] else []) ++ hex g ++ groups_text (Datatypes.S i) gs.
Proof. unfold groups_text, fmt_subslice. destruct gs; simpl; by rewrite ?app_nil_r. Qed.

Lemma groups_text_stop i gs rest : (0 < i)%nat → stop rest → stop (groups_text i gs ++ rest).
Proof.
  intros Hi Hr. destruct gs as [|g gs]; [done|]. rewrite groups_text_cons, bool_decide_eq_true_2 by done.
  by intros c [= <-].
Qed.

Lemma read_separator_at {A} (inner : parser A) i s :
  read_separator colon i inner ((if bool_decide (0 < i)%nat then [colon] else []) ++ s) = inner s.
Proof. unfold read_separator. by case_bool_decide. Qed.

Lemma read_groups_printed gs left i rest :
  Forall is_u16 gs → stop rest → length gs = left ∨ (length gs < left)%nat ∧ ends_groups rest →
  read_groups left i (groups_text i gs ++ rest) = (gs, false, rest).
Proof.
  intros Hgs Hr. revert left i. induction Hgs as [|g gs Hg Hgs IH]; intros left i Hl.
  - destruct left as [|left]; [done|]. destruct Hl as [Hl|[_ He]]; [done|].
    cbn [read_groups groups_text app].
    rewrite (no_group (read_number 16 65535 (Some 4%nat) true)) by (done || apply number_stop).
    case_bool_decide; [|done]. rewrite (no_group read_ipv4_addr); [done| |done].
    intros s Hs. by apply (no_ipv4 []).
  - destruct left as [|left]; [simpl in Hl; lia|]. cbn [read_groups].
    rewrite groups_text_cons, <- !app_assoc, !read_separator_at.
    pose proof (groups_text_stop (Datatypes.S i) gs rest ltac:(lia) Hr) as Hs.
    rewrite no_ipv4 by (done || by apply hex_chars). rewrite read_hex by done.
    rewrite IH by (simpl in Hl; lia || (destruct Hl as [Hl|[Hl He]]; [left|right; split; [|done]]; simpl in Hl; lia)).
    by destruct (bool_decide _).
Qed.

(** The span holds zero groups of the address only. *)
Definition zero_span (segments : list Z) (sp : Span) : Prop :=
  ∀ k, (start sp ≤ k < start sp + len sp)%nat → segments !! k = Some 0.

Lemma longest_zeroes_spec segments pre suf current longest :
  segments = pre ++ suf → zero_span segments current → zero_span segments longest →
  len current = 0%nat ∨ (start current + len current = length pre)%nat →
  zero_span segments (longest_zeroes (length pre) current longest suf).
Proof.
  revert pre current longest. induction suf as [|g suf IH]; intros pre cur lon Hs Hc Hl He; [done|].
  cbn [longest_zeroes].
  set (cur' := if g =? 0 then _ else _).
  assert (zero_span segments cur' ∧ (len cur' = 0%nat ∨ start cur' + len cur' = Datatypes.S (length pre))%nat)
    as [Hc' He'].
  { subst cur'. destruct (Z.eqb_spec g 0) as [->|]; [|split; [intros k Hk; simpl in Hk; lia|by left]].
    split; [|right; simpl; case_bool_decide; lia]. intros k Hk. simpl in Hk.
    destruct (decide (k = length pre)) as [->|].
    - rewrite Hs. by apply list_lookup_middle.
    - apply Hc. case_bool_decide; lia. }
  replace (Datatypes.S (length pre)) with (length (pre ++ [g])) by (rewrite length_app; simpl; lia).
  apply IH; [by rewrite <- app_assoc|done|by case_bool_decide|].
  rewrite length_app. simpl. destruct He'; [by left|right; lia].
Qed.

Lemma zero_span_split segments sp : zero_span segments sp → (0 < len sp)%nat →
  (start sp + len sp ≤ length segments)%nat
  ∧ segments = take (start sp) segments ++ replicate (len sp) 0 ++ drop (start sp + len sp) segments.
Proof.
  intros Hz Hl.
  assert (start sp + len sp ≤ length segments)%nat as Hle.
  { pose proof (Hz (start sp + len sp - 1)%nat ltac:(lia)) as Hk. apply lookup_lt_Some in Hk. lia. }
  split; [done|]. rewrite <- (take_drop (start sp) segments) at 1. f_equal.
  rewrite <- (take_drop (len sp) (drop (start sp) segments)) at 1. rewrite drop_drop. f_equal.
  apply (list_eq_same_length _ _ (len sp)); [by rewrite length_replicate|rewrite length_take, length_drop; lia|].
  intros k x y Hk. rewrite lookup_take_lt, lookup_drop, lookup_replicate_2 by lia.
  rewrite Hz by lia. congruence.
Qed.

Lemma stop_colons s : ends_groups (colon :: colon :: s).
Proof. split; [by intros c [= <-]|]. by intros _ c [= <-]. Qed.

Lemma read_colons s : read_ipv6_addr (colon :: colon :: s)
  = let '(tail, _, s) := read_groups 7 0 s in
    Some (replicate (8 - length tail) 0 ++ tail, s).
Proof.
  unfold read_ipv6_addr. pose proof (stop_colons s) as He.
  assert (read_groups 8 0 (colon :: colon :: s) = ([], false, colon :: colon :: s)) as ->.
  { apply (read_groups_printed []); [done|by destruct He|right; split; [simpl; lia|done]]. }
  simpl. destruct (read_groups 7 0 s) as [[tail v4] s']. by destruct (length tail).
Qed.

(** A left out run of zeroes between two lists of groups. *)
Lemma read_compressed hd tl n rest :
  Forall is_u16 hd → Forall is_u16 tl → (0 < n)%nat → (length hd + n + length tl = 8)%nat →
  ends_groups rest →
  read_ipv6_addr (fmt_subslice hd ++ colon :: colon :: fmt_subslice tl ++ rest)
  = Some (hd ++ replicate n 0 ++ tl, rest).
Proof.
  intros Hhd Htl Hn Hlen He. unfold read_ipv6_addr.
  assert (∀ gs, fmt_subslice gs = groups_text 0 gs) as Ht by (by intros []).
  rewrite !Ht. pose proof (stop_colons (groups_text 0 tl ++ rest)) as Hc.
  rewrite read_groups_printed; [|done|by destruct Hc|right; split; [lia|done]].
  rewrite bool_decide_eq_false_2 by lia. unfold read_given_char. rewrite Z.eqb_refl.
  cbn [mbind option_bind]. rewrite Z.eqb_refl. cbn [mbind option_bind].
  rewrite read_groups_printed; [|done|by destruct He|destruct (decide (n = 1%nat)); [left; lia|right; split; [lia|done]]].
  by replace (8 - length hd - length tl)%nat with n by lia.
Qed.

Lemma read_eight gs rest : Forall is_u16 gs → length gs = 8%nat → stop rest →
  read_ipv6_addr (fmt_subslice gs ++ rest) = Some (gs, rest).
Proof.
  intros Hgs Hl Hr. unfold read_ipv6_addr.
  assert (fmt_subslice gs = groups_text 0 gs) as -> by (by destruct gs).
  rewrite read_groups_printed by (done || by left). by rewrite bool_decide_eq_true_2.
Qed.

Lemma read_embedded left i ip rest : length ip = 4%nat → bytes_ok ip → no_digit rest → (1 < left)%nat →
  read_groups left i ((if bool_decide (0 < i)%nat then [colon] else []) ++ ipv4_text ip ++ rest)
  = ([be_decode (take 2 ip); be_decode (drop 2 ip)], true, rest).
Proof.
  intros Hl Hip Hr Hle. destruct left as [|left]; [lia|]. cbn [read_groups].
  rewrite bool_decide_eq_true_2 by lia. rewrite read_separator_at. unfold read_ipv4_addr, ipv4_text.
  pose proof (read_octets_printed ip 0 rest Hip Hr) as Ho. rewrite Hl, app_nil_l in Ho.
  by rewrite Ho by (by destruct ip).
Qed.

(** One group, then what follows its colon. *)
Lemma read_group_then left g s : is_u16 g →
  read_groups (Datatypes.S left) 0 (hex g ++ colon :: s)
  = let '(gs, ipv4, s) := read_groups left 1 (colon :: s) in (g :: gs, ipv4, s).
Proof.
  intros Hg. cbn [read_groups]. assert (stop (colon :: s)) by (by intros c [= <-]).
  assert (∀ A (inner : parser A) s, read_separator colon 0 inner s = inner s) as Hsep by done.
  rewrite !Hsep, no_ipv4, read_hex by (done || by apply hex_chars).
  by destruct (bool_decide _).
Qed.

Lemma to_ipv4_Some segments ipv4 : Forall is_u16 segments → to_ipv4 segments = Some ipv4 →
  ∃ x, segments = [0; 0; 0; 0; 0; x; be_decode (take 2 ipv4); be_decode (drop 2 ipv4)]
       ∧ (x = 0 ∨ x = 65535) ∧ length ipv4 = 4%nat ∧ bytes_ok ipv4.
Proof.
  unfold to_ipv4. intros Hs E. repeat case_match; simplify_eq. rewrite !Forall_cons_iff in Hs.
  destruct Hs as (_ & _ & _ & _ & _ & _ & Hab & Hcd & _). unfold is_u16 in Hab, Hcd.
  eexists. change (take 2 _) with (put_u16 z5). change (drop 2 _) with (put_u16 z6).
  unfold put_u16. rewrite !be_decode_encode by (simpl; lia).
  split_and!; [done| |done|apply Forall_app; split; apply be_encode_ok].
  match goal with H : (_ || _) = true |- _ => apply orb_true_iff in H; rewrite !Z.eqb_eq in H end. tauto.
Qed.

Lemma read_ipv6_text segments rest : Forall is_u16 segments → length segments = 8%nat →
  ends_groups rest → no_digit rest → read_ipv6_addr (ipv6_text segments ++ rest) = Some (segments, rest).
Proof.
  intros Hs Hl He Hr. unfold ipv6_text.
  case_bool_decide as H0; [subst; apply (read_compressed [] [] 8); simpl; (done || lia)|].
  case_bool_decide as H1.
  { subst. apply (read_compressed [] [1] 7); [done| |lia|done|done].
    constructor; [unfold is_u16; lia|done]. }
  destruct (to_ipv4 segments) as [ip|] eqn:E4.
  - apply to_ipv4_Some in E4 as (x & -> & [-> | ->] & Hip & Hok); [| |done].
    + cbn -[read_ipv6_addr]. rewrite read_colons.
      pose proof (read_embedded 7 0 ip rest Hip Hok Hr ltac:(lia)) as He7.
      simpl app in He7. by rewrite He7.
    + cbn -[read_ipv6_addr hex]. rewrite read_colons, <- app_assoc, <- app_comm_cons.
      rewrite (read_group_then 6) by (unfold is_u16; (done || lia)).
      pose proof (read_embedded 6 1 ip rest Hip Hok Hr ltac:(lia)) as He6.
      rewrite bool_decide_eq_true_2 in He6 by lia. simpl app in He6. by rewrite He6.
  - set (none := {| start := 0; len := 0 |}).
    pose proof (longest_zeroes_spec segments [] segments none none eq_refl) as Hz.
    simpl in Hz. specialize (Hz ltac:(intros k Hk; simpl in Hk; lia) ltac:(intros k Hk; simpl in Hk; lia) ltac:(by left)).
    case_bool_decide as Hlen; [|by apply read_eight; [..|destruct He]].
    apply zero_span_split in Hz as [Hle Heq]; [|lia].
    set (z := longest_zeroes 0 none none segments) in *.
    rewrite <- app_assoc. cbn [app]. rewrite (read_compressed _ _ (len z)); 
      [by rewrite <- Heq|by apply Forall_take|by apply Forall_drop|lia| |done].
    rewrite length_take, length_drop. lia.
Qed.

Lemma parse_v6_text ip port scope_id : length ip = 8%nat → Forall is_u16 ip → is_u16 port →
  0 <= scope_id <= u32_max →
  parse_socket_addr (socket_addr_text (V6 ip port 0 scope_id)) = Some (V6 ip port 0 scope_id).
Proof.
  intros Hl Hip Hport Hsc. unfold parse_socket_addr, socket_addr_text.
  set (rest := (if scope_id =? 0 then [] else 37 :: decimal scope_id) ++ 93 :: colon :: decimal port).
  assert (read_socket_addr_v4 (91 :: ipv6_text ip ++ rest) = None) as -> by done.
  unfold read_socket_addr_v6. cbn [read_given_char]. rewrite Z.eqb_refl. cbn [mbind option_bind].
  assert (ends_groups rest ∧ no_digit rest) as [He Hn].
  { subst rest. unfold ends_groups, stop, no_digit. destruct (scope_id =? 0); split_and!; try done;
      by intros c [= <-]. }
  rewrite read_ipv6_text by done. cbn [mbind option_bind].
  assert (match read_scope_id rest with Some p => p | None => (0, rest) end
          = (scope_id, 93 :: colon :: decimal port)) as ->.
  { subst rest. destruct (Z.eqb_spec scope_id 0) as [->|]; [done|]. unfold read_scope_id. simpl.
    rewrite read_number_decimal; [done|lia|by intros c [= <-]|done]. }
  simpl. rewrite <- (app_nil_r (decimal port)). unfold read_port. simpl.
  rewrite read_number_decimal; [done|unfold is_u16, u16_max in *; lia|done|done].
Qed.

Lemma parse_digits_printed max ds acc : Forall is_dec ds → 0 <= acc →
  foldl (λ x c, x * 10 + (c - 48)) acc ds <= max →
  parse_digits max acc ds = Ok (foldl (λ x c, x * 10 + (c - 48)) acc ds).
Proof.
  intros Hds. revert acc. induction Hds as [|c ds [Hc1 Hc2] Hds IH]; intros acc Ha Hm; [done|].
  simpl in *. unfold is_ascii_digit.
  rewrite (proj2 (Z.leb_le 48 c)), (proj2 (Z.leb_le c 57)) by lia. simpl.
  pose proof (foldl_dec_mono ds (acc * 10 + (c - 48)) Hds ltac:(lia)).
  rewrite (proj2 (Z.ltb_ge max _)) by lia. apply IH; lia.
Qed.

Lemma parse_uint_decimal max n : 0 <= n <= max → parse_uint max (decimal n) = Ok n.
Proof.
  intros Hn. destruct (decimal_printed n ltac:(lia)) as [Hd Hv _ Hne _].
  assert (parse_digits max 0 (decimal n) = Ok n) as Hp.
  { rewrite <- Hv at 2. apply parse_digits_printed; [done|lia|].
    change (dec_val (decimal n) <= max). lia. }
  destruct (decimal n) as [|c ds]; [done|]. inversion_clear Hd as [|?? [Hc1 Hc2] _].
  unfold parse_uint. rewrite (proj2 (Z.eqb_neq c 43)), (proj2 (Z.eqb_neq c 45)) by lia.
  by destruct ds.
Qed.

Lemma decimal_no_colon n : 0 <= n → colon ∉ decimal n.
Proof.
  intros Hn Hin. destruct (decimal_printed n Hn) as [Hd _ _ _ _].
  rewrite list_elem_of_In in Hin. rewrite Forall_forall in Hd. specialize (Hd _ Hin). unfold is_dec, colon in Hd. lia.
Qed.

(** A host name: not empty, no colon or bracket, not only digits and dots. *)
Definition host_name (dn : bytes) : Prop :=
  colon ∉ dn ∧ head dn ≠ Some 91 ∧ ¬ Forall is_v4_char dn.

Lemma host_name_text dn port : host_name dn → is_u16 port →
  from_str (domain_text dn port) = Ok (DomainNameAddress dn port).
Proof.
  intros (Hc & Hb & Hv) [??]. unfold from_str, parse_socket_addr, domain_text.
  rewrite name_not_v4 by done.
  destruct dn as [|c dn]; [by destruct Hv|].
  unfold read_socket_addr_v6. simpl app at 1. cbn [read_given_char].
  destruct (Z.eqb_spec c 91) as [->|]; [done|]. simpl app at 1. cbv beta iota delta [mbind option_bind].
  rewrite (app_comm_cons dn _ c), split_app_sep by done.
  rewrite split_single by (apply decimal_no_colon; lia).
  simpl. rewrite parse_uint_decimal by (unfold u16_max; lia). done.
Qed.

Lemma from_str_safe s : from_str s ≠ Panic.
Proof.
  unfold from_str. destruct (parse_socket_addr s); [done|].
  destruct (split colon s) as [|dn [|port ps]]; [done..|].
  case_bool_decide; [done|]. simpl. by destruct (parse_uint u16_max port).
Qed.

(** The addresses that have a text of their own: a host name must not look like a socket
    address, and the text does not show the flow label of an IPv6 address. *)
Definition text_ok (a : Address) : Prop :=
  match a with
  | SocketAddress (V4 ip port) => length ip = 4%nat ∧ bytes_ok ip ∧ is_u16 port
  | SocketAddress (V6 ip port flowinfo scope_id) =>
    length ip = 8%nat ∧ Forall is_u16 ip ∧ is_u16 port ∧ flowinfo = 0 ∧ 0 <= scope_id <= u32_max
  | DomainNameAddress dn port => host_name dn ∧ is_u16 port
  end.

Lemma from_str_fmt a : text_ok a → from_str (Address_fmt a) = Ok a.
Proof.
  intros Ha. destruct a as [[ip port|ip port flow scope_id]|dn port]; simpl in Ha.
  - destruct Ha as (Hl & Hip & Hp). unfold from_str, Address_fmt, socket_addr_text. by rewrite parse_v4_text.
  - destruct Ha as (Hl & Hip & Hp & -> & Hs). unfold from_str, Address_fmt. by rewrite parse_v6_text.
  - destruct Ha. by apply host_name_text.
Qed.

(** ** Properties *)

(** C36: addresses are read as they are written.  The text that is displayed for an IPv4 or
    IPv6 socket address, with zero groups left out, an embedded IPv4 address or a scope, or
    for a host name with a port, is read as that address. *)
Theorem address_text_roundtrip (a : Address) (Ha : text_ok a) : from_str (Address_fmt a) = Ok a.
Proof. by apply from_str_fmt. Qed.

(** example.com:8388 and [2001:db8::1:0:0:1]:443 *)
Definition example_host : bytes := [101; 120; 97; 109; 112; 108; 101; 46; 99; 111; 109].

Lemma example_host_name : host_name example_host.
Proof.
  split_and!; [by apply (bool_decide_unpack _); vm_compute|done|].
  intros Hf. apply Forall_inv in Hf. unfold is_v4_char, is_dec, full_stop in Hf. lia.
Qed.

Definition example_v6 : list Z := [8193; 3512; 0; 0; 1; 0; 0; 1].

Lemma address_text_roundtrip_witness :
  (Address_fmt (SocketAddress (V6 example_v6 443 0 0)),
   from_str (Address_fmt (SocketAddress (V6 example_v6 443 0 0))))
  = ([91; 50; 48; 48; 49; 58; 100; 98; 56; 58; 58; 49; 58; 48; 58; 48; 58; 49; 93; 58; 52; 52; 51],
     Ok (SocketAddress (V6 example_v6 443 0 0))).
Proof.
  rewrite (address_text_roundtrip (SocketAddress (V6 example_v6 443 0 0))); [vm_compute; reflexivity|].
  simpl. unfold is_u16, u32_max. split_and!; [done|repeat constructor; lia|lia|lia|done|lia|lia].
Defined.
