(* ===== verification/ServerConfig.v ===== *)
(** * Server configuration (lib/shadowsocks/src/config.rs)

    The configuration of one server and its two sources: the constructor, which derives
    the key from the password, and SIP002 URLs.  The crates [md5], [base64], [url] and
    [percent_encoding] are the class [ConfigLib]. *)

From Stdlib Require Import SpecFloat Ascii String.
From stdpp Require Import strings.
From S2P Require Import Prelude RustStr Io Address NetAddr Crypto.

(** - [md5]: the digest of the concatenation of the updates;
    - [decode_url], [decode_std]: [decode_config] with [URL_SAFE_NO_PAD] and [STANDARD];
    - [url_parse] and the accessors of [url::Url];
    - [percent_decode s]: the bytes of [percent_decode_str(s)], and [to_lossy] its
      [decode_utf8_lossy]. *)
Class ConfigLib := {
  md5 : bytes → bytes;
  decode_url : bytes → option bytes;
  decode_std : bytes → option bytes;
  Url : Type;
  UrlError : Type;
  url_parse : bytes → Url + UrlError;
  scheme : Url → bytes;
  username : Url → bytes;
  url_password : Url → option bytes;
  host_str : Url → option bytes;
  url_port : Url → option Z;
  fragment : Url → option bytes;
  percent_decode : bytes → bytes;
  to_lossy : bytes → bytes
}.

(** An MD5 digest has 16 bytes; four characters of Base64 give at most three bytes; a host
    is not empty and stands in the text after the scheme and [://]. *)
Class ConfigLibOk `(L : ConfigLib) : Prop := {
  md5_length : ∀ m, length (md5 m) = 16%nat;
  decode_url_length : ∀ s b, decode_url s = Some b → (4 * length b ≤ 3 * length s)%nat;
  host_in_text : ∀ s u h, url_parse s = inl u → host_str u = Some h → is_Some (decode_url h) →
    (0 < length h)%nat ∧ (length h + length (scheme u) + 3 ≤ length s)%nat
}.

Inductive Mode := TcpOnly | UdpOnly | TcpAndUdp.

Definition enable_udp (m : Mode) : bool :=
  match m with UdpOnly | TcpAndUdp => true | _ => false end.
Definition enable_tcp (m : Mode) : bool :=
  match m with TcpOnly | TcpAndUdp => true | _ => false end.

(** Weights are [f32]: the value one is [2^23 * 2^-23]. *)
Record ServerWeight := { tcp_weight : spec_float; udp_weight : spec_float }.

Definition f32_one : spec_float := S754_finite false 8388608 (-23).
Definition ServerWeight_new : ServerWeight := {| tcp_weight := f32_one; udp_weight := f32_one |}.
Definition positive_f32 (x : spec_float) : bool := SFltb (S754_zero false) x.

Record ServerConfig := {
  addr : Address;
  password : bytes;
  method : CipherKind;
  enc_key : bytes;
  timeout : option Z;
  identity_keys : list bytes;
  remarks : option bytes;
  id : option bytes;
  mode : Mode;
  weight : ServerWeight
}.

Definition key (c : ServerConfig) : bytes := enc_key c.
Definition kind (c : ServerConfig) : CipherKind := method c.
Definition tcp_enabled (c : ServerConfig) : bool :=
  enable_tcp (mode c) && positive_f32 (tcp_weight (weight c)).
Definition udp_enabled (c : ServerConfig) : bool :=
  enable_udp (mode c) && positive_f32 (udp_weight (weight c)).

Definition method_support_eih (m : CipherKind) : bool :=
  match m with
  | AEAD2022_BLAKE3_AES_128_GCM | AEAD2022_BLAKE3_AES_256_GCM => true
  | _ => false
  end.

Section config.
Context `{L : ConfigLib}.

Inductive UrlParseError :=
  | UrlErr (e : UrlError)
  | InvalidScheme
  | InvalidUserInfo
  | MissingHost
  | InvalidAuthInfo
  | InvalidServerAddr
  | InvalidQueryString.

(** [bytes_to_key]: the loop on [offset] with the last digest; [None] if [fuel] runs out.
    The slice [key[offset..offset + amt]] is overwritten. *)
Fixpoint key_loop (fuel : nat) (password : bytes) (last_digest : option bytes) (offset : nat)
    (key : bytes) : option bytes :=
  let key_len := length key in
  if bool_decide (offset < key_len)%nat then
    match fuel with
    | O => None
    | Datatypes.S fuel =>
      let m := match last_digest with Some digest => digest | None => [] end ++ password in
      let digest := md5 m in
      let amt := ((key_len - offset) `min` length digest)%nat in
      let key := take offset key ++ take amt digest ++ drop (offset + amt) key in
      key_loop fuel password (Some digest) (offset + amt) key
    end
  else Some key.

Definition bytes_to_key (password key : bytes) : option bytes :=
  key_loop (length key) password None 0 key.

(** A wrong AEAD-2022 password panics. *)
Definition make_derived_key {E} (kind : CipherKind) (password enc_key : bytes)
  : option (res E bytes) :=
  if is_aead2022 kind then
    Some match decode_std password with
         | Some v => if bool_decide (length v = length enc_key) then Ok v else Panic
         | None => Panic
         end
  else Ok <$> bytes_to_key password enc_key.

Definition password_to_keys {E} (kind : CipherKind) (password : bytes)
  : option (res E (bytes * bytes * list bytes)) :=
  match key_len kind with
  | Ok n =>
    derived ← make_derived_key kind password (replicate n 0);
    Some (enc_key ← derived; Ok (password, enc_key, []))
  | Err e => Some (Err e)
  | Panic => Some Panic
  end.

Definition ServerConfig_new {E} (a : Address) (password : bytes) (method : CipherKind)
  : option (res E ServerConfig) :=
  keys ← password_to_keys method password;
  Some (
    '(password, enc_key, identity_keys) ← keys;
    Ok {| addr := a; password := password; method := method; enc_key := enc_key;
          timeout := None; identity_keys := identity_keys; remarks := None; id := None;
          mode := TcpAndUdp; weight := ServerWeight_new |}).

Definition set_remarks (r : bytes) (c : ServerConfig) : ServerConfig :=
  {| addr := addr c; password := password c; method := method c; enc_key := enc_key c;
     timeout := timeout c; identity_keys := identity_keys c; remarks := Some r; id := id c;
     mode := mode c; weight := weight c |}.

(** [String::from_utf8] *)
Definition utf8_or {E} (e : E) (b : bytes) : res E bytes :=
  if Utf8.from_utf8_ok b then Ok b else Err e.

(** The method and the password of a URL with user information. *)
Definition user_auth (user_info : bytes) (password : option bytes)
  : res UrlParseError (bytes * bytes) :=
  match password with
  | Some password =>
    m ← utf8_or InvalidAuthInfo (percent_decode user_info);
    p ← utf8_or InvalidAuthInfo (percent_decode password);
    Ok (m, p)
  | None =>
    account ← ok_or InvalidUserInfo (decode_url user_info);
    account ← utf8_or InvalidAuthInfo account;
    match splitn2 colon account with
    | (m, Some p) => Ok (m, p)
    | _ => Err InvalidUserInfo
    end
  end.

(** [ServerConfig::from_url] of a URL that is not the legacy form. *)
Definition from_parsed (parsed : Url) : option (res UrlParseError ServerConfig) :=
  let checked :=
    '(m, pwd) ← user_auth (username parsed) (url_password parsed);
    host ← ok_or MissingHost (host_str parsed);
    let port := default 8388 (url_port parsed) in
    addr ← map_err (λ _, InvalidServerAddr) (from_str (host ++ colon :: decimal port));
    method ← match kind_from_str (untext m) with Ok k => Ok k | _ => Panic end;
    Ok (addr, pwd, method) in
  match checked with
  | Ok (addr, pwd, method) =>
    cfg ← ServerConfig_new addr pwd method;
    Some (cfg ← cfg;
          Ok match fragment parsed with
             | Some frag => set_remarks (to_lossy frag) cfg
             | None => cfg
             end)
  | Err e => Some (Err e)
  | Panic => Some Panic
  end.

(** The legacy form hides the whole URL in its host; [None] if [fuel] runs out. *)
Fixpoint from_url (fuel : nat) (encoded : bytes) : option (res UrlParseError ServerConfig) :=
  match fuel with
  | O => None
  | Datatypes.S fuel =>
    match url_parse encoded with
    | inr e => Some (Err (UrlErr e))
    | inl parsed =>
      if negb (bool_decide (scheme parsed = text "ss")) then Some (Err InvalidScheme)
      else if bool_decide (username parsed = []) then
        let body :=
          host ← ok_or MissingHost (host_str parsed);
          b ← ok_or InvalidServerAddr (decode_url host);
          utf8_or InvalidServerAddr b in
        match body with
        | Ok decoded_body => from_url fuel (text "ss://" ++ decoded_body)
        | Err e => Some (Err e)
        | Panic => Some Panic
        end
      else from_parsed parsed
    end
  end.
End config.

(** ** Keys *)

Section keys.
Context `{L : ConfigLib} `{!ConfigLibOk L}.

(** OpenSSL's EVP_BytesToKey with MD5, one round and no salt: the concatenation of [n]
    digests, each of the previous one followed by the password. *)
Fixpoint evp (n : nat) (last password : bytes) : bytes :=
  match n with
  | O => []
  | Datatypes.S n => let d := md5 (last ++ password) in d ++ evp n d password
  end.

Lemma length_evp n last pw : length (evp n last pw) = (16 * n)%nat.
Proof.
  revert last. induction n as [|n IH]; intros last; [done|].
  simpl evp. rewrite length_app, IH, md5_length. lia.
Qed.

Lemma evp_digest n last pw i : (i < n)%nat →
  take 16 (drop (16 * i) (evp n last pw))
  = md5 (match i with O => last | Datatypes.S j => take 16 (drop (16 * j) (evp n last pw)) end ++ pw).
Proof.
  revert last i. induction n as [|n IH]; intros last i Hi; [lia|]. cbn [evp].
  set (d := md5 (last ++ pw)). assert (length d = 16%nat) as Hd by apply md5_length.
  destruct i as [|i].
  - rewrite Nat.mul_0_r, drop_0. by rewrite take_app_length'.
  - replace (16 * Datatypes.S i)%nat with (length d + 16 * i)%nat by lia.
    rewrite drop_app_add, IH by lia. destruct i as [|i].
    + rewrite Nat.mul_0_r, drop_0. by rewrite take_app_length'.
    + replace (16 * Datatypes.S i)%nat with (length d + 16 * i)%nat at 1 by lia.
      by rewrite drop_app_add.
Qed.

Lemma key_loop_evp fuel pw last off key :
  (off ≤ length key)%nat → (length key - off ≤ fuel)%nat →
  key_loop fuel pw last off key
  = Some (take off key ++ take (length key - off)
            (evp fuel match last with Some d => d | None => [] end pw)).
Proof.
  revert last off key. induction fuel as [|fuel IH]; intros last off key Hoff Hf;
    cbn [key_loop]; case_bool_decide as Hlt.
  - lia.
  - replace (length key - off)%nat with 0%nat by lia. by rewrite take_0, app_nil_r, take_ge by lia.
  - set (d := md5 _). assert (length d = 16%nat) as Hd by apply md5_length.
    set (amt := ((length key - off) `min` length d)%nat).
    assert (amt ≤ length key - off ∧ amt ≤ 16 ∧ 0 < amt)%nat as (Ha1 & Ha2 & Ha3) by lia.
    assert (length (take off key) = off) as H1 by (rewrite length_take; lia).
    assert (length (take amt d) = amt) as H2 by (rewrite length_take; lia).
    set (key' := take off key ++ take amt d ++ drop (off + amt) key).
    assert (length key' = length key) as Hk'.
    { subst key'. rewrite !length_app, H1, H2, length_drop. lia. }
    rewrite IH by lia. f_equal. rewrite Hk'. cbn [evp]. fold d.
    subst key'. rewrite app_assoc, take_app_length' by (rewrite length_app, H1, H2; lia).
    rewrite <- app_assoc. f_equal. rewrite take_app, Hd. f_equal.
    + subst amt. rewrite Hd. destruct (Nat.min_spec (length key - off) 16) as [[? ->]|[? ->]];
        [done|]. rewrite !take_ge by lia. done.
    + f_equal. lia.
  - replace (length key - off)%nat with 0%nat by lia. by rewrite take_0, app_nil_r, take_ge by lia.
Qed.

Lemma bytes_to_key_evp pw key :
  bytes_to_key pw key = Some (take (length key) (evp (length key) [] pw)).
Proof. unfold bytes_to_key. by rewrite key_loop_evp, Nat.sub_0_r by lia. Qed.

Definition derived_key (n : nat) (pw : bytes) : bytes := take n (evp n [] pw).

Lemma length_derived_key n pw : length (derived_key n pw) = n.
Proof. unfold derived_key. rewrite length_take, length_evp. lia. Qed.

Lemma config_new {E} a pw k n : key_len (E:=E) k = Ok n →
  ServerConfig_new (E:=E) a pw k
  = Some (Ok {| addr := a; password := pw; method := k; enc_key := derived_key n pw;
                timeout := None; identity_keys := []; remarks := None; id := None;
                mode := TcpAndUdp; weight := ServerWeight_new |}).
Proof.
  intros Hn. unfold ServerConfig_new, password_to_keys. rewrite Hn.
  assert (is_aead2022 k = false) as Hk by (by destruct k).
  unfold make_derived_key. rewrite Hk. rewrite bytes_to_key_evp, length_replicate. done.
Qed.

Lemma config_new_panics {E} a pw k : key_len (E:=E) k = Panic →
  ServerConfig_new (E:=E) a pw k = Some Panic.
Proof. intros Hn. unfold ServerConfig_new, password_to_keys. by rewrite Hn. Qed.

Lemma key_len_cases {E} k : (∃ n, key_len (E:=E) k = Ok n) ∨ key_len (E:=E) k = Panic.
Proof. destruct k; simpl; eauto. Qed.

Lemma config_new_total {E} a pw k : ServerConfig_new (E:=E) a pw k ≠ None.
Proof.
  destruct (key_len_cases (E:=E) k) as [[n Hn]|Hn]; [by rewrite (config_new _ _ _ n)|].
  by rewrite config_new_panics.
Qed.

Lemma from_parsed_total parsed : from_parsed parsed ≠ None.
Proof.
  unfold from_parsed. set (checked := _ ≫= _).
  destruct checked as [[[a pw] k]| |]; [|done|done].
  pose proof (config_new_total (E:=UrlParseError) a pw k).
  by destruct (ServerConfig_new a pw k).
Qed.

Lemma from_url_total fuel s : (length s < fuel)%nat → from_url fuel s ≠ None.
Proof.
  revert s. induction fuel as [|fuel IH]; intros s Hf; [lia|]. cbn [from_url].
  destruct (url_parse s) as [u|] eqn:Eu; [|done].
  case_bool_decide as Hss; [|done]. simpl negb. cbv iota.
  case_bool_decide; [|apply from_parsed_total].
  destruct (host_str u) as [h|] eqn:Eh; [|done]. simpl.
  destruct (decode_url h) as [b|] eqn:Eb; [|done]. simpl. unfold utf8_or.
  destruct (Utf8.from_utf8_ok b); [|done].
  apply IH. destruct (host_in_text s u h Eu Eh (mk_is_Some _ _ Eb)) as [Hh Hl].
  pose proof (decode_url_length h b Eb). rewrite Hss in Hl.
  simpl in Hl |- *. lia.
Qed.
End keys.

(** ** The URLs of the SIP002 format *)

Section sip002.
Context `{L : ConfigLib} `{!ConfigLibOk L}.

(** [auth u m p]: the user information of [u] is a method and a password, either plain and
    percent-encoded or together in Base64. *)
Inductive auth (u : Url) : bytes → bytes → Prop :=
  | auth_plain p :
    url_password u = Some p → Utf8.from_utf8_ok (percent_decode (username u)) = true →
    Utf8.from_utf8_ok (percent_decode p) = true →
    auth u (percent_decode (username u)) (percent_decode p)
  | auth_base64 account m p :
    url_password u = None → decode_url (username u) = Some account →
    Utf8.from_utf8_ok account = true → splitn2 colon account = (m, Some p) →
    auth u m p.

(** [names s m p a f]: the URL [s] names method [m], password [p], address [a] and
    fragment [f], directly or hidden in its host. *)
Inductive names : bytes → bytes → bytes → Address → option bytes → Prop :=
  | names_direct s u m p host a :
    url_parse s = inl u → scheme u = text "ss" → username u ≠ [] → auth u m p →
    host_str u = Some host →
    from_str (host ++ colon :: decimal (default 8388 (url_port u))) = Ok a →
    names s m p a (fragment u)
  | names_hidden s u host body m p a f :
    url_parse s = inl u → scheme u = text "ss" → username u = [] → host_str u = Some host →
    decode_url host = Some body → Utf8.from_utf8_ok body = true →
    names (text "ss://" ++ body) m p a f → names s m p a f.

Definition config_of (n : nat) (a : Address) (p : bytes) (k : CipherKind) (f : option bytes)
  : ServerConfig :=
  {| addr := a; password := p; method := k; enc_key := derived_key n p; timeout := None;
     identity_keys := []; remarks := to_lossy <$> f; id := None; mode := TcpAndUdp;
     weight := ServerWeight_new |}.

(** What a URL that names its parts gives. *)
Definition outcome (m p : bytes) (a : Address) (f : option bytes) (r : res UrlParseError ServerConfig) : Prop :=
  match kind_from_str (untext m) with
  | Ok k => match key_len (E:=UrlParseError) k with
            | Ok n => r = Ok (config_of n a p k f)
            | _ => r = Panic
            end
  | _ => r = Panic
  end.

Lemma user_auth_spec u m p : user_auth (username u) (url_password u) = Ok (m, p) ↔ auth u m p.
Proof.
  unfold user_auth, utf8_or. split.
  - destruct (url_password u) as [pw|] eqn:Ep.
    + repeat case_match; simpl; intros [= <- <-]. by apply auth_plain.
    + destruct (decode_url _) as [ac|] eqn:Ed; [|done]. simpl.
      destruct (Utf8.from_utf8_ok ac) eqn:Eu; [|done]. simpl.
      destruct (splitn2 colon ac) as [m' [p'|]] eqn:Es; [|done]. intros [= <- <-].
      by apply (auth_base64 u ac).
  - intros [pw Hp H1 H2|ac m' p' Hp Hd Hu Hs]; rewrite Hp; [by rewrite H1, H2|].
    rewrite Hd. simpl. rewrite Hu. simpl. by rewrite Hs.
Qed.

Lemma user_auth_safe ui p : user_auth ui p ≠ Panic.
Proof.
  unfold user_auth, utf8_or. destruct p as [p|]; [by repeat case_match|].
  destruct (decode_url ui) as [ac|]; [|done]. simpl.
  destruct (Utf8.from_utf8_ok ac); [|done]. simpl. by repeat case_match.
Qed.

Lemma new_outcome a p k f (m : bytes) : kind_from_str (untext m) = Ok k →
  ∃ r, (cfg ← ServerConfig_new a p k;
        Some (cfg ← cfg; Ok match f with Some fr => set_remarks (to_lossy fr) cfg | None => cfg end))
       = Some r ∧ outcome m p a f r.
Proof.
  intros Hk. unfold outcome. rewrite Hk.
  destruct (key_len_cases (E:=UrlParseError) k) as [[n Hn]|Hn]; rewrite Hn.
  - rewrite (config_new _ _ _ n Hn). simpl. eexists. split; [done|]. by destruct f.
  - rewrite (config_new_panics _ _ _ Hn). simpl. by eexists.
Qed.

Lemma from_parsed_spec u m p host a :
  auth u m p → host_str u = Some host →
  from_str (host ++ colon :: decimal (default 8388 (url_port u))) = Ok a →
  ∃ r, from_parsed u = Some r ∧ outcome m p a (fragment u) r.
Proof.
  intros Ha%user_auth_spec Hh Hf. unfold from_parsed. rewrite Ha. simpl. rewrite Hh. simpl.
  rewrite Hf. simpl.
  destruct (kind_from_str (untext m)) as [k| |] eqn:Ek; [by apply new_outcome| |];
    (exists Panic; split; [done|]; unfold outcome; by rewrite Ek).
Qed.

Lemma from_parsed_inv u r : from_parsed u = Some r →
  (∃ e, r = Err e) ∨ ∃ m p host a, auth u m p ∧ host_str u = Some host
    ∧ from_str (host ++ colon :: decimal (default 8388 (url_port u))) = Ok a
    ∧ outcome m p a (fragment u) r.
Proof.
  intros Hr. destruct (user_auth (username u) (url_password u)) as [[m p]|e|] eqn:Ea.
  - destruct (host_str u) as [host|] eqn:Eh.
    + destruct (from_str (host ++ colon :: decimal (default 8388 (url_port u)))) as [a|e|] eqn:Ef.
      * apply user_auth_spec in Ea. right. exists m, p, host, a. split_and!; try done.
        destruct (from_parsed_spec u m p host a Ea Eh Ef) as (r' & Hr' & ?). by simplify_eq.
      * unfold from_parsed in Hr. rewrite Ea in Hr. simpl in Hr. rewrite Eh in Hr. simpl in Hr.
        rewrite Ef in Hr. simpl in Hr. simplify_eq. eauto.
      * by apply from_str_safe in Ef.
    + unfold from_parsed in Hr. rewrite Ea in Hr. simpl in Hr. rewrite Eh in Hr. simpl in Hr.
      simplify_eq. eauto.
  - unfold from_parsed in Hr. rewrite Ea in Hr. simpl in Hr. simplify_eq. eauto.
  - by apply user_auth_safe in Ea.
Qed.

Lemma from_url_names s m p a f : names s m p a f → ∀ fuel r,
  from_url fuel s = Some r → outcome m p a f r.
Proof.
  induction 1 as [s u m p host a Hu Hs Hn Ha Hh Hf|s u host body m p a f Hu Hs Hn Hh Hd Hb _ IH];
    intros [|fuel] r; try done; cbn [from_url]; rewrite Hu, Hs.
  - rewrite (bool_decide_eq_true_2 (_ = _)) by done. simpl negb. cbv iota.
    rewrite (bool_decide_eq_false_2 (username u = [])) by done.
    destruct (from_parsed_spec u m p host a Ha Hh Hf) as (r' & -> & Ho). by intros [= <-].
  - rewrite (bool_decide_eq_true_2 (text "ss" = _)) by done. simpl negb. cbv iota.
    rewrite (bool_decide_eq_true_2 (username u = [])) by done.
    rewrite Hh. simpl. rewrite Hd. simpl. unfold utf8_or. rewrite Hb. apply IH.
Qed.

Lemma from_url_inv fuel s r : from_url fuel s = Some r →
  (∃ e, r = Err e) ∨ ∃ m p a f, names s m p a f ∧ outcome m p a f r.
Proof.
  revert s. induction fuel as [|fuel IH]; intros s; [done|]. cbn [from_url].
  destruct (url_parse s) as [u|e] eqn:Eu; [|intros [= <-]; eauto].
  case_bool_decide as Hss; simpl negb; cbv iota; [|intros [= <-]; eauto].
  case_bool_decide as Hn.
  - destruct (host_str u) as [h|] eqn:Eh; simpl; [|intros [= <-]; eauto].
    destruct (decode_url h) as [b|] eqn:Eb; simpl; [|intros [= <-]; eauto].
    unfold utf8_or. destruct (Utf8.from_utf8_ok b) eqn:E8; [|intros [= <-]; eauto].
    intros [?|(m & p & a & f & Hnm & Ho)]%IH; [by left|].
    right. exists m, p, a, f. split; [|done]. by apply (names_hidden s u h b).
  - intros [?|(m & p & host & a & Ha & Hh & Hf & Ho)]%from_parsed_inv; [by left|].
    right. exists m, p, a, (fragment u). split; [|done]. by apply (names_direct s u m p host).
Qed.
End sip002.

(** ** Properties *)

(** What a server configuration needs for the connections it opens: a key of the length of
    its cipher, with which every salt gives a stream cipher. *)
Definition usable `{C : CryptoLib} (c : ServerConfig) : Prop :=
  (∃ n, key_len (E:=ErrorKind) (kind c) = Ok n ∧ length (key c) = n)
  ∧ (∀ salt, ∃ ci, Cipher_new (E:=ErrorKind) (kind c) (key c) salt = Ok ci)
  ∧ tcp_enabled c = true ∧ udp_enabled c = true.

Lemma config_of_usable `{C : CryptoLib} `{!CryptoLibOk C} `{L : ConfigLib} `{!ConfigLibOk L}
  n a p k f : key_len (E:=UrlParseError) k = Ok n → usable (config_of n a p k f).
Proof.
  intros Hn. split_and!; [| |done..].
  - exists n. split; [by destruct k; simplify_eq/=|]. apply length_derived_key.
  - intros salt. unfold kind, key. cbn [method enc_key config_of].
    destruct (Cipher_new_wf (E:=ErrorKind) k (derived_key n p) salt) as (ci & Hci & _);
      [by destruct k| |by exists ci]. rewrite length_derived_key. by destruct k; simplify_eq/=.
Qed.

Lemma from_url_result `{C : CryptoLib} `{!CryptoLibOk C} `{L : ConfigLib} `{!ConfigLibOk L}
    (encoded : bytes) :
  ∃ r, from_url (length encoded + 1) encoded = Some r ∧ ∀ c, r = Ok c → usable c.
Proof.
  pose proof (from_url_total (length encoded + 1) encoded ltac:(lia)) as Ht.
  destruct (from_url (length encoded + 1) encoded) as [r|] eqn:Er; [|done].
  exists r. split; [done|]. intros c ->.
  destruct (from_url_inv _ _ _ Er) as [[e ?]|(m & p & a & f & _ & Ho)]; [done|].
  unfold outcome in Ho. destruct (kind_from_str _) as [k| |]; [|done..].
  destruct (key_len k) as [n| |] eqn:En; simplify_eq. by apply config_of_usable.
Qed.

(** C18: the key of a password is the one all Shadowsocks implementations derive: the first
    bytes of OpenSSL's EVP_BytesToKey with MD5, whatever the buffer held; the loop ends
    within as many rounds as the key has bytes. *)
Theorem bytes_to_key_is_evp `{L : ConfigLib} `{!ConfigLibOk L} (password key : bytes) :
  ∃ digests, bytes_to_key password key = Some (take (length key) digests)
    ∧ length digests = (16 * length key)%nat
    ∧ take 16 digests = (if bool_decide (key = []) then [] else md5 password)
    ∧ ∀ i, (i + 1 < length key)%nat →
        take 16 (drop (16 * (i + 1)) digests) = md5 (take 16 (drop (16 * i) digests) ++ password).
Proof.
  exists (evp (length key) [] password). split_and!.
  - apply bytes_to_key_evp.
  - apply length_evp.
  - destruct key as [|b key]; [done|]. simpl. by rewrite take_app_length' by (by rewrite md5_length).
  - intros i Hi. rewrite Nat.add_1_r in *. by rewrite evp_digest by lia.
Qed.

(** C19: reading a URL terminates: the hidden URLs get shorter, so as many rounds as the text
    has characters, and one, are enough; and the configuration that is read, if any, can
    open connections. *)
Theorem from_url_usable `{C : CryptoLib} `{!CryptoLibOk C} `{L : ConfigLib} `{!ConfigLibOk L}
    (encoded : bytes) :
  ∃ r, from_url (length encoded + 1) encoded = Some r
    ∧ ∀ c, r = Ok c → usable c.
Proof. apply from_url_result. Qed.

(** C17: what a URL means.  A configuration is read if and only if the URL names, directly or
    hidden in its host, a supported method, a password and an address, and it is then the
    configuration of those; a URL that names a method that is unknown or has no key length
    panics instead of being refused. *)
Theorem from_url_decides `{L : ConfigLib} `{!ConfigLibOk L} (encoded : bytes) (fuel : nat)
    (Hfuel : (length encoded < fuel)%nat) :
  (∀ c, from_url fuel encoded = Some (Ok c) ↔
    ∃ m p a f k n, names encoded m p a f ∧ kind_from_str (untext m) = Ok k
      ∧ key_len (E:=UrlParseError) k = Ok n ∧ c = config_of n a p k f)
  ∧ (from_url fuel encoded = Some Panic ↔
    ∃ m p a f, names encoded m p a f
      ∧ ∀ k, kind_from_str (untext m) = Ok k → is_aead2022 k = true).
Proof.
  destruct (from_url fuel encoded) as [r|] eqn:Er; [|by apply from_url_total in Er].
  pose proof (λ m p a f H, from_url_names encoded m p a f H fuel r Er) as Hfwd.
  pose proof (from_url_inv _ _ _ Er) as Hinv. unfold outcome in *. split; [intros c|]; split.
  - intros [= ->]. destruct Hinv as [[e ?]|(m & p & a & f & Hn & Ho)]; [done|].
    destruct (kind_from_str _) as [k| |] eqn:Ek; [|done..].
    destruct (key_len k) as [n| |] eqn:En; simplify_eq. eauto 12.
  - intros (m & p & a & f & k & n & Hn & Hk & Hl & ->).
    specialize (Hfwd m p a f Hn). rewrite Hk, Hl in Hfwd. by subst.
  - intros [= ->]. destruct Hinv as [[e ?]|(m & p & a & f & Hn & Ho)]; [done|].
    exists m, p, a, f. split; [done|]. intros k Hk. rewrite Hk in Ho. by destruct k.
  - intros (m & p & a & f & Hn & Hk). specialize (Hfwd m p a f Hn).
    destruct (kind_from_str _) as [k| |]; [|by subst..].
    specialize (Hk k eq_refl). destruct k; try done; simpl in Hfwd; by subst.
Qed.

(** ** A concrete library *)

Module Demo.
(** URLs of the form [ss://user:password@host] and [ss://host]; Base64 whose
    first quarter is filler and whose characters are shifted, and a digest that pads. *)
Record url := { u_user : bytes; u_pass : option bytes; u_host : bytes }.

Definition parse (s : bytes) : url + () :=
  if bool_decide (take 5 s = text "ss://") then
    match splitn2 64 (drop 5 s) with
    | (host, None) => if bool_decide (host = []) then inr ()
                      else inl {| u_user := []; u_pass := None; u_host := host |}
    | (ui, Some host) =>
      if bool_decide (host = []) then inr () else
      let '(user, pass) := splitn2 colon ui in
      inl {| u_user := user; u_pass := pass; u_host := host |}
    end
  else inr ().

Definition unfill (s : bytes) : option bytes :=
  let n := (length s / 4 + 1)%nat in
  if bool_decide (take n s = replicate n 61) then Some ((λ c, c - 128) <$> drop n s) else None.

Definition lib : ConfigLib := {|
  md5 m := take 16 (m ++ replicate 16 0);
  decode_url := unfill;
  decode_std := unfill;
  Url := url;
  UrlError := ();
  url_parse := parse;
  scheme _ := text "ss";
  username := u_user;
  url_password := u_pass;
  host_str u := Some (u_host u);
  url_port _ := None;
  fragment _ := None;
  percent_decode s := s;
  to_lossy s := s
|}.

Lemma splitn2_length c s l r : splitn2 c s = (l, r) →
  (length l + match r with Some r => length r + 1 | None => 0 end = length s)%nat.
Proof.
  revert l r. induction s as [|x s IH]; intros l r; simpl; [by intros [= <- <-]|].
  destruct (x =? c); [intros [= <- <-]; simpl; lia|].
  destruct (splitn2 c s) as [l' r'] eqn:E. intros [= <- <-]. specialize (IH _ _ eq_refl).
  simpl. lia.
Qed.

Global Instance lib_ok : ConfigLibOk lib.
Proof.
  split.
  - intros m. change (length (take 16 (m ++ replicate 16 0)) = 16%nat).
    rewrite length_take, length_app, length_replicate. lia.
  - intros s b. cbn [decode_url lib]. unfold unfill.
    set (n := (length s / 4 + 1)%nat). case_bool_decide; [|done]. intros [= <-]. rewrite length_fmap, length_drop.
    assert (n = length s / 4 + 1)%nat by done. clearbody n.
    pose proof (Nat.div_mod (length s) 4 ltac:(lia)).
    pose proof (Nat.mod_upper_bound (length s) 4 ltac:(lia)). lia.
  - simpl. intros s u h Hp [= <-] _. unfold parse in Hp. case_bool_decide as H5; [|done].
    assert (length s = 5 + length (drop 5 s))%nat as Hs.
    { rewrite <- (take_drop 5 s) at 1. by rewrite H5, length_app. }
    destruct (splitn2 64 (drop 5 s)) as [l r] eqn:E. apply splitn2_length in E.
    destruct r as [r|]; case_bool_decide as Hh; try done;
      [destruct (splitn2 colon l) as [user pass]|]; injection Hp as <-; simpl;
      [destruct r|destruct l]; simpl in *; (done || lia).
Qed.

(** [ss://aes-128-gcm:pw@example.com], and the same hidden in the host. *)
Definition plain : bytes := text "ss://aes-128-gcm:pw@example.com".
Definition hidden : bytes :=
  text "ss://" ++ replicate 9 61 ++ ((λ c, c + 128) <$> text "aes-128-gcm:pw@example.com").

Definition config : ServerConfig :=
  config_of (L:=lib) 16 (DomainNameAddress example_host 8388) (text "pw") AES_128_GCM None.

Example both_read : from_url (L:=lib) 42 plain = Some (Ok config) ∧ from_url (L:=lib) 42 hidden = Some (Ok config).
Proof. split; vm_compute; reflexivity. Qed.

Example unknown_method_panics : from_url (L:=lib) 42 (text "ss://rc4-md5:pw@example.com") = Some Panic.
Proof. vm_compute. reflexivity. Qed.
End Demo.

Lemma bytes_to_key_is_evp_witness : ∃ digests,
  bytes_to_key (L:=Demo.lib) (text "pw") (replicate 32 0) = Some (take 32 digests)
  ∧ length digests = 512%nat ∧ take 16 digests = md5 (ConfigLib:=Demo.lib) (text "pw").
Proof.
  destruct (bytes_to_key_is_evp (L:=Demo.lib) (text "pw") (replicate 32 0)) as (ds & H1 & H2 & H3 & _).
  exists ds. split_and!; [exact H1|exact H2|exact H3].
Defined.

Lemma from_url_usable_witness :
  from_url (L:=Demo.lib) (length Demo.hidden + 1) Demo.hidden = Some (Ok Demo.config)
  ∧ usable (C:=Toy.toy) Demo.config.
Proof.
  destruct (from_url_usable (C:=Toy.toy) (L:=Demo.lib) Demo.hidden) as (r & Hr & Hu).
  assert (from_url (L:=Demo.lib) (length Demo.hidden + 1) Demo.hidden = Some (Ok Demo.config)) as E
    by (vm_compute; reflexivity).
  split; [exact E|]. apply Hu. rewrite E in Hr. by injection Hr.
Defined.

Lemma from_url_decides_witness :
  ∃ m p a f k n, names (L:=Demo.lib) Demo.hidden m p a f ∧ kind_from_str (untext m) = Ok k
    ∧ key_len (E:=@UrlParseError Demo.lib) k = Ok n ∧ Demo.config = config_of (L:=Demo.lib) n a p k f.
Proof.
  apply (from_url_decides (L:=Demo.lib) Demo.hidden 42).
  - apply (bool_decide_unpack _). vm_compute. exact I.
  - vm_compute. reflexivity.
Defined.
