(* ===== verification/Resolver.v ===== *)
(** * Name resolution (lib/resolver/src/lib.rs)

    The crate wraps the resolver of trust-dns, whose [lookup_ip] is the argument of the same
    name: the addresses of a host, or [None] for its error. *)

From S2P Require Import Prelude RustStr Io Address.

Inductive IpAddr := IpV4 (octets : bytes) | IpV6 (segments : list Z).

Definition socket_ip (sa : SocketAddr) : IpAddr :=
  match sa with V4 ip _ => IpV4 ip | V6 segs _ _ _ => IpV6 segs end.

(** [SocketAddr::new] *)
Definition with_port (ip : IpAddr) (port : Z) : SocketAddr :=
  match ip with IpV4 o => V4 o port | IpV6 segs => V6 segs port 0 0 end.

Inductive ResolveError := ResolveFailed.

Module Resolver.
Section resolver.
Context (ask : bytes → option (list IpAddr)).

Definition lookup_ip (host : bytes) : res ResolveError (list IpAddr) :=
  match ask host with Some ips => Ok ips | None => Err ResolveFailed end.

Definition lookup (host : bytes) (port : Z) : res ResolveError (list SocketAddr) :=
  li ← lookup_ip host;
  Ok (list_fmap _ _ (λ ip, with_port ip port) li).

(** The first address; an answer without addresses panics. *)
Definition resolve (host : bytes) (port : Z) : res ResolveError SocketAddr :=
  lu ← lookup_ip host;
  ip ← expect (lu !! 0%nat);
  Ok (with_port ip port).

(** [resolve] picks the head of what [lookup] lists. *)
Lemma resolve_lookup host port sa :
  resolve host port = Ok sa ↔ ∃ sas, lookup host port = Ok (sa :: sas).
Proof.
  unfold resolve, lookup, lookup_ip. destruct (ask host) as [[|ip ips]|]; cbn; split; try done.
  - by intros [? [=]].
  - intros [= <-]. by eexists.
  - by intros [? [= <- _]].
  - by intros [? [=]].
Qed.

Lemma socket_ip_with_port ip port : socket_ip (with_port ip port) = ip.
Proof. by destruct ip. Qed.
End resolver.
End Resolver.
