(* ===== verification/Crypto2022.v ===== *)
(** * Cryptography of AEAD-2022 (lib/shadowsocks/src/crypto/v2, sys/linux.rs)

    The crates [blake3] and [aes] as classes of operations and laws, the cipher of
    datagrams, and the clock that stamps the headers. *)

From S2P Require Import Prelude Crypto.

(** - [blake3_hash m]: [blake3::hash], 32 bytes;
    - [blake3_derive context material n]: [n] bytes of the output of [blake3] in key
      derivation mode ([derive_key] is the first 32);
    - [aes_enc key block], [aes_dec key block]: one block of AES with a key of 16 or 32
      bytes ([Aes128], [Aes256]). *)
Class Crypto2022Lib := {
  blake3_hash : bytes → bytes;
  blake3_derive : bytes → bytes → nat → bytes;
  aes_enc : bytes → bytes → bytes;
  aes_dec : bytes → bytes → bytes
}.

Class Crypto2022LibOk `(M : Crypto2022Lib) : Prop := {
  blake3_hash_length : ∀ m, length (blake3_hash m) = 32%nat;
  blake3_derive_length : ∀ c m n, length (blake3_derive c m n) = n;
  aes_enc_length : ∀ k b, length (aes_enc k b) = length b;
  aes_dec_length : ∀ k b, length (aes_dec k b) = length b;
  aes_dec_enc : ∀ k b, length b = 16%nat → aes_dec k (aes_enc k b) = b
}.

(** The laws can hold: a block "cipher" that reverses the block. *)
Module Toy2022.
Definition toy_digest (m : bytes) (n : nat) : bytes :=
  replicate n (foldr Z.add 0 m mod 256).
Definition toy : Crypto2022Lib :=
  {| blake3_hash m := toy_digest m 32; blake3_derive c m n := toy_digest (c ++ m) n;
     aes_enc _ b := reverse b; aes_dec _ b := reverse b |}.
Lemma toy_ok : Crypto2022LibOk toy.
Proof.
  split; simpl; unfold toy_digest; intros; rewrite ?length_replicate, ?length_reverse;
    auto using reverse_involutive.
Qed.
End Toy2022.

(** ** Lengths

    The code of AEAD-2022 datagrams calls [CipherKind::key_len], [tag_len] and [nonce_len],
    which are [todo!()] for its kinds.  The definitions here are generic in these three
    functions; the program is their instance at [source_lengths], the functions of the
    source ([Crypto.key_len] and so on), where every call panics
    ([UdpSocket.aead2022_panics]).  What does not depend on the lengths is proved for all of
    them.  [LengthsOk] is what the algorithms behind the kinds would need: it is false of the
    source ([source_lengths_not_ok]), and only lemmas about code that is still to be finished
    assume it. *)
Class Lengths := {
  key_len_of : ∀ {E}, CipherKind → res E nat;
  tag_len_of : ∀ {E}, CipherKind → res E nat;
  nonce_len_of : ∀ {E}, CipherKind → res E nat
}.

Definition source_lengths : Lengths :=
  {| key_len_of _ := key_len; tag_len_of _ := tag_len; nonce_len_of _ := nonce_len |}.

(** The kinds that the build without the [v2-extra] features knows, and their algorithms. *)
Definition alg_2022 (kind : CipherKind) : option AeadAlg :=
  match kind with
  | AEAD2022_BLAKE3_AES_128_GCM => Some Gcm128
  | AEAD2022_BLAKE3_AES_256_GCM => Some Gcm256
  | AEAD2022_BLAKE3_CHACHA20_POLY1305 => Some XChaCha
  | _ => None
  end.

Class LengthsOk `(N : Lengths) : Prop := {
  key_len_ok : ∀ E kind a, alg_2022 kind = Some a → key_len_of (E:=E) kind = Ok (alg_key_size a);
  tag_len_ok : ∀ E kind a, alg_2022 kind = Some a → tag_len_of (E:=E) kind = Ok 16%nat;
  nonce_len_ok : ∀ E kind a, alg_2022 kind = Some a →
    nonce_len_of (E:=E) kind = Ok (alg_nonce_size a)
}.

(** The lengths of the protocol. *)
Definition protocol_lengths : Lengths :=
  {| key_len_of _ kind := expect (alg_key_size <$> alg_2022 kind);
     tag_len_of _ kind := expect ((λ _, 16%nat) <$> alg_2022 kind);
     nonce_len_of _ kind := expect (alg_nonce_size <$> alg_2022 kind) |}.
Lemma protocol_lengths_ok : LengthsOk protocol_lengths.
Proof. split; intros E kind a Ha; simpl; by rewrite Ha. Qed.

Lemma source_lengths_not_ok : ¬ LengthsOk source_lengths.
Proof. intros []. by specialize (key_len_ok0 unit AEAD2022_BLAKE3_AES_128_GCM Gcm128 eq_refl). Qed.

(** ** The cipher of datagrams (crypto/v2/udp) *)

(** "shadowsocks 2022 session subkey" *)
Definition BLAKE3_KEY_DERIVE_CONTEXT : bytes :=
  [115; 104; 97; 100; 111; 119; 115; 111; 99; 107; 115; 32; 50; 48; 50; 50; 32; 115; 101;
   115; 115; 105; 111; 110; 32; 115; 117; 98; 107; 101; 121].

Section udp_cipher.
Context `{L : CryptoLib} `{M : Crypto2022Lib} `{N : Lengths}.

Inductive AesGcmCipher :=
  | AesGcm128 (c : AeadCipher)
  | AesGcm256 (c : AeadCipher).

Definition AesGcmCipher_new {E} (kind : CipherKind) (key : bytes) (session_id : Z)
  : res E AesGcmCipher :=
  let key_material := key ++ put_u64 session_id in
  key_len ← key_len_of kind;
  let derived_key := blake3_derive BLAKE3_KEY_DERIVE_CONTEXT key_material key_len in
  match kind with
  | AEAD2022_BLAKE3_AES_128_GCM => c ← aead_new Gcm128 derived_key; Ok (AesGcm128 c)
  | AEAD2022_BLAKE3_AES_256_GCM => c ← aead_new Gcm256 derived_key; Ok (AesGcm256 c)
  | _ => Panic
  end.

Definition gcm_encrypt_packet {E} (c : AesGcmCipher) (salt buf : bytes) : res E bytes :=
  match c with AesGcm128 c => aead_encrypt c salt buf | AesGcm256 c => aead_encrypt c salt buf end.
Definition gcm_decrypt_packet {E} (c : AesGcmCipher) (salt buf : bytes) : res E (bool * bytes) :=
  match c with AesGcm128 c => aead_decrypt c salt buf | AesGcm256 c => aead_decrypt c salt buf end.

Inductive UdpCipherVariant :=
  | AesGcm (c : AesGcmCipher)
  | ChaCha20Poly1305 (c : AeadCipher).

Definition UdpCipherVariant_new {E} (kind : CipherKind) (key : bytes) (session_id : Z)
  : res E UdpCipherVariant :=
  match kind with
  | AEAD2022_BLAKE3_AES_128_GCM | AEAD2022_BLAKE3_AES_256_GCM =>
    c ← AesGcmCipher_new kind key session_id; Ok (AesGcm c)
  | AEAD2022_BLAKE3_CHACHA20_POLY1305 => c ← aead_new XChaCha key; Ok (ChaCha20Poly1305 c)
  | _ => Panic
  end.

Record UdpCipher := { udp_cipher : UdpCipherVariant; udp_kind : CipherKind }.

Definition UdpCipher_new {E} (kind : CipherKind) (key : bytes) (session_id : Z)
  : res E UdpCipher :=
  c ← UdpCipherVariant_new kind key session_id;
  Ok {| udp_cipher := c; udp_kind := kind |}.

Definition encrypt_packet {E} (self : UdpCipher) (salt buf : bytes) : res E bytes :=
  match udp_cipher self with
  | AesGcm c => gcm_encrypt_packet c salt buf
  | ChaCha20Poly1305 c => aead_encrypt c salt buf
  end.
Definition decrypt_packet {E} (self : UdpCipher) (salt buf : bytes) : res E (bool * bytes) :=
  match udp_cipher self with
  | AesGcm c => gcm_decrypt_packet c salt buf
  | ChaCha20Poly1305 c => aead_decrypt c salt buf
  end.

(** ** The key of a session *)

(** ChaCha20 uses the key itself, AES-GCM one derived for the session. *)
Definition session_key (kind : CipherKind) (key : bytes) (session_id : Z) : option AeadCipher :=
  a ← alg_2022 kind;
  Some {| alg := a;
          akey := if a is XChaCha then key
                  else blake3_derive BLAKE3_KEY_DERIVE_CONTEXT (key ++ put_u64 session_id)
                         (alg_key_size a) |}.

Context `{!Crypto2022LibOk M} `{!LengthsOk N}.

Lemma UdpCipher_new_session {E} kind key sid a :
  alg_2022 kind = Some a → length key = alg_key_size a →
  ∃ c k, UdpCipher_new (E:=E) kind key sid = Ok c ∧ session_key kind key sid = Some k
    ∧ alg k = a
    ∧ (∀ F n buf, encrypt_packet (E:=F) c n buf = aead_encrypt k n buf)
    ∧ (∀ F n buf, decrypt_packet (E:=F) c n buf = aead_decrypt k n buf).
Proof.
  intros Ha Hk. unfold UdpCipher_new, UdpCipherVariant_new, session_key. rewrite Ha.
  assert (∀ c m n, length (blake3_derive c m n) = n) as Hd by apply blake3_derive_length.
  destruct kind; try done; unfold AesGcmCipher_new, aead_new;
    try rewrite (key_len_ok E _ _ Ha); injection Ha as <-; cbn [mbind res_bind option_bind];
    rewrite bool_decide_eq_true_2 by (rewrite ?Hd; done); simpl; by do 2 eexists.
Qed.
End udp_cipher.

(** ** The clock *)

(** [clock_gettime(CLOCK_MONOTONIC_COARSE)]: seconds and nanoseconds since boot. *)
Record timespec := { tv_sec : Z; tv_nsec : Z }.
Definition timespec_ok (tp : timespec) : Prop :=
  0 <= tv_sec tp < 2 ^ 32 ∧ 0 <= tv_nsec tp < 1000000000.

Definition get_now_timestamp (tp : timespec) : Z :=
  let sec := wrap_u 64 (tv_sec tp) in
  let nsec := wrap_u 64 (tv_nsec tp) in
  Z.lor (wrap_u 64 (Z.shiftl sec 32)) (Z.shiftr (wrap_u 64 (nsec * 9223372037)) 31).

(** [u64::abs_diff] *)
Definition abs_diff (a b : Z) : Z := Z.abs (a - b).

(** The stamp counts units of 2^-32 seconds since boot. *)
Lemma timestamp_value tp :
  timespec_ok tp →
  get_now_timestamp tp = tv_sec tp * 2 ^ 32 + tv_nsec tp * 9223372037 / 2 ^ 31
  ∧ 0 <= tv_nsec tp * 9223372037 / 2 ^ 31 < 2 ^ 32.
Proof.
  intros [Hs Hn]. unfold get_now_timestamp.
  rewrite (wrap_u_small 64 (tv_sec tp)) by lia. rewrite (wrap_u_small 64 (tv_nsec tp)) by lia.
  rewrite Z.shiftl_mul_pow2 by lia. rewrite (wrap_u_small 64 (_ * 2 ^ 32)) by lia.
  rewrite (wrap_u_small 64 (_ * 9223372037)) by lia. rewrite Z.shiftr_div_pow2 by lia.
  set (lo := tv_nsec tp * 9223372037 / 2 ^ 31).
  assert (0 <= lo < 2 ^ 32) as Hlo.
  { split; [apply Z.div_pos; lia|]. apply Z.div_lt_upper_bound; lia. }
  split; [|done]. rewrite <- Z.add_lor_land.
  enough (Z.land (tv_sec tp * 2 ^ 32) lo = 0) by lia.
  apply Z.bits_inj'. intros i Hi. rewrite Z.land_spec, Z.bits_0.
  destruct (decide (i < 32)).
  - by rewrite Z.mul_pow2_bits_low.
  - rewrite (Z.bits_above_log2 lo), andb_false_r; [done|lia|].
    destruct (decide (lo = 0)) as [->|]; [simpl; lia|].
    assert (Z.log2 lo < 32) by (apply Z.log2_lt_pow2; lia). lia.
Qed.
