(* ===== verification/UdpAead2022.v ===== *)
(** * AEAD-2022 datagrams (lib/shadowsocks/src/udp/aead2022.rs)

      client to server: [session id, packet id], [identity headers],
                        seal(type 0, timestamp, padding, address, payload)
      server to client: [session id, packet id],
                        seal(type 1, timestamp, client session id, padding, address, payload)

    With AES the first two fields are one encrypted block in front of what is sealed, with
    ChaCha20 they are sealed too, behind a nonce.  Ciphers are kept in a cache that the
    thread shares.  The lengths that the source leaves open are the class [Lengths]. *)

From S2P Require Import Prelude RustStr Io Address Crypto Crypto2022 TcpAead UdpAead NetAddr ServerConfig.

Local Open Scope prog_scope.

Definition CLIENT_SOCKET_TYPE : Z := 0.
Definition SERVER_SOCKET_TYPE : Z := 1.
Definition SERVER_PACKET_TIMESTAMP_MAX_DIFF : Z := 30.

Inductive Udp2022Error :=
  | PacketTooShort (expected found : nat)
  | InvalidAddress (e : Socks5.Error)
  | DecryptPayloadError
  | InvalidClientUser (user : bytes)
  | InvalidSocketType (expected found : Z)
  | InvalidTimestamp (timestamp now : Z)
  | IoError (e : ErrorKind).

(** [ServerUser] is never made by the client. *)
Record ServerUser := { user_name : bytes; user_key : bytes; user_identity_hash : bytes }.

Record UdpSocketControlData := {
  client_session_id : Z;
  server_session_id : Z;
  packet_id : Z;
  user : option ServerUser
}.

(** ** The cache of ciphers *)

(** A key as the code refers to it: the address of its bytes, and the bytes. *)
Record KeyRef := { as_ptr : Z; key_bytes : bytes }.

Record CipherKey := { ck_method : CipherKind; ck_key : Z; ck_session_id : Z }.

Global Instance CipherKey_eq_dec : EqDecision CipherKey.
Proof. solve_decision. Defined.

Definition CIPHER_CACHE_LIMIT : nat := Z.to_nat (4 * 1024).

(** The crate [lru_cache]: a map that may drop entries when one is inserted. *)
Class LruCache (K V : Type) := {
  lru : Type;
  lru_new : nat → lru;
  get_mut : K → lru → option V * lru;
  lru_insert : K → V → lru → lru
}.

Class LruCacheOk {K V : Type} (C : LruCache K V) : Prop := {
  get_new : ∀ n k, (get_mut k (lru_new n)).1 = None;
  get_get : ∀ k k' c, (get_mut k' (get_mut k c).2).1 = (get_mut k' c).1;
  get_insert : ∀ k v k' v' c, (get_mut k' (lru_insert k v c)).1 = Some v' →
    (k' = k ∧ v' = v) ∨ (k' ≠ k ∧ (get_mut k' c).1 = Some v')
}.

(** The laws can hold: the most recent entries first, the oldest dropped. *)
Module ListLru.
Section list_lru.
Context {K V : Type} `{EqDecision K}.
Implicit Types (k : K) (v : V) (l : list (K * V)).

Fixpoint find k l : option V :=
  match l with
  | [] => None
  | (k', v) :: l => if decide (k = k') then Some v else find k l
  end.
Definition remove k l : list (K * V) := filter (λ e, e.1 ≠ k) l.

Definition list_lru : LruCache K V := {|
  lru := nat * list (K * V);
  lru_new cap := (cap, []);
  get_mut k c :=
    match find k c.2 with
    | Some v => (Some v, (c.1, (k, v) :: remove k c.2))
    | None => (None, c)
    end;
  lru_insert k v c := (c.1, take c.1 ((k, v) :: remove k c.2))
|}.

Lemma find_remove k k' l : find k' (remove k l) = if decide (k' = k) then None else find k' l.
Proof.
  unfold remove. induction l as [|[k0 v0] l IH]; [by case_decide|].
  rewrite filter_cons. simpl. repeat case_decide; simpl; repeat case_decide; by subst.
Qed.

Lemma find_in_take k v n l : find k (take n l) = Some v → find k l = Some v.
Proof.
  revert n. induction l as [|[k0 v0] l IH]; intros [|n]; simpl; try done.
  case_decide; [done|]. apply IH.
Qed.

Lemma list_lru_ok : LruCacheOk list_lru.
Proof.
  assert (∀ k c, (get_mut (LruCache:=list_lru) k c).1 = find k c.2) as Hg.
  { intros k c. simpl. by destruct (find k c.2). }
  split.
  - intros n k. by rewrite Hg.
  - intros k k' c. rewrite !Hg. simpl. destruct (find k c.2) as [v|] eqn:Ef; [|done]. simpl.
    rewrite find_remove. repeat case_decide; congruence.
  - intros k v k' v' c. rewrite !Hg. simpl. intros H%find_in_take. simpl in H.
    rewrite find_remove in H. repeat case_decide; simplify_eq; auto.
Qed.
End list_lru.
End ListLru.

(** [slice::split_at_mut] *)
Definition split_at {E} (n : nat) (bs : bytes) : res E (bytes * bytes) :=
  if bool_decide (n ≤ length bs)%nat then Ok (take n bs, drop n bs) else Panic.

Section packets.
Context `{L : CryptoLib} `{M : Crypto2022Lib} `{N : Lengths} `{R : LruCache CipherKey UdpCipher}.

Abbreviation cached A := (prog lru Udp2022Error A).

Definition get_cipher (method : CipherKind) (key : KeyRef) (session_id : Z)
  : cached UdpCipher := λ cache,
  let cache_key := {| ck_method := method; ck_key := as_ptr key; ck_session_id := session_id |} in
  match get_mut cache_key cache with
  | (Some cipher, cache) => (Ok cipher, cache)
  | (None, cache) =>
    match UdpCipher_new method (key_bytes key) session_id with
    | Ok cipher => (Ok cipher, lru_insert cache_key cipher cache)
    | Err e => (Err e, cache)
    | Panic => (Panic, cache)
    end
  end.

(** ** AES blocks: [Aes128::new_from_slice(key).expect(..)], [Block::from_mut_slice] and
    one operation on the block. *)
Definition aes_block {E} (op : bytes → bytes → bytes) (kind : CipherKind) (key block : bytes)
  : res E bytes :=
  size ← match kind with
         | AEAD2022_BLAKE3_AES_128_GCM => Ok 16%nat
         | AEAD2022_BLAKE3_AES_256_GCM => Ok 32%nat
         | _ => Panic
         end;
  _ ← assert_ (bool_decide (length key = size));
  _ ← assert_ (bool_decide (length block = 16%nat));
  Ok (op key block).

(** The two arms of [encrypt_message]: a nonce in front of the packet, or a header block. *)
Definition encrypt_chacha (kind : CipherKind) (key : KeyRef) (packet : bytes) (session_id : Z)
  : cached bytes :=
  let nonce_size := alg_nonce_size XChaCha in
  do! cipher := get_cipher kind key session_id in
  do! '(nonce, message) := slift (split_at nonce_size packet) in
  do! message := slift (encrypt_packet cipher nonce message) in
  sret (nonce ++ message).

Definition encrypt_gcm (kind : CipherKind) (ipsk : bytes) (key : KeyRef) (packet : bytes)
    (session_id : Z) (eih_len : nat) : cached bytes :=
  do! cipher := get_cipher kind key session_id in
  do! '(packet_header, message) := slift (split_at 16 packet) in
  do! nonce := slift (slice packet_header 4 16) in
  do! '(eih, message) := slift (split_at eih_len message) in
  do! message := slift (encrypt_packet cipher nonce message) in
  do! packet_header := slift (aes_block aes_enc kind ipsk packet_header) in
  sret (packet_header ++ eih ++ message).

(** [packet] without the spare capacity that the tag goes into; its contents before
    [encrypt_packet] are immaterial. *)
Definition encrypt_message (kind : CipherKind) (ipsk : bytes) (key : KeyRef) (packet : bytes)
    (session_id : Z) (eih_len : nat) : cached bytes :=
  do! tag_len := slift (tag_len_of kind) in
  let packet := packet ++ replicate tag_len 0 in
  match kind with
  | AEAD2022_BLAKE3_CHACHA20_POLY1305 => encrypt_chacha kind key packet session_id
  | AEAD2022_BLAKE3_AES_128_GCM | AEAD2022_BLAKE3_AES_256_GCM =>
    encrypt_gcm kind ipsk key packet session_id eih_len
  | _ => slift Panic
  end.

(** The packet, decrypted in place. *)
Definition decrypt_chacha (method : CipherKind) (key : KeyRef) (packet : bytes) : cached bytes :=
  let nonce_size := alg_nonce_size XChaCha in
  do! '(nonce, message) := slift (split_at nonce_size packet) in
  do! session_id_buf := slift (slice message 0 8) in
  let session_id := be_decode session_id_buf in
  do! cipher := get_cipher method key session_id in
  do! '(ok, message) := slift (decrypt_packet cipher nonce message) in
  if negb ok then sfail DecryptPayloadError else sret (nonce ++ message).

Definition decrypt_gcm (method : CipherKind) (key : KeyRef) (packet : bytes) : cached bytes :=
  do! '(packet_header, message) := slift (split_at 16 packet) in
  do! packet_header := slift (aes_block aes_dec method (key_bytes key) packet_header) in
  do! session_id_buf := slift (slice packet_header 0 8) in
  let session_id := be_decode session_id_buf in
  do! cipher := get_cipher method key session_id in
  do! nonce := slift (slice packet_header 4 16) in
  do! '(ok, message) := slift (decrypt_packet cipher nonce message) in
  if negb ok then sfail DecryptPayloadError else sret (packet_header ++ message).

Definition decrypt_message (method : CipherKind) (key : KeyRef) (packet : bytes) : cached bytes :=
  match method with
  | AEAD2022_BLAKE3_CHACHA20_POLY1305 => decrypt_chacha method key packet
  | AEAD2022_BLAKE3_AES_128_GCM | AEAD2022_BLAKE3_AES_256_GCM => decrypt_gcm method key packet
  | _ => slift Panic
  end.

Definition get_nonce_len {E} (method : CipherKind) : res E nat :=
  match method with
  | AEAD2022_BLAKE3_AES_128_GCM | AEAD2022_BLAKE3_AES_256_GCM => Ok 0%nat
  | AEAD2022_BLAKE3_CHACHA20_POLY1305 => nonce_len_of method
  | _ => Panic
  end.

(** ** Requests *)

(** One extensible identity header. *)
Definition make_eih {E} (method : CipherKind) (ipsk ipskn session_id_packet_id : bytes)
  : res E bytes :=
  let ipskn_hash := blake3_hash ipskn in
  plain_text ← slice ipskn_hash 0 16;
  aes_block aes_enc method ipsk (zip_with Z.lxor plain_text session_id_packet_id).

(** [for (ipsk, ipskn) in ..]: appends one header per identity key; the key that follows the
    last of them is the one of the user. *)
Fixpoint eih_loop {E} (kind : CipherKind) (nonce_size : nat) (keys : list (bytes * bytes))
    (dst : bytes) : res E bytes :=
  match keys with
  | [] => Ok dst
  | (ipsk, ipskn) :: keys =>
    session_id_packet_id ← slice dst nonce_size (nonce_size + 16);
    identity_header ← make_eih kind ipsk ipskn session_id_packet_id;
    eih_loop kind nonce_size keys (dst ++ identity_header)
  end.

(** What a call draws from outside: the fills and the number of the generators, the reading
    of the clock, and what fresh memory holds. *)
Record Draws := {
  fills : list bytes;
  random : Z;
  clock : Z;
  fresh : nat → bytes
}.

(** lib.rs *)
Definition AEAD2022_MAX_PADDING_SIZE : Z := 900.
Definition get_aead_2022_padding_size (d : Draws) (payload : bytes) : nat :=
  match payload with
  | [] => Z.to_nat (random d mod AEAD2022_MAX_PADDING_SIZE)
  | _ => 0
  end.

(** From the header fields on; [dst] starts with the nonce. *)
Definition fill_client_packet (d : Draws) (kind : CipherKind) (key : KeyRef) (addr : Address)
    (control : UdpSocketControlData) (identity_keys : list bytes) (payload : bytes)
    (nonce_size padding_size : nat) (dst : bytes) : cached bytes :=
  let require_eih := method_support_eih kind && negb (bool_decide (identity_keys = [])) in
  let eih_size := if require_eih then (length identity_keys * 16)%nat else 0%nat in
  let dst := dst ++ put_u64 (client_session_id control) ++ put_u64 (packet_id control) in
  do! dst := slift (if require_eih
                    then eih_loop kind nonce_size
                           (zip identity_keys (tail identity_keys ++ [key_bytes key])) dst
                    else Ok dst) in
  let dst := dst ++ be_encode 1 CLIENT_SOCKET_TYPE ++ put_u64 (clock d)
                 ++ put_u16 (Z.of_nat padding_size) in
  let dst := dst ++ fresh d padding_size in
  do! dst := slift (write_to_buf addr dst) in
  let dst := dst ++ payload in
  let ipsk := match identity_keys with [] => key_bytes key | ipsk :: _ => ipsk end in
  encrypt_message kind ipsk key dst (client_session_id control) eih_size.

(** [None] when the generator gave no nonce. *)
Definition encrypt_client_payload_aead_2022 (d : Draws) (kind : CipherKind) (key : KeyRef)
    (addr : Address) (control : UdpSocketControlData) (identity_keys : list bytes)
    (payload dst : bytes) (cache : lru) : option (res Udp2022Error bytes * lru) :=
  let padding_size := get_aead_2022_padding_size d payload in
  match (nonce_size ← get_nonce_len kind; _ ← tag_len_of kind; Ok nonce_size) with
  | Ok nonce_size =>
    let grown := if bool_decide (0 < nonce_size)%nat then dst ++ fresh d nonce_size else dst in
    nonce ← (if bool_decide (0 < nonce_size)%nat
             then generate_nonce (fills d) kind (take nonce_size grown) else Some []);
    Some (fill_client_packet d kind key addr control identity_keys payload nonce_size padding_size
            (nonce ++ drop nonce_size grown) cache)
  | Err e => Some (Err e, cache)
  | Panic => Some (Panic, cache)
  end.

(** ** Responses *)

(** The fields of the decrypted packet: the payload with its position, the address and the
    control data. *)
Definition parse_server_packet (now : Z) (data : bytes)
  : res Udp2022Error (nat * Address * UdpSocketControlData) :=
  '(server_session_id, rd) ← get_uint 8 data;
  '(packet_id, rd) ← get_uint 8 rd;
  '(socket_type, rd) ← get_uint 1 rd;
  _ ← fail_if (negb (socket_type =? SERVER_SOCKET_TYPE))
              (InvalidSocketType SERVER_SOCKET_TYPE socket_type);
  '(timestamp, rd) ← get_uint 8 rd;
  _ ← fail_if (SERVER_PACKET_TIMESTAMP_MAX_DIFF <? abs_diff now timestamp)
              (InvalidTimestamp timestamp now);
  '(client_session_id, rd) ← get_uint 8 rd;
  '(padding_size, rd) ← get_uint 2 rd;
  let rd := drop (Z.to_nat padding_size) rd in
  let control := {| client_session_id := client_session_id;
                    server_session_id := server_session_id;
                    packet_id := packet_id; user := None |} in
  '(addr, rd) ← map_err InvalidAddress (read_from (cursor rd));
  let payload_start := (length data - length (avail rd))%nat in
  Ok (payload_start, addr, control).

(** The length of the payload, the address and the control data, and the buffer with the
    payload at its front. *)
Definition decrypt_server_payload_aead_2022 (now : Z) (kind : CipherKind) (key : KeyRef)
    (payload : bytes) : cached (nat * Address * UdpSocketControlData * bytes) :=
  do! nonce_len := slift (get_nonce_len kind) in
  do! tag_len := slift (tag_len_of kind) in
  let header_len := (nonce_len + tag_len + 8 + 8 + 1 + 8 + 2)%nat in
  if bool_decide (length payload < header_len)%nat
  then sfail (PacketTooShort header_len (length payload)) else
  do! payload := decrypt_message kind key payload in
  do! data := slift (slice payload nonce_len (length payload - tag_len)) in
  do! '(payload_start, addr, control) := slift (parse_server_packet now data) in
  let payload_len := (length data - payload_start)%nat in
  do! moved := slift (slice payload (nonce_len + payload_start)
                        (nonce_len + payload_start + payload_len)) in
  sret (payload_len, addr, control, moved ++ drop payload_len payload).
End packets.

(** ** The reference decoders *)

Section reference.
Context `{L : CryptoLib} `{M : Crypto2022Lib}.

(** The header of a packet (16 bytes) and what is sealed with it, if the packet is
    authentic; [skip] bytes of identity headers stand before the sealed part. *)
Definition opened_packet (kind : CipherKind) (header_key key : bytes) (skip : nat)
    (packet : bytes) : option bytes :=
  match alg_2022 kind with
  | Some XChaCha =>
    k ← session_key kind key 0;
    aead_opened k (take 24 packet) (drop 24 packet)
  | Some _ =>
    let header := aes_dec header_key (take 16 packet) in
    k ← session_key kind key (be_decode (take 8 header));
    body ← aead_opened k (drop 4 header) (drop (16 + skip) packet);
    Some (header ++ body)
  | None => None
  end.

(** Every identity header is, for the server that holds the identity key, the name of the
    next key. *)
Fixpoint names (header : bytes) (keys : list (bytes * bytes)) (eihs : bytes) : bool :=
  match keys with
  | [] => true
  | (ipsk, ipskn) :: keys =>
    bool_decide (zip_with Z.lxor (aes_dec ipsk (take 16 eihs)) header = take 16 (blake3_hash ipskn))
    && names header keys (drop 16 eihs)
  end.

Record request := {
  req_session : Z;
  req_packet : Z;
  req_time : Z;
  req_addr : Address;
  req_payload : bytes
}.

(** What the plaintext of a request says. *)
Definition request_of (data : bytes) : option request :=
  let body := drop 16 data in
  let padding := Z.to_nat (be_decode (take 2 (drop 9 body))) in
  if bool_decide (take 1 body = [0]) then
    match read_from (cursor (drop (11 + padding) body)) with
    | Ok (addr, rest) =>
      Some {| req_session := be_decode (take 8 data);
              req_packet := be_decode (take 8 (drop 8 data));
              req_time := be_decode (take 8 (drop 1 body));
              req_addr := addr; req_payload := avail rest |}
    | _ => None
    end
  else None.

(** What a server with the keys reads from a packet of a client. *)
Definition server_reads (kind : CipherKind) (identity_keys : list bytes) (key packet : bytes)
  : option request :=
  let ids := if method_support_eih kind then identity_keys else [] in
  let n := (16 * length ids)%nat in
  data ← opened_packet kind (default key (head ids)) key n packet;
  if names (take 16 data) (zip ids (tail ids ++ [key])) (take n (drop 16 packet))
  then request_of data else None.

(** What the plaintext of a response says at the time [now]: the payload, its source and the
    control data.  Lengths are counted as the code counts them. *)
Definition response_says (now : Z) (data : bytes)
  : res Udp2022Error (bytes * Address * UdpSocketControlData) :=
  let body := drop 16 data in
  let ty := be_decode (take 1 body) in
  let ts := be_decode (take 8 (drop 1 body)) in
  let padding := Z.to_nat (be_decode (take 2 (drop 17 body))) in
  if negb (ty =? 1) then Err (InvalidSocketType 1 ty)
  else if 30 <? abs_diff now ts then Err (InvalidTimestamp ts now)
  else if bool_decide (length body < 19)%nat then Panic
  else match read_from (cursor (drop (19 + padding) body)) with
  | Ok (addr, rest) =>
    Ok (avail rest, addr,
        {| client_session_id := be_decode (take 8 (drop 9 body));
           server_session_id := be_decode (take 8 data);
           packet_id := be_decode (take 8 (drop 8 data)); user := None |})
  | Err e => Err (InvalidAddress e)
  | Panic => Panic
  end.

(** What a client reads from a packet. *)
Definition client_reads (now : Z) (kind : CipherKind) (key packet : bytes)
  : res Udp2022Error (bytes * Address * UdpSocketControlData) :=
  let least := (if method_support_eih kind then 43 else 67)%nat in
  if bool_decide (length packet < least)%nat then Err (PacketTooShort least (length packet))
  else match opened_packet kind key key 0 packet with
  | None => Err DecryptPayloadError
  | Some data => response_says now data
  end.

(** What a server writes. *)
Definition response_plain (ts csid : Z) (padding : bytes) (addr : Address) (payload : bytes) : bytes :=
  be_encode 1 SERVER_SOCKET_TYPE ++ put_u64 ts ++ put_u64 csid ++ put_u16 (Z.of_nat (length padding))
  ++ padding ++ address_wire addr ++ payload.
Definition packet_of (kind : CipherKind) (key nonce header plain : bytes) : option bytes :=
  match alg_2022 kind with
  | Some XChaCha =>
    k ← session_key kind key 0;
    Some (nonce ++ aead_sealed k nonce (header ++ plain))
  | Some _ =>
    k ← session_key kind key (be_decode (take 8 header));
    Some (aes_enc key header ++ aead_sealed k (drop 4 header) plain)
  | None => None
  end.
End reference.

(** ** The cache *)

Section proofs.
Context `{L : CryptoLib} `{M : Crypto2022Lib} `{N : Lengths} `{R : LruCache CipherKey UdpCipher}.
Context `{!CryptoLibOk L} `{!Crypto2022LibOk M} `{!LengthsOk N} `{!LruCacheOk R}.

(** Every entry is the cipher of the key that the memory holds at the address. *)
Definition cache_ok (memory : Z → bytes) (cache : lru) : Prop :=
  ∀ ck c, (get_mut ck cache).1 = Some c →
    UdpCipher_new (E:=Udp2022Error) (ck_method ck) (memory (ck_key ck)) (ck_session_id ck) = Ok c.

Lemma cache_ok_new memory n : cache_ok memory (lru_new n).
Proof. intros ck c. by rewrite get_new. Qed.

(** The cache answers what a new cipher would be, if keys stay where they are. *)
Lemma get_cipher_ok memory cache kind key sid :
  cache_ok memory cache → memory (as_ptr key) = key_bytes key →
  ∃ cache', get_cipher kind key sid cache = (UdpCipher_new kind (key_bytes key) sid, cache')
    ∧ cache_ok memory cache'.
Proof.
  intros Hc Hm. unfold get_cipher. set (ck := {| ck_method := kind |}).
  assert (cache_ok memory (get_mut ck cache).2) as Hc'.
  { intros ck' c'. rewrite get_get. apply Hc. }
  pose proof (Hc ck) as Hk. destruct (get_mut ck cache) as [[c0|] cache1]; simpl in *.
  - specialize (Hk c0 eq_refl). rewrite Hm in Hk. rewrite Hk. by eexists.
  - destruct (UdpCipher_new kind (key_bytes key) sid) as [c|e|] eqn:Hn; [|by eexists..].
    eexists. split; [done|]. intros ck' c'. intros [[-> ->]|[_ H]]%get_insert.
    + simpl. by rewrite Hm.
    + by apply Hc'.
Qed.

(** The answers of the cache to a sequence of requests. *)
Fixpoint get_ciphers (requests : list (CipherKind * KeyRef * Z)) (cache : lru)
  : list (res Udp2022Error UdpCipher) :=
  match requests with
  | [] => []
  | (kind, key, sid) :: requests =>
    let '(r, cache) := get_cipher kind key sid cache in r :: get_ciphers requests cache
  end.

Lemma get_ciphers_ok memory requests cache :
  cache_ok memory cache → Forall (λ r, memory (as_ptr r.1.2) = key_bytes r.1.2) requests →
  get_ciphers requests cache = (λ r, UdpCipher_new r.1.1 (key_bytes r.1.2) r.2) <$> requests.
Proof.
  intros Hc Hr. revert cache Hc. induction Hr as [|[[kind key] sid] requests Hm _ IH]; [done|].
  intros cache Hc. simpl in Hm |- *.
  destruct (get_cipher_ok memory cache kind key sid Hc Hm) as (cache' & -> & Hc').
  f_equal. by apply IH.
Qed.

(** A session of a kind and a key: what the cache answers seals and opens under the key of
    the session. *)
Lemma get_cipher_session memory cache kind key sid a :
  cache_ok memory cache → memory (as_ptr key) = key_bytes key →
  alg_2022 kind = Some a → length (key_bytes key) = alg_key_size a →
  ∃ c k cache', get_cipher kind key sid cache = (Ok c, cache') ∧ cache_ok memory cache'
    ∧ session_key kind (key_bytes key) sid = Some k ∧ alg k = a
    ∧ (∀ n buf, encrypt_packet (E:=Udp2022Error) c n buf = aead_encrypt k n buf)
    ∧ (∀ n buf, decrypt_packet (E:=Udp2022Error) c n buf = aead_decrypt k n buf).
Proof.
  intros Hc Hm Ha Hk.
  destruct (UdpCipher_new_session (E:=Udp2022Error) kind (key_bytes key) sid a Ha Hk)
    as (c & k & Hn & Hs & Hka & He & Hd).
  destruct (get_cipher_ok memory cache kind key sid Hc Hm) as (cache' & Hg & Hc').
  rewrite Hn in Hg. exists c, k, cache'. split_and!; auto.
Qed.

Lemma split_at_ok {E} n bs :
  (n ≤ length bs)%nat → split_at (E:=E) n bs = Ok (take n bs, drop n bs).
Proof. intros. unfold split_at. by rewrite bool_decide_eq_true_2. Qed.

Lemma slice_ok {E} (bs : bytes) a b :
  (a ≤ b)%nat → (b ≤ length bs)%nat → slice (E:=E) bs a b = Ok (take (b - a) (drop a bs)).
Proof. intros. unfold slice. by rewrite bool_decide_eq_true_2. Qed.

Lemma aes_block_ok {E} op kind a key block :
  alg_2022 kind = Some a → method_support_eih kind = true →
  length key = alg_key_size a → length block = 16%nat →
  aes_block (E:=E) op kind key block = Ok (op key block).
Proof.
  intros Ha Hm Hk Hb. unfold aes_block.
  destruct kind; try done; injection Ha as <-; cbn [mbind res_bind];
    by rewrite (bool_decide_eq_true_2 _ Hk), (bool_decide_eq_true_2 _ Hb).
Qed.

(** The bytes of the nonce in front of a packet. *)
Definition nonce_of (kind : CipherKind) : nat := if method_support_eih kind then 0 else 24.

Lemma get_nonce_len_ok {E} kind a :
  alg_2022 kind = Some a → get_nonce_len (E:=E) kind = Ok (nonce_of kind).
Proof.
  intros Ha. destruct kind; try done. unfold get_nonce_len. rewrite (nonce_len_ok E _ _ Ha).
  by injection Ha as <-.
Qed.

(** One step of a program whose outcome is known. *)
Ltac run H := first [rewrite (sbind_run _ _ _ _ _ H) | rewrite (sbind_lift _ _ _ _ H)].

(** What decryption in place comes to: the authentic plaintext, or the error. *)
Definition opens (r : res Udp2022Error bytes) (front : bytes) (data : option bytes) : Prop :=
  match data with
  | None => r = Err DecryptPayloadError
  | Some data => ∃ tag, length tag = 16%nat ∧ r = Ok (front ++ data ++ tag)
  end.

Section session.
Context (memory : Z → bytes) (cache : lru) (kind : CipherKind) (key : KeyRef) (a : AeadAlg).
Context (Hc : cache_ok memory cache) (Hm : memory (as_ptr key) = key_bytes key).
Context (Ha : alg_2022 kind = Some a) (Hk : length (key_bytes key) = alg_key_size a).

Lemma decrypt_chacha_opens packet :
  method_support_eih kind = false → (67 ≤ length packet)%nat →
  ∃ r cache', decrypt_chacha kind key packet cache = (r, cache') ∧ cache_ok memory cache'
    ∧ opens r (take 24 packet) (opened_packet kind (key_bytes key) (key_bytes key) 0 packet).
Proof.
  intros Heih Hl. assert (a = XChaCha) as -> by (by destruct kind; try done; injection Ha).
  set (sid := be_decode (take 8 (drop 24 packet))).
  destruct (get_cipher_session memory cache kind key sid XChaCha Hc Hm Ha Hk)
    as (c & k & cache' & Hg & Hc' & Hs & Hka & _ & Hd).
  destruct (aead_decrypt_opens (E:=Udp2022Error) k (take 24 packet) (drop 24 packet))
    as (out & Hlo & Hdec & Ho); [rewrite Hka; simpl; solve_len|solve_len|].
  unfold decrypt_chacha. run (split_at_ok (E:=Udp2022Error) (alg_nonce_size XChaCha) packet ltac:(simpl; lia)).
  run (slice_ok (E:=Udp2022Error) (drop 24 packet) 0 8 ltac:(lia) ltac:(solve_len)).
  rewrite drop_0. fold sid. run Hg. simpl alg_nonce_size.
  rewrite <- Hd in Hdec. run Hdec.
  unfold opened_packet. rewrite Ha.
  assert (session_key kind (key_bytes key) 0 = Some k) as ->
    by (rewrite <- Hs; by destruct kind).
  cbn [mbind option_bind]. unfold opens.
  destruct (aead_opened k _ _) as [data|] eqn:Eo.
  - rewrite bool_decide_eq_true_2 by done. cbn [negb]. do 2 eexists. split_and!; [done..|].
    apply aead_opened_length in Eo; [|solve_len].
    exists (drop (length data) out). split; [solve_len|]. by rewrite <- (Ho data eq_refl).
  - rewrite bool_decide_eq_false_2 by naive_solver. by do 2 eexists.
Qed.

Lemma decrypt_gcm_opens packet :
  method_support_eih kind = true → (43 ≤ length packet)%nat →
  ∃ r cache', decrypt_gcm kind key packet cache = (r, cache') ∧ cache_ok memory cache'
    ∧ opens r [] (opened_packet kind (key_bytes key) (key_bytes key) 0 packet).
Proof.
  intros Heih Hl. set (header := aes_dec (key_bytes key) (take 16 packet)).
  assert (length header = 16%nat) as Hh by (subst header; rewrite aes_dec_length; solve_len).
  set (sid := be_decode (take 8 header)).
  destruct (get_cipher_session memory cache kind key sid a Hc Hm Ha Hk)
    as (c & k & cache' & Hg & Hc' & Hs & Hka & _ & Hd).
  destruct (aead_decrypt_opens (E:=Udp2022Error) k (drop 4 header) (drop 16 packet))
    as (out & Hlo & Hdec & Ho).
  { rewrite length_drop, Hh, Hka. by destruct kind; try done; injection Ha as <-. }
  { solve_len. }
  unfold decrypt_gcm. run (split_at_ok (E:=Udp2022Error) 16 packet ltac:(lia)).
  run (aes_block_ok (E:=Udp2022Error) aes_dec kind a (key_bytes key) (take 16 packet) Ha Heih Hk
         ltac:(solve_len)). fold header.
  run (slice_ok (E:=Udp2022Error) header 0 8 ltac:(lia) ltac:(lia)). rewrite drop_0. fold sid.
  run Hg. run (slice_ok (E:=Udp2022Error) header 4 16 ltac:(lia) ltac:(lia)).
  rewrite (take_ge (drop 4 header)) by solve_len.
  rewrite <- Hd in Hdec. run Hdec.
  unfold opened_packet. fold header. rewrite Ha. fold sid. rewrite Hs.
  cbn [mbind option_bind]. change (16 + 0)%nat with 16%nat. unfold opens.
  assert (∀ (A : Type) (x y : A), match a with XChaCha => x | _ => y end = y) as Hne
    by (intros; by destruct kind; try done; injection Ha as <-).
  rewrite Hne. destruct (aead_opened k _ _) as [data|] eqn:Eo; cbn [mbind option_bind].
  - rewrite bool_decide_eq_true_2 by done. cbn [negb]. do 2 eexists. split_and!; [done..|].
    apply aead_opened_length in Eo; [|solve_len].
    exists (drop (length data) out). split; [solve_len|].
    simpl app. by rewrite <- app_assoc, <- (Ho data eq_refl).
  - rewrite bool_decide_eq_false_2 by naive_solver. by do 2 eexists.
Qed.

(** Decryption in place, of any packet that is long enough. *)
Lemma decrypt_message_opens packet :
  (nonce_of kind + 43 ≤ length packet)%nat →
  ∃ r cache', decrypt_message kind key packet cache = (r, cache') ∧ cache_ok memory cache'
    ∧ opens r (take (nonce_of kind) packet)
        (opened_packet kind (key_bytes key) (key_bytes key) 0 packet).
Proof.
  intros Hl. unfold nonce_of in *. destruct (method_support_eih kind) eqn:Heih.
  - destruct (decrypt_gcm_opens packet Heih Hl) as (r & cache' & Hd & ?). exists r, cache'.
    split; [|done]. rewrite <- Hd. by destruct kind.
  - destruct (decrypt_chacha_opens packet Heih Hl) as (r & cache' & Hd & ?). exists r, cache'.
    split; [|done]. rewrite <- Hd. by destruct kind.
Qed.
End session.

Lemma opened_packet_length kind hk key packet data a :
  alg_2022 kind = Some a → (nonce_of kind + 43 ≤ length packet)%nat →
  opened_packet kind hk key 0 packet = Some data →
  (length data + nonce_of kind + 16 = length packet)%nat.
Proof.
  intros Ha Hl. unfold opened_packet. rewrite Ha. unfold nonce_of in *.
  assert (length (aes_dec hk (take 16 packet)) = length (take 16 packet)) as Hd by apply aes_dec_length.
  destruct kind; try done; injection Ha as <-; simpl in *; unfold session_key;
    cbn [alg_2022 mbind option_bind].
  1,2: intros (body & Ho%aead_opened_length & [= <-])%bind_Some; solve_len.
  intros Ho%aead_opened_length; solve_len.
Qed.

(** ** The fields of a response *)

Lemma response_says_suffix now data pl addr ctl :
  response_says now data = Ok (pl, addr, ctl) → ∃ pre, data = pre ++ pl.
Proof.
  unfold response_says. cbv zeta. set (pad := Z.to_nat _). destruct (negb _); [done|].
  destruct (30 <? _); [done|]. case_bool_decide; [done|].
  destruct (read_from _) as [[a rest]| |] eqn:Hr; try done. intros [= <- <- <-].
  apply read_from_suffix in Hr as (used & Hu & _). simpl in Hu.
  exists (take 16 data ++ take (19 + pad) (drop 16 data) ++ used).
  by rewrite <- !app_assoc, <- Hu, !take_drop.
Qed.

Lemma get_uint_at {E} n k m (data : bytes) :
  m = (k + n)%nat → (m ≤ length data)%nat →
  get_uint (E:=E) n (drop k data) = Ok (be_decode (take n (drop k data)), drop m data).
Proof. intros -> Hl. rewrite get_uint_long by solve_len. by rewrite drop_drop. Qed.

Lemma parse_server_packet_says now data :
  (27 ≤ length data)%nat →
  parse_server_packet now data
  = match response_says now data with
    | Ok (pl, addr, ctl) => Ok (length data - length pl, addr, ctl)%nat
    | Err e => Err e
    | Panic => Panic
    end.
Proof.
  intros Hl. unfold parse_server_packet, response_says. cbv zeta. rewrite !drop_drop.
  change (16 + 1)%nat with 17%nat. change (16 + 17)%nat with 33%nat. change (16 + 9)%nat with 25%nat.
  unfold SERVER_SOCKET_TYPE, SERVER_PACKET_TIMESTAMP_MAX_DIFF.
  rewrite <- (drop_0 data) at 1. rewrite (get_uint_at 8 0 8) by lia. cbn [mbind res_bind].
  rewrite (get_uint_at 8 8 16) by lia. cbn [mbind res_bind].
  rewrite (get_uint_at 1 16 17) by lia. cbn [mbind res_bind].
  destruct (_ =? 1); [|done]. cbn [negb fail_if mbind res_bind].
  rewrite (get_uint_at 8 17 25) by lia. cbn [mbind res_bind].
  destruct (30 <? _); [done|]. cbn [fail_if mbind res_bind]. rewrite length_drop.
  case_bool_decide as Hshort.
  { destruct (decide (33 ≤ length data)%nat).
    - rewrite (get_uint_at 8 25 33) by lia. cbn [mbind res_bind].
      unfold get_uint. by rewrite bool_decide_eq_false_2 by solve_len.
    - unfold get_uint at 2. by rewrite bool_decide_eq_false_2 by solve_len. }
  rewrite (get_uint_at 8 25 33) by lia. cbn [mbind res_bind].
  rewrite (get_uint_at 2 33 35) by lia. cbn [mbind res_bind]. rewrite drop_drop, Nat.add_assoc.
  change (16 + 19)%nat with 35%nat. rewrite drop_0.
  by destruct (read_from _) as [[addr rd]| |].
Qed.

Lemma response_says_panic now data : response_says now data = Panic → (length data < 35)%nat.
Proof.
  unfold response_says. cbv zeta. destruct (negb _); [done|]. destruct (30 <? _); [done|].
  case_bool_decide as Hl; [rewrite length_drop in Hl; lia|].
  destruct (read_from _) as [[]| |] eqn:Hr; try done. by apply read_from_no_panic in Hr.
Qed.

(** ** Sending *)

Lemma request_of_built sid pid ts padding addr payload :
  0 <= sid < 2 ^ 64 → 0 <= pid < 2 ^ 64 → 0 <= ts < 2 ^ 64 →
  Z.of_nat (length padding) < 65536 → address_wf addr → sendable addr →
  request_of (put_u64 sid ++ put_u64 pid ++ be_encode 1 CLIENT_SOCKET_TYPE ++ put_u64 ts
              ++ put_u16 (Z.of_nat (length padding)) ++ padding ++ address_wire addr ++ payload)
  = Some {| req_session := sid; req_packet := pid; req_time := ts;
            req_addr := wire_address addr; req_payload := payload |}.
Proof.
  intros Hsid Hpid Hts Hpad Hwf Hs. unfold request_of, CLIENT_SOCKET_TYPE. cbv zeta.
  set (tl := address_wire addr ++ payload).
  set (data := put_u64 sid ++ _).
  assert (drop 16 data = be_encode 1 0 ++ put_u64 ts
            ++ put_u16 (Z.of_nat (length padding)) ++ padding ++ tl) as ->.
  { subst data. by rewrite app_assoc, drop_app_length' by solve_len. }
  assert (drop 1 (be_encode 1 0 ++ put_u64 ts ++ put_u16 (Z.of_nat (length padding)) ++ padding ++ tl)
          = put_u64 ts ++ put_u16 (Z.of_nat (length padding)) ++ padding ++ tl) as ->
    by (by rewrite drop_app_length' by solve_len).
  assert (drop 9 (be_encode 1 0 ++ put_u64 ts ++ put_u16 (Z.of_nat (length padding)) ++ padding ++ tl)
          = put_u16 (Z.of_nat (length padding)) ++ padding ++ tl) as ->
    by (by rewrite app_assoc, drop_app_length' by solve_len).
  rewrite !take_app_length' by solve_len.
  unfold put_u16 at 1. rewrite be_decode_encode, Nat2Z.id by (simpl; lia).
  rewrite bool_decide_eq_true_2 by done.
  rewrite (drop_app_ge (be_encode 1 0)), (drop_app_ge (put_u64 ts)),
    (drop_app_ge (put_u16 _)), drop_app_length' by solve_len.
  subst tl. unfold cursor. rewrite read_from_wire by done. subst data.
  rewrite drop_app_length', !take_app_length' by solve_len.
  unfold put_u64. by rewrite !be_decode_encode by (simpl; lia).
Qed.

Lemma lxor_zip (p h : bytes) : length p = length h → zip_with Z.lxor (zip_with Z.lxor p h) h = p.
Proof.
  revert h. induction p as [|x p IH]; intros [|y h] Hl; try done. simpl.
  f_equal; [|apply IH; simpl in Hl; lia].
  by rewrite Z.lxor_assoc, Z.lxor_nilpotent, Z.lxor_0_r.
Qed.

(** The identity headers that a client writes name the keys. *)
Lemma eih_loop_names {E} kind a keys dst :
  alg_2022 kind = Some a → method_support_eih kind = true → (16 ≤ length dst)%nat →
  Forall (λ k, length k.1 = alg_key_size a) keys →
  ∃ eihs, eih_loop (E:=E) kind 0 keys dst = Ok (dst ++ eihs)
    ∧ length eihs = (16 * length keys)%nat ∧ names (take 16 dst) keys eihs = true.
Proof.
  intros Ha Heih. revert dst. induction keys as [|[ipsk ipskn] keys IH]; intros dst Hl Hkeys.
  { exists []. by rewrite app_nil_r. }
  apply Forall_cons_1 in Hkeys as [Hk Hkeys]. cbn [eih_loop].
  rewrite slice_ok by lia. rewrite drop_0. cbn [mbind res_bind]. unfold make_eih.
  assert (length (blake3_hash ipskn) = 32%nat) as Hh by apply blake3_hash_length.
  rewrite slice_ok by lia. rewrite drop_0. cbn [mbind res_bind].
  change (0 + 16 - 0)%nat with 16%nat. change (16 - 0)%nat with 16%nat.
  set (block := zip_with Z.lxor _ _).
  assert (length block = 16%nat) as Hb.
  { subst block. rewrite length_zip_with, !length_take. lia. }
  rewrite (aes_block_ok _ _ a) by done. cbn [mbind res_bind].
  set (eih := aes_enc ipsk block).
  assert (length eih = 16%nat) as He by (subst eih; by rewrite aes_enc_length).
  destruct (IH (dst ++ eih)) as (eihs & -> & Hle & Hn); [solve_len|done|].
  exists (eih ++ eihs). split_and!; [by rewrite app_assoc|solve_len|].
  cbn [names]. rewrite take_app_length', drop_app_length' by done.
  rewrite take_app_le in Hn by done. rewrite Hn, andb_true_r.
  apply bool_decide_eq_true_2. subst eih. rewrite aes_dec_enc by done.
  subst block. apply lxor_zip. rewrite !length_take. lia.
Qed.
Section session_send.
Context (memory : Z → bytes) (cache : lru) (kind : CipherKind) (key : KeyRef) (a : AeadAlg).
Context (Hc : cache_ok memory cache) (Hm : memory (as_ptr key) = key_bytes key).
Context (Ha : alg_2022 kind = Some a) (Hk : length (key_bytes key) = alg_key_size a).

(** What is sealed behind a nonce is opened again. *)
Lemma encrypt_chacha_opened ipsk nonce pt sid skip :
  method_support_eih kind = false → length nonce = 24%nat →
  ∃ packet cache', encrypt_message kind ipsk key (nonce ++ pt) sid skip cache = (Ok packet, cache')
    ∧ cache_ok memory cache' ∧ opened_packet kind (key_bytes key) (key_bytes key) 0 packet = Some pt.
Proof.
  intros Heih Hn. assert (a = XChaCha) as -> by (by destruct kind; try done; injection Ha).
  destruct (get_cipher_session memory cache kind key sid XChaCha Hc Hm Ha Hk)
    as (c & k & cache' & Hg & Hc' & Hs & Hka & He & _).
  exists (nonce ++ aead_sealed k nonce pt), cache'. split_and!; [|done|].
  - unfold encrypt_message. run (tag_len_ok Udp2022Error kind XChaCha Ha).
    transitivity (encrypt_chacha kind key ((nonce ++ pt) ++ replicate 16 0) sid cache);
      [by destruct kind|].
    unfold encrypt_chacha. run Hg. rewrite <- app_assoc.
    rewrite (sbind_lift _ _ _ (nonce, pt ++ replicate 16 0)); cycle 1.
    { rewrite split_at_ok by (rewrite length_app; simpl; lia).
      by rewrite take_app_length', drop_app_length' by (simpl; lia). }
    rewrite (sbind_lift _ _ _ (aead_sealed k nonce pt)); [done|].
    rewrite He. apply aead_encrypt_sealed; [by rewrite Hka|by rewrite length_replicate].
  - unfold opened_packet. rewrite Ha. rewrite take_app_length', drop_app_length' by done.
    assert (session_key kind (key_bytes key) 0 = Some k) as -> by (rewrite <- Hs; by destruct kind).
    apply aead_opened_sealed.
Qed.

(** What is sealed behind a header block is opened with the header again. *)
Lemma encrypt_gcm_opened ipsk header eihs pt sid :
  method_support_eih kind = true → length ipsk = alg_key_size a → length header = 16%nat →
  be_decode (take 8 header) = sid →
  ∃ packet cache', encrypt_message kind ipsk key (header ++ eihs ++ pt) sid (length eihs) cache
      = (Ok packet, cache')
    ∧ cache_ok memory cache'
    ∧ opened_packet kind ipsk (key_bytes key) (length eihs) packet = Some (header ++ pt)
    ∧ take (length eihs) (drop 16 packet) = eihs.
Proof.
  intros Heih Hi Hh Hsid.
  destruct (get_cipher_session memory cache kind key sid a Hc Hm Ha Hk)
    as (c & k & cache' & Hg & Hc' & Hs & Hka & He & _).
  set (body := aead_sealed k (drop 4 header) pt).
  assert (length (aes_enc ipsk header) = 16%nat) as Hah by (by rewrite aes_enc_length).
  exists (aes_enc ipsk header ++ eihs ++ body), cache'. split_and!; [|done| |].
  - unfold encrypt_message. run (tag_len_ok Udp2022Error kind a Ha).
    transitivity (encrypt_gcm kind ipsk key ((header ++ eihs ++ pt) ++ replicate 16 0) sid
                    (length eihs) cache); [by destruct kind|].
    unfold encrypt_gcm. run Hg. rewrite <- !app_assoc.
    rewrite (sbind_lift _ _ _ (header, eihs ++ pt ++ replicate 16 0)); cycle 1.
    { rewrite split_at_ok by (rewrite length_app; lia). by rewrite take_app_length', drop_app_length'. }
    rewrite (sbind_lift _ _ _ (drop 4 header))
      by (rewrite slice_ok, take_ge; [done|solve_len|lia..]).
    rewrite (sbind_lift _ _ _ (eihs, pt ++ replicate 16 0)); cycle 1.
    { rewrite split_at_ok by (rewrite length_app; lia). by rewrite take_app_length', drop_app_length'. }
    rewrite (sbind_lift _ _ _ body); cycle 1.
    { rewrite He. apply aead_encrypt_sealed; [|by rewrite length_replicate].
      rewrite length_drop, Hh, Hka. by destruct kind; try done; injection Ha as <-. }
    by rewrite (sbind_lift _ _ _ (aes_enc ipsk header)) by (by apply (aes_block_ok _ _ a)).
  - unfold opened_packet. rewrite Ha.
    rewrite take_app_length', aes_dec_enc, Hsid, Hs by done. cbn [mbind option_bind].
    rewrite app_assoc, drop_app_length' by solve_len. subst body.
    rewrite aead_opened_sealed. cbn [mbind option_bind].
    by destruct kind; try done; injection Ha as <-.
  - by rewrite drop_app_length', take_app_length'.
Qed.

(** The plaintext of a request, its header first. *)
Definition request_plain (d : Draws) (control : UdpSocketControlData) (padding : bytes)
    (addr : Address) (payload : bytes) : bytes :=
  be_encode 1 CLIENT_SOCKET_TYPE ++ put_u64 (clock d) ++ put_u16 (Z.of_nat (length padding))
  ++ padding ++ address_wire addr ++ payload.

Lemma zip_tail_length (ids : list bytes) k : length (zip ids (tail ids ++ [k])) = length ids.
Proof. rewrite length_zip_with, length_app. destruct ids; [done|]. cbn [tail length]. lia. Qed.

Lemma Forall_zip_fst {P : bytes → Prop} (l l' : list bytes) :
  Forall P l → Forall (λ k, P k.1) (zip l l').
Proof. intros H. revert l'. induction H; intros [|]; simpl; constructor; auto. Qed.

Lemma fill_client_packet_reads d addr control ids payload nonce n :
  Forall (λ k, length k = alg_key_size a) ids → length nonce = nonce_of kind →
  0 <= client_session_id control < 2 ^ 64 → 0 <= packet_id control < 2 ^ 64 →
  0 <= clock d < 2 ^ 64 → length (fresh d n) = n → Z.of_nat n < 65536 →
  address_wf addr → sendable addr →
  ∃ packet cache',
    fill_client_packet d kind key addr control ids payload (nonce_of kind) n nonce cache
    = (Ok packet, cache')
    ∧ cache_ok memory cache'
    ∧ server_reads kind ids (key_bytes key) packet
      = Some {| req_session := client_session_id control; req_packet := packet_id control;
                req_time := clock d; req_addr := wire_address addr; req_payload := payload |}.
Proof.
  intros Hids Hnonce Hsid Hpid Hts Hfr Hn Hwf Hsend. unfold fill_client_packet, server_reads.
  set (header := put_u64 (client_session_id control) ++ put_u64 (packet_id control)).
  assert (length header = 16%nat) as Hh by (subst header; solve_len).
  set (plain := request_plain d control (fresh d n) addr payload).
  set (fields := be_encode 1 CLIENT_SOCKET_TYPE ++ put_u64 (clock d) ++ put_u16 (Z.of_nat n)
                 ++ fresh d n ++ address_wire addr).
  assert (∀ dst, write_to_buf (E:=Udp2022Error) addr
      ((dst ++ be_encode 1 CLIENT_SOCKET_TYPE ++ put_u64 (clock d) ++ put_u16 (Z.of_nat n)) ++ fresh d n)
    = Ok (dst ++ fields)) as Hwr
    by (intros dst; rewrite write_to_buf_wire by done; subst fields; by rewrite <- !app_assoc).
  assert (fields ++ payload = plain) as Hpl
    by (subst fields plain; unfold request_plain; by rewrite Hfr, <- !app_assoc).
  assert (request_of (header ++ plain)
    = Some {| req_session := client_session_id control; req_packet := packet_id control;
              req_time := clock d; req_addr := wire_address addr; req_payload := payload |}) as Hreq.
  { subst header plain. unfold request_plain. rewrite <- app_assoc.
    apply request_of_built; try done. by rewrite Hfr. }
  unfold nonce_of in *. destruct (method_support_eih kind) eqn:Heih; cbn [andb].
  - apply nil_length_inv in Hnonce as ->. rewrite app_nil_l.
    destruct (eih_loop_names (E:=Udp2022Error) kind a (zip ids (tail ids ++ [key_bytes key])) header)
      as (eihs & Hloop & Hle & Hnames); [done..|lia|by apply (Forall_zip_fst (P:=λ k, length k = alg_key_size a))|].
    rewrite zip_tail_length in Hle. rewrite take_ge in Hnames by lia.
    rewrite (sbind_lift _ _ _ (header ++ eihs)); cycle 1.
    { destruct ids; [|done]. simpl in Hle. apply nil_length_inv in Hle as ->. by rewrite app_nil_r. }
    rewrite (sbind_lift _ _ _ _ (Hwr _)), <- !app_assoc, Hpl.
    assert ((if negb (bool_decide (ids = [])) then length ids * 16 else 0) = length eihs)%nat as ->
      by (destruct ids; simpl in *; lia).
    set (ipsk := match ids with [] => _ | _ => _ end).
    assert (default (key_bytes key) (head ids) = ipsk) as -> by (subst ipsk; by destruct ids).
    destruct (encrypt_gcm_opened ipsk header eihs plain (client_session_id control) Heih)
      as (packet & cache' & He & Hc' & Ho & Hei).
    { subst ipsk. destruct ids; [done|]. by apply Forall_cons_1 in Hids as [? _]. }
    { done. }
    { subst header. rewrite take_app_length' by solve_len. by apply be_decode_encode. }
    exists packet, cache'. split_and!; [done..|]. rewrite Hle in Ho, Hei.
    rewrite Ho. cbn [mbind option_bind]. by rewrite Hei, take_app_length', Hnames, Hreq.
  - rewrite (sbind_lift _ _ _ (nonce ++ header)) by done.
    rewrite (sbind_lift _ _ _ _ (Hwr _)), <- !app_assoc, Hpl.
    set (ipsk := match ids with [] => _ | _ => _ end).
    destruct (encrypt_chacha_opened ipsk nonce (header ++ plain) (client_session_id control) 0 Heih Hnonce)
      as (packet & cache' & He & Hc' & Ho).
    exists packet, cache'. split_and!; [done..|].
    change (16 * length (@nil bytes))%nat with 0%nat. cbn [head default].
    change (Datatypes.id (key_bytes key)) with (key_bytes key). rewrite Ho. by simpl.
Qed.
End session_send.

Lemma random_loop_some rng : Exists (λ bs, is_zeros bs = false) rng → ∃ bs, random_loop rng = Some bs.
Proof.
  induction 1 as [bs rng Hz|bs rng _ [b IH]]; simpl; [rewrite Hz; by eexists|].
  case_match; by eexists.
Qed.

Lemma padding_size_small d payload :
  Z.of_nat (get_aead_2022_padding_size d payload) < 65536.
Proof.
  unfold get_aead_2022_padding_size, AEAD2022_MAX_PADDING_SIZE. destruct payload; [|simpl; lia].
  pose proof (Z.mod_pos_bound (random d) 900 ltac:(lia)). lia.
Qed.

Lemma encrypt_client_reads memory cache kind key a d addr control ids payload :
  cache_ok memory cache → memory (as_ptr key) = key_bytes key →
  alg_2022 kind = Some a → length (key_bytes key) = alg_key_size a →
  Forall (λ k, length k = alg_key_size a) ids →
  0 <= client_session_id control < 2 ^ 64 → 0 <= packet_id control < 2 ^ 64 →
  0 <= clock d < 2 ^ 64 → (∀ n, length (fresh d n) = n) →
  Forall (λ bs, length bs = 24%nat) (fills d) → Exists (λ bs, is_zeros bs = false) (fills d) →
  address_wf addr → sendable addr →
  ∃ packet cache',
    encrypt_client_payload_aead_2022 d kind key addr control ids payload [] cache
    = Some (Ok packet, cache')
    ∧ cache_ok memory cache'
    ∧ server_reads kind ids (key_bytes key) packet
      = Some {| req_session := client_session_id control; req_packet := packet_id control;
                req_time := clock d; req_addr := wire_address addr; req_payload := payload |}.
Proof.
  intros Hc Hm Ha Hk Hids Hsid Hpid Hts Hfr Hfl [nonce Hz]%random_loop_some Hwf Hs.
  unfold encrypt_client_payload_aead_2022.
  rewrite (get_nonce_len_ok kind a Ha). cbn [mbind res_bind].
  rewrite (tag_len_ok _ kind a Ha). cbn [mbind res_bind].
  set (n := get_aead_2022_padding_size d payload).
  destruct (random_loop_spec _ _ _ Hfl Hz) as [Hnl _].
  assert (∃ nonce', (if bool_decide (0 < nonce_of kind)%nat
      then generate_nonce (fills d) kind (take (nonce_of kind) ([] ++ fresh d (nonce_of kind)))
      else Some []) = Some nonce' ∧ length nonce' = nonce_of kind) as (nonce' & Hg & Hl').
  { unfold nonce_of. destruct (method_support_eih kind); simpl; [by exists []|].
    exists nonce. split; [|done]. specialize (Hfr 24%nat).
    destruct (fresh d 24) as [|b l]; [done|]. done. }
  destruct (fill_client_packet_reads memory cache kind key a Hc Hm Ha Hk d addr control ids
              payload nonce' n Hids Hl' Hsid Hpid Hts (Hfr n) (padding_size_small d payload) Hwf Hs)
    as (packet & cache' & Hf & Hc' & Hr).
  exists packet, cache'. split_and!; [|done|done]. rewrite <- Hf.
  assert (nonce' ++ drop (nonce_of kind)
    (if bool_decide (0 < nonce_of kind)%nat then [] ++ fresh d (nonce_of kind) else []) = nonce') as Hd.
  { case_bool_decide; [rewrite drop_ge|rewrite drop_nil]; rewrite ?app_nil_r; try done.
    by rewrite app_nil_l, Hfr. }
  case_bool_decide; rewrite Hg; cbn [mbind option_bind]; by rewrite Hd.
Qed.

(** ** What a server writes is read *)

Lemma opened_packet_of kind key nonce header plain packet :
  packet_of kind key nonce header plain = Some packet → length header = 16%nat →
  length nonce = 24%nat →
  opened_packet kind key key 0 packet = Some (header ++ plain)
  ∧ length packet = (nonce_of kind + 16 + length plain + 16)%nat.
Proof.
  unfold packet_of, opened_packet. intros Hp Hh Hn.
  assert (length (aes_enc key header) = 16%nat) as Hah by (by rewrite aes_enc_length).
  destruct kind; try done; simpl in *; injection Hp as <-; split.
  1,3: rewrite take_app_length', drop_app_length', aes_dec_enc, aead_opened_sealed by done; done.
  1,2: rewrite length_app, length_aead_sealed, Hah; unfold nonce_of; simpl; lia.
  - rewrite take_app_length', drop_app_length' by done. apply aead_opened_sealed.
  - rewrite length_app, length_aead_sealed, length_app, Hh, Hn. unfold nonce_of. simpl. lia.
Qed.

Lemma response_says_built now ssid pid ts csid padding addr payload :
  0 <= ssid < 2 ^ 64 → 0 <= pid < 2 ^ 64 → 0 <= ts < 2 ^ 64 → 0 <= csid < 2 ^ 64 →
  Z.of_nat (length padding) < 65536 → address_wf addr → sendable addr → abs_diff now ts <= 30 →
  response_says now ((put_u64 ssid ++ put_u64 pid) ++ response_plain ts csid padding addr payload)
  = Ok (payload, wire_address addr,
        {| client_session_id := csid; server_session_id := ssid; packet_id := pid; user := None |}).
Proof.
  intros Hs Hp Ht Hcs Hpad Hwf Hsend Hnow. unfold response_plain. rewrite <- app_assoc.
  set (data := put_u64 ssid ++ _).
  assert (27 ≤ length data)%nat as Hl by (subst data; solve_len).
  assert (parse_server_packet now data
    = Ok (length data - length payload, wire_address addr,
          {| client_session_id := csid; server_session_id := ssid; packet_id := pid; user := None |})%nat)
    as Hparse.
  { subst data. unfold parse_server_packet, SERVER_SOCKET_TYPE, SERVER_PACKET_TIMESTAMP_MAX_DIFF.
    unfold put_u64, put_u16 at 1.
    do 3 (rewrite get_uint_encode by (simpl; lia); cbn [mbind res_bind]).
    cbn [Z.eqb Pos.eqb negb fail_if mbind res_bind].
    rewrite get_uint_encode by (simpl; lia). cbn [mbind res_bind].
    rewrite (proj2 (Z.ltb_ge 30 _)) by lia. cbn [fail_if mbind res_bind].
    do 2 (rewrite get_uint_encode by (simpl; lia); cbn [mbind res_bind]).
    rewrite Nat2Z.id, drop_app_length. unfold cursor. by rewrite read_from_wire. }
  assert (∃ pre', data = pre' ++ payload) as [pre' Hpre'].
  { subst data. rewrite !app_assoc. by eexists. }
  clearbody data. rewrite parse_server_packet_says in Hparse by done.
  destruct (response_says now data) as [[[pl ad] ctl]| |] eqn:Hsays; [|done..].
  destruct (response_says_suffix _ _ _ _ _ Hsays) as [pre Hpre].
  injection Hparse as Hlen -> ->. do 3 f_equal.
  assert (length pl = length payload) as Heq.
  { apply (f_equal length) in Hpre, Hpre'. rewrite length_app in Hpre, Hpre'. lia. }
  rewrite Hpre' in Hpre. by apply app_inj_2 in Hpre as [_ ->].
Qed.

(** ** Receiving refines the reference decoder *)

Lemma decrypt_server_reads memory cache kind key a packet now :
  cache_ok memory cache → memory (as_ptr key) = key_bytes key →
  alg_2022 kind = Some a → length (key_bytes key) = alg_key_size a →
  ∃ r cache', decrypt_server_payload_aead_2022 now kind key packet cache = (r, cache')
    ∧ cache_ok memory cache'
    ∧ match client_reads now kind (key_bytes key) packet with
      | Ok (payload, addr, control) =>
        ∃ buf, r = Ok (length payload, addr, control, buf)
          ∧ take (length payload) buf = payload ∧ length buf = length packet
      | Err e => r = Err e
      | Panic => r = Panic
      end.
Proof.
  intros Hc Hm Ha Hk. unfold decrypt_server_payload_aead_2022, client_reads.
  run (get_nonce_len_ok (E:=Udp2022Error) kind a Ha).
  run (tag_len_ok Udp2022Error kind a Ha).
  assert ((if method_support_eih kind then 43 else 67) = nonce_of kind + 43)%nat as ->
    by (unfold nonce_of; by destruct (method_support_eih kind)).
  replace (nonce_of kind + 16 + 8 + 8 + 1 + 8 + 2)%nat with (nonce_of kind + 43)%nat by lia.
  case_bool_decide as Hl; [by do 2 eexists|]. apply Nat.nlt_ge in Hl.
  destruct (decrypt_message_opens memory cache kind key a Hc Hm Ha Hk packet Hl)
    as (r & cache' & Hd & Hc' & Ho).
  pose proof (opened_packet_length kind (key_bytes key) (key_bytes key) packet) as Hlen.
  destruct (opened_packet _ _ _ _ _) as [data|]; unfold opens in Ho.
  2:{ subst r. unfold sbind at 1. rewrite Hd. by do 2 eexists. }
  specialize (Hlen data a Ha Hl eq_refl). destruct Ho as (tag & Ht & ->). run Hd.
  set (front := take (nonce_of kind) packet).
  assert (length front = nonce_of kind) as Hf by (subst front; solve_len).
  rewrite (sbind_lift _ _ _ data) by (apply slice_app; solve_len).
  rewrite parse_server_packet_says by lia.
  destruct (response_says now data) as [[[pl addr] ctl]|e|] eqn:Hs; [|by do 2 eexists..].
  destruct (response_says_suffix _ _ _ _ _ Hs) as [pre ->].
  rewrite (sbind_lift _ _ _ (length pre, addr, ctl)) by (do 3 f_equal; solve_len).
  replace (length (pre ++ pl) - length pre)%nat with (length pl) by solve_len.
  rewrite (sbind_lift _ _ _ pl)
    by (rewrite <- app_assoc, (app_assoc front pre); apply slice_app; solve_len).
  do 2 eexists. split_and!; [done|done|]. eexists. split_and!; [done|apply take_app_length|solve_len].
Qed.
End proofs.

(** ** Properties *)

(** With the lengths that the algorithms need in the place of the [todo!()]s, receiving an
    AEAD-2022 datagram refines the decoder of packets, on any bytes and
    with any state of the cache of ciphers that was built for keys that stay where they
    are: the client returns the payload at the front of its buffer, the address and the
    control data exactly if the packet is authentic under the key, is a server's, is
    stamped within 30 of the clock and holds them; it reports a packet that is too short,
    not authentic, of another type, stale or without an address as what it is; it panics
    only at an authentic packet whose plaintext is shorter than the fields of a response;
    and the cache stays correct. *)
Theorem udp_response_on_any_packet `{L : CryptoLib} `{M : Crypto2022Lib} `{N : Lengths}
    `{R : LruCache CipherKey UdpCipher} `{!CryptoLibOk L} `{!Crypto2022LibOk M}
    `{!LengthsOk N} `{!LruCacheOk R} (memory : Z → bytes) (cache : lru) (kind : CipherKind)
    (a : AeadAlg) (key : KeyRef) (packet : bytes) (now : Z)
    (Hcache : cache_ok memory cache) (Hmem : memory (as_ptr key) = key_bytes key)
    (Hkind : alg_2022 kind = Some a) (Hkey : length (key_bytes key) = alg_key_size a) :
  ∃ r cache', decrypt_server_payload_aead_2022 now kind key packet cache = (r, cache')
    ∧ cache_ok memory cache'
    ∧ match client_reads now kind (key_bytes key) packet with
      | Ok (payload, addr, control) =>
        ∃ buf, r = Ok (length payload, addr, control, buf)
          ∧ take (length payload) buf = payload ∧ length buf = length packet
      | Err e => r = Err e
      | Panic =>
        r = Panic ∧ ∃ data, opened_packet kind (key_bytes key) (key_bytes key) 0 packet = Some data
                            ∧ (length data < 35)%nat
      end.
Proof.
  destruct (decrypt_server_reads memory cache kind key a packet now Hcache Hmem Hkind Hkey)
    as (r & cache' & Hd & Hc & Hr).
  exists r, cache'. split_and!; [done..|].
  destruct (client_reads _ _ _ _) as [[[pl addr] ctl]|e|] eqn:Ec; [done..|]. split; [done|].
  unfold client_reads in Ec. case_bool_decide; [done|].
  destruct (opened_packet _ _ _ _ _) as [data|]; [|done].
  exists data. split; [done|]. by eapply response_says_panic.
Qed.

(** With the lengths that the algorithms need in the place of the [todo!()]s, an AEAD-2022
    request reaches the server as it was sent: whatever the cache of
    ciphers holds and whatever fresh memory contains, the client encrypts without a panic,
    and a server with the keys authenticates the packet and reads from it the session and
    packet ids, the time, the address and the payload; each identity header names the next
    key to the server that holds the identity key. *)
Theorem udp_request_reaches_server `{L : CryptoLib} `{M : Crypto2022Lib} `{N : Lengths}
    `{R : LruCache CipherKey UdpCipher} `{!CryptoLibOk L} `{!Crypto2022LibOk M}
    `{!LengthsOk N} `{!LruCacheOk R} (memory : Z → bytes) (cache : lru) (kind : CipherKind)
    (a : AeadAlg) (key : KeyRef) (d : Draws) (addr : Address) (control : UdpSocketControlData)
    (identity_keys : list bytes) (payload : bytes)
    (Hcache : cache_ok memory cache) (Hmem : memory (as_ptr key) = key_bytes key)
    (Hkind : alg_2022 kind = Some a) (Hkey : length (key_bytes key) = alg_key_size a)
    (Hids : Forall (λ k, length k = alg_key_size a) identity_keys)
    (Hsid : 0 <= client_session_id control < 2 ^ 64) (Hpid : 0 <= packet_id control < 2 ^ 64)
    (Hclock : 0 <= clock d < 2 ^ 64) (Hfresh : ∀ n, length (fresh d n) = n)
    (Hfills : Forall (λ bs, length bs = 24%nat) (fills d))
    (Hrng : Exists (λ bs, is_zeros bs = false) (fills d))
    (Haddr : address_wf addr) (Hsend : sendable addr) :
  ∃ packet cache',
    encrypt_client_payload_aead_2022 d kind key addr control identity_keys payload [] cache
    = Some (Ok packet, cache')
    ∧ cache_ok memory cache'
    ∧ server_reads kind identity_keys (key_bytes key) packet
      = Some {| req_session := client_session_id control; req_packet := packet_id control;
                req_time := clock d; req_addr := wire_address addr; req_payload := payload |}.
Proof. by apply (encrypt_client_reads memory cache kind key a). Qed.

(** C8: the cache of ciphers is transparent.  If the bytes at the address of a key do not
    change, the answers of the cache to any sequence of requests, in any order and however
    entries are evicted, are the ciphers that would be made anew. *)
Theorem cipher_cache_transparent `{M : Crypto2022Lib} `{N : Lengths}
    `{R : LruCache CipherKey UdpCipher} `{!LruCacheOk R} (memory : Z → bytes)
    (requests : list (CipherKind * KeyRef * Z))
    (Hmem : Forall (λ r, memory (as_ptr r.1.2) = key_bytes r.1.2) requests) :
  get_ciphers requests (lru_new CIPHER_CACHE_LIMIT)
  = (λ r, UdpCipher_new r.1.1 (key_bytes r.1.2) r.2) <$> requests.
Proof. apply (get_ciphers_ok memory); [apply cache_ok_new|done]. Qed.

(** A response is received as it was sent, if its stamp agrees with the clock. *)
Lemma udp_response_received `{L : CryptoLib} `{M : Crypto2022Lib} `{N : Lengths}
    `{R : LruCache CipherKey UdpCipher} `{!CryptoLibOk L} `{!Crypto2022LibOk M}
    `{!LengthsOk N} `{!LruCacheOk R} (memory : Z → bytes) (cache : lru) (kind : CipherKind)
    (a : AeadAlg) (key : KeyRef) (nonce packet : bytes) (ssid pid ts csid now : Z)
    (padding : bytes) (addr : Address) (payload : bytes)
    (Hcache : cache_ok memory cache) (Hmem : memory (as_ptr key) = key_bytes key)
    (Hkind : alg_2022 kind = Some a) (Hkey : length (key_bytes key) = alg_key_size a)
    (Hnonce : length nonce = 24%nat) (Hssid : 0 <= ssid < 2 ^ 64) (Hpid : 0 <= pid < 2 ^ 64)
    (Hts : 0 <= ts < 2 ^ 64) (Hcsid : 0 <= csid < 2 ^ 64)
    (Hpad : Z.of_nat (length padding) < 65536) (Haddr : address_wf addr) (Hsend : sendable addr)
    (Hnow : abs_diff now ts <= 30)
    (Hpacket : packet_of kind (key_bytes key) nonce (put_u64 ssid ++ put_u64 pid)
                 (response_plain ts csid padding addr payload) = Some packet) :
  ∃ buf cache', decrypt_server_payload_aead_2022 now kind key packet cache
    = (Ok (length payload, wire_address addr,
           {| client_session_id := csid; server_session_id := ssid; packet_id := pid; user := None |},
           buf), cache')
    ∧ take (length payload) buf = payload.
Proof.
  destruct (decrypt_server_reads memory cache kind key a packet now Hcache Hmem Hkind Hkey)
    as (r & cache' & Hd & _ & Hr).
  apply opened_packet_of in Hpacket as [Ho Hl]; [|solve_len|done].
  unfold client_reads in Hr. rewrite bool_decide_eq_false_2 in Hr; cycle 1.
  { rewrite Hl. unfold nonce_of, response_plain. destruct (method_support_eih kind); solve_len. }
  rewrite Ho, response_says_built in Hr by done. destruct Hr as (buf & -> & Ht & _).
  by exists buf, cache'.
Qed.

(** An authentic response panics the client when its plaintext passes the test of the
    length, which forgets the eight bytes of the client session id, and is too short. *)
Lemma short_response_panics `{L : CryptoLib} `{M : Crypto2022Lib} `{N : Lengths}
    `{R : LruCache CipherKey UdpCipher} `{!CryptoLibOk L} `{!Crypto2022LibOk M}
    `{!LengthsOk N} `{!LruCacheOk R} memory (cache : lru) kind a key nonce header rest packet ts now :
  cache_ok memory cache → memory (as_ptr key) = key_bytes key →
  alg_2022 kind = Some a → length (key_bytes key) = alg_key_size a →
  length nonce = 24%nat → length header = 16%nat → 0 <= ts < 2 ^ 64 → abs_diff now ts <= 30 →
  packet_of kind (key_bytes key) nonce header
    (be_encode 1 SERVER_SOCKET_TYPE ++ put_u64 ts ++ rest) = Some packet →
  (2 ≤ length rest < 10)%nat →
  (decrypt_server_payload_aead_2022 now kind key packet cache).1 = Panic.
Proof.
  intros Hc Hm Ha Hk Hn Hh Hts Hnow Hp Hrest.
  destruct (decrypt_server_reads memory cache kind key a packet now Hc Hm Ha Hk)
    as (r & cache' & -> & _ & Hr).
  apply opened_packet_of in Hp as [Ho Hl]; [|done..]. unfold client_reads in Hr.
  rewrite bool_decide_eq_false_2 in Hr; cycle 1.
  { rewrite Hl. unfold nonce_of. destruct (method_support_eih kind); solve_len. }
  rewrite Ho in Hr. unfold response_says in Hr. cbv zeta in Hr.
  rewrite drop_app_length', !(take_app_length' (be_encode 1 _)) in Hr by solve_len.
  rewrite (drop_app_length' (be_encode 1 _)), (take_app_length' (put_u64 ts)) in Hr by solve_len.
  unfold SERVER_SOCKET_TYPE, put_u64 in Hr. rewrite !be_decode_encode in Hr by (simpl; lia).
  cbn [Z.eqb Pos.eqb negb] in Hr. rewrite (proj2 (Z.ltb_ge 30 _)) in Hr by lia.
  by rewrite bool_decide_eq_true_2 in Hr by solve_len.
Qed.

(** With the lengths as they stand in the source, both functions panic at once. *)
Lemma source_lengths_panic `{L : CryptoLib} `{M : Crypto2022Lib}
    `{R : LruCache CipherKey UdpCipher} d kind key addr control ids payload dst now packet (cache : lru) :
  is_aead2022 kind = true →
  encrypt_client_payload_aead_2022 (N:=source_lengths) d kind key addr control ids payload dst cache
    = Some (Panic, cache)
  ∧ decrypt_server_payload_aead_2022 (N:=source_lengths) now kind key packet cache = (Panic, cache).
Proof. by destruct kind. Qed.

(** ** A session *)

Module Demo.
Definition R : LruCache CipherKey UdpCipher := ListLru.list_lru.
Definition cache : lru (LruCache:=R) := lru_new CIPHER_CACHE_LIMIT.
Definition key : KeyRef := {| as_ptr := 4096; key_bytes := replicate 16 7 |}.
Definition memory (p : Z) : bytes := replicate 16 7.
Definition control : UdpSocketControlData :=
  {| client_session_id := 11; server_session_id := 0; packet_id := 12; user := None |}.
Definition target : Address := DomainNameAddress example_domain 53.
Definition draws : Draws :=
  {| fills := [replicate 24 0; replicate 24 9]; random := 1003; clock := 1000;
     fresh n := replicate n 205 |}.

(** A response of session 21 to the client session 11, with three bytes of padding. *)
Definition packet : bytes :=
  default [] (packet_of (L:=Toy.toy) (M:=Toy2022.toy) AEAD2022_BLAKE3_AES_128_GCM (replicate 16 7) []
                (put_u64 21 ++ put_u64 22) (response_plain 1010 11 [0; 0; 0] target [1; 2; 3])).

Lemma cache_is_ok : cache_ok (M:=Toy2022.toy) (N:=protocol_lengths) memory cache.
Proof. apply (cache_ok_new (LruCacheOk0:=ListLru.list_lru_ok)). Qed.
Lemma target_wf : address_wf target.
Proof.
  split_and!; [|reflexivity|vm_compute; split; congruence].
  apply (bool_decide_unpack _). vm_compute. exact I.
Qed.
End Demo.

Lemma udp_response_on_any_packet_witness :
  ∃ buf, (decrypt_server_payload_aead_2022 (L:=Toy.toy) (M:=Toy2022.toy) (N:=protocol_lengths)
            1000 AEAD2022_BLAKE3_AES_128_GCM Demo.key Demo.packet Demo.cache).1
    = Ok (3%nat, wire_address Demo.target,
          {| client_session_id := 11; server_session_id := 21; packet_id := 22; user := None |}, buf)
    ∧ take 3 buf = [1; 2; 3].
Proof.
  destruct (@udp_response_on_any_packet Toy.toy Toy2022.toy protocol_lengths Demo.R Toy.toy_ok
    Toy2022.toy_ok protocol_lengths_ok ListLru.list_lru_ok Demo.memory Demo.cache
    AEAD2022_BLAKE3_AES_128_GCM Gcm128 Demo.key Demo.packet 1000 Demo.cache_is_ok
    eq_refl eq_refl eq_refl) as (r & cache' & Hd & _ & Hr).
  rewrite Hd. vm_compute in Hr. destruct Hr as (buf & Hr & Ht & _). exists buf. split.
  - rewrite Hr. vm_compute. reflexivity.
  - exact Ht.
Defined.

(** With one identity key and, the payload being empty, 103 bytes of padding. *)
Lemma udp_request_reaches_server_witness :
  ∃ packet cache',
    encrypt_client_payload_aead_2022 (L:=Toy.toy) (M:=Toy2022.toy) (N:=protocol_lengths) (R:=Demo.R)
      Demo.draws AEAD2022_BLAKE3_AES_128_GCM Demo.key Demo.target Demo.control [replicate 16 5] []
      [] Demo.cache = Some (Ok packet, cache')
    ∧ server_reads (L:=Toy.toy) (M:=Toy2022.toy) AEAD2022_BLAKE3_AES_128_GCM [replicate 16 5]
        (replicate 16 7) packet
      = Some {| req_session := 11; req_packet := 12; req_time := 1000;
                req_addr := Demo.target; req_payload := [] |}.
Proof.
  destruct (@udp_request_reaches_server Toy.toy Toy2022.toy protocol_lengths Demo.R Toy.toy_ok
    Toy2022.toy_ok protocol_lengths_ok ListLru.list_lru_ok Demo.memory Demo.cache
    AEAD2022_BLAKE3_AES_128_GCM Gcm128 Demo.key Demo.draws Demo.target Demo.control
    [replicate 16 5] [] Demo.cache_is_ok eq_refl eq_refl eq_refl)
    as (packet & cache' & He & _ & Hr).
  - repeat constructor.
  - simpl; lia.
  - simpl; lia.
  - simpl; lia.
  - intros n. apply length_replicate.
  - repeat constructor.
  - right. left. reflexivity.
  - exact Demo.target_wf.
  - apply (bool_decide_unpack _). vm_compute. exact I.
  - exists packet, cache'. split; [exact He|exact Hr].
Defined.

(** A hit, a miss with another session, and a kind that has no cipher. *)
Lemma cipher_cache_transparent_witness :
  get_ciphers (M:=Toy2022.toy) (N:=protocol_lengths) (R:=Demo.R)
    [(AEAD2022_BLAKE3_AES_128_GCM, Demo.key, 1); (AEAD2022_BLAKE3_AES_128_GCM, Demo.key, 1);
     (AEAD2022_BLAKE3_AES_128_GCM, Demo.key, 2); (AES_128_GCM, Demo.key, 2)] Demo.cache
  = (λ r, UdpCipher_new (M:=Toy2022.toy) (N:=protocol_lengths) r.1.1 (key_bytes r.1.2) r.2) <$>
    [(AEAD2022_BLAKE3_AES_128_GCM, Demo.key, 1); (AEAD2022_BLAKE3_AES_128_GCM, Demo.key, 1);
     (AEAD2022_BLAKE3_AES_128_GCM, Demo.key, 2); (AES_128_GCM, Demo.key, 2)].
Proof.
  apply (cipher_cache_transparent (LruCacheOk0:=ListLru.list_lru_ok) Demo.memory).
  repeat constructor.
Defined.

(** The hypothesis is needed, and sockets do not keep it: each copies its key to a box of
    its own ([UdpSocket.connect_with_opts]), whose address may be that of the key of an
    earlier socket.  For the same session the cache then answers with the cipher of the
    earlier key. *)
Example reused_address_stale :
  let new k := UdpCipher_new (M:=Toy2022.toy) (N:=protocol_lengths) (E:=Udp2022Error)
                 AEAD2022_BLAKE3_AES_128_GCM k 1 in
  let at_ k := {| as_ptr := 4096; key_bytes := k |} in
  get_ciphers (M:=Toy2022.toy) (N:=protocol_lengths) (R:=Demo.R)
    [(AEAD2022_BLAKE3_AES_128_GCM, at_ (replicate 16 7), 1);
     (AEAD2022_BLAKE3_AES_128_GCM, at_ (replicate 16 8), 1)] Demo.cache
  = [new (replicate 16 7); new (replicate 16 7)]
  ∧ new (replicate 16 7) ≠ new (replicate 16 8).
Proof. split; [vm_compute; reflexivity|]. vm_compute. discriminate. Qed.
