(* ===== verification/TcpAead2022.v ===== *)
(** * The AEAD-2022 stream protocol (lib/shadowsocks/src/tcp/aead2022.rs)

    The client's two directions:

      request:  salt, [identity headers], seal(type 0, timestamp, length), seal(data), chunks
      response: salt, seal(type 1, timestamp, request salt, length), seal(data), chunks

    The code is written for any [CipherKind]; the lengths and the cipher of the kinds that
    are named after the protocol are unfinished ([todo!()], [unreachable!()]), so that with
    them every call panics ([kind2022_read_panics]), and the theorems are about the kinds
    the cipher implements. *)

From S2P Require Import Prelude RustStr Io Address NetAddr Crypto Crypto2022 ServerConfig StreamBuf ChunkStream.

Local Open Scope async_scope.

(** AEAD packet payload must be smaller than 0xFFFF (u16::MAX) *)
Definition MAX_PACKET_SIZE : nat := Z.to_nat 65535.

(** "shadowsocks 2022 identity subkey" *)
Definition AEAD2022_EIH_SUBKEY_CONTEXT : bytes :=
  [115; 104; 97; 100; 111; 119; 115; 111; 99; 107; 115; 32; 50; 48; 50; 50; 32; 105; 100;
   101; 110; 116; 105; 116; 121; 32; 115; 117; 98; 107; 101; 121].

Definition SERVER_STREAM_TIMESTAMP_MAX_DIFF : Z := 30.

Inductive ProtocolError :=
  | IoError (e : ErrorKind)
  | HeaderTooShort (expected found : nat)
  | MissingExtendedIdentityHeader
  | InvalidClientUser (user : bytes)
  | DecryptHeaderChunkError
  | DecryptDataError
  | DecryptLengthError
  | InvalidStreamType (expected found : Z)
  | InvalidTimestamp (timestamp now : Z).

(** [impl From<ProtocolError> for io::Error], up to the kind of the error. *)
Definition into_io (e : ProtocolError) : ErrorKind :=
  match e with
  | IoError err => err
  | _ => OtherError
  end.

Inductive DecryptReadState :=
  | ReadHeader (key : bytes)
  | ReadLength
  | ReadData (length : nat)
  | BufferedData (pos : nat).

Section aead2022_stream.
Context `{L : CryptoLib} `{M : Crypto2022Lib}.

Record DecryptedReader := {
  rstate : DecryptReadState;
  rcipher : option Cipher;
  rbuffer : bytes;
  rkind : CipherKind;
  rsalt : option bytes;
  rrequest_salt : option bytes;
  rdata_chunk_count : Z;
  ruser_key : option bytes;
  rhandshaked : bool
}.

Definition DecryptedReader_new (kind : CipherKind) (key : bytes) : DecryptedReader :=
  {| rstate := ReadHeader key; rcipher := None; rbuffer := []; rkind := kind; rsalt := None;
     rrequest_salt := None; rdata_chunk_count := 0; ruser_key := None; rhandshaked := false |}.

Definition reader_salt (r : DecryptedReader) : option bytes := rsalt r.

Definition request_salt (r : DecryptedReader) : option bytes :=
  match rrequest_salt r with
  | Some n => if bool_decide (n = []) then None else Some n
  | None => None
  end.

Definition user_key (r : DecryptedReader) : option bytes := ruser_key r.
Definition handshaked (r : DecryptedReader) : bool := rhandshaked r.

(** The number of data chunks and the bytes that are left of the current one. *)
Definition current_data_chunk_remaining {E} `{Profile} (r : DecryptedReader) : res E (Z * Z) :=
  match rstate r with
  | BufferedData pos =>
    left ← arith_u 64 (Z.of_nat (length (rbuffer r)) - Z.of_nat pos);
    Ok (rdata_chunk_count r, left)
  | _ => Ok (rdata_chunk_count r, 0)
  end.

Definition set_buffer (b : bytes) (r : DecryptedReader) : DecryptedReader :=
  {| rstate := rstate r; rcipher := rcipher r; rbuffer := b; rkind := rkind r;
     rsalt := rsalt r; rrequest_salt := rrequest_salt r;
     rdata_chunk_count := rdata_chunk_count r; ruser_key := ruser_key r;
     rhandshaked := rhandshaked r |}.
Definition set_state (st : DecryptReadState) (r : DecryptedReader) : DecryptedReader :=
  {| rstate := st; rcipher := rcipher r; rbuffer := rbuffer r; rkind := rkind r;
     rsalt := rsalt r; rrequest_salt := rrequest_salt r;
     rdata_chunk_count := rdata_chunk_count r; ruser_key := ruser_key r;
     rhandshaked := rhandshaked r |}.
Definition set_cipher (c : Cipher) (r : DecryptedReader) : DecryptedReader :=
  {| rstate := rstate r; rcipher := Some c; rbuffer := rbuffer r; rkind := rkind r;
     rsalt := rsalt r; rrequest_salt := rrequest_salt r;
     rdata_chunk_count := rdata_chunk_count r; ruser_key := ruser_key r;
     rhandshaked := rhandshaked r |}.
Definition set_salt (b : bytes) (r : DecryptedReader) : DecryptedReader :=
  {| rstate := rstate r; rcipher := rcipher r; rbuffer := rbuffer r; rkind := rkind r;
     rsalt := Some b; rrequest_salt := rrequest_salt r;
     rdata_chunk_count := rdata_chunk_count r; ruser_key := ruser_key r;
     rhandshaked := rhandshaked r |}.
Definition set_request_salt (b : bytes) (r : DecryptedReader) : DecryptedReader :=
  {| rstate := rstate r; rcipher := rcipher r; rbuffer := rbuffer r; rkind := rkind r;
     rsalt := rsalt r; rrequest_salt := Some b;
     rdata_chunk_count := rdata_chunk_count r; ruser_key := ruser_key r;
     rhandshaked := rhandshaked r |}.
Definition count_chunk (r : DecryptedReader) : DecryptedReader :=
  {| rstate := rstate r; rcipher := rcipher r; rbuffer := rbuffer r; rkind := rkind r;
     rsalt := rsalt r; rrequest_salt := rrequest_salt r;
     rdata_chunk_count := wrap_u 64 (rdata_chunk_count r + 1); ruser_key := ruser_key r;
     rhandshaked := rhandshaked r |}.
Definition set_handshaked (r : DecryptedReader) : DecryptedReader :=
  {| rstate := rstate r; rcipher := rcipher r; rbuffer := rbuffer r; rkind := rkind r;
     rsalt := rsalt r; rrequest_salt := rrequest_salt r;
     rdata_chunk_count := rdata_chunk_count r; ruser_key := ruser_key r;
     rhandshaked := true |}.

Global Instance reader_ReadBuffer : ReadBuffer DecryptedReader :=
  { rbuf := rbuffer; set_rbuf := set_buffer }.
Global Instance reader_ReadBufferOk : ReadBufferOk DecryptedReader.
Proof. by split; [| |intros []]. Qed.

Section reader.
Context {T : Type} `{AsyncRead T}.

Abbreviation IO A := (async (DecryptedReader * T) ProtocolError A).

(** The fields of a header that was decrypted; the cursor runs over the tag as well. *)
Definition parse_header (now : Z) (salt_len : nat) (header_chunk : bytes)
  : res ProtocolError (bytes * nat) :=
  '(stream_ty, rd) ← get_uint 1 header_chunk;
  let expected_stream_ty := 1 in
  _ ← fail_if (negb (stream_ty =? expected_stream_ty))
              (InvalidStreamType expected_stream_ty stream_ty);
  '(timestamp, rd) ← get_uint 8 rd;
  _ ← fail_if (SERVER_STREAM_TIMESTAMP_MAX_DIFF <? abs_diff now timestamp)
              (InvalidTimestamp timestamp now);
  '(salt, rd) ← map_err IoError (read_exact salt_len (cursor rd));
  '(data_length, _) ← get_uint 2 (avail rd);
  Ok (salt, Z.to_nat data_length).

(** The header is read in one call; [now] is the reading of the clock. *)
Definition poll_read_header (now : Z) (key : bytes) : IO (option nat) :=
  let! r := self in
  let! salt_len := lift (salt_len (rkind r)) in
  let! tag_len := lift (tag_len (rkind r)) in
  let request_salt_len := salt_len in
  let eih_len := 0%nat in
  let header_len := (salt_len + eih_len + 1 + 8 + request_salt_len + 2 + tag_len)%nat in
  modify (λ r, if bool_decide (length (rbuffer r) < header_len)%nat
               then set_buffer (rbuffer r ++ replicate (header_len - length (rbuffer r)) 0) r
               else r) ;!
  let! header_buf := async_map_err IoError (poll_transport header_len) in
  modify (λ r, set_buffer (header_buf ++ drop (length header_buf) (rbuffer r)) r) ;!
  if bool_decide (header_buf = []) then ret None
  else if bool_decide (length header_buf ≠ header_len) then
    fail (HeaderTooShort header_len (length header_buf))
  else
  let salt := take salt_len header_buf in
  let header_chunk := drop salt_len header_buf in
  let! cipher := lift (Cipher_new (rkind r) key salt) in
  let! '(ok, header_chunk, cipher) := lift (decrypt cipher header_chunk) in
  modify (λ r, set_buffer (salt ++ header_chunk ++ drop header_len (rbuffer r)) r) ;!
  if negb ok then fail DecryptHeaderChunkError else
  let! '(request_salt, data_length) := lift (parse_header now request_salt_len header_chunk) in
  (if bool_decide (0 < request_salt_len)%nat then modify (set_request_salt request_salt)
   else ret ()) ;!
  modify (λ r, set_cipher cipher (set_salt salt r)) ;!
  ret (Some data_length).

(** The outcome, and what is left in the two arguments it mutates. *)
Definition decrypt_length (cipher : Cipher) (m : bytes)
  : res ProtocolError (res ProtocolError nat * bytes * Cipher) :=
  '(ok, m, cipher) ← decrypt cipher m;
  let plen := Z.to_nat (be_decode (take 2 m)) in
  Ok (if negb ok then Err DecryptLengthError else Ok plen, m, cipher).

Definition poll_read_exact (size : nat) : async (DecryptedReader * T) ErrorKind nat :=
  pool_read_exact size.

(** [io::Result]: a [ProtocolError] of [decrypt_length] is converted to it by [?], and back
    by the caller. *)
Definition poll_read_length : async (DecryptedReader * T) ErrorKind (option nat) :=
  let! r := self in
  let! tag_len := lift (tag_len (rkind r)) in
  let length_len := (2 + tag_len)%nat in
  let! n := poll_read_exact length_len in
  if bool_decide (n = 0)%nat then ret None else
  let! r := self in
  let! cipher := lift (expect (rcipher r)) in
  let! m := lift (slice (rbuffer r) 0 length_len) in
  let! '(outcome, m, cipher) := lift (map_err into_io (decrypt_length cipher m)) in
  modify (λ r, set_cipher cipher (set_buffer (m ++ drop length_len (rbuffer r)) r)) ;!
  let! length := lift (map_err into_io outcome) in
  ret (Some length).

Definition poll_read_data (size : nat) : IO () :=
  let! r := self in
  let! tag_len := lift (tag_len (rkind r)) in
  let data_len := (size + tag_len)%nat in
  let! n := async_map_err IoError (poll_read_exact data_len) in
  if bool_decide (n = 0)%nat then fail (IoError UnexpectedEof) else
  let! r := self in
  let! cipher := lift (expect (rcipher r)) in
  let! m := lift (slice (rbuffer r) 0 data_len) in
  let! '(ok, m, cipher) := lift (decrypt cipher m) in
  modify (λ r, set_cipher cipher (set_buffer (m ++ drop data_len (rbuffer r)) r)) ;!
  if negb ok then fail DecryptDataError else
  modify (λ r, set_buffer (take size (rbuffer r)) r).

(** One turn of the loop of [poll_read_decrypted]: [Some bs] when the call returns,
    having put [bs] into the caller's buffer. *)
Definition read_turn (now : Z) (room : nat) : IO (option bytes) :=
  let! r := self in
  match rstate r with
  | ReadHeader key =>
    let! header := poll_read_header now key in
    match header with
    | None => ret (Some [])
    | Some length =>
      modify (λ r, set_handshaked (set_state (ReadData length) (set_buffer [] r))) ;!
      ret None
    end
  | ReadLength =>
    let! length := async_map_err IoError poll_read_length in
    match length with
    | None => ret (Some [])
    | Some length =>
      modify (λ r, set_state (ReadData length) (set_buffer [] r)) ;!
      ret None
    end
  | ReadData length =>
    poll_read_data length ;!
    modify (λ r, count_chunk (set_state (BufferedData 0) r)) ;!
    ret None
  | BufferedData pos =>
    if bool_decide (pos < length (rbuffer r))%nat then
      let buffered := drop pos (rbuffer r) in
      let consumed := Nat.min (length buffered) room in
      modify (set_state (BufferedData (pos + consumed))) ;!
      ret (Some (take consumed buffered))
    else
      modify (λ r, set_state ReadLength (set_buffer [] r)) ;!
      ret None
  end.

(** [poll_read_decrypted] with a caller's buffer that has [room] bytes left. *)
Fixpoint poll_read_decrypted (fuel : nat) (now : Z) (room : nat) : IO bytes :=
  match fuel with
  | O => no_fuel
  | S fuel =>
    let! done := read_turn now room in
    match done with
    | Some bs => ret bs
    | None => poll_read_decrypted fuel now room
    end
  end.
End reader.

Inductive EncryptWriteState :=
  | AssembleHeader
  | AssemblePacket
  | Writing (pos : nat).

Record EncryptedWriter := {
  wcipher : Cipher;
  wmethod : CipherKind;
  wbuffer : bytes;
  wstate : EncryptWriteState;
  wsalt : bytes;
  wrequest_salt : option bytes
}.

(** One extensible identity header. *)
Definition make_eih {E} (method : CipherKind) (sub_key ipsk buffer : bytes) : res E bytes :=
  let ipsk_hash := blake3_hash ipsk in
  ipsk_plain_text ← slice ipsk_hash 0 16;
  match method with
  | AEAD2022_BLAKE3_AES_128_GCM =>
    enc_key ← slice sub_key 0 16;
    Ok (buffer ++ aes_enc enc_key ipsk_plain_text)
  | AEAD2022_BLAKE3_AES_256_GCM =>
    enc_key ← slice sub_key 0 32;
    Ok (buffer ++ aes_enc enc_key ipsk_plain_text)
  | _ => Panic
  end.

(** [for ipsk in identity_keys], and the header of [key] after the last of them. *)
Fixpoint eih_loop {E} (method : CipherKind) (key nonce : bytes) (sub_key : option bytes)
    (identity_keys : list bytes) (buffer : bytes) : res E bytes :=
  match identity_keys with
  | [] =>
    match sub_key with
    | Some sub_key => make_eih method sub_key key buffer
    | None => Ok buffer
    end
  | ipsk :: identity_keys =>
    buffer ← match sub_key with
             | Some sub_key => make_eih method sub_key ipsk buffer
             | None => Ok buffer
             end;
    let key_material := ipsk ++ nonce in
    eih_loop method key nonce (Some (blake3_derive AEAD2022_EIH_SUBKEY_CONTEXT key_material 32))
      identity_keys buffer
  end.

Definition with_identity {E} (method : CipherKind) (key nonce : bytes)
    (identity_keys : list bytes) : res E EncryptedWriter :=
  buffer ← (if method_support_eih method then eih_loop method key nonce None identity_keys nonce
            else Ok nonce);
  cipher ← Cipher_new method key nonce;
  Ok {| wcipher := cipher; wmethod := method; wbuffer := buffer; wstate := AssembleHeader;
        wsalt := nonce; wrequest_salt := None |}.

Definition EncryptedWriter_new {E} (kind : CipherKind) (key nonce : bytes)
  : res E EncryptedWriter := with_identity kind key nonce [].

Definition writer_salt (w : EncryptedWriter) : bytes := wsalt w.

Definition reset_cipher_with_key {E} (key : bytes) (w : EncryptedWriter) : res E EncryptedWriter :=
  cipher ← Cipher_new (wmethod w) key (wsalt w);
  Ok {| wcipher := cipher; wmethod := wmethod w; wbuffer := wbuffer w; wstate := wstate w;
        wsalt := wsalt w; wrequest_salt := wrequest_salt w |}.

(** [encrypt] of a plaintext placed in front of [tag_len] bytes of spare capacity. *)
Definition append_sealed {E} (w : EncryptedWriter) (pt : bytes) : res E EncryptedWriter :=
  tag_len ← cipher_tag_len (wcipher w);
  '(out, cipher) ← encrypt (wcipher w) (pt ++ replicate tag_len 0);
  Ok {| wcipher := cipher; wmethod := wmethod w; wbuffer := wbuffer w ++ out;
        wstate := wstate w; wsalt := wsalt w; wrequest_salt := wrequest_salt w |}.

Definition set_pos (pos : nat) (w : EncryptedWriter) : EncryptedWriter :=
  {| wcipher := wcipher w; wmethod := wmethod w; wbuffer := wbuffer w; wstate := Writing pos;
     wsalt := wsalt w; wrequest_salt := wrequest_salt w |}.
Definition reset_state (w : EncryptedWriter) : EncryptedWriter :=
  {| wcipher := wcipher w; wmethod := wmethod w; wbuffer := []; wstate := AssemblePacket;
     wsalt := wsalt w; wrequest_salt := wrequest_salt w |}.

Global Instance writer_WriteBuffer : WriteBuffer EncryptedWriter :=
  { wbuf := wbuffer; set_wpos := set_pos }.
Global Instance writer_WriteBufferOk : WriteBufferOk EncryptedWriter.
Proof. by split. Qed.

(** The header before encryption; [buf.len() as u16]. *)
Definition header_plain (now : Z) (request_salt : option bytes) (len : nat) : bytes :=
  let stream_ty := 0 in
  be_encode 1 stream_ty ++ put_u64 now ++ default [] request_salt
  ++ put_u16 (wrap_u 16 (Z.of_nat len)).

(** Steps 1 to 3 of [AssembleHeader]. *)
Definition assemble_header {E} (now : Z) (buf : bytes) (w : EncryptedWriter)
  : res E EncryptedWriter :=
  w ← append_sealed w (header_plain now (wrequest_salt w) (length buf));
  w ← append_sealed w buf;
  Ok (set_pos 0 w).

(** Steps 1 to 3 of [AssemblePacket]. *)
Definition assemble_packet {E} (buf : bytes) (w : EncryptedWriter) : res E EncryptedWriter :=
  w ← append_sealed w (put_u16 (wrap_u 16 (Z.of_nat (length buf))));
  w ← append_sealed w buf;
  Ok (set_pos 0 w).

Section writer.
Context {T : Type} `{AsyncWrite T}.

Abbreviation IO A := (async (EncryptedWriter * T) ErrorKind A).

Definition poll_write_encrypted (now : Z) (buf : bytes) : IO nat :=
  let buf := if bool_decide (MAX_PACKET_SIZE < length buf)%nat
             then take MAX_PACKET_SIZE buf else buf in
  let! w := self in
  let! w := lift (match wstate w with
            | AssembleHeader => assemble_header now buf w
            | AssemblePacket => assemble_packet buf w
            | Writing _ => Ok w
            end) in
  modify (λ _, w) ;!
  let pos := match wstate w with Writing pos => pos | _ => 0%nat end in
  writing_loop (length (wbuffer w)) pos ;!
  modify reset_state ;!
  ret (length buf).
End writer.
End aead2022_stream.

(** With the kinds named after the protocol, which have no lengths and no cipher, nothing
    can be read or written. *)
Lemma kind2022_read_panics `{L : CryptoLib} {T} `{AsyncRead T} kind key (s : T) fuel now room :
  is_aead2022 kind = true →
  (poll_read_decrypted (S fuel) now room (DecryptedReader_new kind key, s)).1 = Ready Panic.
Proof. by destruct kind. Qed.

Lemma kind2022_write_panics `{L : CryptoLib} `{M : Crypto2022Lib} kind key nonce ks w :
  is_aead2022 kind = true → with_identity (E:=ErrorKind) kind key nonce ks ≠ Ok w.
Proof.
  intros Hk (buffer & _ & (ci & Hci & _)%bind_Ok)%bind_Ok.
  apply Cipher_new_Ok_wf in Hci as (_ & _ & ?). by destruct kind.
Qed.

(** ** The reference decoders *)

Section decode.
Context `{L : CryptoLib}.

Definition decode : nat → Cipher → bytes → option (bytes * verdict ProtocolError) :=
  decode_chunks (IoError OtherError) DecryptDataError (λ _, None).

Definition header_len (salt_len : nat) : nat := (salt_len + 1 + 8 + salt_len + 2 + 16)%nat.

(** What the plaintext of a header says, field by field at its fixed offset: the type 1 of
    servers, a stamp within 30 of the time [now], the salt of the request and the length
    of the first chunk. *)
Definition header_says (now : Z) (n : nat) (h : bytes) : res ProtocolError (bytes * nat) :=
  let ty := be_decode (take 1 h) in
  let ts := be_decode (take 8 (drop 1 h)) in
  if negb (ty =? 1) then Err (InvalidStreamType 1 ty)
  else if 30 <? abs_diff now ts then Err (InvalidTimestamp ts now)
  else Ok (take n (drop 9 h), plen (drop (9 + n) h)).

(** What a response means to a client that reads its header at the time [now]: the salt of
    the request it answers, the authentic data up to the first defect, and how the wire
    ends. *)
Definition decode_response (fuel : nat) (now : Z) (kind : CipherKind) (key w : bytes)
  : option (option bytes * (bytes * verdict ProtocolError)) :=
  match salt_len (E:=()) kind with
  | Ok n =>
    if bool_decide (w = []) then Some (None, ([], Clean))
    else if bool_decide (length w < header_len n)%nat
    then Some (None, ([], Bad (HeaderTooShort (header_len n) (length w))))
    else match Cipher_new (E:=()) kind key (take n w) with
    | Ok ci =>
      match opened ci (drop n (take (header_len n) w)) with
      | None => Some (None, ([], Bad DecryptHeaderChunkError))
      | Some h =>
        match header_says now n h with
        | Ok (req, len) =>
          r ← decode_data DecryptDataError (decode fuel) (increase_nonce ci) len
                (drop (header_len n) w);
          Some (Some req, r)
        | Err e => Some (None, ([], Bad e))
        | Panic => None
        end
      end
    | _ => None
    end
  | _ => None
  end.

(** What a request means to a server: its timestamp and the data. *)
Definition decode_request (fuel : nat) (kind : CipherKind) (key w : bytes)
  : option (Z * (bytes * verdict ProtocolError)) :=
  match salt_len (E:=()) kind with
  | Ok n =>
    match Cipher_new (E:=()) kind key (take n w) with
    | Ok ci =>
      h ← opened ci (take 27 (drop n w));
      if bool_decide (take 1 h = [0]) then
        r ← decode_data DecryptDataError (decode fuel) (increase_nonce ci)
              (Z.to_nat (be_decode (take 2 (drop 9 h)))) (drop (n + 27) w);
        Some (be_decode (take 8 (drop 1 h)), r)
      else None
    | _ => None
    end
  | _ => None
  end.

(** The response of a server. *)
Definition response_wire (ci : Cipher) (salt req : bytes) (ts : Z) (first : bytes)
    (chunks : list bytes) : bytes :=
  salt ++ sealed ci (be_encode 1 1 ++ put_u64 ts ++ req ++ put_u16 (Z.of_nat (length first)))
  ++ sealed (increase_nonce ci) first ++ chunks_wire (increase_nonce (increase_nonce ci)) chunks.

(** The request of a client. *)
Definition request_wire (ci : Cipher) (salt : bytes) (ts : Z) (first : bytes)
    (chunks : list bytes) : bytes :=
  salt ++ sealed ci (header_plain ts None (length first))
  ++ sealed (increase_nonce ci) first ++ chunks_wire (increase_nonce (increase_nonce ci)) chunks.
End decode.

Section decode_facts.
Context `{L : CryptoLib} `{!CryptoLibOk L}.

(** The fields of a header, wherever it ends. *)
Lemma parse_header_fields now n h tl :
  (n + 11 ≤ length h)%nat →
  parse_header now n (h ++ tl) = header_says now n h.
Proof.
  intros Hl. unfold parse_header, header_says.
  rewrite get_uint_long by (rewrite length_app; lia). cbn [mbind res_bind].
  rewrite take_app_le, drop_app_le by lia. destruct (_ =? 1); [|done]. cbn [negb fail_if mbind res_bind].
  rewrite get_uint_long by solve_len. cbn [mbind res_bind].
  rewrite take_app_le, drop_app_le by solve_len.
  unfold SERVER_STREAM_TIMESTAMP_MAX_DIFF. destruct (30 <? _); [done|]. cbn [fail_if mbind res_bind].
  unfold read_exact, cursor. cbn [avail fin].
  rewrite bool_decide_eq_true_2 by solve_len. cbn [map_err mbind res_bind avail].
  rewrite drop_drop, take_app_le, drop_app_le by solve_len.
  rewrite get_uint_long by solve_len. cbn [mbind res_bind].
  rewrite drop_drop, take_app_le by solve_len. unfold plen. done.
Qed.

Lemma opened_header ci n w h :
  opened ci (drop n (take (header_len n) w)) = Some h → (header_len n ≤ length w)%nat →
  length h = (n + 11)%nat.
Proof.
  intros Ho Hl. unfold header_len in *. apply opened_length in Ho; rewrite length_drop, length_take in *; lia.
Qed.

Lemma decode_response_header fuel now kind key n bs c :
  salt_len (E:=()) kind = Ok n → length bs = header_len n →
  decode_response fuel now kind key (bs ++ c)
  = match Cipher_new (E:=()) kind key (take n bs) with
    | Ok ci =>
      match opened ci (drop n bs) with
      | None => Some (None, ([], Bad DecryptHeaderChunkError))
      | Some h =>
        match header_says now n h with
        | Ok (req, len) =>
          r ← decode_data DecryptDataError (decode fuel) (increase_nonce ci) len c;
          Some (Some req, r)
        | Err e => Some (None, ([], Bad e))
        | Panic => None
        end
      end
    | _ => None
    end.
Proof.
  intros Hn Hl. unfold decode_response. rewrite Hn.
  rewrite bool_decide_eq_false_2
    by (intros E0%(f_equal length); rewrite length_app, Hl in E0; unfold header_len in E0; simpl in E0; lia).
  rewrite bool_decide_eq_false_2 by (rewrite length_app; lia).
  rewrite (take_app_le bs c n) by (unfold header_len in Hl; lia).
  by rewrite (take_app_length' bs c), (drop_app_length' bs c) by done.
Qed.

(** Every response has a meaning. *)
Lemma decode_response_total fuel now kind key w :
  is_aead kind = true → key_len (E:=()) kind = Ok (length key) → (length w < fuel)%nat →
  decode_response fuel now kind key w ≠ None.
Proof.
  intros Hk Hkey Hf. unfold decode_response, salt_len. rewrite Hkey.
  repeat (case_bool_decide; [done|]).
  destruct (Cipher_new_wf (E:=()) kind key (take (length key) w) Hk (eq_sym Hkey))
    as (ci & -> & _).
  destruct (opened ci _) as [h|] eqn:Eo; [|done]. apply opened_header in Eo; [|lia].
  unfold header_says. cbv zeta. repeat case_match; try done.
  match goal with |- (_ ← ?d; _) ≠ None => enough (d ≠ None); [by destruct d|] end.
  apply decode_data_total. intros ci' w' Hw'. rewrite length_drop in Hw'.
  apply decode_chunks_total. lia.
Qed.

Lemma wrap_u16_small n : Z.of_nat n < 65536 → wrap_u 16 (Z.of_nat n) = Z.of_nat n.
Proof. intros. apply wrap_u_small. lia. Qed.

Lemma parse_header_built now n ty ts req len tl :
  0 <= ty < 256 → 0 <= ts < 2 ^ 64 → length req = n → 0 <= len < 65536 →
  parse_header now n (be_encode 1 ty ++ put_u64 ts ++ req ++ put_u16 len ++ tl)
  = if negb (ty =? 1) then Err (InvalidStreamType 1 ty)
    else if 30 <? abs_diff now ts then Err (InvalidTimestamp ts now)
    else Ok (req, Z.to_nat len).
Proof.
  intros Hty Hts Hreq Hlen. unfold parse_header, SERVER_STREAM_TIMESTAMP_MAX_DIFF.
  rewrite get_uint_encode by (simpl; lia). cbn [mbind res_bind].
  destruct (ty =? 1); [|done]. cbn [negb fail_if mbind res_bind].
  unfold put_u64. rewrite get_uint_encode by (simpl; lia). cbn [mbind res_bind].
  destruct (30 <? _); [done|]. cbn [fail_if mbind res_bind]. unfold cursor.
  rewrite read_exact_app by done. cbn [map_err mbind res_bind avail]. unfold put_u16.
  by rewrite get_uint_encode by (simpl; lia).
Qed.

(** The response of a server means its data, if the clocks agree. *)
Lemma decode_response_wire fuel now kind key salt ci req ts first chunks :
  salt_len (E:=()) kind = Ok (length salt) → Cipher_new (E:=()) kind key salt = Ok ci →
  length req = length salt → 0 <= ts < 2 ^ 64 → abs_diff now ts <= 30 →
  Forall (λ p, Z.of_nat (length p) < 65536) (first :: chunks) → (length chunks < fuel)%nat →
  decode_response fuel now kind key (response_wire ci salt req ts first chunks)
  = Some (Some req, (concat (first :: chunks), Clean)).
Proof.
  intros Hs Hci Hreq Hts Hnow [Hf Hc]%Forall_cons_1 Hfuel. unfold response_wire.
  set (h := be_encode 1 1 ++ _).
  assert (length h = (length salt + 11)%nat) as Hlh by (subst h; solve_len).
  rewrite app_assoc, (decode_response_header _ _ _ _ (length salt)); [|done|];
    [|rewrite length_app, length_sealed; unfold header_len; lia].
  rewrite take_app_length, drop_app_length, Hci, opened_sealed.
  pose proof (parse_header_built now (length salt) 1 ts req (Z.of_nat (length first)) [])
    as Hp. rewrite app_nil_r in Hp. fold h in Hp.
  rewrite <- (parse_header_fields _ _ h []), app_nil_r, Hp by lia. clear Hp.
  cbn [Z.eqb negb Pos.eqb]. rewrite (proj2 (Z.ltb_ge 30 _)), Nat2Z.id by lia.
  rewrite decode_data_sealed by done.
  unfold decode. rewrite decode_chunks_wire; [done|done| |done].
  eapply Forall_impl; [|exact Hc]. done.
Qed.
(** Defects of the wire that are reported as errors of [io] have the kind [Other]. *)
Lemma decode_response_io f t kind key w m pt k :
  key_len (E:=()) kind = Ok (length key) →
  decode_response f t kind key w = Some (m, (pt, Bad (IoError k))) → k = OtherError.
Proof.
  intros Hkey. unfold decode_response, salt_len. rewrite Hkey.
  case_bool_decide; [done|]. case_bool_decide as Hl; [done|].
  destruct (Cipher_new _ _ _) as [ci| |]; try done.
  destruct (opened ci _) as [h|] eqn:Eo; [|done]. apply opened_header in Eo; [|lia].
  unfold header_says. cbv zeta.
  repeat case_match; simplify_eq; try (intros; congruence).
  destruct (decode_data _ _ _ _ _) as [[pt' v']|] eqn:Ed; intros; simplify_eq/=.
  apply decode_data_bad in Ed as [?|(ci' & w' & pt' & Ed)]; [done|].
  apply decode_chunks_bad in Ed as [?|[?|[? ?]]]; congruence.
Qed.

End decode_facts.

(** ** The reader refines the decoder of responses *)

Section reader_proof.
Context `{L : CryptoLib} `{!CryptoLibOk L}.
Context {T : Type} `{AsyncRead T} `{!AsyncReadOk T}.
Implicit Types (r : DecryptedReader) (s : T) (v : verdict ProtocolError).

(** Before the header: nothing is known but the wire. *)
Record at_header (r : DecryptedReader) (s : T) (kind : CipherKind) (key w : bytes) : Prop := {
  hd_state : rstate r = ReadHeader key;
  hd_kind : rkind r = kind;
  hd_wire : readable s w;
  hd_fresh : rhandshaked r = false;
  hd_count : rdata_chunk_count r = 0;
  hd_user : ruser_key r = None
}.

(** After it: the salt of the request, the kind of the cipher and a count of chunks that
    cannot wrap while [len] bytes are left. *)
Record session (r : DecryptedReader) (req : bytes) (len : nat) : Prop := {
  ses_kind : is_aead (rkind r) = true;
  ses_req : rrequest_salt r = Some req;
  ses_hand : rhandshaked r = true;
  ses_count : 0 <= rdata_chunk_count r ∧ rdata_chunk_count r + Z.of_nat len < 2 ^ 64;
  ses_user : ruser_key r = None
}.

Inductive reader_sees (r : DecryptedReader) (s : T) (req : bytes) :
    nat → bytes → verdict ProtocolError → Prop :=
  | sees_length ci w f pt v
      (Hst : rstate r = ReadLength) (Hses : session r req (length w))
      (Hw : pending_wire r s w) (Hci : rcipher r = Some ci) (Hwf : cipher_wf ci)
      (Hb : (length (rbuf r) ≤ 18)%nat) (Hdec : decode f ci w = Some (pt, v)) :
    reader_sees r s req (length w + 2) pt v
  | sees_data ci len w f pt v
      (Hst : rstate r = ReadData len) (Hses : session r req (length w))
      (Hw : pending_wire r s w) (Hci : rcipher r = Some ci) (Hwf : cipher_wf ci)
      (Hb : (length (rbuf r) ≤ len + 16)%nat)
      (Hdec : decode_data DecryptDataError (decode f) ci len w = Some (pt, v)) :
    reader_sees r s req (length w + 2) pt v
  | sees_buffered ci pos w f pt v
      (Hst : rstate r = BufferedData pos) (Hses : session r req (length w))
      (Hcount : 0 < rdata_chunk_count r) (Hbuf : Z.of_nat (length (rbuf r)) < 2 ^ 64)
      (Hs : readable s w) (Hci : rcipher r = Some ci) (Hwf : cipher_wf ci)
      (Hpos : (pos ≤ length (rbuf r))%nat) (Hdec : decode f ci w = Some (pt, v)) :
    reader_sees r s req (length w + 3) (drop pos (rbuf r) ++ pt) v.

Lemma sees_session r s req n pt v : reader_sees r s req n pt v → ∃ len, session r req len.
Proof. destruct 1; eauto. Qed.

Definition sees_kept req (n : nat) (pt : bytes) v (st : DecryptedReader * T) : Prop :=
  ∃ n', (n' ≤ n)%nat ∧ reader_sees st.1 st.2 req n' pt v.
Definition sees_failed req (n : nat) (pt : bytes) v (e : ProtocolError)
    (st : DecryptedReader * T) :=
  ((∃ k, e = IoError k) ∧ sees_kept req n pt v st) ∨ (pt = [] ∧ v = Bad e).

Definition turn_post req (room n : nat) (pt : bytes) v (out : option bytes)
    (st : DecryptedReader * T) : Prop :=
  match out with
  | None => ∃ n', (n' < n)%nat ∧ reader_sees st.1 st.2 req n' pt v
  | Some bs =>
    ∃ n' pt', (n' ≤ n)%nat ∧ pt = bs ++ pt' ∧ reader_sees st.1 st.2 req n' pt' v
      ∧ (length bs ≤ room)%nat ∧ (bs = [] → (0 < room)%nat → pt = [] ∧ v = Clean)
      ∧ (bs ≠ [] → 0 < rdata_chunk_count st.1)
  end.

Abbreviation turn_spec req now room n pt v r s :=
  (wp (read_turn now room) (turn_post req room n pt v) (sees_kept req n pt v)
      (sees_failed req n pt v) (r, s)).

Lemma decrypt_length_opens_2022 ci m :
  cipher_wf ci → length m = 18%nat →
  ∃ m', decrypt_length ci m = Ok (match opened ci m with
    | None => Err DecryptLengthError
    | Some pt => Ok (plen pt)
    end, m', increase_nonce ci).
Proof.
  intros Hwf Hm. destruct (decrypt_opens (E:=ProtocolError) ci m Hwf ltac:(lia))
    as (out & Hlen & Hd & Ho).
  unfold decrypt_length. rewrite Hd. cbn [mbind res_bind]. exists out.
  destruct (opened ci m) as [pt|] eqn:Eo; [|done].
  rewrite bool_decide_eq_true_2 by done. cbn [negb].
  pose proof (opened_length _ _ _ Eo ltac:(lia)). rewrite (Ho pt eq_refl).
  unfold plen. by rewrite take_app_le by lia.
Qed.

Lemma session_buffer r req len b : session r req len → session (set_buffer b r) req len.
Proof. by intros []. Qed.

Lemma turn_length_2022 now room r s req ci w f pt v :
  rstate r = ReadLength → session r req (length w) →
  pending_wire r s w → rcipher r = Some ci → cipher_wf ci →
  (length (rbuf r) ≤ 18)%nat → decode f ci w = Some (pt, v) →
  turn_spec req now room (length w + 2)%nat pt v r s.
Proof.
  intros Hst Hses Hw Hci Hwf Hb Hdec. pose proof (ses_kind _ _ _ Hses) as Hk.
  assert (∀ st, in_progress r 18 w st → sees_kept req (length w + 2) pt v st) as Hkept.
  { intros ? (b & s' & -> & Hw' & Hb'). eexists; split; [done|].
    eapply (sees_length _ _ _ ci w f); try done; by apply session_buffer. }
  unfold read_turn, poll_read_length, poll_read_exact. steps. rewrite Hst. steps.
  eapply wp_lift; [by apply aead_tag_len|]. steps.
  eapply wp_mono; [by apply (pool_read_exact_spec 18 r s w)| |done|
                   by intros e st ?; left; split; [eexists|apply Hkept]].
  destruct f as [|f]; [done|]. unfold decode in Hdec. cbn [decode_chunks] in Hdec.
  intros n st [(-> & b & c & s' & -> & Hs' & -> & Hlb)|(-> & -> & Hin)].
  - rewrite bool_decide_eq_false_2 in Hdec by (intros [-> ->]%app_nil; done).
    rewrite bool_decide_eq_false_2 in Hdec by (rewrite length_app; lia).
    rewrite take_app_length', drop_app_length' in Hdec by done.
    rewrite bool_decide_eq_false_2 by lia. steps.
    eapply wp_lift; [by simpl; rewrite Hci|]. steps.
    eapply wp_lift; [simpl; rewrite <- Hlb; apply slice_full|]. steps.
    destruct (decrypt_length_opens_2022 ci b Hwf Hlb) as (m' & Hm).
    eapply wp_lift; [by rewrite Hm|]. steps.
    destruct (opened ci b) as [m|]; [|right; by simplify_eq].
    eapply wp_lift; [done|]. steps.
    exists (length c + 2)%nat. split; [rewrite length_app; lia|].
    eapply (sees_data _ _ _ (increase_nonce ci) (plen m) c f); try done.
    + destruct Hses as [? ? ? [? ?] ?]. rewrite length_app in *. split; try done. simpl. lia.
    + by exists c.
    + by apply increase_nonce_wf.
    + simpl. lia.
  - rewrite bool_decide_eq_true_2 in Hdec by done. simplify_eq. rewrite bool_decide_eq_true_2 by done.
    steps. destruct (Hkept _ Hin) as (n' & ? & ?).
    exists n', []. split_and!; [done|done|done|simpl; lia|done|done].
Qed.

Lemma turn_data_2022 now room r s req ci len w f pt v :
  rstate r = ReadData len → session r req (length w) →
  pending_wire r s w → rcipher r = Some ci → cipher_wf ci →
  (length (rbuf r) ≤ len + 16)%nat →
  decode_data DecryptDataError (decode f) ci len w = Some (pt, v) →
  turn_spec req now room (length w + 2)%nat pt v r s.
Proof.
  intros Hst Hses Hw Hci Hwf Hb Hdec. pose proof (ses_kind _ _ _ Hses) as Hk.
  assert (∀ st, in_progress r (len + 16) w st → sees_kept req (length w + 2) pt v st) as Hkept.
  { intros ? (b & s' & -> & Hw' & Hb'). eexists; split; [done|].
    eapply (sees_data _ _ _ ci len w f); try done; by apply session_buffer. }
  unfold read_turn, poll_read_data, poll_read_exact. steps. rewrite Hst. steps.
  eapply wp_lift; [by apply aead_tag_len|]. steps.
  eapply wp_mono; [apply (pool_read_exact_spec (len + 16) r s w); auto with lia| |done|
                   by intros e st ?; left; split; [eexists|apply Hkept]].
  intros n st [(-> & b & c & s' & -> & Hs' & -> & Hlb)|(-> & -> & Hin)].
  2:{ rewrite bool_decide_eq_true_2 by done. steps. left. split; [by eexists|by apply Hkept]. }
  unfold decode_data in Hdec.
  rewrite bool_decide_eq_false_2 in Hdec by (rewrite length_app; lia).
  rewrite take_app_length', drop_app_length' in Hdec by done.
  rewrite bool_decide_eq_false_2 by lia. steps.
  eapply wp_lift; [by simpl; rewrite Hci|]. steps.
  eapply wp_lift; [simpl; rewrite <- Hlb; apply slice_full|]. steps.
  destruct (decrypt_opens (E:=ProtocolError) ci b Hwf ltac:(lia)) as (out & Hlo & Hd & Ho).
  eapply wp_lift; [exact Hd|]. steps.
  destruct (opened ci b) as [p|] eqn:Eo.
  2:{ rewrite bool_decide_eq_false_2 by naive_solver. steps. right. by simplify_eq. }
  rewrite bool_decide_eq_true_2 by done. cbn [negb]. steps.
  pose proof (opened_length _ _ _ Eo ltac:(lia)) as Hpl.
  destruct (decode f (increase_nonce ci) c) as [[pt' v']|] eqn:Ed; [|done]. simplify_eq/=.
  exists (length c + 3)%nat. split; [rewrite length_app; lia|].
  rewrite (Ho p eq_refl), <- app_assoc, take_app_length' by lia.
  destruct Hses as [? ? ? [? ?] ?]. rewrite length_app in *.
  assert (wrap_u 64 (rdata_chunk_count r + 1) = rdata_chunk_count r + 1) as Hcnt
    by (apply wrap_u_small; lia).
  match goal with |- reader_sees ?r' _ _ _ _ _ =>
    apply (sees_buffered r' _ _ (increase_nonce ci) 0 c f pt') end; try done.
  - split; try done. simpl. rewrite Hcnt. lia.
  - simpl. rewrite Hcnt. lia.
  - simpl. lia.
  - by apply increase_nonce_wf.
  - simpl. lia.
Qed.

Lemma turn_buffered_2022 now room r s req ci pos w f pt v :
  rstate r = BufferedData pos → session r req (length w) → 0 < rdata_chunk_count r →
  Z.of_nat (length (rbuf r)) < 2 ^ 64 →
  readable s w → rcipher r = Some ci → cipher_wf ci →
  (pos ≤ length (rbuf r))%nat → decode f ci w = Some (pt, v) →
  turn_spec req now room (length w + 3)%nat (drop pos (rbuf r) ++ pt) v r s.
Proof.
  intros Hst Hses Hcnt Hbuf Hs Hci Hwf Hpos Hdec. simpl rbuf in *.
  unfold read_turn. steps. rewrite Hst. case_bool_decide as Hlt; steps.
  - set (n := Nat.min (length (drop pos (rbuffer r))) room).
    exists (length w + 3)%nat, (drop (pos + n) (rbuffer r) ++ pt).
    assert (length (drop pos (rbuffer r)) = (length (rbuffer r) - pos)%nat)
      by apply length_drop.
    split_and!; [lia| | | | |done].
    + by rewrite <- drop_drop, app_assoc, take_drop.
    + apply (sees_buffered (set_state (BufferedData (pos + n)) r) s req ci (pos + n) w f pt);
        try done; [|simpl; lia]. by destruct Hses.
    + rewrite length_take. lia.
    + intros Hnil ?. apply (f_equal length) in Hnil. rewrite length_take in Hnil.
      simpl in Hnil. lia.
  - exists (length w + 2)%nat. split; [lia|]. rewrite drop_ge by lia.
    apply (sees_length _ _ _ ci w f); try done; [by destruct Hses|by exists w|simpl; lia].
Qed.

Lemma turn_sees_2022 now room req n pt v r s :
  reader_sees r s req n pt v → turn_spec req now room n pt v r s.
Proof. destruct 1; eauto using turn_length_2022, turn_data_2022, turn_buffered_2022. Qed.

Lemma poll_read_decrypted_sees_2022 fuel now room req n pt v r s :
  reader_sees r s req n pt v → (n < fuel)%nat →
  wp (poll_read_decrypted fuel now room)
    (λ bs st, turn_post req room n pt v (Some bs) st) (sees_kept req n pt v)
    (sees_failed req n pt v) (r, s).
Proof.
  revert n r s. induction fuel as [|fuel IH]; intros n r s Hr Hf; [lia|].
  cbn [poll_read_decrypted]. steps.
  eapply wp_mono; [by apply turn_sees_2022| |done|done].
  intros [bs|] [r' s'] Hp; [by apply wp_ret|].
  destruct Hp as (n' & Hn' & Hr'). simpl in Hr'.
  eapply wp_mono; [by apply (IH n'); auto with lia|..]; unfold turn_post, sees_failed, sees_kept.
  - intros bs [r'' s''] (m & pt' & ? & ?). exists m, pt'. split; [lia|done].
  - intros [r'' s''] (m & ? & ?). exists m. split; auto with lia.
  - intros e [r'' s''] [[? (m & ? & ?)]|?]; [left|by right].
    split; [done|]. exists m. split; auto with lia.
Qed.

Lemma at_header_buffer r s kind key w b :
  at_header r s kind key w → at_header (set_buffer b r) s kind key w.
Proof. by intros []. Qed.

(** The turn that reads the header: its meaning at the time of the call, unless the first
    read of the transport is short. *)
Definition header_post kind key w now (out : option bytes) (st : DecryptedReader * T) : Prop :=
  match out with
  | None => ∃ n req pt v,
    decode_response (S (length w)) now kind key w = Some (Some req, (pt, v))
    ∧ reader_sees st.1 st.2 req n pt v ∧ (n ≤ length w)%nat
  | Some bs => bs = [] ∧ w = [] ∧ at_header st.1 st.2 kind key w
  end.

Definition short_header kind (e : ProtocolError) : Prop :=
  ∃ n m, salt_len (E:=()) kind = Ok n ∧ e = HeaderTooShort (header_len n) m
    ∧ (0 < m < header_len n)%nat.

Definition header_failed kind key w now (e : ProtocolError) (st : DecryptedReader * T) : Prop :=
  ((∃ k, e = IoError k) ∧ at_header st.1 st.2 kind key w) ∨ short_header kind e
  ∨ decode_response (S (length w)) now kind key w = Some (None, ([], Bad e)).

Lemma turn_header now room r s kind key w :
  at_header r s kind key w → is_aead kind = true →
  key_len (E:=()) kind = Ok (length key) → Z.of_nat (length w) < 2 ^ 64 →
  wp (read_turn now room) (header_post kind key w now)
    (λ st, at_header st.1 st.2 kind key w) (header_failed kind key w now) (r, s).
Proof.
  intros Hat Hk Hkey Hlen. pose proof (hd_kind _ _ _ _ _ Hat) as Ek.
  pose proof (decode_response_total (S (length w)) now kind key w Hk Hkey ltac:(lia)) as Htot.
  assert (∃ n, salt_len (E:=()) kind = Ok n ∧ salt_len (E:=ProtocolError) kind = Ok n
               ∧ (0 < n)%nat) as (n & Hn & Hn' & Hpos).
  { destruct kind; try done; eexists; by repeat split; lia. }
  unfold read_turn, poll_read_header. steps. rewrite (hd_state _ _ _ _ _ Hat). steps.
  rewrite Ek. eapply wp_lift; [done|]. steps. eapply wp_lift; [by apply aead_tag_len|]. steps.
  replace (n + 0 + 1 + 8 + n + 2 + 16)%nat with (header_len n) by (unfold header_len; lia).
  set (r0 := if bool_decide _ then _ else r).
  assert (at_header r0 s kind key w) as Hat0
    by (subst r0; case_bool_decide; [by apply at_header_buffer|done]).
  clearbody r0. destruct Hat0 as [Hst0 Hk0 Hw0 Hf0 Hc0 Hu0].
  apply (wp_poll_transport _ _ _ w); [done| |by split|].
  2:{ intros e s' ?. left. split; [by eexists|]. by split. }
  intros bs c s' -> Hs' Hlb Heof.
  case_bool_decide as Hnil; steps.
  { subst bs. specialize (Heof eq_refl ltac:(unfold header_len; lia)). simpl in Heof. subst c.
    split_and!; [done|done|]. by split. }
  case_bool_decide as Hl; steps.
  { right. left. exists n, (length bs). split_and!; try done; [|lia].
    destruct bs; [done|simpl; lia]. }
  clear Heof. rewrite (decode_response_header _ now kind key n bs c Hn Hl) in Htot.
  unfold header_post, header_failed. rewrite (decode_response_header _ now kind key n bs c Hn Hl).
  destruct (Cipher_new (E:=()) kind key (take n bs)) as [ci| |] eqn:Hci; [|done..].
  destruct (Cipher_new_Ok_wf _ _ _ _ Hci) as (Hwf & _ & _).
  eapply wp_lift; [by apply (Cipher_new_poly (E:=()))|]. steps.
  destruct (decrypt_opens (E:=ProtocolError) ci (drop n bs) Hwf) as (out & Hlo & Hd & Ho).
  { rewrite length_drop, Hl. unfold header_len. lia. }
  eapply wp_lift; [exact Hd|]. steps.
  destruct (opened ci (drop n bs)) as [h|] eqn:Eo.
  2:{ rewrite bool_decide_eq_false_2 by naive_solver. steps. by right; right. }
  rewrite bool_decide_eq_true_2 by done. cbn [negb]. steps.
  assert (length h = (n + 11)%nat) as Hlh.
  { apply opened_length in Eo; rewrite length_drop, Hl in *; unfold header_len in *; lia. }
  rewrite (Ho h eq_refl), parse_header_fields by lia.
  destruct (header_says now n h) as [[req len]|e|] eqn:Eh; [|by right; right|done].
  steps. rewrite bool_decide_eq_true_2 by done. steps.
  destruct (decode_data _ _ _ len c) as [[pt v]|] eqn:Ed; [|done].
  exists (length c + 2)%nat, req, pt, v. split; [done|].
  rewrite length_app in *. split; [|unfold header_len in *; lia].
  eapply (sees_data _ _ _ (increase_nonce ci) len c); try done.
  - split; try done; [by simpl; rewrite Hk0|]. simpl. rewrite Hc0. lia.
  - by exists c.
  - by apply increase_nonce_wf.
  - simpl. lia.
Qed.

(** A session whose header was read at the time [t] and names the request salt [req]. *)
Definition in_session kind key w (fuel : nat) (t : Z) (req : bytes) (st : DecryptedReader * T)
    (out : bytes) : Prop :=
  ∃ pt v n rest,
    decode_response (S (length w)) t kind key w = Some (Some req, (pt, v))
    ∧ pt = out ++ rest ∧ reader_sees st.1 st.2 req n rest v ∧ (n < fuel)%nat.

(** Where a reader of the wire [w] may be, with what it has delivered: before the header,
    or in a session whose header was read at a time of [clock]. *)
Definition reading (clock : Z → Prop) kind key w (fuel : nat) (st : DecryptedReader * T)
    (out : bytes) : Prop :=
  (at_header st.1 st.2 kind key w ∧ out = [])
  ∨ ∃ t req, clock t ∧ in_session kind key w fuel t req st out.

(** The answer of one call, for the meaning of the wire at the time [t]; [K] is what holds
    of the state and of the data delivered if the reader can be polled again. *)
Definition answers (K : DecryptedReader * T → bytes → Prop) kind key w (t : Z) (room : nat)
    (out : bytes) (call : poll (res ProtocolError bytes) * (DecryptedReader * T)) : Prop :=
  ∃ m pt v rest,
    decode_response (S (length w)) t kind key w = Some (m, (pt, v)) ∧ pt = out ++ rest
    ∧ match call with
      | (Ready (Ok bs), st') =>
        K st' (out ++ bs) ∧ bs `prefix_of` rest
        ∧ (length bs ≤ room)%nat ∧ (bs = [] → (0 < room)%nat → rest = [] ∧ v = Clean)
        ∧ (bs ≠ [] → rrequest_salt st'.1 = m ∧ m ≠ None ∧ 0 < rdata_chunk_count st'.1)
      | (Ready (Err e), st') =>
        ((∃ k, e = IoError k) ∧ K st' out)
        ∨ (short_header kind e ∧ out = []) ∨ (rest = [] ∧ v = Bad e)
      | (Pending, st') => K st' out
      | (Ready Panic, _) | (NoFuel, _) => False
      end.

Lemma answers_impl (K K' : DecryptedReader * T → bytes → Prop) kind key w t room out call :
  (∀ st out', K st out' → K' st out') →
  answers K kind key w t room out call → answers K' kind key w t room out call.
Proof.
  intros HK (m & pt & v & rest & ? & ? & Hc). exists m, pt, v, rest. split_and!; try done.
  destruct call as [[|[]|] st']; naive_solver.
Qed.

(** The chunk counter is never behind, and the rest of a chunk can be computed. *)
Lemma sees_remaining {E} `{Profile} r s req n pt v :
  reader_sees r s req n pt v →
  0 <= rdata_chunk_count r
  ∧ ∃ rem, current_data_chunk_remaining (E:=E) r = Ok (rdata_chunk_count r, rem).
Proof.
  destruct 1; (split; [apply Hses|]); unfold current_data_chunk_remaining; rewrite Hst; eauto.
  simpl rbuf in *. rewrite arith_u_small by lia. eexists. reflexivity.
Qed.

(** A call in a session stays in it. *)
Lemma call_in_session fuel now room st kind key w out t req :
  in_session kind key w fuel t req st out →
  answers (in_session kind key w fuel t req) kind key w t room out
    (poll_read_decrypted fuel now room st).
Proof.
  intros (pt & v & n & rest & Hd & -> & Hr & Hn).
  exists (Some req), (out ++ rest), v, rest. split; [done|]. split; [done|].
  assert (∀ st' n' out' rest', (n' ≤ n)%nat → out ++ rest = out' ++ rest' →
            reader_sees st'.1 st'.2 req n' rest' v →
            in_session kind key w fuel t req st' out') as Hin.
  { intros st' n' out' rest' ? ? ?. exists (out ++ rest), v, n', rest'.
    split_and!; auto with lia. }
  destruct st as [r s].
  pose proof (poll_read_decrypted_sees_2022 fuel now room req n rest v r s Hr Hn) as Hp.
  unfold wp in Hp.
  destruct (poll_read_decrypted fuel now room (r, s)) as [[|[bs|e|]|] st']; try done.
  - destruct Hp as (n' & ? & ?). by eapply Hin.
  - destruct Hp as (n' & pt' & ? & -> & Hr' & ? & ? & ?). split_and!; [|by eexists|done|done|].
    + eapply Hin; [done| |done]. by rewrite app_assoc.
    + intros ?. destruct (sees_session _ _ _ _ _ _ Hr') as (len' & Hses').
      rewrite (ses_req _ _ _ Hses'). auto.
  - destruct Hp as [[Hk (n' & ? & ?)]|?]; [left|by right; right]. split; [done|].
    by eapply Hin.
Qed.

Lemma call_at_header (clock : Z → Prop) fuel now room r s kind key w :
  clock now → at_header r s kind key w → is_aead kind = true →
  key_len (E:=()) kind = Ok (length key) → Z.of_nat (length w) < 2 ^ 64 →
  (length w + 1 < fuel)%nat →
  answers (reading clock kind key w fuel) kind key w now room []
    (poll_read_decrypted fuel now room (r, s)).
Proof.
  intros Hnow Hat Hk Hkey Hlen Hf. destruct fuel as [|fuel]; [lia|].
  pose proof (turn_header now room r s kind key w Hat Hk Hkey Hlen) as Ht.
  pose proof (decode_response_total (S (length w)) now kind key w Hk Hkey ltac:(lia)) as Htot.
  destruct (decode_response (S (length w)) now kind key w) as [[m [pt v]]|] eqn:Hd; [|done].
  cbn [poll_read_decrypted]. unfold wp in Ht. unfold abind at 1.
  destruct (read_turn now room (r, s)) as [[|[[bs|]|e|]|] st'] eqn:Et; try done.
  - exists m, pt, v, pt. split_and!; try done. by left.
  - destruct Ht as (-> & -> & Hat'). exists m, pt, v, pt. split_and!; try done.
    unfold decode_response in Hd. destruct (salt_len kind); simplify_eq/=.
    split_and!; [by left|by apply prefix_nil|lia|done|done].
  - destruct Ht as (n & req & pt' & v' & Hd' & Hr & Hn).
    apply (answers_impl (in_session kind key w fuel now req)).
    + intros st2 out2 (pt2 & v2 & n2 & rest2 & ? & ? & ? & ?). right. exists now, req.
      split; [done|]. exists pt2, v2, n2, rest2. split_and!; auto with lia.
    + apply call_in_session. exists pt', v', n, pt'. split_and!; auto with lia.
  - exists m, pt, v, pt. split_and!; try done.
    destruct Ht as [[? ?]|[?|Ht]]; [left; split; [done|by left]|by right; left|].
    rewrite Hd in Ht. simplify_eq. by right; right.
Qed.

(** One call, wherever the reader is; the header is read by the first call that gets it. *)
Lemma call_answers (clock : Z → Prop) fuel now room st out kind key w :
  clock now → reading clock kind key w fuel st out → is_aead kind = true →
  key_len (E:=()) kind = Ok (length key) → Z.of_nat (length w) < 2 ^ 64 →
  (length w + 1 < fuel)%nat →
  ∃ t, clock t ∧ (rhandshaked st.1 = false → t = now)
    ∧ answers (reading clock kind key w fuel) kind key w t room out
        (poll_read_decrypted fuel now room st).
Proof.
  intros Hnow [[Hat ->]|(t & req & Ht & Hin)] Hk Hkey Hlen Hf.
  - destruct st as [r s]. exists now. split_and!; [done|done|]. by apply call_at_header.
  - exists t. split_and!; [done| |].
    + destruct Hin as (pt & v & n & rest & _ & _ & Hr & _).
      destruct (sees_session _ _ _ _ _ _ Hr) as (len & Hses). by rewrite (ses_hand _ _ _ Hses).
    + apply (answers_impl (in_session kind key w fuel t req)); [|by apply call_in_session].
      intros. right. eauto.
Qed.
End reader_proof.

(** ** Runs of a reader *)

Section reads.
Context `{L : CryptoLib} {U : Type} `{AsyncRead U}.

(** [reads clock fuel kind key rx st out]: the configurations a new reader reaches on the
    transport [rx] by calls at times of [clock], with the bytes they have delivered, if it
    is polled again after a pending call and after an error of the transport.  (An error
    of kind [Other] may be one of the protocol: a run ends there.) *)
Inductive reads (clock : Z → Prop) (fuel : nat) (kind : CipherKind) (key : bytes) (rx : U) :
    DecryptedReader * U → bytes → Prop :=
  | reads_new : reads clock fuel kind key rx (DecryptedReader_new kind key, rx) []
  | reads_pending st out now room st' :
      reads clock fuel kind key rx st out → clock now →
      poll_read_decrypted fuel now room st = (Pending, st') →
      reads clock fuel kind key rx st' out
  | reads_error st out now room k st' :
      reads clock fuel kind key rx st out → clock now → k ≠ OtherError →
      poll_read_decrypted fuel now room st = (Ready (Err (IoError k)), st') →
      reads clock fuel kind key rx st' out
  | reads_done st out now room bs st' :
      reads clock fuel kind key rx st out → clock now →
      poll_read_decrypted fuel now room st = (Ready (Ok bs), st') →
      reads clock fuel kind key rx st' (out ++ bs).
End reads.

Section response.
Context `{L : CryptoLib} `{!CryptoLibOk L} {U : Type} `{AsyncRead U} `{!AsyncReadOk U}.
Context (kind : CipherKind) (key w : bytes) (rx : U) (fuel : nat).
Hypothesis Hkind : is_aead kind = true.
Hypothesis Hkey : key_len (E:=()) kind = Ok (length key).
Hypothesis Hrx : readable rx w.
Hypothesis Hlen : Z.of_nat (length w) < 2 ^ 64.
Hypothesis Hf : (length w + 1 < fuel)%nat.

Lemma reads_reading clock st out :
  reads clock fuel kind key rx st out → reading clock kind key w fuel st out.
Proof.
  induction 1 as [|st out now room st' _ IH Hn Hp|st out now room k st' _ IH Hn Hk Hp
                  |st out now room bs st' _ IH Hn Hp];
    [left; split; [by split|done]|..];
    destruct (call_answers clock fuel now room st out kind key w Hn IH Hkind Hkey Hlen Hf)
      as (t & _ & _ & m & pt & v & rest & Hd & _ & Ha); rewrite Hp in Ha; [done| |by destruct Ha].
  destruct Ha as [[_ ?]|[[(? & ? & ? & ? & _) _]|[_ ->]]]; [done|done|].
  by apply decode_response_io in Hd; [|done].
Qed.
End response.

(** ** The writer sends requests *)

Section writer_proof.
Context `{L : CryptoLib} `{!CryptoLibOk L}.
Context {T : Type} `{AsyncWrite T} `{!AsyncWriteOk T}.
Implicit Types (w : EncryptedWriter) (s : T).

(** What one call sends: the buffer, cut at the maximal packet size. *)
Definition chunk_of (buf : bytes) : bytes := take MAX_PACKET_SIZE buf.
Definition chunk_ok (p : bytes) : Prop := Z.of_nat (length p) < 65536.

Lemma chunk_of_if_2022 buf :
  (if bool_decide (MAX_PACKET_SIZE < length buf)%nat then take MAX_PACKET_SIZE buf else buf)
  = chunk_of buf.
Proof. case_bool_decide; [done|]. unfold chunk_of. by rewrite take_ge by lia. Qed.

Lemma chunk_of_ok_2022 buf : chunk_ok (chunk_of buf).
Proof. unfold chunk_ok, chunk_of, MAX_PACKET_SIZE. rewrite length_take. lia. Qed.

Lemma take_chunk_of_2022 buf : take (length (chunk_of buf)) buf = chunk_of buf.
Proof.
  unfold chunk_of. rewrite length_take. destruct (decide (MAX_PACKET_SIZE ≤ length buf)%nat).
  - by rewrite Nat.min_l.
  - by rewrite Nat.min_r, !take_ge by lia.
Qed.

(** The wire after the calls of [chunks], the first of them at the time [ts]. *)
Definition wire_of (ci : Cipher) (salt : bytes) (ts : Z) (chunks : list bytes) : bytes :=
  match chunks with
  | [] => salt
  | first :: rest => request_wire ci salt ts first rest
  end.

Lemma wire_of_snoc ci salt ts chunks p :
  chunks ≠ [] →
  wire_of ci salt ts (chunks ++ [p])
  = wire_of ci salt ts chunks
    ++ chunks_wire (Nat.iter (2 * length chunks) increase_nonce ci) [p].
Proof.
  destruct chunks as [|q chunks]; [done|]. intros _. cbn [app wire_of]. unfold request_wire.
  rewrite chunks_wire_app, <- !app_assoc. do 4 f_equal. cbn [length].
  replace (2 * S (length chunks))%nat with (2 * length chunks + 2)%nat by lia.
  by rewrite Nat.iter_add.
Qed.

Lemma set_pos_id_2022 pos w : wstate w = Writing pos → set_pos pos w = w.
Proof. destruct w. by intros [= ->]. Qed.

Lemma append_sealed_spec {E} w pt :
  cipher_wf (wcipher w) →
  append_sealed (E:=E) w pt
  = Ok {| wcipher := increase_nonce (wcipher w); wmethod := wmethod w;
          wbuffer := wbuffer w ++ sealed (wcipher w) pt; wstate := wstate w;
          wsalt := wsalt w; wrequest_salt := wrequest_salt w |}.
Proof.
  intros Hwf. unfold append_sealed, cipher_tag_len.
  assert (tag_len (E:=E) (variant_kind (cipher (wcipher w))) = Ok 16%nat) as ->
    by (by destruct (cipher (wcipher w))).
  cbn [mbind res_bind]. by rewrite encrypt_sealed by (done || apply length_replicate).
Qed.

(** Two sealed units after what is in the buffer. *)
Definition filled w (u1 u2 : bytes) : EncryptedWriter :=
  {| wcipher := increase_nonce (increase_nonce (wcipher w)); wmethod := wmethod w;
     wbuffer := wbuffer w ++ sealed (wcipher w) u1 ++ sealed (increase_nonce (wcipher w)) u2;
     wstate := Writing 0; wsalt := wsalt w; wrequest_salt := wrequest_salt w |}.

Lemma assemble_header_spec {E} now buf w :
  cipher_wf (wcipher w) → wrequest_salt w = None →
  assemble_header (E:=E) now buf w = Ok (filled w (header_plain now None (length buf)) buf).
Proof.
  intros Hwf Hr. unfold assemble_header. rewrite Hr, append_sealed_spec by done.
  cbn [mbind res_bind]. rewrite append_sealed_spec by by apply increase_nonce_wf.
  cbn [mbind res_bind]. unfold filled, set_pos. simpl. by rewrite <- app_assoc.
Qed.

Lemma assemble_packet_spec_2022 {E} buf w :
  cipher_wf (wcipher w) → chunk_ok buf →
  assemble_packet (E:=E) buf w = Ok (filled w (put_u16 (Z.of_nat (length buf))) buf).
Proof.
  intros Hwf Hb. unfold assemble_packet. rewrite wrap_u16_small, append_sealed_spec by done.
  cbn [mbind res_bind]. rewrite append_sealed_spec by by apply increase_nonce_wf.
  cbn [mbind res_bind]. unfold filled, set_pos. simpl. by rewrite <- app_assoc.
Qed.

(** What every state of the writer has; [total] are the chunks of the calls that started. *)
Record writer_inv w (salt : bytes) (ci : Cipher) (total : list bytes) : Prop := {
  inv_cipher : wcipher w = Nat.iter (2 * length total) increase_nonce ci;
  inv_wf : cipher_wf ci;
  inv_salt : wsalt w = salt;
  inv_request : wrequest_salt w = None
}.

(** [writer_rel w s salt ci ts chunks o]: the wire carries the request of [chunks], stamped
    with [ts]; [o] is the buffer of a call that is pending. *)
Inductive writer_rel w s (salt : bytes) (ci : Cipher) (ts : Z) (chunks : list bytes) :
    option bytes → Prop :=
  | wrel_idle wr
      (Hst : wstate w = match chunks with [] => AssembleHeader | _ => AssemblePacket end)
      (Ha : accepted s wr None) (Heq : wr ++ wbuffer w = wire_of ci salt ts chunks)
      (Hsent : chunks = [] ∨ wbuffer w = [])
      (Hinv : writer_inv w salt ci chunks) (Hc : Forall chunk_ok chunks) :
    writer_rel w s salt ci ts chunks None
  | wrel_writing pos wr o buf
      (Hst : wstate w = Writing pos) (Ha : accepted s wr o)
      (Ho : outstanding o pos (wbuf w)) (Hpos : (pos < length (wbuf w))%nat)
      (Heq : wr ++ drop pos (wbuf w) = wire_of ci salt ts (chunks ++ [chunk_of buf]))
      (Hinv : writer_inv w salt ci (chunks ++ [chunk_of buf])) (Hc : Forall chunk_ok chunks) :
    writer_rel w s salt ci ts chunks (Some buf).

(** The stamp of the header is the time of the first call. *)
Definition first_time (fresh : bool) (now ts : Z) : Z := if fresh then now else ts.
Definition is_fresh (chunks : list bytes) (o : option bytes) : bool :=
  match chunks, o with [], None => true | _, _ => false end.

Definition wrote salt ci ts (chunks : list bytes) (buf : bytes) (n : nat)
    (st : EncryptedWriter * T) : Prop :=
  n = length (chunk_of buf) ∧ writer_rel st.1 st.2 salt ci ts (chunks ++ [chunk_of buf]) None.

(** From [Writing] on: send what is left and go back to [AssemblePacket]. *)
Lemma finish_writing_2022 w s salt ci ts chunks buf fuel pos wr o :
  wstate w = Writing pos → accepted s wr o → outstanding o pos (wbuf w) →
  (pos < length (wbuf w))%nat → (length (wbuf w) ≤ fuel)%nat →
  wr ++ drop pos (wbuf w) = wire_of ci salt ts (chunks ++ [chunk_of buf]) →
  writer_inv w salt ci (chunks ++ [chunk_of buf]) → Forall chunk_ok chunks →
  wp (writing_loop fuel pos ;! modify reset_state ;! ret (length (chunk_of buf)))
    (wrote salt ci ts chunks buf)
    (λ st, writer_rel st.1 st.2 salt ci ts chunks (Some buf)) (λ _ _, True) (w, s).
Proof.
  intros Hst Ha Ho Hpos Hf Heq [Hci Hwf Hsalt Hreq] Hc. simpl wbuf in *. apply wp_bind.
  eapply wp_mono; [apply (writing_loop_spec fuel pos w s wr o); simpl; auto using set_pos_id_2022 with lia|..];
    [|..|done].
  - intros _ [w' s'] (pos' & Hw' & Ha'). simpl in Hw', Ha'. subst w'. steps. split; [done|].
    eapply wrel_idle; simpl.
    + by destruct chunks.
    + exact Ha'.
    + by rewrite app_nil_r.
    + by right.
    + by split.
    + apply Forall_app. split; [done|]. constructor; [apply chunk_of_ok_2022|done].
  - intros [w' s'] (pos' & wr' & o' & Hw' & ? & ? & ? & ?). simpl in *. subst w'.
    eapply (wrel_writing _ _ _ _ _ _ pos' wr' o'); try done. simpl. congruence.
Qed.

Lemma poll_write_encrypted_rel_2022 now buf w s salt ci ts chunks o :
  writer_rel w s salt ci ts chunks o → resubmits o buf →
  let ts' := first_time (is_fresh chunks o) now ts in
  wp (poll_write_encrypted now buf) (wrote salt ci ts' chunks buf)
    (λ st, writer_rel st.1 st.2 salt ci ts' chunks (Some buf)) (λ _ _, True) (w, s).
Proof.
  intros Hrel Ho ts'. unfold poll_write_encrypted. rewrite chunk_of_if_2022. steps.
  destruct Hrel as [wr|pos wr o buf'].
  - destruct Hinv as [Hci Hwf Hsalt Hreq].
    assert (cipher_wf (wcipher w)) as Hwf' by (rewrite Hci; by apply nonce_value_iter).
    assert (∀ u1, wr ++ wbuffer w ++ sealed (wcipher w) u1
                  ++ sealed (increase_nonce (wcipher w)) (chunk_of buf)
                  = wire_of ci salt ts' (chunks ++ [chunk_of buf]) →
            wp (modify (λ _, filled w u1 (chunk_of buf)) ;!
                writing_loop (length (wbuffer (filled w u1 (chunk_of buf)))) 0 ;!
                modify reset_state ;! ret (length (chunk_of buf)))
              (wrote salt ci ts' chunks buf)
              (λ st, writer_rel st.1 st.2 salt ci ts' chunks (Some buf)) (λ _ _, True) (w, s))
      as Hgo.
    { intros u1 Hw. apply wp_bind, wp_modify.
      eapply (finish_writing_2022 _ s salt ci ts' chunks buf _ 0 wr None); try done.
      - by left.
      - simpl. rewrite !length_app, length_sealed. lia.
      - split; try done. rewrite length_app. cbn [length filled wcipher]. rewrite Hci.
        by replace (2 * (length chunks + 1))%nat with (S (S (2 * length chunks)))%nat by lia. }
    destruct chunks as [|q chunks].
    + eapply wp_lift; [by rewrite Hst, assemble_header_spec|]. apply Hgo. subst ts'.
      simpl in Hci, Heq |- *. unfold request_wire. simpl. rewrite Hci, app_nil_r.
      by rewrite app_assoc, Heq.
    + eapply wp_lift; [rewrite Hst, assemble_packet_spec_2022; [done|done|apply chunk_of_ok_2022]|].
      apply Hgo. subst ts'. cbn [is_fresh first_time].
      rewrite wire_of_snoc, <- Heq, <- Hci by done. cbn [chunks_wire].
      by rewrite app_nil_r, <- app_assoc.
  - eapply wp_lift; [by rewrite Hst|]. destruct Ho as [|[= ->]]; [done|].
    apply wp_bind, wp_modify. rewrite Hst.
    eapply (finish_writing_2022 w s salt ci ts' chunks buf _ pos wr o); try done.
    subst ts'. by destruct chunks.
Qed.
End writer_proof.

Section writes.
Context `{L : CryptoLib} `{M : Crypto2022Lib} {T : Type} `{AsyncWrite T} `{!AsyncWriteOk T}.

(** [writes kind key salt st ts log o]: the configurations a new writer reaches on a fresh
    transport, with the time of its first call, the data of the completed calls and the
    buffer of a pending one. *)
Inductive writes (kind : CipherKind) (key salt : bytes) :
    EncryptedWriter * T → Z → list bytes → option bytes → Prop :=
  | writes_new w tx ts :
      EncryptedWriter_new (E:=ErrorKind) kind key salt = Ok w → accepted tx [] None →
      writes kind key salt (w, tx) ts [] None
  | writes_pending st ts log o now buf st' :
      writes kind key salt st ts log o → resubmits o buf →
      poll_write_encrypted now buf st = (Pending, st') →
      writes kind key salt st' (first_time (is_fresh log o) now ts) log (Some buf)
  | writes_done st ts log o now buf n st' :
      writes kind key salt st ts log o → resubmits o buf →
      poll_write_encrypted now buf st = (Ready (Ok n), st') →
      writes kind key salt st' (first_time (is_fresh log o) now ts) (log ++ [take n buf]) None.

Context `{!CryptoLibOk L}.

Lemma with_identity_aead {E} kind key salt w :
  is_aead kind = true → EncryptedWriter_new (E:=E) kind key salt = Ok w →
  ∃ ci, Cipher_new (E:=E) kind key salt = Ok ci
    ∧ w = {| wcipher := ci; wmethod := kind; wbuffer := salt; wstate := AssembleHeader;
             wsalt := salt; wrequest_salt := None |}.
Proof.
  intros Hk. unfold EncryptedWriter_new, with_identity.
  replace (method_support_eih kind) with false by (by destruct kind). cbn [mbind res_bind].
  destruct (Cipher_new kind key salt) as [ci| |]; [|done..]. intros [= <-]. eauto.
Qed.

Lemma writes_rel_2022 kind key salt (st : EncryptedWriter * T) ts log o :
  is_aead kind = true → writes kind key salt st ts log o →
  ∃ ci, Cipher_new (E:=ErrorKind) kind key salt = Ok ci
    ∧ writer_rel st.1 st.2 salt ci ts log o.
Proof.
  intros Hk. induction 1 as [w tx ts Hnew Ha|[w s] ts log o now buf st' _ IH Ho Hp
                             |[w s] ts log o now buf n st' _ IH Ho Hp].
  - destruct (with_identity_aead _ _ _ _ Hk Hnew) as (ci & Hci & ->). exists ci.
    split; [done|]. destruct (Cipher_new_Ok_wf _ _ _ _ Hci) as (Hwf & _ & _).
    eapply wrel_idle; [done|exact Ha|done|by left|by split|done].
  - destruct IH as (ci & Hci & Hr). exists ci. split; [done|].
    pose proof (poll_write_encrypted_rel_2022 now buf w s salt ci ts log o Hr Ho) as Hw.
    unfold wp in Hw. by rewrite Hp in Hw.
  - destruct IH as (ci & Hci & Hr). exists ci. split; [done|].
    pose proof (poll_write_encrypted_rel_2022 now buf w s salt ci ts log o Hr Ho) as Hw.
    unfold wp in Hw. rewrite Hp in Hw. destruct Hw as [-> Hw]. by rewrite take_chunk_of_2022.
Qed.

(** A server reads from the wire of a request its stamp and its data. *)
Lemma decode_request_wire fuel kind key salt ci ts first chunks :
  salt_len (E:=()) kind = Ok (length salt) → Cipher_new (E:=()) kind key salt = Ok ci →
  0 <= ts < 2 ^ 64 → Forall chunk_ok (first :: chunks) → (length chunks < fuel)%nat →
  decode_request fuel kind key (request_wire ci salt ts first chunks)
  = Some (ts, (concat (first :: chunks), Clean)).
Proof.
  intros Hs Hci Hts [Hf Hc]%Forall_cons_1 Hfuel. unfold decode_request, request_wire. rewrite Hs.
  rewrite take_app_length, Hci, drop_app_length.
  set (h := header_plain ts None (length first)).
  assert (length h = 11%nat) as Hlh by reflexivity.
  rewrite take_app_length' by (rewrite length_sealed; lia). rewrite opened_sealed.
  rewrite app_assoc, drop_app_length' by (rewrite length_app, length_sealed; lia).
  cbn [mbind option_bind]. rewrite bool_decide_eq_true_2 by done.
  assert (take 8 (drop 1 h) = put_u64 ts) as -> by reflexivity.
  assert (take 2 (drop 9 h) = put_u16 (Z.of_nat (length first))) as ->
    by (subst h; unfold header_plain; by rewrite wrap_u16_small).
  unfold put_u16, put_u64. rewrite !be_decode_encode, Nat2Z.id by (simpl; unfold chunk_ok in Hf; lia).
  rewrite decode_data_sealed by done.
  unfold decode. rewrite decode_chunks_wire; [done|done| |done].
  eapply Forall_impl; [|exact Hc]. done.
Qed.
End writes.

(** ** Properties *)

(** A request says what was written and when, with a kind that the cipher implements.
    Whatever a new client writer was asked
    to write, in calls of any size, over a transport that may be pending or accept partial
    writes at any point, the transport ends up with a wire that a server with the same key
    decodes, authenticated, to the time of the first call and exactly the data of the
    calls, in order. *)
Theorem request_carries_data `{L : CryptoLib} `{M : Crypto2022Lib} `{!CryptoLibOk L} {T : Type}
    `{AsyncWrite T} `{!AsyncWriteOk T} (kind : CipherKind) (key salt : bytes)
    (st : EncryptedWriter * T) (ts : Z) (log : list bytes)
    (Hkind : is_aead kind = true) (Hsalt : salt_len (E:=()) kind = Ok (length salt))
    (Hts : 0 <= ts < 2 ^ 64) (Hw : writes kind key salt st ts log None) (Hne : log ≠ []) :
  ∃ wire, accepted st.2 wire None
    ∧ decode_request (length log) kind key wire = Some (ts, (concat log, Clean)).
Proof.
  destruct (writes_rel_2022 kind key salt st ts log None Hkind Hw) as (ci & Hci & Hr).
  inversion Hr; subst. destruct Hsent as [|Hb]; [done|]. rewrite Hb, app_nil_r in Heq. subst wr.
  destruct log as [|first log]; [done|]. eexists. split; [exact Ha|]. cbn [wire_of].
  apply (decode_request_wire _ _ _ _ ci); auto with lia.
  by apply (Cipher_new_poly (E:=ErrorKind)).
Qed.

(** The client's reader refines the decoder of responses, on any bytes, with a kind that the
    cipher implements.  Whatever the
    transport delivers, a reader that is polled at any times has delivered a prefix of the
    authentic data of the wire, as it is understood at the time its header was read (the
    time of the present call if no header was read yet); it delivers next a piece of the
    rest that fits the buffer, and data only in a session whose request salt it has
    recorded; it reports the end only at the end of a wire that is whole, and any error
    other than the transport's and that of a header that arrives in pieces only when all
    authentic data are delivered, and then the defect that is there; and never panics. *)
Theorem response_on_any_wire `{L : CryptoLib} `{!CryptoLibOk L} {U : Type} `{AsyncRead U}
    `{!AsyncReadOk U} (kind : CipherKind) (key w : bytes) (rx : U) (fuel : nat)
    (clock : Z → Prop) (rst : DecryptedReader * U) (out : bytes) (now : Z) (room : nat)
    (Hkind : is_aead kind = true) (Hkey : key_len (E:=()) kind = Ok (length key))
    (Hrx : readable rx w) (Hlen : Z.of_nat (length w) < 2 ^ 64)
    (Hf : (length w + 1 < fuel)%nat)
    (Hr : reads clock fuel kind key rx rst out) (Hnow : clock now) :
  ∃ t m pt v rest, clock t ∧ (handshaked rst.1 = false → t = now)
    ∧ decode_response (S (length w)) t kind key w = Some (m, (pt, v)) ∧ pt = out ++ rest
    ∧ match poll_read_decrypted fuel now room rst with
      | (Ready (Ok bs), st') =>
        bs `prefix_of` rest ∧ (length bs ≤ room)%nat
        ∧ (bs = [] → (0 < room)%nat → rest = [] ∧ v = Clean)
        ∧ (bs ≠ [] → m ≠ None ∧ rrequest_salt st'.1 = m)
      | (Ready (Err e), st') =>
        (∃ k, e = IoError k) ∨ (short_header kind e ∧ out = []) ∨ (rest = [] ∧ v = Bad e)
      | (Pending, st') => True
      | (Ready Panic, _) | (NoFuel, _) => False
      end.
Proof.
  pose proof (reads_reading kind key w rx fuel Hkind Hkey Hrx Hlen Hf clock rst out Hr) as Hin.
  destruct (call_answers clock fuel now room rst out kind key w Hnow Hin Hkind Hkey Hlen Hf)
    as (t & Ht & Hh & m & pt & v & rest & Hd & Hpt & Hp).
  exists t, m, pt, v, rest. split_and!; try done.
  destruct (poll_read_decrypted fuel now room rst) as [[|[bs|e|]|] st']; naive_solver.
Qed.

(** A response whose stamp agrees with the client's clock is delivered: if every call
    is made at a time within 30 of the stamp, the data delivered so far are a prefix of
    the server's, the next call delivers a piece of the rest, the end is reported only
    after the last byte, the only errors are those of the transport and of a header that
    arrives in pieces, and with the first data the reader knows the salt of the request
    that the server answered. *)
Theorem response_delivered `{L : CryptoLib} `{!CryptoLibOk L} {U : Type} `{AsyncRead U}
    `{!AsyncReadOk U} (kind : CipherKind) (key salt req : bytes) (ci : Cipher) (ts : Z)
    (first : bytes) (chunks : list bytes) (rx : U) (fuel : nat)
    (rst : DecryptedReader * U) (out : bytes) (now : Z) (room : nat)
    (Hkey : key_len (E:=()) kind = Ok (length key))
    (Hsalt : salt_len (E:=()) kind = Ok (length salt)) (Hreq : length req = length salt)
    (Hci : Cipher_new (E:=()) kind key salt = Ok ci) (Hts : 0 <= ts < 2 ^ 64)
    (Hc : Forall chunk_ok (first :: chunks))
    (Hrx : readable rx (response_wire ci salt req ts first chunks))
    (Hlen : Z.of_nat (length (response_wire ci salt req ts first chunks)) < 2 ^ 64)
    (Hf : (length (response_wire ci salt req ts first chunks) + 1 < fuel)%nat)
    (Hr : reads (λ t, abs_diff t ts <= 30) fuel kind key rx rst out)
    (Hnow : abs_diff now ts <= 30) :
  ∃ rest, concat (first :: chunks) = out ++ rest
    ∧ match poll_read_decrypted fuel now room rst with
      | (Ready (Ok bs), st') =>
        bs `prefix_of` rest ∧ (length bs ≤ room)%nat ∧ (bs = [] → (0 < room)%nat → rest = [])
        ∧ (bs ≠ [] → rrequest_salt st'.1 = Some req)
      | (Ready (Err e), st') => (∃ k, e = IoError k) ∨ (short_header kind e ∧ out = [])
      | (Pending, st') => True
      | (Ready Panic, _) | (NoFuel, _) => False
      end.
Proof.
  destruct (Cipher_new_Ok_wf _ _ _ _ Hci) as (_ & _ & Hkind).
  set (w := response_wire ci salt req ts first chunks) in *.
  pose proof (reads_reading kind key w rx fuel Hkind Hkey Hrx Hlen Hf _ rst out Hr) as Hin.
  destruct (call_answers _ fuel now room rst out kind key w Hnow Hin Hkind Hkey Hlen Hf)
    as (t & Ht & _ & m & pt & v & rest & Hd & Hpt & Hp).
  assert (length chunks ≤ length w)%nat as Hcl.
  { subst w. unfold response_wire. rewrite !length_app.
    pose proof (chunks_wire_length (increase_nonce (increase_nonce ci)) chunks). lia. }
  unfold w in Hd at 2. rewrite (decode_response_wire _ t kind key salt ci req ts) in Hd;
    [|done|done|done|done|done|done|lia]. simplify_eq. exists rest. split; [done|].
  destruct (poll_read_decrypted fuel now room rst) as [[|[bs|e|]|] st']; naive_solver.
Qed.

Lemma decode_response_stale `{L : CryptoLib} `{!CryptoLibOk L} fuel now kind key salt ci req ts
    first chunks :
  salt_len (E:=()) kind = Ok (length salt) → Cipher_new (E:=()) kind key salt = Ok ci →
  length req = length salt → 0 <= ts < 2 ^ 64 → 30 < abs_diff now ts → chunk_ok first →
  decode_response fuel now kind key (response_wire ci salt req ts first chunks)
  = Some (None, ([], Bad (InvalidTimestamp ts now))).
Proof.
  intros Hs Hci Hreq Hts Hnow Hf. unfold response_wire, chunk_ok in *.
  set (h := be_encode 1 1 ++ _).
  assert (length h = (length salt + 11)%nat) as Hlh by (subst h; solve_len).
  rewrite app_assoc, (decode_response_header _ _ _ _ (length salt)); [|done|];
    [|rewrite length_app, length_sealed; unfold header_len; lia].
  rewrite take_app_length, drop_app_length, Hci, opened_sealed.
  pose proof (parse_header_built now (length salt) 1 ts req (Z.of_nat (length first)) [])
    as Hp. rewrite app_nil_r in Hp. fold h in Hp.
  rewrite <- (parse_header_fields _ _ h []), app_nil_r, Hp by lia. clear Hp.
  cbn [Z.eqb negb Pos.eqb]. by rewrite (proj2 (Z.ltb_lt 30 _)) by lia.
Qed.

(** With a kind that the cipher implements, the client refuses every response of a server
    that follows the protocol.  The
    protocol stamps headers with seconds since the Unix epoch; on Linux the client's clock
    counts units of 2^-32 seconds since boot.  One second after boot, a call on a new
    reader never delivers data of a response whose stamp is a Unix time of the next eighty
    years: unless the transport is not ready, fails or cuts the header, the answer is
    [InvalidTimestamp]. *)
Theorem conforming_response_refused `{L : CryptoLib} `{!CryptoLibOk L} {U : Type}
    `{AsyncRead U} `{!AsyncReadOk U} (kind : CipherKind) (key salt req : bytes) (ci : Cipher)
    (ts : Z) (first : bytes) (chunks : list bytes) (rx : U) (fuel room : nat) (tp : timespec)
    (Hkey : key_len (E:=()) kind = Ok (length key))
    (Hsalt : salt_len (E:=()) kind = Ok (length salt)) (Hreq : length req = length salt)
    (Hci : Cipher_new (E:=()) kind key salt = Ok ci) (Hts : 0 <= ts < 2 ^ 32 - 31)
    (Hc : Forall chunk_ok (first :: chunks))
    (Hrx : readable rx (response_wire ci salt req ts first chunks))
    (Hlen : Z.of_nat (length (response_wire ci salt req ts first chunks)) < 2 ^ 64)
    (Hf : (length (response_wire ci salt req ts first chunks) + 1 < fuel)%nat)
    (Htp : timespec_ok tp) (Hup : 1 <= tv_sec tp) :
  let now := get_now_timestamp tp in
  match (poll_read_decrypted fuel now room (DecryptedReader_new kind key, rx)).1 with
  | Ready (Err e) => (∃ k, e = IoError k) ∨ short_header kind e ∨ e = InvalidTimestamp ts now
  | Pending => True
  | Ready (Ok bs) => bs = [] ∧ room = 0%nat
  | Ready Panic | NoFuel => False
  end.
Proof.
  intros now. destruct (Cipher_new_Ok_wf _ _ _ _ Hci) as (_ & _ & Hkind).
  destruct (timestamp_value tp Htp) as [Hval Hlo]. fold now in Hval.
  apply Forall_cons_1 in Hc as [Hfirst _].
  set (w := response_wire ci salt req ts first chunks) in *.
  assert (at_header (DecryptedReader_new kind key) rx kind key w) as Hat by by split.
  destruct (call_at_header (λ _, True) fuel now room _ rx kind key w I Hat Hkind Hkey Hlen Hf)
    as (m & pt & v & rest & Hd & Hpt & Hp).
  unfold w in Hd at 2. rewrite (decode_response_stale _ now kind key salt ci req ts) in Hd;
    [|done|done|done|lia|unfold abs_diff; lia|done]. simplify_eq/=.
  destruct (poll_read_decrypted fuel _ room _) as [[|[bs|e|]|] st']; try done; simpl.
  - destruct Hp as (_ & Hpre & _ & He & _). apply prefix_nil_inv in Hpre as ->. split; [done|].
    destruct room; [done|]. by destruct (He eq_refl ltac:(lia)).
  - destruct Hp as [[? _]|[[? _]|[_ [= ->]]]]; auto.
Qed.

(** ** Examples *)

Module Demo.
Definition key : bytes := replicate 16 7.
Definition salt : bytes := replicate 16 9.
Definition req : bytes := replicate 16 5.
Definition ci : Cipher :=
  Eval vm_compute in
    match Cipher_new (L:=Toy.toy) (E:=()) AES_128_GCM key salt with
    | Ok ci => ci
    | _ => {| cipher := VAes128Gcm {| alg := Gcm128; akey := [] |}; nlen := 0; nonce := [] |}
    end.
Definition response : bytes :=
  response_wire (L:=Toy.toy) ci salt req 1700000000 [104; 105] [[33]].
Definition rx : Script.source := [Script.EvPending; Script.EvBytes response].
Definition start : DecryptedReader * Script.source := (DecryptedReader_new AES_128_GCM key, rx).
Definition clock (t : Z) : Prop := abs_diff t 1700000000 <= 30.
(** The first call is pending, the second delivers the first chunk. *)
Definition st1 := Eval vm_compute in
  (poll_read_decrypted (L:=Toy.toy) 500 1700000001 10 start).2.
Definition st2 := Eval vm_compute in
  (poll_read_decrypted (L:=Toy.toy) 500 1700000002 10 st1).2.

Lemma demo_reads :
  reads (L:=Toy.toy) clock 500 AES_128_GCM key rx st2 [104; 105].
Proof.
  change [104; 105] with ([] ++ [104; 105]).
  eapply (reads_done (L:=Toy.toy) _ _ _ _ _ st1 [] 1700000002 10);
    [|by apply Z.leb_le|vm_compute; reflexivity].
  eapply (reads_pending (L:=Toy.toy) _ _ _ _ _ start [] 1700000001 10);
    [apply reads_new|by apply Z.leb_le|vm_compute; reflexivity].
Qed.

Lemma demo_chunks : Forall chunk_ok [[104; 105]; [33]].
Proof. unfold chunk_ok. repeat constructor; simpl; lia. Qed.

(** One call that is pending after 20 bytes, and the call that completes it. *)
Definition writer : EncryptedWriter * Script.sink :=
  (match EncryptedWriter_new (L:=Toy.toy) (M:=Toy2022.toy) (E:=ErrorKind) AES_128_GCM key salt with
   | Ok w => w
   | _ => {| wcipher := ci; wmethod := AES_128_GCM; wbuffer := []; wstate := AssembleHeader;
             wsalt := []; wrequest_salt := None |}
   end, {| Script.quota := [Some 20%nat; None]; Script.got := [] |}).
Definition wst1 := Eval vm_compute in
  (poll_write_encrypted (L:=Toy.toy) 1700000000 [1; 2; 3] writer).2.
Definition wst2 := Eval vm_compute in
  (poll_write_encrypted (L:=Toy.toy) 1700000009 [1; 2; 3] wst1).2.

Lemma demo_writes_2022 :
  writes (L:=Toy.toy) (M:=Toy2022.toy) AES_128_GCM key salt wst2 1700000000 [[1; 2; 3]] None.
Proof.
  change [[1; 2; 3]] with ([] ++ [take 3 [1; 2; 3]]).
  change 1700000000 with (first_time (is_fresh [] (Some [1; 2; 3])) 1700000009 1700000000).
  eapply (writes_done (L:=Toy.toy) _ _ _ wst1 1700000000 [] (Some [1; 2; 3])).
  - change 1700000000 with (first_time (is_fresh [] None) 1700000000 0) at 1.
    eapply (writes_pending (L:=Toy.toy) _ _ _ writer 0 [] None).
    + apply writes_new; [vm_compute; reflexivity|by split].
    + by left.
    + vm_compute. reflexivity.
  - by right.
  - vm_compute. reflexivity.
Qed.
End Demo.

Lemma request_carries_data_witness :
  ∃ wire, accepted Demo.wst2.2 wire None
    ∧ decode_request (L:=Toy.toy) 1 AES_128_GCM Demo.key wire
      = Some (1700000000, ([1; 2; 3], Clean)).
Proof.
  apply (request_carries_data (L:=Toy.toy) (M:=Toy2022.toy) AES_128_GCM Demo.key Demo.salt
           Demo.wst2 1700000000 [[1; 2; 3]]).
  - reflexivity.
  - reflexivity.
  - lia.
  - exact Demo.demo_writes_2022.
  - discriminate.
Defined.

Lemma response_on_any_wire_witness :
  ∃ t m pt v rest, Demo.clock t ∧ (handshaked Demo.st2.1 = false → t = 1700000003)
    ∧ decode_response (L:=Toy.toy) (S (length Demo.response)) t AES_128_GCM Demo.key Demo.response
      = Some (m, (pt, v)) ∧ pt = [104; 105] ++ rest
    ∧ match poll_read_decrypted (L:=Toy.toy) 500 1700000003 10 Demo.st2 with
      | (Ready (Ok bs), st') =>
        bs `prefix_of` rest ∧ (length bs ≤ 10)%nat
        ∧ (bs = [] → (0 < 10)%nat → rest = [] ∧ v = Clean)
        ∧ (bs ≠ [] → m ≠ None ∧ rrequest_salt st'.1 = m)
      | (Ready (Err e), st') =>
        (∃ k, e = IoError k) ∨ (short_header AES_128_GCM e ∧ [104; 105] = [])
        ∨ (rest = [] ∧ v = Bad e)
      | (Pending, st') => True
      | (Ready Panic, _) | (NoFuel, _) => False
      end.
Proof.
  apply (response_on_any_wire (L:=Toy.toy) (U:=Script.source) AES_128_GCM Demo.key
           Demo.response Demo.rx 500 Demo.clock Demo.st2 [104; 105] 1700000003 10).
  - reflexivity.
  - reflexivity.
  - vm_compute. reflexivity.
  - vm_compute. reflexivity.
  - vm_compute. lia.
  - exact Demo.demo_reads.
  - by apply Z.leb_le.
Defined.

Lemma response_delivered_witness :
  ∃ rest, [104; 105; 33] = [104; 105] ++ rest
    ∧ match poll_read_decrypted (L:=Toy.toy) 500 1700000003 10 Demo.st2 with
      | (Ready (Ok bs), st') =>
        bs `prefix_of` rest ∧ (length bs ≤ 10)%nat ∧ (bs = [] → (0 < 10)%nat → rest = [])
        ∧ (bs ≠ [] → rrequest_salt st'.1 = Some Demo.req)
      | (Ready (Err e), st') =>
        (∃ k, e = IoError k) ∨ (short_header AES_128_GCM e ∧ [104; 105] = [])
      | (Pending, st') => True
      | (Ready Panic, _) | (NoFuel, _) => False
      end.
Proof.
  apply (response_delivered (L:=Toy.toy) (U:=Script.source) AES_128_GCM Demo.key Demo.salt
           Demo.req Demo.ci 1700000000 [104; 105] [[33]] Demo.rx 500 Demo.st2 [104; 105]
           1700000003 10).
  - reflexivity.
  - reflexivity.
  - reflexivity.
  - vm_compute. reflexivity.
  - lia.
  - exact Demo.demo_chunks.
  - vm_compute. reflexivity.
  - vm_compute. reflexivity.
  - vm_compute. lia.
  - exact Demo.demo_reads.
  - by apply Z.leb_le.
Defined.

Lemma conforming_response_refused_witness :
  match (poll_read_decrypted (L:=Toy.toy) 500
           (get_now_timestamp {| tv_sec := 86400; tv_nsec := 500000000 |}) 10
           (DecryptedReader_new AES_128_GCM Demo.key, [Script.EvBytes Demo.response])).1 with
  | Ready (Err e) =>
    (∃ k, e = IoError k) ∨ short_header AES_128_GCM e
    ∨ e = InvalidTimestamp 1700000000
            (get_now_timestamp {| tv_sec := 86400; tv_nsec := 500000000 |})
  | Pending => True
  | Ready (Ok bs) => bs = [] ∧ 10%nat = 0%nat
  | Ready Panic | NoFuel => False
  end.
Proof.
  apply (conforming_response_refused (L:=Toy.toy) (U:=Script.source) AES_128_GCM Demo.key
           Demo.salt Demo.req Demo.ci 1700000000 [104; 105] [[33]]
           [Script.EvBytes Demo.response] 500 10 {| tv_sec := 86400; tv_nsec := 500000000 |}).
  - reflexivity.
  - reflexivity.
  - reflexivity.
  - vm_compute. reflexivity.
  - lia.
  - exact Demo.demo_chunks.
  - vm_compute. reflexivity.
  - vm_compute. reflexivity.
  - vm_compute. lia.
  - split; simpl; lia.
  - simpl. lia.
Defined.
