(* ===== verification/CryptoStream.v ===== *)
(** * The encrypted duplex stream (lib/shadowsocks/src/tcp/crypto.rs)

    [CryptoStream] joins a reader and a writer of one of the two stream protocols over one
    socket.  The readers and writers of [TcpAead] and [TcpAead2022] are the variants of
    [StreamReader] and [StreamWriter] (the enums [DecryptedReader] and [EncryptedWriter] of
    the source).  The time of a call, which the second protocol stamps and checks, is the
    argument [now]. *)

From S2P Require Import Prelude RustStr Io Address NetAddr Crypto Crypto2022 ServerConfig StreamBuf ChunkStream TcpAead2022 TcpAead.

Local Open Scope async_scope.

Inductive CryptoError :=
  | CIo (e : ErrorKind)
  | CAead (e : TcpAead.ProtocolError)
  | CAead2022 (e : TcpAead2022.ProtocolError).

Definition crypto_into_io (err : CryptoError) : ErrorKind :=
  match err with
  | CIo err => err
  | CAead err => TcpAead.into_io err
  | CAead2022 err => TcpAead2022.into_io err
  end.

(** ** Readers *)

Inductive StreamReader :=
  | RAead (reader : TcpAead.DecryptedReader)
  | RAead2022 (reader : TcpAead2022.DecryptedReader).

Definition reader_new {E} (kind : CipherKind) (key : bytes) : res E StreamReader :=
  match category kind with
  | Aead => reader ← TcpAead.DecryptedReader_new kind key; Ok (RAead reader)
  | Aead2022 => Ok (RAead2022 (TcpAead2022.DecryptedReader_new kind key))
  end.

Definition reader_user_key (r : StreamReader) : option bytes :=
  match r with
  | RAead _ => None
  | RAead2022 reader => user_key reader
  end.

Definition request_nonce (r : StreamReader) : option bytes :=
  match r with
  | RAead _ => None
  | RAead2022 reader => request_salt reader
  end.

Definition reader_handshaked (r : StreamReader) : bool :=
  match r with
  | RAead reader => TcpAead.handshaked reader
  | RAead2022 reader => TcpAead2022.handshaked reader
  end.

(** ** Writers *)

Inductive StreamWriter :=
  | WAead (writer : TcpAead.EncryptedWriter)
  | WAead2022 (writer : TcpAead2022.EncryptedWriter).

Definition writer_nonce (w : StreamWriter) : bytes :=
  match w with
  | WAead writer => TcpAead.writer_salt writer
  | WAead2022 writer => TcpAead2022.writer_salt writer
  end.

Section crypto_stream.
Context `{L : CryptoLib} `{M : Crypto2022Lib} {T : Type}.

Definition writer_new {E} (kind : CipherKind) (key nonce : bytes) (identity_keys : list bytes)
  : res E StreamWriter :=
  match category kind with
  | Aead => writer ← TcpAead.EncryptedWriter_new kind key nonce; Ok (WAead writer)
  | Aead2022 =>
    writer ← with_identity kind key nonce identity_keys;
    Ok (WAead2022 writer)
  end.

(** Only an AEAD-2022 writer can be given the key of a user. *)
Definition writer_reset_cipher {E} (key : bytes) (w : StreamWriter) : res E StreamWriter :=
  match w with
  | WAead2022 writer => writer ← reset_cipher_with_key key writer; Ok (WAead2022 writer)
  | WAead _ => Panic
  end.

Definition reader_poll `{AsyncRead T} (fuel : nat) (now : Z) (room : nat)
  : async (StreamReader * T) CryptoError bytes := λ '(r, s),
  match r with
  | RAead reader =>
    let '(p, (reader, s)) :=
      async_map_err CAead (TcpAead.poll_read_decrypted fuel room) (reader, s) in
    (p, (RAead reader, s))
  | RAead2022 reader =>
    let '(p, (reader, s)) :=
      async_map_err CAead2022 (TcpAead2022.poll_read_decrypted fuel now room) (reader, s) in
    (p, (RAead2022 reader, s))
  end.

Definition writer_poll `{AsyncWrite T} (now : Z) (buf : bytes)
  : async (StreamWriter * T) CryptoError nat := λ '(w, s),
  match w with
  | WAead writer =>
    let '(p, (writer, s)) :=
      async_map_err CIo (TcpAead.poll_write_encrypted buf) (writer, s) in
    (p, (WAead writer, s))
  | WAead2022 writer =>
    let '(p, (writer, s)) :=
      async_map_err CIo (TcpAead2022.poll_write_encrypted now buf) (writer, s) in
    (p, (WAead2022 writer, s))
  end.

(** ** The stream *)

Record CryptoStream := {
  stream : T;
  dec : StreamReader;
  enc : StreamWriter;
  ckind : CipherKind;
  chandshaked : bool
}.

(** The local salt is drawn from [rng]; [None] if it runs out of salts. *)
Definition from_stream {E} (rng : list bytes) (s : T) (kind : CipherKind) (key : bytes)
  : option (res E CryptoStream) :=
  match salt_len kind with
  | Ok prev_len =>
    iv ← generate_nonce rng kind (replicate prev_len 0);
    Some (dec ← reader_new kind key;
          enc ← writer_new kind key iv [];
          Ok {| stream := s; dec := dec; enc := enc; ckind := kind; chandshaked := false |})
  | Err e => Some (Err e)
  | Panic => Some Panic
  end.

Definition current_data_chunk_remaining {E} `{Profile} (c : CryptoStream) : res E (Z * Z) :=
  match dec c with
  | RAead2022 dec => TcpAead2022.current_data_chunk_remaining dec
  | RAead _ => Panic
  end.

Definition kind (c : CryptoStream) : CipherKind := ckind c.
Definition sent_nonce (c : CryptoStream) : bytes := writer_nonce (enc c).
Definition received_request_nonce (c : CryptoStream) : option bytes := request_nonce (dec c).

Definition with_reader (c : CryptoStream) (st : StreamReader * T) : CryptoStream :=
  {| stream := st.2; dec := st.1; enc := enc c; ckind := ckind c; chandshaked := chandshaked c |}.
Definition with_writer (c : CryptoStream) (st : StreamWriter * T) : CryptoStream :=
  {| stream := st.2; dec := dec c; enc := st.1; ckind := ckind c; chandshaked := chandshaked c |}.
Definition set_chandshaked (c : CryptoStream) : CryptoStream :=
  {| stream := stream c; dec := dec c; enc := enc c; ckind := ckind c; chandshaked := true |}.

(** After the handshake the writer takes the key of an authenticated user. *)
Definition after_handshake : async CryptoStream CryptoError () :=
  let! c := get_state in
  if negb (chandshaked c) && reader_handshaked (dec c) then
    put_state (set_chandshaked c) ;!
    match reader_user_key (dec c) with
    | Some user_key =>
      let! enc := lift (writer_reset_cipher user_key (enc c)) in
      put_state (with_writer (set_chandshaked c) (enc, stream c))
    | None => ret ()
    end
  else ret ().

Definition crypto_read `{AsyncRead T} (fuel : nat) (now : Z) (room : nat)
  : async CryptoStream CryptoError bytes :=
  let! bs := λ c, (let '(p, st) := reader_poll fuel now room (dec c, stream c) in
                   (p, with_reader c st)) in
  after_handshake ;!
  ret bs.

Definition crypto_write `{AsyncWrite T} (now : Z) (buf : bytes)
  : async CryptoStream CryptoError nat := λ c,
  let '(p, st) := writer_poll now buf (enc c, stream c) in (p, with_writer c st).

Definition crypto_flush `{AsyncWrite T} : async CryptoStream CryptoError () :=
  async_map_err CIo (λ c,
    let '(p, s) := poll_flush (stream c) in
    (p, {| stream := s; dec := dec c; enc := enc c; ckind := ckind c;
           chandshaked := chandshaked c |})).
End crypto_stream.

Global Arguments CryptoStream : clear implicits.

(** ** One protocol on both sides *)

(** A stream that was built speaks one protocol in both directions, the one of its kind,
    and its kind is one that the cipher implements. *)
Definition uniform {T} (c : CryptoStream T) : Prop :=
  match category (ckind c), dec c, enc c with
  | Aead, RAead r, WAead w => rkind r = ckind c
  | Aead2022, RAead2022 r, WAead2022 w => TcpAead2022.rkind r = ckind c
  | _, _, _ => False
  end.

Lemma from_stream_uniform `{L : CryptoLib} `{M : Crypto2022Lib} {T E} rng (s : T) k key c :
  from_stream (E:=E) rng s k key = Some (Ok c) → uniform c ∧ is_aead k = true ∧ ckind c = k.
Proof.
  unfold from_stream. destruct (salt_len (E:=E) k) as [n| |] eqn:Hs; try done.
  destruct (generate_nonce _ _ _) as [iv|]; [|done]. cbn [mbind option_bind].
  intros [= (d & Hd & (w & Hw & [= <-])%bind_Ok)%bind_Ok]. unfold uniform. simpl.
  unfold reader_new, writer_new in *. destruct k; try done; simpl in Hd, Hw; simplify_eq;
    by apply bind_Ok in Hw as (w' & _ & [= <-]).
Qed.
