(* ===== verification/ProxyStream.v ===== *)
(** * The proxied connection (lib/shadowsocks/src/tcp/proxy.rs, option.rs)

    [ProxyStream] is the client's connection through a server: its first packet carries the
    target address, and the first response of an AEAD-2022 server must answer this very
    request.  The stream below it is [CryptoStream]. *)

From S2P Require Import Prelude RustStr Io Address NetAddr Crypto Crypto2022 ServerConfig StreamBuf ChunkStream TcpAead2022 TcpAead CryptoStream CopyBuffer Resolver.

Local Open Scope async_scope.

Inductive WriteState :=
  | Connect (a : Address)
  | Connecting (buf : bytes)
  | Connected.

Inductive ReadState := Established | CheckRequestNonce.

(** [make_first_packet_buffer]; [padding] is what [advance_mut(padding_size)] exposes. *)
Definition make_first_packet_buffer {E} (padding : bytes) (kind : CipherKind) (addr : Address)
    (buf : bytes) : res E bytes :=
  buffer ← write_to_buf addr [];
  let buffer := if is_aead2022 kind then buffer ++ put_u16 (Z.of_nat (length padding)) ++ padding
                else buffer in
  Ok (buffer ++ buf).

Section stream.
Context `{L : CryptoLib} `{M : Crypto2022Lib} `{Profile} {T : Type} `{AsyncRead T} `{AsyncWrite T}.

Record ProxyStream := {
  pstream : CryptoStream T;
  read_state : ReadState;
  write_state : WriteState
}.

(** [ProxyStream::connect], from the connected socket on. *)
Definition ProxyStream_new {E} (rng : list bytes) (s : T) (kind : CipherKind) (key : bytes)
    (target_addr : Address) : option (res E ProxyStream) :=
  c ← from_stream rng s kind key;
  Some (c ← c;
        Ok {| pstream := c;
              read_state := if is_aead2022 kind then CheckRequestNonce else Established;
              write_state := Connect target_addr |}).

Definition on_stream {A} (m : async (CryptoStream T) CryptoError A) : async ProxyStream ErrorKind A :=
  async_map_err crypto_into_io (λ p,
    let '(r, c) := m (pstream p) in
    (r, {| pstream := c; read_state := read_state p; write_state := write_state p |})).

Definition set_write_state (ws : WriteState) : async ProxyStream ErrorKind () :=
  let! p := get_state in
  put_state {| pstream := pstream p; read_state := read_state p; write_state := ws |}.

Definition set_read_state (rs : ReadState) : async ProxyStream ErrorKind () :=
  let! p := get_state in
  put_state {| pstream := pstream p; read_state := rs; write_state := write_state p |}.

Definition proxy_poll_read (fuel : nat) (now : Z) (room : nat) : async ProxyStream ErrorKind bytes :=
  let! p := get_state in
  match read_state p with
  | Established => on_stream (crypto_read fuel now room)
  | CheckRequestNonce =>
    let! bs := on_stream (crypto_read fuel now room) in
    let! p := get_state in
    let! remaining := lift (current_data_chunk_remaining (pstream p)) in
    (if 0 <? remaining.1 then
       let sent := sent_nonce (pstream p) in
       let sent := if bool_decide (sent = []) then None else Some sent in
       if bool_decide (sent = received_request_nonce (pstream p))
       then set_read_state Established
       else lift (Err OtherError)
     else ret ()) ;!
    ret bs
  end.

(** [debug_assert!] is on in the profile that checks overflow. *)
Definition proxy_connecting (now : Z) (buffer buf : bytes) : async ProxyStream ErrorKind nat :=
  let! n := on_stream (crypto_write now buffer) in
  lift (assert_ (negb overflow_checks || bool_decide (n = length buffer))) ;!
  set_write_state Connected ;!
  ret (length buf).

Definition proxy_poll_write (now : Z) (padding buf : bytes) : async ProxyStream ErrorKind nat :=
  let! p := get_state in
  match write_state p with
  | Connect addr =>
    let! buffer := lift (make_first_packet_buffer padding (kind (pstream p)) addr buf) in
    set_write_state (Connecting buffer) ;!
    proxy_connecting now buffer buf
  | Connecting buffer => proxy_connecting now buffer buf
  | Connected => on_stream (crypto_write now buf)
  end.

Definition proxy_poll_flush : async ProxyStream ErrorKind () := on_stream crypto_flush.
End stream.

Global Arguments ProxyStream : clear implicits.

(** ** What the writer of a connection has sent *)

Section write_proof.
Context `{L : CryptoLib} `{!CryptoLibOk L} `{M : Crypto2022Lib} `{Profile}.
Context {T : Type} `{AsyncRead T} `{AsyncWrite T} `{!AsyncWriteOk T}.
Implicit Types p : ProxyStream T.

(** The writer of [p] has sent [chunks], and the buffer [o] is outstanding. *)
Definition sent p (salt : bytes) (ci : Cipher) (chunks : list bytes) (o : option bytes) : Prop :=
  ∃ w, enc (pstream p) = WAead w ∧ writer_rel w (stream (pstream p)) salt ci chunks o.

Lemma on_crypto_write now buf p salt ci chunks o :
  sent p salt ci chunks o → resubmits o buf →
  wp (on_stream (crypto_write now buf))
    (λ n p', n = length (chunk_of buf) ∧ sent p' salt ci (chunks ++ [chunk_of buf]) None
       ∧ write_state p' = write_state p ∧ ckind (pstream p') = ckind (pstream p))
    (λ p', sent p' salt ci chunks (Some buf)
       ∧ write_state p' = write_state p ∧ ckind (pstream p') = ckind (pstream p))
    (λ _ _, True) p.
Proof.
  intros (w & Ew & Hs) Ho.
  pose proof (poll_write_encrypted_rel buf _ _ salt ci chunks o Hs Ho) as Hw.
  unfold wp in Hw. unfold wp, on_stream, crypto_write, writer_poll, async_map_err. rewrite Ew.
  destruct (poll_write_encrypted buf (w, stream (pstream p))) as [[|[n|e|]|] [w' s']];
    try done; simpl in *; unfold sent; simpl.
  - split_and!; eauto.
  - destruct Hw as [-> Hw]. split_and!; eauto.
Qed.

Lemma proxy_connecting_spec now buffer buf p salt ci o :
  write_state p = Connecting buffer → sent p salt ci [] o → resubmits o buffer →
  (overflow_checks = true → (length buffer ≤ MAX_PACKET_SIZE)%nat) →
  wp (proxy_connecting now buffer buf)
    (λ n p', n = length buf ∧ sent p' salt ci [chunk_of buffer] None
       ∧ write_state p' = Connected)
    (λ p', sent p' salt ci [] (Some buffer) ∧ write_state p' = Connecting buffer)
    (λ _ _, True) p.
Proof.
  intros Hst Hs Ho Hdbg. unfold proxy_connecting. apply wp_bind.
  eapply wp_mono; [by apply (on_crypto_write now buffer p salt ci [] o)| |intros p' (? & ? & _); split; [done|congruence]|done].
  intros n p' (-> & Hs' & Hst' & _). apply wp_bind. eapply wp_lift.
  - rewrite (proj2 (orb_true_iff _ _)); [done|].
    destruct overflow_checks; [right|by left]. specialize (Hdbg eq_refl).
    apply bool_decide_eq_true_2. unfold chunk_of. by rewrite take_ge.
  - apply wp_bind. cbv [wp set_write_state abind get_state put_state ret].
    by split_and!.
Qed.

(** The invariant of a connection to [addr]: [log] is what the completed calls were given,
    [o] the buffer of a pending call. *)
Inductive proxy_rel (salt : bytes) (ci : Cipher) (addr : Address) p :
    list bytes → option bytes → Prop :=
  | prel_connect
      (Hst : write_state p = Connect addr) (Hk : is_aead2022 (ckind (pstream p)) = false)
      (Hs : sent p salt ci [] None) :
    proxy_rel salt ci addr p [] None
  | prel_connecting buf
      (Hst : write_state p = Connecting (address_wire addr ++ buf))
      (Hs : sent p salt ci [] (Some (address_wire addr ++ buf))) :
    proxy_rel salt ci addr p [] (Some buf)
  | prel_connected buf log o
      (Hst : write_state p = Connected)
      (Hs : sent p salt ci (chunk_of (address_wire addr ++ buf) :: log) o) :
    proxy_rel salt ci addr p (buf :: log) o.

Definition fits (addr : Address) (buf : bytes) : Prop :=
  (length (address_wire addr) + length buf ≤ MAX_PACKET_SIZE)%nat.

(** What one call adds to the log: everything, for the first; what is returned, later. *)
Lemma proxy_poll_write_rel now padding buf p salt ci addr log o :
  sendable addr → proxy_rel salt ci addr p log o → resubmits o buf →
  (log = [] → overflow_checks = true → fits addr buf) →
  wp (proxy_poll_write now padding buf)
    (λ n p', proxy_rel salt ci addr p' (log ++ [take n buf]) None ∧ (log = [] → n = length buf)
       ∧ (n ≤ length buf)%nat)
    (λ p', proxy_rel salt ci addr p' log (Some buf)) (λ _ _, True) p.
Proof.
  intros Hsend Hrel Ho Hfits. unfold proxy_poll_write. apply wp_bind. cbv [wp get_state].
  destruct Hrel as [|buf'|buf' log o]; rewrite Hst.
  - apply wp_bind. eapply wp_lift.
    { unfold make_first_packet_buffer, CryptoStream.kind. rewrite write_to_buf_wire, Hk by done. done. }
    apply wp_bind. cbv [wp set_write_state abind get_state put_state]. simpl.
    eapply wp_mono; [apply (proxy_connecting_spec now (address_wire addr ++ buf) buf _ salt ci None)|..];
      try done.
    + by left.
    + intros Hd. unfold fits in Hfits. rewrite length_app. naive_solver.
    + intros n p' (-> & Hs' & Hst'). split; [|done]. rewrite firstn_all. by apply prel_connected.
    + intros p' (Hs' & Hst'). by apply prel_connecting.
  - destruct Ho as [|[= ->]]; [done|].
    eapply wp_mono; [apply (proxy_connecting_spec now (address_wire addr ++ buf) buf p salt ci
      (Some (address_wire addr ++ buf)))|..]; try done.
    + by right.
    + intros Hd. unfold fits in Hfits. rewrite length_app. naive_solver.
    + intros n p' (-> & Hs' & Hst'). split; [|done]. rewrite firstn_all. by apply prel_connected.
    + intros p' (Hs' & Hst'). by apply prel_connecting.
  - eapply wp_mono; [by eapply (on_crypto_write now buf p salt ci)|..]; try done.
    + intros n p' (-> & Hs' & Hst' & _). rewrite take_chunk_of. split_and!; [|done|].
      * simpl. apply prel_connected; [congruence|done].
      * unfold chunk_of. rewrite length_take. lia.
    + intros p' (Hs' & Hst' & _). apply prel_connected; [congruence|done].
Qed.

(** [proxy_writes]: the configurations a new connection reaches by calls to [poll_write],
    with what the completed calls reported as written. *)
Inductive proxy_writes (kind : CipherKind) (key : bytes) (addr : Address) (salt : bytes) :
    ProxyStream T → list bytes → option bytes → Prop :=
  | pw_new rng s p :
      ProxyStream_new (E:=ErrorKind) rng s kind key addr = Some (Ok p) →
      sent_nonce (pstream p) = salt → accepted s [] None →
      proxy_writes kind key addr salt p [] None
  | pw_pending p log o now padding buf p' :
      proxy_writes kind key addr salt p log o → resubmits o buf →
      (log = [] → overflow_checks = true → fits addr buf) →
      proxy_poll_write now padding buf p = (Pending, p') →
      proxy_writes kind key addr salt p' log (Some buf)
  | pw_done p log o now padding buf n p' :
      proxy_writes kind key addr salt p log o → resubmits o buf →
      (log = [] → overflow_checks = true → fits addr buf) →
      proxy_poll_write now padding buf p = (Ready (Ok n), p') →
      proxy_writes kind key addr salt p' (log ++ [take n buf]) None.

Lemma ProxyStream_new_inv {E} rng s kind key addr p :
  ProxyStream_new (E:=E) rng s kind key addr = Some (Ok p) →
  ∃ c w, Cipher_new (E:=ErrorKind) kind key (sent_nonce (pstream p)) = Ok c
    ∧ TcpAead.EncryptedWriter_new (E:=ErrorKind) kind key (sent_nonce (pstream p)) = Ok w
    ∧ enc (pstream p) = WAead w
    ∧ stream (pstream p) = s ∧ write_state p = Connect addr ∧ ckind (pstream p) = kind.
Proof.
  unfold ProxyStream_new. destruct (from_stream rng s kind key) as [[c| |]|] eqn:Hc; try done.
  intros [= <-]. simpl. destruct (from_stream_uniform _ _ _ _ _ Hc) as (_ & Hk & Ek).
  unfold from_stream in Hc. destruct (salt_len (E:=E) kind) as [n| |]; try done.
  destruct (generate_nonce _ _ _) as [iv|]; [|done]. cbn [mbind option_bind] in Hc.
  injection Hc as (d & _ & (w & Hw & [= <-])%bind_Ok)%bind_Ok. unfold sent_nonce. simpl in *.
  unfold writer_new in Hw. replace (category kind) with Aead in Hw by (by destruct kind).
  apply bind_Ok in Hw as (w' & Hw & [= <-]). unfold TcpAead.EncryptedWriter_new in *.
  apply bind_Ok in Hw as (ci & Hci & [= <-]).
  apply (Cipher_new_poly (F:=ErrorKind)) in Hci. simpl. unfold TcpAead.writer_salt. simpl.
  rewrite Hci. cbn [mbind res_bind]. eexists _, _. by split_and!.
Qed.

Lemma proxy_writes_rel kind key addr salt p log o :
  sendable addr → proxy_writes kind key addr salt p log o →
  ∃ ci, Cipher_new (E:=ErrorKind) kind key salt = Ok ci ∧ proxy_rel salt ci addr p log o.
Proof.
  intros Hsend. induction 1 as [rng s p Hnew <- Ha|p log o now pad buf p' _ (ci & Hci & IH) Ho Hf Hp
                               |p log o now pad buf n p' _ (ci & Hci & IH) Ho Hf Hp].
  - destruct (ProxyStream_new_inv _ _ _ _ _ _ Hnew) as (ci & w & Hci & Hw & Ew & <- & Hst & Hk).
    exists ci. split; [done|]. apply prel_connect; [done| |].
    + rewrite Hk. destruct (Cipher_new_Ok_wf _ _ _ _ Hci) as (_ & _ & Hk').
      by destruct kind.
    + exists w. split; [done|]. by apply (writer_rel_new kind key).
  - exists ci. split; [done|].
    pose proof (proxy_poll_write_rel now pad buf p salt ci addr log o Hsend IH Ho Hf) as Hw.
    unfold wp in Hw. by rewrite Hp in Hw.
  - exists ci. split; [done|].
    pose proof (proxy_poll_write_rel now pad buf p salt ci addr log o Hsend IH Ho Hf) as Hw.
    unfold wp in Hw. rewrite Hp in Hw. by destruct Hw.
Qed.
End write_proof.

(** ** What the reader of an AEAD-2022 connection delivers *)

Section read_proof.
Context `{L : CryptoLib} `{!CryptoLibOk L} `{Profile}.
Context {T : Type} `{AsyncRead T} `{!AsyncReadOk T}.
Context (clock : Z → Prop) (fuel : nat) (kind : CipherKind) (key w nonce : bytes).
Hypothesis Hkind : is_aead kind = true.
Hypothesis Hkey : key_len (E:=()) kind = Ok (length key).
Hypothesis Hlen : Z.of_nat (length w) < 2 ^ 64.
Hypothesis Hf : (length w + 1 < fuel)%nat.
Hypothesis Hnonce : nonce ≠ [].
Implicit Types p : ProxyStream T.

(** The configurations a connection reaches from [p0] by calls to [poll_read], with the
    bytes the calls have delivered; an error of kind [Other] may be one of the protocol,
    and ends the run. *)
Inductive proxy_reads (p0 : ProxyStream T) : ProxyStream T → bytes → Prop :=
  | pr_start : proxy_reads p0 p0 []
  | pr_pending p out now room p' :
      proxy_reads p0 p out → clock now →
      proxy_poll_read fuel now room p = (Pending, p') → proxy_reads p0 p' out
  | pr_error p out now room k p' :
      proxy_reads p0 p out → clock now → k ≠ OtherError →
      proxy_poll_read fuel now room p = (Ready (Err k), p') → proxy_reads p0 p' out
  | pr_done p out now room bs p' :
      proxy_reads p0 p out → clock now →
      proxy_poll_read fuel now room p = (Ready (Ok bs), p') → proxy_reads p0 p' (out ++ bs).

(** A connection that waits for the response to the request with the salt [nonce], and
    one whose response was checked. *)
Definition awaits p : Prop :=
  read_state p = CheckRequestNonce ∧ sent_nonce (pstream p) = nonce
  ∧ ∃ r, dec (pstream p) = RAead2022 r
      ∧ reading clock kind key w fuel (r, stream (pstream p)) [].
Definition checked p (out : bytes) : Prop :=
  read_state p = Established ∧ sent_nonce (pstream p) = nonce
  ∧ ∃ r t, dec (pstream p) = RAead2022 r ∧ clock t
      ∧ in_session kind key w fuel t nonce (r, stream (pstream p)) out.

(** A read of the stream below: the reader's own, and a handshake without a user. *)
Lemma on_crypto_read now room p r (K : TcpAead2022.DecryptedReader * T → bytes → Prop) t out :
  dec (pstream p) = RAead2022 r →
  (∀ st o, K st o → ruser_key st.1 = None) →
  answers K kind key w t room out (TcpAead2022.poll_read_decrypted fuel now room
                                     (r, stream (pstream p))) →
  wp (on_stream (crypto_read fuel now room))
    (λ bs p', ∃ r', dec (pstream p') = RAead2022 r' ∧ K (r', stream (pstream p')) (out ++ bs)
       ∧ (bs ≠ [] → 0 < rdata_chunk_count r')
       ∧ read_state p' = read_state p ∧ enc (pstream p') = enc (pstream p))
    (λ p', ∃ r', dec (pstream p') = RAead2022 r' ∧ K (r', stream (pstream p')) out
       ∧ read_state p' = read_state p ∧ enc (pstream p') = enc (pstream p))
    (λ k p', k ≠ OtherError → ∃ r', dec (pstream p') = RAead2022 r'
       ∧ K (r', stream (pstream p')) out
       ∧ read_state p' = read_state p ∧ enc (pstream p') = enc (pstream p)) p.
Proof.
  intros Er HK (m & pt & v & rest & Hd & _ & Ha).
  unfold wp, on_stream, crypto_read, reader_poll, async_map_err, abind. rewrite Er.
  destruct (TcpAead2022.poll_read_decrypted fuel now room (r, stream (pstream p)))
    as [[|[bs|e|]|] [r' s']] eqn:Ep; try done; simpl.
  - exists r'. by split_and!.
  - destruct Ha as (Hk & _ & _ & _ & Hb). pose proof (HK _ _ Hk) as Hu. simpl in Hu.
    unfold after_handshake, abind, get_state, put_state, ret. simpl. unfold user_key.
    rewrite Hu. destruct (negb _ && _); simpl; exists r'; split_and!; naive_solver.
  - intros Hk. destruct Ha as [[_ ?]|[[(n & m' & _ & -> & _) _]|[_ ->]]]; [|done|].
    + exists r'. by split_and!.
    + destruct e; try done. by apply decode_response_io in Hd as ->.
Qed.

Lemma reading_user st o : reading clock kind key w fuel st o → ruser_key st.1 = None.
Proof.
  intros [[Hat _]|(t & req & _ & pt & v & n & rest & _ & _ & Hr & _)]; [by destruct Hat|].
  destruct (sees_session _ _ _ _ _ _ Hr) as (len & Hses). by destruct Hses.
Qed.

Lemma session_user t req st o : in_session kind key w fuel t req st o → ruser_key st.1 = None.
Proof.
  intros (pt & v & n & rest & _ & _ & Hr & _).
  destruct (sees_session _ _ _ _ _ _ Hr) as (len & Hses). by destruct Hses.
Qed.

(** The salt a reader has recorded is the one of its session. *)
Lemma reading_salt st out sa :
  reading clock kind key w fuel st out → TcpAead2022.request_salt st.1 = Some sa →
  0 < rdata_chunk_count st.1 →
  ∃ t, clock t ∧ in_session kind key w fuel t sa st out.
Proof.
  intros [[Hat _]|(t & req & Ht & Hin)] Hs Hc; [destruct Hat; lia|].
  exists t. split; [done|]. assert (req = sa) as <-; [|done].
  destruct Hin as (pt & v & n & rest & _ & _ & Hr & _).
  destruct (sees_session _ _ _ _ _ _ Hr) as (len & Hses). unfold TcpAead2022.request_salt in Hs.
  rewrite (ses_req _ _ _ Hses) in Hs. case_bool_decide; congruence.
Qed.

Lemma reading_remaining {E} st out :
  reading clock kind key w fuel st out →
  ∃ rem, TcpAead2022.current_data_chunk_remaining (E:=E) st.1 = Ok (rdata_chunk_count st.1, rem).
Proof.
  intros [[Hat _]|(t & req & _ & pt & v & n & rest & _ & _ & Hr & _)].
  - unfold TcpAead2022.current_data_chunk_remaining. rewrite (hd_state _ _ _ _ _ Hat). eauto.
  - by destruct (sees_remaining (E:=E) _ _ _ _ _ _ Hr).
Qed.

(** One call of a connection that awaits its response: it stays so, having delivered
    nothing, or the response is the one to its request. *)
Lemma awaits_read now room p :
  clock now → awaits p →
  wp (proxy_poll_read fuel now room)
    (λ bs p', (bs = [] ∧ awaits p') ∨ checked p' bs) awaits
    (λ k p', k ≠ OtherError → awaits p') p.
Proof.
  intros Hnow (Hst & Hn & r & Er & Hr). unfold proxy_poll_read. apply wp_bind.
  cbv [wp get_state]. rewrite Hst. apply wp_bind.
  destruct (call_answers clock fuel now room _ [] kind key w Hnow Hr Hkind Hkey Hlen Hf)
    as (t & _ & _ & Ha).
  eapply wp_mono; [apply (on_crypto_read now room p r _ t [] Er reading_user Ha)|..].
  - intros bs p' (r' & Er' & Hr' & Hb & Hst' & Henc). simpl app in Hr'.
    apply wp_bind. cbv [wp get_state]. apply wp_bind.
    destruct (reading_remaining (E:=ErrorKind) _ _ Hr') as (rem & Hrem). simpl in Hrem.
    eapply wp_lift; [unfold current_data_chunk_remaining; by rewrite Er'|].
    cbn [fst]. apply wp_bind. unfold sent_nonce in *. rewrite Henc, Hn.
    rewrite (bool_decide_eq_false_2 (nonce = [])) by done.
    destruct (Z.ltb_spec 0 (rdata_chunk_count r')) as [Hc|Hc].
    + unfold received_request_nonce, request_nonce. rewrite Er'.
      case_bool_decide as Hs; [|done]. symmetry in Hs.
      destruct (reading_salt (r', stream (pstream p')) bs nonce Hr' Hs Hc) as (t' & Ht' & Hin).
      cbv [wp set_read_state abind get_state put_state ret]. right.
      split; [done|]. split; [unfold sent_nonce; simpl; congruence|].
      exists r', t'. by split_and!.
    + destruct bs as [|b bs]; [|specialize (Hb ltac:(done)); lia].
      left. split; [done|]. split; [congruence|]. split; [unfold sent_nonce; congruence|].
      exists r'. by split_and!.
  - intros p' (r' & Er' & Hr' & Hst' & Henc). split; [congruence|].
    split; [unfold sent_nonce in *; congruence|]. exists r'. by split_and!.
  - intros k p' Hk Hne. destruct (Hk Hne) as (r' & Er' & Hr' & Hst' & Henc).
    split; [congruence|]. split; [unfold sent_nonce in *; congruence|]. exists r'. by split_and!.
Qed.

Lemma checked_read now room p out :
  checked p out →
  wp (proxy_poll_read fuel now room) (λ bs p', checked p' (out ++ bs)) (λ p', checked p' out)
    (λ k p', k ≠ OtherError → checked p' out) p.
Proof.
  intros (Hst & Hn & r & t & Er & Ht & Hin). unfold proxy_poll_read. apply wp_bind.
  cbv [wp get_state]. rewrite Hst.
  pose proof (call_in_session fuel now room _ kind key w out t nonce Hin) as Ha.
  assert (∀ p' r' o, dec (pstream p') = RAead2022 r' →
            in_session kind key w fuel t nonce (r', stream (pstream p')) o →
            read_state p' = read_state p → enc (pstream p') = enc (pstream p) → checked p' o)
    as Hgo.
  { intros p' r' o ? ? ? Henc. split; [congruence|].
    split; [unfold sent_nonce in *; congruence|]. exists r', t. by split_and!. }
  eapply wp_mono; [apply (on_crypto_read now room p r _ t out Er (session_user t nonce) Ha)|..];
    naive_solver.
Qed.

Lemma proxy_reads_checked p0 p out :
  awaits p0 → proxy_reads p0 p out → (out = [] ∧ awaits p) ∨ checked p out.
Proof.
  intros Hp0. induction 1 as [|p out now room p' _ IH Hc Hp|p out now room k p' _ IH Hc Hk Hp
                             |p out now room bs p' _ IH Hc Hp]; [by left|..];
    (destruct IH as [[-> IH]|IH];
     [pose proof (awaits_read now room p Hc IH) as Hw|pose proof (checked_read now room p out IH) as Hw];
     unfold wp in Hw; rewrite Hp in Hw; naive_solver).
Qed.
End read_proof.

(** ** Opening the connection (proxy.rs, option.rs)

    The socket calls, in order, up to the first that fails; [os] answers each of them. *)

Record TcpSocketOpts := {
  send_buffer_size : option Z;
  recv_buffer_size : option Z;
  nodelay : bool;
  fastopen : bool;
  keepalive : option Z
}.

Record ConnectOpts := {
  fwmark : option Z;
  bind_local_addr : option IpAddr;
  bind_interface : option bytes;
  tcp : TcpSocketOpts
}.

Inductive SockOp :=
  | OpNewV4
  | OpNewV6
  | OpMark (mark : Z)
  | OpBindToDevice (iface : bytes)
  | OpBind (ip : IpAddr) (port : Z)
  | OpSendBuffer (size : Z)
  | OpRecvBuffer (size : Z)
  | OpConnect (addr : SocketAddr)
  | OpNodelay
  | OpKeepalive (time interval : Z).

Definition when_some {A} (o : option A) (f : A → list SockOp) : list SockOp :=
  match o with Some a => f a | None => [] end.

Definition set_common_sockopt_for_connect (addr : SocketAddr) (opts : ConnectOpts) : list SockOp :=
  when_some (bind_local_addr opts) (λ ip,
    match ip, socket_ip addr with
    | IpV4 _, IpV6 _ => [OpBind ip 0]
    | IpV6 _, IpV6 _ => [OpBind ip 0]
    | _, _ => []
    end)
  ++ when_some (send_buffer_size (tcp opts)) (λ n, [OpSendBuffer n])
  ++ when_some (recv_buffer_size (tcp opts)) (λ n, [OpRecvBuffer n]).

Definition set_common_sockopt_after_connect (opts : ConnectOpts) : list SockOp :=
  (if nodelay (tcp opts) then [OpNodelay] else [])
  ++ when_some (keepalive (tcp opts)) (λ d, [OpKeepalive d d]).

Definition connect_server_with_opts (addr : SocketAddr) (opts : ConnectOpts) : list SockOp :=
  [match addr with V4 _ _ => OpNewV4 | V6 _ _ _ _ => OpNewV6 end]
  ++ when_some (fwmark opts) (λ m, [OpMark m])
  ++ when_some (bind_interface opts) (λ i, [OpBindToDevice i])
  ++ set_common_sockopt_for_connect addr opts
  ++ [OpConnect addr]
  ++ set_common_sockopt_after_connect opts.

(** The calls that were made, and the error of the last one. *)
Fixpoint run_ops (os : SockOp → option ErrorKind) (ops : list SockOp)
  : list SockOp * option ErrorKind :=
  match ops with
  | [] => ([], None)
  | op :: ops =>
    match os op with
    | Some e => ([op], Some e)
    | None => let '(made, r) := run_ops os ops in (op :: made, r)
    end
  end.

(** ** [ProxyStream::connect]

    [ask] is the resolver, [resolve_error] what an error of it is as an [io::Error], and
    [opened] the socket that is connected to an address. *)

Section connect.
Context `{L : CryptoLib} `{M : Crypto2022Lib} {T : Type} `{AsyncRead T} `{AsyncWrite T}.
Context (ask : bytes → option (list IpAddr)) (resolve_error : ErrorKind).
Context (os : SockOp → option ErrorKind) (opened : SocketAddr → T).

(** The address to connect to. *)
Definition server_addr (conf : ServerConfig) : res ErrorKind SocketAddr :=
  match addr conf with
  | SocketAddress addr => Ok addr
  | DomainNameAddress domain port => map_err (λ _, resolve_error) (Resolver.resolve ask domain port)
  end.

(** The socket calls that were made, and the connection. *)
Definition connect (rng : list bytes) (conf : ServerConfig) (target_addr : Address) (opts : ConnectOpts)
  : list SockOp * option (res ErrorKind (ProxyStream T)) :=
  match server_addr conf with
  | Ok addr =>
    let '(made, failed) := run_ops os (connect_server_with_opts addr opts) in
    (made, match failed with
           | Some e => Some (Err e)
           | None => ProxyStream_new rng (opened addr) (ServerConfig.kind conf) (ServerConfig.key conf) target_addr
           end)
  | Err e => ([], Some (Err e))
  | Panic => ([], Some Panic)
  end.

Lemma run_ops_all ops made : run_ops os ops = (made, None) → made = ops.
Proof.
  revert made. induction ops as [|op ops IH]; intros made; simpl; [by intros [= <-]|].
  destruct (os op); [done|]. destruct (run_ops os ops) as [made' r]. intros [= <- ->].
  f_equal. by apply IH.
Qed.

Lemma run_ops_ok ops : (∀ op, op ∈ ops → os op = None) → run_ops os ops = (ops, None).
Proof.
  induction ops as [|op ops IH]; intros Hos; [done|]. simpl. rewrite Hos by (by left).
  rewrite IH; [done|]. intros o Ho. apply Hos. by right.
Qed.

(** A connection was made to the server's address, with all the options set. *)
Lemma connect_inv rng conf target opts made p :
  connect rng conf target opts = (made, Some (Ok p)) →
  ∃ addr, server_addr conf = Ok addr ∧ made = connect_server_with_opts addr opts ∧ OpConnect addr ∈ made
    ∧ ProxyStream_new (E:=ErrorKind) rng (opened addr) (ServerConfig.kind conf) (ServerConfig.key conf) target = Some (Ok p).
Proof.
  unfold connect. destruct (server_addr conf) as [addr| |]; [|done..].
  destruct (run_ops os _) as [made' [e|]] eqn:Er; [done|]. intros [= <- Hnew].
  apply run_ops_all in Er as ->. exists addr. split_and!; [done..| |done].
  unfold connect_server_with_opts. rewrite !elem_of_app, !list_elem_of_singleton. do 4 right. by left.
Qed.
End connect.

(** ** Properties *)


(** A response answers the request of its own connection, in the AEAD-2022 code as it would
    run with the lengths of a kind that the cipher implements (with the kinds that
    [ProxyStream_new] pairs with that code it panics, [UdpSocket.aead2022_panics]).  Whatever the server or
    anybody else puts on the wire, if a connection that checks the request nonce has ever
    delivered a byte to its caller, then the wire is, at the time its header was read, an
    authentic response that names the salt this connection sent, and what was delivered is
    a prefix of the data of that response: a response to another request, a replayed or a
    stale one is never delivered. *)
Theorem response_answers_request `{L : CryptoLib} `{!CryptoLibOk L} `{Profile} {T : Type}
    `{AsyncRead T} `{!AsyncReadOk T} (clock : Z → Prop) (fuel : nat) (kind : CipherKind)
    (key w : bytes) (p0 p : ProxyStream T) (out : bytes)
    (Hkind : is_aead kind = true) (Hkey : key_len (E:=()) kind = Ok (length key))
    (Hlen : Z.of_nat (length w) < 2 ^ 64) (Hf : (length w + 1 < fuel)%nat)
    (Hst : read_state p0 = CheckRequestNonce) (Hnonce : sent_nonce (pstream p0) ≠ [])
    (Hdec : dec (pstream p0) = RAead2022 (TcpAead2022.DecryptedReader_new kind key))
    (Hrx : readable (stream (pstream p0)) w)
    (Hr : proxy_reads clock fuel p0 p out) (Hout : out ≠ []) :
  ∃ t pt v, clock t
    ∧ decode_response (S (length w)) t kind key w = Some (Some (sent_nonce (pstream p0)), (pt, v))
    ∧ out `prefix_of` pt.
Proof.
  assert (awaits clock fuel kind key w (sent_nonce (pstream p0)) p0) as Haw.
  { split; [done|]. split; [done|]. eexists. split; [done|]. left. split; [by split|done]. }
  destruct (proxy_reads_checked clock fuel kind key w _ Hkind Hkey Hlen Hf Hnonce p0 p out Haw Hr)
    as [[? _]|(_ & _ & r & t & _ & Ht & pt & v & n & rest & Hd & -> & _)]; [done|].
  exists t, (out ++ rest), v. split_and!; [done|done|by eexists].
Qed.

(** C37: a first buffer that does not fit a packet together with the address loses data in
    a release build: the call that completes reports the whole buffer as written, but a
    non-empty end of it was never sent. *)
Theorem first_packet_loses_data `{L : CryptoLib} `{M : Crypto2022Lib} `{!CryptoLibOk L}
    {T : Type}
    `{AsyncRead T} `{AsyncWrite T} `{!AsyncWriteOk T}
    (kind : CipherKind) (key salt : bytes) (addr : Address) (p : ProxyStream T) (buf : bytes)
    (Hsend : sendable addr) (Hbig : (MAX_PACKET_SIZE < length (address_wire addr) + length buf)%nat)
    (Hw : proxy_writes (H:=release) kind key addr salt p [buf] None) :
  ∃ ci delivered lost, Cipher_new (E:=ErrorKind) kind key salt = Ok ci
    ∧ address_wire addr ++ buf = delivered ++ lost ∧ lost ≠ []
    ∧ accepted (stream (pstream p)) (salt ++ chunks_wire ci [delivered]) None.
Proof.
  destruct (proxy_writes_rel _ _ _ _ _ _ _ Hsend Hw) as (ci & Hci & Hrel).
  inversion Hrel; subst.
  destruct Hs as (w & _ & Hs).
  destruct (writer_rel_wire salt ci _ _ _ Hs ltac:(done)) as [Ha Hc].
  exists ci, (chunk_of (address_wire addr ++ buf)), (drop MAX_PACKET_SIZE (address_wire addr ++ buf)).
  split_and!; [done|symmetry; apply take_drop| |done].
  intros E0. apply (f_equal length) in E0. rewrite length_drop, length_app in E0. simpl in E0. lia.
Qed.

Module Demo.
Definition key : bytes := replicate 16 7.
Definition salt : bytes := replicate 16 9.
Definition addr : Address := DomainNameAddress example_domain 443.
Definition socket : Script.duplex := ([], {| Script.quota := []; Script.got := [] |}).
Definition start : ProxyStream Script.duplex :=
  match ProxyStream_new (L:=Toy.toy) (M:=Toy2022.toy) (E:=ErrorKind) [salt] socket
          AES_128_GCM key addr with
  | Some (Ok p) => p
  | _ => {| pstream := {| stream := socket;
              dec := RAead {| rstate := ReadLength; rkind := AES_128_GCM; rcipher := None;
                              rbuffer := []; rsalt := None; rhandshaked := false |};
              enc := WAead TcpAead.Demo.writer.1; ckind := AES_128_GCM; chandshaked := false |};
            read_state := Established; write_state := Connected |}
  end.
Abbreviation write P buf p :=
  (proxy_poll_write (L:=Toy.toy) (T:=Script.duplex) (H:=P) 0 [] buf p).

Lemma demo_run P buf :
  (overflow_checks (Profile:=P) = true → fits addr buf) →
  (write P buf start).1 = Ready (Ok (length buf)) →
  proxy_writes (L:=Toy.toy) (M:=Toy2022.toy) (H:=P) AES_128_GCM key addr salt (write P buf start).2 [buf] None.
Proof.
  intros Hf Hw. assert ([buf] = [] ++ [take (length buf) buf]) as E0
    by (simpl; by rewrite firstn_all).
  rewrite E0.
  eapply (pw_done (L:=Toy.toy) (M:=Toy2022.toy) (H:=P) _ _ _ _ start [] None 0 [] buf (length buf)).
  - eapply (pw_new (L:=Toy.toy) (M:=Toy2022.toy) (H:=P) _ _ _ _ [salt] socket);
      [vm_compute; reflexivity|reflexivity|by split].
  - by left.
  - done.
  - exact (CopyBuffer.Demo.poll_eta _ _ Hw).
Qed.

(** A buffer as large as the one [copy_to_encrypted] reads into. *)
Definition full_read : bytes := replicate MAX_PACKET_SIZE 0.
End Demo.


Lemma first_packet_loses_data_witness :
  ∃ ci delivered lost,
    Cipher_new (L:=Toy.toy) (E:=ErrorKind) AES_128_GCM Demo.key Demo.salt = Ok ci
    ∧ address_wire Demo.addr ++ Demo.full_read = delivered ++ lost ∧ lost ≠ []
    ∧ accepted (stream (pstream (Demo.write release Demo.full_read Demo.start).2))
        (Demo.salt ++ chunks_wire (L:=Toy.toy) ci [delivered]) None.
Proof.
  apply (first_packet_loses_data (L:=Toy.toy) (M:=Toy2022.toy) AES_128_GCM Demo.key Demo.salt Demo.addr
    (Demo.write release Demo.full_read Demo.start).2 Demo.full_read).
  - apply (bool_decide_unpack _). vm_compute. exact I.
  - apply (bool_decide_unpack _). vm_compute. exact I.
  - apply Demo.demo_run; [discriminate|vm_compute; reflexivity].
Defined.

(** A connection whose writer has sent the salt that the response of
    [TcpAead2022.Demo] names. *)
Module Demo2022.
Definition sent_salt : bytes := TcpAead2022.Demo.req.
Definition waiting : ProxyStream Script.source :=
  {| pstream := {| stream := [Script.EvBytes TcpAead2022.Demo.response];
       dec := RAead2022 (TcpAead2022.DecryptedReader_new AES_128_GCM TcpAead2022.Demo.key);
       enc := WAead2022 {| TcpAead2022.wcipher := TcpAead2022.Demo.ci;
                TcpAead2022.wmethod := AES_128_GCM; TcpAead2022.wbuffer := [];
                TcpAead2022.wstate := TcpAead2022.AssemblePacket;
                TcpAead2022.wsalt := sent_salt; TcpAead2022.wrequest_salt := None |};
       ckind := AES_128_GCM; chandshaked := false |};
     read_state := CheckRequestNonce; write_state := Connected |}.
Definition answered := Eval vm_compute in
  (proxy_poll_read (L:=Toy.toy) (H:=dev) 500 1700000002 10 waiting).2.

Lemma demo_proxy_reads :
  proxy_reads (L:=Toy.toy) (H:=dev) TcpAead2022.Demo.clock 500 waiting answered [104; 105].
Proof.
  change [104; 105] with ([] ++ [104; 105]).
  eapply (pr_done (L:=Toy.toy) _ _ _ waiting [] 1700000002 10);
    [apply pr_start|by apply Z.leb_le|vm_compute; reflexivity].
Qed.
End Demo2022.

Lemma response_answers_request_witness :
  ∃ t pt v, TcpAead2022.Demo.clock t
    ∧ decode_response (L:=Toy.toy) (S (length TcpAead2022.Demo.response)) t AES_128_GCM
        TcpAead2022.Demo.key TcpAead2022.Demo.response
      = Some (Some Demo2022.sent_salt, (pt, v))
    ∧ [104; 105] `prefix_of` pt.
Proof.
  apply (response_answers_request (L:=Toy.toy) (H:=dev) TcpAead2022.Demo.clock 500 AES_128_GCM
           TcpAead2022.Demo.key TcpAead2022.Demo.response Demo2022.waiting Demo2022.answered).
  - reflexivity.
  - reflexivity.
  - vm_compute. reflexivity.
  - vm_compute. lia.
  - reflexivity.
  - discriminate.
  - reflexivity.
  - vm_compute. reflexivity.
  - exact Demo2022.demo_proxy_reads.
  - discriminate.
Defined.
