(* ===== verification/Session.v ===== *)
(** * A relayed connection (lib/shadowsocks/src/tcp/proxy.rs, [ProxyStream::proxy])

    A session copies in both directions between the client's socket and the connection to
    the server until one of the two copies ends.  Both copies use both sockets: what one
    reads from, the other writes to ([tokio::io::split]).  The session is first treated
    between any two ends that keep what they read and what they write apart
    ([DuplexOk]); then the connection to the server is shown to be such an end, over any
    socket that is one, whatever the server sends. *)

From S2P Require Import Prelude RustStr Io Address NetAddr Crypto Crypto2022 ServerConfig StreamBuf ChunkStream TcpAead2022 TcpAead CryptoStream CopyBuffer Resolver ProxyStream.

Local Open Scope async_scope.

(** ** The session *)

Record Session (A B : Type) := { l2p : CopyBuffer; p2l : CopyBuffer; near : A; far : B }.
Global Arguments l2p {A B} s.
Global Arguments p2l {A B} s.
Global Arguments near {A B} s.
Global Arguments far {A B} s.

Section session.
Context `{Profile} {A B : Type} `{AsyncRead A} `{AsyncWrite A} `{AsyncRead B} `{AsyncWrite B}.

(** [poll_copy] of either copy on the sockets that they share. *)
Definition poll_l2p (fuel : nat) : async (Session A B) ErrorKind Z := λ s,
  let '(r, (me, a, b)) := poll_copy fuel (l2p s, near s, far s) in
  (r, {| l2p := me; p2l := p2l s; near := a; far := b |}).
Definition poll_p2l (fuel : nat) : async (Session A B) ErrorKind Z := λ s,
  let '(r, (me, b, a)) := poll_copy fuel (p2l s, far s, near s) in
  (r, {| l2p := l2p s; p2l := me; near := a; far := b |}).

(** [future::select] asks the first copy, and the second if the first is pending. *)
Inductive Either := Left | Right.
Definition poll_select (fuel : nat) : async (Session A B) (Either * ErrorKind) (Either * Z) := λ s,
  match poll_l2p fuel s with
  | (Ready (Ok n), s) => (Ready (Ok (Left, n)), s)
  | (Ready (Err e), s) => (Ready (Err (Left, e)), s)
  | (Ready Panic, s) => (Ready Panic, s)
  | (NoFuel, s) => (NoFuel, s)
  | (Pending, s) =>
    match poll_p2l fuel s with
    | (Ready (Ok n), s) => (Ready (Ok (Right, n)), s)
    | (Ready (Err e), s) => (Ready (Err (Right, e)), s)
    | (Ready Panic, s) => (Ready Panic, s)
    | (NoFuel, s) => (NoFuel, s)
    | (Pending, s) => (Pending, s)
    end
  end.

(** The result: [map(|_| ())] of whichever copy ended. *)
Definition poll_proxy (fuel : nat) : async (Session A B) ErrorKind () := λ s,
  let '(r, s) := poll_select fuel s in
  (match r with
   | Ready (Ok _) => Ready (Ok ())
   | Ready (Err (_, e)) => Ready (Err e)
   | Ready Panic => Ready Panic
   | Pending => Pending
   | NoFuel => NoFuel
   end, s).
End session.

(** [ProxyStream::proxy], before the first poll. *)
Definition proxy {E A B} (kind : CipherKind) (near : A) (far : B) : res E (Session A B) :=
  p2l ← copy_from_encrypted kind;
  Ok {| l2p := copy_to_encrypted kind; p2l := p2l; near := near; far := far |}.

(** ** Ends that keep their directions apart *)

(** [incoming s c]: [c] is what [s] has to deliver; [outgoing s w o]: [w] is what it has accepted
    and [o] the buffer of a pending write.  A read leaves the second as it is, a write of a
    buffer that it [admits] the first; the end is reported only if what comes in is
    [finished]. *)
Class DuplexOk (S : Type) `{AsyncRead S} `{AsyncWrite S} := {
  incoming : S → bytes → Prop;
  finished : Prop;
  admits : bytes → Prop;
  outgoing : S → bytes → option bytes → Prop;
  duplex_read : ∀ n s c w o r s',
    incoming s c → outgoing s w o → poll_read n s = (r, s') →
    match r with
    | Pending => incoming s' c ∧ outgoing s' w o
    | Ready (Ok bs) =>
      ∃ c', c = bs ++ c' ∧ (incoming s' c' ∧ outgoing s' w o) ∧ (length bs ≤ n)%nat
        ∧ (bs = [] → (0 < n)%nat → c = [] ∧ finished)
    | Ready (Err _) => True
    | Ready Panic | NoFuel => False
    end;
  duplex_write : ∀ bs s c w o r s',
    admits bs → incoming s c → outgoing s w o → resubmits o bs → poll_write bs s = (r, s') →
    match r with
    | Pending => ∃ o', resubmits o' bs ∧ outgoing s' w o' ∧ incoming s' c
    | Ready (Ok n) => (n ≤ length bs)%nat ∧ outgoing s' (w ++ take n bs) None ∧ incoming s' c
    | Ready (Err _) => True
    | Ready Panic | NoFuel => False
    end;
  duplex_flush : ∀ s c w r s',
    incoming s c → outgoing s w None → poll_flush s = (r, s') →
    match r with
    | Pending | Ready (Ok _) => outgoing s' w None ∧ incoming s' c
    | Ready (Err _) => True
    | Ready Panic | NoFuel => False
    end
}.

(** Either direction alone meets its contract and carries the other along. *)
Section directions.
Context {S : Type} `{AsyncRead S} `{AsyncWrite S} `{!DuplexOk S}.

Definition reading_side (w : bytes) (o : option bytes) : ReadOk S.
Proof.
  refine {| delivers s c := incoming s c ∧ outgoing s w o; whole := finished |}.
  intros n s c r s' [Hr Hw] Hp. by apply (duplex_read n s c w o r s').
Defined.

Definition writing_side (c : bytes) : WriteOk S.
Proof.
  refine {| offers := admits; taken s w o := outgoing s w o ∧ incoming s c |}.
  - intros bs s w o r s' Hb [Hw Hr] Ho Hp. by apply (duplex_write bs s c w o r s').
  - intros s w r s' [Hw Hr] Hp. by apply (duplex_flush s c w r s').
Defined.
End directions.

(** Sockets: the contracts of both directions, and that they are independent. *)
Class Independent (T : Type) `{HR : AsyncRead T} `{!AsyncReadOk T} `{HW : AsyncWrite T} `{!AsyncWriteOk T}
  : Prop := {
  read_keeps : ∀ n (s : T) w o r s', accepted s w o → poll_read n s = (r, s') → accepted s' w o;
  write_keeps : ∀ bs (s : T) c r s', readable s c → poll_write bs s = (r, s') → readable s' c;
  flush_keeps : ∀ (s : T) c r s', readable s c → poll_flush s = (r, s') → readable s' c
}.

Section sockets.
Context {T : Type} `{AsyncRead T} `{!AsyncReadOk T} `{AsyncWrite T} `{!AsyncWriteOk T} `{!Independent T}.

Global Instance socket_DuplexOk : DuplexOk T.
Proof.
  refine {| incoming s c := readable s c; finished := True; admits := λ _, True; outgoing s w o := accepted s w o |}.
  - intros n s c w o r s' Hc Hw Hp. pose proof (poll_read_spec _ _ _ _ _ Hc Hp) as Hs.
    pose proof (read_keeps _ _ _ _ _ _ Hw Hp). destruct r as [|[]|]; naive_solver.
  - intros bs s c w o r s' _ Hc Hw Ho Hp. pose proof (poll_write_spec _ _ _ _ _ _ Hw Ho Hp) as Hs.
    pose proof (write_keeps _ _ _ _ _ Hc Hp). destruct r as [|[]|]; naive_solver.
  - intros s c w r s' Hc Hw Hp. pose proof (poll_flush_spec _ _ _ _ Hw Hp) as Hs.
    pose proof (flush_keeps _ _ _ _ Hc Hp). destruct r as [|[]|]; naive_solver.
Defined.

(** The contract of one direction of a socket with the state of the other fixed. *)
Definition read_keeping (w : bytes) (o : option bytes) : AsyncReadOk T.
Proof.
  refine {| readable s c := readable s c ∧ accepted s w o |}.
  intros n s c r s' [Hc Hw] Hp. pose proof (poll_read_spec _ _ _ _ _ Hc Hp) as Hs.
  pose proof (read_keeps _ _ _ _ _ _ Hw Hp). destruct r as [|[]|]; naive_solver.
Defined.
Definition write_keeping (c : bytes) : AsyncWriteOk T.
Proof.
  refine {| accepted s w o := accepted s w o ∧ readable s c |}.
  - intros bs s w o r s' [Hw Hc] Ho Hp. pose proof (poll_write_spec _ _ _ _ _ _ Hw Ho Hp) as Hs.
    pose proof (write_keeps _ _ _ _ _ Hc Hp). destruct r as [|[]|]; naive_solver.
  - intros s w r s' [Hw Hc] Hp. pose proof (poll_flush_spec _ _ _ _ Hw Hp) as Hs.
    pose proof (flush_keeps _ _ _ _ Hc Hp). destruct r as [|[]|]; naive_solver.
Defined.
End sockets.

(** ** One copy between two such ends *)

(** [stage fin adm me total d r o]: of [total], the bytes [d] have been passed on, the buffer
    holds the next, and [r] is still to be read. *)
Definition stage (fin : Prop) (adm : bytes → Prop) (me : CopyBuffer) (total d r : bytes)
    (o : option bytes) : Prop :=
  (0 < length (buf me))%nat ∧ (pos me ≤ cap me ≤ length (buf me))%nat
  ∧ (∀ bs, (length bs ≤ length (buf me))%nat → adm bs)
  ∧ total = d ++ unwritten me ++ r
  ∧ (o = None ∨ ((pos me < cap me)%nat ∧ o = Some (unwritten me)))
  ∧ amt me = Z.of_nat (length d) ∧ (read_done me = true → r = [] ∧ fin).

Lemma copying_stage {R W} `{AsyncRead R} `{!ReadOk R} `{AsyncWrite W} `{!WriteOk W}
    base total n (st : CopyBuffer * R * W) :
  copying base total n st ↔
  ∃ d r o, stage whole offers st.1.1 total d r o ∧ length r = n ∧ delivers st.1.2 r ∧ taken st.2 (base ++ d) o.
Proof.
  split.
  - intros [Hroom Hpos Hoff (d & r & o & ? & ? & ? & ? & ? & ? & ?)]. exists d, r, o. by split_and!.
  - intros (d & r & o & (? & ? & ? & ? & ? & ? & ?) & ? & ? & ?). split; [done..|].
    exists d, r, o. by split_and!.
Qed.

Lemma stage_new fin adm size total :
  (0 < size)%nat → (∀ bs, (length bs ≤ size)%nat → adm bs) →
  stage fin adm (CopyBuffer_new size) total [] total None.
Proof.
  intros ? Hadm.
  split_and!; simpl; rewrite ?length_replicate; [lia..|done|done|by left|done|done].
Qed.

Section one_copy.
Context `{Profile} {X Y : Type} `{AsyncRead X} `{AsyncWrite X} `{!DuplexOk X}.
Context `{AsyncRead Y} `{AsyncWrite Y} `{!DuplexOk Y}.

(** The other direction of both ends is left alone. *)
Lemma copy_between fuel me (x : X) (y : Y) base total d r o wx ox cy p me' x' y' :
  stage (finished (S:=X)) (admits (S:=Y)) me total d r o → incoming x r → outgoing x wx ox → incoming y cy →
  outgoing y (base ++ d) o →
  Z.of_nat (length total) < 2 ^ 64 → (S (length total) < fuel)%nat →
  poll_copy fuel (me, x, y) = (p, (me', x', y')) →
  match p with
  | Pending => ∃ d' r' o', stage (finished (S:=X)) (admits (S:=Y)) me' total d' r' o' ∧ incoming x' r'
      ∧ outgoing y' (base ++ d') o' ∧ outgoing x' wx ox ∧ incoming y' cy
  | Ready (Ok n) => n = Z.of_nat (length total) ∧ outgoing y' (base ++ total) None ∧ finished (S:=X)
      ∧ outgoing x' wx ox ∧ incoming y' cy
  | Ready (Err _) => True
  | Ready Panic | NoFuel => False
  end.
Proof.
  intros Hs Hx Hwx Hcy Hy Htot Hf Hp.
  assert (length r ≤ length total)%nat.
  { destruct Hs as (_ & _ & _ & -> & _). rewrite !length_app. lia. }
  pose proof (poll_copy_spec (ReadOk0:=reading_side wx ox) (WriteOk0:=writing_side cy)
    fuel base total (length r) (me, x, y)) as Hc. unfold wp in Hc. rewrite Hp in Hc.
  assert (copying (ReadOk0:=reading_side wx ox) (WriteOk0:=writing_side cy)
            base total (length r) (me, x, y)) as Hcp.
  { apply (copying_stage (ReadOk0:=reading_side wx ox) (WriteOk0:=writing_side cy)).
    exists d, r, o. simpl. by split_and!. }
  specialize (Hc Hcp Htot ltac:(lia) ltac:(lia)). destruct p as [|[n|e|]|]; try done.
  - destruct Hc as (m & _ & Hc).
    apply (copying_stage (ReadOk0:=reading_side wx ox) (WriteOk0:=writing_side cy)) in Hc
      as (d' & r' & o' & Hs' & _ & [Hx' ?] & [Hy' ?]). simpl in *.
    exists d', r', o'. by split_and!.
  - destruct Hc as (-> & [Hy' ?] & [Hx' ?] & Hfin). by split_and!.
Qed.
End one_copy.

(** ** Runs of a session *)

Section runs.
Context `{Profile} {A B : Type} `{AsyncRead A} `{AsyncWrite A} `{!DuplexOk A}.
Context `{AsyncRead B} `{AsyncWrite B} `{!DuplexOk B}.
Context (fuel : nat) (request response : bytes) (base_a base_b : bytes).
Hypothesis Hrequest : Z.of_nat (length request) < 2 ^ 64 ∧ (S (length request) < fuel)%nat.
Hypothesis Hresponse : Z.of_nat (length response) < 2 ^ 64 ∧ (S (length response) < fuel)%nat.
Implicit Types s : Session A B.

(** Of the client's bytes [d1] went to the far end, of the far end's bytes [d2] to the
    client, and the rest of each is still to come. *)
Definition relaying s (d1 d2 : bytes) : Prop :=
  ∃ r1 o1 r2 o2,
    stage (finished (S:=A)) (admits (S:=B)) (l2p s) request d1 r1 o1 ∧ stage (finished (S:=B)) (admits (S:=A)) (p2l s) response d2 r2 o2
    ∧ incoming (near s) r1 ∧ outgoing (near s) (base_a ++ d2) o2
    ∧ incoming (far s) r2 ∧ outgoing (far s) (base_b ++ d1) o1.

(** The configurations between the polls of a session. *)
Inductive sessions s0 : Session A B → Prop :=
  | session_new : sessions s0 s0
  | session_pending s s' : sessions s0 s → poll_select fuel s = (Pending, s') → sessions s0 s'.

Lemma stage_prefix fin adm me total d r o : stage fin adm me total d r o → d `prefix_of` total.
Proof. intros (_ & _ & _ & -> & _). by eexists. Qed.

Definition ended (side : Either) (s : Session A B) (n : Z) : Prop :=
  match side with
  | Left => n = Z.of_nat (length request) ∧ outgoing (far s) (base_b ++ request) None
      ∧ finished (S:=A)
      ∧ ∃ d2 o2, d2 `prefix_of` response ∧ outgoing (near s) (base_a ++ d2) o2
  | Right => n = Z.of_nat (length response) ∧ outgoing (near s) (base_a ++ response) None
      ∧ finished (S:=B)
      ∧ ∃ d1 o1, d1 `prefix_of` request ∧ outgoing (far s) (base_b ++ d1) o1
  end.

Lemma poll_select_spec s d1 d2 :
  relaying s d1 d2 →
  match poll_select fuel s with
  | (Pending, s') => ∃ d1 d2, relaying s' d1 d2
  | (Ready (Ok (side, n)), s') => ended side s' n
  | (Ready (Err _), _) => True
  | (Ready Panic, _) | (NoFuel, _) => False
  end.
Proof.
  intros (r1 & o1 & r2 & o2 & Hs1 & Hs2 & Hi1 & Hw1 & Hi2 & Hw2).
  unfold poll_select, poll_l2p.
  destruct (poll_copy fuel (l2p s, near s, far s)) as [p [[me a] b]] eqn:Ep.
  pose proof (copy_between fuel _ _ _ _ _ _ _ _ _ _ _ _ _ _ _ Hs1 Hi1 Hw1 Hi2 Hw2
    (proj1 Hrequest) (proj2 Hrequest) Ep) as Hc.
  destruct p as [|[n|e|]|]; try done.
  - destruct Hc as (d1' & r1' & o1' & Hs1' & Hi1' & Hw2' & Hw1' & Hi2').
    unfold poll_p2l. simpl.
    destruct (poll_copy fuel (p2l s, b, a)) as [q [[me' b'] a']] eqn:Eq.
    pose proof (copy_between fuel _ _ _ _ _ _ _ _ _ _ _ _ _ _ _ Hs2 Hi2' Hw2' Hi1' Hw1'
      (proj1 Hresponse) (proj2 Hresponse) Eq) as Hc.
    destruct q as [|[n|e|]|]; try done.
    + destruct Hc as (d2' & r2' & o2' & Hs2' & Hi2'' & Hw1'' & Hw2'' & Hi1'').
      exists d1', d2'. exists r1', o1', r2', o2'. by split_and!.
    + destruct Hc as (-> & Hw1'' & Hi2'' & Hw2'' & Hi1''). split_and!; try done.
      exists d1', o1'. split; [by eapply stage_prefix|done].
  - destruct Hc as (-> & Hw2' & Hi1' & Hw1' & Hi2'). split_and!; try done.
    exists d2, o2. split; [by eapply stage_prefix|done].
Qed.

Lemma sessions_relaying s0 s d1 d2 :
  relaying s0 d1 d2 → sessions s0 s → ∃ d1 d2, relaying s d1 d2.
Proof.
  intros Hs0. induction 1 as [|s s' _ (e1 & e2 & IH) Hp]; [by eauto|].
  pose proof (poll_select_spec s e1 e2 IH) as Hs. by rewrite Hp in Hs.
Qed.

Lemma relaying_new (near : A) (far : B) size1 size2 :
  (0 < size1)%nat → (0 < size2)%nat →
  (∀ bs, (length bs ≤ size1)%nat → admits (S:=B) bs) → (∀ bs, (length bs ≤ size2)%nat → admits (S:=A) bs) →
  incoming near request → outgoing near base_a None →
  incoming far response → outgoing far base_b None →
  relaying {| l2p := CopyBuffer_new size1; p2l := CopyBuffer_new size2; near := near; far := far |} [] [].
Proof.
  intros. exists request, None, response, None. simpl. rewrite !app_nil_r.
  split_and!; try done; by apply stage_new.
Qed.
End runs.

(** ** The connection to the server is such an end *)

Definition proxy_AsyncRead `{L : CryptoLib} `{M : Crypto2022Lib} `{Profile} {T} `{AsyncRead T}
    (fuel : nat) (now : Z) : AsyncRead (ProxyStream T) :=
  {| poll_read := proxy_poll_read fuel now |}.
Definition proxy_AsyncWrite `{L : CryptoLib} `{M : Crypto2022Lib} `{Profile} {T} `{AsyncWrite T}
    (now : Z) (padding : bytes) : AsyncWrite (ProxyStream T) :=
  {| poll_write := proxy_poll_write now padding; poll_flush := proxy_poll_flush |}.

(** What the reader expects of the socket is what comes in, what the writer expects is what
    has gone out; neither depends on more of the socket. *)
Section frames.
Context `{L : CryptoLib} {T : Type}.

Lemma sees_frame `{AsyncRead T} (ok : AsyncReadOk T) r s n pt v :
  reader_sees r s n pt v →
  ∃ c, readable s c ∧ ∀ (ok' : AsyncReadOk T) s', readable s' c → reader_sees r s' n pt v.
Proof.
  destruct 1 as [key w f m pt v Hst Hk (c & Hc & ->)|ci w f pt v Hst Hk (c & Hc & ->)
                |ci len w f pt v Hst Hk (c & Hc & ->)|ci pos w f pt v Hst Hk Hc];
    exists c || exists w; (split; [done|]); intros ok' s' Hs'.
  - eapply sees_salt; try done. by exists c.
  - eapply sees_length; try done. by exists c.
  - eapply sees_data; try done. by exists c.
  - by eapply sees_buffered.
Qed.

Lemma writer_frame `{AsyncWrite T} (ok : AsyncWriteOk T) w s salt ci chunks o :
  writer_rel w s salt ci chunks o →
  ∃ wr ot, accepted s wr ot ∧ (o = None → ot = None)
    ∧ ∀ (ok' : AsyncWriteOk T) s', accepted s' wr ot → writer_rel w s' salt ci chunks o.
Proof.
  destruct 1 as [wr|pos wr o buf].
  - exists wr, None. split_and!; [done..|]. intros. by eapply wrel_idle.
  - exists wr, o. split_and!; [done..|]. intros. by eapply wrel_writing.
Qed.

Lemma proxy_frame `{AsyncWrite T} (ok : AsyncWriteOk T) salt ci addr (p : ProxyStream T) log o :
  proxy_rel salt ci addr p log o →
  ∃ wr ot, accepted (stream (pstream p)) wr ot ∧ (o = None → ot = None)
    ∧ ∀ (ok' : AsyncWriteOk T) p',
        write_state p' = write_state p → enc (pstream p') = enc (pstream p) →
        ckind (pstream p') = ckind (pstream p) → accepted (stream (pstream p')) wr ot →
        proxy_rel salt ci addr p' log o.
Proof.
  assert (∀ chunks o, sent p salt ci chunks o →
    ∃ wr ot, accepted (stream (pstream p)) wr ot ∧ (o = None → ot = None)
    ∧ ∀ (ok' : AsyncWriteOk T) p', enc (pstream p') = enc (pstream p) →
        accepted (stream (pstream p')) wr ot → sent p' salt ci chunks o) as Hsent.
  { intros chunks o' (w & Ew & Hw). destruct (writer_frame _ _ _ _ _ _ _ Hw) as (wr & ot & ? & ? & Hfr).
    exists wr, ot. split_and!; [done..|]. intros ok' p' E ?. exists w. split; [congruence|by apply Hfr]. }
  destruct 1 as [Hst Hk Hs|buf Hst Hs|buf log o Hst Hs];
    destruct (Hsent _ _ Hs) as (wr & ot & ? & Ho & Hfr); exists wr, ot; (split_and!; [done|naive_solver|]);
    intros ok' p' Est Een Ek Hacc.
  - apply prel_connect; [congruence|congruence|by apply Hfr].
  - apply prel_connecting; [congruence|by apply Hfr].
  - apply prel_connected; [congruence|by apply Hfr].
Qed.
End frames.

(** A write leaves the reader of the connection alone. *)
Lemma proxy_write_keeps `{L : CryptoLib} `{M : Crypto2022Lib} `{Profile} {T} `{AsyncWrite T}
    now padding buf (p : ProxyStream T) r p' :
  proxy_poll_write now padding buf p = (r, p') →
  dec (pstream p') = dec (pstream p) ∧ read_state p' = read_state p.
Proof.
  assert (∀ b q r q', on_stream (crypto_write now b) q = (r, q') →
    dec (pstream q') = dec (pstream q) ∧ read_state q' = read_state q) as Hon.
  { intros b q r0 q'. unfold on_stream, crypto_write, async_map_err.
    destruct (writer_poll _ _ _) as [x st]. by destruct x as [|[]|]; intros [= <- <-]. }
  assert (∀ b b' q r q', proxy_connecting now b b' q = (r, q') →
    dec (pstream q') = dec (pstream q) ∧ read_state q' = read_state q) as Hcon.
  { intros b b' q r0 q'. unfold proxy_connecting, abind.
    destruct (on_stream (crypto_write now b) q) as [x q1] eqn:E. apply Hon in E as [E1 E2].
    destruct x as [|[n| |]|]; try by intros [= <- <-].
    unfold lift. destruct (assert_ _) as [[]| |]; try by intros [= <- <-]. }
  unfold proxy_poll_write, abind, get_state. destruct (write_state p).
  - unfold lift. destruct (make_first_packet_buffer _ _ _ _) as [b| |]; try by intros [= <- <-].
    unfold set_write_state, abind, get_state, put_state, ret. intros Hp. by apply Hcon in Hp.
  - by apply Hcon.
  - by apply Hon.
Qed.

Section proxy_end.
Context `{L : CryptoLib} `{!CryptoLibOk L} `{M : Crypto2022Lib}.
Context {T : Type} `{HR : AsyncRead T} `{!AsyncReadOk T} `{HW : AsyncWrite T} `{!AsyncWriteOk T} `{!Independent T}.
Context (fuel : nat) (now : Z) (padding : bytes).
Context (v : verdict TcpAead.ProtocolError) (salt : bytes) (ci : Cipher) (addr : Address).
Hypothesis Hsend : sendable addr.
Implicit Types p : ProxyStream T.

(** The reader sees the plaintext [c] and then the end [v]. *)
Definition proxy_incoming p (c : bytes) : Prop :=
  read_state p = Established ∧ ∃ r n, dec (pstream p) = RAead r
    ∧ reader_sees r (stream (pstream p)) n c v ∧ (n < fuel)%nat.

(** The buffers that make up [w] were written, the first of which, no longer than a packet,
    went out behind the address. *)
Definition proxy_outgoing p (w : bytes) (o : option bytes) : Prop :=
  ∃ log, concat log = w ∧ (∀ first, log !! 0%nat = Some first → (length first ≤ MAX_PACKET_SIZE)%nat)
    ∧ proxy_rel salt ci addr p log o.

Lemma proxy_read_step room p c w o r p' :
  proxy_incoming p c → proxy_outgoing p w o →
  proxy_poll_read (H:=release) fuel now room p = (r, p') →
  match r with
  | Pending => proxy_incoming p' c ∧ proxy_outgoing p' w o
  | Ready (Ok bs) =>
    ∃ c', c = bs ++ c' ∧ (proxy_incoming p' c' ∧ proxy_outgoing p' w o) ∧ (length bs ≤ room)%nat
      ∧ (bs = [] → (0 < room)%nat → c = [] ∧ v = Clean)
  | Ready (Err _) => True
  | Ready Panic | NoFuel => False
  end.
Proof.
  intros (Hst & rd & n & Er & Hsees & Hn) (log & Hlog & Hfirst & Hrel) Hp.
  destruct (proxy_frame _ _ _ _ _ _ _ Hrel) as (wr & ot & Hacc & _ & Hfr).
  destruct (sees_frame _ _ _ _ _ _ Hsees) as (cT & HcT & Hsf).
  specialize (Hsf (read_keeping wr ot) _ (conj HcT Hacc)).
  pose proof (poll_read_decrypted_sees (AsyncReadOk0:=read_keeping wr ot) fuel room n c v rd _ Hsf Hn) as Hw.
  assert (∀ rd' s' n' c', reader_sees (AsyncReadOk0:=read_keeping wr ot) rd' s' n' c' v → (n' ≤ n)%nat →
    ∀ p', dec (pstream p') = RAead rd' → stream (pstream p') = s' → read_state p' = read_state p →
      write_state p' = write_state p → enc (pstream p') = enc (pstream p) →
      ckind (pstream p') = ckind (pstream p) → proxy_incoming p' c' ∧ proxy_outgoing p' w o) as Hgo.
  { intros rd' s' n' c' Hs' Hn' q Ed <- Est Ews Een Ek.
    destruct (sees_frame _ _ _ _ _ _ Hs') as (cT' & [HcT' Hacc'] & Hsf'). split.
    - split; [congruence|]. exists rd', n'. split_and!; [done|by apply Hsf'|lia].
    - exists log. split_and!; [done|done|]. by apply Hfr. }
  unfold proxy_poll_read, abind, get_state in Hp. rewrite Hst in Hp.
  unfold on_stream, crypto_read, reader_poll, async_map_err, abind in Hp. rewrite Er in Hp.
  unfold wp in Hw. destruct (TcpAead.poll_read_decrypted fuel room (rd, stream (pstream p)))
    as [[|[bs|e|]|] [rd' s']] eqn:Ep; try done.
  - injection Hp as <- <-. destruct Hw as (n' & ? & Hs'). by eapply Hgo.
  - destruct Hw as (n' & pt' & Hn' & -> & Hs' & Hl & Hend).
    unfold after_handshake, abind, get_state, put_state, ret in Hp. simpl in Hp.
    destruct (negb _ && _); simpl in Hp; injection Hp as <- <-; exists pt';
      (split; [done|]); (split; [by eapply Hgo|done]).
  - by injection Hp as <- <-.
Qed.

Lemma proxy_write_step bs p c w o r p' :
  (length bs ≤ MAX_PACKET_SIZE)%nat → proxy_incoming p c → proxy_outgoing p w o → resubmits o bs →
  proxy_poll_write (H:=release) now padding bs p = (r, p') →
  match r with
  | Pending => ∃ o', resubmits o' bs ∧ proxy_outgoing p' w o' ∧ proxy_incoming p' c
  | Ready (Ok n) => (n ≤ length bs)%nat ∧ proxy_outgoing p' (w ++ take n bs) None ∧ proxy_incoming p' c
  | Ready (Err _) => True
  | Ready Panic | NoFuel => False
  end.
Proof.
  intros Hbs (Hst & rd & n & Er & Hsees & Hn) (log & <- & Hfirst & Hrel) Ho Hp.
  destruct (proxy_frame _ _ _ _ _ _ _ Hrel) as (wr & ot & Hacc & _ & Hfr).
  destruct (sees_frame _ _ _ _ _ _ Hsees) as (cT & HcT & Hsf).
  specialize (Hfr (write_keeping cT) p eq_refl eq_refl eq_refl (conj Hacc HcT)).
  pose proof (proxy_poll_write_rel (H:=release) (AsyncWriteOk0:=write_keeping cT) now padding bs p
    salt ci addr log o Hsend Hfr Ho ltac:(done)) as Hw.
  destruct (proxy_write_keeps (H:=release) now padding bs p r p' Hp) as [Ed Ers].
  assert (∀ log' o', proxy_rel (AsyncWriteOk0:=write_keeping cT) salt ci addr p' log' o' →
    proxy_rel salt ci addr p' log' o' ∧ proxy_incoming p' c) as Hgo.
  { intros log' o' Hr'. destruct (proxy_frame _ _ _ _ _ _ _ Hr') as (wr' & ot' & [Hacc' HcT'] & _ & Hfr').
    split; [by apply Hfr'|]. split; [congruence|]. exists rd, n. split_and!; [congruence|by apply Hsf|done]. }
  unfold wp in Hw. rewrite Hp in Hw. destruct r as [|[k|e|]|]; try done.
  - destruct (Hgo _ _ Hw) as [??]. exists (Some bs). split_and!; [by right|by exists log|done].
  - destruct Hw as (Hw & _ & Hk). destruct (Hgo _ _ Hw) as [Hr' ?]. split_and!; [done| |done].
    exists (log ++ [take k bs]). rewrite concat_app. simpl. rewrite app_nil_r. split_and!; [done| |done].
    intros first. destruct log; simpl; [|apply Hfirst]. intros [= <-]. rewrite length_take. lia.
Qed.

Lemma proxy_flush_step p c w r p' :
  proxy_incoming p c → proxy_outgoing p w None → proxy_poll_flush p = (r, p') →
  match r with
  | Pending | Ready (Ok _) => proxy_outgoing p' w None ∧ proxy_incoming p' c
  | Ready (Err _) => True
  | Ready Panic | NoFuel => False
  end.
Proof.
  intros (Hst & rd & n & Er & Hsees & Hn) (log & <- & Hfirst & Hrel) Hp.
  destruct (proxy_frame _ _ _ _ _ _ _ Hrel) as (wr & ot & Hacc & Hot & Hfr).
  destruct (sees_frame _ _ _ _ _ _ Hsees) as (cT & HcT & Hsf). rewrite Hot in * by done.
  unfold proxy_poll_flush, on_stream, crypto_flush, async_map_err in Hp.
  destruct (poll_flush (stream (pstream p))) as [x s'] eqn:Ef.
  pose proof (poll_flush_spec (AsyncWriteOk:=write_keeping cT) _ _ _ _ (conj Hacc HcT) Ef) as Hs.
  destruct x as [|[[]|e|]|]; try done; injection Hp as <- <-; try done; destruct Hs as [Ha Hc];
    (split; [exists log; split_and!; [done|done|]; by apply Hfr|]); (split; [done|]);
    exists rd, n; (split_and!; [done|by apply Hsf|done]).
Qed.

Definition proxy_DuplexOk :
  @DuplexOk (ProxyStream T) (proxy_AsyncRead (H:=release) fuel now)
    (proxy_AsyncWrite (H:=release) now padding).
Proof.
  refine (@Build_DuplexOk _ (proxy_AsyncRead (H:=release) fuel now)
            (proxy_AsyncWrite (H:=release) now padding)
            proxy_incoming (v = Clean) (λ bs, length bs ≤ MAX_PACKET_SIZE)%nat proxy_outgoing _ _ _).
  - intros. by eapply proxy_read_step.
  - intros. by eapply proxy_write_step.
  - intros. by eapply proxy_flush_step.
Defined.
End proxy_end.

(** ** A session of the relay *)

Section relay.
Context `{L : CryptoLib} `{M : Crypto2022Lib} `{Profile}.
Context {A T : Type} `{AsyncRead A} `{AsyncWrite A} `{AsyncRead T} `{AsyncWrite T}.

(** One poll at the time [now]; [padding] goes into a first packet of AEAD-2022. *)
Definition poll_session (rfuel fuel : nat) (now : Z) (padding : bytes)
  : async (Session A (ProxyStream T)) (Either * ErrorKind) (Either * Z) :=
  poll_select (H2:=proxy_AsyncRead rfuel now) (H3:=proxy_AsyncWrite now padding) fuel.

Inductive relays (rfuel fuel : nat) (s0 : Session A (ProxyStream T)) : Session A (ProxyStream T) → Prop :=
  | relays_new : relays rfuel fuel s0 s0
  | relays_pending s now padding s' :
      relays rfuel fuel s0 s → poll_session rfuel fuel now padding s = (Pending, s') →
      relays rfuel fuel s0 s'.
End relay.

(** A connection that was just opened is an end from which the plaintext of the wire comes
    in and to which nothing has gone out yet. *)
Lemma proxy_end_new `{L : CryptoLib} `{!CryptoLibOk L} `{M : Crypto2022Lib} {T : Type}
    `{AsyncRead T} `{!AsyncReadOk T} `{AsyncWrite T} `{!AsyncWriteOk T}
    rfuel rng (sock : T) kind key addr p wire pt v :
  ProxyStream_new (E:=ErrorKind) rng sock kind key addr = Some (Ok p) →
  readable sock wire → accepted sock [] None → (length wire + 3 < rfuel)%nat →
  decode_stream (S (length wire)) kind key wire = Some (pt, v) →
  ∃ ci, Cipher_new (E:=ErrorKind) kind key (sent_nonce (pstream p)) = Ok ci
    ∧ proxy_incoming rfuel v p pt ∧ proxy_outgoing (sent_nonce (pstream p)) ci addr p [] None.
Proof.
  intros Hnew Hrx Hacc Hf Hd.
  destruct (ProxyStream_new_inv _ _ _ _ _ _ Hnew) as (ci & w & Hci & Hw & Ew & Es & Hst & Hk).
  exists ci. split; [done|].
  unfold ProxyStream_new in Hnew. destruct (from_stream rng sock kind key) as [[c| |]|] eqn:Hc; try done.
  destruct (from_stream_uniform _ _ _ _ _ Hc) as (Hu & Hkind & Ek).
  assert (is_aead2022 kind = false) as H2022 by (by destruct kind).
  injection Hnew as <-. simpl in *. split.
  - split; [by rewrite H2022|]. unfold from_stream in Hc.
    destruct (salt_len (E:=ErrorKind) kind) as [n| |]; try done.
    destruct (generate_nonce _ _ _) as [iv|]; [|done]. cbn [mbind option_bind] in Hc.
    injection Hc as (d & Hd' & (e & _ & [= <-])%bind_Ok)%bind_Ok. simpl in *.
    unfold reader_new in Hd'. replace (category kind) with Aead in Hd' by (by destruct kind).
    apply bind_Ok in Hd' as (rd & Hrd & [= <-]). exists rd, (length wire + 3)%nat.
    split_and!; [done| |done]. eapply (reader_sees_new kind key); try done.
    revert Hrd. unfold DecryptedReader_new.
    destruct (aead_salt_len (E:=()) kind Hkind) as (m & Hm & _). rewrite !(salt_len_poly _ _ Hm). simpl. by intros [= <-].
  - exists []. split_and!; [done|done|]. apply prel_connect; simpl; [done|by rewrite Ek|].
    exists w. split; [done|]. simpl. rewrite Es. by apply (writer_rel_new kind key).
Qed.

(** [plain] is the address and the stream [w], of which nothing is missing but, where the
    first packet was full, at most as many bytes right behind it as the address took. *)
Definition carried (addr : Address) (w plain : bytes) : Prop :=
  ∃ kept lost later, w = kept ++ lost ++ later ∧ plain = address_wire addr ++ kept ++ later
    ∧ (length lost ≤ length (address_wire addr))%nat
    ∧ (lost ≠ [] → length (address_wire addr ++ kept) = MAX_PACKET_SIZE).

Lemma address_short addr :
  address_wf addr → sendable addr → (length (address_wire addr) ≤ MAX_PACKET_SIZE)%nat.
Proof.
  intros Hwf Hs. rewrite length_address_wire by done. unfold MAX_PACKET_SIZE.
  destruct addr as [[]|host port]; simpl in *; lia.
Qed.

Lemma carried_first addr first later :
  address_wf addr → sendable addr → (length first ≤ MAX_PACKET_SIZE)%nat →
  carried addr (first ++ later) (take MAX_PACKET_SIZE (address_wire addr ++ first) ++ later).
Proof.
  intros Hwf Hsend Hf. pose proof (address_short addr Hwf Hsend) as Hl. set (n := (MAX_PACKET_SIZE - length (address_wire addr))%nat).
  exists (take n first), (drop n first), later.
  rewrite take_app_ge, !app_assoc, take_drop, length_drop by done. split_and!; [done|done|lia|].
  intros Hne. rewrite length_app, length_take.
  destruct (decide (length first ≤ n)%nat); [by rewrite drop_ge in Hne|lia].
Qed.

(** What has gone out to a server means, to its decoder, the address and what was written. *)
Lemma proxy_outgoing_decodes `{L : CryptoLib} `{!CryptoLibOk L} {T : Type}
    `{AsyncWrite T} `{!AsyncWriteOk T} kind key salt ci addr (p : ProxyStream T) w :
  address_wf addr → sendable addr → salt_len (E:=TcpAead.ProtocolError) kind = Ok (length salt) →
  Cipher_new (E:=ErrorKind) kind key salt = Ok ci →
  proxy_outgoing salt ci addr p w None → w ≠ [] →
  ∃ wire plain f, accepted (stream (pstream p)) wire None ∧ carried addr w plain
    ∧ decode_stream f kind key wire = Some (plain, Clean).
Proof.
  intros Hwf Hsend Hsalt Hci (log & <- & Hfirst & Hrel) Hne. inversion Hrel as [| |buf log' o Hst Hs]; subst; [done|].
  destruct Hs as (wr & _ & Hs).
  set (chunks := chunk_of (address_wire addr ++ buf) :: log') in *.
  destruct (writer_rel_wire salt ci _ _ chunks Hs ltac:(done)) as [Ha Hc].
  exists (stream_wire salt ci chunks), (concat chunks), (S (length chunks)).
  split_and!; [done|by apply carried_first, Hfirst|].
  apply (decode_stream_wire _ kind key salt ci chunks); [|by apply (Cipher_new_poly (E:=ErrorKind))|done|lia].
  by apply (salt_len_poly (E:=TcpAead.ProtocolError)).
Qed.

Section relay_proof.
Context `{L : CryptoLib} `{!CryptoLibOk L} `{M : Crypto2022Lib}.
Context {A T : Type} `{AsyncRead A} `{!AsyncReadOk A} `{AsyncWrite A} `{!AsyncWriteOk A} `{!Independent A}.
Context `{AsyncRead T} `{!AsyncReadOk T} `{AsyncWrite T} `{!AsyncWriteOk T} `{!Independent T}.
Context (rfuel fuel : nat) (request pt : bytes) (v : verdict TcpAead.ProtocolError).
Context (salt : bytes) (ci : Cipher) (addr : Address) (Hsend : sendable addr).
Hypothesis Hrequest : Z.of_nat (length request) < 2 ^ 64 ∧ (S (length request) < fuel)%nat.
Hypothesis Hresponse : Z.of_nat (length pt) < 2 ^ 64 ∧ (S (length pt) < fuel)%nat.

(** The invariant of a session, which does not depend on the clock. *)
Definition relay_inv (s : Session A (ProxyStream T)) (d1 d2 : bytes) : Prop :=
  relaying (DuplexOk1:=proxy_DuplexOk rfuel 0 [] v salt ci addr Hsend) request pt [] [] s d1 d2.

Lemma relays_inv s0 s :
  relay_inv s0 [] [] → relays (H:=release) rfuel fuel s0 s → ∃ d1 d2, relay_inv s d1 d2.
Proof.
  intros Hs0. induction 1 as [|s now padding s' _ (d1 & d2 & IH) Hp]; [by eauto|].
  pose proof (poll_select_spec (H:=release) (DuplexOk1:=proxy_DuplexOk rfuel now padding v salt ci addr Hsend)
    fuel request pt [] [] Hrequest Hresponse s d1 d2 IH) as Hs.
  unfold poll_session in Hp. by rewrite Hp in Hs.
Qed.

Lemma poll_session_spec s d1 d2 now padding :
  relay_inv s d1 d2 →
  match poll_session (H:=release) rfuel fuel now padding s with
  | (Pending, _) | (Ready (Err _), _) => True
  | (Ready (Ok (Left, n)), s') =>
    n = Z.of_nat (length request) ∧ proxy_outgoing salt ci addr (far s') request None
    ∧ ∃ d2 o, d2 `prefix_of` pt ∧ accepted (near s') d2 o
  | (Ready (Ok (Right, n)), s') =>
    n = Z.of_nat (length pt) ∧ v = Clean ∧ accepted (near s') pt None
    ∧ ∃ d1 o, d1 `prefix_of` request ∧ proxy_outgoing salt ci addr (far s') d1 o
  | (Ready Panic, _) | (NoFuel, _) => False
  end.
Proof.
  intros Hi.
  pose proof (poll_select_spec (H:=release) (DuplexOk1:=proxy_DuplexOk rfuel now padding v salt ci addr Hsend)
    fuel request pt [] [] Hrequest Hresponse s d1 d2 Hi) as Hs.
  unfold poll_session. destruct (poll_select _ s) as [[|[[[] n]|e|]|] s']; try done.
  - by destruct Hs as (-> & Hw & _ & Hd2).
  - destruct Hs as (-> & Hw & Hv & Hd1). by split_and!.
Qed.
End relay_proof.

(** ** From the socket calls to the end of a stream *)

Section outcome.
Context `{L : CryptoLib} {A T : Type} `{AsyncWrite A} `{!AsyncWriteOk A} `{AsyncWrite T} `{!AsyncWriteOk T}.

(** What the client has been given is authentic. *)
Definition given_authentic (pt : bytes) (s : Session A (ProxyStream T)) : Prop :=
  ∃ given o, accepted (near s) given o ∧ given `prefix_of` pt.

(** The stream to the server decodes to the target and the request, less what the first
    packet may lose. *)
Definition request_sent (kind : CipherKind) (key : bytes) (target : Address) (request : bytes)
    (s : Session A (ProxyStream T)) : Prop :=
  ∃ sent plain f, accepted (stream (pstream (far s))) sent None ∧ carried target request plain
    ∧ decode_stream f kind key sent = Some (plain, Clean).

(** The outcomes of a poll. *)
Definition session_outcome (kind : CipherKind) (key : bytes) (target : Address) (request pt : bytes)
    (v : verdict TcpAead.ProtocolError)
    (r : poll (res (Either * ErrorKind) (Either * Z)) * Session A (ProxyStream T)) : Prop :=
  match r with
  | (Ready (Ok (Left, n)), s') =>
    n = Z.of_nat (length request) ∧ given_authentic pt s'
    ∧ (request ≠ [] → request_sent kind key target request s')
  | (Ready (Ok (Right, n)), s') =>
    n = Z.of_nat (length pt) ∧ v = Clean ∧ accepted (near s') pt None
  | (Pending, _) | (Ready (Err _), _) => True
  | (Ready Panic, _) | (NoFuel, _) => False
  end.
End outcome.

Lemma session_spec `{L : CryptoLib} `{!CryptoLibOk L} `{M : Crypto2022Lib} {A T : Type}
    `{AsyncRead A} `{!AsyncReadOk A} `{AsyncWrite A} `{!AsyncWriteOk A} `{!Independent A}
    `{AsyncRead T} `{!AsyncReadOk T} `{AsyncWrite T} `{!AsyncWriteOk T} `{!Independent T}
    (rfuel fuel : nat) (ask : bytes → option (list IpAddr)) (resolve_error : ErrorKind)
    (os : SockOp → option ErrorKind) (opened : SocketAddr → T) (made : list SockOp) (opts : ConnectOpts)
    (conf : ServerConfig) (rng : list bytes) (target : Address)
    (client : A) (request wire pt : bytes) (v : verdict TcpAead.ProtocolError)
    (p : ProxyStream T) (s0 s : Session A (ProxyStream T)) (now : Z) (padding : bytes)
    (kind := ServerConfig.kind conf) (key := ServerConfig.key conf)
    (Hwf : address_wf target) (Htarget : sendable target)
    (Hconnect : connect ask resolve_error os opened rng conf target opts = (made, Some (Ok p)))
    (Hsalt : salt_len (E:=TcpAead.ProtocolError) kind = Ok (length (sent_nonce (pstream p))))
    (Hclient : readable client request ∧ accepted client [] None)
    (Hsock : ∀ addr, OpConnect addr ∈ made → readable (opened addr) wire ∧ accepted (opened addr) [] None)
    (Hwire : decode_stream (S (length wire)) kind key wire = Some (pt, v))
    (Hrequest : Z.of_nat (length request) < 2 ^ 64 ∧ (S (length request) < fuel)%nat)
    (Hresponse : Z.of_nat (length pt) < 2 ^ 64 ∧ (S (length pt) < fuel)%nat)
    (Hrfuel : (length wire + 3 < rfuel)%nat)
    (Hs0 : proxy (E:=ErrorKind) kind client p = Ok s0)
    (Hrun : relays (H:=release) rfuel fuel s0 s) :
  given_authentic pt s
  ∧ session_outcome kind key target request pt v (poll_session (H:=release) rfuel fuel now padding s).
Proof.
  destruct (connect_inv _ _ _ _ _ _ _ _ _ _ Hconnect) as (addr & _ & _ & Hop & Hnew).
  specialize (Hsock addr Hop).
  destruct (proxy_end_new rfuel rng (opened addr) kind key target p wire pt v Hnew (proj1 Hsock) (proj2 Hsock)
              Hrfuel Hwire) as (ci & Hci & Hin & Hout).
  set (salt := sent_nonce (pstream p)) in *.
  assert (relay_inv rfuel request pt v salt ci target Htarget s0 [] []) as Hi0.
  { unfold proxy in Hs0. apply bind_Ok in Hs0 as (cb & Hcb & [= <-]).
    destruct (Cipher_new_Ok_wf _ _ _ _ Hci) as (_ & _ & Hk).
    assert (is_aead kind = true) as Hkind by (by destruct kind).
    assert (category kind = Aead) as Hcat by (by destruct kind).
    unfold copy_from_encrypted in Hcb. rewrite Hcat, aead_tag_len in Hcb by done.
    cbn [mbind res_bind] in Hcb. apply Ok_inj in Hcb as <-.
    unfold copy_to_encrypted. rewrite Hcat.
    apply (relaying_new (DuplexOk1:=proxy_DuplexOk rfuel 0 [] v salt ci target Htarget));
      try apply Hclient; try done; unfold MAX_PACKET_SIZE; try lia. }
  destruct (relays_inv _ _ _ _ _ _ _ _ _ Hrequest Hresponse _ _ Hi0 Hrun) as (d1 & d2 & Hi).
  split.
  { destruct Hi as (r1 & o1 & r2 & o2 & _ & Hs2 & _ & Ha & _). exists d2, o2.
    split; [done|by eapply stage_prefix]. }
  pose proof (poll_session_spec rfuel fuel request pt v salt ci target Htarget Hrequest Hresponse
    s d1 d2 now padding Hi) as Hp.
  destruct (poll_session _ _ _ _ s) as [[|[[[] n]|e|]|] s']; try done.
  - destruct Hp as (-> & Hw & d2' & o & ? & ?). split_and!; [done|by exists d2', o|].
    intros Hne. by apply (proxy_outgoing_decodes kind key salt ci target (far s')).
  - by destruct Hp as (-> & -> & ? & _).
Qed.

(** ** Properties *)


Module Demo.
Global Instance duplex_Independent : Independent Script.duplex.
Proof.
  split.
  - intros n [r k] w o p s' Ha Hp. simpl in *. destruct (Script.source_read n r). by simplify_eq.
  - intros bs [r k] c p s' Hr Hp. simpl in *. destruct (Script.sink_write bs k). by simplify_eq.
  - intros [r k] c p s' Hr Hp. simpl in *. by simplify_eq.
Qed.

Definition answer : bytes := [111; 107].
(** The stream of a server that answers. *)
Definition wire : bytes :=
  Eval vm_compute in
    match Cipher_new (L:=Toy.toy) (E:=()) AES_128_GCM ProxyStream.Demo.key ProxyStream.Demo.salt with
    | Ok ci => ProxyStream.Demo.salt ++ chunks_wire (L:=Toy.toy) ci [answer]
    | _ => []
    end.
Definition sink : Script.sink := {| Script.quota := []; Script.got := [] |}.
Definition sock : Script.duplex := ([Script.EvPending; Script.EvBytes wire], sink).
(** A client that sends a request and waits, and one that sends it and closes its side. *)
Definition waiting : Script.duplex := ([Script.EvBytes [104; 105]; Script.EvPending; Script.EvPending], sink).
Definition closing : Script.duplex := ([Script.EvBytes [104; 105]], sink).

(** The server is configured by its name; every socket call succeeds. *)
Definition conf : ServerConfig :=
  {| addr := DomainNameAddress [115; 115] 8388; password := []; method := AES_128_GCM;
     enc_key := ProxyStream.Demo.key; timeout := None; identity_keys := []; remarks := None; id := None;
     mode := TcpAndUdp; weight := ServerWeight_new |}.
Definition opts : ConnectOpts :=
  {| fwmark := None; bind_local_addr := None; bind_interface := None;
     tcp := {| send_buffer_size := None; recv_buffer_size := None; nodelay := true; fastopen := false;
               keepalive := None |} |}.
Definition dial : list SockOp * option (res ErrorKind (ProxyStream Script.duplex)) :=
  connect (L:=Toy.toy) (M:=Toy2022.toy) (λ _, Some [IpV4 [192; 0; 2; 1]]) OtherError (λ _, None) (λ _, sock)
    [ProxyStream.Demo.salt] conf ProxyStream.Demo.addr opts.
Example dialled : dial.1 = [OpNewV4; OpConnect (V4 [192; 0; 2; 1] 8388); OpNodelay].
Proof. vm_compute. reflexivity. Qed.
Definition open : ProxyStream Script.duplex :=
  match dial.2 with Some (Ok p) => p | _ => ProxyStream.Demo.start end.
Definition start (client : Script.duplex) : Session Script.duplex (ProxyStream Script.duplex) :=
  {| l2p := copy_to_encrypted AES_128_GCM; p2l := CopyBuffer_new (MAX_PACKET_SIZE + 16);
     near := client; far := open |}.
Abbreviation poll := (poll_session (L:=Toy.toy) (M:=Toy2022.toy) (H:=release) 100 10 0 []).

(** The client that waits gets the answer.  The one that closes its side after the request
    gets nothing: the session ends with the copy of the request. *)
Example waiting_is_answered :
  (poll (poll (start waiting)).2).1 = Ready (Ok (Right, 2))
  ∧ Script.got (near (poll (poll (start waiting)).2).2).2 = answer.
Proof. vm_compute. split; reflexivity. Qed.
Example closing_loses_answer :
  (poll (start closing)).1 = Ready (Ok (Left, 2))
  ∧ Script.got (near (poll (start closing)).2).2 = [].
Proof. vm_compute. split; reflexivity. Qed.

Lemma demo_relays :
  relays (L:=Toy.toy) (M:=Toy2022.toy) (H:=release) 100 10 (start waiting) (poll (start waiting)).2.
Proof.
  eapply (relays_pending (L:=Toy.toy) (M:=Toy2022.toy) (H:=release) 100 10 _ (start waiting) 0 []);
    [constructor|].
  refine (CopyBuffer.Demo.poll_eta (poll (start waiting)) Pending _). vm_compute. reflexivity.
Qed.
End Demo.

