(* ===== verification/Float64.v ===== *)
(** * Double-precision numbers

    Rust's [f64] is IEEE 754 binary64 with rounding to nearest even, as specified by the
    library's [SpecFloat]; the conversions from and to integers are those of [as].  The
    operations are exact on integers below [2^53], which is what the users rely on. *)

From Stdlib Require Import SpecFloat.
From S2P Require Import Prelude.

Abbreviation f64 := spec_float.

Definition prec : Z := 53.
Definition emax : Z := 1024.

(** [z as f64], [x + y], [x * y], [x / y]. *)
Definition f64_of_Z (z : Z) : f64 := binary_normalize prec emax z 0 false.
Definition f64_add (x y : f64) : f64 := SFadd prec emax x y.
Definition f64_mul (x y : f64) : f64 := SFmul prec emax x y.
Definition f64_div (x y : f64) : f64 := SFdiv prec emax x y.

(** [x as u64]: truncation, saturating; not a number is zero. *)
Definition f64_to_u64 (x : f64) : Z :=
  match x with
  | S754_zero _ | S754_nan => 0
  | S754_infinity s => if s then 0 else u64_max
  | S754_finite s m e => if s then 0 else Z.min (Z.shiftl (Zpos m) e) u64_max
  end.

(** ** Exact operations *)

Lemma digits2_log2 p : Zpos (digits2_pos p) = Z.log2 (Zpos p) + 1.
Proof.
  induction p as [p IH|p IH|]; cbn [digits2_pos]; [| |done];
    rewrite Pos2Z.inj_succ, IH; [rewrite Pos2Z.inj_xI, Z.log2_succ_double by lia
                                |rewrite Pos2Z.inj_xO, Z.log2_double by lia]; lia.
Qed.

Lemma iter_pos_nat {A} (f : A → A) p x : SpecFloat.iter_pos f p x = Nat.iter (Pos.to_nat p) f x.
Proof.
  revert x. induction p as [p IH|p IH|]; intros x; cbn [SpecFloat.iter_pos].
  - rewrite !IH, Pos2Nat.inj_xI. rewrite <- Nat.iter_add, <- Nat.iter_succ_r. f_equal. lia.
  - rewrite !IH, Pos2Nat.inj_xO, <- Nat.iter_add. f_equal. lia.
  - done.
Qed.

Lemma shr_1_even m : 0 < m →
  shr_1 {| shr_m := 2 * m; shr_r := false; shr_s := false |}
  = {| shr_m := m; shr_r := false; shr_s := false |}.
Proof. by destruct m. Qed.

Lemma shr_exact n q : 0 < q →
  Nat.iter n shr_1 {| shr_m := q * 2 ^ Z.of_nat n; shr_r := false; shr_s := false |}
  = {| shr_m := q; shr_r := false; shr_s := false |}.
Proof.
  intros Hq. induction n as [|n IH]; [by rewrite Z.mul_1_r|].
  rewrite Nat.iter_succ_r, Nat2Z.inj_succ, Z.pow_succ_r by lia.
  replace (q * (2 * 2 ^ Z.of_nat n)) with (2 * (q * 2 ^ Z.of_nat n)) by lia.
  rewrite shr_1_even by lia. exact IH.
Qed.

Definition normal (m : positive) : Prop := 2 ^ 52 <= Zpos m < 2 ^ 53.

Lemma normal_log2 m : normal m → Z.log2 (Zpos m) = 52.
Proof. intros [??]. by apply Z.log2_unique. Qed.

Lemma shr_fexp_exact q e n :
  normal q → -1074 <= e + Z.of_nat n →
  shr_fexp prec emax (Zpos q * 2 ^ Z.of_nat n) e loc_Exact
  = ({| shr_m := Zpos q; shr_r := false; shr_s := false |}, e + Z.of_nat n).
Proof.
  intros Hq He. unfold shr_fexp. cbn [shr_record_of_loc].
  assert (Zdigits2 (Zpos q * 2 ^ Z.of_nat n) = 53 + Z.of_nat n) as ->.
  { assert (0 < Zpos q * 2 ^ Z.of_nat n) by lia.
    destruct (Zpos q * 2 ^ Z.of_nat n) as [|p|p] eqn:E; try lia.
    cbn [Zdigits2]. rewrite digits2_log2, <- E, Z.log2_mul_pow2 by lia.
    rewrite normal_log2 by done. lia. }
  assert (fexp prec emax (53 + Z.of_nat n + e) - e = Z.of_nat n) as ->
    by (unfold fexp, emin, prec, emax; lia).
  unfold shr. destruct n as [|n]; [by rewrite Z.mul_1_r, Z.add_0_r|].
  pose proof (shr_exact (S n) (Zpos q) ltac:(lia)) as Hs.
  change (Z.of_nat (S n)) with (Zpos (Pos.of_succ_nat n)) in *.
  cbv beta iota. by rewrite iter_pos_nat, SuccNat2Pos.id_succ, Hs.
Qed.

Lemma round_exact q e n :
  normal q → -1074 <= e + Z.of_nat n <= 971 →
  binary_round_aux prec emax false (Zpos q * 2 ^ Z.of_nat n) e loc_Exact
  = S754_finite false q (e + Z.of_nat n).
Proof.
  intros Hq [? ?]. unfold binary_round_aux. rewrite shr_fexp_exact by done.
  cbn [shr_m loc_of_shr_record round_nearest_even].
  pose proof (shr_fexp_exact q (e + Z.of_nat n) 0 Hq ltac:(lia)) as Hz.
  rewrite Z.mul_1_r, Z.add_0_r in Hz. rewrite Hz. cbn [shr_m].
  rewrite (proj2 (Z.leb_le _ _)) by (unfold emax, prec; lia). done.
Qed.

(** [exactly x z]: [x] is the float of the integer [z]. *)
Definition exactly (x : f64) (z : Z) : Prop :=
  ∃ m e, x = S754_finite false m e ∧ normal m ∧ -52 <= e <= 0 ∧ Zpos m = z * 2 ^ (- e).

Lemma normalise z : 0 < z < 2 ^ 53 →
  ∃ q, normal q ∧ Zpos q = z * 2 ^ (52 - Z.log2 z) ∧ 0 <= Z.log2 z <= 52.
Proof.
  intros [? ?]. pose proof (Z.log2_spec z ltac:(lia)) as [Hl Hu].
  pose proof (Z.log2_nonneg z).
  assert (Z.log2 z < 53) by (apply Z.log2_lt_pow2; lia).
  assert (0 < z * 2 ^ (52 - Z.log2 z)) by lia.
  destruct (z * 2 ^ (52 - Z.log2 z)) as [|q|] eqn:E; try lia.
  exists q. split_and!; [|done|lia|lia]. unfold normal. rewrite <- E.
  assert (2 ^ 52 = 2 ^ Z.log2 z * 2 ^ (52 - Z.log2 z)) as -> by (rewrite <- Z.pow_add_r; [f_equal; lia|lia|lia]).
  assert (2 ^ 53 = 2 ^ Z.succ (Z.log2 z) * 2 ^ (52 - Z.log2 z)) as -> by (rewrite <- Z.pow_add_r; [f_equal; lia|lia|lia]).
  nia.
Qed.

Lemma iter_xO d m : Zpos (Pos.iter xO m d) = Zpos m * 2 ^ Zpos d.
Proof.
  rewrite <- (Z.shiftl_mul_pow2 _ (Zpos d)) by lia. cbn [Z.shiftl].
  apply (Pos.iter_swap_gen _ _ Zpos xO (Z.mul 2)). done.
Qed.

Lemma shl_align_exact m e e' : e' <= e →
  shl_align m e e' = (Pos.iter xO m (Z.to_pos (e - e')), e') ∧ e' < e ∨ shl_align m e e' = (m, e) ∧ e' = e.
Proof.
  intros He. unfold shl_align. destruct (e' - e) as [|d|d] eqn:Ed; [right; split; [done|lia]|lia|].
  left. split; [|lia]. by replace (e - e') with (Zpos d) by lia.
Qed.

(** Rounding an integer of at most 53 bits, given with some trailing zeros, is exact. *)
Lemma binary_round_exact z m e : 0 < z < 2 ^ 53 → -52 <= e <= 0 → Zpos m = z * 2 ^ (- e) →
  exactly (binary_round prec emax false m e) z.
Proof.
  intros Hz He Em. destruct (normalise z Hz) as (q & Hq & Eq & Hl). unfold binary_round.
  rewrite digits2_log2, Em, Z.log2_mul_pow2 by lia. set (l := Z.log2 z) in *.
  replace (fexp _ _ _) with (l - 52) by (unfold fexp, emin, prec, emax; lia).
  exists q, (l - 52). split_and!; [|done|lia|lia|rewrite Eq; f_equal; f_equal; lia].
  destruct (Z.le_gt_cases (l - 52) e) as [Hle|Hgt].
  - pose proof (round_exact q (l - 52) 0 Hq ltac:(lia)) as Hr. rewrite Z.mul_1_r, Z.add_0_r in Hr.
    destruct (shl_align_exact m e (l - 52) Hle) as [[-> Hlt]|[-> E]].
    + rewrite iter_xO, Em, Z2Pos.id, <- Z.mul_assoc, <- Z.pow_add_r by lia.
      replace (- e + (e - (l - 52))) with (52 - l) by lia. by rewrite <- Eq.
    + rewrite Em, <- E. replace (- (l - 52)) with (52 - l) by lia. by rewrite <- Eq.
  - assert (shl_align m e (l - 52) = (m, e)) as ->.
    { unfold shl_align. by destruct (l - 52 - e) eqn:?; [| |lia]. }
    replace (Zpos m) with (Zpos q * 2 ^ Z.of_nat (Z.to_nat (l - 52 - e))); cycle 1.
    { rewrite Z2Nat.id, Eq, Em, <- Z.mul_assoc, <- Z.pow_add_r by lia. do 2 f_equal. lia. }
    rewrite round_exact by (done || lia). f_equal. lia.
Qed.

Lemma of_Z_exact z : 0 < z < 2 ^ 53 → exactly (f64_of_Z z) z.
Proof.
  intros Hz. destruct z as [|z|z]; [lia| |lia]. apply binary_round_exact; [done|lia|].
  symmetry. apply Z.mul_1_r.
Qed.

Lemma exactly_unique x y z : exactly x z → exactly y z → x = y.
Proof.
  intros (m1 & e1 & -> & Hm1 & He1 & E1) (m2 & e2 & -> & Hm2 & He2 & E2). unfold normal in *.
  assert (e1 = e2) as ->.
  { destruct (Z.lt_trichotomy e1 e2) as [Hlt|[?|Hlt]]; [exfalso|done|exfalso].
    - assert (2 ^ (- e1) = 2 ^ (- e2) * 2 ^ (e2 - e1)) as Ep
        by (rewrite <- Z.pow_add_r by lia; f_equal; lia).
      pose proof (Z.pow_le_mono_r 2 1 (e2 - e1) ltac:(lia) ltac:(lia)). rewrite Ep in E1. nia.
    - assert (2 ^ (- e2) = 2 ^ (- e1) * 2 ^ (e1 - e2)) as Ep
        by (rewrite <- Z.pow_add_r by lia; f_equal; lia).
      pose proof (Z.pow_le_mono_r 2 1 (e1 - e2) ltac:(lia) ltac:(lia)). rewrite Ep in E2. nia. }
  f_equal. congruence.
Qed.

Lemma shl_align_exactly m e z ez : ez <= e → e <= 0 → Zpos m = z * 2 ^ (- e) →
  Zpos (shl_align m e ez).1 = z * 2 ^ (- ez).
Proof.
  intros Hle He Em. destruct (shl_align_exact m e ez Hle) as [[-> Hlt]|[-> ->]]; [|done]. simpl.
  rewrite iter_xO, Em, Z2Pos.id, <- Z.mul_assoc, <- Z.pow_add_r by lia. do 2 f_equal. lia.
Qed.

Lemma add_exact x y a b : 0 < a → 0 < b → a + b < 2 ^ 53 →
  exactly x a → exactly y b → exactly (f64_add x y) (a + b).
Proof.
  intros Ha Hb Hab (m1 & e1 & -> & Hm1 & He1 & E1) (m2 & e2 & -> & Hm2 & He2 & E2).
  unfold f64_add, SFadd. cbn [cond_Zopp]. set (ez := Z.min e1 e2).
  pose proof (shl_align_exactly m1 e1 a ez ltac:(lia) ltac:(lia) E1) as A1.
  pose proof (shl_align_exactly m2 e2 b ez ltac:(lia) ltac:(lia) E2) as A2.
  rewrite A1, A2, <- Z.mul_add_distr_r.
  destruct ((a + b) * 2 ^ - ez) as [|m|m] eqn:Em; [lia| |lia].
  apply binary_round_exact; [lia|lia|done].
Qed.

(** Adding integers whose sum has at most 53 bits is exact. *)
Lemma add_of_Z a b : 0 <= a → 0 <= b → a + b < 2 ^ 53 → f64_add (f64_of_Z a) (f64_of_Z b) = f64_of_Z (a + b).
Proof.
  intros Ha Hb Hab. destruct (Z.eq_dec a 0) as [->|]; [|destruct (Z.eq_dec b 0) as [->|]].
  - destruct (Z.eq_dec b 0) as [->|]; [done|]. rewrite Z.add_0_l. destruct (of_Z_exact b ltac:(lia)) as (m & e & -> & _). done.
  - rewrite Z.add_0_r. destruct (of_Z_exact a ltac:(lia)) as (m & e & -> & _). done.
  - apply (exactly_unique _ _ (a + b)); [|apply of_Z_exact; lia].
    apply add_exact; try lia; apply of_Z_exact; lia.
Qed.

Lemma mul_exact x y a b : 0 < a → 0 < b → a * b < 2 ^ 53 →
  exactly x a → exactly y b → exactly (f64_mul x y) (a * b).
Proof.
  intros Ha Hb Hab (m1 & e1 & -> & Hm1 & He1 & E1) (m2 & e2 & -> & Hm2 & He2 & E2).
  destruct (normalise (a * b) ltac:(nia)) as (q & Hq & Eq & Hl).
  set (l := Z.log2 (a * b)) in *.
  unfold f64_mul, SFmul. cbn [xorb].
  assert (Zpos (m1 * m2) = Zpos q * 2 ^ (l - 52 - e1 - e2) ∧ 0 <= l - 52 - e1 - e2) as [Ep Hn].
  { assert (Zpos (m1 * m2) = a * b * 2 ^ (- e1 - e2)) as E3.
    { rewrite Pos2Z.inj_mul, E1, E2. replace (- e1 - e2) with (- e1 + - e2) by lia.
      rewrite Z.pow_add_r by lia. ring. }
    unfold normal in *.
    assert (0 <= l - 52 - e1 - e2) as Hn.
    { (* the product of two mantissas has at least 105 bits *)
      assert (104 <= Z.log2 (Zpos (m1 * m2))) as Hlog.
      { apply Z.log2_le_pow2; [lia|]. rewrite Pos2Z.inj_mul.
        change (2 ^ 104) with (2 ^ 52 * 2 ^ 52). nia. }
      rewrite E3, Z.log2_mul_pow2 in Hlog by lia. fold l in Hlog. lia. }
    split; [|done]. rewrite E3, Eq, <- (Z.mul_assoc (a * b)), <- Z.pow_add_r by lia.
    do 2 f_equal. lia. }
  exists q, (l - 52). split_and!; [|done|lia|lia|rewrite Eq; f_equal; f_equal; lia].
  rewrite Ep, <- (Z2Nat.id (l - 52 - e1 - e2)) by done.
  rewrite round_exact; [f_equal; lia|done|lia].
Qed.

Lemma exactly_to_u64 x z : 0 < z < 2 ^ 53 → exactly x z → f64_to_u64 x = z.
Proof.
  intros Hz (m & e & -> & Hm & He & E). simpl.
  replace (Z.shiftl (Zpos m) e) with z; [unfold u64_max; lia|].
  rewrite <- (Z.opp_involutive e), Z.shiftl_opp_r, Z.shiftr_div_pow2, E by lia.
  symmetry. apply Z.div_mul. lia.
Qed.

(** [x as i64] *)
Definition f64_to_i64 (x : f64) : Z :=
  match x with
  | S754_zero _ | S754_nan => 0
  | S754_infinity s => if s then i64_min else i64_max
  | S754_finite s m e =>
    if s then Z.max (- Z.shiftl (Zpos m) e) i64_min else Z.min (Z.shiftl (Zpos m) e) i64_max
  end.

(** ** Lower bounds

    Rounding to nearest never goes below an integer of at most 53 bits. *)

(** [a <= m * 2^e] *)
Definition ge_at (a m e : Z) : Prop := a * 2 ^ Z.max 0 (- e) <= m * 2 ^ Z.max 0 e.

Definition at_least (x : f64) (a : Z) : Prop :=
  match x with
  | S754_finite false m e => ge_at a (Zpos m) e
  | S754_infinity false => True
  | _ => False
  end.

Lemma shr_1_div m r s : 0 <= m → shr_m (shr_1 {| shr_m := m; shr_r := r; shr_s := s |}) = m / 2.
Proof.
  intros Hm. destruct m as [|[p|p|]|]; simpl; try done; try lia.
  - rewrite Pos2Z.inj_xI. apply (Z.div_unique _ _ _ 1); lia.
  - rewrite Pos2Z.inj_xO. apply (Z.div_unique _ _ _ 0); lia.
Qed.

Lemma shr_iter_div n m r s : 0 <= m →
  shr_m (Nat.iter n shr_1 {| shr_m := m; shr_r := r; shr_s := s |}) = m / 2 ^ Z.of_nat n.
Proof.
  intros Hm. induction n as [|n IH]; [by rewrite Z.div_1_r|].
  cbn [Nat.iter nat_rect]. fold (Nat.iter n shr_1 {| shr_m := m; shr_r := r; shr_s := s |}).
  destruct (Nat.iter n shr_1 _) as [m' r' s']. simpl in IH. subst m'.
  rewrite shr_1_div by (apply Z.div_pos; lia).
  rewrite Nat2Z.inj_succ, Z.pow_succ_r, Z.div_div by lia. f_equal. lia.
Qed.

Lemma shr_m_of_loc m l : ∃ r s, shr_record_of_loc m l = {| shr_m := m; shr_r := r; shr_s := s |}.
Proof. destruct l as [|[]]; eauto. Qed.

(** The shift of [shr_fexp], in terms of division. *)
Lemma shr_fexp_div m e l :
  0 < m →
  let n := Z.max 0 (fexp prec emax (Z.log2 m + 1 + e) - e) in
  ∃ mrs, shr_fexp prec emax m e l = (mrs, e + n) ∧ shr_m mrs = m / 2 ^ n.
Proof.
  intros Hm n. unfold shr_fexp.
  assert (Zdigits2 m = Z.log2 m + 1) as -> by (destruct m; try lia; apply digits2_log2).
  destruct (shr_m_of_loc m l) as (r & s & ->). unfold shr, n.
  destruct (fexp prec emax (Z.log2 m + 1 + e) - e) as [|p|p].
  - eexists. split; [f_equal; lia|]. by rewrite Z.div_1_r.
  - eexists. split; [f_equal; lia|]. rewrite iter_pos_nat, shr_iter_div by lia.
    by rewrite positive_nat_Z, Z.max_r by lia.
  - eexists. split; [f_equal; lia|]. rewrite Z.max_l by lia. by rewrite Z.div_1_r.
Qed.

Lemma shr_fexp_ge a m e l :
  0 < a <= 2 ^ 53 → 0 < m → ge_at a m e →
  ∃ mrs e', shr_fexp prec emax m e l = (mrs, e') ∧ 0 < shr_m mrs ∧ ge_at a (shr_m mrs) e'.
Proof.
  intros Ha Hm Hge. destruct (shr_fexp_div m e l Hm) as (mrs & -> & Hq).
  set (n := Z.max 0 _) in *. exists mrs, (e + n). split; [done|].
  assert (ge_at a (shr_m mrs) (e + n)) as Hge'.
  { rewrite Hq. unfold ge_at in *. destruct (Z.le_gt_cases (e + n) 0) as [HE|HE].
    - rewrite (Z.max_r 0 (- (e + n))), (Z.max_l 0 (e + n)), Z.mul_1_r by lia.
      apply Z.div_le_lower_bound; [lia|].
      rewrite (Z.max_r 0 (- e)), (Z.max_l 0 e), Z.mul_1_r in Hge by lia.
      rewrite Z.mul_comm, <- Z.mul_assoc, <- Z.pow_add_r by lia.
      by replace (- (e + n) + n) with (- e) by lia.
    - rewrite (Z.max_l 0 (- (e + n))), (Z.max_r 0 (e + n)), Z.mul_1_r by lia.
      destruct (Z.eq_dec n 0) as [En|En].
      + rewrite En, Z.add_0_r, Z.div_1_r in *.
        by rewrite (Z.max_l 0 (- e)), (Z.max_r 0 e), Z.mul_1_r in Hge by lia.
      + assert (n = Z.log2 m + 1 - 53) as En' by (unfold n, fexp, emin, prec, emax in *; lia).
        assert (2 ^ 52 <= m / 2 ^ n) as Hq52.
        { apply Z.div_le_lower_bound; [lia|]. rewrite <- Z.pow_add_r by lia.
          replace (n + 52) with (Z.log2 m) by lia. apply (Z.log2_spec m); lia. }
        assert (2 ^ 1 <= 2 ^ (e + n)) by (apply Z.pow_le_mono_r; lia).
        assert (2 ^ 52 * 2 ^ 1 <= m / 2 ^ n * 2 ^ (e + n)) by (apply Z.mul_le_mono_nonneg; lia).
        lia. }
  split; [|done]. unfold ge_at in Hge'.
  assert (0 < a * 2 ^ Z.max 0 (- (e + n))) by lia.
  assert (0 < 2 ^ Z.max 0 (e + n)) by lia. nia.
Qed.

Lemma round_at_least a m e l :
  0 < a <= 2 ^ 53 → 0 < m → ge_at a m e → at_least (binary_round_aux prec emax false m e l) a.
Proof.
  intros Ha Hm Hge. unfold binary_round_aux.
  destruct (shr_fexp_ge a m e l Ha Hm Hge) as (mrs & e' & -> & Hq & Hge').
  set (r := round_nearest_even (shr_m mrs) (loc_of_shr_record mrs)).
  assert (shr_m mrs <= r) as Hr.
  { unfold r, round_nearest_even. repeat case_match; lia. }
  assert (ge_at a r e') as Hge2.
  { unfold ge_at in *. assert (0 < 2 ^ Z.max 0 e') by lia. nia. }
  destruct (shr_fexp_ge a r e' loc_Exact Ha ltac:(lia) Hge2) as (mrs2 & e2 & -> & Hq2 & Hge3).
  destruct (shr_m mrs2) as [|p|p]; [lia| |lia]. by case_match.
Qed.

Lemma exactly_ge x a : exactly x a → ∃ m e, x = S754_finite false m e ∧ e <= 0 ∧ Zpos m = a * 2 ^ (- e).
Proof. intros (m & e & ? & _ & ? & ?). exists m, e. split_and!; [done|lia|done]. Qed.

Lemma mul_at_least x y a :
  0 < a <= 2 ^ 53 → exactly x a → at_least y 1 → at_least (f64_mul x y) a.
Proof.
  intros Ha (m1 & e1 & -> & He1 & E1)%exactly_ge Hy. unfold f64_mul, SFmul.
  destruct y as [s|[|]| |[|] m2 e2]; try done. cbn [xorb]. simpl in Hy.
  apply round_at_least; [done|done|]. unfold ge_at in *.
  rewrite Pos2Z.inj_mul, E1. rewrite Z.mul_1_l in Hy.
  destruct (Z.le_gt_cases e2 0).
  - rewrite (Z.max_r 0 (- e2)), (Z.max_l 0 e2), Z.mul_1_r in Hy by lia.
    rewrite (Z.max_r 0 (- (e1 + e2))), (Z.max_l 0 (e1 + e2)), Z.mul_1_r by lia.
    replace (- (e1 + e2)) with (- e1 + - e2) by lia. rewrite Z.pow_add_r by lia.
    assert (0 < a * 2 ^ (- e1)) by lia. nia.
  - destruct (Z.le_gt_cases (e1 + e2) 0).
    + rewrite (Z.max_r 0 (- (e1 + e2))), (Z.max_l 0 (e1 + e2)), Z.mul_1_r by lia.
      assert (2 ^ (- (e1 + e2)) <= 2 ^ (- e1)) by (apply Z.pow_le_mono_r; lia).
      assert (0 < a * 2 ^ (- e1)) by lia. nia.
    + rewrite (Z.max_l 0 (- (e1 + e2))), (Z.max_r 0 (e1 + e2)), Z.mul_1_r by lia.
      assert (1 <= 2 ^ (- e1)) by (pose proof (Z.pow_pos_nonneg 2 (- e1)); lia).
      assert (1 <= 2 ^ (e1 + e2)) by (pose proof (Z.pow_pos_nonneg 2 (e1 + e2)); lia).
      assert (a <= a * 2 ^ (- e1)) by nia. assert (a * 2 ^ (- e1) <= a * 2 ^ (- e1) * Zpos m2) by nia.
      nia.
Qed.

Lemma div_at_least_1 a b :
  0 < b <= a → a < 2 ^ 53 → at_least (f64_div (f64_of_Z a) (f64_of_Z b)) 1.
Proof.
  intros Hb Ha.
  destruct (of_Z_exact a ltac:(lia)) as (m1 & e1 & -> & Hm1 & He1 & E1).
  destruct (of_Z_exact b ltac:(lia)) as (m2 & e2 & -> & Hm2 & He2 & E2).
  unfold f64_div, SFdiv. cbn [xorb]. unfold SFdiv_core_binary.
  cbn [Zdigits2]. rewrite !digits2_log2, !normal_log2 by done.
  set (e' := Z.min _ _).
  assert (e' <= e1 - e2 /\ e' <= 0) as [He' He0] by (unfold e', fexp, emin, prec, emax; lia).
  set (num := match e1 - e2 - e' with Zpos _ => _ | Z0 => _ | Zneg _ => _ end).
  assert (num = Zpos m1 * 2 ^ (e1 - e2 - e')) as Hnum.
  { unfold num. destruct (e1 - e2 - e') eqn:E; [by rewrite Z.mul_1_r| |lia].
    by rewrite Z.shiftl_mul_pow2 by lia. }
  destruct (Z.div_eucl num (Zpos m2)) as [q r] eqn:Hd.
  assert (q = num / Zpos m2) as -> by (unfold Z.div; by rewrite Hd).
  assert (2 ^ (- e') <= num / Zpos m2) as Hq.
  { apply Z.div_le_lower_bound; [lia|]. rewrite Hnum, E1, E2.
    rewrite <- !Z.mul_assoc, <- !Z.pow_add_r by lia.
    replace (- e1 + (e1 - e2 - e')) with (- e2 + - e') by lia.
    apply Z.mul_le_mono_nonneg_r; lia. }
  assert (0 < 2 ^ (- e')) by lia.
  apply round_at_least; [lia|lia|]. unfold ge_at.
  rewrite (Z.max_r 0 (- e')), (Z.max_l 0 e') by lia. lia.
Qed.

Lemma at_least_to_i64 x a : a <= i64_max → at_least x a → a <= f64_to_i64 x.
Proof.
  intros Ha Hx. destruct x as [|[|]| |[|] m e]; try done. simpl in *. unfold ge_at in Hx.
  apply Z.min_glb; [|done]. destruct (Z.le_gt_cases e 0).
  - rewrite (Z.max_r 0 (- e)), (Z.max_l 0 e), Z.mul_1_r in Hx by lia.
    rewrite <- (Z.opp_involutive e), Z.shiftl_opp_r, Z.shiftr_div_pow2 by lia.
    apply Z.div_le_lower_bound; lia.
  - rewrite (Z.max_l 0 (- e)), (Z.max_r 0 e), Z.mul_1_r in Hx by lia.
    by rewrite Z.shiftl_mul_pow2 by lia.
Qed.
