(* ===== verification/Duration.v ===== *)
(** * Durations as text (src/serde/duration.rs)

    [parse_duration] and [duration], the (de)serialisation of the configuration's
    durations.  A duration is a number of nanoseconds; [std::time::Duration] itself ranges
    over more than 64 bits. *)

From S2P Require Import Prelude RustStr Float64.

Definition NANOSECOND : Z := 1.
Definition MICROSECOND : Z := 1000 * NANOSECOND.
Definition MILLISECOND : Z := 1000 * MICROSECOND.
Definition SECOND : Z := 1000 * MILLISECOND.
Definition MINUTE : Z := 60 * SECOND.
Definition HOUR : Z := 60 * MINUTE.
Definition DAY : Z := 24 * HOUR.
Definition WEEK : Z := 7 * DAY.

Inductive ParseError := BadInteger | InvalidDuration | MissingUnit | UnknownUnit.

(** The maximal prefix of digits. *)
Fixpoint digits_prefix (s : bytes) : bytes :=
  match s with
  | c :: s => if is_ascii_digit c then c :: digits_prefix s else []
  | [] => []
  end.

Section parse.
Context `{Profile}.

(** The closure of [leading_int], folded: [10 * x + c as u64 - b'0' as u64]. *)
Fixpoint int_fold (x : Z) (ds : bytes) : res ParseError Z :=
  match ds with
  | [] => Ok x
  | c :: ds =>
    if u64_max / 10 <? x then Err BadInteger else
    y ← arith_u 64 (10 * x);
    y ← arith_u 64 (y + c);
    y ← arith_u 64 (y - 48);
    int_fold y ds
  end.

Definition leading_int (s : bytes) : res ParseError (Z * bytes) :=
  let ds := digits_prefix s in
  v ← int_fold 0 ds;
  Ok (v, drop (length ds) s).

(** The closure of [leading_fraction]: [x], [scale] and [overflow]. *)
Fixpoint frac_fold (x : Z) (scale : f64) (overflow : bool) (ds : bytes)
  : res ParseError (Z * f64) :=
  match ds with
  | [] => Ok (x, scale)
  | c :: ds =>
    if overflow then frac_fold x scale true ds else
    if i64_max / 10 <? x then frac_fold x scale true ds else
    y ← arith_i 64 (x * 10);
    y ← arith_i 64 (y + c);
    y ← arith_i 64 (y - 48);
    if y <? 0 then frac_fold x scale true ds else
    frac_fold y (f64_mul scale (f64_of_Z 10)) false ds
  end.

Definition leading_fraction (s : bytes) : res ParseError (Z * f64 * bytes) :=
  let ds := digits_prefix s in
  '(o, scale) ← frac_fold 0 (f64_of_Z 1) false ds;
  Ok (o, scale, drop (length ds) s).

Definition unit_of (u : bytes) : Z :=
  match u with
  | [110; 115] => NANOSECOND
  | [117; 115] => MICROSECOND
  | [194; 181; 115] => MICROSECOND
  | [206; 188; 115] => MICROSECOND
  | [109; 115] => MILLISECOND
  | [115] => SECOND
  | [109] => MINUTE
  | [104] => HOUR
  | [100] => DAY
  | [119] => WEEK
  | _ => 0
  end.

(** The number of bytes before the next digit or dot. *)
Fixpoint unit_len (s : bytes) : nat :=
  match s with
  | c :: s => if (c =? 46) || is_ascii_digit c then 0 else S (unit_len s)
  | [] => 0
  end.

(** The optional fraction: its digits as an integer, their scale, whether there were any. *)
Definition fraction_part (s : bytes) : res ParseError (Z * f64 * bool * bytes) :=
  match s with
  | 46 :: s =>
    '(f, scale, remain) ← leading_fraction s;
    Ok (f, scale, bool_decide (length s ≠ length remain), remain)
  | _ => Ok (0, f64_of_Z 1, false, s)
  end.

(** One turn of the loop of [parse_duration]: the value of the segment and the rest. *)
Definition parse_segment (s : bytes) : res ParseError (Z * bytes) :=
  let c := default 0 (s !! 0%nat) in
  _ ← fail_if (negb ((c =? 46) || is_ascii_digit c)) InvalidDuration;
  '(v, remain) ← leading_int s;
  let pre := bool_decide (length s ≠ length remain) in
  '(f, scale, post, s) ← fraction_part remain;
  _ ← fail_if (negb pre && negb post) InvalidDuration;
  let i := unit_len s in
  _ ← fail_if (bool_decide (i = 0)%nat) MissingUnit;
  let unit := unit_of (take i s) in
  let s := drop i s in
  _ ← fail_if (unit =? 0) UnknownUnit;
  _ ← fail_if (u64_max / unit <? v) InvalidDuration;
  v ← arith_u 64 (v * unit);
  v ← (if 0 <? f then
         let w := v + f64_to_u64 (f64_mul (f64_of_Z f) (f64_div (f64_of_Z unit) scale)) in
         if w <=? u64_max then Ok w else Err InvalidDuration
       else Ok v);
  Ok (v, s).

(** Every turn consumes at least the unit, so [length s] turns are enough; [None] when they
    were not. *)
Fixpoint parse_loop (fuel : nat) (d : Z) (s : bytes) : option (res ParseError Z) :=
  match s with
  | [] => Some (Ok d)
  | _ =>
    match fuel with
    | O => None
    | S fuel =>
      match parse_segment s with
      | Ok (v, s) =>
        match arith_u 64 (d + v) with
        | Ok d => parse_loop fuel d s
        | Err e => Some (Err e)
        | Panic => Some Panic
        end
      | Err e => Some (Err e)
      | Panic => Some Panic
      end
    end
  end.

(** The duration in nanoseconds. *)
Definition parse_duration (text : bytes) : option (res ParseError Z) :=
  let c := default 0 (text !! 0%nat) in
  let signed := (c =? 45) || (c =? 43) in
  let neg := signed && (c =? 45) in
  let s := if signed then drop 1 text else text in
  if neg then Some (Err InvalidDuration) else
  match s with
  | [48] => Some (Ok 0)
  | [] => Some (Err InvalidDuration)
  | _ => parse_loop (length s) 0 s
  end.
End parse.

(** ** Printing

    [out] is [buf[w..]], the part of the 32-byte buffer that has been filled: writing in
    front of a full buffer underflows [w] and panics. *)

Definition put {E} (b : Z) (out : bytes) : res E bytes :=
  if bool_decide (length out < 32)%nat then Ok (b :: out) else Panic.

(** The loop panics before it has run 33 times. *)
Fixpoint fmt_int_loop {E} (fuel : nat) (out : bytes) (v : Z) : res E bytes :=
  match fuel with
  | O => Panic
  | S fuel =>
    if 0 <? v then out ← put (v mod 10 + 48) out; fmt_int_loop fuel out (v / 10)
    else Ok out
  end.

Definition fmt_int {E} (out : bytes) (v : Z) : res E bytes :=
  if v =? 0 then put 48 out else fmt_int_loop 33 out v.

Fixpoint fmt_frac_loop {E} (prec : nat) (print : bool) (out : bytes) (v : Z)
  : res E (bool * bytes * Z) :=
  match prec with
  | O => Ok (print, out, v)
  | S prec =>
    let digit := v mod 10 in
    let print := print || negb (digit =? 0) in
    out ← (if print then put (digit + 48) out else Ok out);
    fmt_frac_loop prec print out (v / 10)
  end.

Definition fmt_frac {E} (out : bytes) (v : Z) (prec : nat) : res E (bytes * Z) :=
  '(print, out, v) ← fmt_frac_loop prec false out v;
  out ← (if print : bool then put 46 out else Ok out);
  Ok (out, v).

(** [nanos] is [d.as_nanos()], which is cast to [u64]. *)
Definition duration {E} (nanos : Z) : res E bytes :=
  let u := wrap_u 64 nanos in
  if u <? SECOND then
    out ← put 115 [];
    if u =? 0 then Ok [48; 115] else
    let '(sym, prec) := if u <? MICROSECOND then (110, 0%nat)
                        else if u <? MILLISECOND then (117, 3%nat)
                        else (109, 6%nat) in
    out ← put sym out;
    '(out, u) ← fmt_frac out u prec;
    fmt_int out u
  else
    out ← put 115 [];
    '(out, u) ← fmt_frac out u 9;
    out ← fmt_int out (u mod 60);
    let u := u / 60 in
    if 0 <? u then
      out ← put 109 out;
      out ← fmt_int out (u mod 60);
      let u := u / 60 in
      if 0 <? u then
        out ← put 104 out;
        fmt_int out u
      else Ok out
    else Ok out.

(** ** Decimal numerals *)

Definition dec_acc (x : Z) (ds : bytes) : Z := foldl (λ x c, 10 * x + (c - 48)) x ds.
Definition dec_value (ds : bytes) : Z := dec_acc 0 ds.

Definition is_digit (c : Z) : Prop := 48 <= c <= 57.
Abbreviation digits := (Forall is_digit).

Lemma is_digit_spec c : is_ascii_digit c = true ↔ is_digit c.
Proof. unfold is_ascii_digit, is_digit. lia. Qed.

Lemma dec_acc_snoc x ds c : dec_acc x (ds ++ [c]) = 10 * dec_acc x ds + (c - 48).
Proof. unfold dec_acc. by rewrite foldl_app. Qed.

Lemma dec_acc_bound x ds n :
  digits ds → 0 <= x < 10 ^ Z.of_nat n → 0 <= dec_acc x ds < 10 ^ Z.of_nat (n + length ds).
Proof.
  intros Hd. revert x n. induction Hd as [|c ds Hc _ IH]; intros x n Hx; simpl.
  - by rewrite Nat.add_0_r.
  - replace (n + S (length ds))%nat with (S n + length ds)%nat by lia. apply IH.
    unfold is_digit in Hc. rewrite Nat2Z.inj_succ, Z.pow_succ_r by lia. lia.
Qed.

Lemma dec_value_bound ds : digits ds → 0 <= dec_value ds < 10 ^ Z.of_nat (length ds).
Proof. intros. by apply (dec_acc_bound 0 ds 0). Qed.

(** *** Printing *)

Lemma put_ok {E} b out : (length out < 32)%nat → put (E:=E) b out = Ok (b :: out).
Proof. intros. unfold put. by rewrite bool_decide_eq_true_2. Qed.

Lemma mod10_digit v : is_digit (v mod 10 + 48).
Proof. unfold is_digit. pose proof (Z.mod_pos_bound v 10). lia. Qed.

Lemma div10_bound v k : 0 <= v < 10 ^ Z.of_nat (S k) → 0 <= v / 10 < 10 ^ Z.of_nat k.
Proof.
  rewrite Nat2Z.inj_succ, Z.pow_succ_r by lia. intros [??].
  split; [apply Z.div_pos; lia|apply Z.div_lt_upper_bound; lia].
Qed.

Lemma fmt_int_loop_spec {E} k fuel out v :
  0 <= v < 10 ^ Z.of_nat k → (k < fuel)%nat → (length out + k ≤ 32)%nat →
  ∃ ds, fmt_int_loop (E:=E) fuel out v = Ok (ds ++ out)
    ∧ digits ds ∧ dec_value ds = v ∧ (length ds ≤ k)%nat ∧ (0 < v → ds ≠ []).
Proof.
  revert fuel out v. induction k as [|k IH]; intros fuel out v Hv Hf Hl;
    (destruct fuel as [|fuel]; [lia|]); cbn [fmt_int_loop].
  - assert (v = 0) as -> by (simpl in Hv; lia). exists []. by split_and!.
  - destruct (Z.ltb_spec 0 v) as [Hpos|Hz].
    2:{ assert (v = 0) as -> by lia. exists []. split_and!; [done|done|done|simpl; lia|lia]. }
    rewrite put_ok by lia. cbn [mbind res_bind].
    destruct (IH fuel (v mod 10 + 48 :: out) (v / 10)) as (ds & -> & Hd & Hval & Hlen & _);
      [by apply div10_bound|lia|simpl; lia|].
    exists (ds ++ [v mod 10 + 48]). split_and!.
    + by rewrite <- app_assoc.
    + apply Forall_app. split; [done|]. constructor; [apply mod10_digit|done].
    + unfold dec_value. rewrite dec_acc_snoc. fold (dec_value ds). rewrite Hval.
      pose proof (Z.div_mod v 10). lia.
    + rewrite length_app. simpl. lia.
    + intros _. by destruct ds.
Qed.

Lemma fmt_int_spec {E} k out v :
  0 <= v < 10 ^ Z.of_nat k → (1 ≤ k)%nat → (length out + k ≤ 32)%nat →
  ∃ ds, fmt_int (E:=E) out v = Ok (ds ++ out)
    ∧ digits ds ∧ dec_value ds = v ∧ (length ds ≤ k)%nat ∧ ds ≠ [].
Proof.
  intros Hv Hk Hl. unfold fmt_int. destruct (Z.eqb_spec v 0) as [->|Hnz].
  - exists [48]. rewrite put_ok by lia. split_and!; try done. by repeat constructor.
  - destruct (fmt_int_loop_spec (E:=E) k 33 out v Hv ltac:(lia) Hl)
      as (ds & ? & ? & ? & ? & Hne). exists ds. split_and!; try done. apply Hne. lia.
Qed.

(** The digits of [lo], the fraction scaled to [n] digits, without trailing zeros. *)
Definition frac_digits (n : nat) (lo : Z) (ds : bytes) : Prop :=
  digits ds ∧ (length ds ≤ n)%nat ∧ dec_value ds * 10 ^ Z.of_nat (n - length ds) = lo.

Lemma mod_pow_succ v n : 0 <= v →
  v mod 10 ^ Z.of_nat (S n) = 10 * ((v / 10) mod 10 ^ Z.of_nat n) + v mod 10.
Proof.
  intros. rewrite Nat2Z.inj_succ, Z.pow_succ_r, Z.rem_mul_r by lia. lia.
Qed.

Lemma div_pow_succ v n : 0 <= v → v / 10 ^ Z.of_nat (S n) = v / 10 / 10 ^ Z.of_nat n.
Proof. intros. rewrite Nat2Z.inj_succ, Z.pow_succ_r, Z.div_div by lia. done. Qed.

Lemma fmt_frac_loop_print {E} n out v :
  0 <= v → (length out + n ≤ 32)%nat →
  ∃ ds, fmt_frac_loop (E:=E) n true out v = Ok (true, ds ++ out, v / 10 ^ Z.of_nat n)
    ∧ digits ds ∧ length ds = n ∧ dec_value ds = v mod 10 ^ Z.of_nat n.
Proof.
  revert out v. induction n as [|n IH]; intros out v Hv Hl; cbn [fmt_frac_loop].
  - exists []. rewrite Z.div_1_r, Z.mod_1_r. by split_and!.
  - simpl orb. cbn iota. rewrite put_ok by lia. cbn [mbind res_bind].
    destruct (IH (v mod 10 + 48 :: out) (v / 10)) as (ds & -> & Hd & Hlen & Hval);
      [apply Z.div_pos; lia|simpl; lia|].
    exists (ds ++ [v mod 10 + 48]). split_and!.
    + by rewrite <- app_assoc, div_pow_succ by done.
    + apply Forall_app. split; [done|]. constructor; [apply mod10_digit|done].
    + rewrite length_app. simpl. lia.
    + unfold dec_value. rewrite dec_acc_snoc. fold (dec_value ds).
      rewrite Hval, mod_pow_succ by done. lia.
Qed.

Lemma fmt_frac_loop_spec {E} n out v :
  0 <= v → (length out + n ≤ 32)%nat →
  ∃ ds, fmt_frac_loop (E:=E) n false out v
        = Ok (negb (v mod 10 ^ Z.of_nat n =? 0), ds ++ out, v / 10 ^ Z.of_nat n)
    ∧ frac_digits n (v mod 10 ^ Z.of_nat n) ds ∧ (v mod 10 ^ Z.of_nat n = 0 → ds = []).
Proof.
  revert out v. induction n as [|n IH]; intros out v Hv Hl; cbn [fmt_frac_loop].
  - exists []. rewrite Z.div_1_r, Z.mod_1_r. by split_and!.
  - simpl orb. pose proof (Z.mod_pos_bound v 10).
    assert (0 < 10 ^ Z.of_nat n) by lia.
    pose proof (Z.mod_pos_bound (v / 10) (10 ^ Z.of_nat n)).
    destruct (Z.eqb_spec (v mod 10) 0) as [Hz|Hnz]; cbn [negb orb].
    + cbn [mbind res_bind]. destruct (IH out (v / 10)) as (ds & -> & (Hd & Hlen & Hval) & Hnil);
        [apply Z.div_pos; lia|lia|].
      exists ds. rewrite mod_pow_succ, Hz, div_pow_succ by done. split_and!.
      * do 4 f_equal. apply Bool.eq_iff_eq_true. rewrite !Z.eqb_eq. lia.
      * split_and!; [done|lia|].
        replace (S n - length ds)%nat with (S (n - length ds)) by lia.
        rewrite Nat2Z.inj_succ, Z.pow_succ_r by lia. lia.
      * intros. apply Hnil. lia.
    + rewrite put_ok by lia. cbn [mbind res_bind].
      destruct (fmt_frac_loop_print (E:=E) n (v mod 10 + 48 :: out) (v / 10))
        as (ds & -> & Hd & Hlen & Hval); [apply Z.div_pos; lia|simpl; lia|].
      exists (ds ++ [v mod 10 + 48]). rewrite mod_pow_succ, div_pow_succ by done. split_and!.
      * rewrite <- app_assoc. do 3 f_equal. symmetry. apply negb_true_iff, Z.eqb_neq. lia.
      * split_and!.
        -- apply Forall_app. split; [done|]. constructor; [apply mod10_digit|done].
        -- rewrite length_app. simpl. lia.
        -- unfold dec_value. rewrite dec_acc_snoc. fold (dec_value ds).
           rewrite Hval, length_app. simpl. rewrite Hlen.
           replace (S n - (n + 1))%nat with 0%nat by lia. simpl. lia.
      * lia.
Qed.

(** The text of the fraction [lo / 10^n]: nothing, or a dot and its digits. *)
Definition frac_text (n : nat) (lo : Z) (fr : bytes) : Prop :=
  (fr = [] ∧ lo = 0) ∨ (∃ ds, fr = 46 :: ds ∧ 0 < lo ∧ frac_digits n lo ds).

Lemma fmt_frac_spec {E} n out v :
  0 <= v → (length out + n < 32)%nat →
  ∃ fr, fmt_frac (E:=E) out v n = Ok (fr ++ out, v / 10 ^ Z.of_nat n)
    ∧ frac_text n (v mod 10 ^ Z.of_nat n) fr ∧ (length fr ≤ S n)%nat.
Proof.
  intros Hv Hl. destruct (fmt_frac_loop_spec (E:=E) n out v Hv ltac:(lia))
    as (ds & Hloop & (Hd & Hlen & Hval) & Hnil).
  unfold fmt_frac. rewrite Hloop. cbn [mbind res_bind].
  pose proof (Z.mod_pos_bound v (10 ^ Z.of_nat n) ltac:(lia)).
  destruct (Z.eqb_spec (v mod 10 ^ Z.of_nat n) 0) as [Hz|Hnz]; cbn [negb mbind res_bind].
  - rewrite (Hnil Hz). exists []. split_and!; [done|by left|simpl; lia].
  - rewrite put_ok by (rewrite length_app; lia). cbn [mbind res_bind].
    exists (46 :: ds). split_and!; [done| |simpl; lia]. right. exists ds. by split_and!; [|lia|].
Qed.

(** ** Parsing what was printed *)

Lemma digits_prefix_app ds s :
  digits ds → (∀ c, s !! 0%nat = Some c → is_ascii_digit c = false) → digits_prefix (ds ++ s) = ds.
Proof.
  intros Hd Hs. induction Hd as [|c ds Hc _ IH]; simpl.
  - destruct s as [|c s]; [done|]. simpl. by rewrite (Hs c).
  - apply is_digit_spec in Hc as ->. by rewrite IH.
Qed.

Section parse_proof.
Context `{Profile}.

Lemma pow10_le a b : (a ≤ b)%nat → 10 ^ Z.of_nat a <= 10 ^ Z.of_nat b.
Proof. intros. apply Z.pow_le_mono_r; lia. Qed.

Lemma int_fold_ok x ds n :
  digits ds → 0 <= x < 10 ^ Z.of_nat n → (n + length ds ≤ 18)%nat → int_fold x ds = Ok (dec_acc x ds).
Proof.
  intros Hd. revert x n. induction Hd as [|c ds Hc _ IH]; intros x n Hx Hl; [done|].
  unfold is_digit in Hc. simpl in Hl. cbn [int_fold].
  pose proof (pow10_le n 17 ltac:(lia)) as Hp. change (10 ^ Z.of_nat 17) with 100000000000000000 in Hp.
  assert ((u64_max / 10 <? x) = false) as ->
    by (apply Z.ltb_ge; change (u64_max / 10) with 1844674407370955161; lia).
  rewrite !arith_u_small by lia. cbn [mbind res_bind]. rewrite arith_u_small by lia.
  cbn [mbind res_bind]. rewrite arith_u_small by lia. cbn [mbind res_bind].
  replace (10 * x + c - 48) with (10 * x + (c - 48)) by lia.
  apply (IH _ (S n)); [|lia]. rewrite Nat2Z.inj_succ, Z.pow_succ_r by lia. lia.
Qed.

Lemma frac_fold_ok x scale ds n :
  digits ds → 0 <= x < 10 ^ Z.of_nat n → (n + length ds ≤ 18)%nat →
  frac_fold x scale false ds
  = Ok (dec_acc x ds, Nat.iter (length ds) (λ s, f64_mul s (f64_of_Z 10)) scale).
Proof.
  intros Hd. revert x scale n. induction Hd as [|c ds Hc _ IH]; intros x scale n Hx Hl; [done|].
  unfold is_digit in Hc. simpl in Hl. cbn [frac_fold].
  pose proof (pow10_le n 17 ltac:(lia)) as Hp. change (10 ^ Z.of_nat 17) with 100000000000000000 in Hp.
  assert ((i64_max / 10 <? x) = false) as ->
    by (apply Z.ltb_ge; change (i64_max / 10) with 922337203685477580; lia).
  rewrite !arith_i_small by lia. cbn [mbind res_bind]. rewrite arith_i_small by lia.
  cbn [mbind res_bind]. rewrite arith_i_small by lia. cbn [mbind res_bind].
  rewrite (proj2 (Z.ltb_ge _ _)) by lia.
  replace (x * 10 + c - 48) with (10 * x + (c - 48)) by lia.
  cbn [length]. rewrite Nat.iter_succ_r.
  apply (IH _ _ (S n)); [|lia]. rewrite Nat2Z.inj_succ, Z.pow_succ_r by lia. lia.
Qed.

Definition frac_scale (k : nat) : f64 := Nat.iter k (λ s, f64_mul s (f64_of_Z 10)) (f64_of_Z 1).

(** The units a fraction is printed with, and the number of digits of the fraction. *)
Definition decimal_unit (p : nat) : Prop := p = 3%nat ∨ p = 6%nat ∨ p = 9%nat.

Lemma unit_div_scale p k :
  decimal_unit p → (k ≤ p)%nat →
  exactly (f64_div (f64_of_Z (10 ^ Z.of_nat p)) (frac_scale k)) (10 ^ Z.of_nat (p - k)).
Proof.
  intros Hp Hk.
  assert (f64_div (f64_of_Z (10 ^ Z.of_nat p)) (frac_scale k)
          = f64_of_Z (10 ^ Z.of_nat (p - k))) as ->.
  { destruct Hp as [-> | [-> | ->]];
      (do 10 (destruct k as [|k]; [first [lia | vm_compute; reflexivity]|]); lia). }
  apply of_Z_exact. pose proof (pow10_le (p - k) 9 ltac:(destruct Hp as [-> | [-> | ->]]; lia)).
  change (10 ^ Z.of_nat 9) with 1000000000 in *. lia.
Qed.

Lemma frac_nanos p lo ds :
  decimal_unit p → frac_digits p lo ds → 0 < lo →
  f64_to_u64 (f64_mul (f64_of_Z (dec_value ds))
                (f64_div (f64_of_Z (10 ^ Z.of_nat p)) (frac_scale (length ds)))) = lo.
Proof.
  intros Hp (Hd & Hlen & Hval) Hlo. pose proof (dec_value_bound ds Hd) as Hb.
  set (q := 10 ^ Z.of_nat (p - length ds)) in *. assert (0 < q) by (unfold q; lia).
  assert (0 < dec_value ds) by nia.
  assert (lo < 10 ^ 9) as Hlo9.
  { assert (10 ^ Z.of_nat (length ds) * q = 10 ^ Z.of_nat p) as E.
    { unfold q. rewrite <- Z.pow_add_r by lia. f_equal. lia. }
    pose proof (pow10_le p 9 ltac:(destruct Hp as [-> | [-> | ->]]; lia)) as H9.
    change (10 ^ Z.of_nat 9) with (10 ^ 9) in H9. nia. }
  rewrite <- Hval. apply exactly_to_u64; [lia|].
  apply mul_exact; [lia|lia|lia| |].
  - apply of_Z_exact. nia.
  - by apply unit_div_scale.
Qed.

Definition unit_char (c : Z) : Prop := c ≠ 46 ∧ is_ascii_digit c = false.

Record unit_text (u : bytes) (U : Z) : Prop := {
  ut_chars : Forall unit_char u;
  ut_ne : u ≠ [];
  ut_unit : unit_of u = U;
  ut_pos : 0 < U
}.

Definition next_segment (rest : bytes) : Prop := ∀ c, rest !! 0%nat = Some c → is_digit c.

Lemma unit_len_app u rest :
  Forall unit_char u → next_segment rest → unit_len (u ++ rest) = length u.
Proof.
  intros Hu Hr. induction Hu as [|c u [H1 H2] _ IH]; simpl.
  - destruct rest as [|c rest]; [done|]. simpl.
    assert (is_ascii_digit c = true) as -> by (apply is_digit_spec; by apply Hr).
    by rewrite orb_true_r.
  - rewrite H2, (proj2 (Z.eqb_neq c 46)) by done. simpl. by rewrite IH.
Qed.

Lemma leading_int_app ids s :
  digits ids → (length ids ≤ 18)%nat → (∀ c, s !! 0%nat = Some c → is_ascii_digit c = false) →
  leading_int (ids ++ s) = Ok (dec_value ids, s).
Proof.
  intros Hd Hl Hs. unfold leading_int. rewrite digits_prefix_app by done.
  rewrite (int_fold_ok 0 ids 0) by (done || lia). cbn [mbind res_bind].
  by rewrite drop_app_length.
Qed.

Lemma unit_first u rest : Forall unit_char u → u ≠ [] →
  ∃ c s, u ++ rest = c :: s ∧ unit_char c.
Proof. destruct u as [|c u]; [done|]. intros [Hc _]%Forall_cons_1 _. by exists c, (u ++ rest). Qed.

Lemma fraction_part_none u rest :
  Forall unit_char u → u ≠ [] →
  fraction_part (u ++ rest) = Ok (0, f64_of_Z 1, false, u ++ rest).
Proof.
  intros Hu Hne. destruct (unit_first u rest Hu Hne) as (c & s & -> & [Hc _]).
  unfold fraction_part. destruct c as [|c|c]; try done.
  do 6 (destruct c as [c|c|]; try done).
Qed.

Lemma fraction_part_some ds u rest :
  digits ds → (length ds ≤ 18)%nat → ds ≠ [] → Forall unit_char u → u ≠ [] →
  fraction_part ((46 :: ds) ++ u ++ rest)
  = Ok (dec_value ds, frac_scale (length ds), true, u ++ rest).
Proof.
  intros Hd Hl Hds Hu Hne. destruct (unit_first u rest Hu Hne) as (c & s & -> & [_ Hc]).
  unfold fraction_part. cbn [app]. unfold leading_fraction.
  rewrite digits_prefix_app by (done || naive_solver).
  rewrite (frac_fold_ok 0 _ ds 0) by (done || lia). cbn [mbind res_bind].
  rewrite drop_app_length. rewrite bool_decide_eq_true_2; [done|].
  rewrite length_app. destruct ds; [done|]. simpl. lia.
Qed.

Lemma parse_segment_int ids u U rest :
  digits ids → ids ≠ [] → (length ids ≤ 18)%nat → unit_text u U → next_segment rest →
  dec_value ids * U <= u64_max →
  parse_segment (ids ++ u ++ rest) = Ok (dec_value ids * U, rest).
Proof.
  intros Hd Hne Hl [Hu Hun Hunit Hpos] Hr Hmax.
  pose proof (dec_value_bound ids Hd) as Hb.
  unfold parse_segment. destruct ids as [|c ids]; [done|].
  assert (is_ascii_digit c = true) as Hc by (apply is_digit_spec; by apply Forall_cons_1 in Hd as [? _]).
  cbn [lookup list_lookup app default]. change (id c) with c. rewrite Hc, orb_true_r.
  cbn [negb fail_if mbind res_bind].
  change (c :: ids ++ u ++ rest) with ((c :: ids) ++ u ++ rest).
  rewrite leading_int_app; [|done|done|].
  2:{ destruct (unit_first u rest Hu Hun) as (x & s & -> & [_ Hx]). naive_solver. }
  cbn [mbind res_bind]. rewrite fraction_part_none by done. cbn [mbind res_bind].
  rewrite (bool_decide_eq_true_2 (_ ≠ _)) by solve_len.
  cbn [negb andb fail_if mbind res_bind]. rewrite unit_len_app by done.
  rewrite bool_decide_eq_false_2 by (by destruct u). cbn [fail_if mbind res_bind].
  rewrite take_app_length, drop_app_length, Hunit, (proj2 (Z.eqb_neq U 0)) by lia.
  cbn [fail_if mbind res_bind].
  rewrite (proj2 (Z.ltb_ge (u64_max / _) _)) by (apply Z.div_le_lower_bound; lia).
  cbn [fail_if mbind res_bind]. unfold u64_max in Hmax.
  rewrite arith_u_small by nia. done.
Qed.

Lemma parse_segment_frac ids ds u p lo rest :
  digits ids → ids ≠ [] → (length ids ≤ 18)%nat → decimal_unit p → frac_digits p lo ds → 0 < lo →
  unit_text u (10 ^ Z.of_nat p) → next_segment rest →
  dec_value ids * 10 ^ Z.of_nat p + lo <= u64_max →
  parse_segment (ids ++ (46 :: ds) ++ u ++ rest) = Ok (dec_value ids * 10 ^ Z.of_nat p + lo, rest).
Proof.
  intros Hd Hne Hl Hp Hf Hlo [Hu Hun Hunit Hpos] Hr Hmax.
  pose proof (dec_value_bound ids Hd) as Hb. pose proof Hf as (Hds & Hlen & Hval).
  assert (ds ≠ []) as Hdne by (intros ->; change (dec_value []) with 0 in Hval; lia).
  pose proof (dec_value_bound ds Hds) as Hbd.
  assert (p ≤ 9)%nat by (destruct Hp as [-> | [-> | ->]]; lia).
  unfold parse_segment. destruct ids as [|c ids]; [done|].
  assert (is_ascii_digit c = true) as Hc by (apply is_digit_spec; by apply Forall_cons_1 in Hd as [? _]).
  cbn [lookup list_lookup app default]. change (id c) with c. rewrite Hc, orb_true_r.
  cbn [negb fail_if mbind res_bind].
  change (c :: ids ++ 46 :: ds ++ u ++ rest) with ((c :: ids) ++ 46 :: ds ++ u ++ rest).
  rewrite leading_int_app by (done || naive_solver).
  cbn [mbind res_bind]. change (46 :: ds ++ u ++ rest) with ((46 :: ds) ++ u ++ rest).
  rewrite fraction_part_some by (done || lia). cbn [mbind res_bind].
  rewrite (bool_decide_eq_true_2 (_ ≠ _)) by solve_len.
  cbn [negb andb fail_if mbind res_bind]. rewrite unit_len_app by done.
  rewrite bool_decide_eq_false_2 by (by destruct u). cbn [fail_if mbind res_bind].
  rewrite take_app_length, drop_app_length, Hunit, (proj2 (Z.eqb_neq _ 0)) by lia.
  cbn [fail_if mbind res_bind].
  rewrite (proj2 (Z.ltb_ge (u64_max / _) _)) by (apply Z.div_le_lower_bound; lia).
  cbn [fail_if mbind res_bind]. unfold u64_max in Hmax.
  rewrite arith_u_small by nia. cbn [mbind res_bind].
  assert (0 < dec_value ds) by nia.
  rewrite (proj2 (Z.ltb_lt 0 _)) by done. rewrite (frac_nanos p lo ds) by done.
  rewrite (proj2 (Z.leb_le _ _)) by (unfold u64_max; lia). done.
Qed.

(** Both cases of a printed fraction. *)
Lemma parse_segment_text ids fr u p lo rest :
  digits ids → ids ≠ [] → (length ids ≤ 18)%nat → decimal_unit p → frac_text p lo fr →
  unit_text u (10 ^ Z.of_nat p) → next_segment rest →
  dec_value ids * 10 ^ Z.of_nat p + lo <= u64_max →
  parse_segment (ids ++ fr ++ u ++ rest) = Ok (dec_value ids * 10 ^ Z.of_nat p + lo, rest).
Proof.
  intros Hd Hne Hl Hp [[-> ->]|(ds & -> & Hlo & Hf)] Hu Hr Hmax.
  - rewrite Z.add_0_r in *. by apply (parse_segment_int ids u).
  - by apply parse_segment_frac.
Qed.

Lemma parse_loop_step fuel d s v s' :
  parse_segment s = Ok (v, s') → 0 <= d + v <= u64_max → s ≠ [] →
  parse_loop (S fuel) d s = parse_loop fuel (d + v) s'.
Proof.
  intros Hs Hd Hne. cbn [parse_loop]. destruct s as [|c s]; [done|].
  rewrite Hs. unfold u64_max in Hd. by rewrite arith_u_small by lia.
Qed.

Lemma parse_loop_nil fuel d : parse_loop fuel d [] = Some (Ok d).
Proof. by destruct fuel. Qed.

Lemma parse_duration_start ids s :
  digits ids → ids ≠ [] → s ≠ [] →
  parse_duration (ids ++ s) = parse_loop (length (ids ++ s)) 0 (ids ++ s).
Proof.
  intros Hd Hne Hs. destruct ids as [|c ids]; [done|].
  apply Forall_cons_1 in Hd as [Hc _]. unfold is_digit in Hc.
  unfold parse_duration. cbn [app lookup list_lookup default]. change (id c) with c.
  rewrite !(proj2 (Z.eqb_neq c _)) by lia. cbn [orb andb].
  assert (ids ++ s ≠ []) as Hne' by (by destruct ids, s).
  destruct (ids ++ s) as [|x t]; [done|].
  destruct c as [|c|c]; try done. do 6 (destruct c as [c|c|]; try done).
Qed.

(** A leading segment without a fraction. *)
Lemma parse_loop_int fuel d ids u U rest :
  digits ids → ids ≠ [] → (length ids ≤ 18)%nat → unit_text u U → next_segment rest →
  0 <= d → d + dec_value ids * U <= u64_max →
  parse_loop (S fuel) d (ids ++ u ++ rest) = parse_loop fuel (d + dec_value ids * U) rest.
Proof.
  intros Hd Hne Hl Hu Hr H0 Hmax. pose proof (dec_value_bound ids Hd).
  pose proof (ut_pos _ _ Hu). apply parse_loop_step; [by apply parse_segment_int; auto with lia|nia|].
  by destruct ids.
Qed.

(** The last segment. *)
Lemma parse_loop_last fuel d ids fr u p lo :
  digits ids → ids ≠ [] → (length ids ≤ 18)%nat → decimal_unit p → frac_text p lo fr →
  unit_text u (10 ^ Z.of_nat p) → 0 <= d → 0 <= lo →
  d + (dec_value ids * 10 ^ Z.of_nat p + lo) <= u64_max →
  parse_loop (S fuel) d (ids ++ fr ++ u) = Some (Ok (d + (dec_value ids * 10 ^ Z.of_nat p + lo))).
Proof.
  intros Hd Hne Hl Hp Hf Hu H0 Hlo Hmax. pose proof (dec_value_bound ids Hd).
  pose proof (parse_segment_text ids fr u p lo [] Hd Hne Hl Hp Hf Hu ltac:(done) ltac:(lia)) as Hs.
  rewrite app_nil_r in Hs. rewrite (parse_loop_step _ _ _ _ _ Hs); [apply parse_loop_nil|nia|].
  by destruct ids.
Qed.
End parse_proof.

Lemma unit_text_intro u U :
  forallb (λ c, negb (c =? 46) && negb (is_ascii_digit c)) u = true → u ≠ [] →
  unit_of u = U → 0 < U → unit_text u U.
Proof.
  intros Hu ? ? ?. constructor; try done. apply Forall_forall. intros c Hc.
  rewrite forallb_forall in Hu. specialize (Hu c Hc). apply andb_true_iff in Hu as [Ha%negb_true_iff Hb%negb_true_iff].
  split; [by apply Z.eqb_neq|done].
Qed.

Ltac unit_tac := apply unit_text_intro; [reflexivity|discriminate|reflexivity|reflexivity].

Lemma next_segment_digits ds s : digits ds → ds ≠ [] → next_segment (ds ++ s).
Proof. destruct ds as [|c ds]; [done|]. intros [Hc _]%Forall_cons_1 _ x [= <-]. done. Qed.

(** The text of a duration below one second, and of one above. *)
Lemma duration_small {E} u sym p :
  0 < u < SECOND →
  (if u <? MICROSECOND then (110, 0%nat) else if u <? MILLISECOND then (117, 3%nat)
   else (109, 6%nat)) = (sym, p) →
  ∃ ids fr, duration (E:=E) u = Ok (ids ++ fr ++ [sym; 115])
    ∧ digits ids ∧ ids ≠ [] ∧ (length ids ≤ 3)%nat
    ∧ dec_value ids = u / 10 ^ Z.of_nat p ∧ frac_text p (u mod 10 ^ Z.of_nat p) fr.
Proof.
  intros Hu Hp. unfold duration. rewrite wrap_u_small by (change SECOND with 1000000000 in Hu; lia).
  rewrite (proj2 (Z.ltb_lt u SECOND)) by lia. rewrite put_ok by (simpl; lia).
  cbn [mbind res_bind]. rewrite (proj2 (Z.eqb_neq u 0)) by lia. rewrite Hp.
  rewrite put_ok by (simpl; lia). cbn [mbind res_bind].
  assert ((p ≤ 6)%nat ∧ 0 <= u / 10 ^ Z.of_nat p < 1000) as [Hp6 Hq].
  { split; [repeat case_match; simplify_eq; lia|]. split; [apply Z.div_pos; lia|].
    apply Z.div_lt_upper_bound; [lia|].
    repeat case_match; simplify_eq; simpl;
      repeat match goal with
      | H : (_ <? _) = true |- _ => apply Z.ltb_lt in H
      end; change SECOND with 1000000000 in *; change MILLISECOND with 1000000 in *;
      change MICROSECOND with 1000 in *; lia. }
  destruct (fmt_frac_spec (E:=E) p [sym; 115] u) as (fr & -> & Hfr & Hlen); [lia|simpl; lia|].
  cbn [mbind res_bind].
  destruct (fmt_int_spec (E:=E) 3 (fr ++ [sym; 115]) (u / 10 ^ Z.of_nat p))
    as (ids & -> & Hd & Hv & Hl & Hne); [simpl; lia|lia|rewrite length_app; simpl; lia|].
  exists ids, fr. by split_and!.
Qed.

(** [ids] prints [v] in at most [k] digits. *)
Definition prints (k : nat) (ids : bytes) (v : Z) : Prop :=
  digits ids ∧ ids ≠ [] ∧ (length ids ≤ k)%nat ∧ dec_value ids = v.

Lemma fmt_int_prints {E} k out v :
  0 <= v < 10 ^ Z.of_nat k → (1 ≤ k)%nat → (length out + k ≤ 32)%nat →
  ∃ ids, fmt_int (E:=E) out v = Ok (ids ++ out) ∧ prints k ids v.
Proof.
  intros Hv Hk Hl. destruct (fmt_int_spec (E:=E) k out v Hv Hk Hl) as (ids & ? & ? & ? & ? & ?).
  by exists ids.
Qed.

Lemma duration_large {E} u :
  SECOND <= u < 2 ^ 64 →
  let sec := u / 10 ^ 9 in
  ∃ text ids fr, duration (E:=E) u = Ok (text ++ ids ++ fr ++ [115])
    ∧ prints 2 ids (sec mod 60) ∧ frac_text 9 (u mod 10 ^ 9) fr
    ∧ ((text = [] ∧ sec / 60 = 0)
       ∨ (∃ ms, text = ms ++ [109] ∧ prints 2 ms (sec / 60) ∧ 0 < sec / 60 < 60)
       ∨ (∃ hs ms, text = hs ++ [104] ++ ms ++ [109]
            ∧ prints 8 hs (sec / 60 / 60) ∧ prints 2 ms (sec / 60 mod 60))).
Proof.
  intros Hu sec. unfold duration. rewrite wrap_u_small by (change SECOND with 1000000000 in Hu; lia).
  rewrite (proj2 (Z.ltb_ge u SECOND)) by lia. rewrite put_ok by (simpl; lia). cbn [mbind res_bind].
  assert (0 <= sec /\ sec / 60 / 60 < 10 ^ 8) as [Hs0 Hs].
  { unfold sec. split; [apply Z.div_pos; change SECOND with 1000000000 in Hu; lia|].
    rewrite !Z.div_div by lia. apply Z.div_lt_upper_bound; lia. }
  assert (0 <= sec / 60) as Hm0 by (apply Z.div_pos; lia).
  destruct (fmt_frac_spec (E:=E) 9 [115] u) as (fr & -> & Hfr & Hlen);
    [change SECOND with 1000000000 in Hu; lia|simpl; lia|].
  cbn [mbind res_bind]. change (10 ^ Z.of_nat 9) with (10 ^ 9) in *. fold sec.
  pose proof (Z.mod_pos_bound sec 60). pose proof (Z.mod_pos_bound (sec / 60) 60).
  destruct (fmt_int_prints (E:=E) 2 (fr ++ [115]) (sec mod 60)) as (ids & -> & Hi);
    [simpl; lia|lia|rewrite length_app; simpl; lia|]. pose proof Hi as (_ & _ & Hil & _).
  cbn [mbind res_bind]. destruct (Z.ltb_spec 0 (sec / 60)) as [Hm|Hm].
  2:{ exists [], ids, fr. split_and!; try done. left. split; [done|lia]. }
  rewrite put_ok by (rewrite !length_app; simpl; lia). cbn [mbind res_bind].
  destruct (fmt_int_prints (E:=E) 2 (109 :: ids ++ fr ++ [115]) (sec / 60 mod 60))
    as (ms & -> & Hms); [simpl; lia|lia|simpl; rewrite !length_app; simpl; lia|].
  pose proof Hms as (_ & _ & Hml & _).
  cbn [mbind res_bind]. destruct (Z.ltb_spec 0 (sec / 60 / 60)) as [Hh|Hh].
  - rewrite put_ok by (autorewrite with codec; lia). cbn [mbind res_bind].
    destruct (fmt_int_prints (E:=E) 8 (104 :: ms ++ 109 :: ids ++ fr ++ [115]) (sec / 60 / 60))
      as (hs & -> & Hhs); [simpl in *; lia|lia|autorewrite with codec; lia|].
    exists (hs ++ [104] ++ ms ++ [109]), ids, fr. split_and!; try done.
    + by rewrite <- !app_assoc.
    + right. right. by exists hs, ms.
  - assert (sec / 60 < 60) as Hlt by (pose proof (Z.div_mod (sec / 60) 60); lia).
    exists (ms ++ [109]), ids, fr. split_and!; try done.
    + by rewrite <- !app_assoc.
    + right. left. exists ms. rewrite Z.mod_small in Hms by lia.
      split_and!; [done|done|lia|lia].
Qed.

Section assemble.
Context `{Profile}.

Lemma parse_small u sym p ids fr :
  0 < u < SECOND →
  (if u <? MICROSECOND then (110, 0%nat) else if u <? MILLISECOND then (117, 3%nat)
   else (109, 6%nat)) = (sym, p) →
  digits ids → ids ≠ [] → (length ids ≤ 3)%nat →
  dec_value ids = u / 10 ^ Z.of_nat p → frac_text p (u mod 10 ^ Z.of_nat p) fr →
  parse_duration (ids ++ fr ++ [sym; 115]) = Some (Ok u).
Proof.
  intros Hu Hp Hd Hne Hl Hv Hfr. change SECOND with 1000000000 in Hu.
  rewrite parse_duration_start by (done || by destruct fr).
  assert (∃ fuel, length (ids ++ fr ++ [sym; 115]) = S fuel) as (fuel & ->)
    by (destruct ids; [done|]; by eexists).
  pose proof (Z.div_mod u (10 ^ Z.of_nat p)) as Hdm.
  pose proof (Z.mod_pos_bound u (10 ^ Z.of_nat p)) as Hmod.
  destruct (decide (p = 0%nat)) as [->|Hp0].
  - assert (sym = 110) as -> by (repeat case_match; by simplify_eq).
    change (10 ^ Z.of_nat 0) with 1 in *. rewrite Z.mod_1_r in *. rewrite Z.div_1_r in *.
    destruct Hfr as [[-> _]|(? & _ & ? & _)]; [|lia].
    pose proof (parse_loop_int fuel 0 ids [110; 115] 1 [] Hd Hne ltac:(lia) ltac:(unit_tac)
      ltac:(done) ltac:(lia) ltac:(unfold u64_max; lia)) as Hl1.
    rewrite parse_loop_nil in Hl1. cbn [app] in *. rewrite Hl1. do 2 f_equal. lia.
  - assert (decimal_unit p ∧ unit_text [sym; 115] (10 ^ Z.of_nat p)) as [Hdu Hut].
    { repeat case_match; simplify_eq; (split; [unfold decimal_unit; auto|unit_tac]). }
    rewrite (parse_loop_last fuel 0 ids fr [sym; 115] p (u mod 10 ^ Z.of_nat p));
      try done; [do 2 f_equal; lia|lia|lia|unfold u64_max; lia].
Qed.

Lemma parse_large u text ids fr :
  let sec := u / 10 ^ 9 in
  SECOND <= u < 2 ^ 64 → prints 2 ids (sec mod 60) → frac_text 9 (u mod 10 ^ 9) fr →
  ((text = [] ∧ sec / 60 = 0)
   ∨ (∃ ms, text = ms ++ [109] ∧ prints 2 ms (sec / 60) ∧ 0 < sec / 60 < 60)
   ∨ (∃ hs ms, text = hs ++ [104] ++ ms ++ [109]
        ∧ prints 8 hs (sec / 60 / 60) ∧ prints 2 ms (sec / 60 mod 60))) →
  parse_duration (text ++ ids ++ fr ++ [115]) = Some (Ok u).
Proof.
  intros sec Hu (Hd & Hne & Hl & Hv) Hfr Htext. change SECOND with 1000000000 in Hu.
  pose proof (Z.div_mod u (10 ^ 9) ltac:(lia)) as E1. fold sec in E1.
  pose proof (Z.mod_pos_bound u (10 ^ 9) ltac:(lia)) as B1.
  pose proof (Z.div_mod sec 60 ltac:(lia)) as E2. pose proof (Z.mod_pos_bound sec 60 ltac:(lia)) as B2.
  pose proof (Z.div_mod (sec / 60) 60 ltac:(lia)) as E3.
  pose proof (Z.mod_pos_bound (sec / 60) 60 ltac:(lia)) as B3.
  assert (∀ fuel d, 0 <= d → d + (sec mod 60 * 10 ^ 9 + u mod 10 ^ 9) = u →
    parse_loop (S fuel) d (ids ++ fr ++ [115]) = Some (Ok u)) as Hlast.
  { intros fuel d H0 Hsum.
    rewrite (parse_loop_last fuel d ids fr [115] 9 (u mod 10 ^ 9)); try done;
      [|lia|by right; right|unit_tac|lia|];
      change (10 ^ Z.of_nat 9) with (10 ^ 9); [by rewrite Hv, Hsum|unfold u64_max; lia]. }
  destruct Htext as [[-> Hz]|[(ms & -> & (Hmd & Hmne & Hml & Hmv) & Hm)
                             |(hs & ms & -> & (Hhd & Hhne & Hhl & Hhv) & (Hmd & Hmne & Hml & Hmv))]].
  - cbn [app]. rewrite parse_duration_start by (done || by destruct fr).
    assert (∃ fuel, length (ids ++ fr ++ [115]) = S fuel) as (fuel & ->)
      by (destruct ids; [done|]; by eexists).
    apply Hlast; lia.
  - rewrite <- app_assoc. rewrite parse_duration_start by done.
    assert (∃ fuel, length (ms ++ [109] ++ ids ++ fr ++ [115]) = S (S fuel)) as (fuel & ->)
      by (destruct ms as [|? ms]; [done|]; simpl; rewrite length_app; simpl;
          eexists; rewrite Nat.add_succ_r; reflexivity).
    rewrite (parse_loop_int (S fuel) 0 ms [109] MINUTE); try done;
      [|lia|unit_tac|by apply next_segment_digits|].
    + apply Hlast; change MINUTE with (60 * 10 ^ 9); lia.
    + change MINUTE with (60 * 10 ^ 9). unfold u64_max. lia.
  - rewrite <- !app_assoc. rewrite parse_duration_start by done.
    assert (∃ fuel, length (hs ++ [104] ++ ms ++ [109] ++ ids ++ fr ++ [115]) = S (S (S fuel)))
      as (fuel & ->).
    { destruct hs as [|? hs]; [done|]. destruct ms as [|? ms]; [done|]. simpl.
      rewrite !length_app. simpl. eexists. rewrite !Nat.add_succ_r. reflexivity. }
    assert (0 <= sec / 60 / 60) by (apply Z.div_pos; [apply Z.div_pos; [apply Z.div_pos|]|]; lia).
    rewrite (parse_loop_int (S (S fuel)) 0 hs [104] HOUR); try done;
      [|lia|unit_tac|by apply next_segment_digits|].
    2:{ change HOUR with (3600 * 10 ^ 9). unfold u64_max. lia. }
    rewrite (parse_loop_int (S fuel) _ ms [109] MINUTE); try done;
      [|lia|unit_tac|by apply next_segment_digits| |].
    + apply Hlast; change MINUTE with (60 * 10 ^ 9); change HOUR with (3600 * 10 ^ 9); lia.
    + change HOUR with (3600 * 10 ^ 9). lia.
    + change MINUTE with (60 * 10 ^ 9). change HOUR with (3600 * 10 ^ 9). unfold u64_max. lia.
Qed.
End assemble.

(** ** Totality *)

Section total.
Context `{Profile}.

(** [safe r]: no panic in a wrapping build. *)
Definition safe {E A} (r : res E A) : Prop := overflow_checks = false → r ≠ Panic.

Lemma safe_bind {E A B} (m : res E A) (f : A → res E B) :
  safe m → (∀ a, safe (f a)) → safe (m ≫= f).
Proof. intros Hm Hf Hr. destruct m; simpl; [by apply Hf|done|by destruct (Hm Hr)]. Qed.
Lemma safe_arith_u {E} w z : safe (arith_u (E:=E) w z).
Proof. intros Hr. unfold arith_u. case_match; [done|]. by rewrite Hr. Qed.
Lemma safe_arith_i {E} w z : safe (arith_i (E:=E) w z).
Proof. intros Hr. unfold arith_i. case_match; [done|]. by rewrite Hr. Qed.
Lemma safe_ok {E A} (a : A) : safe (Ok (E:=E) a).
Proof. done. Qed.
Lemma safe_err {E A} (e : E) : safe (Err (A:=A) e).
Proof. done. Qed.
Lemma safe_fail_if {E} c (e : E) : safe (fail_if c e).
Proof. by destruct c. Qed.

Hint Resolve safe_bind safe_arith_u safe_arith_i safe_ok safe_err safe_fail_if : core.

Lemma int_fold_safe x ds : safe (int_fold x ds).
Proof.
  revert x. induction ds as [|c ds IH]; intros x; cbn [int_fold]; [done|].
  case_match; [done|]. auto 10.
Qed.

Lemma frac_fold_safe x scale o ds : safe (frac_fold x scale o ds).
Proof.
  revert x scale o. induction ds as [|c ds IH]; intros x scale o; cbn [frac_fold]; [done|].
  repeat case_match; auto. repeat (apply safe_bind; [auto|intros ?]). case_match; auto.
Qed.

Lemma fraction_part_safe s : safe (fraction_part s).
Proof.
  unfold fraction_part, leading_fraction. repeat case_match; auto.
  apply safe_bind; [apply safe_bind; [apply frac_fold_safe|intros []; auto]|].
  intros [[? ?] ?]. auto.
Qed.

Lemma parse_segment_safe s : safe (parse_segment s).
Proof.
  unfold parse_segment, leading_int. apply safe_bind; [auto|intros _].
  apply safe_bind; [apply safe_bind; [apply int_fold_safe|auto]|intros [v rem]].
  apply safe_bind; [apply fraction_part_safe|intros [[[f sc] post] s']].
  repeat (apply safe_bind; [auto; repeat case_match; auto|intros ?]). auto.
Qed.

Lemma drop_le {A} n (l : list A) : (length (drop n l) ≤ length l)%nat.
Proof. rewrite length_drop. lia. Qed.

Lemma fraction_part_len s f sc post s' :
  fraction_part s = Ok (f, sc, post, s') → (length s' ≤ length s)%nat.
Proof.
  unfold fraction_part. intros Hf. repeat case_match; simplify_eq; try done.
  apply bind_Ok in Hf as ([[? ?] r] & Hl & [= <- <- <- <-]).
  unfold leading_fraction in Hl. apply bind_Ok in Hl as ([? ?] & _ & [= <- <- <-]).
  pose proof (drop_le (length (digits_prefix l)) l). simpl. lia.
Qed.

Lemma unit_len_le s : (unit_len s ≤ length s)%nat.
Proof. induction s as [|c s IH]; simpl; [done|]. case_match; lia. Qed.

Lemma parse_segment_len s v s' :
  parse_segment s = Ok (v, s') → (length s' < length s)%nat.
Proof.
  unfold parse_segment.
  intros (_ & _ & ([? rem] & Hi & ([[[f sc] post] s2] & Hf & Hs)%bind_Ok)%bind_Ok)%bind_Ok.
  unfold leading_int in Hi. apply bind_Ok in Hi as (? & _ & [= <- <-]).
  apply fraction_part_len in Hf. pose proof (drop_le (length (digits_prefix s)) s).
  apply bind_Ok in Hs as (_ & _ & Hs).
  apply bind_Ok in Hs as (_ & Hi%fail_if_Ok%bool_decide_eq_false & Hs).
  do 4 apply bind_Ok in Hs as (? & _ & Hs). simplify_eq.
  pose proof (unit_len_le s2). rewrite length_drop. lia.
Qed.

Lemma arith_u_bound {E} w z d : 0 <= w → arith_u (E:=E) w z = Ok d → 0 <= d < 2 ^ w.
Proof.
  intros Hw. unfold arith_u. case_match; [intros; simplify_eq; lia|].
  case_match; intros; simplify_eq. by apply wrap_u_bound.
Qed.

Lemma parse_loop_total s d fuel :
  (length s ≤ fuel)%nat → 0 <= d < 2 ^ 64 →
  ∃ r, parse_loop fuel d s = Some r ∧ safe r ∧ ∀ d', r = Ok d' → 0 <= d' < 2 ^ 64.
Proof.
  revert s d. induction fuel as [|fuel IH]; intros s d Hl Hd.
  - destruct s; [|simpl in Hl; lia]. exists (Ok d). split_and!; [done|done|]. by intros d' [= <-].
  - cbn [parse_loop]. destruct s as [|c s]; [exists (Ok d); split_and!; [done|done|]; by intros d' [= <-]|].
    destruct (parse_segment (c :: s)) as [[v s']|e|] eqn:Hs.
    + apply parse_segment_len in Hs. destruct (arith_u 64 (d + v)) as [d'|e|] eqn:Ha.
      * apply IH; [simpl in *; lia|]. by apply (arith_u_bound (E:=ParseError) 64 _ _ ltac:(lia) Ha).
      * by exists (Err e).
      * exists Panic. split_and!; [done| |done]. intros Hr. exfalso.
        by apply (safe_arith_u (E:=ParseError) 64 (d + v) Hr).
    + by exists (Err e).
    + exists Panic. split_and!; [done| |done]. intros Hr. exfalso.
      by apply (parse_segment_safe _ Hr Hs).
Qed.
End total.

Lemma printed_parses `{Profile} {E} (d : Z) : 0 <= d < 2 ^ 64 →
  ∃ text, duration (E:=E) d = Ok text ∧ parse_duration text = Some (Ok d).
Proof.
  intros Hd.
  destruct (Z.eq_dec d 0) as [->|Hnz]; [by exists [48; 115]|].
  destruct (Z.lt_ge_cases d SECOND) as [Hlt|Hge].
  - destruct (if d <? MICROSECOND then (110, 0%nat) else if d <? MILLISECOND then (117, 3%nat)
              else (109, 6%nat)) as [sym p] eqn:Hp.
    destruct (duration_small (E:=E) d sym p ltac:(lia) Hp)
      as (ids & fr & -> & Hds & Hne & Hl & Hv & Hfr).
    eexists. split; [done|]. apply (parse_small d sym p); try done. lia.
  - destruct (duration_large (E:=E) d ltac:(lia)) as (text & ids & fr & -> & Hi & Hfr & Htext).
    eexists. split; [done|]. apply parse_large; try done. lia.
Qed.

(** ** Properties *)

(** C30: durations survive a round trip through the configuration: the text of every
    duration of less than [2^64] nanoseconds, about 584 years, parses back to it, in a
    checked build as well as in a wrapping one; in particular neither direction panics. *)
Theorem duration_roundtrip `{Profile} (d : Z) (Hd : 0 <= d < 2 ^ 64) :
  ∃ text, duration (E:=()) d = Ok text ∧ parse_duration text = Some (Ok d).
Proof. by apply printed_parses. Qed.

Lemma duration_roundtrip_witness :
  ∃ text, duration (E:=()) 5025250000000 = Ok text
    ∧ parse_duration (H:=dev) text = Some (Ok 5025250000000).
Proof. apply (duration_roundtrip (H:=dev) 5025250000000). lia. Defined.

(** Parsing terminates on every text, with a duration that fits 64 bits or one of the
    four errors, and in a wrapping build it never panics. *)
Theorem parse_duration_total `{Profile} (text : bytes) :
  ∃ r, parse_duration text = Some r
    ∧ (overflow_checks = false → r ≠ Panic)
    ∧ ∀ d, r = Ok d → 0 <= d < 2 ^ 64.
Proof.
  unfold parse_duration. cbv zeta. set (c0 := default 0 (text !! 0%nat)).
  destruct (((c0 =? 45) || (c0 =? 43)) && (c0 =? 45)); [by eexists|].
  set (s := if (c0 =? 45) || (c0 =? 43) then drop 1 text else text).
  assert (∃ r, parse_loop (length s) 0 s = Some r
    ∧ (overflow_checks = false → r ≠ Panic) ∧ ∀ d, r = Ok d → 0 <= d < 2 ^ 64) as Hl
    by (apply parse_loop_total; lia).
  destruct s as [|c [|c' s]]; [by eexists| |].
  - destruct (decide (c = 48)) as [->|Hc].
    + exists (Ok 0). split_and!; [done|done|]. intros d [= <-]. lia.
    + destruct Hl as (r & Hr & Hp). exists r. split; [|done].
      destruct c as [|c|c]; try done. do 6 (destruct c as [c|c|]; try done).
  - destruct Hl as (r & Hr & Hp). exists r. split; [|done].
    destruct c as [|c|c]; try done. do 6 (destruct c as [c|c|]; try done).
Qed.

(** "18446744073709551610ns", "18446744073709551616ns" *)
Definition near_max : bytes :=
  [49; 56; 52; 52; 54; 55; 52; 52; 48; 55; 51; 55; 48; 57; 53; 53; 49; 54; 49; 48; 110; 115].
Definition above_max : bytes :=
  [49; 56; 52; 52; 54; 55; 52; 52; 48; 55; 51; 55; 48; 57; 53; 53; 49; 54; 49; 54; 110; 115].

(** The overflow guard of [leading_int] is not enough.  A number of nanoseconds that
    fits 64 bits panics a checked build, because the character code is added before the
    code of zero is subtracted; and [2^64] nanoseconds, which do not fit, panic a checked
    build and parse as a duration of zero in a wrapping one. *)
Theorem leading_int_overflows :
  parse_duration (H:=dev) near_max = Some Panic
  ∧ parse_duration (H:=release) near_max = Some (Ok (2 ^ 64 - 6))
  ∧ parse_duration (H:=dev) above_max = Some Panic
  ∧ parse_duration (H:=release) above_max = Some (Ok 0).
Proof. by vm_compute. Qed.
