(* ===== verification/Trie.v ===== *)
(** * Domain rules (src/dns/rule)

    The rule set of the DNS server: a set of domain names with their labels reversed
    ([trie/set.rs]; [trie/bloom.rs] is the same code over a Bloom filter), and the loader
    that fills it from a text with one rule per line ([load.rs]). *)

From stdpp Require Import gmap.
From S2P Require Import Prelude RustStr Io.

(** ** Interfaces *)

(** [trust_dns_proto::rr::Name]: the labels, from the host name to the top-level domain,
    and their number, in which a leading wildcard label is not counted. *)
Class DnsName (N : Type) := {
  name_labels : N → list bytes;
  num_labels : N → Z
}.

Definition star : bytes := [42].

Class DnsNameOk (N : Type) `{DnsName N} : Prop := {
  num_labels_spec : ∀ n, num_labels n =
    match name_labels n with
    | l :: ls => if bool_decide (l = star) then Z.of_nat (length ls) else Z.of_nat (S (length ls))
    | [] => 0
    end
}.

(** What holds the reversed names: a [HashSet<String>] or a [BloomFilter]. *)
Class Entries (St : Type) := {
  entries_new : St;
  entries_insert : bytes → St → St;
  entries_contains : bytes → St → bool
}.

(** A member is found; [precise] stores find nothing else. *)
Class EntriesOk (St : Type) `{Entries St} := {
  members : St → gset bytes;
  members_new : members entries_new = ∅;
  members_insert : ∀ x s, members (entries_insert x s) = {[x]} ∪ members s;
  contains_member : ∀ x s, x ∈ members s → entries_contains x s = true
}.

Class Precise (St : Type) `{EntriesOk St} : Prop := {
  contains_precise : ∀ x s, entries_contains x s = true → x ∈ members s
}.

(** [set.rs]: [HashSet<String>]. *)
Global Instance set_Entries : Entries (gset bytes) := {
  entries_new := ∅;
  entries_insert x s := {[x]} ∪ s;
  entries_contains x s := bool_decide (x ∈ s)
}.
Global Instance set_EntriesOk : EntriesOk (gset bytes).
Proof.
  refine {| members s := s |}; [done|done|]. intros x s Hx. by apply bool_decide_eq_true_2.
Defined.
Global Instance set_Precise : Precise (gset bytes).
Proof. constructor. intros x s Hx. by apply bool_decide_eq_true in Hx. Qed.

(** ** The rule set *)

Definition dot : Z := 46.

(** [host.rsplit('.').collect::<Vec<_>>().join(".")] *)
Definition rev_key (host : bytes) : bytes := join dot (reverse (split dot host)).

Section trie.
Context {St : Type} `{Entries St} `{Profile}.

Record Trie := { entries : St }.

Definition Trie_new : Trie := {| entries := entries_new |}.
Definition swap (self other : Trie) : Trie := {| entries := entries other |}.
Definition insert (host : bytes) (t : Trie) : Trie :=
  {| entries := entries_insert (rev_key host) (entries t) |}.

(** The loop of [contain] from the label [index] on. *)
Fixpoint contain_loop {E} (t : Trie) (length index : Z) (buf : bytes) (segments : list bytes)
  : res E bool :=
  match segments with
  | [] => Ok false
  | label :: segments =>
    let buf := buf ++ label in
    if entries_contains buf (entries t) then
      last ← arith_u 64 (length - 1);
      if index =? last then Ok true
      else contain_loop t length (index + 1) (buf ++ [dot]) segments
    else
      let buf := buf ++ [dot] in
      if entries_contains buf (entries t) then Ok true
      else
        last ← arith_u 64 (length - 1);
        if index =? last then Ok false
        else contain_loop t length (index + 1) buf segments
  end.

Definition contain {E N} `{DnsName N} (t : Trie) (name : N) : res E bool :=
  contain_loop t (num_labels name) 0 [] (reverse (name_labels name)).

(** [load], after the HTTP exchange: [read_line] on the body until it returns no bytes. *)
Fixpoint take_line (body : bytes) : bytes * bytes :=
  match body with
  | [] => ([], [])
  | b :: body => if b =? 10 then ([b], body)
                 else let '(l, r) := take_line body in (b :: l, r)
  end.

(** One line per turn: [length body] turns are enough. *)
Fixpoint load_lines (fuel : nat) (body : bytes) (t : Trie) (total : Z)
  : option (res ErrorKind (Trie * Z)) :=
  match body with
  | [] => Some (Ok (t, total))
  | _ =>
    match fuel with
    | O => None
    | S fuel =>
      let '(line, body) := take_line body in
      if Utf8.from_utf8_ok line then
        match arith_u 32 (total + 1) with
        | Ok total => load_lines fuel body (insert (trim_bytes line) t) total
        | Err e => Some (Err e)
        | Panic => Some Panic
        end
      else Some (Err InvalidData)
    end
  end.

Definition load (body : bytes) : option (res ErrorKind (Trie * Z)) :=
  load_lines (length body) body Trie_new 0.
End trie.
Global Arguments Trie : clear implicits.

(** ** Keys *)

Definition dot_free (l : bytes) : Prop := dot ∉ l.

Lemma rev_key_involutive h : rev_key (rev_key h) = h.
Proof.
  unfold rev_key. rewrite split_join.
  - by rewrite reverse_involutive, join_split.
  - intros Hn. apply (f_equal reverse) in Hn. rewrite reverse_involutive in Hn.
    by apply split_ne in Hn.
  - apply Forall_reverse, split_no_sep.
Qed.

Lemma rev_key_inj h1 h2 : rev_key h1 = rev_key h2 → h1 = h2.
Proof. intros E. by rewrite <- (rev_key_involutive h1), E, rev_key_involutive. Qed.

(** The key of a name, and of the rule that starts with a dot. *)
Lemma rev_key_labels ls : ls ≠ [] → Forall dot_free ls → rev_key (join dot ls) = join dot (reverse ls).
Proof. intros. unfold rev_key. by rewrite split_join. Qed.

Lemma rev_key_wildcard ls : ls ≠ [] → Forall dot_free ls →
  rev_key (dot :: join dot ls) = join dot (reverse ls) ++ [dot].
Proof.
  intros Hne Hd. unfold rev_key. cbn [split]. rewrite Z.eqb_refl, split_join by done.
  rewrite reverse_cons, join_app; [done| |done].
  intros Hn. apply (f_equal reverse) in Hn. by rewrite reverse_involutive in Hn.
Qed.

(** ** What the loop computes *)

Section trie_proof.
Context {St : Type} `{Entries St} `{Profile}.
Implicit Types t : Trie St.

Fixpoint match_loop t (buf : bytes) (segments : list bytes) : bool :=
  match segments with
  | [] => false
  | label :: segments =>
    let buf := buf ++ label in
    if entries_contains buf (entries t) then
      match segments with [] => true | _ => match_loop t (buf ++ [dot]) segments end
    else entries_contains (buf ++ [dot]) (entries t) || match_loop t (buf ++ [dot]) segments
  end.

Lemma contain_loop_match {E} t len index buf segs rest :
  len = index + Z.of_nat (length segs) → 0 <= index → len < 2 ^ 64 → segs ≠ [] →
  contain_loop (E:=E) t len index buf (segs ++ rest) = Ok (match_loop t buf segs).
Proof.
  revert index buf. induction segs as [|l segs IH]; intros index buf Hlen Hi Hmax Hne; [done|].
  cbn [app contain_loop match_loop]. cbn [length] in Hlen.
  rewrite arith_u_small by lia. cbn [mbind res_bind].
  destruct segs as [|l' segs].
  - simpl in Hlen. rewrite (proj2 (Z.eqb_eq index (len - 1))) by lia.
    repeat case_match; try done.
  - rewrite (proj2 (Z.eqb_neq index (len - 1))) by (simpl in Hlen; lia).
    rewrite IH by (done || lia). repeat case_match; done.
Qed.

Lemma match_loop_true t buf segs :
  match_loop t buf segs = true ↔
  (segs ≠ [] ∧ entries_contains (buf ++ join dot segs) (entries t) = true)
  ∨ (∃ p q, segs = p ++ q ∧ p ≠ []
       ∧ entries_contains (buf ++ join dot p) (entries t) = false
       ∧ entries_contains (buf ++ join dot p ++ [dot]) (entries t) = true).
Proof.
  revert buf. induction segs as [|l segs IH]; intros buf; cbn [match_loop].
  { split; [done|]. intros [[? _]|(p & q & E & ? & _)]; [done|]. by destruct p. }
  assert (∀ p, p ≠ [] → ((buf ++ l) ++ [dot]) ++ join dot p = buf ++ join dot (l :: p)) as Hj.
  { intros p Hp. rewrite join_cons by done. by rewrite <- !app_assoc. }
  assert (∀ p x, p ≠ [] → ((buf ++ l) ++ [dot]) ++ join dot p ++ x
                         = buf ++ join dot (l :: p) ++ x) as Hj'.
  { intros p x Hp. rewrite join_cons by done. by rewrite <- !app_assoc. }
  destruct (entries_contains (buf ++ l) (entries t)) eqn:Hc.
  - destruct segs as [|l' segs].
    + split; [|done]. intros _. left. by split.
    + rewrite IH. split.
      * intros [[_ Hx]|(p & q & E & Hp & H1 & H2)]; [left|right].
        -- split; [done|]. by rewrite Hj in Hx.
        -- exists (l :: p), q. rewrite E. split_and!; try done.
           ++ by rewrite Hj in H1.
           ++ by rewrite <- Hj'.
      * intros [[_ Hx]|(p & q & E & Hp & H1 & H2)]; [left|right].
        -- split; [done|]. by rewrite Hj.
        -- destruct p as [|x p]; [done|]. simplify_eq/=.
           destruct p as [|y p]; [simpl in H1; congruence|].
           exists (y :: p), q. split_and!; try done.
           ++ by rewrite Hj.
           ++ by rewrite Hj'.
  - rewrite orb_true_iff, IH. split.
    + intros [Hw|[[Hne Hx]|(p & q & E & Hp & H1 & H2)]].
      * right. exists [l], segs. split_and!; try done. simpl. by rewrite app_assoc.
      * left. split; [done|]. by rewrite Hj in Hx.
      * right. exists (l :: p), q. rewrite E. split_and!; try done.
        -- by rewrite Hj in H1.
        -- by rewrite <- Hj'.
    + intros [[_ Hx]|(p & q & E & Hp & H1 & H2)].
      * destruct segs as [|l' segs]; [simpl in Hx; congruence|].
        right. left. split; [done|]. by rewrite Hj.
      * destruct p as [|x p]; [done|]. simplify_eq/=. destruct p as [|y p].
        -- left. simpl in H2. by rewrite <- app_assoc.
        -- right. right. exists (y :: p), q. split_and!; try done.
           ++ by rewrite Hj.
           ++ by rewrite Hj'.
Qed.

(** The rules that were inserted. *)
Definition from_rules (rules : list bytes) : Trie St := foldr insert Trie_new rules.

Context `{!EntriesOk St}.

Lemma members_rules rules k :
  k ∈ members (entries (from_rules rules)) ↔ ∃ h, h ∈ rules ∧ rev_key h = k.
Proof.
  induction rules as [|h rules IH]; simpl.
  - rewrite members_new. set_solver.
  - rewrite members_insert. set_solver.
Qed.

Lemma contains_rule rules h :
  h ∈ rules → entries_contains (rev_key h) (entries (from_rules rules)) = true.
Proof. intros. apply contains_member, members_rules. by exists h. Qed.

Lemma contains_rule_precise `{!Precise St} rules h :
  entries_contains (rev_key h) (entries (from_rules rules)) = true ↔ h ∈ rules.
Proof.
  split; [|apply contains_rule]. intros (h' & Hh & E)%contains_precise%members_rules.
  by apply rev_key_inj in E as ->.
Qed.
End trie_proof.

(** ** Loading *)

Section load_proof.
Context {St : Type} `{Entries St} `{Profile}.

(** A line: no line feed but at its end. *)
Definition is_line (l : bytes) : Prop := ∃ l', l = l' ++ [10] ∧ 10 ∉ l'.

Lemma take_line_line l body : is_line l → take_line (l ++ body) = (l, body).
Proof.
  intros (l' & -> & Hl). induction l' as [|b l' IH]; simpl; [done|].
  rewrite (proj2 (Z.eqb_neq b 10)) by set_solver. by rewrite IH by set_solver.
Qed.

Lemma take_line_last l : 10 ∉ l → take_line l = (l, []).
Proof.
  induction l as [|b l IH]; intros Hl; simpl; [done|].
  rewrite (proj2 (Z.eqb_neq b 10)) by set_solver. by rewrite IH by set_solver.
Qed.

Lemma load_lines_spec fuel lines (last : bytes) (t : Trie St) total :
  Forall is_line lines → 10 ∉ last → Forall (λ l, Utf8.from_utf8_ok l = true) (lines ++ [last]) →
  (length (concat lines ++ last) ≤ fuel)%nat →
  0 <= total → total + Z.of_nat (length lines) + 1 < 2 ^ 32 →
  let all := lines ++ (if decide (last = []) then [] else [last]) in
  load_lines fuel (concat lines ++ last) t total
  = Some (Ok (foldl (λ t l, insert (trim_bytes l) t) t all, total + Z.of_nat (length all))).
Proof.
  intros Hlines Hlast. revert fuel t total.
  induction Hlines as [|l lines Hl Hlines IH]; intros fuel t total Hutf Hf Ht0 Hmax; cbn [concat app].
  - destruct last as [|b last]; simpl; [destruct fuel; simpl; do 3 f_equal; lia|].
    destruct fuel as [|fuel]; [simpl in Hf; lia|]. cbn [load_lines].
    rewrite take_line_last by done.
    apply Forall_cons_1 in Hutf as [Hu _]. rewrite Hu.
    rewrite arith_u_small by (simpl in Hmax; lia). by destruct fuel.
  - apply Forall_cons_1 in Hutf as [Hu Hutf].
    destruct (l ++ concat lines) as [|b body] eqn:E.
    { destruct Hl as (l' & -> & _). by destruct l'. }
    cbn [app]. destruct fuel as [|fuel].
    { apply (f_equal length) in E. cbn [concat] in Hf. rewrite !length_app in *. simpl in *. lia. }
    cbn [load_lines]. change (b :: body ++ last) with ((b :: body) ++ last).
    rewrite <- E, <- app_assoc, take_line_line, Hu by done.
    cbn [length] in Hmax. rewrite arith_u_small by lia.
    rewrite IH; [|done| |lia|lia].
    + cbn [foldl length]. do 3 f_equal. lia.
    + destruct Hl as (l' & -> & _). rewrite !length_app in *. cbn [concat] in Hf.
      rewrite !length_app in Hf. simpl in Hf. lia.
Qed.
End load_proof.

(** ** Properties *)

(** Names given by their labels. *)
Global Instance labels_DnsName : DnsName (list bytes) := {
  name_labels ls := ls;
  num_labels ls :=
    match ls with
    | l :: ls => if bool_decide (l = star) then Z.of_nat (length ls) else Z.of_nat (S (length ls))
    | [] => 0
    end
}.
Global Instance labels_DnsNameOk : DnsNameOk (list bytes).
Proof. by constructor. Qed.


(** "foo.com", ".foo.com", "bar.com" and the names "a.foo.com" and "x.bar.com". *)
Module Demo.
Definition com : bytes := [99; 111; 109].
Definition foo : bytes := [102; 111; 111].
Definition bar : bytes := [98; 97; 114].
Definition foo_com : bytes := join dot [foo; com].
Definition bar_com : bytes := join dot [bar; com].
Definition rules : list bytes := [dot :: foo_com; bar_com].
End Demo.


(** A rule without a leading dot switches the rule with the dot off for the
    subdomains: with both "bar.com" and ".bar.com", "bar.com" is matched but "x.bar.com"
    is not, although the second rule alone matches it. *)
Theorem wildcard_shadowed :
  let x := [[120]; Demo.bar; Demo.com] in
  let t := from_rules (St:=gset bytes) in
  contain (H0:=dev) (E:=()) (t [Demo.bar_com; dot :: Demo.bar_com]) x = Ok false
  ∧ contain (H0:=dev) (E:=()) (t [dot :: Demo.bar_com]) x = Ok true
  ∧ contain (H0:=dev) (E:=()) (t [Demo.bar_com; dot :: Demo.bar_com]) [Demo.bar; Demo.com] = Ok true.
Proof. by vm_compute. Qed.

(** No store loses an exact rule: whether the rules are kept in a set or in a Bloom
    filter that answers yes for more than its members, a name that is itself a rule is
    matched. *)
Theorem exact_rule_matched {St N E : Type} `{Entries St} `{!EntriesOk St} `{Profile}
    `{DnsName N} `{!DnsNameOk N} (rules : list bytes) (name : N) (ls : list bytes)
    (Hls : name_labels name = ls) (Hne : ls ≠ []) (Hstar : ls !! 0%nat ≠ Some star)
    (Hlen : (length ls < 256)%nat) (Hdots : Forall dot_free ls) (Hrule : join dot ls ∈ rules) :
  contain (E:=E) (from_rules (St:=St) rules) name = Ok true.
Proof.
  unfold contain. rewrite num_labels_spec, Hls.
  rewrite <- (app_nil_r (reverse ls)), (contain_loop_match _ _ 0 [] (reverse ls) []); [| |lia| |].
  - f_equal. apply match_loop_true. left. split.
    + intros Hn. apply (f_equal reverse) in Hn. by rewrite reverse_involutive in Hn.
    + simpl app. rewrite <- rev_key_labels by done. by apply contains_rule.
  - destruct ls as [|l ls]; [done|]. rewrite bool_decide_eq_false_2 by (intros ->; done).
    by rewrite length_reverse.
  - destruct ls as [|l ls]; [done|]. case_bool_decide; simpl in Hlen; lia.
  - intros Hn. apply (f_equal reverse) in Hn. by rewrite reverse_involutive in Hn.
Qed.

(** A store that always answers yes: the limit of a filled Bloom filter. *)
Definition full_filter : Type := gset bytes.
Definition full_Entries : Entries full_filter := {|
  entries_new := (∅ : gset bytes);
  entries_insert x s := ({[x]} ∪ s : gset bytes);
  entries_contains x s := true
|}.
Definition full_EntriesOk : @EntriesOk full_filter full_Entries.
Proof. by refine (@Build_EntriesOk full_filter full_Entries (λ s, s) _ _ _). Defined.

Lemma exact_rule_matched_witness :
  contain (H:=full_Entries) (H0:=dev) (E:=()) (from_rules (H:=full_Entries) Demo.rules)
    [Demo.bar; Demo.com] = Ok true.
Proof.
  apply (exact_rule_matched (H:=full_Entries) (EntriesOk0:=full_EntriesOk) (H0:=dev)
           Demo.rules [Demo.bar; Demo.com] [Demo.bar; Demo.com]).
  - reflexivity.
  - discriminate.
  - discriminate.
  - simpl. lia.
  - unfold dot_free. apply (bool_decide_unpack _). vm_compute. exact I.
  - apply (bool_decide_unpack _). vm_compute. exact I.
Defined.

(** Loading reads every rule.  From a body of lines, each ended by a line feed but
    possibly the last, the loader inserts every line without the white space around it and
    returns their number. *)
Theorem load_reads_all {St : Type} `{Entries St} `{Profile} (lines : list bytes) (last : bytes)
    (Hlines : Forall is_line lines) (Hlast : 10 ∉ last)
    (Hutf : Forall (λ l, Utf8.from_utf8_ok l = true) (lines ++ [last]))
    (Hmax : Z.of_nat (length lines) + 1 < 2 ^ 32) :
  let all := lines ++ (if decide (last = []) then [] else [last]) in
  load (St:=St) (concat lines ++ last)
  = Some (Ok (foldl (λ t l, insert (trim_bytes l) t) Trie_new all, Z.of_nat (length all))).
Proof.
  intros all. unfold load. by rewrite (load_lines_spec _ lines last) by (done || lia).
Qed.

(** The same, as rules. *)
Lemma load_rules {St : Type} `{Entries St} `{Profile} (lines : list bytes) (last : bytes) :
  Forall is_line lines → 10 ∉ last →
  Forall (λ l, Utf8.from_utf8_ok l = true) (lines ++ [last]) →
  Z.of_nat (length lines) + 1 < 2 ^ 32 →
  let all := lines ++ (if decide (last = []) then [] else [last]) in
  load (St:=St) (concat lines ++ last)
  = Some (Ok (from_rules (reverse (trim_bytes <$> all)), Z.of_nat (length all))).
Proof.
  intros Hl Hn Hu Hm all. rewrite load_reads_all by done. fold all. do 3 f_equal.
  unfold from_rules. generalize (Trie_new (St:=St)). induction all as [|l all IH]; intros t; [done|].
  cbn [foldl]. rewrite IH, fmap_cons, reverse_cons, foldr_app. done.
Qed.

Lemma load_reads_all_witness :
  let lines := [Demo.foo_com ++ [32; 13; 10]] in
  let all := lines ++ [Demo.bar_com] in
  load (St:=gset bytes) (H0:=dev) (concat lines ++ Demo.bar_com)
  = Some (Ok (foldl (λ t l, insert (trim_bytes l) t) Trie_new all, 2)).
Proof.
  apply (load_reads_all (St:=gset bytes) (H0:=dev) [Demo.foo_com ++ [32; 13; 10]] Demo.bar_com).
  - constructor; [|constructor]. exists (Demo.foo_com ++ [32; 13]). split; [reflexivity|].
    apply (bool_decide_unpack _). vm_compute. exact I.
  - apply (bool_decide_unpack _). vm_compute. exact I.
  - repeat constructor.
  - simpl. lia.
Defined.
