(* ===== verification/Bloom.v ===== *)
(** * Domain rules in a Bloom filter (dns/rule/trie/bloom.rs)

    The second store of the rules.  A Bloom filter finds every key that was inserted, and
    now and then one that was not.  The search asks for exact rules before wildcards, so
    that such a false positive can also hide a rule. *)

From Stdlib Require Import QArith.
From stdpp Require Import gmap.
From S2P Require Import Prelude RustStr Io Trie.
Local Open Scope Z_scope.

(** The crate [bloom]: a filter for an expected number of keys with a rate of false
    positives. *)
Class BloomFilter (B : Type) := {
  with_rate : Q → Z → B;
  bf_insert : bytes → B → B;
  bf_contains : bytes → B → bool
}.

Class BloomFilterOk (B : Type) `{BloomFilter B} := {
  keys : B → gset bytes;
  keys_new : ∀ rate expected, keys (with_rate rate expected) = ∅;
  keys_insert : ∀ x b, keys (bf_insert x b) = {[x]} ∪ keys b;
  contains_key : ∀ x b, x ∈ keys b → bf_contains x b = true
}.

Module BloomTrie.
Section trie.
Context {B : Type} `{BloomFilter B} `{Profile}.

Record BloomTrie := { bloom : B }.

Definition new : BloomTrie := {| bloom := with_rate (1 # 10000) 40000 |}.
Definition swap (self other : BloomTrie) : BloomTrie := {| bloom := bloom other |}.
Definition insert (host : bytes) (t : BloomTrie) : BloomTrie :=
  let s := join dot (reverse (split dot host)) in
  {| bloom := bf_insert s (bloom t) |}.

Fixpoint contain_loop {E} (t : BloomTrie) (length index : Z) (buf : bytes) (segments : list bytes)
  : res E bool :=
  match segments with
  | [] => Ok false
  | label :: segments =>
    let buf := buf ++ label in
    if bf_contains buf (bloom t) then
      last ← arith_u 64 (length - 1);
      if index =? last then Ok true
      else contain_loop t length (index + 1) (buf ++ [dot]) segments
    else
      let buf := buf ++ [dot] in
      if bf_contains buf (bloom t) then Ok true
      else
        last ← arith_u 64 (length - 1);
        if index =? last then Ok false
        else contain_loop t length (index + 1) buf segments
  end.

Definition contain {E N} `{DnsName N} (t : BloomTrie) (name : N) : res E bool :=
  let length := num_labels name in
  let segments := reverse (name_labels name) in
  contain_loop t length 0 [] segments.
End trie.
Global Arguments BloomTrie : clear implicits.
End BloomTrie.

(** ** A filter is a store of rules *)

Section store.
Context {B : Type} `{BloomFilter B} `{Profile}.

Global Instance bloom_Entries : Entries B := {
  entries_new := with_rate (1 # 10000) 40000;
  entries_insert := bf_insert;
  entries_contains := bf_contains
}.
Global Instance bloom_EntriesOk `{!BloomFilterOk B} : EntriesOk B.
Proof.
  refine {| members := keys |}; [apply keys_new|apply keys_insert|apply contains_key].
Defined.

Definition bloom_rules (rules : list bytes) : BloomTrie.BloomTrie B :=
  foldr BloomTrie.insert BloomTrie.new rules.

Lemma bloom_rules_from rules :
  BloomTrie.bloom (bloom_rules rules) = entries (from_rules (St:=B) rules).
Proof. induction rules as [|h rules IH]; [done|]. simpl. by rewrite IH. Qed.

(** The two files have the same search. *)
Lemma bloom_contain {E N} `{DnsName N} (t : BloomTrie.BloomTrie B) (name : N) :
  BloomTrie.contain (E:=E) t name = contain {| entries := BloomTrie.bloom t |} name.
Proof.
  unfold BloomTrie.contain, contain.
  generalize (num_labels name) as len, 0%Z as i, (@nil Z) as buf.
  induction (reverse (name_labels name)) as [|l ls IH]; intros len i buf; [done|].
  cbn [BloomTrie.contain_loop contain_loop entries entries_contains bloom_Entries].
  rewrite !IH. by destruct (arith_u 64 (len - 1)); cbn [mbind res_bind]; rewrite ?IH.
Qed.
End store.

(** The keys a search for a name with the reversed labels [segs] may ask for. *)
Fixpoint asked (buf : bytes) (segs : list bytes) : list bytes :=
  match segs with
  | [] => []
  | l :: segs => (buf ++ l) :: (buf ++ l ++ [dot]) :: asked (buf ++ l ++ [dot]) segs
  end.

Lemma contain_loop_agree {St St' E} `{Entries St} `{Entries St'} `{Profile} (t : Trie St) (t' : Trie St')
    len i buf segs :
  (∀ k, k ∈ asked buf segs → entries_contains k (entries t) = entries_contains k (entries t')) →
  contain_loop (E:=E) t len i buf segs = contain_loop t' len i buf segs.
Proof.
  revert i buf. induction segs as [|l segs IH]; intros i buf Hk; [done|]. cbn [contain_loop asked] in *.
  rewrite (Hk (buf ++ l)) by by left.
  rewrite <- !app_assoc. rewrite (Hk (buf ++ l ++ [dot])) by by right; left.
  assert (∀ i, contain_loop (E:=E) t len i (buf ++ l ++ [dot]) segs
               = contain_loop t' len i (buf ++ l ++ [dot]) segs) as Hr.
  { intros i'. apply IH. intros k Hin. apply Hk. by right; right. }
  by destruct (arith_u 64 (len - 1)); cbn [mbind res_bind]; rewrite ?Hr.
Qed.

(** ** Properties *)

(** C23: the Bloom store agrees with the set store.  For any rules, the search in the filter
    gives what the search in the set gives for every name of which the filter answers no
    key wrongly; and a name that is itself a rule is found whatever the filter answers. *)
Theorem bloom_agrees_with_set {B N E : Type} `{BloomFilter B} `{!BloomFilterOk B} `{Profile}
    `{DnsName N} `{!DnsNameOk N} (rules : list bytes) (name : N) :
  ((∀ k, k ∈ asked [] (reverse (name_labels name)) →
      bf_contains k (BloomTrie.bloom (bloom_rules (B:=B) rules)) = true → ∃ h, h ∈ rules ∧ rev_key h = k) →
   BloomTrie.contain (E:=E) (bloom_rules (B:=B) rules) name
   = contain (from_rules (St:=gset bytes) rules) name)
  ∧ (∀ ls, name_labels name = ls → ls ≠ [] → ls !! 0%nat ≠ Some star → (length ls < 256)%nat →
     Forall dot_free ls → join dot ls ∈ rules →
     BloomTrie.contain (E:=E) (bloom_rules (B:=B) rules) name = Ok true).
Proof.
  split.
  - intros Hk. rewrite bloom_contain, bloom_rules_from. apply contain_loop_agree.
    intros k Hin. destruct (entries_contains k (entries (from_rules (St:=gset bytes) rules))) eqn:Es.
    + apply contains_precise, members_rules in Es as (h & Hh & <-). by apply contains_rule.
    + apply not_true_iff_false. intros Hb. rewrite <- bloom_rules_from in Hb. simpl in Hb.
      destruct (Hk k Hin Hb) as (h & Hh & <-).
      by rewrite (contains_rule (St:=gset bytes) rules h Hh) in Es.
  - intros ls Hls Hne Hstar Hlen Hdots Hin. rewrite bloom_contain, bloom_rules_from.
    replace {| entries := entries (from_rules (St:=B) rules) |} with (from_rules (St:=B) rules)
      by (by destruct (from_rules (St:=B) rules)).
    by apply (exact_rule_matched rules name ls).
Qed.

(** ** A filter that takes "com.foo" for a member *)

Module Demo.
Definition com_foo : bytes := join dot [Trie.Demo.com; Trie.Demo.foo].
Definition filter : Type := gset bytes.
Definition filter_BloomFilter : BloomFilter filter := {|
  with_rate _ _ := (∅ : gset bytes);
  bf_insert x b := ({[x]} ∪ b : gset bytes);
  bf_contains x b := bool_decide (x ∈ ({[com_foo]} ∪ b : gset bytes))
|}.
Definition filter_BloomFilterOk : @BloomFilterOk filter filter_BloomFilter.
Proof.
  refine (@Build_BloomFilterOk filter filter_BloomFilter (λ b, b) _ _ _); [done|done|].
  intros x b Hx. apply bool_decide_eq_true_2. set_solver.
Defined.
End Demo.

(** A false positive hides a rule: the filter answers yes for "com.foo", which is no rule,
    so the search goes on to "com.foo.a" without asking for the wildcard ".foo.com". *)
Lemma false_positive_hides_rule :
  BloomTrie.contain (H:=Demo.filter_BloomFilter) (H0:=dev) (E:=())
    (bloom_rules (H:=Demo.filter_BloomFilter) [dot :: Trie.Demo.foo_com]) [[97]; Trie.Demo.foo; Trie.Demo.com]
  = Ok false
  ∧ contain (H0:=dev) (E:=()) (from_rules (St:=gset bytes) [dot :: Trie.Demo.foo_com])
      [[97]; Trie.Demo.foo; Trie.Demo.com] = Ok true.
Proof. vm_compute. split; reflexivity. Qed.

Lemma bloom_agrees_with_set_witness :
  BloomTrie.contain (H:=Demo.filter_BloomFilter) (H0:=dev) (E:=())
    (bloom_rules (H:=Demo.filter_BloomFilter) Trie.Demo.rules) [[120]; Trie.Demo.bar; Trie.Demo.com]
  = contain (H0:=dev) (from_rules (St:=gset bytes) Trie.Demo.rules) [[120]; Trie.Demo.bar; Trie.Demo.com].
Proof.
  apply (proj1 (bloom_agrees_with_set (H:=Demo.filter_BloomFilter)
    (BloomFilterOk0:=Demo.filter_BloomFilterOk) (H0:=dev) (E:=()) Trie.Demo.rules
    [[120]; Trie.Demo.bar; Trie.Demo.com])).
  intros k Hk Hc. exists (rev_key k). rewrite rev_key_involutive. split; [|reflexivity].
  revert k Hk Hc.
  assert (Forall (λ k, bf_contains (BloomFilter:=Demo.filter_BloomFilter) k
    (BloomTrie.bloom (bloom_rules (H:=Demo.filter_BloomFilter) Trie.Demo.rules)) = true →
    rev_key k ∈ Trie.Demo.rules) (asked [] (reverse [[120]; Trie.Demo.bar; Trie.Demo.com]))) as Hall.
  { apply (bool_decide_unpack _). vm_compute. exact I. }
  rewrite list.Forall_forall in Hall. exact Hall.
Defined.
