(* ===== verification/Dns.v ===== *)
(** * The DNS server (src/dns/handle, src/dns/server)

    Requests and responses, the response cache, the hijack and reject rules, the handler
    that combines them with the upstream resolver, and what the server does with one
    datagram.  The wire format, the resolver and the LRU map are other crates' code:
    [DnsProto], [resolve] and [LruCache] below; time is [Instant::now()], a number. *)

From stdpp Require Import gmap.
From S2P Require Import Prelude RustStr Io Address Resolver Trie.

(** [trust_dns_proto]: the types, the accessors and the codec the server uses.
    [same_query] is [Query]'s [PartialEq], which compares names without regard to case. *)
Class DnsProto := {
  Header : Type;
  Query : Type;
  Record_ : Type;
  Edns : Type;
  Name : Type;
  ProtoError : Type;
  same_query : Query → Query → Prop;
  #[global] same_query_equiv :: Equivalence same_query;
  #[global] same_query_dec :: RelDecision same_query;
  #[global] name_DnsName :: DnsName Name;
  query_name : Query → Name;
  set_no_error : Header → Header;
  merge_response_code : Z → Header → Header;
  query_count : Header → nat;
  answer_count : Header → nat;
  name_server_count : Header → nat;
  additional_count : Header → nat;
  rcode_high : Edns → Z;
  bad_query_count : nat → ProtoError;
  read_header : bytes → res ProtoError (Header * bytes);
  read_query : bytes → res ProtoError (Query * bytes);
  read_records : bytes → nat → bool →
    res ProtoError (list Record_ * option Edns * list Record_ * bytes);
  from_rdata : Name → Z → IpAddr → Record_;
  emit_message : Header → Query → list Record_ → list Record_ → list Record_ →
    option Edns → list Record_ → res ProtoError bytes
}.

Section dns.
Context `{P : DnsProto}.

(** ** Requests and responses (server/request.rs, server/response.rs) *)

Record Request := {
  rq_header : Header;
  rq_query : Query;
  rq_answers : list Record_;
  rq_name_servers : list Record_;
  rq_additionals : list Record_;
  rq_sig0 : list Record_;
  rq_edns : option Edns;
  rq_src : SocketAddr
}.

(** The loop that reads [n] queries. *)
Fixpoint read_queries (n : nat) (d : bytes) : res ProtoError (list Query * bytes) :=
  match n with
  | O => Ok ([], d)
  | S n =>
    '(q, d) ← read_query d;
    '(qs, d) ← read_queries n d;
    Ok (q :: qs, d)
  end.

Definition from_message (message : bytes) (src : SocketAddr) : res ProtoError Request :=
  '(header, d) ← read_header message;
  let query_count := query_count header in
  _ ← fail_if (negb (bool_decide (query_count = 1%nat))) (bad_query_count query_count);
  '(queries, d) ← read_queries query_count d;
  '(answers, _, _, d) ← read_records d (answer_count header) false;
  '(name_servers, _, _, d) ← read_records d (name_server_count header) false;
  '(additionals, edns, sig0, _) ← read_records d (additional_count header) true;
  let header := match edns with
                | Some e => merge_response_code (rcode_high e) header
                | None => header
                end in
  query ← expect (reverse queries !! 0%nat);
  Ok {| rq_header := header; rq_query := query; rq_answers := answers;
        rq_name_servers := name_servers; rq_additionals := additionals; rq_sig0 := sig0;
        rq_edns := edns; rq_src := src |}.

Record Response := {
  rs_header : Header;
  rs_query : Query;
  rs_answers : list Record_;
  rs_name_servers : list Record_;
  rs_soa : list Record_;
  rs_additionals : list Record_;
  rs_sig0 : list Record_;
  rs_edns : option Edns
}.

Definition no_records (header : Header) (query : Query) : Response :=
  {| rs_header := header; rs_query := query; rs_answers := []; rs_name_servers := [];
     rs_soa := []; rs_additionals := []; rs_sig0 := []; rs_edns := None |}.

Definition from_request (req : Request) : Response :=
  {| rs_header := rq_header req; rs_query := rq_query req; rs_answers := [];
     rs_name_servers := []; rs_soa := []; rs_additionals := []; rs_sig0 := []; rs_edns := None |}.

Definition push_answer (r : Record_) (resp : Response) : Response :=
  {| rs_header := rs_header resp; rs_query := rs_query resp;
     rs_answers := rs_answers resp ++ [r]; rs_name_servers := rs_name_servers resp;
     rs_soa := rs_soa resp; rs_additionals := rs_additionals resp; rs_sig0 := rs_sig0 resp;
     rs_edns := rs_edns resp |}.

(** The [soa] records are not emitted. *)
Definition message (resp : Response) : res ProtoError bytes :=
  emit_message (rs_header resp) (rs_query resp) (rs_answers resp) (rs_name_servers resp)
    (rs_additionals resp) (rs_edns resp) (rs_sig0 resp).

(** ** The cache (handle/cache.rs) *)

Record Entry := {
  expire_at : Z;
  en_answers : list Record_;
  en_name_servers : list Record_;
  en_soa : list Record_;
  en_additionals : list Record_;
  en_sig0 : list Record_;
  en_edns : option Edns
}.
End dns.
Global Arguments Request : clear implicits.
Global Arguments Response : clear implicits.
Global Arguments Entry : clear implicits.

(** [lru_cache::LruCache<Query, Entry>]. *)
Class LruCache `(P : DnsProto) (C : Type) := {
  lru_new : nat → C;
  lru_get_mut : Query → C → option (Entry P) * C;
  lru_remove : Query → C → C;
  lru_contains_key : Query → C → bool;
  lru_insert : Query → Entry P → C → C
}.

(** [peek c q] is what the map holds under keys equal to [q].  A lookup changes the recency
    only, and an insertion may evict other keys. *)
Class LruCacheOk `(P : DnsProto) (C : Type) `{!LruCache P C} := {
  peek : C → Query → option (Entry P);
  peek_same : ∀ c q q', same_query q q' → peek c q = peek c q';
  peek_new : ∀ n q, peek (lru_new n) q = None;
  peek_get : ∀ q c, (lru_get_mut q c).1 = peek c q ∧ ∀ q', peek (lru_get_mut q c).2 q' = peek c q';
  peek_remove : ∀ q q' c, peek (lru_remove q c) q' = if decide (same_query q' q) then None else peek c q';
  peek_contains : ∀ q c, lru_contains_key q c = bool_decide (is_Some (peek c q));
  peek_insert : ∀ q e c q' e', peek (lru_insert q e c) q' = Some e' →
    (same_query q' q ∧ e' = e) ∨ (¬ same_query q' q ∧ peek c q' = Some e')
}.

Section handler.
Context `{P : DnsProto} {C : Type} `{!LruCache P C}.
Context {St : Type} `{Entries St} `{Profile}.

Record Cache := { ttl : Z; lru : C }.

Definition Cache_new (size : nat) (ttl : Z) : Cache := {| ttl := ttl; lru := lru_new size |}.

Definition cache_get (now : Z) (req : Request P) (self : Cache) : option (Response P) * Cache :=
  let query := rq_query req in
  let '(found, lru) := lru_get_mut query (lru self) in
  match found with
  | Some entry =>
    if now <? expire_at entry then (None, {| ttl := ttl self; lru := lru_remove query lru |})
    else
      (Some {| rs_header := set_no_error (rq_header req); rs_query := query;
               rs_answers := en_answers entry; rs_name_servers := en_name_servers entry;
               rs_soa := en_soa entry; rs_additionals := en_additionals entry;
               rs_sig0 := en_sig0 entry; rs_edns := en_edns entry |},
       {| ttl := ttl self; lru := lru |})
  | None => (None, {| ttl := ttl self; lru := lru |})
  end.

Definition cache_put (now : Z) (resp : Response P) (self : Cache) : Cache :=
  let query := rs_query resp in
  if lru_contains_key query (lru self) then self
  else {| ttl := ttl self;
          lru := lru_insert query
            {| expire_at := now + ttl self; en_answers := rs_answers resp;
               en_name_servers := rs_name_servers resp; en_soa := rs_soa resp;
               en_additionals := rs_additionals resp; en_sig0 := rs_sig0 resp;
               en_edns := rs_edns resp |} (lru self) |}.

(** ** Rules (handle/hijack.rs, handle/reject.rs) *)

Record Hijack := { hj_trie : Trie St; hijack : IpAddr }.
Record Reject := { rj_trie : Trie St }.

Definition hijacking {E} (self : Hijack) (name : Name) : res E (option IpAddr) :=
  b ← contain (hj_trie self) name;
  Ok (if b : bool then Some (hijack self) else None).

Definition deny {E} (self : Reject) (name : Name) : res E bool := contain (rj_trie self) name.

(** A reload replaces the rules when it succeeds. *)
Definition hijack_reload {E} (loaded : res E (Trie St * Z)) (self : Hijack) : Hijack :=
  match loaded with
  | Ok (t, _) => {| hj_trie := swap (hj_trie self) t; hijack := hijack self |}
  | _ => self
  end.
Definition reject_reload {E} (loaded : res E (Trie St * Z)) (self : Reject) : Reject :=
  match loaded with
  | Ok (t, _) => {| rj_trie := swap (rj_trie self) t |}
  | _ => self
  end.

(** ** The handler (handle/mod.rs, handle/upstream.rs)

    [resolve] is the upstream resolver's [lookup_ip]. *)

Context {ResolveError : Type} (resolve : Name → res ResolveError (list Record_)).

Record Handler := {
  h_cache : option Cache;
  h_hijacker : option Hijack;
  h_reject : option Reject
}.

Definition upstream_resolve (req : Request P) : res ResolveError (Response P) :=
  let query := rq_query req in
  ips ← resolve (query_name query);
  Ok {| rs_header := rq_header req; rs_query := query; rs_answers := ips; rs_name_servers := [];
        rs_soa := []; rs_additionals := []; rs_sig0 := []; rs_edns := None |}.

Definition set_cache (c : option Cache) (self : Handler) : Handler :=
  {| h_cache := c; h_hijacker := h_hijacker self; h_reject := h_reject self |}.

(** The steps after the cache; [asked] tells whether the upstream was queried. *)
Definition handle_miss (now : Z) (req : Request P) (self : Handler)
  : res ResolveError (Response P) * bool * Handler :=
  let name := query_name (rq_query req) in
  let hijacked := match h_hijacker self with
                  | Some hijacker => hijacking hijacker name
                  | None => Ok None
                  end in
  match hijacked with
  | Ok (Some to) =>
    (Ok (push_answer (from_rdata name (60 * 60) to) (from_request req)), false, self)
  | Err e => (Err e, false, self)
  | Panic => (Panic, false, self)
  | Ok None =>
    let denied := match h_reject self with
                  | Some reject => deny reject name
                  | None => Ok false
                  end in
    match denied with
    | Ok true => (Ok (no_records (rq_header req) (rq_query req)), false, self)
    | Err e => (Err e, false, self)
    | Panic => (Panic, false, self)
    | Ok false =>
      match upstream_resolve req, h_cache self with
      | Ok resp, Some cache => (Ok resp, true, set_cache (Some (cache_put now resp cache)) self)
      | result, _ => (result, true, self)
      end
    end
  end.

Definition handle (now : Z) (req : Request P) (self : Handler)
  : res ResolveError (Response P) * bool * Handler :=
  match h_cache self with
  | Some cache =>
    let '(hit, cache) := cache_get now req cache in
    let self := set_cache (Some cache) self in
    match hit with
    | Some resp => (Ok resp, false, self)
    | None => handle_miss now req self
    end
  | None => handle_miss now req self
  end.
End handler.

(** ** The server (server/mod.rs) *)

Inductive SanitizeError := PortZero | UnspecifiedV4 | BroadcastV4 | UnspecifiedV6.

Definition verify_v4 (src : bytes) : res SanitizeError () :=
  _ ← fail_if (bool_decide (src = [0; 0; 0; 0])) UnspecifiedV4;
  _ ← fail_if (bool_decide (src = [255; 255; 255; 255])) BroadcastV4;
  Ok ().

Definition verify_v6 (src : list Z) : res SanitizeError () :=
  _ ← fail_if (bool_decide (src = replicate 8 0)) UnspecifiedV6;
  Ok ().

Definition socket_port (sa : SocketAddr) : Z :=
  match sa with V4 _ port => port | V6 _ port _ _ => port end.

Definition sanitize_src_address (src : SocketAddr) : res SanitizeError () :=
  _ ← fail_if (socket_port src =? 0) PortZero;
  match socket_ip src with
  | IpV4 v4 => verify_v4 v4
  | IpV6 v6 => verify_v6 v6
  end.

Section server.
Context `{P : DnsProto} {C : Type} `{!LruCache P C}.
Context {St : Type} `{Entries St} `{Profile}.
Context {ResolveError : Type} (resolve : Name → res ResolveError (list Record_)).

(** What the server does with one message of a client: the bytes it sends back, if any,
    and the handler afterwards.  A panic kills the task of that message only. *)
Definition serve_message (now : Z) (msg : bytes) (src : SocketAddr)
    (self : Handler (C:=C) (St:=St)) : option bytes * Handler (C:=C) (St:=St) :=
  match sanitize_src_address src with
  | Ok _ =>
    match from_message msg src with
    | Ok req =>
      let '(result, _, self) := handle resolve now req self in
      match result with
      | Ok resp =>
        match message resp with
        | Ok out => (Some out, self)
        | _ => (None, self)
        end
      | _ => (None, self)
      end
    | _ => (None, self)
    end
  | _ => (None, self)
  end.
End server.

(** ** Runs of the handler *)

Section runs.
Context `{P : DnsProto} {C : Type} `{!LruCache P C} `{!LruCacheOk P C}.
Context {St : Type} `{Entries St} `{Profile} {ResolveError : Type}.
Implicit Types self : Handler (C:=C) (St:=St).

(** [serves log self]: the handlers a handler with an empty cache becomes, with what the
    upstream resolver answered on the way, whatever resolver it is at each step. *)
Inductive serves : list (Query * list Record_) → Handler (C:=C) (St:=St) → Prop :=
  | serves_new size ttl hijacker reject :
      serves [] {| h_cache := Some (Cache_new size ttl); h_hijacker := hijacker;
                   h_reject := reject |}
  | serves_new_uncached hijacker reject :
      serves [] {| h_cache := None; h_hijacker := hijacker; h_reject := reject |}
  | serves_handle log self (resolve : Name → res ResolveError (list Record_)) now req r asked self' :
      serves log self → handle resolve now req self = (r, asked, self') →
      serves (log ++ match r, asked with
                     | Ok resp, true => [(rq_query req, rs_answers resp)]
                     | _, _ => []
                     end) self'.

(** The upstream has given these answers to the query, up to the case of its name. *)
Definition given (log : list (Query * list Record_)) (q : Query) (rs : list Record_) : Prop :=
  ∃ q', same_query q' q ∧ (q', rs) ∈ log.

Lemma given_mono log log' q rs : log ⊆ log' → given log q rs → given log' q rs.
Proof. intros Hl (q' & ? & ?). exists q'. split; [done|by apply Hl]. Qed.

(** Every cached entry is an answer of the upstream to the same query. *)
Definition cache_genuine (log : list (Query * list Record_)) (c : Cache (C:=C)) : Prop :=
  ∀ q e, peek (lru c) q = Some e → given log q (en_answers e).

Definition genuine (log : list (Query * list Record_)) self : Prop :=
  ∀ c, h_cache self = Some c → cache_genuine log c.

Lemma cache_genuine_mono log log' c :
  cache_genuine log c → cache_genuine (log ++ log') c.
Proof. intros Hc q e Hq. eapply given_mono; [|by apply Hc]. set_solver. Qed.

Lemma cache_get_peek now req c hit c' :
  cache_get now req c = (hit, c') →
  (∀ q e, peek (lru c') q = Some e → peek (lru c) q = Some e)
  ∧ (∀ resp, hit = Some resp → ∃ e, peek (lru c) (rq_query req) = Some e
       ∧ rs_answers resp = en_answers e ∧ expire_at e <= now ∧ rs_query resp = rq_query req
       ∧ rs_header resp = set_no_error (rq_header req)).
Proof.
  unfold cache_get. destruct (peek_get (rq_query req) (lru c)) as [Hf Hp].
  destruct (lru_get_mut (rq_query req) (lru c)) as [found l']. simpl in *.
  destruct found as [e|]; [destruct (Z.ltb_spec now (expire_at e))|]; intros; simplify_eq/=.
  - split; [|done]. intros q e'. rewrite peek_remove. case_decide; [done|]. by rewrite Hp.
  - split; [intros q e'; by rewrite Hp|]. intros resp [= <-]. exists e. by split_and!.
  - split; [intros q e'; by rewrite Hp|done].
Qed.

Lemma cache_put_peek now resp c q e :
  peek (lru (cache_put now resp c)) q = Some e →
  peek (lru c) q = Some e
  ∨ (same_query q (rs_query resp) ∧ en_answers e = rs_answers resp ∧ expire_at e = now + ttl c).
Proof.
  unfold cache_put. case_match; [by left|]. simpl.
  intros [[? ->]|[_ ?]]%peek_insert; [by right|by left].
Qed.

(** What the steps after the cache do, case by case. *)
Lemma handle_miss_spec (resolve : Name → res ResolveError (list Record_)) now req self r asked self' :
  handle_miss resolve now req self = (r, asked, self') →
  let name := query_name (rq_query req) in
  (∀ c', h_cache self' = Some c' → ∃ c, h_cache self = Some c
     ∧ ∀ q e, peek (lru c') q = Some e → peek (lru c) q = Some e
         ∨ ∃ resp, r = Ok resp ∧ asked = true ∧ same_query q (rq_query req) ∧ en_answers e = rs_answers resp)
  ∧ ∀ resp, r = Ok resp →
    rs_query resp = rq_query req ∧ rs_header resp = rq_header req
    ∧ ((∃ hj ip, asked = false ∧ h_hijacker self = Some hj
          ∧ hijacking (E:=ResolveError) hj name = Ok (Some ip)
          ∧ rs_answers resp = [from_rdata name 3600 ip])
       ∨ (∃ rj, asked = false ∧ h_reject self = Some rj
          ∧ deny (E:=ResolveError) rj name = Ok true ∧ rs_answers resp = [])
       ∨ (asked = true ∧ resolve name = Ok (rs_answers resp)
          ∧ (∀ hj, h_hijacker self = Some hj → hijacking (E:=ResolveError) hj name = Ok None)
          ∧ (∀ rj, h_reject self = Some rj → deny (E:=ResolveError) rj name = Ok false))).
Proof.
  intros Hh name. unfold handle_miss in Hh. fold name in Hh.
  destruct (match h_hijacker self with Some _ => _ | None => _ end) as [[to|]|e|] eqn:Hj;
    [| |injection Hh as <- <- <-; split; [by eauto|done]..].
  { injection Hh as <- <- <-. split; [by eauto|]. intros resp [= <-]. split_and!; [done..|]. left.
    destruct (h_hijacker self) as [hj|]; [|done]. by exists hj, to. }
  destruct (match h_reject self with Some _ => _ | None => _ end) as [[|]|e|] eqn:Hr;
    [| |injection Hh as <- <- <-; split; [by eauto|done]..].
  { injection Hh as <- <- <-. split; [by eauto|]. intros resp [= <-]. split_and!; [done..|]. right. left.
    destruct (h_reject self) as [rj|]; [|done]. by exists rj. }
  assert (∀ resp, upstream_resolve resolve req = Ok resp →
    rs_query resp = rq_query req ∧ rs_header resp = rq_header req
    ∧ resolve name = Ok (rs_answers resp)) as Hup.
  { intros resp (ips & Hips & [= <-])%bind_Ok. by split_and!. }
  assert ((∀ hj, h_hijacker self = Some hj → hijacking (E:=ResolveError) hj name = Ok None)
    ∧ (∀ rj, h_reject self = Some rj → deny (E:=ResolveError) rj name = Ok false)) as [Hn1 Hn2].
  { split; intros ? E; by rewrite E in *. }
  destruct (upstream_resolve resolve req) as [resp|e|] eqn:Hu.
  - destruct (Hup resp eq_refl) as (Hq & Hhd & Ha).
    assert (∀ resp', Ok (E:=ResolveError) resp = Ok resp' → rs_query resp' = rq_query req ∧
      rs_header resp' = rq_header req ∧ resolve name = Ok (rs_answers resp')) as Hup'
      by (intros ? [= <-]; by split_and!).
    destruct (h_cache self) as [c|] eqn:Ec; injection Hh as <- <- <-.
    + split.
      * intros c' [= <-]. exists c. split; [done|]. intros q e Hp.
        apply cache_put_peek in Hp as [Hp|(Hs & Hen & _)]; [by left|].
        right. exists resp. by rewrite <- Hq.
      * intros resp' E. destruct (Hup' _ E) as (? & ? & ?). split_and!; [done..|].
        right. right. by split_and!.
    + split; [intros c'; congruence|].
      intros resp' E. destruct (Hup' _ E) as (? & ? & ?). split_and!; [done..|].
      right. right. by split_and!.
  - destruct (h_cache self) eqn:Ec; injection Hh as <- <- <-; (split; [|done]);
      intros c' E; rewrite E in Ec; simplify_eq; eauto.
  - destruct (h_cache self) eqn:Ec; injection Hh as <- <- <-; (split; [|done]);
      intros c' E; rewrite E in Ec; simplify_eq; eauto.
Qed.

Lemma handle_genuine (resolve : Name → res ResolveError (list Record_)) now req self r asked self' log :
  genuine log self → handle resolve now req self = (r, asked, self') →
  genuine (log ++ match r, asked with
                  | Ok resp, true => [(rq_query req, rs_answers resp)]
                  | _, _ => []
                  end) self'.
Proof.
  intros Hg Hh.
  assert (∀ self0, genuine log self0 → handle_miss resolve now req self0 = (r, asked, self') →
    genuine (log ++ match r, asked with
                    | Ok resp, true => [(rq_query req, rs_answers resp)]
                    | _, _ => []
                    end) self') as Hmiss.
  { intros self0 Hg0 Hm c' Hc' q e Hp.
    destruct (handle_miss_spec resolve now req self0 r asked self' Hm) as [Hc _].
    destruct (Hc c' Hc') as (c & Hc0 & Hpeek).
    destruct (Hpeek q e Hp) as [Hp0|(resp & -> & -> & Hs & Hen)].
    - eapply given_mono; [|by apply (Hg0 c Hc0)]. set_solver.
    - exists (rq_query req). split; [by symmetry|]. rewrite Hen. set_solver. }
  unfold handle in Hh. destruct (h_cache self) as [c|] eqn:Ec; [|by eapply Hmiss].
  destruct (cache_get now req c) as [hit c'] eqn:Eg.
  destruct (cache_get_peek _ _ _ _ _ Eg) as [Hp _].
  assert (genuine log (set_cache (Some c') self)) as Hg'.
  { intros c0 [= <-] q e Hq. by apply (Hg c Ec), Hp. }
  destruct hit as [resp|]; [|by eapply Hmiss].
  injection Hh as <- <- <-. intros c0 Hc0. apply cache_genuine_mono. by apply Hg'.
Qed.

Lemma serves_genuine log self : serves log self → genuine log self.
Proof.
  induction 1 as [size t hj rj|hj rj|log self resolve now req r asked self' _ IH Hh].
  - intros c [= <-] q e Hq. simpl in Hq. by rewrite peek_new in Hq.
  - by intros c [=].
  - by eapply handle_genuine.
Qed.
End runs.

(** ** Properties *)

(** Every response is genuine.  In every state a handler can reach, a response is to
    the query that was asked, and its answers are those the upstream gave earlier to the
    same query (up to the case of its name), or the configured address for a name that the hijack rules match, or none
    for a name that the reject rules match, or what the upstream answers now, which is
    only asked when neither rule set matches the name. *)
Theorem responses_genuine `{P : DnsProto} {C St : Type} `{!LruCache P C} `{!LruCacheOk P C}
    `{Entries St} `{Profile} {ResolveError : Type} (log : list (Query * list Record_))
    (self : Handler (C:=C) (St:=St)) (resolve : Name → res ResolveError (list Record_))
    (now : Z) (req : Request P) (resp : Response P) (asked : bool) (self' : Handler)
    (Hself : serves (ResolveError:=ResolveError) log self)
    (Hh : handle resolve now req self = (Ok resp, asked, self')) :
  let name := query_name (rq_query req) in
  rs_query resp = rq_query req
  ∧ ((asked = false ∧ given log (rq_query req) (rs_answers resp))
     ∨ (∃ hj ip, asked = false ∧ h_hijacker self = Some hj
          ∧ hijacking (E:=ResolveError) hj name = Ok (Some ip)
          ∧ rs_answers resp = [from_rdata name 3600 ip])
     ∨ (∃ rj, asked = false ∧ h_reject self = Some rj
          ∧ deny (E:=ResolveError) rj name = Ok true ∧ rs_answers resp = [])
     ∨ (asked = true ∧ resolve name = Ok (rs_answers resp)
          ∧ (∀ hj, h_hijacker self = Some hj → hijacking (E:=ResolveError) hj name = Ok None)
          ∧ (∀ rj, h_reject self = Some rj → deny (E:=ResolveError) rj name = Ok false))).
Proof.
  intros name. apply serves_genuine in Hself. unfold handle in Hh.
  destruct (h_cache self) as [c|] eqn:Ec.
  - destruct (cache_get now req c) as [[resp0|] c'] eqn:Eg.
    + injection Hh as -> <- <-.
      destruct (cache_get_peek _ _ _ _ _ Eg) as [_ Hhit].
      destruct (Hhit resp eq_refl) as (e & Hp & -> & _ & Hq & _). split; [done|].
      left. split; [done|]. by apply (Hself c Ec).
    + destruct (handle_miss_spec resolve now req _ _ _ _ Hh) as [_ Hr].
      destruct (Hr resp eq_refl) as (Hq & _ & Hcases). split; [done|]. right. exact Hcases.
  - destruct (handle_miss_spec resolve now req _ _ _ _ Hh) as [_ Hr].
    destruct (Hr resp eq_refl) as (Hq & _ & Hcases). split; [done|]. right. exact Hcases.
Qed.

(** C39: the cache is used the wrong way round.  An answer that was stored is thrown away by
    every lookup before it expires, and is served by every lookup from then on. *)
Theorem cache_serves_only_expired `{P : DnsProto} {C : Type} `{!LruCache P C} `{!LruCacheOk P C}
    (c : Cache (C:=C)) (stored now : Z) (req : Request P) (resp : Response P)
    (Hquery : rs_query resp = rq_query req) (Hnew : peek (lru c) (rq_query req) = None)
    (Hkept : is_Some (peek (lru (cache_put stored resp c)) (rq_query req))) :
  let '(hit, c') := cache_get now req (cache_put stored resp c) in
  (now < stored + ttl c → hit = None ∧ peek (lru c') (rq_query req) = None)
  ∧ (stored + ttl c <= now → ∃ r, hit = Some r ∧ rs_answers r = rs_answers resp).
Proof.
  destruct Hkept as [e He]. pose proof He as He'.
  apply cache_put_peek in He' as [He'|(_ & Hen & Hex)]; [congruence|].
  set (c1 := cache_put stored resp c) in *. unfold cache_get.
  destruct (peek_get (rq_query req) (lru c1)) as [Hf Hp].
  destruct (lru_get_mut (rq_query req) (lru c1)) as [found l']. simpl in Hf, Hp.
  rewrite He in Hf. subst found. rewrite <- Hex.
  destruct (Z.ltb_spec now (expire_at e)) as [Hlt|Hge]; (split; [|]); intros ?; try lia.
  - split; [done|]. simpl. rewrite peek_remove. by rewrite decide_True by reflexivity.
  - eexists. split; [done|]. by simpl.
Qed.

(** A reply is only sent to an address that can be answered: the port is not zero, and
    the address is neither unspecified nor the IPv4 broadcast address. *)
Theorem reply_address_safe `{P : DnsProto} {C St : Type} `{!LruCache P C} `{Entries St} `{Profile}
    {ResolveError : Type} (resolve : Name → res ResolveError (list Record_)) (now : Z)
    (msg : bytes) (src : SocketAddr) (self self' : Handler (C:=C) (St:=St)) (out : bytes)
    (Hs : serve_message resolve now msg src self = (Some out, self')) :
  socket_port src ≠ 0
  ∧ match socket_ip src with
    | IpV4 ip => ip ≠ [0; 0; 0; 0] ∧ ip ≠ [255; 255; 255; 255]
    | IpV6 ip => ip ≠ replicate 8 0
    end.
Proof.
  unfold serve_message in Hs. destruct (sanitize_src_address src) as [u|e|] eqn:Hsan; try done.
  unfold sanitize_src_address in Hsan. apply bind_Ok in Hsan as (_ & Hp%fail_if_Ok & Hip).
  split; [by apply Z.eqb_neq|]. destruct (socket_ip src); unfold verify_v4, verify_v6 in Hip.
  - apply bind_Ok in Hip as (_ & H1%fail_if_Ok%bool_decide_eq_false & Hip).
    by apply bind_Ok in Hip as (_ & H2%fail_if_Ok%bool_decide_eq_false & _).
  - by apply bind_Ok in Hip as (_ & H1%fail_if_Ok%bool_decide_eq_false & _).
Qed.

(** ** The interfaces are inhabited *)

Module Toy.
Definition lower (b : Z) : Z := if (65 <=? b) && (b <=? 90) then b + 32 else b.
Definition lowers (q : list bytes) : list bytes := map (map lower) q.

Lemma lowers_equiv : Equivalence (λ q q' : list bytes, lowers q = lowers q').
Proof. split; [done|by intros ? ? ->|by intros ? ? ? -> ->]. Qed.

(** Headers are the number of queries, names lists of labels, records numbers. *)
Definition toy_proto : DnsProto := {|
  Header := nat; Query := list bytes; Record_ := Z; Edns := (); Name := list bytes;
  ProtoError := ();
  same_query q q' := lowers q = lowers q'; same_query_equiv := lowers_equiv;
  same_query_dec q q' := decide (lowers q = lowers q'); name_DnsName := labels_DnsName;
  query_name q := q;
  set_no_error h := h;
  merge_response_code _ h := h;
  query_count h := h;
  answer_count _ := 0%nat; name_server_count _ := 0%nat; additional_count _ := 0%nat;
  rcode_high _ := 0;
  bad_query_count _ := ();
  read_header m := match m with b :: m => Ok (Z.to_nat b, m) | [] => Err () end;
  read_query m := match m with b :: m => Ok ([[b]], m) | [] => Err () end;
  read_records m _ _ := Ok ([], None, [], m);
  from_rdata _ t _ := t;
  emit_message _ _ answers _ _ _ _ := Ok answers
|}.

Record assoc := { size : nat; items : list (@Query toy_proto * Entry toy_proto) }.

Fixpoint find_key (q : @Query toy_proto) (l : list (@Query toy_proto * Entry toy_proto))
  : option (Entry toy_proto) :=
  match l with
  | (q', e) :: l => if decide (lowers q' = lowers q) then Some e else find_key q l
  | [] => None
  end.
Definition drop_key (q : @Query toy_proto) (l : list (@Query toy_proto * Entry toy_proto)) :=
  filter (λ x, lowers x.1 ≠ lowers q) l.

Global Instance assoc_LruCache : LruCache toy_proto assoc := {|
  lru_new n := {| size := n; items := [] |};
  lru_get_mut q c :=
    match find_key q (items c) with
    | Some e => (Some e, {| size := size c; items := (q, e) :: drop_key q (items c) |})
    | None => (None, c)
    end;
  lru_remove q c := {| size := size c; items := drop_key q (items c) |};
  lru_contains_key q c := bool_decide (is_Some (find_key q (items c)));
  lru_insert q e c := {| size := size c; items := take (size c) ((q, e) :: drop_key q (items c)) |}
|}.

Lemma find_drop q q' l :
  find_key q' (drop_key q l) = if decide (lowers q' = lowers q) then None else find_key q' l.
Proof.
  unfold drop_key. induction l as [|[x e] l IH]; simpl; [by case_decide|].
  rewrite filter_cons. cbn [fst].
  destruct (decide (lowers x = lowers q)) as [Hx|Hx]; [rewrite decide_False by tauto|rewrite decide_True by done];
    cbn [find_key].
  - etransitivity; [exact IH|]. repeat case_decide; congruence.
  - destruct (decide (lowers x = lowers q')); [by rewrite decide_False by congruence|exact IH].
Qed.

Lemma find_same q q' l : lowers q = lowers q' → find_key q l = find_key q' l.
Proof. intros E. induction l as [|[x e] l IH]; simpl; [done|]. by rewrite E, IH. Qed.

Lemma find_take n q l e : find_key q (take n l) = Some e → find_key q l = Some e.
Proof.
  revert n. induction l as [|[x e'] l IH]; intros [|n]; simpl; try done.
  case_decide; [done|]. apply IH.
Qed.

Global Instance assoc_LruCacheOk : LruCacheOk toy_proto assoc.
Proof.
  refine {| peek (c : assoc) q := find_key q (items c) |}.
  - intros c q q' E. by apply find_same.
  - done.
  - intros q c. simpl. destruct (find_key q (items c)) as [e|] eqn:E; [|done]. split; [done|].
    intros q'. simpl. rewrite find_drop. repeat case_decide; try congruence.
    by rewrite <- (find_same q q').
  - intros q q' c. simpl. rewrite find_drop. done.
  - done.
  - intros q e c q' e' Hf. simpl in Hf. apply find_take in Hf. simpl in Hf.
    rewrite find_drop in Hf. repeat case_decide; simplify_eq; auto. left. split; [by symmetry|done].
Defined.
End Toy.

Module Demo.
Import Toy.
Abbreviation request q := ({| rq_header := (1%nat : @Header toy_proto); rq_query := q; rq_answers := [];
  rq_name_servers := []; rq_additionals := []; rq_sig0 := []; rq_edns := None;
  rq_src := V4 [10; 0; 0; 1] 5353 |} : Request toy_proto).
Definition name : @Query toy_proto := [[97]; Trie.Demo.com].
Definition resolver : @Name toy_proto → res () (list Z) := λ _, Ok [7].
Definition start : Handler (C:=assoc) (St:=gset bytes) :=
  {| h_cache := Some (Cache_new (P:=toy_proto) 10 60); h_hijacker := None;
     h_reject := Some {| rj_trie := from_rules Trie.Demo.rules |} |}.
Definition first := handle (H0:=dev) resolver 100 (request name) start.
Definition asked_once := first.2.

Lemma demo_serves :
  serves (P:=toy_proto) (H0:=dev) (ResolveError:=()) [(name, [7])] asked_once.
Proof.
  assert (handle (H0:=dev) resolver 100 (request name) start = (first.1.1, true, asked_once))
    as Hh by (vm_compute; reflexivity).
  exact (serves_handle (P:=toy_proto) (H0:=dev) [] start resolver 100 (request name) _ _ _
           (serves_new (P:=toy_proto) (H0:=dev) 10 60 _ _) Hh).
Qed.
End Demo.

Lemma responses_genuine_witness :
  ∃ resp, handle (H0:=dev) Demo.resolver 200 (Demo.request Demo.name) Demo.asked_once
          = (Ok resp, false, (handle (H0:=dev) Demo.resolver 200 (Demo.request Demo.name)
                                Demo.asked_once).2)
    ∧ rs_query resp = Demo.name.
Proof.
  eexists. split; [vm_compute; reflexivity|].
  refine (proj1 (responses_genuine (P:=Toy.toy_proto) (H0:=dev)
    [(Demo.name, [7])] Demo.asked_once Demo.resolver 200 (Demo.request Demo.name) _ _ _ _ _)).
  - exact Demo.demo_serves.
  - vm_compute. reflexivity.
Defined.

Lemma cache_serves_only_expired_witness :
  let req := Demo.request Demo.name in
  let resp := from_request req in
  let '(hit, c') := cache_get 130 req (cache_put 100 resp (Cache_new (P:=Toy.toy_proto) (C:=Toy.assoc) 10 60)) in
  (130 < 160 → hit = None ∧ peek (lru c') Demo.name = None)
  ∧ (160 <= 130 → ∃ r, hit = Some r ∧ rs_answers r = rs_answers resp).
Proof.
  apply (cache_serves_only_expired (P:=Toy.toy_proto) (Cache_new (P:=Toy.toy_proto) (C:=Toy.assoc) 10 60) 100 130
           (Demo.request Demo.name) (from_request (Demo.request Demo.name))).
  - reflexivity.
  - reflexivity.
  - eexists. vm_compute. reflexivity.
Defined.

Lemma reply_address_safe_witness :
  socket_port (V4 [10; 0; 0; 1] 5353) ≠ 0
  ∧ match socket_ip (V4 [10; 0; 0; 1] 5353) with
    | IpV4 ip => ip ≠ [0; 0; 0; 0] ∧ ip ≠ [255; 255; 255; 255]
    | IpV6 ip => ip ≠ replicate 8 0
    end.
Proof.
  apply (reply_address_safe (P:=Toy.toy_proto) (H0:=dev) Demo.resolver 100 [1; 97]
    (V4 [10; 0; 0; 1] 5353) Demo.start
    (serve_message (H0:=dev) Demo.resolver 100 [1; 97] (V4 [10; 0; 0; 1] 5353) Demo.start).2 [7]).
  vm_compute. reflexivity.
Defined.
