(* ===== verification/DnsServer.v ===== *)
(** * The DNS server and its tasks (dns/server/mod.rs, dns/handle/mod.rs)

    Every datagram and every TCP connection is served by a task of its own, and all tasks
    share one handler.  A task gives up the thread only while it waits for the next message
    of its connection or for the upstream resolver, so that the tasks interleave at these
    points: [handle] is split at the second into [handle_begin] and [handle_finish], and the
    server is a transition system over the tasks in flight.  Each half is one step: it takes
    the lock of the cache once, and loads each rule set once. *)

From stdpp Require Import gmap.
From S2P Require Import Prelude RustStr Io Address Resolver Trie Dns.

Section server.
Context `{P : DnsProto} {C : Type} `{!LruCache P C}.
Context {St : Type} `{Entries St} `{Profile} {ResolveError : Type}.

Abbreviation handler_t := (Handler (C:=C) (St:=St)).

(** ** Construction (handle/mod.rs [new], server/mod.rs [new])

    [http] is the exchange with an endpoint, from parsing its URI to the response of
    [HttpClient::get], its status and body. *)

Inductive RuleError :=
  | Http (e : Z) | UnexpectedStatusCode (code : Z) | RuleIo (e : ErrorKind) | InvalidUri (e : Z).

Inductive DnsError :=
  | Resolve (e : ResolveError) | InvalidIpAddress (e : Z)
  | RejectRules (e : RuleError) | HijackRules (e : RuleError).

Record CacheConfig := { cc_size : nat; cc_ttl : Z }.
Record RejectConfig := { rc_endpoint : bytes; rc_interval : option Z }.
Record HijackConfig := { hc_endpoint : bytes; hc_hijack : IpAddr; hc_interval : option Z }.

Definition rule_load (resp : res RuleError (Z * bytes)) : option (res RuleError (Trie St * Z)) :=
  match resp with
  | Ok (status, body) =>
    if negb (status =? 200) then Some (Err (UnexpectedStatusCode status))
    else map_err RuleIo <$> load body
  | Err e => Some (Err e)
  | Panic => Some Panic
  end.

Definition Reject_new (http : bytes → res RuleError (Z * bytes)) (config : RejectConfig)
  : option (res RuleError (Reject (St:=St))) :=
  loaded ← rule_load (http (rc_endpoint config));
  Some ('(trie, _) ← loaded; Ok {| rj_trie := trie |}).

Definition Hijack_new (http : bytes → res RuleError (Z * bytes)) (config : HijackConfig)
  : option (res RuleError (Hijack (St:=St))) :=
  loaded ← rule_load (http (hc_endpoint config));
  Some ('(trie, _) ← loaded; Ok {| hj_trie := trie; hijack := hc_hijack config |}).

(** [self.upstream] is the resolver the calls of [upstream_resolve] get; its construction
    can fail. *)
Definition Handler_new (http : bytes → res RuleError (Z * bytes)) (cache : option CacheConfig)
    (reject : option RejectConfig) (hijack : option HijackConfig) (upstream : res ResolveError ())
  : option (res DnsError handler_t) :=
  let cache := (λ c, Cache_new (cc_size c) (cc_ttl c)) <$> cache in
  reject ← match reject with
           | Some rc => r ← Reject_new http rc; Some (r ← map_err RejectRules r; Ok (Some r))
           | None => Some (Ok None)
           end;
  match reject with
  | Err e => Some (Err e)
  | Panic => Some Panic
  | Ok reject =>
    hijacker ← match hijack with
               | Some hc => r ← Hijack_new http hc; Some (r ← map_err HijackRules r; Ok (Some r))
               | None => Some (Ok None)
               end;
    Some (hijacker ← hijacker;
          _ ← map_err Resolve upstream;
          Ok {| h_cache := cache; h_hijacker := hijacker; h_reject := reject |})
  end.

(** ** The two halves of [Handler::handle] *)

(** The hijack and reject rules. *)
Definition handle_rules (req : Request P) (self : handler_t)
  : res ResolveError (option (Response P)) :=
  let name := query_name (rq_query req) in
  hijacked ← match h_hijacker self with
             | Some hijacker => hijacking hijacker name
             | None => Ok None
             end;
  match hijacked with
  | Some to => Ok (Some (push_answer (from_rdata name (60 * 60) to) (from_request req)))
  | None =>
    denied ← match h_reject self with
             | Some reject => deny reject name
             | None => Ok false
             end;
    Ok (if denied : bool then Some (no_records (rq_header req) (rq_query req)) else None)
  end.

(** Up to the question to the upstream, which [None] asks for. *)
Definition handle_begin (now : Z) (req : Request P) (self : handler_t)
  : res ResolveError (option (Response P)) * handler_t :=
  match h_cache self with
  | Some cache =>
    let '(hit, cache) := cache_get now req cache in
    let self := set_cache (Some cache) self in
    match hit with
    | Some resp => (Ok (Some resp), self)
    | None => (handle_rules req self, self)
    end
  | None => (handle_rules req self, self)
  end.

(** From the answer of the upstream on. *)
Definition handle_finish (now : Z) (result : res ResolveError (Response P)) (self : handler_t)
  : res ResolveError (Response P) * handler_t :=
  match result, h_cache self with
  | Ok resp, Some cache => (Ok resp, set_cache (Some (cache_put now resp cache)) self)
  | result, _ => (result, self)
  end.

(** ** Tasks *)

(** The task of a TCP connection: it waits for the next message, or for the upstream to
    answer a request, or has ended. *)
Inductive ConnState := Reading | Asked (req : Request P) | Closed.
Record Conn := { cn_src : SocketAddr; cn_state : ConnState }.

(** Datagram tasks that were spawned, those that wait for the upstream, the connections, and
    what was sent, in a datagram or over a connection. *)
Record Serving := {
  handler : handler_t;
  spawned : list (Request P);
  waiting : list (Request P);
  conns : list Conn;
  sent : list (SocketAddr * bytes)
}.

Definition start_serving (h : handler_t) : Serving :=
  {| handler := h; spawned := []; waiting := []; conns := []; sent := [] |}.

(** One turn of the loop of [serve_udp] on what the socket gives: an error of the socket
    ends the server, a datagram that cannot be answered or read is dropped. *)
Definition udp_turn (next : res ErrorKind (bytes * SocketAddr)) (s : Serving) : res ErrorKind Serving :=
  '(msg, src) ← next;
  match sanitize_src_address src with
  | Ok _ =>
    match from_message msg src with
    | Ok req =>
      Ok {| handler := handler s; spawned := spawned s ++ [req]; waiting := waiting s;
            conns := conns s; sent := sent s |}
    | Err _ => Ok s
    | Panic => Panic
    end
  | _ => Ok s
  end.

(** [resp.message(src)] and [sender.send(msg)]; what cannot be encoded is not sent. *)
Definition reply (src : SocketAddr) (result : res ResolveError (Response P))
    (out : list (SocketAddr * bytes)) : list (SocketAddr * bytes) :=
  match result with
  | Ok resp =>
    match message resp with
    | Ok msg => out ++ [(src, msg)]
    | _ => out
    end
  | _ => out
  end.

(** The first half of the task at position [i]. *)
Definition begin_task (now : Z) (i : nat) (s : Serving) : Serving :=
  match spawned s !! i with
  | None => s
  | Some req =>
    let '(r, h) := handle_begin now req (handler s) in
    match r with
    | Ok None =>
      {| handler := h; spawned := delete i (spawned s); waiting := waiting s ++ [req];
         conns := conns s; sent := sent s |}
    | Ok (Some resp) =>
      {| handler := h; spawned := delete i (spawned s); waiting := waiting s;
         conns := conns s; sent := reply (rq_src req) (Ok resp) (sent s) |}
    | _ =>
      {| handler := h; spawned := delete i (spawned s); waiting := waiting s; conns := conns s;
         sent := sent s |}
    end
  end.

(** The second half, when the upstream has answered the question. *)
Definition finish_task (now : Z) (i : nat) (resolve : Name → res ResolveError (list Record_))
    (s : Serving) : Serving :=
  match waiting s !! i with
  | None => s
  | Some req =>
    let '(r, h) := handle_finish now (upstream_resolve resolve req) (handler s) in
    {| handler := h; spawned := spawned s; waiting := delete i (waiting s);
       conns := conns s; sent := reply (rq_src req) r (sent s) |}
  end.

(** ** TCP connections *)

(** One turn of the loop of [serve_tcp]: an error of the listener ends the server, a
    connection from an address that cannot be answered is dropped. *)
Definition tcp_turn (next : res ErrorKind SocketAddr) (s : Serving) : res ErrorKind Serving :=
  src ← next;
  match sanitize_src_address src with
  | Ok _ =>
    Ok {| handler := handler s; spawned := spawned s; waiting := waiting s;
          conns := conns s ++ [{| cn_src := src; cn_state := Reading |}]; sent := sent s |}
  | _ => Ok s
  end.

Definition set_conn (i : nat) (src : SocketAddr) (st : ConnState) (h : handler_t)
    (out : list (SocketAddr * bytes)) (s : Serving) : Serving :=
  {| handler := h; spawned := spawned s; waiting := waiting s;
     conns := <[i:={| cn_src := src; cn_state := st |}]> (conns s); sent := out |}.

(** What comes of a request of the connection: a response that cannot be encoded or sent
    ends the task, an error of the handler does not. *)
Definition conn_reply (i : nat) (src : SocketAddr) (result : res ResolveError (Response P))
    (sendable : bool) (h : handler_t) (s : Serving) : Serving :=
  match result with
  | Ok resp =>
    match message resp with
    | Ok msg =>
      if sendable then set_conn i src Reading h (sent s ++ [(src, msg)]) s
      else set_conn i src Closed h (sent s) s
    | _ => set_conn i src Closed h (sent s) s
    end
  | Err _ => set_conn i src Reading h (sent s) s
  | Panic => set_conn i src Closed h (sent s) s
  end.

(** The next item of the stream of messages of the connection at position [i], [None] at its
    end, up to the question to the upstream. *)
Definition tcp_read (now : Z) (i : nat) (item : option (res ErrorKind bytes)) (sendable : bool)
    (s : Serving) : Serving :=
  match conns s !! i with
  | Some {| cn_src := src; cn_state := Reading |} =>
    match item with
    | Some (Ok msg) =>
      match from_message msg src with
      | Ok req =>
        let '(r, h) := handle_begin now req (handler s) in
        match r with
        | Ok None => set_conn i src (Asked req) h (sent s) s
        | Ok (Some resp) => conn_reply i src (Ok resp) sendable h s
        | Err e => conn_reply i src (Err e) sendable h s
        | Panic => conn_reply i src Panic sendable h s
        end
      | Err _ => s
      | Panic => set_conn i src Closed (handler s) (sent s) s
      end
    | _ => set_conn i src Closed (handler s) (sent s) s
    end
  | _ => s
  end.

(** The upstream has answered the question of a connection. *)
Definition tcp_finish (now : Z) (i : nat) (resolve : Name → res ResolveError (list Record_))
    (sendable : bool) (s : Serving) : Serving :=
  match conns s !! i with
  | Some {| cn_src := src; cn_state := Asked req |} =>
    let '(r, h) := handle_finish now (upstream_resolve resolve req) (handler s) in
    conn_reply i src r sendable h s
  | _ => s
  end.

(** A connection alone, from its first message to its last. *)

(** What the connection gives to its task: an item of the stream of messages, with the time
    and the resolver when it is handled and whether the reply can be sent. *)
Record TcpItem := {
  ti_msg : res ErrorKind bytes;
  ti_now : Z;
  ti_resolve : Name → res ResolveError (list Record_);
  ti_sendable : bool
}.

(** The loop of the task that [serve_tcp] spawns: an error of the stream, a response that
    cannot be encoded and a reply that cannot be sent end it, a message that cannot be read
    and an error of the handler do not. *)
Fixpoint tcp_session (src : SocketAddr) (items : list TcpItem) (self : handler_t)
  : list bytes * handler_t :=
  match items with
  | [] => ([], self)
  | it :: items =>
    match ti_msg it with
    | Ok msg =>
      match from_message msg src with
      | Ok req =>
        let '(result, _, self) := handle (ti_resolve it) (ti_now it) req self in
        match result with
        | Ok resp =>
          match message resp with
          | Ok msg =>
            if ti_sendable it then
              let '(out, self) := tcp_session src items self in (msg :: out, self)
            else ([], self)
          | _ => ([], self)
          end
        | Err _ => tcp_session src items self
        | Panic => ([], self)
        end
      | Err _ => tcp_session src items self
      | Panic => ([], self)
      end
    | _ => ([], self)
    end
  end.

Definition tcp_accept (src : SocketAddr) (items : list TcpItem) (self : handler_t)
  : list bytes * handler_t :=
  match sanitize_src_address src with
  | Ok _ => tcp_session src items self
  | _ => ([], self)
  end.

Definition reload_hijack {E} (loaded : res E (Trie St * Z)) (s : Serving) : Serving :=
  {| handler := {| h_cache := h_cache (handler s);
                   h_hijacker := hijack_reload loaded <$> h_hijacker (handler s);
                   h_reject := h_reject (handler s) |};
     spawned := spawned s; waiting := waiting s; conns := conns s; sent := sent s |}.
Definition reload_reject {E} (loaded : res E (Trie St * Z)) (s : Serving) : Serving :=
  {| handler := {| h_cache := h_cache (handler s); h_hijacker := h_hijacker (handler s);
                   h_reject := reject_reload loaded <$> h_reject (handler s) |};
     spawned := spawned s; waiting := waiting s; conns := conns s; sent := sent s |}.

(** A task that is not interrupted does what [handle] does. *)
Lemma handle_phases (resolve : Name → res ResolveError (list Record_)) now req (self : handler_t) :
  handle resolve now req self
  = match handle_begin now req self with
    | (Ok (Some resp), self) => (Ok resp, false, self)
    | (Ok None, self) =>
      let '(r, self) := handle_finish now (upstream_resolve resolve req) self in (r, true, self)
    | (Err e, self) => (Err e, false, self)
    | (Panic, self) => (Panic, false, self)
    end.
Proof.
  assert (∀ self : handler_t, handle_miss resolve now req self
    = match handle_rules req self with
      | Ok (Some resp) => (Ok resp, false, self)
      | Ok None =>
        let '(r, self) := handle_finish now (upstream_resolve resolve req) self in (r, true, self)
      | Err e => (Err e, false, self)
      | Panic => (Panic, false, self)
      end) as Hm.
  { intros self0. unfold handle_miss, handle_rules, handle_finish.
    destruct (match h_hijacker self0 with Some _ => _ | None => _ end) as [[to|]| |]; try done.
    cbn [mbind res_bind].
    destruct (match h_reject self0 with Some _ => _ | None => _ end) as [[|]| |]; try done.
    cbn [mbind res_bind]. destruct (upstream_resolve resolve req), (h_cache self0); done. }
  unfold handle, handle_begin. destruct (h_cache self) as [c|].
  - destruct (cache_get now req c) as [[resp|] c']; [done|]. rewrite Hm.
    by destruct (handle_rules req _) as [[resp|]| |].
  - rewrite Hm. by destruct (handle_rules req _) as [[resp|]| |].
Qed.

(** A connection answers its messages in their order: its replies are those that
    [serve_message] gives to its first items one after another, and it stops early only at
    a message that gets no reply or whose reply cannot be sent. *)
Fixpoint serve_all (src : SocketAddr) (items : list TcpItem) (self : handler_t)
  : list bytes * handler_t :=
  match items with
  | [] => ([], self)
  | it :: items =>
    match ti_msg it with
    | Ok msg =>
      let '(o, self) := serve_message (ti_resolve it) (ti_now it) msg src self in
      let '(out, self) := serve_all src items self in (option_list o ++ out, self)
    | _ => ([], self)
    end
  end.

Lemma tcp_accept_in_order src items self :
  ∃ n, (tcp_accept src items self).1 `prefix_of` (serve_all src (take n items) self).1
    ∧ (tcp_accept src items self).2 = (serve_all src (take n items) self).2
    ∧ (Forall (λ it, ti_sendable it = true) items →
       (tcp_accept src items self).1 = (serve_all src (take n items) self).1).
Proof.
  unfold tcp_accept. destruct (sanitize_src_address src) as [u| |] eqn:Hs; [|by exists 0%nat..].
  revert self. induction items as [|it items IH]; intros self; [by exists 0%nat|].
  destruct (ti_msg it) as [msg| |] eqn:Hm; cycle 1.
  1,2: exists 0%nat; simpl; by rewrite Hm.
  assert (∀ n, (serve_all src (take (S n) (it :: items)) self)
    = let '(o, self') := serve_message (ti_resolve it) (ti_now it) msg src self in
      let '(out, self'') := serve_all src (take n items) self' in (option_list o ++ out, self'')) as Hall
    by (intros n; simpl; by rewrite Hm).
  cbn [tcp_session]. rewrite Hm. unfold serve_message in Hall. rewrite Hs in Hall.
  destruct (from_message msg src) as [req| |].
  2:{ destruct (IH self) as (n & H1 & H2 & H3). exists (S n). rewrite Hall.
      destruct (serve_all src (take n items) self). split_and!; try done. by intros ?%Forall_inv_tail%H3. }
  2:{ exists 1%nat. rewrite Hall. by rewrite take_0. }
  destruct (handle (ti_resolve it) (ti_now it) req self) as [[r a] self'].
  destruct r as [resp|e|].
  2:{ destruct (IH self') as (n & H1 & H2 & H3). exists (S n). rewrite Hall.
      destruct (serve_all src (take n items) self'). split_and!; try done. by intros ?%Forall_inv_tail%H3. }
  2:{ exists 1%nat. rewrite Hall. by rewrite take_0. }
  destruct (message resp) as [out| |]; [|by exists 1%nat; rewrite Hall, take_0..].
  destruct (ti_sendable it) eqn:Ht.
  - destruct (IH self') as (n & H1 & H2 & H3). exists (S n). rewrite Hall.
    destruct (serve_all src (take n items) self'), (tcp_session src items self') as [outs ?].
    simpl in *. split_and!; [by apply prefix_cons|done|].
    intros ?%Forall_inv_tail. f_equal. auto.
  - exists 1%nat. rewrite Hall, take_0. simpl. split_and!; [apply prefix_nil|done|].
    intros ?%Forall_inv. congruence.
Qed.

(** What the server does for a connection alone is [tcp_session]. *)
Definition tcp_item (i : nat) (s : Serving) (it : TcpItem) : Serving :=
  tcp_finish (ti_now it) i (ti_resolve it) (ti_sendable it)
    (tcp_read (ti_now it) i (Some (ti_msg it)) (ti_sendable it) s).

Lemma set_conn_at i src st h out s c : conns s !! i = Some c →
  conns (set_conn i src st h out s) !! i = Some {| cn_src := src; cn_state := st |}.
Proof. intros Hi. simpl. by rewrite list_lookup_insert_eq by (by eapply lookup_lt_Some). Qed.

Lemma tcp_finish_idle now i resolve ok s src st : conns s !! i = Some {| cn_src := src; cn_state := st |} →
  (st = Reading ∨ st = Closed) → tcp_finish now i resolve ok s = s.
Proof. unfold tcp_finish. intros ->. by intros [-> | ->]. Qed.

Lemma closed_alone src i items s : conns s !! i = Some {| cn_src := src; cn_state := Closed |} →
  foldl (tcp_item i) s items = s.
Proof.
  intros Hi. induction items as [|it items IH]; [done|]. simpl. unfold tcp_item at 2, tcp_read. rewrite Hi.
  by rewrite (tcp_finish_idle _ _ _ _ _ src Closed Hi) by (by right).
Qed.

(** One message of a connection alone: [handle], and its reply. *)
Lemma tcp_item_handle i s it src msg req : conns s !! i = Some {| cn_src := src; cn_state := Reading |} →
  ti_msg it = Ok msg → from_message msg src = Ok req →
  let '(r, _, h) := handle (ti_resolve it) (ti_now it) req (handler s) in
  ∃ s0, handler s0 = handler s0 ∧ conns s0 !! i ≠ None ∧ sent s0 = sent s
    ∧ tcp_item i s it = conn_reply i src r (ti_sendable it) h s0.
Proof.
  intros Hi Hm Hreq. rewrite handle_phases. unfold tcp_item, tcp_read. rewrite Hi, Hm, Hreq.
  assert (∀ r h, tcp_finish (ti_now it) i (ti_resolve it) (ti_sendable it) (conn_reply i src r (ti_sendable it) h s)
    = conn_reply i src r (ti_sendable it) h s) as Hdone.
  { intros r h. unfold conn_reply. destruct r as [resp|e|]; [destruct (message resp); [destruct (ti_sendable it)|..]|..];
      eapply tcp_finish_idle; try (by eapply set_conn_at); auto. }
  destruct (handle_begin (ti_now it) req (handler s)) as [[[resp|]|e|] h] eqn:Hb;
    try (exists s; rewrite Hi, Hdone; by split_and!).
  destruct (handle_finish (ti_now it) (upstream_resolve (ti_resolve it) req) h) as [r h'] eqn:Hf.
  exists (set_conn i src (Asked req) h (sent s) s). rewrite (set_conn_at _ _ _ _ _ _ _ Hi). split_and!; [done..|].
  unfold tcp_finish. rewrite (set_conn_at _ _ _ _ _ _ _ Hi). cbn [handler set_conn]. by rewrite Hf.
Qed.

Lemma session_alone src i items s : conns s !! i = Some {| cn_src := src; cn_state := Reading |} →
  let '(out, h) := tcp_session src items (handler s) in
  handler (foldl (tcp_item i) s items) = h
  ∧ sent (foldl (tcp_item i) s items) = sent s ++ ((λ m, (src, m)) <$> out).
Proof.
  revert s. induction items as [|it items IH]; intros s Hi; [simpl; by rewrite app_nil_r|].
  assert (∀ s' h, conns s' !! i = Some {| cn_src := src; cn_state := Closed |} → handler s' = h → sent s' = sent s →
    handler (foldl (tcp_item i) s' items) = h ∧ sent (foldl (tcp_item i) s' items) = sent s ++ []) as Hclosed.
  { intros s' h Hi' <- Hs'. by rewrite (closed_alone src i items s' Hi'), app_nil_r. }
  assert (∀ s' out h o, conns s' !! i = Some {| cn_src := src; cn_state := Reading |} →
    tcp_session src items (handler s') = (out, h) → sent s' = sent s ++ ((λ m, (src, m)) <$> o) →
    handler (foldl (tcp_item i) s' items) = h
    ∧ sent (foldl (tcp_item i) s' items) = sent s ++ ((λ m, (src, m)) <$> (o ++ out))) as Hgo.
  { intros s' out h o Hi' Ht Hs'. specialize (IH s' Hi'). rewrite Ht in IH. destruct IH as [-> ->].
    by rewrite Hs', fmap_app, app_assoc. }
  cbn [tcp_session foldl]. destruct (ti_msg it) as [msg| |] eqn:Hm; cycle 1.
  1,2: apply Hclosed; unfold tcp_item, tcp_read; rewrite Hi, Hm;
    rewrite (tcp_finish_idle _ _ _ _ _ src Closed (set_conn_at _ _ _ _ _ _ _ Hi)) by (by right);
    [by eapply set_conn_at|done|done].
  destruct (from_message msg src) as [req|e|] eqn:Hreq; cycle 1.
  { assert (tcp_item i s it = s) as ->.
    { unfold tcp_item, tcp_read. rewrite Hi, Hm, Hreq. by apply (tcp_finish_idle _ _ _ _ _ src Reading Hi); left. }
    destruct (tcp_session src items (handler s)) as [out h] eqn:Ht. by apply (Hgo s out h []); [| |rewrite app_nil_r]. }
  { apply Hclosed; unfold tcp_item, tcp_read; rewrite Hi, Hm, Hreq;
      rewrite (tcp_finish_idle _ _ _ _ _ src Closed (set_conn_at _ _ _ _ _ _ _ Hi)) by (by right);
      [by eapply set_conn_at|done|done]. }
  pose proof (tcp_item_handle i s it src msg req Hi Hm Hreq) as Hstep.
  destruct (handle (ti_resolve it) (ti_now it) req (handler s)) as [[r asked] h].
  destruct Hstep as (s0 & _ & [c0 Hc0]%not_eq_None_Some & Hs0 & ->). unfold conn_reply.
  destruct r as [resp|e|]; [destruct (message resp) as [m| |]; [destruct (ti_sendable it)|..]|..];
    try (apply Hclosed; [by eapply set_conn_at|done|by simpl]).
  - destruct (tcp_session src items h) as [out h'] eqn:Ht. apply (Hgo _ out h' [m]); [by eapply set_conn_at|done|].
    simpl. by rewrite Hs0.
  - destruct (tcp_session src items h) as [out h'] eqn:Ht. apply (Hgo _ out h' []); [by eapply set_conn_at|done|].
    simpl. by rewrite Hs0, app_nil_r.
Qed.
End server.

(** ** What the server may send *)

Section runs.
Context `{P : DnsProto} {C : Type} `{!LruCache P C} `{!LruCacheOk P C}.
Context {St : Type} `{Entries St} `{Profile} {ResolveError : Type}.
Implicit Types (s : Serving (P:=P) (C:=C) (St:=St)) (self : Handler (C:=C) (St:=St)).

(** What a run has seen: the answers of the upstream, and the rules that were in force. *)
Record Seen := {
  answered : list (Query * list Record_);
  hijackers : list (Hijack (St:=St));
  rejecters : list (Reject (St:=St))
}.
Definition in_force (self : Handler (C:=C) (St:=St)) (seen : Seen) : Seen :=
  {| answered := answered seen;
     hijackers := option_list (h_hijacker self) ++ hijackers seen;
     rejecters := option_list (h_reject self) ++ rejecters seen |}.
Definition learn (q : Query) (r : res ResolveError (list Record_)) (seen : Seen) : Seen :=
  {| answered := match r with Ok rs => (q, rs) :: answered seen | _ => answered seen end;
     hijackers := hijackers seen; rejecters := rejecters seen |}.

Definition nothing : Seen := {| answered := []; hijackers := []; rejecters := [] |}.

(** The states of a server, with the tasks of its datagrams and connections interleaved in
    any way, any answers and errors of the upstream, and rules that are reloaded at any
    time. *)
Inductive running : Seen → Serving → Prop :=
  | run_new http cache reject hijack upstream h :
      Handler_new (ResolveError:=ResolveError) http cache reject hijack upstream = Some (Ok h) →
      running (in_force h nothing) (start_serving h)
  | run_recv seen s next s' :
      running seen s → udp_turn next s = Ok s' → running seen s'
  | run_begin seen s now i :
      running seen s → running seen (begin_task (ResolveError:=ResolveError) now i s)
  | run_finish seen s now i req (resolve : Name → res ResolveError (list Record_)) :
      running seen s → waiting s !! i = Some req →
      running (learn (rq_query req) (resolve (query_name (rq_query req))) seen)
              (finish_task now i resolve s)
  | run_accept seen s next s' :
      running seen s → tcp_turn next s = Ok s' → running seen s'
  | run_read seen s now i item sendable :
      running seen s → running seen (tcp_read (ResolveError:=ResolveError) now i item sendable s)
  | run_answer seen s now i src req (resolve : Name → res ResolveError (list Record_)) sendable :
      running seen s → conns s !! i = Some {| cn_src := src; cn_state := Asked req |} →
      running (learn (rq_query req) (resolve (query_name (rq_query req))) seen)
              (tcp_finish now i resolve sendable s)
  | run_hijack {E} seen s (loaded : res E (Trie St * Z)) :
      running seen s →
      running (in_force (handler (reload_hijack loaded s)) seen) (reload_hijack loaded s)
  | run_reject {E} seen s (loaded : res E (Trie St * Z)) :
      running seen s →
      running (in_force (handler (reload_reject loaded s)) seen) (reload_reject loaded s).

(** A request that was read from a message whose source can be answered. *)
Definition received (req : Request P) : Prop :=
  sanitize_src_address (rq_src req) = Ok () ∧ ∃ msg, from_message msg (rq_src req) = Ok req.

(** A response that answers a request from what the run has seen. *)
Definition answers (seen : Seen) (req : Request P) (resp : Response P) : Prop :=
  let name := query_name (rq_query req) in
  rs_query resp = rq_query req
  ∧ (given (answered seen) (rq_query req) (rs_answers resp)
     ∨ (∃ hj ip, hj ∈ hijackers seen ∧ hijacking (E:=ResolveError) hj name = Ok (Some ip)
          ∧ rs_answers resp = [from_rdata name 3600 ip])
     ∨ (∃ rj, rj ∈ rejecters seen ∧ deny (E:=ResolveError) rj name = Ok true
          ∧ rs_answers resp = [])).

Definition genuine_reply (seen : Seen) (o : SocketAddr * bytes) : Prop :=
  ∃ req resp, received req ∧ rq_src req = o.1 ∧ answers seen req resp ∧ message resp = Ok o.2.

(** A connection from an address that can be answered; the request it asks about is its own. *)
Definition conn_ok (c : Conn (P:=P)) : Prop :=
  sanitize_src_address (cn_src c) = Ok ()
  ∧ match cn_state c with Asked req => received req ∧ rq_src req = cn_src c | _ => True end.

Record server_ok (seen : Seen) s : Prop := {
  ok_cache : genuine (answered seen) (handler s);
  ok_hijack : ∀ hj, h_hijacker (handler s) = Some hj → hj ∈ hijackers seen;
  ok_reject : ∀ rj, h_reject (handler s) = Some rj → rj ∈ rejecters seen;
  ok_spawned : Forall received (spawned s);
  ok_waiting : Forall received (waiting s);
  ok_conns : Forall conn_ok (conns s);
  ok_sent : Forall (genuine_reply seen) (sent s)
}.

(** What was seen stays seen. *)
Definition grows (seen seen' : Seen) : Prop :=
  answered seen ⊆ answered seen' ∧ hijackers seen ⊆ hijackers seen' ∧ rejecters seen ⊆ rejecters seen'.

Lemma genuine_reply_mono seen seen' o : grows seen seen' → genuine_reply seen o → genuine_reply seen' o.
Proof.
  intros (H1 & H2 & H3) (req & resp & Hr & Ho & [Hq Ha] & Hm). exists req, resp.
  split_and!; [done..| |done]. split; [done|].
  destruct Ha as [Ha|Ha]; [left; by eapply given_mono|right; naive_solver].
Qed.

Lemma sent_mono seen seen' out :
  grows seen seen' → Forall (genuine_reply seen) out → Forall (genuine_reply seen') out.
Proof. intros Hg. apply Forall_impl. intros o. by apply genuine_reply_mono. Qed.

Lemma grows_in_force self seen : grows seen (in_force self seen).
Proof. split_and!; simpl; set_solver. Qed.
Lemma grows_learn q r seen : grows seen (learn q r seen).
Proof. split_and!; simpl; destruct r; set_solver. Qed.

(** Sending a genuine response. *)
Lemma reply_genuine seen req (r : res ResolveError (Response P)) out :
  received req → (∀ resp, r = Ok resp → answers seen req resp) →
  Forall (genuine_reply seen) out → Forall (genuine_reply seen) (reply (rq_src req) r out).
Proof.
  intros Hr Ha Ho. unfold reply. destruct r as [resp| |]; try done.
  destruct (message resp) as [msg| |] eqn:Hm; try done.
  apply Forall_app. split; [done|]. constructor; [|constructor].
  exists req, resp. split_and!; try done. by apply Ha.
Qed.

(** The rules in force answer for themselves. *)
Lemma handle_rules_answers seen req self resp :
  (∀ hj, h_hijacker self = Some hj → hj ∈ hijackers seen) →
  (∀ rj, h_reject self = Some rj → rj ∈ rejecters seen) →
  handle_rules (ResolveError:=ResolveError) req self = Ok (Some resp) → answers seen req resp.
Proof.
  intros Hj Hr. unfold handle_rules. intros (hijacked & H1 & H2)%bind_Ok.
  destruct hijacked as [to|].
  - injection H2 as <-. split; [done|]. right. left.
    destruct (h_hijacker self) as [hj|] eqn:E; [|done].
    exists hj, to. split_and!; [by apply Hj|done|done].
  - apply bind_Ok in H2 as (denied & H2 & H3).
    destruct denied; [|done]. injection H3 as <-. split; [done|]. right. right.
    destruct (h_reject self) as [rj|] eqn:E; [|done].
    exists rj. split_and!; [by apply Hr|done|done].
Qed.

Lemma handle_begin_ok seen now req self r self' :
  genuine (answered seen) self →
  (∀ hj, h_hijacker self = Some hj → hj ∈ hijackers seen) →
  (∀ rj, h_reject self = Some rj → rj ∈ rejecters seen) →
  handle_begin (ResolveError:=ResolveError) now req self = (r, self') →
  genuine (answered seen) self'
  ∧ h_hijacker self' = h_hijacker self ∧ h_reject self' = h_reject self
  ∧ ∀ resp, r = Ok (Some resp) → answers seen req resp.
Proof.
  intros Hg Hj Hr. unfold handle_begin. destruct (h_cache self) as [c|] eqn:Ec.
  2:{ intros [= <- <-]. split_and!; [done..|]. intros resp. by apply handle_rules_answers. }
  destruct (cache_get now req c) as [hit c'] eqn:Eg.
  destruct (cache_get_peek _ _ _ _ _ Eg) as [Hp Hhit].
  assert (genuine (answered seen) (set_cache (Some c') self)) as Hg'.
  { intros c0 [= <-] q e Hq. by apply (Hg c Ec), Hp. }
  destruct hit as [resp0|]; intros [= <- <-]; split_and!; try done.
  - intros resp [= <-]. destruct (Hhit resp0 eq_refl) as (e & Hpk & Ha & _ & Hq & _).
    split; [done|]. left. rewrite Ha. by apply (Hg c Ec).
  - intros resp. by apply handle_rules_answers.
Qed.

Lemma genuine_grows seen seen' self :
  grows seen seen' → genuine (answered seen) self → genuine (answered seen') self.
Proof. intros (Ha & _) Hg c Hc q e Hp. eapply given_mono; [done|by apply (Hg c Hc)]. Qed.

(** What the upstream answers is sent, and stored, as learnt. *)
Lemma handle_finish_ok seen now req (resolve : Name → res ResolveError (list Record_)) self r self' :
  let seen' := learn (rq_query req) (resolve (query_name (rq_query req))) seen in
  genuine (answered seen) self →
  handle_finish now (upstream_resolve resolve req) self = (r, self') →
  genuine (answered seen') self'
  ∧ h_hijacker self' = h_hijacker self ∧ h_reject self' = h_reject self
  ∧ ∀ resp, r = Ok resp → answers seen' req resp.
Proof.
  intros seen' Hg Hf.
  assert (∀ resp, upstream_resolve resolve req = Ok resp → rs_query resp = rq_query req
    ∧ given (answered seen') (rq_query req) (rs_answers resp)) as Hup.
  { intros resp (ips & Hips & [= <-])%bind_Ok. split; [done|]. exists (rq_query req). split; [done|].
    unfold seen', learn. rewrite Hips. by left. }
  apply (genuine_grows _ seen') in Hg; [|apply grows_learn].
  assert (r = upstream_resolve resolve req) as ->.
  { unfold handle_finish in Hf. by destruct (upstream_resolve resolve req), (h_cache self); simplify_eq. }
  split_and!.
  - intros c' Hc' q e Hp. unfold handle_finish in Hf.
    destruct (upstream_resolve resolve req) as [resp| |], (h_cache self) as [c|] eqn:Ec;
      simplify_eq/=; try by apply (Hg c').
    destruct (Hup resp eq_refl) as [Hq Ha].
    apply cache_put_peek in Hp as [Hp|(Hs & Hen & _)]; [by apply (Hg c)|].
    rewrite Hen. destruct Ha as (q' & Hq' & Ha). exists q'. split; [|done]. etransitivity; [exact Hq'|].
    symmetry. by rewrite <- Hq.
  - unfold handle_finish in Hf. by destruct (upstream_resolve resolve req), (h_cache self); simplify_eq.
  - unfold handle_finish in Hf. by destruct (upstream_resolve resolve req), (h_cache self); simplify_eq.
  - intros resp Hr. destruct (Hup resp Hr) as [Hq Ha]. split; [done|]. by left.
Qed.

(** ** The invariant *)

Lemma from_message_src msg src (req : Request P) : from_message msg src = Ok req → rq_src req = src.
Proof.
  unfold from_message. intros ([h d] & _ & Hm)%bind_Ok. apply bind_Ok in Hm as (_ & _ & Hm).
  apply bind_Ok in Hm as ([qs d1] & _ & Hm). apply bind_Ok in Hm as ([[[an ?] ?] d2] & _ & Hm).
  apply bind_Ok in Hm as ([[[ns ?] ?] d3] & _ & Hm). apply bind_Ok in Hm as ([[[ad ?] ?] d4] & _ & Hm).
  by apply bind_Ok in Hm as (q & _ & [= <-]).
Qed.

(** A handler starts with an empty cache. *)
Lemma Handler_new_genuine http cache reject hijack upstream h :
  Handler_new (ResolveError:=ResolveError) http cache reject hijack upstream = Some (Ok h) →
  genuine [] h.
Proof.
  unfold Handler_new. intros (rj & _ & Hh)%bind_Some. destruct rj as [rj| |]; try done.
  apply bind_Some in Hh as (hj & _ & [= Hh]). apply bind_Ok in Hh as (hj' & _ & Hh).
  apply bind_Ok in Hh as (_ & _ & [= <-]). intros c Hc q e Hp. simpl in Hc.
  apply fmap_Some in Hc as (cc & _ & ->). simpl in Hp. by rewrite peek_new in Hp.
Qed.

Lemma server_ok_new h : genuine [] h → server_ok (in_force h nothing) (start_serving h).
Proof.
  intros Hg. split; simpl; try done.
  - intros hj ->. set_solver.
  - intros rj ->. set_solver.
Qed.

Lemma server_ok_recv seen s next s' :
  udp_turn next s = Ok s' → server_ok seen s → server_ok seen s'.
Proof.
  intros Ht [? ? ? Hsp ? ? ?]. unfold udp_turn in Ht. apply bind_Ok in Ht as ([msg src] & _ & Ht).
  destruct (sanitize_src_address src) as [[]| |] eqn:Hs; [|by simplify_eq..].
  destruct (from_message msg src) as [req| |] eqn:Hm; simplify_eq; [|by split].
  split; simpl; try done. apply Forall_app. split; [done|]. constructor; [|constructor].
  assert (rq_src req = src) as E.
  { by apply from_message_src in Hm. }
  unfold received. rewrite E. eauto.
Qed.

Lemma server_ok_begin seen s now i :
  server_ok seen s → server_ok seen (begin_task (ResolveError:=ResolveError) now i s).
Proof.
  intros Hok. pose proof Hok as [Hg Hj Hr Hsp Hw Hcn Ho]. unfold begin_task.
  destruct (spawned s !! i) as [req|] eqn:Hi; [|done].
  destruct (handle_begin now req (handler s)) as [r h] eqn:Hb.
  destruct (handle_begin_ok seen now req _ _ _ Hg Hj Hr Hb) as (Hg' & Hhj & Hrj & Ha).
  rewrite Forall_lookup in Hsp. pose proof (Hsp i req Hi) as Hreq. rewrite <- Forall_lookup in Hsp.
  rewrite <- Hhj in Hj. rewrite <- Hrj in Hr. pose proof (Forall_delete _ _ i Hsp) as Hd.
  destruct r as [[resp|]|e|]; split; simpl; try done.
  - apply (reply_genuine seen req (Ok resp)); [done| |done]. intros ? [= <-]. by apply Ha.
  - apply Forall_app. by split; [|constructor].
Qed.

Lemma server_ok_finish seen s now i req (resolve : Name → res ResolveError (list Record_)) :
  waiting s !! i = Some req → server_ok seen s →
  server_ok (learn (rq_query req) (resolve (query_name (rq_query req))) seen)
            (finish_task now i resolve s).
Proof.
  intros Hi [Hg Hj Hr Hsp Hw Hcn Ho]. unfold finish_task. rewrite Hi.
  destruct (handle_finish now (upstream_resolve resolve req) (handler s)) as [r h] eqn:Hf.
  destruct (handle_finish_ok seen now req resolve _ _ _ Hg Hf) as (Hg' & Hhj & Hrj & Ha).
  rewrite Forall_lookup in Hw. pose proof (Hw i req Hi) as Hreq. rewrite <- Forall_lookup in Hw.
  split; simpl; try done.
  - intros hj. rewrite Hhj. apply Hj.
  - intros rj. rewrite Hrj. apply Hr.
  - by apply Forall_delete.
  - apply reply_genuine; [done..|]. eapply sent_mono; [apply grows_learn|done].
Qed.

Lemma server_ok_accept seen s next s' :
  tcp_turn next s = Ok s' → server_ok seen s → server_ok seen s'.
Proof.
  intros Ht [? ? ? ? ? Hcn ?]. unfold tcp_turn in Ht. apply bind_Ok in Ht as (src & _ & Ht).
  destruct (sanitize_src_address src) as [[]| |] eqn:Hs; [|by simplify_eq..].
  injection Ht as <-. split; simpl; try done. apply Forall_app. split; [done|].
  constructor; [|constructor]. by split.
Qed.

Lemma server_ok_set_conn seen s i src st h out :
  server_ok seen s → genuine (answered seen) h →
  h_hijacker h = h_hijacker (handler s) → h_reject h = h_reject (handler s) →
  conn_ok {| cn_src := src; cn_state := st |} → Forall (genuine_reply seen) out →
  server_ok seen (set_conn i src st h out s).
Proof.
  intros [Hg Hj Hr Hsp Hw Hcn Ho] Hg' Ej Er Hc Hout. split; simpl; try done.
  - intros hj. rewrite Ej. apply Hj.
  - intros rj. rewrite Er. apply Hr.
  - by apply Forall_insert.
Qed.

(** A connection replies to its own request. *)
Lemma server_ok_conn_reply seen s i req (r : res ResolveError (Response P)) sendable h :
  server_ok seen s → genuine (answered seen) h →
  h_hijacker h = h_hijacker (handler s) → h_reject h = h_reject (handler s) →
  received req → (∀ resp, r = Ok resp → answers seen req resp) →
  server_ok seen (conn_reply i (rq_src req) r sendable h s).
Proof.
  intros Hok Hg Ej Er Hreq Ha. pose proof (ok_sent _ _ Hok) as Ho.
  pose proof (reply_genuine seen req r (sent s) Hreq Ha Ho) as Hrep.
  assert (∀ st, (∀ q, st ≠ Asked q) → conn_ok {| cn_src := rq_src req; cn_state := st |}) as Hcn.
  { intros st Hst. split; [apply Hreq|]. simpl. destruct st; try done. by destruct (Hst req0). }
  unfold reply in Hrep. unfold conn_reply.
  destruct r as [resp|e|]; [destruct (message resp) as [m| |]; [destruct sendable|..]|..];
    apply server_ok_set_conn; try done; by apply Hcn.
Qed.

Lemma conn_at seen s i c : server_ok seen s → conns s !! i = Some c → conn_ok c.
Proof. intros Hok Hi. exact (Forall_lookup_1 _ _ _ _ (ok_conns _ _ Hok) Hi). Qed.

Lemma server_ok_read seen s now i item sendable :
  server_ok seen s → server_ok seen (tcp_read (ResolveError:=ResolveError) now i item sendable s).
Proof.
  intros Hok. unfold tcp_read. destruct (conns s !! i) as [[src []]|] eqn:Hi; try done.
  destruct (conn_at _ _ _ _ Hok Hi) as [Hsrc _]. simpl in Hsrc. pose proof Hok as [Hg Hj Hr _ _ _ Ho].
  assert (server_ok seen (set_conn i src Closed (handler s) (sent s) s)) as Hclose
    by (apply server_ok_set_conn; try done; by split).
  destruct item as [[msg| |]|]; try done. destruct (from_message msg src) as [req| |] eqn:Hm; try done.
  pose proof (from_message_src _ _ _ Hm) as <-.
  assert (received req) as Hreq by (split; [done|by eexists]).
  destruct (handle_begin now req (handler s)) as [r h] eqn:Hb.
  destruct (handle_begin_ok seen now req _ _ _ Hg Hj Hr Hb) as (Hg' & Hhj & Hrj & Ha).
  destruct r as [[resp|]|e|].
  - apply server_ok_conn_reply; try done. intros ? [= <-]. by apply Ha.
  - apply server_ok_set_conn; try done.
  - by apply server_ok_conn_reply.
  - by apply server_ok_conn_reply.
Qed.

Lemma server_ok_answer seen s now i src req (resolve : Name → res ResolveError (list Record_)) sendable :
  conns s !! i = Some {| cn_src := src; cn_state := Asked req |} → server_ok seen s →
  server_ok (learn (rq_query req) (resolve (query_name (rq_query req))) seen)
            (tcp_finish now i resolve sendable s).
Proof.
  intros Hi Hok. destruct (conn_at _ _ _ _ Hok Hi) as (Hsrc & Hreq & Es). simpl in Es. subst src.
  unfold tcp_finish. rewrite Hi.
  destruct (handle_finish now (upstream_resolve resolve req) (handler s)) as [r h] eqn:Hf.
  pose proof Hok as [Hg Hj Hr Hsp Hw Hcn Ho].
  destruct (handle_finish_ok seen now req resolve _ _ _ Hg Hf) as (Hg' & Hhj & Hrj & Ha).
  apply server_ok_conn_reply; try done. split; try done.
  - eapply genuine_grows; [apply grows_learn|done].
  - eapply sent_mono; [apply grows_learn|done].
Qed.

(** A reload changes rules only, which are recorded as in force. *)
Lemma server_ok_reload seen s s' :
  h_cache (handler s') = h_cache (handler s) → spawned s' = spawned s → waiting s' = waiting s →
  conns s' = conns s → sent s' = sent s → server_ok seen s → server_ok (in_force (handler s') seen) s'.
Proof.
  intros Ec Es Ew Ek Eo [Hg Hj Hr Hsp Hw Hcn Ho]. split; rewrite ?Es, ?Ew, ?Ek, ?Eo; try done.
  - intros c. rewrite Ec. apply Hg.
  - intros hj E. unfold in_force. rewrite E. set_solver.
  - intros rj E. unfold in_force. rewrite E. set_solver.
  - eapply sent_mono; [apply grows_in_force|done].
Qed.

Lemma running_ok seen s : running seen s → server_ok seen s.
Proof.
  induction 1.
  - by eapply server_ok_new, Handler_new_genuine.
  - by eapply server_ok_recv.
  - by apply server_ok_begin.
  - by apply server_ok_finish.
  - by eapply server_ok_accept.
  - by apply server_ok_read.
  - by eapply server_ok_answer.
  - by apply (server_ok_reload _ s).
  - by apply (server_ok_reload _ s).
Qed.
End runs.


(** ** Rejected names *)

Section rejected.
Context `{P : DnsProto} {C : Type} `{!LruCache P C} `{!LruCacheOk P C}.
Context {St : Type} `{Entries St} `{Profile} {ResolveError : Type}.
Implicit Types self : Handler (C:=C) (St:=St).

(** A request with the time of its call and the resolver at that time. *)
Record Call := {
  call_time : Z;
  call_request : Request P;
  call_resolve : Name → res ResolveError (list Record_)
}.

(** Requests one after another: the outcome of each, and whether the upstream was asked. *)
Fixpoint handle_all (calls : list Call) self
  : list (Call * res ResolveError (Response P) * bool) * Handler (C:=C) (St:=St) :=
  match calls with
  | [] => ([], self)
  | c :: calls =>
    let '(r, asked, self) := handle (call_resolve c) (call_time c) (call_request c) self in
    let '(outs, self) := handle_all calls self in
    ((c, r, asked) :: outs, self)
  end.

(** What the upstream answered in a call. *)
Definition asked_answers (req : Request P) (r : res ResolveError (Response P)) (asked : bool)
  : list (Query * list Record_) :=
  match r, asked with Ok resp, true => [(rq_query req, rs_answers resp)] | _, _ => [] end.

Definition upstream_log (outs : list (Call * res ResolveError (Response P) * bool)) : list (Query * list Record_) :=
  outs ≫= λ o, asked_answers (call_request o.1.1) o.1.2 o.2.

(** The handler rejects by the rules [rj]; what its cache holds was answered by the upstream
    to a query for a name that they do not match. *)
Definition rejects (rj : Reject (St:=St)) (log : list (Query * list Record_)) self : Prop :=
  h_reject self = Some rj
  ∧ ∀ c q e, h_cache self = Some c → peek (lru c) q = Some e →
      ∃ q', same_query q' q ∧ deny (E:=ResolveError) rj (query_name q') = Ok false ∧ (q', en_answers e) ∈ log.

(** The answers of a response are those to a query for the same name, spelled differently. *)
Definition spelled_otherwise (log : list (Query * list Record_)) (req : Request P) (resp : Response P) : Prop :=
  ∃ q', same_query q' (rq_query req) ∧ q' ≠ rq_query req ∧ (q', rs_answers resp) ∈ log.

Definition unhijacked (req : Request P) self : Prop :=
  ∀ hj, h_hijacker self = Some hj → hijacking (E:=ResolveError) hj (query_name (rq_query req)) = Ok None.

Lemma rejects_mono rj log log' self : log ⊆ log' → rejects rj log self → rejects rj log' self.
Proof.
  intros Hl [Hr Hc]. split; [done|]. intros c q e Ec Hq. destruct (Hc c q e Ec Hq) as (q' & ? & ? & ?).
  exists q'. split_and!; [done|done|by apply Hl].
Qed.

Lemma handle_rules_rejects rj req self : h_reject self = Some rj →
  (handle_rules (ResolveError:=ResolveError) req self = Ok None →
     deny (E:=ResolveError) rj (query_name (rq_query req)) = Ok false)
  ∧ (unhijacked req self → deny (E:=ResolveError) rj (query_name (rq_query req)) = Ok true →
     handle_rules req self = Ok (E:=ResolveError) (Some (no_records (rq_header req) (rq_query req)))).
Proof.
  intros Hr. unfold handle_rules, unhijacked. rewrite Hr. split.
  - intros (hijacked & _ & H2)%bind_Ok. destruct hijacked; [done|].
    apply bind_Ok in H2 as ([] & Hd & H3); [done|exact Hd].
  - intros Hj Hd. destruct (h_hijacker self) as [hj|]; [rewrite (Hj hj eq_refl)|]; cbn [mbind res_bind]; by rewrite Hd.
Qed.

Lemma handle_begin_rejects rj log now req self r self' :
  rejects rj log self → handle_begin (ResolveError:=ResolveError) now req self = (r, self') →
  rejects rj log self' ∧ h_hijacker self' = h_hijacker self
  ∧ (r = Ok None → deny (E:=ResolveError) rj (query_name (rq_query req)) = Ok false)
  ∧ (unhijacked req self → deny (E:=ResolveError) rj (query_name (rq_query req)) = Ok true →
     r = Ok (Some (no_records (rq_header req) (rq_query req)))
     ∨ ∃ resp, r = Ok (Some resp) ∧ spelled_otherwise log req resp).
Proof.
  intros Hrj. pose proof Hrj as [Hr Hc]. unfold handle_begin.
  destruct (h_cache self) as [c|] eqn:Ec.
  2:{ intros [= <- <-]. destruct (handle_rules_rejects rj req self Hr) as [H1 H2].
      split_and!; [done|done|done|]. intros Hj Hd. left. by apply H2. }
  destruct (cache_get now req c) as [hit c'] eqn:Eg.
  destruct (cache_get_peek _ _ _ _ _ Eg) as [Hp Hhit].
  assert (rejects rj log (set_cache (Some c') self)) as Hg'.
  { split; [done|]. intros c0 q e [= <-] Hq. eapply Hc; [done|by apply Hp]. }
  destruct hit as [resp0|]; intros [= <- <-]; (split_and!; [done|done|..]).
  - done.
  - intros _ Hd. right. exists resp0. split; [done|].
    destruct (Hhit resp0 eq_refl) as (e & Hpk & Ha & _). destruct (Hc c _ _ eq_refl Hpk) as (q' & Hq' & Hno & Hin).
    exists q'. split_and!; [done|intros ->; congruence|by rewrite Ha].
  - apply (handle_rules_rejects rj req (set_cache (Some c') self) Hr).
  - intros Hj Hd. left. by apply (handle_rules_rejects rj req (set_cache (Some c') self) Hr).
Qed.

Lemma handle_rejects rj log (resolve : Name → res ResolveError (list Record_)) now req self r asked self' :
  rejects rj log self → handle resolve now req self = (r, asked, self') →
  rejects rj (log ++ asked_answers req r asked) self' ∧ h_hijacker self' = h_hijacker self
  ∧ (deny (E:=ResolveError) rj (query_name (rq_query req)) = Ok true →
     asked = false
     ∧ (unhijacked req self → r = Ok (no_records (rq_header req) (rq_query req))
        ∨ ∃ resp, r = Ok resp ∧ spelled_otherwise log req resp)).
Proof.
  intros Hrj. rewrite handle_phases.
  destruct (handle_begin now req self) as [r0 self0] eqn:Hb.
  destruct (handle_begin_rejects rj log now req self r0 self0 Hrj Hb) as (Hrj0 & Hj0 & Hno & Hyes).
  destruct r0 as [[resp|]|e|]; [intros [= <- <- <-]| |intros [= <- <- <-]..].
  - simpl. rewrite app_nil_r. split_and!; [done|done|]. intros Hd. split; [done|].
    intros Hu. destruct (Hyes Hu Hd) as [[= ->]|(resp' & [= <-] & ?)]; eauto.
  - specialize (Hno eq_refl). rewrite Hno. unfold handle_finish.
    destruct (upstream_resolve resolve req) as [resp| |] eqn:Hu, (h_cache self0) as [c|] eqn:Ec;
      intros [= <- <- <-]; simpl; rewrite ?app_nil_r; (split_and!; [|done|done]); try done.
    + destruct Hrj0 as (Hr & Hc). split; [done|]. intros c0 q e [= <-] Hq.
      apply cache_put_peek in Hq as [Hq|(Hs & Hen & _)].
      * destruct (Hc c q e Ec Hq) as (q' & ? & ? & ?). exists q'. split_and!; [done|done|]. apply elem_of_app. by left.
      * apply bind_Ok in Hu as (ips & _ & [= <-]). simpl in *. exists (rq_query req). rewrite Hen.
        split_and!; [by symmetry|done|]. apply elem_of_app. right. by left.
    + eapply rejects_mono; [|exact Hrj0]. set_solver.
  - simpl. rewrite app_nil_r. split_and!; [done|done|]. intros Hd. split; [done|].
    intros Hu. by destruct (Hyes Hu Hd) as [?|(? & ? & _)].
  - simpl. rewrite app_nil_r. split_and!; [done|done|]. intros Hd. split; [done|].
    intros Hu. by destruct (Hyes Hu Hd) as [?|(? & ? & _)].
Qed.

Lemma handle_all_rejects rj log calls self :
  rejects rj log self →
  Forall (λ o, let req := call_request o.1.1 in
    deny (E:=ResolveError) rj (query_name (rq_query req)) = Ok true →
    o.2 = false
    ∧ (unhijacked req self → o.1.2 = Ok (no_records (rq_header req) (rq_query req))
       ∨ ∃ resp, o.1.2 = Ok resp ∧ spelled_otherwise (log ++ upstream_log (handle_all calls self).1) req resp))
    (handle_all calls self).1.
Proof.
  revert log self. induction calls as [|c calls IH]; intros log self Hrj; [constructor|]. cbn [handle_all].
  destruct (handle (call_resolve c) (call_time c) (call_request c) self) as [[r asked] self'] eqn:Hh.
  destruct (handle_rejects _ _ _ _ _ _ _ _ _ Hrj Hh) as (Hrj' & Hj & Ho).
  specialize (IH _ self' Hrj'). destruct (handle_all calls self') as [outs self'']. cbn [fst] in IH |- *.
  assert (upstream_log ((c, r, asked) :: outs) = asked_answers (call_request c) r asked ++ upstream_log outs) as -> by done.
  constructor; cbv zeta; cbn [fst snd].
  - intros Hd. destruct (Ho Hd) as [-> Hr]. split; [done|]. intros Hu.
    destruct (Hr Hu) as [?|(resp & ? & q' & ? & ? & ?)]; [by left|right]. exists resp. split; [done|].
    exists q'. split_and!; [done|done|]. apply elem_of_app. by left.
  - eapply Forall_impl; [|exact IH]. intros o Hi Hd. destruct (Hi Hd) as [? Hr]. split; [done|].
    intros Hu. rewrite <- app_assoc in Hr. apply Hr. intros hj. rewrite Hj. apply Hu.
Qed.

Lemma Handler_new_rejects http cache config hijack upstream h rj :
  Reject_new http config = Some (Ok rj) →
  Handler_new (ResolveError:=ResolveError) http cache (Some config) hijack upstream = Some (Ok h) →
  rejects rj [] h.
Proof.
  unfold Handler_new. intros ->. cbn [mbind option_bind res_bind map_err].
  intros (hj & _ & [= Hh])%bind_Some. apply bind_Ok in Hh as (hj' & _ & Hh).
  apply bind_Ok in Hh as (_ & _ & [= <-]). split; [done|]. intros c q e Hc Hq. simpl in Hc.
  apply fmap_Some in Hc as (cc & _ & ->). simpl in Hq. by rewrite peek_new in Hq.
Qed.
End rejected.


(** A run: two datagrams and a message of a connection arrive, all miss the cache and wait,
    the reject rules are reloaded, and the tasks end in another order. *)
Module Demo.
Import Dns.Toy.
Abbreviation server := (Serving (P:=toy_proto) (C:=assoc) (St:=gset bytes)).
Definition src : SocketAddr := V4 [10; 0; 0; 1] 5353.
Definition http (endpoint : bytes) : res RuleError (Z * bytes) := Ok (200, Trie.Demo.foo_com).
Definition fresh : option (res (DnsError (ResolveError:=())) (Handler (C:=assoc) (St:=gset bytes))) :=
  Handler_new (P:=toy_proto) (H0:=dev) http (Some {| cc_size := 10; cc_ttl := 60 |})
    (Some {| rc_endpoint := []; rc_interval := None |}) None (Ok ()).
Definition start : server :=
  start_serving match fresh with
               | Some (Ok h) => h
               | _ => {| h_cache := None; h_hijacker := None; h_reject := None |}
               end.
Definition recv (q : Z) (s : server) : server :=
  match udp_turn (P:=toy_proto) (Ok ([1; q], src)) s with Ok s => s | _ => s end.
Definition peer : SocketAddr := V4 [10; 0; 0; 2] 5353.
Definition accepted : server :=
  match tcp_turn (P:=toy_proto) (Ok peer) start with Ok s => s | _ => start end.
Definition both : server := recv 98 (recv 97 accepted).
Definition told : server := tcp_read (H0:=dev) (ResolveError:=()) 100 0 (Some (Ok [1; 99])) true both.
Definition asking : server :=
  begin_task (H0:=dev) (ResolveError:=()) 100 0 (begin_task (H0:=dev) (ResolveError:=()) 100 0 told).
Definition reloaded : server := reload_reject (E:=()) (Ok (from_rules [], 0)) asking.
Definition resolver (answer : Z) : @Name toy_proto → res () (list Z) := λ _, Ok [answer].
Definition done_b : server := finish_task 101 1 (resolver 8) reloaded.
Definition done_c : server := tcp_finish 101 0 (resolver 9) true done_b.
Definition done_a : server := finish_task 102 0 (resolver 7) done_c.

Lemma demo_running :
  ∃ seen, running (H0:=dev) (ResolveError:=()) seen done_a
    ∧ answered seen = [([[97]], [7]); ([[99]], [9]); ([[98]], [8])].
Proof.
  eexists. split.
  - unfold done_a, done_b, done_c, reloaded, asking, told, both.
    refine (run_finish _ _ 102 0 _ (resolver 7) (run_answer _ _ 101 0 peer _ (resolver 9) true
      (run_finish _ _ 101 1 _ (resolver 8)
      (run_reject _ _ (Ok (from_rules [], 0)) (run_begin _ _ _ _ (run_begin _ _ _ _ (run_read _ _ _ _ _ _
        (run_recv _ _ (Ok ([1; 98], src)) _ (run_recv _ _ (Ok ([1; 97], src)) _
          (run_accept _ _ (Ok peer) _
          (run_new http (Some {| cc_size := 10; cc_ttl := 60 |})
            (Some {| rc_endpoint := []; rc_interval := None |}) None (Ok ()) _ _) _) _) _))))) _) _) _);
      vm_compute; reflexivity.
  - vm_compute. reflexivity.
Qed.

(** The list has foo.com.  What the upstream answers for FOO.com is not rejected, goes into
    the cache, and is served for foo.com. *)
Definition upper_foo : bytes := map (λ b, b - 32) Trie.Demo.foo.
Definition ask_for (time : Z) (q : @Query toy_proto) : Call (P:=toy_proto) (ResolveError:=()) :=
  {| call_time := time; call_request := Dns.Demo.request q; call_resolve := resolver 7 |}.
Example other_case_served :
  (λ o, (match o.1.2 with Ok resp => rs_answers resp | _ => [] end, o.2))
    <$> (handle_all (H0:=dev) [ask_for 100 [upper_foo; Trie.Demo.com]; ask_for 200 [Trie.Demo.foo; Trie.Demo.com]]
           (handler start)).1
  = [([7], true); ([7], false)].
Proof. vm_compute. reflexivity. Qed.
End Demo.


