(* ===== verification/RwLock.v ===== *)
(** * The lock of the server pool

    The current list of servers is behind a [tokio::sync::RwLock].  This file states what
    the tasks of the program rely on: who holds a guard, who waits for one, that a writer is
    alone, and that the lock is fair, with a queue that is served first in, first out, in
    which a writer at the head keeps later readers waiting.  A queue of requests is an
    implementation. *)

From S2P Require Import Prelude.

Inductive Mode := Shared | Exclusive.

Global Instance Mode_eq_dec : EqDecision Mode.
Proof. solve_decision. Defined.

Section interface.
Context (W : Type) `{!EqDecision W} (K : Type).

(** [lock_request]: [read()] or [write()] is polled for the first time; [lock_release]: a
    guard is dropped. *)
Class RwLock := {
  lock_new : K;
  lock_request (w : W) (m : Mode) (k : K) : K;
  lock_release (w : W) (k : K) : K;
  guards (k : K) : list (W * Mode);
  queue (k : K) : list (W * Mode)
}.

Class RwLockOk `{!RwLock} := {
  rw_inv (k : K) : Prop;
  rw_new : rw_inv lock_new ∧ guards lock_new = [] ∧ queue lock_new = [];
  rw_request k w m : rw_inv k → rw_inv (lock_request w m k);
  rw_release k w : rw_inv k → rw_inv (lock_release w k);
  (** A request is granted at once or joins the queue. *)
  rw_requested k w m : rw_inv k →
    guards (lock_request w m k) = guards k ++ [(w, m)] ∧ queue (lock_request w m k) = queue k
    ∨ guards (lock_request w m k) = guards k ∧ queue (lock_request w m k) = queue k ++ [(w, m)];
  (** Nobody overtakes. *)
  rw_fair k w m : rw_inv k → queue k ≠ [] → guards (lock_request w m k) = guards k;
  (** A guard that is dropped lets some of the first of the queue in. *)
  rw_released k w : rw_inv k → ∃ woken,
    queue k = woken ++ queue (lock_release w k)
    ∧ guards (lock_release w k) = filter (λ g, g.1 ≠ w) (guards k) ++ woken;
  rw_exclusive k w : rw_inv k → (w, Exclusive) ∈ guards k → guards k = [(w, Exclusive)];
  (** Nobody waits for a lock that is free. *)
  rw_awake k : rw_inv k → guards k = [] → queue k = []
}.
End interface.
Global Arguments lock_new {W K _}.
Global Arguments lock_request {W K _} w m k.
Global Arguments lock_release {W K _} w k.
Global Arguments guards {W K _} k.
Global Arguments queue {W K _} k.
Global Arguments rw_inv {W _ K _ _} k.
Global Arguments rw_request {W _ K _ _} k w m.
Global Arguments rw_release {W _ K _ _} k w.
Global Arguments rw_requested {W _ K _ _} k w m.
Global Arguments rw_fair {W _ K _ _} k w m.
Global Arguments rw_released {W _ K _ _} k w.
Global Arguments rw_exclusive {W _ K _ _} k w.
Global Arguments rw_awake {W _ K _ _} k.

(** ** Clients of the lock

    [wants w] is the kind of guard that [w] has asked for, from its request until it drops
    the guard; [inside w] says that it is at a place of its code where it has it. *)

Section clients.
Context {W : Type} `{!EqDecision W} {K : Type} `{!RwLock W K} `{!RwLockOk W K}.
Implicit Types (k : K) (wants : W → option Mode) (inside : W → Prop).

Record lock_ok k wants inside : Prop := {
  lk_inv : rw_inv k;
  lk_nodup : NoDup (guards k ++ queue k).*1;
  lk_wants w m : (w, m) ∈ guards k ++ queue k ↔ wants w = Some m;
  lk_inside w : inside w → w ∈ (guards k).*1
}.

Lemma lock_ok_new : lock_ok lock_new (λ _, None) (λ _, False).
Proof.
  destruct (rw_new W K) as (Hi & Hg & Hq). split; rewrite ?Hg, ?Hq; [done|constructor| |done].
  intros w m. split; [by intros ?%not_elem_of_nil|done].
Qed.

Lemma lock_ok_keep k wants wants' inside inside' :
  lock_ok k wants inside → (∀ w, wants' w = wants w) →
  (∀ w, inside' w → inside w ∨ w ∈ (guards k).*1) → lock_ok k wants' inside'.
Proof.
  intros [Hi Hn Hw Hin] Hw' Hin'. split; [done|done|intros; by rewrite Hw'|].
  intros w [?|?]%Hin'; [by apply Hin|done].
Qed.

Lemma requested_members k w m : rw_inv k →
  guards (lock_request w m k) ++ queue (lock_request w m k) ≡ₚ (w, m) :: guards k ++ queue k.
Proof.
  intros Hi. destruct (rw_requested k w m Hi) as [[-> ->]|[-> ->]].
  - rewrite <- app_assoc. symmetry. apply Permutation_middle.
  - rewrite app_assoc. symmetry. apply Permutation_cons_append.
Qed.

Lemma lock_ok_ask k w m wants wants' inside inside' :
  lock_ok k wants inside → wants w = None →
  (∀ w', wants' w' = if decide (w' = w) then Some m else wants w') →
  (∀ w', inside' w' → inside w') → lock_ok (lock_request w m k) wants' inside'.
Proof.
  intros [Hi Hn Hw Hin] Hnone Hw' Hin'. pose proof (requested_members k w m Hi) as Hm. split.
  - by apply rw_request.
  - rewrite Hm. apply list.NoDup_cons. split; [|done]. intros ([w0 m0] & Heq & He)%list_elem_of_fmap.
    apply Hw in He. simpl in Heq. congruence.
  - intros w0 m0. rewrite Hm, elem_of_cons, Hw, Hw'. case_decide; [subst|]; naive_solver.
  - intros w0 Hw0%Hin'%Hin. destruct (rw_requested k w m Hi) as [[-> _]|[-> _]]; [|done].
    rewrite fmap_app. apply elem_of_app. by left.
Qed.

(** Who holds a guard keeps it when another one is dropped. *)
Lemma released_keeps k w w' : rw_inv k → w' ≠ w →
  w' ∈ (guards k).*1 → w' ∈ (guards (lock_release w k)).*1.
Proof.
  intros Hi Hne (e & -> & He)%list_elem_of_fmap. destruct (rw_released k w Hi) as (woken & _ & ->).
  apply list_elem_of_fmap. exists e. split; [done|]. apply elem_of_app. left. by apply list_elem_of_filter.
Qed.

Lemma released_members k w : rw_inv k → (∀ e, e ∈ queue k → e.1 ≠ w) →
  guards (lock_release w k) ++ queue (lock_release w k) = filter (λ e, e.1 ≠ w) (guards k ++ queue k).
Proof.
  intros Hi Hq. destruct (rw_released k w Hi) as (woken & Hwq & ->).
  rewrite list.filter_app, <- app_assoc, <- Hwq. f_equal. clear Hwq. induction (queue k) as [|e q IH]; [done|].
  rewrite filter_cons, decide_True by (apply Hq; by left). f_equal. apply IH. intros e' ?. apply Hq. by right.
Qed.

Lemma NoDup_fst_filter (l : list (W * Mode)) w : NoDup l.*1 → NoDup (filter (λ e, e.1 ≠ w) l).*1.
Proof.
  induction l as [|e l IH]; [done|]. rewrite filter_cons, fmap_cons, list.NoDup_cons. intros [He Hl].
  case_decide; [|by apply IH]. rewrite fmap_cons, list.NoDup_cons. split; [|by apply IH].
  contradict He. apply list_elem_of_fmap in He as (e' & -> & [_ He']%list_elem_of_filter).
  by apply list_elem_of_fmap_2.
Qed.

Lemma lock_ok_drop k w wants wants' inside inside' :
  lock_ok k wants inside → w ∈ (guards k).*1 →
  (∀ w', wants' w' = if decide (w' = w) then None else wants w') →
  (∀ w', inside' w' → inside w' ∧ w' ≠ w) → lock_ok (lock_release w k) wants' inside'.
Proof.
  intros [Hi Hn Hw Hin] Hheld Hw' Hin'.
  assert (∀ e, e ∈ queue k → e.1 ≠ w) as Hq.
  { intros e He <-. rewrite fmap_app in Hn. apply list.NoDup_app in Hn as (_ & Hd & _).
    apply (Hd _ Hheld). apply list_elem_of_fmap. by exists e. }
  pose proof (released_members k w Hi Hq) as Hm. split.
  - by apply rw_release.
  - rewrite Hm. by apply NoDup_fst_filter.
  - intros w0 m0. rewrite Hm, list_elem_of_filter, Hw, Hw'. simpl. case_decide; naive_solver.
  - intros w0 [Hw0 Hne]%Hin'. by apply released_keeps, Hin.
Qed.

(** Whoever waits, someone has a guard. *)
Lemma lock_ok_someone k wants inside w m :
  lock_ok k wants inside → wants w = Some m → ∃ w', w' ∈ (guards k).*1.
Proof.
  intros [Hi _ Hw _] Hm. destruct (guards k) as [|[w' m'] g] eqn:E; [|exists w'; by left].
  apply Hw in Hm. rewrite (rw_awake k Hi E), app_nil_r in Hm. by apply not_elem_of_nil in Hm.
Qed.

Lemma lock_ok_guard k wants inside w :
  lock_ok k wants inside → w ∈ (guards k).*1 → is_Some (wants w).
Proof.
  intros [_ _ Hw _] ([w' m] & -> & He)%list_elem_of_fmap. exists m. apply Hw, elem_of_app. by left.
Qed.

(** A writer is alone. *)
Lemma lock_ok_alone k wants inside w w' :
  lock_ok k wants inside → w ∈ (guards k).*1 → wants w = Some Exclusive → inside w' → w' = w.
Proof.
  intros [Hi Hn Hw Hin] Hg Hx Hw'%Hin. apply list_elem_of_fmap in Hg as ([w0 m] & -> & He). simpl in *.
  assert (wants w0 = Some m) as Hm by (apply Hw, elem_of_app; by left). rewrite Hx in Hm. simplify_eq.
  rewrite (rw_exclusive k w0 Hi He) in Hw'. apply list_elem_of_singleton in Hw'. done.
Qed.
End clients.

(** ** A queue of requests *)

Section fifo.
Context {W : Type} `{!EqDecision W}.

Record Fifo := { held : list (W * Mode); waiting : list (W * Mode) }.

Definition compatible (g : list (W * Mode)) (m : Mode) : bool :=
  match m with
  | Shared => bool_decide (Forall (λ e, e.2 = Shared) g)
  | Exclusive => bool_decide (g = [])
  end.

Fixpoint admit_from (g q : list (W * Mode)) : Fifo :=
  match q with
  | [] => {| held := g; waiting := [] |}
  | e :: q' => if compatible g e.2 then admit_from (g ++ [e]) q' else {| held := g; waiting := q |}
  end.

Global Instance fifo_lock : RwLock W Fifo := {|
  lock_new := {| held := []; waiting := [] |};
  lock_request w m k := admit_from (held k) (waiting k ++ [(w, m)]);
  lock_release w k := admit_from (filter (λ g, g.1 ≠ w) (held k)) (waiting k);
  guards := held;
  queue := waiting
|}.

(** All who hold a guard read, or one writes; the head of the queue cannot join them. *)
Definition fifo_held_ok (g : list (W * Mode)) : Prop :=
  Forall (λ e, e.2 = Shared) g ∨ ∃ w, g = [(w, Exclusive)].
Definition fifo_inv (k : Fifo) : Prop :=
  fifo_held_ok (held k)
  ∧ match waiting k with [] => True | e :: _ => compatible (held k) e.2 = false end.

Lemma held_ok_snoc g e : fifo_held_ok g → compatible g e.2 = true → fifo_held_ok (g ++ [e]).
Proof.
  intros _. destruct e as [w []]; simpl; rewrite bool_decide_eq_true.
  - left. apply Forall_app. split; [done|]. by repeat constructor.
  - intros ->. right. by exists w.
Qed.

Lemma admit_from_spec g q : fifo_held_ok g →
  fifo_inv (admit_from g q)
  ∧ ∃ woken, q = woken ++ waiting (admit_from g q) ∧ held (admit_from g q) = g ++ woken.
Proof.
  revert g. induction q as [|e q IH]; intros g Hg; cbn [admit_from].
  { split; [by split|]. exists []. simpl. by rewrite app_nil_r. }
  destruct (compatible g e.2) eqn:E.
  - destruct (IH (g ++ [e])) as (Hinv & woken & Hq & Hh); [by apply held_ok_snoc|].
    split; [done|]. exists (e :: woken). rewrite Hh, <- app_assoc. split; [|done].
    simpl. by rewrite <- Hq.
  - split; [by split|]. exists []. by rewrite app_nil_r.
Qed.

Lemma held_ok_filter g w : fifo_held_ok g → fifo_held_ok (filter (λ e, e.1 ≠ w) g).
Proof.
  intros [Hg|[w' ->]].
  - left. apply list.Forall_forall. intros e [_ He]%list_elem_of_filter. by eapply list.Forall_forall in Hg.
  - rewrite filter_cons, filter_nil. case_decide; [right; by exists w'|left; constructor].
Qed.

Lemma request_stuck (g q : list (W * Mode)) e :
  q ≠ [] → match q with [] => True | e :: _ => compatible g e.2 = false end →
  admit_from g (q ++ [e]) = {| held := g; waiting := q ++ [e] |}.
Proof. destruct q as [|e' q]; [done|]. intros _ He. cbn [app admit_from]. by rewrite He. Qed.

Global Program Instance fifo_ok : RwLockOk W Fifo := {| rw_inv := fifo_inv |}.
Next Obligation. split; [|done]. split; [left; constructor|done]. Qed.
Next Obligation. intros k w m [Hg _]. by apply admit_from_spec. Qed.
Next Obligation. intros k w [Hg _]. apply admit_from_spec. by apply held_ok_filter. Qed.
Next Obligation.
  intros k w m [Hg Hq]. simpl. destruct (waiting k) as [|e q] eqn:E.
  - simpl. destruct (compatible (held k) m); [left|right]; simpl; by rewrite ?app_nil_r.
  - right. by rewrite request_stuck.
Qed.
Next Obligation. intros k w m [Hg Hq] Hne. simpl in *. by rewrite request_stuck. Qed.
Next Obligation.
  intros k w [Hg Hq].
  destruct (admit_from_spec (filter (λ g, g.1 ≠ w) (held k)) (waiting k)) as (_ & woken & ? & ?);
    [by apply held_ok_filter|]. by exists woken.
Qed.
Next Obligation.
  intros k w [Hg _] Hin. simpl in *. destruct Hg as [Hg|[w' Hw]].
  - eapply list.Forall_forall in Hg; [|exact Hin]. done.
  - rewrite Hw in *. apply list_elem_of_singleton in Hin. by simplify_eq.
Qed.
Next Obligation.
  intros k [_ Hq] E. simpl in *. rewrite E in Hq. destruct (waiting k) as [|[w m] q]; [done|].
  by destruct m.
Qed.
End fifo.
Global Arguments Fifo : clear implicits.
