(* ===== verification/Upstream.v ===== *)
(** * Upstream servers (src/upstream, src/relay/thp/server.rs)

    The pool of servers: their latency histories, health checks, the two balancers, the
    provider of server lists and the relay's attempts to connect.  A server is shared
    ([Arc<Server>]) between the pool and the connections that use it: servers live in a
    heap and are referred to by their address in it. *)

From stdpp Require Import strings.
From S2P Require Import Prelude RustStr Io Address NetAddr Crypto ServerConfig Float64.

(** ** Hashing (hash.rs) *)

Definition fnv (data : bytes) : Z :=
  foldl (λ hash b, wrap_u 64 (Z.lxor hash b * 1099511628211)) 0 data.

(** One round of the generator of [jumphash], and the jump from [b] under its key. *)
Definition next_key (key : Z) : Z := wrap_u 64 (wrap_u 64 (key * 2862933555777941757) + 1).
Definition jump (b key : Z) : Z :=
  f64_to_i64 (f64_mul (f64_of_Z (wrap_i 64 (b + 1)))
                      (f64_div (f64_of_Z (Z.shiftl 1 31)) (f64_of_Z (Z.shiftr key 33 + 1)))).

(** [None] if [fuel] runs out. *)
Fixpoint jump_loop (fuel : nat) (key b j buckets : Z) : option Z :=
  if j <? buckets then
    match fuel with
    | O => None
    | Datatypes.S fuel => let key := next_key key in jump_loop fuel key j (jump j key) buckets
    end
  else Some (wrap_i 32 b).

Definition jumphash (key buckets : Z) : option Z :=
  jump_loop (Z.to_nat buckets) key (-1) 0 buckets.

(** ** Servers (server.rs) *)

Definition MAX_HISTORY : nat := 10.

Record Latency := { timestamp : Z; value : Z }.

Record Server := { config : ServerConfig; latencies : list Latency }.

Definition Server_new (config : ServerConfig) : Server := {| config := config; latencies := [] |}.

(** [latency] and [alive] panic on a server that was never checked. *)
Definition latency {E} (s : Server) : res E Z := expect (value <$> list.last (latencies s)).
Definition alive {E} (s : Server) : res E bool := v ← latency s; Ok (0 <? v).

Definition push_latency (now v : Z) (s : Server) : Server :=
  let history := latencies s in
  let history := if bool_decide (length history = MAX_HISTORY) then drop 1 history else history in
  {| config := config s; latencies := history ++ [{| timestamp := now; value := v |}] |}.

Definition report_failure (now : Z) (s : Server) : Server := push_latency now 0 s.

(** ** The pool (mod.rs) *)

Abbreviation ptr := nat.

Record Peers := { servers : list ptr; best_index : nat }.

Definition Peers_new (servers : list ptr) : Peers := {| servers := servers; best_index := 0 |}.

Inductive LoadBalanceType := Best | Etld.

Section pool.
Context `{Profile} {E : Type}.
Context (effective_tld_plus_one : bytes → option bytes).
Implicit Types h : list Server.

Definition deref h (p : ptr) : res E Server := expect (h !! p).

(** [&servers[i]]: an index out of range panics. *)
Definition nth_server h (ps : list ptr) (i : Z) : res E (ptr * Server) :=
  p ← (if i <? 0 then Panic else expect (ps !! Z.to_nat i));
  s ← deref h p;
  Ok (p, s).

Fixpoint first_alive h (ps : list ptr) : res E (option ptr) :=
  match ps with
  | [] => Ok None
  | p :: ps =>
    s ← deref h p;
    a ← alive s;
    if (a : bool) then Ok (Some p) else first_alive h ps
  end.

Definition fallback h (peers : Peers) : res E ptr :=
  found ← first_alive h (servers peers);
  match found with
  | Some p => Ok p
  | None => '(p, _) ← nth_server h (servers peers) 0; Ok p
  end.

Definition best h (peers : Peers) : res E ptr :=
  '(p, s) ← nth_server h (servers peers) (Z.of_nat (best_index peers));
  a ← alive s;
  if (a : bool) then Ok p else fallback h peers.

(** The attempts of [by_etld]; the hash as an index: [i32 as usize] is huge if negative. *)
Fixpoint etld_loop (attempts : nat) h (ps : list ptr) (key : Z) : option (res E (option ptr)) :=
  match attempts with
  | O => Some (Ok None)
  | Datatypes.S attempts =>
    index ← jumphash key (Z.of_nat (length ps));
    match ('(p, s) ← nth_server h ps index; a ← alive s; Ok (p, a)) with
    | Ok (p, true) => Some (Ok (Some p))
    | Ok (p, false) =>
      match arith_u 64 (key + 1) with
      | Ok key => etld_loop attempts h ps key
      | Err e => Some (Err e)
      | Panic => Some Panic
      end
    | Err e => Some (Err e)
    | Panic => Some Panic
    end
  end.

Definition by_etld h (peers : Peers) (host : bytes) : option (res E ptr) :=
  let etld := default host (effective_tld_plus_one host) in
  found ← etld_loop 5 h (servers peers) (fnv etld);
  Some (found ← found;
        match found with
        | Some p => Ok p
        | None => fallback h peers
        end).

Definition pick h (peers : Peers) (lb_type : LoadBalanceType) (host : bytes) : option (res E ptr) :=
  match lb_type with
  | Best => Some (best h peers)
  | Etld => by_etld h peers host
  end.
End pool.

(** ** Health checks (checker.rs) *)

(** The bytes a connection delivers, and how it ends: [None] is end of file. *)
Record Answer := { delivered : bytes; ends : option ErrorKind }.

(** [read_until(b'\n', &mut buf)] into an empty buffer. *)
Fixpoint until_newline (s : bytes) : option bytes :=
  match s with
  | [] => None
  | c :: s => if c =? 10 then Some [c] else cons c <$> until_newline s
  end.
Definition read_until_newline (a : Answer) : res ErrorKind bytes :=
  match until_newline (delivered a) with
  | Some line => Ok line
  | None => match ends a with Some e => Err e | None => Ok (delivered a) end
  end.

Definition EXPECTED_HTTP_STATUS_LINE : bytes := text "HTTP/1.1 200 OK" ++ [13; 10].

(** [connect], [write] and [answer]: what the connection through the server, the request
    and the response come to. *)
Definition check_request_tcp_firefox (connect write : res ErrorKind ()) (answer : Answer)
  : res ErrorKind () :=
  _ ← connect;
  _ ← write;
  buf ← read_until_newline answer;
  if bool_decide (buf = EXPECTED_HTTP_STATUS_LINE) then Ok () else Err InvalidData.

(** [elapsed] in nanoseconds; [result] is [None] when the timeout fired first. *)
Definition check_delay `{Profile} (elapsed : Z) (result : option (res ErrorKind ()))
  : res ErrorKind Z :=
  ms ← arith_u 32 (wrap_u 32 (elapsed / 1000000000) * 1000);
  elapsed ← arith_u 32 (ms + elapsed mod 1000000000 / 1000000);
  match result with
  | Some (Ok _) => Ok elapsed
  | Some (Err err) => Err err
  | Some Panic => Panic
  | None => Err TimedOut
  end.

(** What one check comes to: its duration and its result. *)
Record Probe := { took : Z; probe_result : option (res ErrorKind ()) }.

(** [check_delay().unwrap_or(0)] *)
Definition score `{Profile} {E} (pr : Probe) : res E Z :=
  match check_delay (took pr) (probe_result pr) with
  | Ok v => Ok v
  | Err _ => Ok 0
  | Panic => Panic
  end.

Definition check_update_score `{Profile} {E} (now : Z) (pr : Probe) (p : ptr) (h : list Server)
  : res E (list Server) :=
  v ← score pr;
  s ← deref h p;
  Ok (<[p := push_latency now v s]> h).

(** The tasks of [check_once], in the order in which they finish. *)
Fixpoint run_checks `{Profile} {E} (now : Z) (probe : ptr → Probe) (order : list ptr)
    (h : list Server) : res E (list Server) :=
  match order with
  | [] => Ok h
  | p :: order => h ← check_update_score now (probe p) p h; run_checks now probe order h
  end.

Fixpoint select_best {E} (h : list Server) (index : nat) (ps : list ptr) (best_index : nat)
    (best_latency : Z) : res E nat :=
  match ps with
  | [] => Ok best_index
  | p :: ps =>
    s ← deref h p;
    v ← latency s;
    if v =? 0 then select_best h (index + 1) ps best_index best_latency
    else if v <? best_latency then select_best h (index + 1) ps index v
    else select_best h (index + 1) ps best_index best_latency
  end.

Definition check_once `{Profile} {E} (now : Z) (probe : ptr → Probe) (order : list ptr)
    (h : list Server) (peers : Peers) : res E (list Server * Peers) :=
  match servers peers with
  | [] => Ok (h, peers)
  | ps =>
    h ← run_checks now probe order h;
    best_index ← select_best h 0 ps 0 u32_max;
    _ ← nth_server h ps (Z.of_nat best_index);
    Ok (h, {| servers := ps; best_index := best_index |})
  end.

(** ** The server list (provider.rs)

    [resp] is the exchange with the endpoint, from parsing its URI to the response of
    [HttpClient::get], its status and body. *)

(** [hyper::http::uri::InvalidUri] and [hyper::Error] *)
Inductive ExchangeError := UriError (code : Z) | HttpError (code : Z).

Section provider.
Context `{L : ConfigLib}.

Inductive ProviderError :=
  | InvalidUri (code : Z)
  | Decode
  | Http (code : Z)
  | Unexpected (status : Z)
  | ServerUrl (e : UrlParseError).

Definition strip_cr (l : bytes) : bytes :=
  match list.last l with
  | Some 13 => take (length l - 1) l
  | _ => l
  end.

(** [BufRead::lines]: without the line feed, nor the carriage return before it. *)
Fixpoint lines (cur : bytes) (s : bytes) : list bytes :=
  match s with
  | [] => if bool_decide (cur = []) then [] else [cur]
  | c :: s => if c =? 10 then strip_cr cur :: lines [] s else lines (cur ++ [c]) s
  end.

(** [collect] of the configurations; it stops at the first error. *)
Fixpoint read_configs (ls : list bytes) : option (res ProviderError (list ServerConfig)) :=
  match ls with
  | [] => Some (Ok [])
  | url :: ls =>
    r ← from_url (length url + 1) url;
    match map_err ServerUrl r with
    | Ok c => rest ← read_configs ls; Some (cs ← rest; Ok (c :: cs))
    | Err e => Some (Err e)
    | Panic => Some Panic
    end
  end.

Definition fetch (resp : res ExchangeError (Z * bytes)) : option (res ProviderError (list ServerConfig)) :=
  match resp with
  | Err (UriError code) => Some (Err (InvalidUri code))
  | Err (HttpError code) => Some (Err (Http code))
  | Panic => Some Panic
  | Ok (status, body) =>
    if negb (status =? 200) then Some (Err (Unexpected status))
    else match decode_std body with
         | None => Some (Err Decode)
         | Some data => read_configs (filter (λ l, Utf8.from_utf8_ok l = true) (lines [] data))
         end
  end.
End provider.

(** [Peers::new] of a list from the provider: the servers are allocated in the heap. *)
Definition load_peers (h : list Server) (configs : list ServerConfig) : list Server * Peers :=
  (h ++ (Server_new <$> configs), Peers_new (seq (length h) (length configs))).

(** ** Attempts to connect (relay/thp/server.rs)

    [connect p]: the outcome of opening a connection to the target through the server at
    [p]; [proxied p]: that of relaying the data then.  An error of either is reported to
    the server; a panic of either ends the task.  The result is the server and the heap at
    the end. *)
Section relay.
Context `{Profile} {E : Type}.
Context (effective_tld_plus_one : bytes → option bytes) (connect proxied : ptr → res ErrorKind ()).

Inductive Attempt := Connected (p : ptr) | NoAvailableProxy.

Fixpoint connect_loop (attempts : nat) (now : Z) (lb : LoadBalanceType) (host : bytes)
    (peers : Peers) (h : list Server) : option (res E Attempt * list Server) :=
  match attempts with
  | O => Some (Ok NoAvailableProxy, h)
  | Datatypes.S attempts =>
    picked ← pick effective_tld_plus_one h peers lb host;
    match picked with
    | Ok p =>
      match connect p with
      | Ok _ =>
        Some match proxied p with
             | Ok _ => (Ok (Connected p), h)
             | Err _ => (Ok (Connected p), alter (report_failure now) p h)
             | Panic => (Panic, h)
             end
      | Err _ => connect_loop attempts now lb host peers (alter (report_failure now) p h)
      | Panic => Some (Panic, h)
      end
    | Err e => Some (Err e, h)
    | Panic => Some (Panic, h)
    end
  end.

Definition connect_upstream := connect_loop 5.
End relay.

(** ** The hash *)

Lemma next_key_bound key : 0 <= next_key key < 2 ^ 64.
Proof. apply wrap_u_bound. lia. Qed.

Lemma jump_ahead b key : 0 <= b → b + 1 < 2 ^ 53 → 0 <= key < 2 ^ 64 → b + 1 <= jump b key.
Proof.
  intros Hb Hb' Hk. unfold jump.
  assert (wrap_i 64 (b + 1) = b + 1) as ->.
  { unfold wrap_i. rewrite Z.mod_small; lia. }
  apply at_least_to_i64; [unfold i64_max; lia|].
  apply mul_at_least; [lia|by apply of_Z_exact; lia|].
  rewrite Z.shiftr_div_pow2 by lia. change (Z.shiftl 1 31) with (2 ^ 31).
  assert (0 <= key / 2 ^ 33 < 2 ^ 31).
  { split; [by apply Z.div_pos; lia|]. apply Z.div_lt_upper_bound; [lia|].
    rewrite <- Z.pow_add_r by lia. simpl (33 + 31). lia. }
  apply div_at_least_1; lia.
Qed.

Lemma jump_loop_range fuel key b j buckets :
  0 <= key < 2 ^ 64 → 0 < buckets <= 2 ^ 31 → 0 <= j → 0 <= b < buckets ∨ j < buckets →
  (buckets - j <= Z.of_nat fuel) →
  ∃ r, jump_loop fuel key b j buckets = Some r ∧ 0 <= r < buckets.
Proof.
  intros Hk Hn. revert key b j Hk. induction fuel as [|fuel IH]; intros key b j Hk Hj Hb Hf;
    cbn [jump_loop]; destruct (Z.ltb_spec j buckets) as [Hlt|Hge].
  - lia.
  - exists b. destruct Hb as [Hb|]; [|lia]. unfold wrap_i. rewrite Z.mod_small by lia.
    split; [f_equal; lia|done].
  - pose proof (next_key_bound key). pose proof (jump_ahead j (next_key key) Hj ltac:(lia) ltac:(done)).
    apply IH; [done|lia|by left; lia|lia].
  - exists b. destruct Hb as [Hb|]; [|lia]. unfold wrap_i. rewrite Z.mod_small by lia.
    split; [f_equal; lia|done].
Qed.

Lemma jumphash_range key buckets : 0 <= key < 2 ^ 64 → 0 < buckets <= 2 ^ 31 →
  ∃ r, jumphash key buckets = Some r ∧ 0 <= r < buckets.
Proof. intros. apply jump_loop_range; [done|done|lia|right; lia|lia]. Qed.

Lemma fnv_bound data : 0 <= fnv data < 2 ^ 64.
Proof.
  unfold fnv. destruct (decide (data = [])) as [->|Hne]; [simpl; lia|].
  destruct (exists_last Hne) as (init & b & ->). rewrite foldl_app. apply wrap_u_bound. lia.
Qed.

(** ** Histories *)

Definition checked (s : Server) : Prop := latencies s ≠ [].
Definition last_value (s : Server) : Z := match list.last (latencies s) with Some l => value l | None => 0 end.
Definition is_alive (s : Server) : Prop := checked s ∧ 0 < last_value s.

Lemma latency_checked {E} s : checked s → latency (E:=E) s = Ok (last_value s).
Proof.
  intros Hc. unfold latency, last_value. destruct (list.last (latencies s)) eqn:El; [done|].
  by apply last_None in El.
Qed.

Lemma alive_checked {E} s : checked s → alive (E:=E) s = Ok (bool_decide (0 < last_value s)).
Proof.
  intros Hc. unfold alive. rewrite latency_checked by done. simpl. f_equal.
  destruct (Z.ltb_spec 0 (last_value s)); by rewrite ?bool_decide_eq_true_2, ?bool_decide_eq_false_2 by lia.
Qed.

Lemma push_latency_checked now v s : checked (push_latency now v s).
Proof. unfold checked, push_latency. simpl. by intros [_ ?]%app_nil. Qed.

Lemma push_latency_last now v s : last_value (push_latency now v s) = v.
Proof. unfold last_value, push_latency. simpl. by rewrite last_snoc. Qed.

Lemma push_latency_history now v s : (length (latencies s) ≤ MAX_HISTORY)%nat →
  (length (latencies (push_latency now v s)) ≤ MAX_HISTORY)%nat.
Proof.
  unfold push_latency, MAX_HISTORY. simpl. intros. rewrite length_app. simpl.
  case_bool_decide; rewrite ?length_drop; lia.
Qed.

(** The history holds the last [MAX_HISTORY] of the reported values. *)
Definition holds_last (vs : list Z) (s : Server) : Prop :=
  value <$> latencies s = drop (length vs - MAX_HISTORY) vs.

Lemma push_latency_holds now v vs s :
  holds_last vs s → holds_last (vs ++ [v]) (push_latency now v s).
Proof.
  unfold holds_last, push_latency, MAX_HISTORY. simpl. intros Hv.
  assert (length (latencies s) = length vs - (length vs - 10))%nat as Hl.
  { rewrite <- (length_fmap value), Hv, length_drop. lia. }
  rewrite fmap_app, length_app. simpl. case_bool_decide as Hb.
  - rewrite fmap_drop, Hv, drop_drop. rewrite drop_app_le by lia. simpl.
    do 2 f_equal. lia.
  - rewrite Hv. replace (length vs - 10)%nat with 0%nat by lia.
    by replace (length vs + 1 - 10)%nat with 0%nat by lia.
Qed.

(** ** Picking a server *)

Definition valid (h : list Server) (p : ptr) : Prop := ∃ s, h !! p = Some s ∧ checked s.
Definition alive_at (h : list Server) (p : ptr) : Prop := ∃ s, h !! p = Some s ∧ is_alive s.

Record pool_ok (h : list Server) (peers : Peers) : Prop := {
  pool_ne : servers peers ≠ [];
  pool_small : Z.of_nat (length (servers peers)) <= 2 ^ 31;
  pool_best : (best_index peers < length (servers peers))%nat;
  pool_nodup : NoDup (servers peers);
  pool_valid : ∀ p, p ∈ servers peers → valid h p
}.

(** The pick of a balancer: one of the servers, and a live one if there is any. *)
Definition good_pick (h : list Server) (peers : Peers) (p : ptr) : Prop :=
  p ∈ servers peers ∧ ((∃ q, q ∈ servers peers ∧ alive_at h q) → alive_at h p).

Section pick_proof.
Context `{Profile} {E : Type} (etld1 : bytes → option bytes).
Implicit Types h : list Server.

Lemma alive_at_dec h p s : h !! p = Some s → checked s →
  alive (E:=E) s = Ok true ∧ alive_at h p ∨ alive (E:=E) s = Ok false ∧ ¬ alive_at h p.
Proof.
  intros Hp Hc. rewrite alive_checked by done. case_bool_decide as Hv; [left|right]; split; try done.
  - by exists s.
  - intros (s' & Hs' & _ & Hlt). by simplify_eq.
Qed.

Lemma deref_valid h p : valid h p → ∃ s, deref (E:=E) h p = Ok s ∧ h !! p = Some s ∧ checked s.
Proof. intros (s & Hs & Hc). exists s. unfold deref. by rewrite Hs. Qed.

Lemma nth_server_ok h ps i : (∀ p, p ∈ ps → valid h p) → 0 <= i < Z.of_nat (length ps) →
  ∃ p s, nth_server (E:=E) h ps i = Ok (p, s) ∧ p ∈ ps ∧ h !! p = Some s ∧ checked s.
Proof.
  intros Hv Hi. unfold nth_server. rewrite (proj2 (Z.ltb_ge i 0)) by lia.
  destruct (lookup_lt_is_Some_2 ps (Z.to_nat i)) as [p Hp]; [lia|].
  assert (p ∈ ps) as Hin by (by apply list_elem_of_lookup; eexists).
  destruct (Hv p Hin) as (s & Hs & Hc). exists p, s. rewrite Hp. simpl. unfold deref. by rewrite Hs.
Qed.

Lemma first_alive_spec h ps : (∀ p, p ∈ ps → valid h p) →
  ∃ r, first_alive (E:=E) h ps = Ok r
    ∧ match r with
      | Some p => p ∈ ps ∧ alive_at h p
      | None => ∀ p, p ∈ ps → ¬ alive_at h p
      end.
Proof.
  induction ps as [|p ps IH]; intros Hv.
  { exists None. split; [done|]. intros p Hp. by apply not_elem_of_nil in Hp. }
  destruct (Hv p) as (s & Hs & Hc); [by left|].
  destruct IH as (r & Hr & Hspec); [by intros q Hq; apply Hv; right|].
  simpl. unfold deref. rewrite Hs. simpl.
  destruct (alive_at_dec h p s Hs Hc) as [[-> Ha]|[-> Ha]]; simpl.
  - exists (Some p). split; [done|]. split; [by left|done].
  - exists r. split; [done|]. destruct r as [q|].
    + destruct Hspec. split; [by right|done].
    + by intros q [->|Hq]%elem_of_cons; [|apply Hspec].
Qed.

Lemma fallback_good h peers : pool_ok h peers →
  ∃ p, fallback (E:=E) h peers = Ok p ∧ good_pick h peers p.
Proof.
  intros Hok. unfold fallback.
  destruct (first_alive_spec h (servers peers) (pool_valid _ _ Hok)) as ([p|] & -> & Hr); simpl.
  - destruct Hr. by exists p.
  - destruct (nth_server_ok h (servers peers) 0 (pool_valid _ _ Hok)) as (p & s & -> & Hin & _).
    { pose proof (pool_ne _ _ Hok). destruct (servers peers); [done|simpl; lia]. }
    exists p. split; [done|]. split; [done|]. intros (q & Hq & Ha). by destruct (Hr q Hq).
Qed.

Lemma best_good h peers : pool_ok h peers →
  ∃ p, best (E:=E) h peers = Ok p ∧ good_pick h peers p.
Proof.
  intros Hok. unfold best. pose proof (pool_best _ _ Hok).
  destruct (nth_server_ok h (servers peers) (Z.of_nat (best_index peers)) (pool_valid _ _ Hok))
    as (p & s & -> & Hin & Hs & Hc); [lia|]. simpl.
  destruct (alive_at_dec h p s Hs Hc) as [[-> Ha]|[-> Ha]]; simpl; [by exists p|].
  by apply fallback_good.
Qed.

(** The attempts of [by_etld] that are made on a key. *)
Definition keys_fit (attempts : nat) (key : Z) : Prop :=
  overflow_checks = true → key + Z.of_nat attempts < 2 ^ 64.

Lemma keys_fit_next attempts key : 0 <= key < 2 ^ 64 → keys_fit (Datatypes.S attempts) key →
  ∃ key', arith_u (E:=E) 64 (key + 1) = Ok key' ∧ 0 <= key' < 2 ^ 64 ∧ keys_fit attempts key'.
Proof.
  unfold arith_u, keys_fit. intros Hk Hf. destruct ((0 <=? key + 1) && (key + 1 <? 2 ^ 64)) eqn:Eb.
  - apply andb_true_iff in Eb as [?%Z.leb_le ?%Z.ltb_lt]. exists (key + 1). split_and!; [done|lia|lia|].
    intros Hc. specialize (Hf Hc). lia.
  - destruct (overflow_checks : bool) eqn:Eo.
    + specialize (Hf eq_refl). apply andb_false_iff in Eb as [?%Z.leb_gt|?%Z.ltb_ge]; lia.
    + eexists. split; [done|]. split; [apply wrap_u_bound; lia|done].
Qed.

Lemma etld_loop_good attempts h peers key : pool_ok h peers → 0 <= key < 2 ^ 64 →
  keys_fit attempts key →
  ∃ r, etld_loop (E:=E) attempts h (servers peers) key = Some (Ok r)
    ∧ match r with Some p => p ∈ servers peers ∧ alive_at h p | None => True end.
Proof.
  intros Hok. revert key. induction attempts as [|n IH]; intros key Hk Hf; [by exists None|].
  cbn [etld_loop]. pose proof (pool_small _ _ Hok). pose proof (pool_ne _ _ Hok) as Hne.
  destruct (jumphash_range key (Z.of_nat (length (servers peers)))) as (i & -> & Hi);
    [done|destruct (servers peers); [done|simpl in *; lia]|].
  cbn [mbind option_bind].
  destruct (nth_server_ok h (servers peers) i (pool_valid _ _ Hok) Hi) as (p & s & -> & Hin & Hs & Hc).
  simpl. destruct (alive_at_dec h p s Hs Hc) as [[-> Ha]|[-> Ha]]; simpl; [by exists (Some p)|].
  destruct (keys_fit_next n key Hk Hf) as (key' & -> & Hk' & Hf'). by apply IH.
Qed.

Lemma by_etld_good h peers host : pool_ok h peers →
  keys_fit 5 (fnv (default host (etld1 host))) →
  ∃ p, by_etld (E:=E) etld1 h peers host = Some (Ok p) ∧ good_pick h peers p.
Proof.
  intros Hok Hf. unfold by_etld.
  destruct (etld_loop_good 5 h peers _ Hok (fnv_bound _) Hf) as ([p|] & -> & Hr); simpl.
  - exists p. split; [done|]. by destruct Hr.
  - destruct (fallback_good h peers Hok) as (p & -> & Hp). by exists p.
Qed.

(** The balancer by name adds to a hash, which must not overflow in a [dev] build. *)
Definition pickable (lb : LoadBalanceType) (host : bytes) : Prop :=
  match lb with Best => True | Etld => keys_fit 5 (fnv (default host (etld1 host))) end.

Lemma pick_good h peers lb host : pool_ok h peers → pickable lb host →
  ∃ p, pick (E:=E) etld1 h peers lb host = Some (Ok p) ∧ good_pick h peers p.
Proof.
  intros Hok Hf. destruct lb; [|by apply by_etld_good].
  destruct (best_good h peers Hok) as (p & Hp & Hg). exists p. by rewrite <- Hp.
Qed.
End pick_proof.

(** ** Changes of the pool *)

Lemma valid_pos h p : valid h p → (p < length h)%nat.
Proof. intros (s & Hs & _). by eapply lookup_lt_Some. Qed.

Lemma report_valid now h p q : valid h q → valid (alter (report_failure now) p h) q.
Proof.
  intros (s & Hs & Hc). destruct (decide (p = q)) as [->|Hne].
  - exists (report_failure now s). split; [|by apply push_latency_checked].
    rewrite list_lookup_alter_eq. by rewrite Hs.
  - exists s. by rewrite list_lookup_alter_ne.
Qed.

Lemma report_pool_ok now p h peers :
  pool_ok h peers → pool_ok (alter (report_failure now) p h) peers.
Proof.
  intros [Hne Hs Hb Hn Hv]. split; try done. intros q Hq. by apply report_valid, Hv.
Qed.

Lemma report_dead now h p : ¬ alive_at (alter (report_failure now) p h) p.
Proof.
  intros (s & Hs & _ & Hv). rewrite list_lookup_alter_eq in Hs.
  destruct (h !! p) as [s0|]; [|done]. injection Hs as <-.
  unfold report_failure in Hv. rewrite push_latency_last in Hv. lia.
Qed.

Lemma report_alive now h p q : alive_at (alter (report_failure now) p h) q → alive_at h q ∧ q ≠ p.
Proof.
  intros Ha. destruct (decide (q = p)) as [->|Hne]; [by apply report_dead in Ha|].
  split; [|done]. destruct Ha as (s & Hs & Ha). exists s. by rewrite list_lookup_alter_ne in Hs.
Qed.

Lemma report_keeps_alive now h p q : q ≠ p → alive_at h q → alive_at (alter (report_failure now) p h) q.
Proof. intros Hne (s & Hs & Ha). exists s. by rewrite list_lookup_alter_ne. Qed.

(** Checks that come to a result within the milliseconds a [u32] can count. *)
Definition prompt (pr : Probe) : Prop :=
  0 <= took pr < 4294967 * 1000000000 ∧ probe_result pr ≠ Some Panic.

(** What the check of a server scores: milliseconds, zero if it failed. *)
Definition score_of (pr : Probe) : Z :=
  match probe_result pr with Some (Ok _) => took pr / 1000000 | _ => 0 end.

Lemma score_prompt `{Profile} {E} pr : prompt pr →
  score (E:=E) pr = Ok (score_of pr) ∧ 0 <= score_of pr < u32_max.
Proof.
  intros [Ht Hr]. unfold score, check_delay, score_of.
  assert (0 <= took pr / 1000000000 < 4294967).
  { split; [by apply Z.div_pos; lia|]. apply Z.div_lt_upper_bound; lia. }
  rewrite wrap_u_small by lia. rewrite arith_u_small by lia. cbn [mbind res_bind].
  pose proof (Z.mod_pos_bound (took pr) 1000000000 ltac:(lia)).
  assert (0 <= took pr mod 1000000000 / 1000000 < 1000).
  { split; [by apply Z.div_pos; lia|]. apply Z.div_lt_upper_bound; lia. }
  rewrite arith_u_small by lia. cbn [mbind res_bind].
  assert (took pr / 1000000000 * 1000 + took pr mod 1000000000 / 1000000 = took pr / 1000000) as ->.
  { rewrite (Z.div_mod (took pr) 1000000000) at 3 by lia.
    replace (1000000000 * (took pr / 1000000000) + took pr mod 1000000000)
      with (took pr mod 1000000000 + (took pr / 1000000000 * 1000) * 1000000) by lia.
    rewrite Z.div_add by lia. lia. }
  assert (took pr / 1000000 < u32_max).
  { apply Z.div_lt_upper_bound; unfold u32_max; lia. }
  assert (0 <= took pr / 1000000) by (apply Z.div_pos; lia). unfold u32_max in *.
  destruct (probe_result pr) as [[u|e|]|]; (split; [done|lia]).
Qed.

Lemma run_checks_spec `{Profile} {E} now probe order h :
  NoDup order → (∀ p, p ∈ order → (p < length h)%nat) → (∀ p, p ∈ order → prompt (probe p)) →
  ∃ h', run_checks (E:=E) now probe order h = Ok h'
    ∧ ∀ p, h' !! p = if bool_decide (p ∈ order)
                     then push_latency now (score_of (probe p)) <$> h !! p else h !! p.
Proof.
  revert h. induction order as [|q order IH]; intros h Hn Hl Hp.
  { exists h. split; [done|]. intros p. by rewrite bool_decide_eq_false_2 by apply not_elem_of_nil. }
  pose proof (NoDup_cons_1_1 _ _ Hn) as Hq. apply NoDup_cons_1_2 in Hn. cbn [run_checks]. unfold check_update_score.
  destruct (score_prompt (E:=E) (probe q)) as [-> _]; [apply Hp; by left|]. simpl.
  destruct (lookup_lt_is_Some_2 h q) as [s Hs]; [apply Hl; by left|].
  unfold deref. rewrite Hs. simpl.
  destruct (IH (<[q:=push_latency now (score_of (probe q)) s]> h)) as (h' & -> & Hh');
    [done|intros p Hin; rewrite length_insert; apply Hl; by right|intros p Hin; apply Hp; by right|].
  exists h'. split; [done|]. intros p. rewrite Hh'.
  destruct (decide (p = q)) as [->|Hne].
  - rewrite bool_decide_eq_false_2 by done. rewrite bool_decide_eq_true_2 by (by left).
    rewrite list_lookup_insert_eq by (by eapply lookup_lt_Some). by rewrite Hs.
  - rewrite list_lookup_insert_ne by done.
    rewrite (bool_decide_ext (p ∈ q :: order) (p ∈ order)); [done|].
    rewrite elem_of_cons. naive_solver.
Qed.

(** [value_at h ps k v]: the last latency of the [k]th server of [ps] is [v]. *)
Definition value_at (h : list Server) (ps : list ptr) (k : nat) (v : Z) : Prop :=
  ∃ p s, ps !! k = Some p ∧ h !! p = Some s ∧ last_value s = v.

Lemma value_at_S h p ps k v : value_at h (p :: ps) (Datatypes.S k) v ↔ value_at h ps k v.
Proof. done. Qed.

(** [selects h ps limit k]: the [k]th server is the first with the least latency that is
    neither zero nor at least [limit]. *)
Definition selects (h : list Server) (ps : list ptr) (limit : Z) (k : nat) : Prop :=
  ∃ v, value_at h ps k v ∧ v ≠ 0 ∧ v < limit
    ∧ ∀ k' v', value_at h ps k' v' → v' ≠ 0 → v <= v' ∧ ((k' < k)%nat → v < v').

Lemma select_best_spec {E} h ps idx bi limit :
  (∀ p, p ∈ ps → valid h p) →
  ∃ r, select_best (E:=E) h idx ps bi limit = Ok r
    ∧ ((r = bi ∧ ∀ k v, value_at h ps k v → v ≠ 0 → limit <= v)
       ∨ ∃ k, r = (idx + k)%nat ∧ selects h ps limit k).
Proof.
  revert idx bi limit. induction ps as [|p ps IH]; intros idx bi limit Hv.
  { exists bi. split; [done|]. left. split; [done|]. by intros k v (? & ? & ? & _). }
  destruct (Hv p) as (s & Hs & Hc); [by left|].
  assert (∀ q, q ∈ ps → valid h q) as Hv' by (intros q Hq; apply Hv; by right).
  assert (∀ v', value_at h (p :: ps) 0 v' → v' = last_value s) as H0.
  { intros v' (? & ? & [= <-] & Hs' & <-). by simplify_eq. }
  cbn [select_best]. unfold deref. rewrite Hs. simpl. rewrite latency_checked by done. simpl.
  set (v := last_value s) in *.
  destruct (Z.eqb_spec v 0) as [Hz|Hz]; [|destruct (Z.ltb_spec v limit) as [Hlt|Hge]].
  - destruct (IH (idx + 1)%nat bi limit Hv') as (r & -> & Hr). exists r. split; [done|].
    destruct Hr as [[-> Hr]|(k & -> & v1 & H1 & H2 & H3 & H4)]; [left|right].
    + split; [done|]. intros [|k] v'; [by intros ->%H0|by apply Hr].
    + exists (Datatypes.S k). split; [lia|]. exists v1. split_and!; try done.
      intros [|k'] v'; [by intros ->%H0|]. intros Hk' Hnz. destruct (H4 k' v' Hk' Hnz). split; [done|].
      intros; lia.
  - destruct (IH (idx + 1)%nat idx v Hv') as (r & -> & Hr). exists r. split; [done|]. right.
    destruct Hr as [[-> Hr]|(k & -> & v1 & H1 & H2 & H3 & H4)].
    + exists 0%nat. split; [lia|]. exists v. split_and!; try done; [by exists p, s|].
      intros [|k'] v'; [intros ->%H0; lia|]. intros Hk' Hnz. specialize (Hr k' v' Hk' Hnz). lia.
    + exists (Datatypes.S k). split; [lia|]. exists v1. split_and!; try done; [lia|].
      intros [|k'] v'; [intros ->%H0; lia|]. intros Hk' Hnz. destruct (H4 k' v' Hk' Hnz). split; [done|].
      intros; lia.
  - destruct (IH (idx + 1)%nat bi limit Hv') as (r & -> & Hr). exists r. split; [done|].
    destruct Hr as [[-> Hr]|(k & -> & v1 & H1 & H2 & H3 & H4)]; [left|right].
    + split; [done|]. intros [|k] v'; [by intros ->%H0|by apply Hr].
    + exists (Datatypes.S k). split; [lia|]. exists v1. split_and!; try done.
      intros [|k'] v'; [intros ->%H0; lia|]. intros Hk' Hnz. destruct (H4 k' v' Hk' Hnz). split; [done|].
      intros; lia.
Qed.

Lemma selects_lt h ps limit k : selects h ps limit k → (k < length ps)%nat.
Proof. intros (v & (p & s & Hp & _) & _). by eapply lookup_lt_Some. Qed.

(** A round of checks: which servers it pushed to, and what it chose. *)
Record round (now : Z) (probe : ptr → Probe) (h h' : list Server) (peers peers' : Peers) : Prop := {
  round_servers : servers peers' = servers peers;
  round_pushed : ∀ p, h' !! p = if bool_decide (p ∈ servers peers)
    then push_latency now (score_of (probe p)) <$> h !! p else h !! p;
  round_best : selects h' (servers peers) u32_max (best_index peers')
    ∨ best_index peers' = 0%nat ∧ ∀ k v, value_at h' (servers peers) k v → v = 0
}.

Lemma check_once_round `{Profile} {E} now probe order h peers :
  servers peers ≠ [] → NoDup (servers peers) → order ≡ₚ servers peers →
  (∀ p, p ∈ servers peers → (p < length h)%nat) →
  (∀ p, p ∈ servers peers → prompt (probe p)) →
  ∃ h' peers', check_once (E:=E) now probe order h peers = Ok (h', peers')
    ∧ round now probe h h' peers peers'
    ∧ (∀ p, p ∈ servers peers → valid h' p) ∧ (best_index peers' < length (servers peers))%nat.
Proof.
  intros Hne Hn Ho Hl Hp. unfold check_once.
  destruct (run_checks_spec (E:=E) now probe order h) as (h' & Hrun & Hh').
  { by rewrite Ho. } { intros p. rewrite Ho. apply Hl. } { intros p. rewrite Ho. apply Hp. }
  assert (∀ p, h' !! p = if bool_decide (p ∈ servers peers)
          then push_latency now (score_of (probe p)) <$> h !! p else h !! p) as Hpush.
  { intros p. rewrite Hh'. by rewrite (bool_decide_ext (p ∈ order) (p ∈ servers peers)) by (by rewrite Ho). }
  assert (∀ p, p ∈ servers peers → valid h' p ∧ ∃ s, h' !! p = Some s ∧ last_value s < u32_max) as Hv.
  { intros p Hin. destruct (lookup_lt_is_Some_2 h p (Hl p Hin)) as [s Hs].
    specialize (Hpush p). rewrite bool_decide_eq_true_2, Hs in Hpush by done.
    split; eexists; (split; [exact Hpush|]); [apply push_latency_checked|].
    rewrite push_latency_last. by apply (score_prompt (E:=E)), Hp. }
  destruct (select_best_spec (E:=E) h' (servers peers) 0 0 u32_max) as (r & Hr & Hspec);
    [intros; by apply Hv|].
  assert (r < length (servers peers))%nat as Hlt.
  { destruct Hspec as [[-> _]|(k & -> & Hk)]; [destruct (servers peers); [done|simpl; lia]|].
    by apply selects_lt in Hk. }
  destruct (nth_server_ok (E:=E) h' (servers peers) (Z.of_nat r)) as (p & s & Hnth & _);
    [intros; by apply Hv|lia|].
  exists h', {| servers := servers peers; best_index := r |}.
  destruct (servers peers) as [|p0 ps0] eqn:Eps; [done|]. rewrite Hrun. cbn [mbind res_bind].
  rewrite Hr. cbn [mbind res_bind]. rewrite Hnth. cbn [mbind res_bind].
  split_and!; [done| |by apply Hv|done].
  split; rewrite ?Eps; [done|done|]. simpl.
  destruct Hspec as [[-> Hall]|(k & -> & Hk)]; [right|by left]. split; [done|].
  intros k v Hkv. destruct (decide (v = 0)) as [|Hnz]; [done|]. specialize (Hall k v Hkv Hnz).
  destruct Hkv as (p' & s' & Hp' & Hs' & <-).
  destruct (Hv p') as (_ & s2 & Hs2 & Hlt2); [by eapply list_elem_of_lookup_2|].
  simplify_eq. lia.
Qed.

(** ** The life of a pool *)

(** A heap with the current peers. *)
Record World := { heap : list Server; peers : Peers }.

(** The orders and probes of a round of checks on some peers. *)
Definition checks (ps : Peers) (probe : ptr → Probe) (order : list ptr) : Prop :=
  order ≡ₚ servers ps ∧ ∀ p, p ∈ servers ps → prompt (probe p).

(** A usable answer of the provider. *)
Definition some_servers (configs : list ServerConfig) : Prop :=
  configs ≠ [] ∧ Z.of_nat (length configs) <= 2 ^ 31.

(** The states of [Upstream]: after [new], after every round of the checking task, after
    every report of a connection, which may still hold a server that was replaced, and
    after every reload. *)
Inductive reachable `{Profile} (E : Type) : World → Prop :=
  | reach_new now probe order configs h ps h' ps' :
    some_servers configs → load_peers [] configs = (h, ps) → checks ps probe order →
    check_once (E:=E) now probe order h ps = Ok (h', ps') →
    reachable E {| heap := h'; peers := ps' |}
  | reach_check now probe order w h' ps' :
    reachable E w → checks (peers w) probe order →
    check_once (E:=E) now probe order (heap w) (peers w) = Ok (h', ps') →
    reachable E {| heap := h'; peers := ps' |}
  | reach_report now p w :
    reachable E w → reachable E {| heap := alter (report_failure now) p (heap w); peers := peers w |}
  | reach_reload now probe order configs w h ps h' ps' :
    reachable E w → some_servers configs → load_peers (heap w) configs = (h, ps) →
    checks ps probe order → check_once (E:=E) now probe order h ps = Ok (h', ps') →
    reachable E {| heap := h'; peers := ps' |}.

Lemma checked_pool_ok `{Profile} {E} now probe order h ps h' ps' :
  servers ps ≠ [] → Z.of_nat (length (servers ps)) <= 2 ^ 31 → NoDup (servers ps) →
  (∀ p, p ∈ servers ps → (p < length h)%nat) → checks ps probe order →
  check_once (E:=E) now probe order h ps = Ok (h', ps') → pool_ok h' ps'.
Proof.
  intros Hne Hsm Hn Hl [Ho Hp] Hc.
  destruct (check_once_round (E:=E) now probe order h ps Hne Hn Ho Hl Hp)
    as (h1 & ps1 & Hc1 & [Hs _ _] & Hv & Hb). rewrite Hc in Hc1. apply Ok_inj in Hc1. simplify_eq.
  by split; rewrite Hs.
Qed.

Lemma loaded_pool_ok `{Profile} {E} now probe order configs h0 h ps h' ps' :
  some_servers configs → load_peers h0 configs = (h, ps) → checks ps probe order →
  check_once (E:=E) now probe order h ps = Ok (h', ps') → pool_ok h' ps'.
Proof.
  intros [Hne Hsm] [= <- <-] Hck. apply checked_pool_ok; simpl.
  - by destruct configs.
  - by rewrite length_seq.
  - apply NoDup_seq.
  - intros p Hp%elem_of_seq. rewrite length_app, length_fmap. lia.
  - done.
Qed.

Lemma reachable_pool_ok `{Profile} {E} w : reachable E w → pool_ok (heap w) (peers w).
Proof.
  induction 1 as [now probe order configs h ps h' ps' Hs Hl Hck Hc
                 |now probe order w h' ps' _ IH Hck Hc|now p w _ IH
                 |now probe order configs w h ps h' ps' _ IH Hs Hl Hck Hc]; simpl.
  - by apply (loaded_pool_ok (E:=E) now probe order configs [] h ps).
  - destruct IH as [Hne Hsm Hb Hn Hv].
    apply (checked_pool_ok (E:=E) now probe order (heap w) (peers w)); try done.
    intros p Hp. by apply valid_pos, Hv.
  - by apply report_pool_ok.
  - by apply (loaded_pool_ok (E:=E) now probe order configs (heap w) h ps).
Qed.

(** ** Connecting *)

Definition count {A} (f : A → bool) (l : list A) : nat := length (filter (λ x, f x = true) l).

Lemma count_mono {A} (f g : A → bool) l : (∀ x, g x = true → f x = true) → (count g l ≤ count f l)%nat.
Proof.
  intros Hgf. unfold count. induction l as [|x l IH]; [done|]. rewrite !filter_cons.
  destruct (decide (g x = true)) as [Hg|Hg]; [rewrite decide_True by auto; simpl; lia|].
  case_decide; simpl; lia.
Qed.

Lemma count_lt {A} (f g : A → bool) l x : (∀ x, g x = true → f x = true) → x ∈ l →
  f x = true → g x = false → (count g l < count f l)%nat.
Proof.
  intros Hgf Hin Hf Hg. unfold count. induction l as [|y l IH]; [by apply not_elem_of_nil in Hin|].
  rewrite !filter_cons. apply elem_of_cons in Hin as [<-|Hin].
  - rewrite (decide_True (P:=f x = true)) by done. rewrite (decide_False (P:=g x = true)) by congruence.
    pose proof (count_mono f g l Hgf). unfold count in *. simpl. lia.
  - specialize (IH Hin). destruct (decide (g y = true)); [rewrite decide_True by auto; simpl; lia|].
    case_decide; simpl; lia.
Qed.

Definition aliveb (h : list Server) (p : ptr) : bool :=
  match h !! p with
  | Some s => bool_decide (latencies s ≠ []) && bool_decide (0 < last_value s)
  | None => false
  end.

Lemma aliveb_spec h p : aliveb h p = true ↔ alive_at h p.
Proof.
  unfold aliveb, alive_at, is_alive, checked. destruct (h !! p) as [s|].
  - rewrite andb_true_iff, !bool_decide_eq_true. naive_solver.
  - naive_solver.
Qed.

Section connect.
Context `{Profile} {E : Type} (etld1 : bytes → option bytes) (connect proxied : ptr → res ErrorKind ()).

(** The live servers that refuse. *)
Definition refusing (h : list Server) (ps : Peers) : nat :=
  count (λ p, aliveb h p && negb (is_ok (connect p))) (servers ps).

(** Neither connecting through a server of the list nor relaying panics. *)
Definition steady (ps : Peers) : Prop :=
  ∀ p, p ∈ servers ps → connect p ≠ Panic ∧ proxied p ≠ Panic.

Lemma connect_loop_succeeds attempts now lb host ps h :
  pool_ok h ps → pickable etld1 lb host → steady ps →
  (∃ q, q ∈ servers ps ∧ alive_at h q ∧ connect q = Ok ()) →
  (refusing h ps < attempts)%nat →
  ∃ p h', connect_loop (E:=E) etld1 connect proxied attempts now lb host ps h = Some (Ok (Connected p), h')
    ∧ p ∈ servers ps ∧ connect p = Ok ().
Proof.
  intros Hok Hpk Hst Hq. revert h Hok Hq.
  induction attempts as [|n IH]; intros h Hok (q & Hq & Ha & Hc) Hr; [lia|].
  cbn [connect_loop].
  destruct (pick_good (E:=E) etld1 h ps lb host Hok Hpk) as (p & -> & Hin & Halive).
  cbn [mbind option_bind]. destruct (Hst p Hin) as [Hcp Hpp].
  destruct (connect p) as [[]|e|] eqn:Ep; [by destruct (proxied p); [eexists p, _..|]| |done].
  specialize (Halive (ex_intro _ q (conj Hq Ha))).
  apply IH; [by apply report_pool_ok| |].
  - exists q. split_and!; [done| |done]. apply report_keeps_alive; [by intros ->; congruence|done].
  - unfold refusing in *. eapply Nat.lt_le_trans; [|apply Nat.lt_succ_r; exact Hr].
    apply (count_lt _ _ _ p); [|done| |].
    + intros x [Hx ->]%andb_true_iff. apply aliveb_spec, report_alive in Hx as [Hx _].
      apply aliveb_spec in Hx. by rewrite Hx.
    + rewrite Ep. apply aliveb_spec in Halive. by rewrite Halive.
    + rewrite Ep. destruct (aliveb _ p) eqn:Eb; [|done]. apply aliveb_spec in Eb.
      by apply report_dead in Eb.
Qed.
End connect.

Lemma read_configs_usable `{C : CryptoLib} `{!CryptoLibOk C} `{L : ConfigLib} `{!ConfigLibOk L} ls :
  ∃ r, read_configs ls = Some r
    ∧ ∀ cs, r = Ok cs → Forall usable cs ∧ length cs = length ls.
Proof.
  induction ls as [|url ls (r & Hr & IH)]; [exists (Ok []); split; [done|]; by intros cs [= <-]|].
  cbn [read_configs]. destruct (from_url_result url) as (ru & -> & Hu). cbn [mbind option_bind].
  destruct ru as [c|e|]; cbn [map_err]; [|by eexists..]. rewrite Hr. cbn [mbind option_bind].
  eexists. split; [done|]. intros cs (cs' & -> & [= <-])%bind_Ok.
  destruct (IH cs' eq_refl). split; [|simpl; congruence]. constructor; [by apply Hu|done].
Qed.

(** ** Properties *)

(** In every state of the pool a pick succeeds, by either balancer, and is a live server
    whenever one is alive.  (In a build that checks overflow, the balancer by name needs a
    hash of the name that is not within five of the largest.) *)
Theorem pick_finds_alive `{Profile} {E} (etld1 : bytes → option bytes) (w : World)
    (lb : LoadBalanceType) (host : bytes)
    (Hw : reachable E w) (Hpk : pickable etld1 lb host) :
  ∃ p, pick (E:=E) etld1 (heap w) (peers w) lb host = Some (Ok p)
    ∧ p ∈ servers (peers w)
    ∧ ((∃ q, q ∈ servers (peers w) ∧ alive_at (heap w) q) → alive_at (heap w) p).
Proof. apply pick_good; [by apply (reachable_pool_ok (E:=E))|done]. Qed.

(** Failover.  If neither connecting nor relaying panics, fewer than five of the live servers
    refuse the connection and some live server accepts it, the relay connects, to a server
    that accepts it. *)
Theorem relay_connects `{Profile} {E} (etld1 : bytes → option bytes) (connect proxied : ptr → res ErrorKind ())
    (w : World) (now : Z) (lb : LoadBalanceType) (host : bytes) (q : ptr)
    (Hw : reachable E w) (Hpk : pickable etld1 lb host)
    (Hq : q ∈ servers (peers w)) (Ha : alive_at (heap w) q) (Hc : connect q = Ok ())
    (Hst : steady connect proxied (peers w)) (Hr : (refusing connect (heap w) (peers w) < 5)%nat) :
  ∃ p h', connect_upstream (E:=E) etld1 connect proxied now lb host (peers w) (heap w)
          = Some (Ok (Connected p), h')
    ∧ p ∈ servers (peers w) ∧ connect p = Ok ().
Proof.
  apply connect_loop_succeeds; [by apply (reachable_pool_ok (E:=E))|done|done| |done].
  by exists q.
Qed.

(** C15: a round of checks, in whatever order they finish, records one latency for each server,
    zero if the check failed, and then chooses the first of the servers with the least
    latency among those that are alive, or the first server if none is. *)
Theorem check_chooses_best `{Profile} {E} (w : World) (now : Z) (probe : ptr → Probe)
    (order : list ptr)
    (Hw : reachable E w) (Hck : checks (peers w) probe order) :
  ∃ h' peers', check_once (E:=E) now probe order (heap w) (peers w) = Ok (h', peers')
    ∧ round now probe (heap w) h' (peers w) peers'.
Proof.
  destruct (reachable_pool_ok (E:=E) w Hw) as [Hne _ _ Hn Hv]. destruct Hck as [Ho Hp].
  destruct (check_once_round (E:=E) now probe order (heap w) (peers w)) as (h' & ps' & ? & ? & _);
    [done|done|done|intros p Hin; by apply valid_pos, Hv|done|]. by exists h', ps'.
Qed.

(** C35: the consistent hash terminates within as many rounds as there are buckets, and is the
    index of a bucket; its floating point jumps always go forward. *)
Theorem jumphash_in_range (key buckets : Z)
    (Hkey : 0 <= key < 2 ^ 64) (Hb : 0 < buckets <= 2 ^ 31) :
  ∃ r, jumphash key buckets = Some r ∧ 0 <= r < buckets.
Proof. by apply jumphash_range. Qed.

(** A server remembers the last ten of the latencies reported to it, in order. *)
Lemma history_is_last_ten (config : ServerConfig) (reports : list (Z * Z)) :
  let s := foldl (λ s r, push_latency r.1 r.2 s) (Server_new config) reports in
  value <$> latencies s = drop (length reports - 10) reports.*2.
Proof.
  intros s. enough (holds_last reports.*2 s) as Hh.
  { unfold holds_last in Hh. by rewrite length_fmap in Hh. }
  subst s. induction reports as [|r reports IH] using rev_ind; [done|].
  rewrite foldl_app, fmap_app. by apply push_latency_holds.
Qed.

(** A provider that answers with an empty list takes the relay down: every pick of a pool
    without servers panics. *)
Theorem empty_pool_panics `{Profile} {E} (etld1 : bytes → option bytes) (h : list Server)
    (lb : LoadBalanceType) (host : bytes) :
  pick (E:=E) etld1 h (load_peers h []).2 lb host = Some Panic.
Proof. by destruct lb. Qed.

(** A server list is either refused or gives one usable configuration for each of its lines
    that is UTF-8. *)
Theorem fetch_usable `{C : CryptoLib} `{!CryptoLibOk C} `{L : ConfigLib} `{!ConfigLibOk L}
    (body data : bytes) (Hdata : decode_std body = Some data) :
  ∃ r, fetch (Ok (200, body)) = Some r
    ∧ ∀ cs, r = Ok cs → Forall usable cs
        ∧ length cs = length (filter (λ l, Utf8.from_utf8_ok l = true) (lines [] data)).
Proof. unfold fetch. simpl. rewrite Hdata. apply read_configs_usable. Qed.

(** ** A pool of three servers *)

Module Demo.
Definition configs : list ServerConfig := replicate 3 ServerConfig.Demo.config.

(** The first server fails its check, the others answer in 30 and in 20 milliseconds. *)
Definition probe (p : ptr) : Probe :=
  match p with
  | 0 => {| took := 5000000000; probe_result := None |}
  | 1 => {| took := 30000000; probe_result := Some (Ok ()) |}
  | _ => {| took := 20000000; probe_result := Some (Ok ()) |}
  end%nat.

Definition order : list ptr := [1; 2; 0]%nat.
Definition loaded := load_peers [] configs.
Definition after : res () (list Server * Peers) :=
  check_once (H:=dev) 7 probe order loaded.1 loaded.2.

Definition world : World :=
  match after with
  | Ok (h, ps) => {| heap := h; peers := ps |}
  | _ => {| heap := []; peers := loaded.2 |}
  end.

Example chosen : (servers (peers world), best_index (peers world)) = ([0; 1; 2], 2)%nat.
Proof. vm_compute. reflexivity. Qed.

Lemma probes_prompt p : prompt (probe p).
Proof. destruct p as [|[|p]]; (split; [simpl; lia|done]). Qed.

Lemma order_checks : checks loaded.2 probe order.
Proof.
  split; [|intros; apply probes_prompt].
  apply (Permutation_trans (l':=[1; 0; 2]%nat)); [apply perm_skip, perm_swap|apply perm_swap].
Qed.

Lemma world_reachable : reachable (H:=dev) () world.
Proof.
  apply (reach_new (H:=dev) () 7 probe order configs loaded.1 loaded.2 (heap world) (peers world)).
  - split; [done|simpl; lia].
  - done.
  - exact order_checks.
  - vm_compute. reflexivity.
Qed.

Lemma second_alive : alive_at (heap world) 1.
Proof. apply aliveb_spec. vm_compute. reflexivity. Qed.

Definition etld1 (host : bytes) : option bytes := None.

Definition body : bytes := replicate 11 61 ++ ((λ c, c + 128) <$> (ServerConfig.Demo.plain ++ [10])).
Definition second_opens (p : ptr) : res ErrorKind () :=
  if bool_decide (p = 1%nat) then Ok () else Err OtherError.
End Demo.

Lemma pick_finds_alive_witness :
  ∃ p, pick (H:=dev) (E:=()) Demo.etld1 (heap Demo.world) (peers Demo.world) Etld example_host
       = Some (Ok p) ∧ p ∈ servers (peers Demo.world) ∧ alive_at (heap Demo.world) p.
Proof.
  destruct (pick_finds_alive (H:=dev) (E:=()) Demo.etld1 Demo.world Etld example_host)
    as (p & Hp & Hin & Ha).
  - exact Demo.world_reachable.
  - intros _. apply Z.ltb_lt. vm_compute. reflexivity.
  - exists p. split_and!; [exact Hp|exact Hin|]. apply Ha. exists 1%nat.
    split; [|exact Demo.second_alive]. apply (bool_decide_unpack _). vm_compute. exact I.
Defined.

(** The best server refuses; the relay goes on to the second. *)
Lemma relay_connects_witness :
  ∃ p h', connect_upstream (H:=dev) (E:=()) Demo.etld1 Demo.second_opens (λ _, Ok ()) 8 Best
            example_host (peers Demo.world) (heap Demo.world) = Some (Ok (Connected p), h')
    ∧ p ∈ servers (peers Demo.world) ∧ Demo.second_opens p = Ok ().
Proof.
  apply (relay_connects (H:=dev) (E:=()) Demo.etld1 Demo.second_opens (λ _, Ok ()) Demo.world 8 Best
           example_host 1).
  - exact Demo.world_reachable.
  - exact I.
  - apply (bool_decide_unpack _). vm_compute. exact I.
  - exact Demo.second_alive.
  - reflexivity.
  - intros p _. split; [unfold Demo.second_opens; by case_bool_decide|discriminate].
  - apply (bool_decide_unpack _). vm_compute. exact I.
Defined.

Lemma check_chooses_best_witness :
  ∃ h' peers', check_once (H:=dev) (E:=()) 9 Demo.probe Demo.order (heap Demo.world) (peers Demo.world)
               = Ok (h', peers')
    ∧ round 9 Demo.probe (heap Demo.world) h' (peers Demo.world) peers'.
Proof.
  apply (check_chooses_best (H:=dev) (E:=()) Demo.world 9 Demo.probe Demo.order).
  - exact Demo.world_reachable.
  - exact Demo.order_checks.
Defined.

Lemma jumphash_in_range_witness : ∃ r, jumphash 12345 3 = Some r ∧ 0 <= r < 3.
Proof. apply (jumphash_in_range 12345 3); lia. Defined.

(** One line, with the URL of the server. *)
Lemma fetch_usable_witness :
  fetch (L:=ServerConfig.Demo.lib) (Ok (200, Demo.body)) = Some (Ok [ServerConfig.Demo.config])
  ∧ Forall (usable (C:=Toy.toy)) [ServerConfig.Demo.config].
Proof.
  destruct (fetch_usable (C:=Toy.toy) (L:=ServerConfig.Demo.lib) Demo.body (ServerConfig.Demo.plain ++ [10]))
    as (r & Hr & Hcs).
  - vm_compute. reflexivity.
  - assert (fetch (L:=ServerConfig.Demo.lib) (Ok (200, Demo.body)) = Some (Ok [ServerConfig.Demo.config]))
      as E by (vm_compute; reflexivity).
    split; [exact E|]. apply Hcs. rewrite E in Hr. by injection Hr.
Defined.
