(* ===== verification/PoolLife.v ===== *)
(** * The life of the server pool (upstream/mod.rs, [Upstream::new] and its tasks)

    [Upstream::new] loads the list of servers, checks them once and starts two tasks: one
    checks the current servers over and over, one loads the list again and, when that
    succeeds, checks the new servers and puts them in the place of the old ones.  Meanwhile
    connections report failures.  A run of the service is a sequence of such events. *)

From S2P Require Import Prelude RustStr Io Address Crypto ServerConfig Upstream.

Section life.
Context `{Profile} `{L : ConfigLib}.

(** What a round of checks meets: the time, the outcome of each check, and the order in
    which the checks of a list of servers finish. *)
Record Checking := { at_time : Z; outcome : ptr → Probe; finish : list ptr → list ptr }.

Definition check_round {E} (c : Checking) (w : World) : res E World :=
  '(h, ps) ← check_once (at_time c) (outcome c) (finish c (servers (peers w))) (heap w) (peers w);
  Ok {| heap := h; peers := ps |}.

(** [Provider::load] and [Peers::new], with servers allocated behind those of [h]. *)
Definition load (h : list Server) (resp : res ExchangeError (Z * bytes)) : option (res ProviderError World) :=
  match fetch resp with
  | Some (Ok configs) =>
    let '(h, ps) := load_peers h configs in Some (Ok {| heap := h; peers := ps |})
  | Some (Err e) => Some (Err e)
  | Some Panic => Some Panic
  | None => None
  end.

Definition Upstream_new (resp : res ExchangeError (Z * bytes)) (first : Checking)
  : option (res ProviderError World) :=
  r ← load [] resp;
  Some (w ← r; check_round first w).

(** One turn of the task that checks. *)
Definition check_turn {E} (c : Checking) (w : World) : res E World := check_round c w.

(** One turn of the task that reloads: a failure is logged and changes nothing. *)
Definition reload_turn {E} (resp : res ExchangeError (Z * bytes)) (c : Checking) (w : World)
  : option (res E World) :=
  r ← load (heap w) resp;
  Some match r with
  | Ok new => check_round c new
  | Err _ => Ok w
  | Panic => Panic
  end.

Inductive Event :=
  | Check (c : Checking)
  | Report (now : Z) (p : ptr)
  | Reload (resp : res ExchangeError (Z * bytes)) (c : Checking).

Definition run_event {E} (e : Event) (w : World) : option (res E World) :=
  match e with
  | Check c => Some (check_turn c w)
  | Report now p =>
    Some (Ok {| heap := alter (report_failure now) p (heap w); peers := peers w |})
  | Reload resp c => reload_turn resp c w
  end.

Fixpoint run_events {E} (es : list Event) (w : World) : option (res E World) :=
  match es with
  | [] => Some (Ok w)
  | e :: es =>
    r ← run_event e w;
    match r with
    | Ok w => run_events es w
    | Err e => Some (Err e)
    | Panic => Some Panic
    end
  end.
End life.

(** ** Well-formedness *)

(** No server of the heap remembers more than ten latencies. *)
Definition histories (h : list Server) : Prop := Forall (λ s, (length (latencies s) ≤ MAX_HISTORY)%nat) h.

(** The heap holds servers with at most ten latencies each; the current list is not empty,
    has no server twice and points into the heap to servers that were checked; and the
    best server is one of the list. *)
Record pool_wf (w : World) : Prop := {
  wf_pool : pool_ok (heap w) (peers w);
  wf_history : histories (heap w)
}.

(** Every check of a round finishes, within the range of its result. *)
Definition checking_ok (c : Checking) : Prop :=
  (∀ l, finish c l ≡ₚ l) ∧ ∀ p, prompt (outcome c p).

(** The provider answers with a list of servers that is not empty, or fails. *)
Definition answer_ok `{L : ConfigLib} (resp : res ExchangeError (Z * bytes)) : Prop :=
  match fetch resp with
  | Some (Ok configs) => some_servers configs
  | Some (Err _) => True
  | Some Panic | None => False
  end.

(** A list that is read, if one is, has at most 2^31 servers. *)
Definition small_answer `{L : ConfigLib} (resp : res ExchangeError (Z * bytes)) : Prop :=
  ∀ configs, fetch resp = Some (Ok configs) → Z.of_nat (length configs) <= 2 ^ 31.

Definition event_ok `{L : ConfigLib} (e : Event) : Prop :=
  match e with
  | Check c => checking_ok c
  | Report _ _ => True
  | Reload resp c => small_answer resp ∧ checking_ok c
  end.

(** The configurations of the last list that was read. *)
Fixpoint current `{L : ConfigLib} (configs : list ServerConfig) (es : list Event) : list ServerConfig :=
  match es with
  | [] => configs
  | Reload resp _ :: es => current (match fetch resp with Some (Ok new) => new | _ => configs end) es
  | _ :: es => current configs es
  end.

(** The current servers are those of [configs], in order; if there are any, the list is in
    order; and no server remembers more than ten latencies. *)
Record serves (configs : list ServerConfig) (w : World) : Prop := {
  sv_list : (λ p, config <$> heap w !! p) <$> servers (peers w) = Some <$> configs;
  sv_pool : configs ≠ [] → pool_ok (heap w) (peers w);
  sv_history : histories (heap w)
}.

Lemma report_histories now p h : histories h → histories (alter (report_failure now) p h).
Proof.
  intros Hh. apply Forall_lookup. intros q s. rewrite list_lookup_alter.
  case_decide; [intros (s0 & Hs0 & ->)%fmap_Some; apply push_latency_history|intros Hs0];
    by eapply Forall_lookup_1 in Hh.
Qed.

Lemma load_histories h configs : histories h → histories (load_peers h configs).1.
Proof.
  intros Hh. apply Forall_app. split; [done|]. apply Forall_fmap, Forall_true. intros. simpl. lia.
Qed.

Lemma report_wf now p h ps :
  pool_wf {| heap := h; peers := ps |} →
  pool_wf {| heap := alter (report_failure now) p h; peers := ps |}.
Proof. intros [Hok Hh]. split; simpl; [by apply report_pool_ok|by apply report_histories]. Qed.

Section proofs.
Context `{Profile} `{L : ConfigLib}.

(** A round of checks on servers that exist, the current ones or new ones, succeeds. *)
Lemma check_round_wf {E} c w :
  checking_ok c → servers (peers w) ≠ [] → Z.of_nat (length (servers (peers w))) <= 2 ^ 31 →
  NoDup (servers (peers w)) → (∀ p, p ∈ servers (peers w) → (p < length (heap w))%nat) →
  histories (heap w) →
  ∃ w', check_round (E:=E) c w = Ok w' ∧ pool_wf w'
    ∧ servers (peers w') = servers (peers w) ∧ ∀ p, config <$> heap w' !! p = config <$> heap w !! p.
Proof.
  intros [Ho Hp] Hne Hsm Hn Hl Hh. unfold check_round.
  destruct (check_once_round (E:=E) (at_time c) (outcome c) (finish c (servers (peers w)))
              (heap w) (peers w)) as (h' & ps' & Hc & [Hs Hpush _] & Hv & Hb); auto.
  rewrite Hc. cbn [mbind res_bind]. eexists. split; [done|]. split; [split; simpl|split; simpl; [done|]].
  3: { intros p. rewrite Hpush. case_bool_decide; [|done]. by destruct (heap w !! p). }
  - by split; rewrite Hs.
  - apply Forall_lookup. intros p s. rewrite Hpush. case_bool_decide.
    + intros (s0 & Hs0 & ->)%fmap_Some. apply push_latency_history. by eapply Forall_lookup_1 in Hh.
    + intros Hs0. by eapply Forall_lookup_1 in Hh.
Qed.

Lemma load_serves h configs p s :
  (seq (length h) (length configs)) !! p = Some s →
  config <$> (h ++ (Server_new <$> configs)) !! s = configs !! p.
Proof.
  intros [-> Hp]%lookup_seq. rewrite lookup_app_r by lia. rewrite list_lookup_fmap.
  replace (length h + p - length h)%nat with p by lia. by destruct (configs !! p).
Qed.

(** New servers are checked and take the place of the old ones. *)
Lemma load_round {E} h configs c :
  Z.of_nat (length configs) <= 2 ^ 31 → checking_ok c → histories h →
  ∃ w', check_round (E:=E) c {| heap := (load_peers h configs).1; peers := (load_peers h configs).2 |}
        = Ok w' ∧ serves configs w'.
Proof.
  intros Hsm Hc Hh. pose proof (load_histories h configs Hh) as Hh'.
  assert ((λ p, config <$> (h ++ (Server_new <$> configs)) !! p) <$> seq (length h) (length configs)
          = Some <$> configs) as Hlist.
  { apply list_eq. intros i. rewrite !list_lookup_fmap.
    destruct (seq (length h) (length configs) !! i) as [p|] eqn:Hi; simpl.
    - rewrite (load_serves h configs i p Hi). apply lookup_seq in Hi as [_ Hi].
      by destruct (lookup_lt_is_Some_2 configs i Hi) as [? ->].
    - apply lookup_ge_None in Hi. rewrite length_seq in Hi. by rewrite lookup_ge_None_2. }
  destruct (decide (configs = [])) as [->|Hne].
  { eexists. split; [done|]. split; [done|done|exact Hh']. }
  destruct (check_round_wf (E:=E) c {| heap := (load_peers h configs).1; peers := (load_peers h configs).2 |})
    as (w' & Hr & [Hok Hw'] & Hs & Hcfg); [done|simpl..|].
  - by destruct configs.
  - by rewrite length_seq.
  - apply NoDup_seq.
  - intros p Hp%elem_of_seq. rewrite length_app, length_fmap. lia.
  - exact Hh'.
  - exists w'. split; [done|]. split; [|done|done]. rewrite Hs, <- Hlist. apply list_fmap_ext. intros i p _. apply Hcfg.
Qed.

Lemma serves_wf configs w : configs ≠ [] → serves configs w → pool_wf w.
Proof. intros Hne [? Hp ?]. split; [by apply Hp|done]. Qed.

Lemma load_wf {E} h configs c :
  some_servers configs → checking_ok c → histories h →
  ∃ w', check_round (E:=E) c {| heap := (load_peers h configs).1; peers := (load_peers h configs).2 |}
        = Ok w' ∧ pool_wf w'.
Proof.
  intros [Hne Hsm] Hc Hh. destruct (load_round (E:=E) h configs c Hsm Hc Hh) as (w' & ? & ?).
  exists w'. split; [done|]. by eapply serves_wf.
Qed.

Lemma check_serves {E} c configs w : checking_ok c → serves configs w →
  ∃ w', check_round (E:=E) c w = Ok w' ∧ serves configs w'.
Proof.
  intros Hc [Hl Hp Hh]. destruct (decide (configs = [])) as [->|Hne].
  { exists w. split; [|by split]. unfold check_round, check_once. apply fmap_nil_inv in Hl. rewrite Hl.
    by destruct w. }
  destruct (Hp Hne) as [Hne' Hsm Hb Hn Hv].
  destruct (check_round_wf (E:=E) c w) as (w' & Hr & [Hok Hw'] & Hs & Hcfg); auto.
  { intros p Hin. by apply valid_pos, Hv. }
  exists w'. split; [done|]. split; [|done|done]. rewrite Hs, <- Hl. apply list_fmap_ext. intros i p _. apply Hcfg.
Qed.

Lemma report_serves now p configs w : serves configs w →
  serves configs {| heap := alter (report_failure now) p (heap w); peers := peers w |}.
Proof.
  intros [Hl Hp Hh]. split; simpl.
  - rewrite <- Hl. apply list_fmap_ext. intros i q _. rewrite list_lookup_alter. case_decide; [|done]. subst q.
    by destruct (heap w !! p).
  - intros Hne. by apply report_pool_ok, Hp.
  - by apply report_histories.
Qed.

Lemma fetch_total `{!ConfigLibOk L} resp : fetch resp ≠ None.
Proof.
  destruct resp as [[status body]|[]|]; simpl; try done. destruct (negb _); [done|].
  destruct (decode_std body) as [data|]; [|done].
  induction (filter _ _) as [|url ls IH]; cbn [read_configs]; [done|].
  pose proof (from_url_total (length url + 1) url ltac:(lia)) as Ht.
  destruct (from_url _ url) as [[c|e|]|]; try done. cbn [map_err mbind option_bind].
  by destruct (read_configs ls).
Qed.

(** One event, from a pool that serves [configs]; the only panic is that of reading a list. *)
Lemma run_event_serves `{!ConfigLibOk L} {E} e configs w : event_ok e → serves configs w →
  match run_event (E:=E) e w with
  | Some (Ok w') => serves (current configs [e]) w'
  | Some Panic => ∃ resp c, e = Reload resp c ∧ fetch resp = Some Panic
  | Some (Err _) | None => False
  end.
Proof.
  intros He Hw. destruct e as [c|now p|resp c]; simpl in He |- *.
  - unfold check_turn. by destruct (check_serves (E:=E) c configs w He Hw) as (w' & -> & ?).
  - by apply report_serves.
  - destruct He as [Ha Hc]. unfold reload_turn, load. pose proof (fetch_total resp) as Ht.
    destruct (fetch resp) as [[new|e|]|] eqn:Ef; cbn [mbind option_bind res_bind]; [|done| |done].
    + destruct (load_round (E:=E) (heap w) new c (Ha _ Ef) Hc) as (w' & Hr & Hw'); [by destruct Hw|].
      simpl in Hr |- *. by rewrite Hr.
    + by exists resp, c.
Qed.

Lemma run_events_serves `{!ConfigLibOk L} {E} es configs w : Forall event_ok es → serves configs w →
  match run_events (E:=E) es w with
  | Some (Ok w') => serves (current configs es) w'
  | Some Panic => ∃ resp c, Reload resp c ∈ es ∧ fetch resp = Some Panic
  | Some (Err _) | None => False
  end.
Proof.
  intros He. revert configs w. induction He as [|e es He _ IH]; intros configs w Hw; [done|].
  pose proof (run_event_serves (E:=E) e configs w He Hw) as Hr. cbn [run_events].
  destruct (run_event e w) as [[w'| |]|]; try done; cbn [mbind option_bind].
  - specialize (IH _ w' Hr). destruct (run_events es w') as [[w''| |]|]; try done.
    + by destruct e.
    + destruct IH as (resp & c & Hin & Hp). exists resp, c. split; [by right|done].
  - destruct Hr as (resp & c & -> & Hp). exists resp, c. split; [by left|done].
Qed.

Lemma Upstream_new_wf resp configs first :
  fetch resp = Some (Ok configs) → some_servers configs → checking_ok first →
  ∃ w, Upstream_new resp first = Some (Ok w) ∧ pool_wf w.
Proof.
  intros Hf Hs Hc. unfold Upstream_new, load. rewrite Hf. cbn [mbind option_bind res_bind].
  destruct (load_wf (E:=ProviderError) [] configs first Hs Hc) as (w & Hr & Hw); [constructor|].
  simpl in Hr |- *. rewrite Hr. by eexists.
Qed.
End proofs.

(** ** Properties *)

(** C20: the pool serves the last list that could be read, for the whole life of the
    service.  Whatever the provider answers first, [Upstream::new] fails with the
    provider's error, or panics as reading the list does (a URL with an unsupported method),
    or succeeds; and after it any sequence of rounds of checks, reports of failures and
    reloads, with whatever answers and with checks that finish in any order, keeps the
    current servers those of the last list that was read, in order, with at most ten
    latencies each.  If that list is not empty, the current one is without duplicates and of
    servers that were checked, with the best among them; if it is empty, so is the current
    one (and picks from it panic, upstream/mod.rs:87).  The only panic is that of reading a
    list in a reload.  Lists of more than 2^31 servers, and checks that panic or take more
    milliseconds than a [u32] can count, are excluded. *)
Theorem pool_stays_well_formed `{Profile} {E : Type} `{L : ConfigLib} `{!ConfigLibOk L}
    (resp : res ExchangeError (Z * bytes)) (first : Checking) (events : list Event)
    (Hsmall : small_answer resp) (Hfirst : checking_ok first) (Hevents : Forall event_ok events) :
  match Upstream_new resp first with
  | Some (Ok w) => ∃ configs, fetch resp = Some (Ok configs) ∧ serves configs w
      ∧ ∀ es, es `prefix_of` events →
          match run_events (E:=E) es w with
          | Some (Ok w') => serves (current configs es) w'
          | Some Panic => ∃ resp c, Reload resp c ∈ es ∧ fetch resp = Some Panic
          | Some (Err _) | None => False
          end
  | Some (Err e) => fetch resp = Some (Err e)
  | Some Panic => fetch resp = Some Panic
  | None => False
  end.
Proof.
  unfold Upstream_new, load. pose proof (fetch_total resp) as Ht.
  destruct (fetch resp) as [[configs|e|]|] eqn:Ef; [|done..].
  destruct (load_round (E:=ProviderError) [] configs first (Hsmall _ Ef) Hfirst) as (w & Hr & Hw); [constructor|].
  simpl in Hr |- *. rewrite Hr. exists configs. split_and!; [done..|]. intros es [rest ->].
  apply run_events_serves; [|done]. by apply Forall_app in Hevents as [? _].
Qed.

(** ** A service with one server *)

Module Demo.
Definition answer : res ExchangeError (Z * bytes) := Ok (200, Upstream.Demo.body).
Definition round : Checking :=
  {| at_time := 7; outcome _ := {| took := 20000000; probe_result := Some (Ok ()) |};
     finish l := reverse l |}.
(** A list that is served with an error, one without servers, and one with a server. *)
Definition events : list Event :=
  [Check round; Report 8 0%nat; Reload (Ok (500, [])) round; Reload (Ok (200, [61])) round; Check round;
   Reload answer round; Report 9 0%nat].

Lemma round_ok : checking_ok round.
Proof. split; [intros l; apply reverse_Permutation|]. intros p. split; [simpl; lia|done]. Qed.

Abbreviation Lib := ServerConfig.Demo.lib.
Definition world_of {E} (r : option (res E World)) : World :=
  match r with Some (Ok w) => w | _ => {| heap := []; peers := Peers_new [] |} end.
Definition started : World := world_of (Upstream_new (H:=dev) (L:=Lib) answer round).
Definition emptied : World := world_of (run_events (H:=dev) (E:=()) (L:=Lib) (take 5 events) started).
Definition refilled : World := world_of (run_events (H:=dev) (E:=()) (L:=Lib) events started).

Lemma starts : Upstream_new (H:=dev) (L:=Lib) answer round = Some (Ok started).
Proof. vm_compute. reflexivity. Qed.
Lemma runs_5 : run_events (H:=dev) (E:=()) (L:=Lib) (take 5 events) started = Some (Ok emptied).
Proof. vm_compute. reflexivity. Qed.
Lemma runs_7 : run_events (H:=dev) (E:=()) (L:=Lib) events started = Some (Ok refilled).
Proof. vm_compute. reflexivity. Qed.
Lemma answer_read : fetch (L:=Lib) answer = Some (Ok [ServerConfig.Demo.config]).
Proof. vm_compute. reflexivity. Qed.
Lemma none_read : fetch (L:=Lib) (Ok (200, [61])) = Some (Ok []).
Proof. vm_compute. reflexivity. Qed.

Lemma answers_small resp {configs : list ServerConfig} : fetch (L:=Lib) resp = Some (Ok configs) →
  Z.of_nat (length configs) <= 2 ^ 31 → small_answer (L:=Lib) resp.
Proof. intros Hf Hl cs. rewrite Hf. intros Hcs. by injection Hcs as <-. Qed.
Lemma events_ok : Forall (event_ok (L:=Lib)) events.
Proof.
  pose proof round_ok as Hr.
  assert (small_answer (L:=Lib) answer) as Ha by (eapply answers_small; [exact answer_read|simpl; lia]).
  assert (small_answer (L:=Lib) (Ok (200, [61]))) as Hb by (eapply answers_small; [exact none_read|simpl; lia]).
  assert (small_answer (L:=Lib) (Ok (500, []))) as Hc by (intros cs Hcs; discriminate Hcs).
  do 7 (apply Forall_cons_2; [done|]). constructor.
Qed.
End Demo.

Lemma pool_stays_well_formed_witness :
  ∃ w w1 w2, Upstream_new (H:=dev) (L:=ServerConfig.Demo.lib) Demo.answer Demo.round = Some (Ok w)
    ∧ run_events (H:=dev) (E:=()) (L:=ServerConfig.Demo.lib) (take 5 Demo.events) w = Some (Ok w1)
    ∧ serves [] w1
    ∧ run_events (H:=dev) (E:=()) (L:=ServerConfig.Demo.lib) Demo.events w = Some (Ok w2)
    ∧ serves [ServerConfig.Demo.config] w2.
Proof.
  pose proof (pool_stays_well_formed (H:=dev) (E:=()) (L:=ServerConfig.Demo.lib) Demo.answer Demo.round
                Demo.events (Demo.answers_small _ Demo.answer_read ltac:(simpl; lia)) Demo.round_ok Demo.events_ok) as Hlife.
  rewrite Demo.starts in Hlife. destruct Hlife as (configs & Hf & _ & Hrun).
  assert (configs = [ServerConfig.Demo.config]) as ->
    by (rewrite Demo.answer_read in Hf; injection Hf as <-; reflexivity).
  pose proof (Hrun (take 5 Demo.events) (prefix_take _ _)) as H1. pose proof (Hrun Demo.events (reflexivity _)) as H2.
  rewrite Demo.runs_5 in H1. rewrite Demo.runs_7 in H2.
  exists Demo.started, Demo.emptied, Demo.refilled.
  split; [exact Demo.starts|]. split; [exact Demo.runs_5|]. split; [exact H1|]. split; [exact Demo.runs_7|exact H2].
Defined.
