(* ===== verification/Sniffing.v ===== *)
(** * Finding the destination of a connection (src/relay/thp/sniffing.rs)

    The transparent proxy peeks at the first bytes of a connection and takes the
    destination from the [Host] header of an HTTP request or from the server name of a
    TLS ClientHello. *)

From S2P Require Import Prelude RustStr Io Address NetAddr.

Inductive SniffError :=
  | SIo (e : ErrorKind)
  | UnknownProtocol
  | HostNotFound
  | InvalidRequestHeader
  | InvalidSNI
  | TlsExtensionMissing.

Definition HANDSHAKE_TYPE_CLIENT_HELLO : Z := 1.
Definition EXTENSION_TYPE_SNI : Z := 0.
Definition NAME_TYPE_HOST_NAME : Z := 0.

(** ** HTTP

    [memchr] is the function of the crate of that name: the index of the first occurrence
    of a byte. *)
Class Memchr := memchr : Z → bytes → option nat.
Class MemchrOk `(M : Memchr) : Prop := memchr_spec : ∀ c s,
  match memchr c s with
  | Some i => s !! i = Some c ∧ c ∉ take i s
  | None => c ∉ s
  end.

Definition newline : Z := 10.
(** "Host:" *)
Definition host_prefix : bytes := [72; 111; 115; 116; 58].

Section http.
Context `{M : Memchr}.

(** The loop of [http_host] on [&buf[start..]]; [None] if [fuel] runs out. *)
Fixpoint http_host_loop (fuel : nat) (rest : bytes) : option (res SniffError bytes) :=
  match fuel with
  | O => None
  | Datatypes.S fuel =>
    match memchr newline rest with
    | None => Some (Err HostNotFound)
    | Some next =>
      if bool_decide (next = 0%nat) then Some (Err HostNotFound)
      else if bool_decide (next < 5)%nat then http_host_loop fuel (drop (next + 1) rest)
      else if negb (bool_decide (take 5 rest = host_prefix))
      then http_host_loop fuel (drop (next + 1) rest)
      else Some (
        s ← slice rest 5 next;
        if Utf8.from_utf8_ok s then Ok (trim_bytes s) else Err InvalidRequestHeader)
    end
  end.

Definition http_host (buf : bytes) : option (res SniffError bytes) :=
  http_host_loop (length buf + 1) buf.
End http.

(** ** TLS

    The reader is what [Cursor] has left. *)

(** [bytes::Buf::advance] panics past the end. *)
Definition advance {E} (n : nat) (r : bytes) : res E bytes :=
  if bool_decide (n ≤ length r)%nat then Ok (drop n r) else Panic.

(** A read of nothing fails the assertion. *)
Definition read_u8 {E} (r : bytes) : res E (Z * bytes) :=
  match r with
  | b :: r => Ok (b, r)
  | [] => Panic
  end.

Definition read_be (n : nat) (r : bytes) : res SniffError (Z * bytes) :=
  if bool_decide (n ≤ length r)%nat then Ok (be_decode (take n r), drop n r)
  else Err (SIo UnexpectedEof).
Definition read_u16 := read_be 2.
Definition read_u24 := read_be 3.

(** The server name list; [None] if [fuel] runs out. *)
Fixpoint name_loop (fuel : nat) (r : bytes) : option (res SniffError bytes) :=
  match fuel with
  | O => None
  | Datatypes.S fuel =>
    match read_u8 r with
    | Ok (name_type, r) =>
      if negb (name_type =? NAME_TYPE_HOST_NAME) then
        match advance 2 r with
        | Ok r => name_loop fuel r
        | Err e => Some (Err e)
        | Panic => Some Panic
        end
      else Some (
        '(name_len, r) ← read_u16 r;
        name ← (if bool_decide (Z.to_nat name_len ≤ length r)%nat
                then Ok (take (Z.to_nat name_len) r) else Err (SIo UnexpectedEof));
        if Utf8.from_utf8_ok name then Ok name else Err InvalidSNI)
    | Err e => Some (Err e)
    | Panic => Some Panic
    end
  end.

Inductive Ext := Skip (r : bytes) | Found (r : bytes).

Definition read_ext (r : bytes) : res SniffError Ext :=
  '(ext_typ, r) ← read_u16 r;
  '(ext_len, r) ← read_u16 r;
  if negb (ext_typ =? EXTENSION_TYPE_SNI) then r ← advance (Z.to_nat ext_len) r; Ok (Skip r)
  else '(_, r) ← read_u16 r; Ok (Found r).

Fixpoint ext_loop (fuel : nat) (r : bytes) : option (res SniffError bytes) :=
  match fuel with
  | O => None
  | Datatypes.S fuel =>
    match read_ext r with
    | Ok (Skip r) => ext_loop fuel r
    | Ok (Found r) => name_loop (length r + 1) r
    | Err e => Some (Err e)
    | Panic => Some Panic
    end
  end.

(** Everything before the extensions. *)
Definition hello_head (buf : bytes) : res SniffError bytes :=
  r ← advance (1 + 2) buf;
  '(_, r) ← read_u16 r;
  '(msg_type, r) ← read_u8 r;
  _ ← fail_if (negb (msg_type =? HANDSHAKE_TYPE_CLIENT_HELLO)) UnknownProtocol;
  '(_, r) ← read_u24 r;
  r ← advance (2 + (4 + 28)) r;
  '(sess_len, r) ← read_u8 r;
  r ← advance (Z.to_nat sess_len) r;
  '(cs_len, r) ← read_u16 r;
  r ← advance (Z.to_nat cs_len) r;
  '(cm_len, r) ← read_u8 r;
  r ← advance (Z.to_nat cm_len) r;
  '(ext_len, r) ← read_u16 r;
  _ ← fail_if (ext_len =? 0) TlsExtensionMissing;
  Ok r.

Definition tls_sni (buf : bytes) : option (res SniffError bytes) :=
  match hello_head buf with
  | Ok r => ext_loop (length r + 1) r
  | Err e => Some (Err e)
  | Panic => Some Panic
  end.

(** ** The destination *)

Definition BUF_SIZE : nat := 1024.

(** 'G', 'P', 'D', 'H', 'C', 'O', 'T' *)
Definition method_letters : bytes := [71; 80; 68; 72; 67; 79; 84].

(** [peeked] is what [peek] puts at the front of the zeroed buffer, or its error. *)
Definition destination_addr `{M : Memchr} (peeked : res ErrorKind bytes)
  : option (res SniffError (bytes * Z)) :=
  match peeked with
  | Err e => Some (Err (SIo e))
  | Panic => Some Panic
  | Ok data =>
    let buf := take BUF_SIZE data ++ replicate (BUF_SIZE - length data) 0 in
    match buf !! 0%nat with
    | None => Some Panic
    | Some b =>
      if b =? 22 then domain ← tls_sni buf; Some (d ← domain; Ok (d, 443))
      else if bool_decide (b ∈ method_letters)
      then domain ← http_host buf; Some (d ← domain; Ok (d, 80))
      else Some (Err UnknownProtocol)
    end
  end.

(** ** The [Host] header *)

(** [header rest v]: among the lines of [rest] that precede an empty one, the first that
    begins with "Host:" goes on with [v]. *)
Inductive header : bytes → bytes → Prop :=
  | header_here v tail : newline ∉ v → header (host_prefix ++ v ++ newline :: tail) v
  | header_later l rest v :
    l ≠ [] → newline ∉ l → ¬ host_prefix `prefix_of` l → header rest v →
    header (l ++ newline :: rest) v.

Lemma line_unique l l' t t' : newline ∉ l → newline ∉ l' →
  l ++ newline :: t = l' ++ newline :: t' → l = l' ∧ t = t'.
Proof.
  intros Hl Hl' Heq. pose proof (f_equal (split newline) Heq) as Hs.
  rewrite !split_app_sep in Hs by done. injection Hs as -> _.
  by apply app_inv_head in Heq as [= ->].
Qed.

Lemma host_line l : newline ∉ l →
  host_prefix `prefix_of` l → ∃ v, l = host_prefix ++ v ∧ newline ∉ v.
Proof.
  intros Hl [v ->]. exists v. split; [done|]. intros Hin. apply Hl. apply elem_of_app. by right.
Qed.

(** What the header of a text with a first line [l] is. *)
Lemma header_line l tail v : newline ∉ l →
  header (l ++ newline :: tail) v ↔
  l = host_prefix ++ v ∨ l ≠ [] ∧ ¬ host_prefix `prefix_of` l ∧ header tail v.
Proof.
  intros Hl. split.
  - intros Hh. remember (l ++ newline :: tail) as t eqn:Heq.
    destruct Hh as [v t' Hv|l' t' v Hne Hl' Hnp Hh].
    + left. rewrite app_assoc in Heq. apply line_unique in Heq as [? _]; [done| |done].
      intros [Hin|Hin]%elem_of_app; [|done].
      by apply (bool_decide_unpack (newline ∉ host_prefix)) in Hin; [|vm_compute].
    + right. by apply line_unique in Heq as [-> ->].
  - intros [->|(Hne & Hnp & Hh)]; [|by apply header_later].
    rewrite <- app_assoc. apply header_here. intros Hin. apply Hl, elem_of_app. by right.
Qed.

Lemma header_newline rest v : header rest v → newline ∈ rest.
Proof.
  induction 1; rewrite !elem_of_app, !elem_of_cons; tauto.
Qed.

Section http_proof.
Context `{M : Memchr} `{!MemchrOk M}.

Lemma first_line rest :
  (memchr newline rest = None ∧ newline ∉ rest)
  ∨ ∃ l tail, rest = l ++ newline :: tail ∧ newline ∉ l ∧ memchr newline rest = Some (length l).
Proof.
  pose proof (memchr_spec newline rest) as Hs. destruct (memchr newline rest) as [i|]; [|by left].
  destruct Hs as [Hi Hn]. right. exists (take i rest), (drop (i + 1) rest).
  rewrite Nat.add_1_r. split_and!; [by rewrite take_drop_middle|done|].
  apply lookup_lt_Some in Hi. rewrite length_take. f_equal. lia.
Qed.

Lemma host_prefix_take l tail :
  (5 ≤ length l)%nat → take 5 (l ++ newline :: tail) = host_prefix ↔ host_prefix `prefix_of` l.
Proof.
  intros Hl. rewrite take_app_le by done. split.
  - intros Ht. exists (drop 5 l). by rewrite <- Ht, take_drop.
  - by intros [v ->].
Qed.

(** The result [r] is the trimmed value of the header of [rest]. *)
Definition finds (rest : bytes) (r : res SniffError bytes) : Prop :=
  ∀ s, r = Ok s ↔ ∃ v, header rest v ∧ Utf8.from_utf8_ok v = true ∧ s = trim_bytes v.

Lemma finds_later l tail r : newline ∉ l → ¬ host_prefix `prefix_of` l → l ≠ [] →
  finds tail r → finds (l ++ newline :: tail) r.
Proof.
  intros Hl Hnp Hne Hr s. rewrite (Hr s). f_equiv; intros v. rewrite header_line by done.
  split; [by intros (? & ? & ?); split; [right|]|].
  intros ([->|(_ & _ & ?)] & ? & ?); [|done]. by destruct Hnp; eexists.
Qed.

Lemma http_host_loop_spec fuel rest : (length rest < fuel)%nat →
  ∃ r, http_host_loop fuel rest = Some r ∧ r ≠ Panic ∧ finds rest r.
Proof.
  revert rest. induction fuel as [|fuel IH]; intros rest Hf; [lia|]. cbn [http_host_loop].
  destruct (first_line rest) as [[-> Hn]|(l & tail & -> & Hl & ->)].
  { eexists. split_and!; [done..|]. intros s. split; [done|].
    by intros (v & Hh%header_newline & _). }
  rewrite length_app in Hf. simpl in Hf.
  assert (drop (length l + 1) (l ++ newline :: tail) = tail) as Hdrop by (by rewrite drop_app_add).
  case_bool_decide as H0; [|case_bool_decide as H5; [|case_bool_decide as Hp]].
  - apply nil_length_inv in H0 as ->. eexists. split_and!; [done..|]. intros s. split; [done|].
    intros (v & [?|[? _]]%header_line & _); done.
  - rewrite Hdrop. destruct (IH tail) as (r & -> & Hr & Hspec); [lia|]. exists r.
    split_and!; [done..|]. apply finds_later; [done| |by intros ->|done].
    intros [v ->]. rewrite length_app in H5. simpl in H5. lia.
  - simpl negb. cbv iota. apply host_prefix_take in Hp; [|lia].
    apply host_line in Hp as (v & -> & Hv); [|done]. unfold slice.
    rewrite bool_decide_eq_true_2 by (rewrite !length_app; simpl; lia).
    assert (take (length (host_prefix ++ v) - 5) (drop 5 ((host_prefix ++ v) ++ newline :: tail)) = v) as ->.
    { rewrite <- app_assoc. change 5%nat with (length host_prefix) at 2. rewrite drop_app_length.
      rewrite length_app. change (length host_prefix) with 5%nat.
      replace (5 + length v - 5)%nat with (length v) by lia. by rewrite take_app_length. }
    cbn [mbind res_bind]. eexists. split; [done|]. split; [by destruct (Utf8.from_utf8_ok v)|].
    intros s. split.
    + destruct (Utf8.from_utf8_ok v) eqn:E8; [|done]. intros [= <-]. exists v. split_and!; try done.
      apply header_line; [done|by left].
    + intros (v' & [->%app_inv_head|(_ & Hnp & _)]%header_line & H8 & ->); [by rewrite H8| |done].
      by destruct Hnp; eexists.
  - simpl negb. cbv iota. rewrite Hdrop. destruct (IH tail) as (r & -> & Hr & Hspec); [lia|]. exists r.
    split_and!; [done..|]. apply finds_later; [done| |by intros ->|done].
    intros Hpre. apply Hp. by apply host_prefix_take; [lia|].
Qed.
End http_proof.

(** ** The server name *)

Lemma read_be_app n z r : 0 <= z < 2 ^ (8 * Z.of_nat n) →
  read_be n (be_encode n z ++ r) = Ok (z, r).
Proof.
  intros Hz. unfold read_be.
  rewrite bool_decide_eq_true_2 by (rewrite length_app, length_be_encode; lia).
  rewrite take_app_length', drop_app_length' by (by rewrite length_be_encode).
  by rewrite be_decode_encode.
Qed.

Lemma advance_app {E} n a r : length a = n → advance (E:=E) n (a ++ r) = Ok r.
Proof.
  intros <-. unfold advance. rewrite bool_decide_eq_true_2 by (rewrite length_app; lia).
  by rewrite drop_app_length.
Qed.

(** A vector with a length prefix of [n] bytes. *)
Definition vec (n : nat) (data : bytes) : bytes := be_encode n (Z.of_nat (length data)) ++ data.
Definition vec_ok (n : nat) (data : bytes) : Prop := Z.of_nat (length data) < 2 ^ (8 * Z.of_nat n).

(** A ClientHello up to its extensions (RFC 5246, 6.2.1, 7.4 and 7.4.1.2). *)
Record Hello := {
  head : bytes;          (* content type and version of the record *)
  record_len : Z;
  message_len : Z;
  version_random : bytes;
  session_id : bytes;
  cipher_suites : bytes;
  compression : bytes;
  extensions_len : Z
}.

Record hello_ok (c : Hello) : Prop := {
  ok_head : length (head c) = 3%nat;
  ok_record : 0 <= record_len c < 2 ^ 16;
  ok_message : 0 <= message_len c < 2 ^ 24;
  ok_random : length (version_random c) = 34%nat;
  ok_session : vec_ok 1 (session_id c);
  ok_suites : vec_ok 2 (cipher_suites c);
  ok_compression : vec_ok 1 (compression c);
  ok_extensions : 0 < extensions_len c < 2 ^ 16
}.

Definition hello_text (c : Hello) (exts : bytes) : bytes :=
  head c ++ be_encode 2 (record_len c) ++ [HANDSHAKE_TYPE_CLIENT_HELLO]
  ++ be_encode 3 (message_len c) ++ version_random c ++ vec 1 (session_id c)
  ++ vec 2 (cipher_suites c) ++ vec 1 (compression c) ++ be_encode 2 (extensions_len c) ++ exts.

Lemma read_u8_vec {E} d r : vec_ok 1 d →
  read_u8 (E:=E) (vec 1 d ++ r) = Ok (Z.of_nat (length d), d ++ r).
Proof.
  intros Hd. unfold vec, vec_ok in *. rewrite <- app_assoc.
  cbv [be_encode]. simpl app. cbn [read_u8]. rewrite Z.div_1_r, Z.mod_small by lia. done.
Qed.

Lemma read_u16_vec d r : vec_ok 2 d → read_be 2 (vec 2 d ++ r) = Ok (Z.of_nat (length d), d ++ r).
Proof. intros Hd. unfold vec. rewrite <- app_assoc. apply read_be_app. unfold vec_ok in Hd. lia. Qed.

Lemma hello_head_text c exts : hello_ok c → hello_head (hello_text c exts) = Ok exts.
Proof.
  intros [H1 H2 H3 H4 H5 H6 H7 H8]. unfold hello_head, hello_text, read_u16, read_u24.
  rewrite advance_app by done. cbn [mbind res_bind]. rewrite read_be_app by done.
  cbn [mbind res_bind app read_u8]. rewrite Z.eqb_refl. cbn [negb fail_if mbind res_bind].
  rewrite read_be_app by done. cbn [mbind res_bind]. rewrite advance_app by done. cbn [mbind res_bind].
  rewrite read_u8_vec by done. cbn [mbind res_bind]. rewrite advance_app by lia. cbn [mbind res_bind].
  rewrite read_u16_vec by done. cbn [mbind res_bind]. rewrite advance_app by lia. cbn [mbind res_bind].
  rewrite read_u8_vec by done. cbn [mbind res_bind]. rewrite advance_app by lia. cbn [mbind res_bind].
  rewrite read_be_app by (simpl; lia). cbn [mbind res_bind].
  by rewrite (proj2 (Z.eqb_neq (extensions_len c) 0)) by lia.
Qed.

(** An extension other than the server name. *)
Definition ext_ok (e : Z * bytes) : Prop := 0 < e.1 < 2 ^ 16 ∧ vec_ok 2 e.2.
Definition ext_text (e : Z * bytes) : bytes := be_encode 2 e.1 ++ vec 2 e.2.

Lemma read_ext_skip e r : ext_ok e → read_ext (ext_text e ++ r) = Ok (Skip r).
Proof.
  intros [Ht Hd]. unfold read_ext, ext_text, read_u16. rewrite <- app_assoc.
  rewrite read_be_app by (simpl; lia). cbn [mbind res_bind]. rewrite read_u16_vec by done.
  cbn [mbind res_bind]. unfold EXTENSION_TYPE_SNI.
  rewrite (proj2 (Z.eqb_neq e.1 0)) by lia. cbn [negb]. by rewrite advance_app by lia.
Qed.

Lemma ext_loop_skip es fuel r : Forall ext_ok es →
  ext_loop (length es + fuel) (concat (ext_text <$> es) ++ r) = ext_loop fuel r.
Proof.
  induction 1 as [|e es He _ IH]; [done|].
  rewrite fmap_cons. cbn [concat]. rewrite <- app_assoc. cbn [length Nat.add ext_loop].
  by rewrite read_ext_skip.
Qed.

(** The server name extension with a host name as its first entry; the lengths of the
    extension and of the list are not looked at. *)
Definition sni_text (ext_len list_len : Z) (name : bytes) : bytes :=
  be_encode 2 EXTENSION_TYPE_SNI ++ be_encode 2 ext_len ++ be_encode 2 list_len
  ++ [NAME_TYPE_HOST_NAME] ++ vec 2 name.

Lemma ext_loop_sni fuel el ll name r :
  0 <= el < 2 ^ 16 → 0 <= ll < 2 ^ 16 → vec_ok 2 name → Utf8.from_utf8_ok name = true →
  (0 < fuel)%nat → ext_loop fuel (sni_text el ll name ++ r) = Some (Ok name).
Proof.
  intros Hel Hll Hn H8 Hf. destruct fuel as [|fuel]; [lia|]. cbn [ext_loop].
  assert (read_ext (sni_text el ll name ++ r) = Ok (Found (NAME_TYPE_HOST_NAME :: vec 2 name ++ r))) as ->.
  { unfold read_ext, sni_text, read_u16. rewrite <- !app_assoc.
    rewrite read_be_app by (unfold EXTENSION_TYPE_SNI; simpl; lia). cbn [mbind res_bind].
    rewrite read_be_app by done. cbn [mbind res_bind]. rewrite Z.eqb_refl. cbn [negb].
    by rewrite read_be_app by done. }
  cbn [length Nat.add name_loop read_u8]. rewrite Z.eqb_refl. cbn [negb].
  unfold read_u16. rewrite read_u16_vec by done. cbn [mbind res_bind]. rewrite Nat2Z.id.
  rewrite bool_decide_eq_true_2 by (rewrite length_app; lia). cbn [mbind res_bind].
  by rewrite take_app_length, H8.
Qed.

(** ** Termination *)

Lemma advance_shorter {E} n r r' : advance (E:=E) n r = Ok r' → (length r' ≤ length r)%nat.
Proof. unfold advance. case_bool_decide; [|done]. intros [= <-]. rewrite length_drop. lia. Qed.

Lemma read_be_shorter n r z r' : read_be n r = Ok (z, r') → (length r' + n = length r)%nat.
Proof. unfold read_be. case_bool_decide; [|done]. intros [= <- <-]. rewrite length_drop. lia. Qed.

Lemma name_loop_total fuel r : (length r < fuel)%nat → name_loop fuel r ≠ None.
Proof.
  revert r. induction fuel as [|fuel IH]; intros r Hf; [lia|]. cbn [name_loop].
  destruct r as [|b r]; [done|]. cbn [read_u8]. destruct (negb _); [|done].
  destruct (advance 2 r) as [r'| |] eqn:Ea; [|done..]. apply IH.
  apply advance_shorter in Ea. simpl in Hf. lia.
Qed.

Lemma read_ext_shorter r r' : read_ext r = Ok (Skip r') → (length r' < length r)%nat.
Proof.
  unfold read_ext, read_u16.
  intros ([typ r1] & H1%read_be_shorter & ([el r2] & H2%read_be_shorter & H3)%bind_Ok)%bind_Ok.
  destruct (negb _).
  - apply bind_Ok in H3 as (r3 & H3%advance_shorter & [= <-]). lia.
  - by apply bind_Ok in H3 as ([z r3] & _ & ?).
Qed.

Lemma ext_loop_total fuel r : (length r < fuel)%nat → ext_loop fuel r ≠ None.
Proof.
  revert r. induction fuel as [|fuel IH]; intros r Hf; [lia|]. cbn [ext_loop].
  destruct (read_ext r) as [[r'|r']| |] eqn:Er; [|by apply name_loop_total; lia|done..].
  apply IH. apply read_ext_shorter in Er. lia.
Qed.

Lemma ext_loop_fuel fuel fuel' r : (fuel ≤ fuel')%nat → ext_loop fuel r ≠ None →
  ext_loop fuel r = ext_loop fuel' r.
Proof.
  revert fuel' r. induction fuel as [|fuel IH]; intros [|fuel'] r Hle Hn; [done|done|lia|].
  cbn [ext_loop] in *. destruct (read_ext r) as [[r'|r']| |]; [|done..]. apply IH; [lia|done].
Qed.

Lemma tls_sni_total buf : tls_sni buf ≠ None.
Proof. unfold tls_sni. destruct (hello_head buf); [|done..]. apply ext_loop_total. lia. Qed.

Lemma tls_sni_hello c es el ll name tail : hello_ok c → Forall ext_ok es →
  0 <= el < 2 ^ 16 → 0 <= ll < 2 ^ 16 → vec_ok 2 name → Utf8.from_utf8_ok name = true →
  tls_sni (hello_text c (concat (ext_text <$> es) ++ sni_text el ll name ++ tail)) = Some (Ok name).
Proof.
  intros Hc Hes Hel Hll Hn H8. unfold tls_sni. rewrite hello_head_text by done.
  set (r := _ ++ _). assert (length es ≤ length r)%nat as Hlen.
  { subst r. rewrite length_app. enough (length es ≤ length (concat (ext_text <$> es)))%nat by lia.
    clear Hes. induction es as [|e es IH]; [done|]. rewrite fmap_cons. cbn [concat]. rewrite length_app.
    unfold ext_text at 1. rewrite length_app, length_be_encode. cbn [length]. lia. }
  replace (length r + 1)%nat with (length es + (length r + 1 - length es))%nat by lia.
  subst r. rewrite ext_loop_skip by done. apply ext_loop_sni; [done..|lia].
Qed.

(** ** Properties *)

(** The destination of a TLS connection is its server name: if the ClientHello up to the
    server name fits the buffer, with any well-formed extensions before it and whatever
    follows, the destination is that name and port 443. *)
Theorem destination_of_hello `{M : Memchr} (c : Hello) (es : list (Z * bytes)) (el ll : Z)
    (name tail : bytes)
    (Hc : hello_ok c) (Htype : head c !! 0%nat = Some 22) (Hes : Forall ext_ok es)
    (Hel : 0 <= el < 2 ^ 16) (Hll : 0 <= ll < 2 ^ 16)
    (Hname : vec_ok 2 name) (Hutf8 : Utf8.from_utf8_ok name = true)
    (Hfits : (length (hello_text c (concat (ext_text <$> es) ++ sni_text el ll name)) ≤ BUF_SIZE)%nat) :
  destination_addr (Ok (hello_text c (concat (ext_text <$> es) ++ sni_text el ll name) ++ tail))
  = Some (Ok (name, 443)).
Proof.
  set (h := hello_text c (concat (ext_text <$> es) ++ sni_text el ll name)) in *.
  cbn [destination_addr]. set (rest := take (BUF_SIZE - length h) tail
    ++ replicate (BUF_SIZE - length (h ++ tail)) 0).
  assert (take BUF_SIZE (h ++ tail) ++ replicate (BUF_SIZE - length (h ++ tail)) 0 = h ++ rest) as ->.
  { subst rest. rewrite take_app_ge by done. by rewrite <- app_assoc. }
  assert (h ++ rest = hello_text c (concat (ext_text <$> es) ++ sni_text el ll name ++ rest)) as ->.
  { subst h. unfold hello_text. by rewrite <- !app_assoc. }
  assert (hello_text c (concat (ext_text <$> es) ++ sni_text el ll name ++ rest) !! 0%nat = Some 22) as ->.
  { unfold hello_text. rewrite lookup_app_l; [done|]. by eapply lookup_lt_Some. }
  rewrite Z.eqb_refl. by rewrite tls_sni_hello.
Qed.

(** C29: which host an HTTP request names.  The search ends without a panic, and finds a host
    if and only if one of the lines before the first empty line begins with "Host:"; it is
    the rest of the first such line, trimmed, if that is UTF-8. *)
Theorem http_host_decides `{M : Memchr} `{!MemchrOk M} (buf : bytes) :
  ∃ r, http_host buf = Some r ∧ r ≠ Panic
    ∧ ∀ s, r = Ok s ↔ ∃ v, header buf v ∧ Utf8.from_utf8_ok v = true ∧ s = trim_bytes v.
Proof. unfold http_host. apply http_host_loop_spec. lia. Qed.

(** Sniffing terminates on every input. *)
Lemma sniffing_terminates `{M : Memchr} `{!MemchrOk M} (peeked : res ErrorKind bytes) :
  destination_addr peeked ≠ None.
Proof.
  destruct peeked as [data| |]; [|done..]. cbn [destination_addr].
  set (buf := _ ++ _). destruct (buf !! 0%nat) as [b|]; [|done].
  pose proof (tls_sni_total buf). destruct (http_host_loop_spec (length buf + 1) buf) as (r & Hr & _); [lia|].
  unfold http_host. rewrite Hr. repeat case_match; try done. by destruct (tls_sni buf).
Qed.

(** A ClientHello that does not fit the buffer can panic: one of whose extensions, before
    the server name, goes on past the end of the buffer does. *)
Theorem long_hello_panics (c : Hello) (es : list (Z * bytes)) (typ len : Z) (data : bytes)
    (Hc : hello_ok c) (Hes : Forall ext_ok es) (Htyp : 0 < typ < 2 ^ 16)
    (Hlen : Z.of_nat (length data) < len < 2 ^ 16) :
  tls_sni (hello_text c (concat (ext_text <$> es) ++ be_encode 2 typ ++ be_encode 2 len ++ data))
  = Some Panic.
Proof.
  unfold tls_sni. rewrite hello_head_text by done. set (r := _ ++ _).
  assert (ext_loop (length es + (length r + 1)) r = Some Panic) as Hp.
  { subst r. rewrite ext_loop_skip by done. rewrite Nat.add_1_r. cbn [ext_loop].
    unfold read_ext, read_u16. rewrite read_be_app by (simpl; lia). cbn [mbind res_bind].
    rewrite read_be_app by (simpl; lia). cbn [mbind res_bind]. unfold EXTENSION_TYPE_SNI.
    rewrite (proj2 (Z.eqb_neq typ 0)) by lia. cbn [negb]. unfold advance.
    by rewrite bool_decide_eq_false_2 by lia. }
  rewrite <- Hp. apply ext_loop_fuel; [lia|]. apply ext_loop_total. lia.
Qed.

(** ** A request and a hello *)

Module Demo.
Fixpoint index_of (c : Z) (s : bytes) : option nat :=
  match s with
  | [] => None
  | x :: s => if x =? c then Some 0%nat else Datatypes.S <$> index_of c s
  end.
Definition find : Memchr := index_of.

Global Instance find_ok : MemchrOk find.
Proof.
  intros c s. unfold memchr, find. induction s as [|x s IH]; [apply not_elem_of_nil|]. simpl.
  destruct (Z.eqb_spec x c) as [->|Hne]; [split; [done|apply not_elem_of_nil]|].
  destruct (index_of c s) as [i|]; simpl.
  - destruct IH as [Hi Hn]. split; [done|]. rewrite elem_of_cons. naive_solver.
  - rewrite elem_of_cons. naive_solver.
Qed.

Definition hello : Hello := {|
  head := [22; 3; 1]; record_len := 100; message_len := 96;
  version_random := replicate 34 7; session_id := replicate 32 1;
  cipher_suites := [19; 1]; compression := [0]; extensions_len := 30
|}.
(** A supported-versions extension before the server name. *)
Definition exts : list (Z * bytes) := [(43, [2; 3; 4])].

Lemma hello_is_ok : hello_ok hello.
Proof. split; unfold vec_ok; simpl; lia. Qed.

Lemma exts_ok : Forall ext_ok exts.
Proof. repeat constructor; unfold vec_ok; simpl; lia. Qed.

(** "GET /\r\nHost: example.com\r\n" *)
Definition request : bytes :=
  [71; 69; 84; 32; 47; 13; 10; 72; 111; 115; 116; 58; 32] ++ example_host ++ [13; 10].

Example request_host : destination_addr (M:=find) (Ok request) = Some (Ok (example_host, 80)).
Proof. vm_compute. reflexivity. Qed.

(** A name list whose first entry is not a host name is read out of step: the data of the
    entry are taken for further entries. *)
Example other_name_type :
  name_loop 20 ([1] ++ vec 2 [0; 0; 1; 65] ++ [0] ++ vec 2 example_host) = Some (Ok [65]).
Proof. vm_compute. reflexivity. Qed.
End Demo.

Lemma destination_of_hello_witness :
  destination_addr (M:=Demo.find)
    (Ok (hello_text Demo.hello (concat (ext_text <$> Demo.exts) ++ sni_text 16 14 example_host) ++ [1; 2; 3]))
  = Some (Ok (example_host, 443)).
Proof.
  apply (destination_of_hello (M:=Demo.find) Demo.hello Demo.exts 16 14 example_host [1; 2; 3]).
  - exact Demo.hello_is_ok.
  - reflexivity.
  - exact Demo.exts_ok.
  - lia.
  - lia.
  - unfold vec_ok. simpl. lia.
  - reflexivity.
  - apply (bool_decide_unpack _). vm_compute. exact I.
Defined.

Lemma http_host_decides_witness : ∃ r, http_host (M:=Demo.find) Demo.request = Some r ∧ r ≠ Panic.
Proof.
  destruct (http_host_decides (M:=Demo.find) Demo.request) as (r & Hr & Hp & _).
  exists r. split; [exact Hr|exact Hp].
Defined.

Lemma long_hello_panics_witness :
  tls_sni (hello_text Demo.hello (concat (ext_text <$> Demo.exts)
           ++ be_encode 2 51 ++ be_encode 2 1263 ++ replicate 900 0)) = Some Panic.
Proof.
  apply (long_hello_panics Demo.hello Demo.exts 51 1263 (replicate 900 0)).
  - exact Demo.hello_is_ok.
  - exact Demo.exts_ok.
  - lia.
  - rewrite length_replicate. lia.
Defined.
