(* ===== verification/Relay.v ===== *)
(** * The relay (relay/thp/server.rs)

    The task of one accepted connection: it reads the destination out of the first bytes of
    the client, then tries up to five servers of the pool, each the pick of the balancer at
    that time.  Sniffing and the pool are [Sniffing] and [Upstream]; opening a connection
    through a server and relaying the data are inputs here, functions of the server's
    configuration and the target, whose outcome is success, an error or a panic. *)

From S2P Require Import Prelude RustStr Io Address NetAddr Crypto ServerConfig Upstream PoolLife Sniffing.

(** [io::Error] of the kinds [Other], with the error of the sniffer, and [NotConnected]. *)
Inductive RelayError := SniffFailed (e : SniffError) | NoProxy.

Section relay.
Context `{Profile} `{M : Memchr}.
Context (effective_tld_plus_one : bytes → option bytes).
Context (connect proxied : ServerConfig → Address → res ErrorKind ()).

(** What comes of the server at [p] and the target. *)
Definition asks (f : ServerConfig → Address → res ErrorKind ()) (h : list Server) (target : Address) (p : ptr)
  : res ErrorKind () :=
  s ← deref h p; f (config s) target.

(** The server the connection was made through, and the pool at the end. *)
Definition serve_connection (peeked : res ErrorKind bytes) (now : Z) (lb : LoadBalanceType) (w : World)
  : option (res RelayError ptr * World) :=
  dst ← destination_addr peeked;
  match dst with
  | Err e => Some (Err (SniffFailed e), w)
  | Panic => Some (Panic, w)
  | Ok (host, port) =>
    let target := DomainNameAddress host port in
    '(r, h) ← connect_upstream effective_tld_plus_one (asks connect (heap w) target)
                (asks proxied (heap w) target) now lb host (peers w) (heap w);
    Some (match r with
          | Ok (Connected p) => Ok p
          | Ok NoAvailableProxy => Err NoProxy
          | Err e => Err e
          | Panic => Panic
          end, {| heap := h; peers := peers w |})
  end.
End relay.

(** ** Failures are all that changes *)

(** The heap [h'] is [h] after reports of failures of servers. *)
Inductive reported (now : Z) : list Server → list Server → Prop :=
  | reported_none h : reported now h h
  | reported_one h p h' : reported now (alter (report_failure now) p h) h' → reported now h h'.

Lemma reported_trans now h h' h'' : reported now h h' → reported now h' h'' → reported now h h''.
Proof. induction 1; [done|]. intros ?. eapply reported_one; eauto. Qed.

Lemma reported_wf now h h' ps :
  reported now h h' → pool_wf {| heap := h; peers := ps |} → pool_wf {| heap := h'; peers := ps |}.
Proof. induction 1; [done|]. intros Hw. by apply IHreported, report_wf. Qed.

Section attempts.
Context `{Profile} {E : Type} (etld1 : bytes → option bytes) (connect proxied : ptr → res ErrorKind ()).

(** The attempts end through a server of the pool that accepts or after refusals only, or
    with the panic of a connection through a server of the pool. *)
Lemma connect_loop_total attempts now lb host ps h :
  pool_ok h ps → pickable etld1 lb host →
  ∃ a h', connect_loop (E:=E) etld1 connect proxied attempts now lb host ps h = Some (a, h')
    ∧ reported now h h'
    ∧ match a with
      | Ok (Connected p) => p ∈ servers ps ∧ connect p = Ok ()
      | Ok NoAvailableProxy =>
        (0 < attempts)%nat → ∃ p e, p ∈ servers ps ∧ connect p = Err e
      | Err _ => False
      | Panic => ∃ p, p ∈ servers ps ∧ (connect p = Panic ∨ proxied p = Panic)
      end.
Proof.
  revert h. induction attempts as [|n IH]; intros h Hok Hpk.
  { exists (Ok NoAvailableProxy), h. split_and!; [done|constructor|lia]. }
  cbn [connect_loop].
  destruct (pick_good (E:=E) etld1 h ps lb host Hok Hpk) as (p & -> & Hin & _).
  cbn [mbind option_bind]. destruct (connect p) as [[]|e|] eqn:Ep.
  - destruct (proxied p) eqn:Eq; [eexists (Ok (Connected p)), _..|eexists Panic, _];
      (split; [done|]); (split; [by eauto using reported|]); eauto.
  - destruct (IH (alter (report_failure now) p h)) as (a & h' & Hr & Hrep & Ha); [|done|].
    { by apply report_pool_ok. }
    exists a, h'. split; [done|]. split; [by eapply reported_one|].
    destruct a as [[]| |]; [done| |done..]. intros _. by exists p, e.
  - eexists Panic, _. split; [done|]. split; [constructor|]. eauto.
Qed.
End attempts.

(** ** Properties *)

(** A TLS connection is relayed to the host it names.  If the ClientHello up to the server
    name fits the buffer, some live server of the pool accepts the target with that name and
    port 443, fewer than five live servers refuse it, and neither connecting through a
    server of the pool nor relaying panics, then the task of the connection ends well,
    through a server of the pool that accepts this very target; on the way it has only
    reported failures, so that the pool is still well-formed. *)
Theorem tls_connection_relayed `{Profile} `{M : Memchr} (etld1 : bytes → option bytes)
    (connect proxied : ServerConfig → Address → res ErrorKind ()) (c : Hello) (es : list (Z * bytes)) (el ll : Z)
    (name tail : bytes) (now : Z) (lb : LoadBalanceType) (w : World) (q : ptr)
    (Hc : hello_ok c) (Htype : head c !! 0%nat = Some 22) (Hes : Forall ext_ok es)
    (Hel : 0 <= el < 2 ^ 16) (Hll : 0 <= ll < 2 ^ 16)
    (Hname : vec_ok 2 name) (Hutf8 : Utf8.from_utf8_ok name = true)
    (Hfits : (length (hello_text c (concat (ext_text <$> es) ++ sni_text el ll name)) ≤ BUF_SIZE)%nat)
    (Hw : pool_wf w) (Hpk : pickable etld1 lb name)
    (Hq : q ∈ servers (peers w)) (Ha : alive_at (heap w) q)
    (Hacc : asks connect (heap w) (DomainNameAddress name 443) q = Ok ())
    (Hst : steady (asks connect (heap w) (DomainNameAddress name 443))
             (asks proxied (heap w) (DomainNameAddress name 443)) (peers w))
    (Hr : (refusing (asks connect (heap w) (DomainNameAddress name 443)) (heap w) (peers w) < 5)%nat) :
  ∃ p h', serve_connection etld1 connect proxied
            (Ok (hello_text c (concat (ext_text <$> es) ++ sni_text el ll name) ++ tail)) now lb w
          = Some (Ok p, {| heap := h'; peers := peers w |})
    ∧ p ∈ servers (peers w) ∧ asks connect (heap w) (DomainNameAddress name 443) p = Ok ()
    ∧ reported now (heap w) h' ∧ pool_wf {| heap := h'; peers := peers w |}.
Proof.
  set (f := asks connect (heap w) (DomainNameAddress name 443)) in *.
  set (g := asks proxied (heap w) (DomainNameAddress name 443)) in *.
  destruct (connect_loop_succeeds (E:=RelayError) etld1 f g 5 now lb name (peers w) (heap w))
    as (p & h' & Hl & Hin & Hp); [apply Hw|done|done|by exists q|done|].
  destruct (connect_loop_total (E:=RelayError) etld1 f g 5 now lb name (peers w) (heap w))
    as (a & h'' & Hl' & Hrep & _); [apply Hw|done|].
  rewrite Hl in Hl'. injection Hl' as <- <-. exists p, h'. unfold serve_connection.
  rewrite destination_of_hello by done. cbn [mbind option_bind]. unfold connect_upstream.
  fold f g. rewrite Hl. split_and!; [done..|]. eapply reported_wf; [done|]. by destruct w.
Qed.


(** ** The pool of [Upstream.Demo] *)

Module Demo.
Definition connect (c : ServerConfig) (target : Address) : res ErrorKind () :=
  if bool_decide (target = DomainNameAddress example_host 443) then Ok () else Err OtherError.

Lemma demo_world_wf : pool_wf Upstream.Demo.world.
Proof.
  split; [exact (reachable_pool_ok (H:=dev) _ Upstream.Demo.world_reachable)|].
  apply (bool_decide_unpack _). vm_compute. exact I.
Qed.

Lemma demo_steady target :
  steady (asks connect (heap Upstream.Demo.world) target) (asks (λ _ _, Ok ()) (heap Upstream.Demo.world) target)
    (peers Upstream.Demo.world).
Proof.
  assert (∀ f, (∀ c, f c target ≠ Panic) → ∀ p, p ∈ servers (peers Upstream.Demo.world) →
    asks f (heap Upstream.Demo.world) target p ≠ Panic) as Hall.
  { intros f Hf p Hp. unfold asks.
    destruct (deref_valid (E:=ErrorKind) (heap Upstream.Demo.world) p
                (pool_valid _ _ (wf_pool _ demo_world_wf) p Hp)) as (s & -> & _). apply Hf. }
  intros p Hp. split; (apply Hall; [|done]); [|done]. intros c. unfold connect. by case_bool_decide.
Qed.
End Demo.

Lemma tls_connection_relayed_witness :
  ∃ p h', serve_connection (H:=dev) (M:=Sniffing.Demo.find) Upstream.Demo.etld1 Demo.connect (λ _ _, Ok ())
            (Ok (hello_text Sniffing.Demo.hello (concat (ext_text <$> Sniffing.Demo.exts)
                   ++ sni_text 16 14 example_host) ++ [1; 2; 3])) 8 Best Upstream.Demo.world
          = Some (Ok p, {| heap := h'; peers := peers Upstream.Demo.world |})
    ∧ p ∈ servers (peers Upstream.Demo.world).
Proof.
  destruct (tls_connection_relayed (H:=dev) (M:=Sniffing.Demo.find) Upstream.Demo.etld1 Demo.connect
    (λ _ _, Ok ()) Sniffing.Demo.hello Sniffing.Demo.exts 16 14 example_host [1; 2; 3] 8 Best
    Upstream.Demo.world 1) as (p & h' & Hs & Hin & _).
  - exact Sniffing.Demo.hello_is_ok.
  - reflexivity.
  - exact Sniffing.Demo.exts_ok.
  - lia.
  - lia.
  - unfold vec_ok. simpl. lia.
  - reflexivity.
  - apply (bool_decide_unpack _). vm_compute. exact I.
  - exact Demo.demo_world_wf.
  - exact I.
  - apply (bool_decide_unpack _). vm_compute. exact I.
  - exact Upstream.Demo.second_alive.
  - vm_compute. reflexivity.
  - apply Demo.demo_steady.
  - apply (bool_decide_unpack _). vm_compute. exact I.
  - exists p, h'. split; [exact Hs|exact Hin].
Defined.

