(* ===== verification/EndToEnd.v ===== *)
(** * A connection from end to end

    The task of a connection ([Relay]) with the code that it calls in place: the server of
    the pool that is tried is connected to by [ProxyStream.connect], and the session that
    follows is that of [Session].  The first bytes of a TLS client decide where its stream
    goes, and the same bytes, which were only peeked at, are the beginning of what the
    server at the other end gets. *)

From S2P Require Import Prelude RustStr Io Address NetAddr Crypto Crypto2022 ServerConfig StreamBuf ChunkStream TcpAead2022 TcpAead CryptoStream CopyBuffer Resolver ProxyStream Session Upstream PoolLife Sniffing Relay.

Section connects.
Context `{L : CryptoLib} `{M : Crypto2022Lib} {T : Type} `{AsyncRead T} `{AsyncWrite T}.
Context (ask : bytes → option (list IpAddr)) (resolve_error : ErrorKind).
Context (os : SockOp → option ErrorKind) (opened : SocketAddr → T) (rng : list bytes) (opts : ConnectOpts).

(** The outcome of [ProxyStream::connect(..).await]: a connection, an error, after which the
    next server is tried, or a panic, which ends the task.  (No salt from [rng], which
    stands for a generator that never stops, counts as a panic.) *)
Definition connects (conf : ServerConfig) (target : Address) : res ErrorKind () :=
  match (connect ask resolve_error os opened rng conf target opts).2 with
  | Some (Ok _) => Ok ()
  | Some (Err e) => Err e
  | Some Panic | None => Panic
  end.

Lemma connects_inv h target p : asks connects h target p = Ok () →
  ∃ sv made pr, h !! p = Some sv
    ∧ connect ask resolve_error os opened rng (config sv) target opts = (made, Some (Ok pr)).
Proof.
  unfold asks, connects, deref, expect. destruct (h !! p) as [sv|]; [|done]. cbn [mbind res_bind].
  destruct (connect _ _ _ _ _ _ _ _) as [made [[pr| |]|]] eqn:E; try done. intros _. by exists sv, made, pr.
Qed.

(** A usable configuration is connected to, or the connection fails: it does not panic, if
    the resolver's answers are not empty. *)
Lemma connects_usable conf target :
  usable conf → (∀ host, ask host ≠ Some []) → is_Some (random_loop rng) → connects conf target ≠ Panic.
Proof.
  intros ((n & Hn & _) & Hciphers & _) Hask [iv Hiv]. unfold connects, connect.
  destruct (server_addr ask resolve_error conf) as [addr|e|] eqn:Ea; [|done|].
  - destruct (run_ops os _) as [made [e|]]; [done|]. cbn [snd]. unfold ProxyStream_new, from_stream.
    set (k := ServerConfig.kind conf) in *.
    assert (is_aead k = true) as Hk by (by destruct k).
    assert (category k = Aead) as Hc by (by destruct k).
    destruct (aead_salt_len (E:=ErrorKind) k Hk) as (m & Hm & Hm0). rewrite Hm.
    assert (generate_nonce rng k (replicate m 0) = Some iv) as ->.
    { unfold generate_nonce, random_iv_or_salt. by destruct m. }
    cbn [mbind option_bind]. unfold reader_new, writer_new, DecryptedReader_new, TcpAead.EncryptedWriter_new.
    destruct (Hciphers iv) as [ci Hci]. fold k in Hci. by rewrite Hc, Hm, Hci.
  - exfalso. revert Ea. unfold server_addr, Resolver.resolve, Resolver.lookup_ip.
    destruct (addr conf) as [|host port]; [done|]. specialize (Hask host).
    destruct (ask host) as [[|ip ips]|]; done.
Qed.

(** A pool of usable servers can be tried without a panic. *)
Lemma connects_steady (proxied : ServerConfig → Address → res ErrorKind ()) target w :
  pool_wf w → (∀ p sv, p ∈ servers (peers w) → heap w !! p = Some sv → usable (config sv)) →
  (∀ host, ask host ≠ Some []) → is_Some (random_loop rng) → (∀ c, proxied c target ≠ Panic) →
  steady (asks connects (heap w) target) (asks proxied (heap w) target) (peers w).
Proof.
  intros Hw Hus Hask Hrng Hpr p Hp. unfold asks.
  destruct (deref_valid (E:=ErrorKind) (heap w) p (pool_valid _ _ (wf_pool _ Hw) p Hp)) as (sv & -> & Hsv & _).
  cbn [mbind res_bind]. split; [|done]. apply connects_usable; [by eapply Hus|done|done].
Qed.
End connects.

(** What the server reads out of the stream to it: the target, and the request, of which
    at most as many bytes are missing as the address took, and these right behind a first
    packet that is full. *)
Definition server_reads `{L : CryptoLib} {T : Type} `{AsyncWrite T} `{!AsyncWriteOk T}
    (kind : CipherKind) (key : bytes) (host : bytes) (request : bytes) (sock : T) : Prop :=
  ∃ sent f plain kept lost later, accepted sock sent None
    ∧ decode_stream f kind key sent = Some (plain, Clean)
    ∧ (∀ k, read_from {| avail := plain; fin := k |}
            = Ok (DomainNameAddress host 443, {| avail := kept ++ later; fin := k |}))
    ∧ request = kept ++ lost ++ later
    ∧ (length lost ≤ length (address_wire (DomainNameAddress host 443)))%nat
    ∧ (lost ≠ [] → length (address_wire (DomainNameAddress host 443) ++ kept) = MAX_PACKET_SIZE).

Lemma request_read `{L : CryptoLib} {A T : Type} `{AsyncWrite A} `{!AsyncWriteOk A} `{AsyncWrite T} `{!AsyncWriteOk T}
    kind key host request (s : Session A (ProxyStream T)) :
  address_wf (DomainNameAddress host 443) → sendable (DomainNameAddress host 443) →
  request_sent kind key (DomainNameAddress host 443) request s →
  server_reads kind key host request (stream (pstream (far s))).
Proof.
  intros Hwf Hs (sent & plain & f & Ha & (kept & lost & later & -> & -> & Hl & Hfull) & Hd).
  eexists sent, f, _, kept, lost, later. split_and!; [done|done| |done..].
  intros k. by rewrite read_from_wire.
Qed.

(** ** Properties *)


(** ** A client of the pool of [Upstream.Demo] *)

Module Demo.
Definition hello : bytes :=
  hello_text Sniffing.Demo.hello (concat (ext_text <$> Sniffing.Demo.exts) ++ sni_text 16 14 example_host).
Definition request : bytes := hello ++ [1; 2; 3].
Definition key : bytes := ServerConfig.key ServerConfig.Demo.config.
Definition wire : bytes :=
  match Cipher_new (L:=Toy.toy) (E:=()) AES_128_GCM key ProxyStream.Demo.salt with
  | Ok ci => ProxyStream.Demo.salt ++ chunks_wire (L:=Toy.toy) ci [Session.Demo.answer]
  | _ => []
  end.
Definition sock : Script.duplex := ([Script.EvPending; Script.EvBytes wire], Session.Demo.sink).
Definition client : Script.duplex := ([Script.EvBytes request], Session.Demo.sink).
Definition ask (host : bytes) : option (list IpAddr) := Some [IpV4 [192; 0; 2; 1]].
Definition ok (op : SockOp) : option ErrorKind := None.
Definition target : Address := DomainNameAddress example_host 443.
Definition dial : list SockOp * option (res ErrorKind (ProxyStream Script.duplex)) :=
  connect (L:=Toy.toy) (M:=Toy2022.toy) ask OtherError ok (λ _, sock) [ProxyStream.Demo.salt]
    ServerConfig.Demo.config target Session.Demo.opts.
Definition open : ProxyStream Script.duplex :=
  match dial.2 with Some (Ok p) => p | _ => ProxyStream.Demo.start end.
Definition start : Session Script.duplex (ProxyStream Script.duplex) :=
  {| l2p := copy_to_encrypted AES_128_GCM; p2l := CopyBuffer_new (MAX_PACKET_SIZE + 16);
     near := client; far := open |}.
Abbreviation poll := (poll_session (L:=Toy.toy) (M:=Toy2022.toy) (H:=release) 300 300 0 [] start).

Example sizes : (length hello, length request, poll.1) = (111%nat, 114%nat, Ready (Ok (Left, 114))).
Proof. vm_compute. reflexivity. Qed.

Lemma all_configs p sv : heap Upstream.Demo.world !! p = Some sv → config sv = ServerConfig.Demo.config.
Proof.
  assert (Forall (λ s, config s = ServerConfig.Demo.config) (heap Upstream.Demo.world)) as Hall
    by (vm_compute; repeat constructor).
  apply (Forall_lookup_1 _ _ _ _ Hall).
Qed.

Lemma config_usable : usable (C:=Toy.toy) ServerConfig.Demo.config.
Proof.
  destruct (from_url_result (C:=Toy.toy) (L:=ServerConfig.Demo.lib) ServerConfig.Demo.hidden) as (r & Hr & Hu).
  assert (from_url (L:=ServerConfig.Demo.lib) (length ServerConfig.Demo.hidden + 1) ServerConfig.Demo.hidden
          = Some (Ok ServerConfig.Demo.config)) as E by (vm_compute; reflexivity).
  apply Hu. rewrite E in Hr. by injection Hr.
Qed.
End Demo.

