(* ===== verification/Louds.v ===== *)
(** * Characters of domain names in a bitmap (dns/rule/trie/louds.rs)

    The slots of the characters and the 128-bit bitmap.  The trie of that file has no
    operations yet, and no other file uses it. *)

From S2P Require Import Prelude RustStr.

Definition validate (c : Z) : bool :=
  if is_ascii_digit c then true
  else if (97 <=? c) && (c <=? 122) then true
  else (c =? 46) || (c =? 45).

Definition ascii_to_index (c : Z) : Z :=
  if (97 <=? c) && (c <=? 122) then c - 97 + 2 + 10
  else if is_ascii_digit c then c - 48 + 2
  else if c =? 46 then 0 else 1.

Section bitmap.
Context `{Profile} {E : Type}.

(** [1 << index] on [u128]: a shift by 128 or more is an overflow. *)
Definition mask (index : Z) : res E Z :=
  if index <? 128 then Ok (Z.shiftl 1 index)
  else if overflow_checks then Panic else Ok (Z.shiftl 1 (index mod 128)).

Definition get (self index : Z) : res E bool :=
  m ← mask index; Ok (negb (Z.land self m =? 0)).

Definition set (self index : Z) (value : bool) : res E Z :=
  m ← mask index;
  Ok (if value then Z.lor self m else Z.land self (Z.lnot m)).

Lemma mask_bit index i : 0 <= index → Z.testbit (Z.shiftl 1 index) i = bool_decide (i = index).
Proof.
  intros Hi. rewrite Z.shiftl_1_l. case_bool_decide as E0.
  - subst. by apply Z.pow2_bits_true.
  - by apply Z.pow2_bits_false.
Qed.

(** [get] reads the bit of its index. *)
Lemma get_testbit self index : 0 <= index < 128 → get self index = Ok (Z.testbit self index).
Proof.
  intros Hi. unfold get, mask. rewrite (proj2 (Z.ltb_lt _ _)) by lia. cbn [mbind res_bind]. f_equal.
  destruct (Z.testbit self index) eqn:Hb.
  - apply negb_true_iff, Z.eqb_neq. intros Hz.
    assert (Z.testbit (Z.land self (Z.shiftl 1 index)) index = true) as Ht.
    { by rewrite Z.land_spec, mask_bit, bool_decide_eq_true_2, Hb by lia. }
    rewrite Hz in Ht. by rewrite Z.bits_0 in Ht.
  - apply negb_false_iff, Z.eqb_eq, Z.bits_inj'. intros i _.
    rewrite Z.land_spec, mask_bit, Z.bits_0 by lia. case_bool_decide; subst; [by rewrite Hb|apply andb_false_r].
Qed.

(** [set] changes that bit only, and keeps the width. *)
Lemma set_testbit self index value :
  0 <= self < 2 ^ 128 → 0 <= index < 128 →
  ∃ self', set self index value = Ok self' ∧ 0 <= self' < 2 ^ 128
    ∧ ∀ i, 0 <= i → Z.testbit self' i = if bool_decide (i = index) then value else Z.testbit self i.
Proof.
  intros Hs Hi. unfold set, mask. rewrite (proj2 (Z.ltb_lt _ _)) by lia. cbn [mbind res_bind].
  assert (∀ i, 0 <= i → Z.testbit (if value then Z.lor self (Z.shiftl 1 index)
            else Z.land self (Z.lnot (Z.shiftl 1 index))) i
          = if bool_decide (i = index) then value else Z.testbit self i) as Hbits.
  { intros i Hi0. destruct value; rewrite ?Z.lor_spec, ?Z.land_spec, ?Z.lnot_spec, mask_bit by lia;
      case_bool_decide; simpl; by rewrite ?orb_true_r, ?orb_false_r, ?andb_false_r, ?andb_true_r. }
  eexists. split; [done|]. split; [|done].
  assert (0 <= if value then Z.lor self (Z.shiftl 1 index)
               else Z.land self (Z.lnot (Z.shiftl 1 index))) as Hnn.
  { destruct value; [apply Z.lor_nonneg; split; [lia|apply Z.shiftl_nonneg; lia]|].
    apply Z.land_nonneg. lia. }
  split; [done|]. set (x := if value then _ else _) in *.
  destruct (decide (x < 2 ^ 128)) as [|Hge]; [done|]. exfalso.
  assert (Z.testbit x (Z.log2 x) = true) as Ht by (apply Z.bit_log2; lia).
  assert (128 <= Z.log2 x) as Hl by (apply Z.log2_le_pow2; lia).
  rewrite Hbits in Ht by lia. rewrite bool_decide_eq_false_2 in Ht by lia.
  destruct (decide (self = 0)) as [->|]; [by rewrite Z.bits_0 in Ht|].
  rewrite Z.bits_above_log2 in Ht; [done|lia|]. enough (Z.log2 self < 128) by lia. apply Z.log2_lt_pow2; lia.
Qed.

(** The set of characters of a text. *)
Fixpoint set_chars (cs : list Z) (bitmap : Z) : res E Z :=
  match cs with
  | [] => Ok bitmap
  | c :: cs => bitmap ← set bitmap (ascii_to_index c) true; set_chars cs bitmap
  end.
End bitmap.

Lemma index_range c : validate c = true → 0 <= ascii_to_index c < 38.
Proof.
  unfold validate, ascii_to_index, is_ascii_digit. intros Hv.
  repeat (case_match; simplify_eq); rewrite ?andb_true_iff, ?orb_true_iff, ?Z.leb_le, ?Z.eqb_eq in *; lia.
Qed.

Lemma index_inj c d : validate c = true → validate d = true → ascii_to_index c = ascii_to_index d → c = d.
Proof.
  unfold validate, ascii_to_index, is_ascii_digit. intros Hc Hd E.
  repeat (case_match; simplify_eq);
    rewrite ?andb_true_iff, ?orb_true_iff, ?andb_false_iff, ?Z.leb_le, ?Z.leb_gt, ?Z.eqb_eq, ?Z.eqb_neq in *; lia.
Qed.

(** A bitmap refines a set of characters: after the characters of a text have been set, no
    shift overflows and [get] at the slot of a valid character tells whether it is one of
    them. *)
Theorem bitmap_is_set `{Profile} {E} (cs : list Z) (c : Z)
    (Hcs : Forall (λ c, validate c = true) cs) (Hc : validate c = true) :
  ∃ bitmap, set_chars (E:=E) cs 0 = Ok bitmap
    ∧ get (E:=E) bitmap (ascii_to_index c) = Ok (bool_decide (c ∈ cs)).
Proof.
  assert (∀ b, 0 <= b < 2 ^ 128 → ∃ bitmap, set_chars (E:=E) cs b = Ok bitmap
    ∧ Z.testbit bitmap (ascii_to_index c) = Z.testbit b (ascii_to_index c) || bool_decide (c ∈ cs)) as Hgo.
  { pose proof (index_range c Hc).
    induction Hcs as [|d cs Hd _ IH]; intros b Hb.
    { exists b. split; [done|]. by rewrite bool_decide_eq_false_2, orb_false_r by apply not_elem_of_nil. }
    pose proof (index_range d Hd).
    destruct (set_testbit (E:=E) b (ascii_to_index d) true Hb) as (b' & Hs & Hb' & Hbits); [lia|].
    destruct (IH b' Hb') as (bm & Hbm & Ht). exists bm. simpl. rewrite Hs. split; [done|].
    rewrite Ht, Hbits by lia. destruct (decide (c = d)) as [->|Hne].
    - rewrite bool_decide_eq_true_2 by done.
      rewrite (bool_decide_eq_true_2 (d ∈ d :: cs)) by by left. by rewrite orb_true_r.
    - rewrite bool_decide_eq_false_2 by (intros ?; by apply Hne, index_inj). f_equal.
      apply bool_decide_ext. rewrite elem_of_cons. naive_solver. }
  destruct (Hgo 0) as (bm & Hbm & Ht); [lia|]. exists bm. split; [done|].
  rewrite get_testbit by (pose proof (index_range c Hc); lia). by rewrite Ht, Z.bits_0.
Qed.

Example bitmap_is_set_demo :
  (b ← set_chars (H:=dev) (E:=()) [97; 46; 122] 0; get (H:=dev) b (ascii_to_index 46)) = Ok true.
Proof. vm_compute. reflexivity. Qed.
