(* ===== verification/UdpSocket.v ===== *)
(** * The UDP client (lib/shadowsocks/src/udp/crypto.rs, udp/proxy_socket.rs, sys/net)

    [ProxySocket] sends datagrams to a server and receives its answers.  The calls of the
    operating system are recorded in order; an oracle answers each of them from what was
    called before. *)

From S2P Require Import Prelude RustStr Io Address NetAddr Crypto Crypto2022 TcpAead UdpAead Resolver ProxyStream ServerConfig UdpAead2022.

(** ** Protocol dispatch (udp/crypto.rs) *)

Inductive UdpProtocolError :=
  | UdpInvalidAddress (e : Socks5.Error)
  | AeadError (e : UdpError)
  | Aead2022Error (e : Udp2022Error).

Section dispatch.
Context `{C : CryptoLib} `{M : Crypto2022Lib} `{N : Lengths} `{R : LruCache CipherKey UdpCipher}.

(** The packet; encryption has no errors.  [None] when the generator gave no salt. *)
Definition encrypt_client_payload (d : Draws) (kind : CipherKind) (key : KeyRef)
    (addr : Address) (control : UdpSocketControlData) (identity_keys : list bytes)
    (payload dst : bytes) (cache : lru) : option (res Udp2022Error bytes * lru) :=
  match category kind with
  | Aead =>
    (λ r, (r, cache)) <$> encrypt_payload_aead (fills d) kind (key_bytes key) addr payload dst
  | Aead2022 =>
    encrypt_client_payload_aead_2022 d kind key addr control identity_keys payload dst cache
  end.

(** The length of the payload, the address, the control data and the buffer. *)
Definition decrypt_server_payload (now : Z) (kind : CipherKind) (key : KeyRef) (payload : bytes)
  : prog lru UdpProtocolError (nat * Address * option UdpSocketControlData * bytes) := λ cache,
  match category kind with
  | Aead =>
    (map_err AeadError
       ('(n, a, buf) ← decrypt_payload_aead kind (key_bytes key) payload; Ok (n, a, None, buf)), cache)
  | Aead2022 =>
    let '(r, cache) := decrypt_server_payload_aead_2022 now kind key payload cache in
    (map_err Aead2022Error ('(n, a, c, buf) ← r; Ok (n, a, Some c, buf)), cache)
  end.
End dispatch.

(** ** Sockets (sys/net) *)

Inductive AddrFamily := Ipv4 | Ipv6.

Definition family (addr : SocketAddr) : AddrFamily :=
  match addr with V4 _ _ => Ipv4 | V6 _ _ _ _ => Ipv6 end.

Inductive UdpOp :=
  | UBind (addr : SocketAddr)
  | UNewSocket (addr : SocketAddr)
  | UOnlyV6 (only : bool)
  | USockBind (addr : SocketAddr)
  | UNonblocking
  | UFromStd
  | UMtuV4
  | UMtuV6
  | UMark (mark : Z)
  | UBindToDevice (iface : bytes)
  | UConnect (addr : SocketAddr).

(** A call fails with an error or succeeds. *)
Definition oracle : Type := list UdpOp → UdpOp → option ErrorKind.

(** The calls so far, in order, with their outcomes; a program appends its calls. *)
Definition trace : Type := list (UdpOp * option ErrorKind).
Definition sys (A : Type) : Type := prog trace ErrorKind A.
Local Open Scope prog_scope.

(** [if let Err(err) = m { warn }] *)
Definition warn_only (m : sys ()) : sys () := λ t,
  match m t with
  | (Panic, t) => (Panic, t)
  | (_, t) => (Ok (), t)
  end.

Section sockets.
Context (os : oracle).

Definition call (op : UdpOp) : sys () := λ t,
  let r := os t.*1 op in
  (match r with Some e => Err e | None => Ok () end, t ++ [(op, r)]).

Definition socket_bind_dual_stack_inner (addr : SocketAddr) (ipv6_only : bool) : sys () :=
  if ipv6_only then call (UOnlyV6 true) ;; call (USockBind addr)
  else
    warn_only (call (UOnlyV6 false)) ;;
    λ t, match call (USockBind addr) t with
         | (Err AddrInUse, t) => (warn_only (call (UOnlyV6 true)) ;; call (USockBind addr)) t
         | r => r
         end.

Definition set_disable_ip_fragmentation (af : AddrFamily) : sys () :=
  call UMtuV4 ;;
  match af with Ipv6 => call UMtuV6 | Ipv4 => sret () end.

Definition bind_addr (af : AddrFamily) (local : option IpAddr) : SocketAddr :=
  match af, local with
  | Ipv4, Some (IpV4 ip) => V4 ip 0
  | Ipv6, Some (IpV6 ip) => V6 ip 0 0 0
  | Ipv4, _ => V4 [0; 0; 0; 0] 0
  | Ipv6, _ => V6 (replicate 8 0) 0 0 0
  end.

Definition create_udp_socket (af : AddrFamily) (opts : ConnectOpts) : sys () :=
  let addr := bind_addr af (bind_local_addr opts) in
  match af with
  | Ipv4 => call (UBind addr)
  | Ipv6 =>
    call (UNewSocket addr) ;;
    socket_bind_dual_stack_inner addr false ;;
    call UNonblocking ;;
    call UFromStd
  end ;;
  warn_only (set_disable_ip_fragmentation af) ;;
  match fwmark opts with Some mark => call (UMark mark) | None => sret () end ;;
  match bind_interface opts with Some iface => call (UBindToDevice iface) | None => sret () end.
End sockets.

(** ** [ProxySocket] *)

Inductive ProxySocketError :=
  | IoError (e : ErrorKind)
  | SocketProtocolError (e : UdpProtocolError)
  | SocketProtocolErrorWithPeer (peer : SocketAddr) (e : UdpProtocolError)
  | InvalidServerUser (user : bytes)
  | SocketResolve.

Definition socket_into_io (e : ProxySocketError) : ErrorKind :=
  match e with
  | IoError e => e
  | _ => OtherError
  end.

Record ProxySocket := {
  sk_kind : CipherKind;
  sk_key : KeyRef;
  send_timeout : option Z;
  recv_timeout : option Z;
  sk_identity_keys : list bytes
}.

Definition set_timeouts (send recv : option Z) (s : ProxySocket) : ProxySocket :=
  {| sk_kind := sk_kind s; sk_key := sk_key s; send_timeout := send; recv_timeout := recv;
     sk_identity_keys := sk_identity_keys s |}.

Section socket.
Context `{C : CryptoLib} `{M : Crypto2022Lib} `{N : Lengths} `{R : LruCache CipherKey UdpCipher}.
Context (os : oracle) (lookup_ip : bytes → option (list IpAddr)).

(** The key is copied to a box of its own, at an address [ptr] that was free. *)
Definition connect_with_opts (sc : ServerConfig) (opts : ConnectOpts) (ptr : Z) (t : trace)
  : res ProxySocketError ProxySocket * trace :=
  let remote := match addr sc with
                | SocketAddress remote => Ok remote
                | DomainNameAddress domain port =>
                  map_err (λ _, SocketResolve) (Resolver.resolve lookup_ip domain port)
                end in
  match remote with
  | Ok remote =>
    let '(r, t) := (create_udp_socket os (family remote) opts ;; call os (UConnect remote)) t in
    (_ ← map_err IoError r;
     Ok {| sk_kind := kind sc; sk_key := {| as_ptr := ptr; key_bytes := key sc |};
           send_timeout := None; recv_timeout := None; sk_identity_keys := identity_keys sc |}, t)
  | Err e => (Err e, t)
  | Panic => (Panic, t)
  end.

(** What the socket does within the timeout; [None] if it does nothing. *)
Definition within {A} (timeout : option Z) (outcome : option (res ErrorKind A)) : option (res ProxySocketError A) :=
  match outcome, timeout with
  | Some r, _ => Some (map_err IoError r)
  | None, Some _ => Some (Err (IoError TimedOut))
  | None, None => None
  end.

Definition encrypt_send_buffer (self : ProxySocket) (d : Draws) (addr : Address)
    (control : UdpSocketControlData) (identity_keys : list bytes) (payload send_buf : bytes)
    (cache : lru) : option (res ProxySocketError bytes * lru) :=
  '(r, cache) ← encrypt_client_payload d (sk_kind self) (sk_key self) addr control identity_keys
                  payload send_buf cache;
  Some (map_err (λ e, SocketProtocolError (Aead2022Error e)) r, cache).

(** [sent]: what becomes of the packet that is handed to the socket; the result with that
    packet, [None] while the socket is not ready or the generator is exhausted. *)
Definition send (self : ProxySocket) (d : Draws) (addr : Address) (payload : bytes)
    (control : UdpSocketControlData) (sent : bytes → option (res ErrorKind nat)) (cache : lru)
  : option (res ProxySocketError nat * option bytes * lru) :=
  '(buf, cache) ← encrypt_send_buffer self d addr control (sk_identity_keys self) payload [] cache;
  match buf with
  | Ok send_buf => r ← within (send_timeout self) (sent send_buf); Some (r, Some send_buf, cache)
  | Err e => Some (Err e, None, cache)
  | Panic => Some (Panic, None, cache)
  end.

Definition decrypt_recv_buffer (self : ProxySocket) (now : Z) (recv_buf : bytes)
  : prog lru UdpProtocolError (nat * Address * option UdpSocketControlData * bytes) :=
  decrypt_server_payload now (sk_kind self) (sk_key self) recv_buf.

(** [received]: the datagram, which the system cuts to the buffer. *)
Definition recv_with_ctrl (self : ProxySocket) (now : Z) (recv_buf : bytes)
    (received : option (res ErrorKind bytes)) (cache : lru)
  : option (res ProxySocketError (nat * Address * nat * option UdpSocketControlData * bytes) * lru) :=
  r ← within (recv_timeout self) received;
  Some match r with
  | Ok datagram =>
    let recv_n := (length datagram `min` length recv_buf)%nat in
    let recv_buf := take recv_n datagram ++ drop recv_n recv_buf in
    let '(r, cache) := decrypt_recv_buffer self now (take recv_n recv_buf) cache in
    ('(n, addr, control, front) ← map_err SocketProtocolError r;
     Ok (n, addr, recv_n, control, front ++ drop recv_n recv_buf), cache)
  | Err e => (Err e, cache)
  | Panic => (Panic, cache)
  end.

Definition recv (self : ProxySocket) (now : Z) (recv_buf : bytes)
    (received : option (res ErrorKind bytes)) (cache : lru)
  : option (res ProxySocketError (nat * Address * nat * bytes) * lru) :=
  '(r, cache) ← recv_with_ctrl self now recv_buf received cache;
  Some ('(n, a, rn, _, buf) ← r; Ok (n, a, rn, buf), cache).
End socket.

(** ** What a program did to the trace *)

(** A program only appends to the trace. *)
Definition appends {A} (m : sys A) : Prop := ∀ t r t', m t = (r, t') → ∃ new, t' = t ++ new.

Lemma appends_call os op : appends (call os op).
Proof. intros t r t' [= <- <-]. by eexists. Qed.

Lemma appends_ret {A} (a : A) : appends (sret a).
Proof. intros t r t' [= <- <-]. exists []. by rewrite app_nil_r. Qed.

Lemma appends_bind {A B} (m : sys A) (f : A → sys B) :
  appends m → (∀ a, appends (f a)) → appends (sbind m f).
Proof.
  intros Hm Hf t r t'. unfold sbind. destruct (m t) as [r1 t1] eqn:E1.
  destruct (Hm _ _ _ E1) as [n1 ->]. destruct r1 as [a|e|]; [|intros [= <- <-]; by eexists..].
  intros (n2 & ->)%Hf. exists (n1 ++ n2). by rewrite app_assoc.
Qed.

Lemma appends_warn m : appends m → appends (warn_only m).
Proof.
  intros Hm t r t'. unfold warn_only. destruct (m t) as [r1 t1] eqn:E1.
  destruct (Hm _ _ _ E1) as [n1 ->]. destruct r1; intros [= <- <-]; by eexists.
Qed.

Create HintDb sysdb discriminated.
#[export] Hint Resolve appends_call appends_ret appends_bind appends_warn : sysdb.

Lemma call_Ok os op t u t' : call os op t = (Ok u, t') → t' = t ++ [(op, None)].
Proof. unfold call. destruct (os t.*1 op); [done|]. by intros [= <- <-]. Qed.

Lemma appends_tail os af opts : appends (
  warn_only (set_disable_ip_fragmentation os af) ;;
  match fwmark opts with Some mark => call os (UMark mark) | None => sret () end ;;
  match bind_interface opts with Some iface => call os (UBindToDevice iface) | None => sret () end).
Proof.
  apply appends_bind; [|intros _; apply appends_bind].
  - apply appends_warn. unfold set_disable_ip_fragmentation.
    apply appends_bind; [auto with sysdb|]. destruct af; auto with sysdb.
  - destruct (fwmark opts); auto with sysdb.
  - intros _. destruct (bind_interface opts); auto with sysdb.
Qed.

(** The calls that set [IPV6_V6ONLY] do not matter: the address is bound if it can be, and
    once more if it was in use. *)
Lemma dual_stack_Ok os a t u t' :
  socket_bind_dual_stack_inner os a false t = (Ok u, t') → ∃ t1, t' = t1 ++ [(USockBind a, None)].
Proof.
  unfold socket_bind_dual_stack_inner. intros ([] & t1 & _ & Hb)%sbind_Ok.
  destruct (call os (USockBind a) t1) as [r t2] eqn:E1.
  destruct r as [[]|e|]; [|destruct e|]; try done.
  - injection Hb as <- <-. apply call_Ok in E1. by eexists.
  - apply sbind_Ok in Hb as ([] & t3 & _ & Hb). apply call_Ok in Hb. by eexists.
Qed.

(** The local address that a socket of a family is bound to. *)
Definition is_bind (a : SocketAddr) (c : UdpOp * option ErrorKind) : Prop :=
  c = (UBind a, None) ∨ c = (USockBind a, None).

Lemma create_udp_socket_binds os af opts t u t' :
  create_udp_socket os af opts t = (Ok u, t') →
  ∃ c, c ∈ t' ∧ is_bind (bind_addr af (bind_local_addr opts)) c.
Proof.
  unfold create_udp_socket. set (a := bind_addr _ _). intros ([] & t1 & Hb & Ht)%sbind_Ok.
  apply appends_tail in Ht as (new & ->).
  enough (∃ c, c ∈ t1 ∧ is_bind a c) as (c & Hc & Hbind).
  { exists c. split; [|done]. apply elem_of_app. by left. }
  destruct af.
  - apply call_Ok in Hb as ->. exists (UBind a, None). split; [|by left].
    apply elem_of_app. right. by left.
  - apply sbind_Ok in Hb as ([] & t2 & _ & ([] & t3 & Hd & ([] & t4 & Hn & Hf)%sbind_Ok)%sbind_Ok).
    apply dual_stack_Ok in Hd as (t0 & ->). apply call_Ok in Hn as ->. apply call_Ok in Hf as ->.
    exists (USockBind a, None). split; [|by right]. rewrite !elem_of_app. left; left; right. by left.
Qed.

(** ** Datagrams *)

Section datagrams.
Context `{C : CryptoLib} `{!CryptoLibOk C}.
Context `{M : Crypto2022Lib} `{N : Lengths} `{R : LruCache CipherKey UdpCipher}.

(** A socket made for a usable configuration. *)
Definition socket_ok (s : ProxySocket) : Prop :=
  is_aead (sk_kind s) = true
  ∧ key_len (E:=UdpError) (sk_kind s) = Ok (length (key_bytes (sk_key s))).

Lemma category_aead k : is_aead k = true → category k = Aead.
Proof. by destruct k. Qed.

(** The datagram as it stands in the receive buffer. *)
Lemma recv_cut (d buf : bytes) : (length d ≤ length buf)%nat →
  take (length d `min` length buf)%nat (take (length d `min` length buf) d ++ drop (length d `min` length buf) buf)
  = d.
Proof.
  intros Hl. rewrite Nat.min_l by done. rewrite (take_ge d) by done. apply take_app_length.
Qed.

Lemma recv_packet s now salt ci addr payload buf (cache : lru) :
  socket_ok s → salt_len (E:=UdpError) (sk_kind s) = Ok (length salt) →
  Cipher_new (E:=UdpError) (sk_kind s) (key_bytes (sk_key s)) salt = Ok ci →
  address_wf addr → sendable addr →
  let packet := salt ++ sealed ci (address_wire addr ++ payload) in
  (length packet ≤ length buf)%nat →
  ∃ out, recv s now buf (Some (Ok packet)) cache
         = Some (Ok (length payload, wire_address addr, length packet, out), cache)
    ∧ take (length payload) out = payload.
Proof.
  intros [Hk Hkey] Hsl Hci Hwf Hs packet Hlen. unfold recv, recv_with_ctrl, decrypt_recv_buffer.
  cbn [within mbind option_bind map_err res_bind].
  rewrite recv_cut by done. unfold decrypt_server_payload. rewrite category_aead by done.
  destruct (decrypt_payload_sealed (sk_kind s) (key_bytes (sk_key s)) salt ci addr payload Hk Hsl Hci Hwf Hs)
    as (rest & Hd).
  fold packet in Hd. rewrite Hd. cbn [map_err mbind res_bind option_bind]. rewrite Nat.min_l by done.
  eexists. split; [done|]. rewrite <- app_assoc. apply take_app_length.
Qed.

Lemma decrypt_server_safe s now packet (cache : lru) :
  socket_ok s → (decrypt_server_payload now (sk_kind s) (sk_key s) packet cache).1 ≠ Panic.
Proof.
  intros [Hk Hkey]. unfold decrypt_server_payload. rewrite category_aead by done.
  pose proof (decrypt_payload_safe (sk_kind s) (key_bytes (sk_key s)) packet Hk Hkey).
  by destruct (decrypt_payload_aead _ _ _) as [[[]]| |].
Qed.
End datagrams.

(** ** Properties *)

(** C6: datagrams of an AEAD socket (not AEAD-2022) get through.  Sending to an address, or to
    a name of at most 255 bytes, does not panic: it hands the socket one packet, and comes
    to what the socket comes to, or to a timeout; and from that packet a socket with the same
    configuration receives the address and the payload, whatever it held in its buffer, if
    the buffer is as long as the packet.  The cache of ciphers is not touched. *)
Theorem udp_exchange `{C : CryptoLib} `{!CryptoLibOk C} `{M : Crypto2022Lib} `{N : Lengths}
    `{R : LruCache CipherKey UdpCipher} (s : ProxySocket) (d : Draws) (now : Z)
    (addr : Address) (payload : bytes) (control : UdpSocketControlData)
    (sent : bytes → option (res ErrorKind nat)) (cache cache' : lru)
    (r : res ProxySocketError nat) (handed : option bytes)
    (Hs : socket_ok s) (Haddr : address_wf addr) (Hsend : sendable addr)
    (Hrng : Forall (λ bs, salt_len (E:=()) (sk_kind s) = Ok (length bs)) (fills d))
    (Hr : send s d addr payload control sent cache = Some (r, handed, cache')) :
  ∃ packet, handed = Some packet ∧ within (send_timeout s) (sent packet) = Some r ∧ cache' = cache
    ∧ ∀ buf, (length packet ≤ length buf)%nat →
        ∃ out, recv s now buf (Some (Ok packet)) cache
               = Some (Ok (length payload, wire_address addr, length packet, out), cache)
          ∧ take (length payload) out = payload.
Proof.
  unfold send, encrypt_send_buffer, encrypt_client_payload in Hr. destruct Hs as [Hk Hkey].
  rewrite category_aead in Hr by done.
  destruct (encrypt_payload_aead _ _ _ _ _ _) as [out|] eqn:Ee; [|done].
  destruct (encrypt_payload_sealed _ _ _ _ _ _ _ Hk Hkey Hsend Hrng Ee)
    as (salt & ci & -> & Hsl & _ & Hci).
  cbn [fmap option_fmap option_map mbind option_bind map_err] in Hr. set (packet := salt ++ _) in *.
  destruct (within _ _) as [r'|] eqn:Ew; [|done]. injection Hr as <- <- <-.
  exists packet. split_and!; [done..|]. intros buf Hl. by apply recv_packet.
Qed.

(** No datagram makes the client panic: whatever arrives, it is answered with an error or
    a payload. *)
Theorem recv_never_panics `{C : CryptoLib} `{!CryptoLibOk C} `{M : Crypto2022Lib} `{N : Lengths}
    `{R : LruCache CipherKey UdpCipher} (s : ProxySocket) (now : Z) (buf datagram : bytes)
    (cache : lru) (Hs : socket_ok s) :
  ∃ r cache', recv s now buf (Some (Ok datagram)) cache = Some (r, cache') ∧ r ≠ Panic.
Proof.
  unfold recv, recv_with_ctrl. cbn [within mbind option_bind map_err res_bind].
  set (cut := take _ (_ ++ _)). pose proof (decrypt_server_safe s now cut cache Hs) as Hd.
  unfold decrypt_recv_buffer.
  destruct (decrypt_server_payload _ _ _ cut cache) as [[[[[n a] c] f]| |] cache']; try done;
    by do 2 eexists.
Qed.


(** A client socket is opened as configured.  When it opens, it was bound, successfully, to
    an address of the family of the server, the configured one if that is of the family,
    and connected to the server last; no setting of the IPV6_V6ONLY or fragmentation flags
    is fatal. *)
Theorem udp_socket_opened (os : oracle) (lookup_ip : bytes → option (list IpAddr))
    (sc : ServerConfig) (opts : ConnectOpts) (ptr : Z) (s : ProxySocket) (t' : trace)
    (Hopen : connect_with_opts os lookup_ip sc opts ptr [] = (Ok s, t')) :
  ∃ remote c calls, t' = calls ++ [(UConnect remote, None)]
    ∧ c ∈ calls ∧ is_bind (bind_addr (family remote) (bind_local_addr opts)) c
    ∧ sk_kind s = kind sc ∧ key_bytes (sk_key s) = key sc.
Proof.
  unfold connect_with_opts in Hopen. cbv zeta in Hopen.
  match type of Hopen with match ?r with Ok _ => _ | _ => _ end = _ =>
    destruct r as [remote| |]; [|done..] end.
  destruct ((create_udp_socket os (family remote) opts ;; call os (UConnect remote)) []) as [r t] eqn:Ec. injection Hopen as Hr ->.
  apply bind_Ok in Hr as ([] & ->%map_err_Ok & [= <-]).
  apply sbind_Ok in Ec as ([] & t1 & Hcreate & ->%call_Ok).
  apply create_udp_socket_binds in Hcreate as (c & Hc & Hb).
  by exists remote, c, t1.
Qed.

(** ** A socket *)

Module Demo.
Definition config : ServerConfig := ServerConfig.Demo.config.
Definition lookup (host : bytes) : option (list IpAddr) := Some [IpV6 [8193; 3512; 0; 0; 0; 0; 0; 1]].
Definition no_opts : ConnectOpts := {|
  fwmark := None; bind_local_addr := None; bind_interface := None;
  tcp := {| send_buffer_size := None; recv_buffer_size := None; nodelay := false;
            fastopen := false; keepalive := None |}
|}.

Global Instance UdpOp_eq_dec : EqDecision UdpOp.
Proof. intros x y. unfold Decision. repeat decide equality. Defined.

(** A system on which the dual-stack bind is in use until the socket is IPv6 only. *)
Definition os : oracle := λ calls op,
  match op with
  | USockBind _ => if bool_decide (UOnlyV6 true ∈ calls) then None else Some AddrInUse
  | UOnlyV6 false | UMtuV6 => Some (KOs 1)
  | _ => None
  end.

Definition socket : ProxySocket := {|
  sk_kind := kind config; sk_key := {| as_ptr := 4096; key_bytes := key config |};
  send_timeout := None; recv_timeout := None; sk_identity_keys := [] |}.

Lemma socket_is_ok : socket_ok socket.
Proof. split; vm_compute; reflexivity. Qed.

Definition draws : Draws :=
  {| fills := [replicate 16 0; replicate 16 5]; random := 0; clock := 0; fresh n := replicate n 0 |}.
Definition control : UdpSocketControlData := UdpAead2022.Demo.control.
Definition cache : lru (LruCache:=UdpAead2022.Demo.R) := UdpAead2022.Demo.cache.
Definition sock : Script.duplex := ([], {| Script.quota := []; Script.got := [] |}).
End Demo.

Lemma udp_exchange_witness :
  ∃ packet buf out,
    send (C:=Toy.toy) (M:=Toy2022.toy) (N:=source_lengths) Demo.socket Demo.draws
      (DomainNameAddress example_domain 53) [1; 2; 3] Demo.control (λ p, Some (Ok (length p))) Demo.cache
      = Some (Ok (length packet), Some packet, Demo.cache)
    ∧ recv (C:=Toy.toy) (M:=Toy2022.toy) (N:=source_lengths) Demo.socket 0 buf (Some (Ok packet)) Demo.cache
      = Some (Ok (3%nat, wire_address (DomainNameAddress example_domain 53), length packet, out), Demo.cache)
    ∧ take 3 out = [1; 2; 3].
Proof.
  destruct (send (C:=Toy.toy) (M:=Toy2022.toy) (N:=source_lengths) Demo.socket Demo.draws
      (DomainNameAddress example_domain 53) [1; 2; 3] Demo.control (λ p, Some (Ok (length p))) Demo.cache)
    as [[[r handed] cache']|] eqn:E; [|vm_compute in E; discriminate].
  destruct (udp_exchange (C:=Toy.toy) (M:=Toy2022.toy) (N:=source_lengths) Demo.socket Demo.draws 0
      (DomainNameAddress example_domain 53) [1; 2; 3] Demo.control (λ p, Some (Ok (length p)))
      Demo.cache cache' r handed)
    as (packet & -> & Hw & -> & Hrecv).
  - exact Demo.socket_is_ok.
  - split_and!; [|reflexivity|vm_compute; split; congruence].
    apply (bool_decide_unpack _). vm_compute. exact I.
  - apply (bool_decide_unpack _). vm_compute. exact I.
  - repeat constructor.
  - exact E.
  - destruct (Hrecv packet) as (out & Ho & Ht); [lia|].
    exists packet, packet, out. split_and!; [|exact Ho|exact Ht].
    cbn in Hw. by injection Hw as <-.
Defined.

Lemma recv_never_panics_witness :
  ∃ r cache', recv (C:=Toy.toy) (M:=Toy2022.toy) (N:=source_lengths) Demo.socket 0 (replicate 40 0)
    (Some (Ok (replicate 60 1))) Demo.cache = Some (r, cache') ∧ r ≠ Panic.
Proof.
  exact (recv_never_panics (C:=Toy.toy) (M:=Toy2022.toy) (N:=source_lengths) Demo.socket 0
           (replicate 40 0) (replicate 60 1) Demo.cache Demo.socket_is_ok).
Defined.

(** The bind is retried, and the failures of the flags are passed over. *)
Lemma udp_socket_opened_witness :
  ∃ remote c calls s,
    connect_with_opts Demo.os Demo.lookup Demo.config Demo.no_opts 4096 []
    = (Ok s, calls ++ [(UConnect remote, None)]) ∧ c ∈ calls ∧ is_bind (V6 (replicate 8 0) 0 0 0) c.
Proof.
  destruct (connect_with_opts Demo.os Demo.lookup Demo.config Demo.no_opts 4096 []) as [r t] eqn:E.
  assert (r = Ok Demo.socket) as -> by (vm_compute in E; by injection E as <- <-).
  destruct (udp_socket_opened Demo.os Demo.lookup Demo.config Demo.no_opts 4096 Demo.socket t E)
    as (remote & c & calls & Ht & Hc & Hb & _ & _).
  exists remote, c, calls, Demo.socket. split_and!; [by rewrite Ht|exact Hc|].
  assert (remote = V6 [8193; 3512; 0; 0; 0; 0; 0; 1] 8388 0 0) as ->; [|exact Hb].
  assert (list.last t = Some (UConnect (V6 [8193; 3512; 0; 0; 0; 0; 0; 1] 8388 0 0), None)) as Hlast.
  { vm_compute in E. injection E as <-. reflexivity. }
  rewrite Ht, last_snoc in Hlast. by injection Hlast.
Defined.

