(* ===== verification/Replay.v ===== *)
(** * Replay protection (lib/shadowsocks/src/security/replay)

    [PingPongBloom] remembers nonces in two Bloom filters that take turns.  The filter of
    the crate [bloomfilter] is the class [Bloom]. *)

From S2P Require Import Prelude Crypto.

Class Bloom (B : Type) := {
  bloom_new : nat → B;
  bloom_check : bytes → B → bool;
  bloom_set : bytes → B → B;
  bloom_clear : B → B
}.

(** A Bloom filter has no false negatives: what was set is found until it is cleared. *)
Class BloomOk (B : Type) `{Bloom B} := {
  holds : bytes → B → Prop;
  holds_check : ∀ x b, holds x b → bloom_check x b = true;
  holds_set : ∀ x b, holds x (bloom_set x b);
  holds_keep : ∀ x y b, holds x b → holds x (bloom_set y b)
}.

Section ppbloom.
Context {B : Type} `{Bloom B}.

Record PingPongBloom := {
  blooms : list B;
  bloom_count : list nat;
  item_count : nat;
  current : nat
}.

Definition ITEMS : nat := 10000.

Definition PingPongBloom_new : PingPongBloom :=
  let item_count := (ITEMS / 2)%nat in
  {| blooms := [bloom_new item_count; bloom_new item_count]; bloom_count := [0; 0]%nat;
     item_count := item_count; current := 0 |}.

(** The current filter is full: the other one is cleared and takes over. *)
Definition turn {E} (self : PingPongBloom) : res E PingPongBloom :=
  let current := ((current self + 1) mod 2)%nat in
  _ ← (expect (bloom_count self !! current) : res E nat);
  b ← expect (blooms self !! current);
  Ok {| blooms := <[current := bloom_clear b]> (blooms self);
        bloom_count := <[current := 0%nat]> (bloom_count self);
        item_count := item_count self; current := current |}.

(** Whether [buf] was there; if not, it is now. *)
Definition check_and_set {E} (buf : bytes) (self : PingPongBloom) : res E (bool * PingPongBloom) :=
  if existsb (bloom_check buf) (blooms self) then Ok (true, self)
  else
    count ← expect (bloom_count self !! current self);
    self ← (if bool_decide (item_count self ≤ count)%nat then turn self else Ok self);
    b ← expect (blooms self !! current self);
    count ← expect (bloom_count self !! current self);
    Ok (false, {| blooms := <[current self := bloom_set buf b]> (blooms self);
                  bloom_count := <[current self := (count + 1)%nat]> (bloom_count self);
                  item_count := item_count self; current := current self |}).
End ppbloom.
Global Arguments PingPongBloom : clear implicits.

(** ** The window *)

Section window.
Context {B : Type} `{BloomOk B}.
Implicit Types s : PingPongBloom B.

Record pp_ok s : Prop := {
  pp_blooms : length (blooms s) = 2%nat;
  pp_counts : length (bloom_count s) = 2%nat;
  pp_current : (current s < 2)%nat;
  pp_items : (0 < item_count s)%nat;
  pp_full : ∀ i n, bloom_count s !! i = Some n → (n ≤ item_count s)%nat
}.

(** [remembers s x k]: [x] is in one of the filters, and that filter is not cleared before
    [item_count s - k] more nonces have been set. *)
Definition remembers s (x : bytes) (k : nat) : Prop :=
  ∃ i b, blooms s !! i = Some b ∧ holds x b
    ∧ (current s = i ∨ ∃ n, bloom_count s !! current s = Some n ∧ (n ≤ k)%nat).

Lemma remembers_check {E} s x k : remembers s x k → check_and_set (E:=E) x s = Ok (true, s).
Proof.
  intros (i & b & Hb & Hx & _). unfold check_and_set.
  assert (existsb (bloom_check x) (blooms s) = true) as ->; [|done].
  apply existsb_exists. exists b. split; [|by apply holds_check].
  apply list_elem_of_In. by apply list_elem_of_lookup_2 in Hb.
Qed.

(** Name the filter that holds a nonce, and show that it is safe. *)
Ltac at_filter tac :=
  unfold remembers; simpl;
  first [exists 0%nat; eexists; split; [reflexivity|]; split; [tac|];
         first [by left|right; eexists; split; [reflexivity|lia]]
        |exists 1%nat; eexists; split; [reflexivity|]; split; [tac|];
         first [by left|right; eexists; split; [reflexivity|lia]]].

(** What a call does to a state in order. *)
Lemma check_and_set_spec {E} s x : pp_ok s →
  ∃ found s', check_and_set (E:=E) x s = Ok (found, s') ∧ pp_ok s' ∧ item_count s' = item_count s
    ∧ (if (found : bool) then s' = s else remembers s' x 0)
    ∧ (∀ y k, (k < item_count s)%nat → remembers s y k →
        remembers s' y (if found then k else k + 1)%nat).
Proof.
  intros [Hb Hc Hcur Hi Hfull]. unfold check_and_set.
  destruct (existsb _ _); [by exists true, s|].
  destruct s as [bs cs m cur]. simpl in *.
  destruct bs as [|b0 [|b1 [|? ?]]]; try done. destruct cs as [|c0 [|c1 [|? ?]]]; try done.
  pose proof (Hfull 0%nat c0 eq_refl). pose proof (Hfull 1%nat c1 eq_refl).
  assert (cur = 0%nat ∨ cur = 1%nat) as [-> | ->] by lia; simpl; case_bool_decide as Hm; simpl;
    (eexists false, _; split_and!;
     [reflexivity| |done|at_filter ltac:(apply holds_set)|]).
  1,3,5,7: split; simpl; try done; try lia; intros [|[|i]] n; simpl; intros; simplify_eq; lia.
  all: intros y k Hk (i & b & Hbi & Hy & Hcase); simpl in *.
  all: destruct i as [|[|i]]; simplify_eq/=.
  all: destruct Hcase as [?|(n & Hn & Hnk)]; simplify_eq/=; try lia.
  all: at_filter ltac:(try apply holds_keep; done).
Qed.

(** The calls for a list of nonces, and what they answered. *)
Fixpoint run {E} (xs : list bytes) s : res E (list bool * PingPongBloom B) :=
  match xs with
  | [] => Ok ([], s)
  | x :: xs =>
    '(found, s) ← check_and_set x s;
    '(founds, s) ← run xs s;
    Ok (found :: founds, s)
  end.

Definition fresh (founds : list bool) : nat := length (filter (λ b, b = false) founds).

Lemma run_spec {E} xs s : pp_ok s →
  ∃ founds s', run (E:=E) xs s = Ok (founds, s') ∧ pp_ok s' ∧ item_count s' = item_count s
    ∧ length founds = length xs
    ∧ ∀ y k, (k + fresh founds ≤ item_count s)%nat → remembers s y k →
        remembers s' y (k + fresh founds)%nat.
Proof.
  revert s. induction xs as [|x xs IH]; intros s Hs; cbn [run].
  { exists [], s. split_and!; try done. intros y k _. unfold fresh. simpl. by rewrite Nat.add_0_r. }
  destruct (check_and_set_spec (E:=E) s x Hs) as (found & s1 & -> & Hs1 & Hi1 & Hcase & Hk1).
  destruct (IH s1 Hs1) as (founds & s2 & Hr & Hs2 & Hi2 & Hl & Hk2).
  cbn [mbind res_bind]. rewrite Hr. cbn [mbind res_bind].
  exists (found :: founds), s2. split_and!; [done|done|congruence|simpl; congruence|].
  intros y k Hle Hy. unfold fresh in *. rewrite filter_cons in *. destruct found; simpl in *.
  - subst s1. by apply Hk2.
  - replace (k + S (length (filter (λ b, b = false) founds)))%nat
      with (k + 1 + length (filter (λ b, b = false) founds))%nat by lia.
    apply Hk2; [rewrite Hi1; lia|]. apply Hk1; [lia|done].
Qed.
End window.

Lemma new_ok {B} `{BloomOk B} : pp_ok (PingPongBloom_new (B:=B)).
Proof.
  split; [done|done|simpl; lia| |].
  - apply (bool_decide_unpack _). vm_compute. exact I.
  - intros [|[|i]] n Hn; [injection Hn as <-; apply Nat.le_0_l..|done].
Qed.

Lemma new_items {B} `{Bloom B} : item_count (PingPongBloom_new (B:=B)) = 5000%nat.
Proof. vm_compute. reflexivity. Qed.

(** ** Properties *)

(** C34: a nonce cannot be replayed within the window.  After any history, a nonce that was
    accepted is rejected as long as no more than 5000 other nonces have been accepted
    since; no call panics. *)
Theorem replay_rejected {B} `{BloomOk B} {E} (before since : list bytes) (nonce : bytes)
    (founds founds' : list bool) (s s1 s2 : PingPongBloom B)
    (Hbefore : run (E:=E) before PingPongBloom_new = Ok (founds, s))
    (Haccepted : check_and_set (E:=E) nonce s = Ok (false, s1))
    (Hsince : run (E:=E) since s1 = Ok (founds', s2))
    (Hwindow : (fresh founds' ≤ 5000)%nat) :
  check_and_set (E:=E) nonce s2 = Ok (true, s2).
Proof.
  destruct (run_spec (E:=E) before _ new_ok) as (f0 & s0 & Hr0 & Hs0 & Hi0 & _).
  rewrite Hbefore in Hr0. injection Hr0 as <- <-.
  destruct (check_and_set_spec (E:=E) s nonce Hs0) as (f1 & s1' & Hr1 & Hs1 & Hi1 & Hx & _).
  rewrite Haccepted in Hr1. injection Hr1 as <- <-.
  destruct (run_spec (E:=E) since s1 Hs1) as (f2 & s2' & Hr2 & _ & _ & _ & Hk).
  rewrite Hsince in Hr2. injection Hr2 as <- <-.
  apply (remembers_check s2 nonce (0 + fresh founds')). apply Hk; [|done].
  rewrite Hi1, Hi0, new_items. exact Hwindow.
Qed.

(** A filter that is a list. *)
Module Demo.
Definition list_filter : Bloom (list bytes) := {|
  bloom_new _ := [];
  bloom_check x b := bool_decide (x ∈ b);
  bloom_set x b := x :: b;
  bloom_clear _ := []
|}.
Global Instance list_filter_ok : @BloomOk _ list_filter.
Proof.
  apply (Build_BloomOk _ list_filter (λ x b, x ∈ b)); simpl.
  - intros x b Hx. by apply bool_decide_eq_true.
  - intros x b. by left.
  - intros x y b Hx. by right.
Defined.

Definition state_after (xs : list bytes) (s : PingPongBloom (list bytes)) : PingPongBloom (list bytes) :=
  match run (H:=list_filter) (E:=()) xs s with Ok (_, s) => s | _ => s end.
Definition s0 := state_after [[1]] (PingPongBloom_new (H:=list_filter)).
Definition s1 := state_after [[2]] s0.
Definition s2 := state_after [[3]; [2]; [4]] s1.
End Demo.

Lemma replay_rejected_witness :
  check_and_set (H:=Demo.list_filter) (E:=()) [2] Demo.s2 = Ok (true, Demo.s2).
Proof.
  apply (replay_rejected (H:=Demo.list_filter) (E:=()) [[1]] [[3]; [2]; [4]] [2] [false]
           [false; true; false] Demo.s0 Demo.s1 Demo.s2).
  - vm_compute. reflexivity.
  - vm_compute. reflexivity.
  - vm_compute. reflexivity.
  - apply (bool_decide_unpack _). vm_compute. exact I.
Defined.
