(* ===== verification/DateTime.v ===== *)
(** * Dates (src/datetime.rs)

    The conversion of a timestamp to a date of the Gregorian calendar, and its text. *)

From S2P Require Import Prelude RustStr Io Address NetAddr.

Record DateTime := {
  year : Z;
  month : Z;
  day : Z;
  hour : Z;
  minute : Z;
  second : Z;
  nanos : Z
}.

Definition LEAPOCH : Z := 946684800 + 86400 * (31 + 29).
Definition DAYS_PER_400Y : Z := 365 * 400 + 97.
Definition DAYS_PER_100Y : Z := 365 * 100 + 24.
Definition DAYS_PER_4Y : Z := 365 * 4 + 1.
Definition DAYS_IN_MONTH : list Z := [31; 30; 31; 30; 31; 31; 30; 31; 30; 31; 31; 29].

Section from.
Context `{Profile} {E : Type}.

(** [duration_since(UNIX_EPOCH)] of a time [ts] in nanoseconds: seconds and nanoseconds. *)
Definition since_epoch (ts : Z) : res E (Z * Z) :=
  let duration := Z.abs ts in
  let secs := duration / 1000000000 in
  let sub := duration mod 1000000000 in
  _ ← assert_ (negb overflow_checks || (secs <=? i64_max));
  let secs := wrap_i 64 secs in
  if 0 <=? ts then Ok (secs, sub)
  else if sub =? 0 then s ← arith_i 64 (- secs); Ok (s, 0)
  else s ← arith_i 64 (- secs); s ← arith_i 64 (s - 1); Ok (s, 1000000000 - sub).

(** Division truncates; a negative remainder is moved up by one [unit]. *)
Definition days_and_seconds (t : Z) : res E (Z * Z) :=
  days ← arith_i 64 (Z.quot t 86400 - Z.quot LEAPOCH 86400);
  let remsecs := wrap_i 32 (Z.rem t 86400) in
  if remsecs <? 0
  then remsecs ← arith_i 32 (remsecs + 86400); days ← arith_i 64 (days - 1); Ok (days, remsecs)
  else Ok (days, remsecs).

Definition qc_and_days (days : Z) : res E (Z * Z) :=
  let qc_cycles := wrap_i 32 (Z.quot days DAYS_PER_400Y) in
  let remdays := wrap_i 32 (Z.rem days DAYS_PER_400Y) in
  if remdays <? 0
  then remdays ← arith_i 32 (remdays + DAYS_PER_400Y); qc ← arith_i 32 (qc_cycles - 1); Ok (qc, remdays)
  else Ok (qc_cycles, remdays).

(** The number of whole [unit]s, but not [limit] of them, and the days that remain. *)
Definition cycles (unit limit remdays : Z) : res E (Z * Z) :=
  let n := Z.quot remdays unit in
  n ← (if n =? limit then arith_i 32 (n - 1) else Ok n);
  used ← arith_i 32 (n * unit);
  rest ← arith_i 32 (remdays - used);
  Ok (n, rest).

(** The months after March; an index past the table panics, so twelve turns are enough. *)
Fixpoint month_loop (lengths : list Z) (months remdays : Z) : res E (Z * Z) :=
  match lengths with
  | [] => Panic
  | len :: lengths =>
    if len <=? remdays
    then rest ← arith_i 32 (remdays - len); m ← arith_i 32 (months + 1); month_loop lengths m rest
    else Ok (months, remdays)
  end.

Definition from_system_time (ts : Z) : res E DateTime :=
  '(t, nanos) ← since_epoch ts;
  '(days, remsecs) ← days_and_seconds t;
  '(qc_cycles, remdays) ← qc_and_days days;
  '(c_cycles, remdays) ← cycles DAYS_PER_100Y 4 remdays;
  '(q_cycles, remdays) ← cycles DAYS_PER_4Y 25 remdays;
  '(remyears, remdays) ← cycles 365 4 remdays;
  years ← arith_i 64 (remyears + 4 * q_cycles);
  years ← arith_i 64 (years + 100 * c_cycles);
  years ← arith_i 64 (years + 400 * qc_cycles);
  '(months, remdays) ← month_loop DAYS_IN_MONTH 0 remdays;
  '(months, years) ← (if 10 <=? months
                      then m ← arith_i 32 (months - 12); y ← arith_i 64 (years + 1); Ok (m, y)
                      else Ok (months, years));
  year ← arith_i 64 (years + 2000);
  month ← arith_i 32 (months + 3);
  day ← arith_i 32 (remdays + 1);
  Ok {| year := year; month := wrap_u 8 month; day := wrap_u 8 day;
        hour := wrap_u 8 (Z.quot remsecs 3600);
        minute := wrap_u 8 (Z.rem (Z.quot remsecs 60) 60);
        second := wrap_u 8 (Z.rem remsecs 60); nanos := nanos |}.
End from.

(** ** [impl Display for DateTime] *)

(** [{:0w}]: the sign counts for the width. *)
Definition padded (w : nat) (n : Z) : bytes :=
  if n <? 0 then 45 :: (let d := decimal (- n) in replicate (w - 1 - length d) 48 ++ d)
  else let d := decimal n in replicate (w - length d) 48 ++ d.

Definition to_string (d : DateTime) : bytes :=
  (if 9999 <? year d then 43 :: decimal (year d)
   else if year d <? 0 then padded 5 (year d) else padded 4 (year d))
  ++ [45] ++ padded 2 (month d) ++ [45] ++ padded 2 (day d) ++ [84] ++ padded 2 (hour d)
  ++ [58] ++ padded 2 (minute d) ++ [58] ++ padded 2 (second d) ++ [46]
  ++ padded 6 (nanos d / 1000) ++ [90].

(** ** The calendar *)

Definition leap (y : Z) : bool := (y mod 4 =? 0) && (negb (y mod 100 =? 0) || (y mod 400 =? 0)).

Definition days_in_month (y m : Z) : Z :=
  if m =? 2 then if leap y then 29 else 28
  else if (m =? 4) || (m =? 6) || (m =? 9) || (m =? 11) then 30 else 31.

(** Days from 1 January 1970 to 1 January of the year [y], and on to the month [m]. *)
Definition year_start (y : Z) : Z :=
  365 * y + (y - 1) / 4 - (y - 1) / 100 + (y - 1) / 400 - 719527.

Fixpoint months_before (y : Z) (n : nat) : Z :=
  match n with
  | O => 0
  | S n => months_before y n + days_in_month y (Z.of_nat n + 1)
  end.

Definition epoch_day (y m d : Z) : Z := year_start y + months_before y (Z.to_nat (m - 1)) + d - 1.

Record valid_date (d : DateTime) : Prop := {
  valid_month : 1 <= month d <= 12;
  valid_day : 1 <= day d <= days_in_month (year d) (month d);
  valid_hour : 0 <= hour d < 24;
  valid_minute : 0 <= minute d < 60;
  valid_second : 0 <= second d < 60;
  valid_nanos : 0 <= nanos d < 1000000000
}.

(** The time of a date, in nanoseconds since the epoch. *)
Definition nanos_of (d : DateTime) : Z :=
  (epoch_day (year d) (month d) (day d) * 86400
   + hour d * 3600 + minute d * 60 + second d) * 1000000000 + nanos d.

Lemma year_start_1970 : year_start 1970 = 0.
Proof. reflexivity. Qed.

Lemma year_start_next y : year_start (y + 1) = year_start y + (if leap y then 366 else 365).
Proof.
  unfold year_start, leap. replace (y + 1 - 1) with y by lia.
  destruct (Z.eqb_spec (y mod 4) 0), (Z.eqb_spec (y mod 100) 0), (Z.eqb_spec (y mod 400) 0);
    cbn [andb orb negb]; Z.to_euclidean_division_equations; lia.
Qed.

(** ** The conversion *)

Ltac euclid := Z.to_euclidean_division_equations; lia.

(** Side conditions of [arith_i_small] and of the casts. *)
Ltac in_range := unfold DAYS_PER_400Y, DAYS_PER_100Y, DAYS_PER_4Y, i64_max in *; simpl; lia.

Lemma wrap_i_small w z : 0 < w → - 2 ^ (w - 1) <= z < 2 ^ (w - 1) → wrap_i w z = z.
Proof.
  intros Hw Hz. unfold wrap_i. replace w with (w - 1 + 1) at 2 by lia.
  rewrite Z.pow_add_r by lia. rewrite Z.mod_small; [lia|]. change (2 ^ 1) with 2. lia.
Qed.

Section from_proof.
Context `{Profile} {E : Type}.

Lemma since_epoch_ok ts : - 2 ^ 63 * 1000000000 < ts < 2 ^ 63 * 1000000000 →
  ∃ t n, since_epoch (E:=E) ts = Ok (t, n) ∧ ts = t * 1000000000 + n
    ∧ 0 <= n < 1000000000 ∧ - 2 ^ 63 <= t < 2 ^ 63.
Proof.
  intros Hts. unfold since_epoch. set (secs := Z.abs ts / 1000000000). set (sub := Z.abs ts mod 1000000000).
  assert (Z.abs ts = secs * 1000000000 + sub ∧ 0 <= sub < 1000000000) as [Habs Hsub] by (subst secs sub; euclid).
  assert (0 <= secs < 2 ^ 63) by lia. clearbody secs sub.
  rewrite (proj2 (Z.leb_le secs i64_max)) by in_range. rewrite orb_true_r. cbn [assert_ mbind res_bind].
  rewrite wrap_i_small by (simpl; lia).
  destruct (Z.leb_spec 0 ts); [exists secs, sub; split_and!; [done|lia..]|].
  rewrite arith_i_small by (simpl; lia). cbn [mbind res_bind].
  destruct (Z.eqb_spec sub 0); [exists (- secs), 0; split_and!; [done|lia..]|].
  rewrite arith_i_small by (simpl; lia). cbn [mbind res_bind].
  exists (- secs - 1), (1000000000 - sub). split_and!; [done|lia..].
Qed.

Lemma days_and_seconds_ok t : - 2 ^ 63 <= t < 2 ^ 63 →
  ∃ d r, days_and_seconds (E:=E) t = Ok (d, r) ∧ t = (d + 11017) * 86400 + r ∧ 0 <= r < 86400.
Proof.
  intros Ht. unfold days_and_seconds.
  assert (t = Z.quot t 86400 * 86400 + Z.rem t 86400 ∧ -86400 < Z.rem t 86400 < 86400) as [Heq Hr] by euclid.
  set (q := Z.quot t 86400) in *. set (r := Z.rem t 86400) in *. clearbody q r.
  change (Z.quot LEAPOCH 86400) with 11017.
  rewrite (arith_i_small 64 (q - 11017)) by (simpl; lia). cbn [mbind res_bind]. rewrite wrap_i_small by (simpl; lia).
  destruct (Z.ltb_spec r 0); [|exists (q - 11017), r; split_and!; [done|lia..]].
  rewrite arith_i_small by (simpl; lia). cbn [mbind res_bind].
  rewrite arith_i_small by (simpl; lia). cbn [mbind res_bind].
  exists (q - 11017 - 1), (r + 86400). split_and!; [done|lia..].
Qed.

Lemma qc_and_days_ok d : - 2 ^ 48 <= d < 2 ^ 48 →
  ∃ q r, qc_and_days (E:=E) d = Ok (q, r) ∧ d = q * 146097 + r ∧ 0 <= r < 146097.
Proof.
  intros Hd. unfold qc_and_days. change DAYS_PER_400Y with 146097.
  assert (d = Z.quot d 146097 * 146097 + Z.rem d 146097 ∧ -146097 < Z.rem d 146097 < 146097) as [Heq Hr] by euclid.
  set (q := Z.quot d 146097) in *. set (r := Z.rem d 146097) in *. clearbody q r.
  rewrite !wrap_i_small by (simpl; lia).
  destruct (Z.ltb_spec r 0); [|exists q, r; split_and!; [done|lia..]].
  rewrite arith_i_small by (simpl; lia). cbn [mbind res_bind].
  rewrite arith_i_small by (simpl; lia). cbn [mbind res_bind].
  exists (q - 1), (r + 146097). split_and!; [done|lia..].
Qed.

Lemma cycles_ok unit limit r : 365 <= unit <= 36524 → 0 < limit → 0 <= r < (limit + 1) * unit →
  0 <= r < 2 ^ 20 →
  ∃ n, cycles (E:=E) unit limit r = Ok (n, r - n * unit)
    ∧ 0 <= n < limit ∧ 0 <= r - n * unit ∧ (n < limit - 1 → r - n * unit < unit)
    ∧ (r < limit * unit → r - n * unit < unit).
Proof.
  intros Hu Hl Hr Hr'. unfold cycles.
  assert (r = Z.quot r unit * unit + Z.rem r unit ∧ 0 <= Z.rem r unit < unit) as [Heq Hrem].
  { rewrite Z.quot_div_nonneg, Z.rem_mod_nonneg by lia.
    pose proof (Z.div_mod r unit ltac:(lia)). pose proof (Z.mod_pos_bound r unit ltac:(lia)). lia. }
  set (q := Z.quot r unit) in *. clearbody q. set (m := Z.rem r unit) in *. clearbody m.
  assert (0 <= q <= limit) by nia. assert (0 <= q * unit < 2 ^ 20) by nia.
  assert (q <= 2 ^ 20) by nia.
  destruct (Z.eqb_spec q limit) as [Eq|Eq].
  - assert (0 <= (q - 1) * unit < 2 ^ 20) by nia.
    rewrite (arith_i_small 32 (q - 1)) by (simpl; lia). cbn [mbind res_bind].
    rewrite arith_i_small by (simpl; lia). cbn [mbind res_bind].
    rewrite arith_i_small by (simpl; lia). cbn [mbind res_bind]. exists (q - 1). split_and!; try done; nia.
  - cbn [mbind res_bind]. rewrite arith_i_small by (simpl; lia). cbn [mbind res_bind].
    rewrite arith_i_small by (simpl; lia). cbn [mbind res_bind]. exists q. split_and!; try done; nia.
Qed.

(** Days from 1 March to the first of the [n]th month after it. *)
Definition march_months (n : nat) : Z := foldr Z.add 0 (take n DAYS_IN_MONTH).

Lemma month_loop_ok r : 0 <= r <= 365 →
  ∃ n, (n < 12)%nat ∧ month_loop (E:=E) DAYS_IN_MONTH 0 r = Ok (Z.of_nat n, r - march_months n)
    ∧ march_months n <= r < march_months (n + 1).
Proof.
  intros Hr. unfold DAYS_IN_MONTH. cbn [month_loop].
  repeat match goal with
  | |- context [?l <=? ?x] =>
    destruct (Z.leb_spec l x);
    [rewrite !arith_i_small by (simpl; lia); cbn [mbind res_bind]|]
  end;
  match goal with
  | |- ∃ n, _ ∧ Ok (?m, _) = _ ∧ _ =>
    let k := eval vm_compute in (Z.to_nat m) in exists k
  | _ => exfalso; lia
  end; (split; [lia|]); unfold march_months; cbn [take DAYS_IN_MONTH foldr Nat.add]; split;
  first [lia | f_equal; f_equal; lia].
Qed.
End from_proof.

(** ** Years that begin in March *)

(** 1 March of a year, in days since the epoch. *)
Definition march_first (y : Z) : Z := year_start y + 59 + (if leap y then 1 else 0).

Lemma leap_spec y : leap y = true ↔ y mod 4 = 0 ∧ (y mod 100 ≠ 0 ∨ y mod 400 = 0).
Proof.
  unfold leap. rewrite andb_true_iff, orb_true_iff, negb_true_iff, !Z.eqb_eq, Z.eqb_neq. done.
Qed.

Lemma march_first_next y : march_first y + 306 = year_start (y + 1).
Proof. rewrite year_start_next. unfold march_first. destruct (leap y); lia. Qed.

Lemma march_first_cycles qc c q y : 0 <= c < 4 → 0 <= q < 25 → 0 <= y < 4 →
  march_first (2000 + y + 4 * q + 100 * c + 400 * qc)
  = 11017 + 146097 * qc + 36524 * c + 1461 * q + 365 * y.
Proof.
  intros Hc Hq Hy. set (Y := 2000 + _ + _ + _ + _).
  pose proof (march_first_next Y) as Hn. unfold year_start in Hn.
  replace (Y + 1 - 1) with Y in Hn by lia.
  assert (Y / 4 = 500 + q + 25 * c + 100 * qc) as E4
    by (symmetry; apply (Z.div_unique _ _ _ y); subst Y; lia).
  assert (Y / 100 = 20 + c + 4 * qc) as E100
    by (symmetry; apply (Z.div_unique _ _ _ (y + 4 * q)); subst Y; lia).
  assert (Y / 400 = 5 + qc) as E400
    by (symmetry; apply (Z.div_unique _ _ _ (y + 4 * q + 100 * c)); subst Y; lia).
  rewrite E4, E100, E400 in Hn. subst Y. lia.
Qed.

(** The 366th day of such a year is there only if the next year is a leap year. *)
Lemma leap_day qc c q : 0 <= c < 4 → 0 <= q < 25 → (q = 24 → c = 3) →
  leap (2000 + 3 + 4 * q + 100 * c + 400 * qc + 1) = true.
Proof.
  intros Hc Hq Hqc. apply leap_spec. split; [euclid|].
  destruct (Z.eq_dec q 24) as [Eq|Eq]; [right|left].
  - replace (2000 + 3 + 4 * q + 100 * c + 400 * qc + 1) with ((6 + qc) * 400) by lia.
    apply Z.mod_mul. lia.
  - replace (2000 + 3 + 4 * q + 100 * c + 400 * qc + 1)
      with (4 * (q + 1) + (20 + c + 4 * qc) * 100) by lia.
    rewrite Z.mod_add, Z.mod_small by lia. lia.
Qed.

(** The months from March on. *)
Lemma month_of_march Y n : (n < 12)%nat →
  let m := Z.of_nat n + 3 - (if 10 <=? Z.of_nat n then 12 else 0) in
  let y := Y + (if 10 <=? Z.of_nat n then 1 else 0) in
  1 <= m <= 12 ∧ year_start y + months_before y (Z.to_nat (m - 1)) = march_first Y + march_months n
  ∧ (march_months (n + 1) - march_months n = days_in_month y m ∨ n = 11%nat ∧ m = 2).
Proof.
  intros Hn. pose proof (march_first_next Y) as Hnext. unfold march_first in *.
  do 12 (try destruct n as [|n]); [..|lia].
  all: match goal with |- context [Z.of_nat ?k] =>
      let v := eval vm_compute in (Z.of_nat k) in change (Z.of_nat k) with v end.
  all: cbn [Z.leb Z.compare Pos.compare Pos.compare_cont]; cbv zeta.
  all: match goal with |- context [Z.to_nat (?k - 1)] =>
      let v := eval vm_compute in (Z.to_nat (k - 1)) in change (Z.to_nat (k - 1)) with v;
      let w := eval vm_compute in k in change k with w end.
  all: rewrite ?Z.add_0_r; unfold march_months; cbn [months_before take Nat.add DAYS_IN_MONTH foldr].
  all: repeat match goal with |- context [Z.of_nat ?k + 1] =>
      let v := eval vm_compute in (Z.of_nat k + 1) in change (Z.of_nat k + 1) with v end.
  all: unfold days_in_month; cbn [Z.eqb Pos.eqb orb].
  all: split; [lia|split; [destruct (leap Y); lia|first [left; lia|by right]]].
Qed.

(** The cycles of a day, and the day within its year. *)
Lemma split_days `{Profile} {E} d : - 2 ^ 48 <= d < 2 ^ 48 →
  ∃ qc r1 c r2 q r3 y r4,
    qc_and_days (E:=E) d = Ok (qc, r1) ∧ cycles (E:=E) DAYS_PER_100Y 4 r1 = Ok (c, r2)
    ∧ cycles (E:=E) DAYS_PER_4Y 25 r2 = Ok (q, r3) ∧ cycles (E:=E) 365 4 r3 = Ok (y, r4)
    ∧ 0 <= c < 4 ∧ 0 <= q < 25 ∧ 0 <= y < 4 ∧ - 2 ^ 32 < qc < 2 ^ 32
    ∧ d = 146097 * qc + 36524 * c + 1461 * q + 365 * y + r4
    ∧ 0 <= r4 <= 365 ∧ (r4 = 365 → y = 3 ∧ (q = 24 → c = 3)).
Proof.
  intros Hd. destruct (qc_and_days_ok (E:=E) d Hd) as (qc & r1 & Hqc & Hd1 & Hr1).
  change DAYS_PER_100Y with 36524. change DAYS_PER_4Y with 1461.
  destruct (cycles_ok (E:=E) 36524 4 r1) as (c & Hc & Hc1 & Hc2 & Hc3 & _); [lia..|].
  set (r2 := r1 - c * 36524) in *.
  assert (0 <= r2 <= 36524 ∧ (r2 = 36524 → c = 3)) as [Hr2 Hr2'] by (subst r2; lia).
  destruct (cycles_ok (E:=E) 1461 25 r2) as (q & Hq & Hq1 & Hq2 & Hq3 & Hq4); [lia..|].
  set (r3 := r2 - q * 1461) in *.
  assert (r3 < 1461) as Hr3 by (apply Hq4; lia).
  destruct (cycles_ok (E:=E) 365 4 r3) as (y & Hy & Hy1 & Hy2 & Hy3 & Hy4); [lia..|].
  set (r4 := r3 - y * 365) in *.
  exists qc, r1, c, r2, q, r3, y, r4. split_and!; try done; try lia.
Qed.

Lemma date_ok `{Profile} {E} ts : - 2 ^ 63 * 1000000000 < ts < 2 ^ 63 * 1000000000 →
  ∃ d, from_system_time (E:=E) ts = Ok d ∧ valid_date d ∧ nanos_of d = ts.
Proof.
  intros Hts. unfold from_system_time.
  destruct (since_epoch_ok (E:=E) ts Hts) as (t & ns & -> & Hteq & Hns & Ht). cbn [mbind res_bind].
  destruct (days_and_seconds_ok (E:=E) t Ht) as (d & rs & -> & Hdeq & Hrs). cbn [mbind res_bind].
  destruct (split_days (E:=E) d ltac:(lia))
    as (qc & r1 & c & r2 & q & r3 & y & r4 & -> & H1 & H2 & H3 & Hc & Hq & Hy & Hqc & Hd & Hr4 & Hleap).
  cbn [mbind res_bind]. rewrite H1. cbn [mbind res_bind]. rewrite H2. cbn [mbind res_bind].
  rewrite H3. cbn [mbind res_bind].
  do 3 (rewrite arith_i_small by (simpl; lia); cbn [mbind res_bind]).
  destruct (month_loop_ok (E:=E) r4 Hr4) as (n & Hn & -> & Hm). cbn [mbind res_bind].
  set (Y := 2000 + y + 4 * q + 100 * c + 400 * qc).
  destruct (month_of_march Y n Hn) as (Hm1 & Hm2 & Hm3).
  set (m := Z.of_nat n + 3 - (if 10 <=? Z.of_nat n then 12 else 0)) in *.
  set (yr := Y + (if 10 <=? Z.of_nat n then 1 else 0)) in *.
  assert ((if 10 <=? Z.of_nat n
           then m' ← arith_i 32 (Z.of_nat n - 12); y' ← arith_i 64 (y + 4 * q + 100 * c + 400 * qc + 1); Ok (m', y')
           else Ok (Z.of_nat n, y + 4 * q + 100 * c + 400 * qc))
          = Ok (E:=E) (m - 3, yr - 2000)) as ->.
  { subst m yr Y. destruct (10 <=? Z.of_nat n); [|do 2 f_equal; lia].
    do 2 (rewrite arith_i_small by (simpl; lia); cbn [mbind res_bind]). do 2 f_equal; lia. }
  cbn [mbind res_bind]. assert (- 2 ^ 60 < yr < 2 ^ 60) by (subst yr Y; destruct (10 <=? Z.of_nat n); lia).
  assert (march_months (n + 1) - march_months n <= 31) as H31.
  { clear -Hn. do 12 (destruct n as [|n]; [vm_compute; discriminate|]). lia. }
  do 3 (rewrite arith_i_small by (simpl; lia); cbn [mbind res_bind]).
  replace (yr - 2000 + 2000) with yr by lia. replace (m - 3 + 3) with m by lia.
  rewrite !wrap_u_small by (Z.to_euclidean_division_equations; simpl; lia).
  eexists. split; [done|]. split.
  - split; simpl; try (Z.to_euclidean_division_equations; lia). split; [lia|].
    destruct Hm3 as [<-|[-> Hm3]]; [lia|]. rewrite Hm3. unfold days_in_month. simpl.
    subst yr Y. simpl. destruct (Z.eq_dec r4 365) as [E365|].
    + destruct (Hleap E365) as [-> Hq3]. rewrite leap_day by done. vm_compute in Hm. unfold march_months. simpl. lia.
    + unfold march_months in *. simpl in *. destruct (leap _); lia.
  - unfold nanos_of, epoch_day. cbn [year month day hour minute second nanos].
    rewrite Hm2. subst Y. rewrite march_first_cycles by done. rewrite Hteq, Hdeq, Hd.
    Z.to_euclidean_division_equations. lia.
Qed.

(** ** A time has one date *)

Lemma year_start_mono y1 y2 : y1 <= y2 → year_start y1 <= year_start y2.
Proof.
  intros Hle. replace y2 with (y1 + Z.of_nat (Z.to_nat (y2 - y1))) by lia.
  induction (Z.to_nat (y2 - y1)) as [|n IH]; [rewrite Z.add_0_r; lia|].
  rewrite Nat2Z.inj_succ. replace (y1 + Z.succ (Z.of_nat n)) with (y1 + Z.of_nat n + 1) by lia.
  rewrite year_start_next. destruct (leap _); lia.
Qed.

Lemma months_before_mono y n k : (n ≤ k)%nat → months_before y n <= months_before y k.
Proof.
  induction 1 as [|k _ IH]; [lia|]. cbn [months_before].
  assert (0 <= days_in_month y (Z.of_nat k + 1)) by (unfold days_in_month; repeat case_match; lia). lia.
Qed.

Lemma months_before_12 y : months_before y 12 = if leap y then 366 else 365.
Proof. cbn [months_before]. unfold days_in_month. cbn. destruct (leap y); reflexivity. Qed.

(** A day of a month is before the first of the next. *)
Lemma in_month y m d : 1 <= m → 1 <= d <= days_in_month y m →
  months_before y (Z.to_nat (m - 1)) <= months_before y (Z.to_nat (m - 1)) + d - 1
  < months_before y (Z.to_nat m).
Proof.
  intros Hm Hd. replace (Z.to_nat m) with (S (Z.to_nat (m - 1))) by lia. cbn [months_before].
  replace (Z.of_nat (Z.to_nat (m - 1)) + 1) with m by lia. lia.
Qed.

Lemma in_year y m d : 1 <= m <= 12 → 1 <= d <= days_in_month y m →
  year_start y <= epoch_day y m d < year_start (y + 1).
Proof.
  intros Hm Hd. destruct (in_month y m d ltac:(lia) Hd) as [H1 H2]. unfold epoch_day.
  pose proof (months_before_mono y 0 (Z.to_nat (m - 1)) ltac:(lia)) as H0. cbn [months_before] in H0.
  pose proof (months_before_mono y (Z.to_nat m) 12 ltac:(lia)) as H12.
  rewrite months_before_12 in H12. rewrite year_start_next. destruct (leap y); lia.
Qed.

Lemma epoch_day_inj y1 m1 d1 y2 m2 d2 :
  1 <= m1 <= 12 → 1 <= d1 <= days_in_month y1 m1 → 1 <= m2 <= 12 → 1 <= d2 <= days_in_month y2 m2 →
  epoch_day y1 m1 d1 = epoch_day y2 m2 d2 → y1 = y2 ∧ m1 = m2 ∧ d1 = d2.
Proof.
  intros Hm1 Hd1 Hm2 Hd2 He.
  pose proof (in_year _ _ _ Hm1 Hd1). pose proof (in_year _ _ _ Hm2 Hd2).
  assert (y1 = y2) as ->.
  { destruct (Z.lt_trichotomy y1 y2) as [Hlt|[|Hlt]]; [|done|].
    - pose proof (year_start_mono (y1 + 1) y2 ltac:(lia)). lia.
    - pose proof (year_start_mono (y2 + 1) y1 ltac:(lia)). lia. }
  pose proof (in_month y2 m1 d1 ltac:(lia) Hd1). pose proof (in_month y2 m2 d2 ltac:(lia) Hd2).
  unfold epoch_day in He.
  assert (m1 = m2) as ->; [|lia].
  destruct (Z.lt_trichotomy m1 m2) as [Hlt|[|Hlt]]; [|done|].
  - pose proof (months_before_mono y2 (Z.to_nat m1) (Z.to_nat (m2 - 1)) ltac:(lia)). lia.
  - pose proof (months_before_mono y2 (Z.to_nat m2) (Z.to_nat (m1 - 1)) ltac:(lia)). lia.
Qed.

Lemma nanos_of_inj d1 d2 : valid_date d1 → valid_date d2 → nanos_of d1 = nanos_of d2 → d1 = d2.
Proof.
  intros [Hm1 Hd1 Hh1 Hi1 Hs1 Hn1] [Hm2 Hd2 Hh2 Hi2 Hs2 Hn2]. unfold nanos_of. intros Heq.
  set (e1 := epoch_day _ _ _) in *. set (e2 := epoch_day (year d2) _ _) in *.
  assert (e1 = e2 ∧ hour d1 = hour d2 ∧ minute d1 = minute d2 ∧ second d1 = second d2
          ∧ nanos d1 = nanos d2) as (He & Hh & Hi & Hs & Hn) by lia.
  destruct (epoch_day_inj _ _ _ _ _ _ Hm1 Hd1 Hm2 Hd2 He) as (Hy & Hmm & Hdd).
  destruct d1, d2. simpl in *. by subst.
Qed.

(** ** The text *)

Lemma dec_val_app ds es : dec_val (ds ++ es) = dec_val ds * 10 ^ Z.of_nat (length es) + dec_val es.
Proof.
  induction es as [|c es IH] using rev_ind; [rewrite app_nil_r; unfold dec_val; simpl; lia|].
  rewrite app_assoc, !dec_val_snoc, IH, length_app. simpl length.
  replace (Z.of_nat (length es + 1)) with (Z.succ (Z.of_nat (length es))) by lia.
  rewrite Z.pow_succ_r by lia. lia.
Qed.

Lemma dec_val_zeros n : dec_val (replicate n 48) = 0.
Proof.
  induction n as [|n IH]; [done|]. rewrite replicate_S_end, dec_val_snoc, IH. lia.
Qed.

Lemma padded_ok w n : (0 < w)%nat → 0 <= n < 10 ^ Z.of_nat w →
  length (padded w n) = w ∧ dec_val (padded w n) = n.
Proof.
  intros Hw Hn. unfold padded. rewrite (proj2 (Z.ltb_ge n 0)) by lia.
  pose proof (decimal_printed n ltac:(lia)) as Hp.
  pose proof (printed_short n w _ Hp ltac:(lia) Hw). split.
  - rewrite length_app, length_replicate. lia.
  - rewrite dec_val_app, dec_val_zeros, (printed_val _ _ Hp). lia.
Qed.

(** The number that stands in the text from [i] on, [n] digits long. *)
Definition field (s : bytes) (i n : nat) : Z := dec_val (take n (drop i s)).

(** A list of known length as its elements. *)
Ltac spell l H :=
  repeat (destruct l as [|? l]; [discriminate H|]); destruct l; [clear H|discriminate H].

Lemma layout y m d h i s f :
  length y = 4%nat → length m = 2%nat → length d = 2%nat → length h = 2%nat → length i = 2%nat →
  length s = 2%nat → length f = 6%nat →
  let t := y ++ [45] ++ m ++ [45] ++ d ++ [84] ++ h ++ [58] ++ i ++ [58] ++ s ++ [46] ++ f ++ [90] in
  length t = 27%nat ∧ field t 0 4 = dec_val y ∧ field t 5 2 = dec_val m ∧ field t 8 2 = dec_val d
  ∧ field t 11 2 = dec_val h ∧ field t 14 2 = dec_val i ∧ field t 17 2 = dec_val s
  ∧ field t 20 6 = dec_val f.
Proof.
  intros Hy Hm Hd Hh Hi Hs Hf. spell y Hy. spell m Hm. spell d Hd. spell h Hh. spell i Hi.
  spell s Hs. spell f Hf. done.
Qed.

(** ** Properties *)

(** C33: every timestamp that a [SystemTime] with 64-bit seconds can hold is converted,
    without overflow, to a date of the calendar, and the date is that of the timestamp. *)
Theorem date_is_right `{Profile} {E} (ts : Z)
    (Hts : - 2 ^ 63 * 1000000000 < ts < 2 ^ 63 * 1000000000) :
  ∃ d, from_system_time (E:=E) ts = Ok d ∧ valid_date d ∧ nanos_of d = ts.
Proof. by apply date_ok. Qed.

(** Every date of the calendar is the conversion of its time. *)
Theorem date_roundtrip `{Profile} {E} (d : DateTime)
    (Hd : valid_date d) (Hts : - 2 ^ 63 * 1000000000 < nanos_of d < 2 ^ 63 * 1000000000) :
  from_system_time (E:=E) (nanos_of d) = Ok d.
Proof.
  destruct (date_ok (E:=E) (nanos_of d) Hts) as (d' & -> & Hd' & Heq). f_equal. by apply nanos_of_inj.
Qed.

(** The text of a date of the years 0 to 9999 has the fixed layout of ISO 8601 in 27
    characters, in which every field can be read back, the time to the microsecond. *)
Theorem text_is_iso (d : DateTime) (Hd : valid_date d) (Hy : 0 <= year d <= 9999) :
  let s := to_string d in
  length s = 27%nat ∧ field s 0 4 = year d ∧ field s 5 2 = month d ∧ field s 8 2 = day d
  ∧ field s 11 2 = hour d ∧ field s 14 2 = minute d ∧ field s 17 2 = second d
  ∧ field s 20 6 = nanos d / 1000.
Proof.
  destruct Hd as [Hm Hd Hh Hi Hs Hn].
  assert (days_in_month (year d) (month d) <= 31) by (unfold days_in_month; repeat case_match; lia).
  assert (0 <= nanos d / 1000 < 1000000) by euclid.
  unfold to_string. rewrite (proj2 (Z.ltb_ge 9999 (year d))), (proj2 (Z.ltb_ge (year d) 0)) by lia.
  destruct (padded_ok 4 (year d)) as [L1 V1]; [lia|simpl; lia|].
  destruct (padded_ok 2 (month d)) as [L2 V2]; [lia|simpl; lia|].
  destruct (padded_ok 2 (day d)) as [L3 V3]; [lia|simpl; lia|].
  destruct (padded_ok 2 (hour d)) as [L4 V4]; [lia|simpl; lia|].
  destruct (padded_ok 2 (minute d)) as [L5 V5]; [lia|simpl; lia|].
  destruct (padded_ok 2 (second d)) as [L6 V6]; [lia|simpl; lia|].
  destruct (padded_ok 6 (nanos d / 1000)) as [L7 V7]; [lia|simpl; lia|].
  pose proof (layout _ _ _ _ _ _ _ L1 L2 L3 L4 L5 L6 L7) as Hl.
  rewrite V1, V2, V3, V4, V5, V6, V7 in Hl. exact Hl.
Qed.

(** 2038-01-19T03:14:08.000000Z *)
Definition example_date : DateTime :=
  {| year := 2038; month := 1; day := 19; hour := 3; minute := 14; second := 8; nanos := 0 |}.

Lemma example_valid : valid_date example_date.
Proof. split; vm_compute; split; (discriminate || reflexivity). Qed.

Lemma date_is_right_witness :
  ∃ d, from_system_time (H:=dev) (E:=()) (-62167219201000000000) = Ok d ∧ valid_date d
    ∧ nanos_of d = -62167219201000000000.
Proof. apply (date_is_right (H:=dev) (E:=()) (-62167219201000000000)). lia. Defined.

Lemma date_roundtrip_witness :
  from_system_time (H:=dev) (E:=()) (nanos_of example_date) = Ok example_date.
Proof.
  apply (date_roundtrip (H:=dev) (E:=()) example_date).
  - exact example_valid.
  - split; vm_compute; reflexivity.
Defined.

Lemma text_is_iso_witness :
  length (to_string example_date) = 27%nat ∧ field (to_string example_date) 0 4 = 2038.
Proof.
  destruct (text_is_iso example_date) as (Hl & Hy & _).
  - exact example_valid.
  - simpl. lia.
  - split; [exact Hl|exact Hy].
Defined.
