(* ===== verification/Logger.v ===== *)
(** * Logging (log/logger.rs)

    The logger formats an event into a buffer that its thread keeps, and writes the buffer
    to the standard output.  Formatting a field runs the [Debug] code of its value, which
    may itself log: the event inside finds the buffer borrowed and takes one of its own. *)

From S2P Require Import Prelude RustStr Io Address NetAddr DateTime.
From Stdlib Require Import String Ascii.
From stdpp Require Import list.
Local Open Scope Z_scope.
Local Open Scope list_scope.
Local Open Scope prog_scope.

(** [tracing::Level], from the least verbose. *)
Inductive Level := ERROR | WARN | INFO | DEBUG | TRACE.

Definition verbosity (l : Level) : Z :=
  match l with ERROR => 0 | WARN => 1 | INFO => 2 | DEBUG => 3 | TRACE => 4 end.
Definition level_text (l : Level) : bytes :=
  match l with
  | ERROR => text "ERROR" | WARN => text "WARN" | INFO => text "INFO" | DEBUG => text "DEBUG"
  | TRACE => text "TRACE"
  end.

(** [{:5}] *)
Definition pad_right (w : nat) (s : bytes) : bytes := s ++ replicate (w - length s) 32.

(** An event: its metadata and the fields with their values.  A value is a string, with its
    text and its [Debug] text; an error, with its text and those of its sources; or a
    [dyn Debug], whose code writes text, logs, or panics. *)
Inductive Event :=
  | mkEvent (time : DateTime) (level : Level) (module : option bytes) (fields : list (bytes * Value))
with Value :=
  | VStr (display debug : bytes)
  | VError (display : bytes) (sources : list bytes)
  | VDebug (code : list Piece)
with Piece :=
  | Text (t : bytes)
  | Log (e : Event)
  | Crash.

Record Logger := { level : Level; timestamp : bool }.

Definition enabled (self : Logger) (l : Level) : bool := verbosity l <=? verbosity (level self).

(** The thread's buffer, whether it is borrowed, what the standard output has got, and what
    it will answer to the calls of [write]: the number of bytes it takes of each, all of
    them when the list has run out; [None] is an error. *)
Record Stdout := {
  BUF : bytes;
  borrowed : bool;
  printed : bytes;
  answers : list (option nat)
}.

Definition set_BUF (b : bytes) (o : Stdout) : Stdout :=
  {| BUF := b; borrowed := borrowed o; printed := printed o; answers := answers o |}.
Definition set_borrowed (b : bool) (o : Stdout) : Stdout :=
  {| BUF := BUF o; borrowed := b; printed := printed o; answers := answers o |}.

Abbreviation LOG A := (prog Stdout () A).

Definition write_stdout (bs : bytes) : LOG () := λ o,
  match answers o with
  | [] => (Ok (), {| BUF := BUF o; borrowed := borrowed o; printed := printed o ++ bs; answers := [] |})
  | Some n :: q =>
    (Ok (), {| BUF := BUF o; borrowed := borrowed o; printed := printed o ++ take n bs; answers := q |})
  | None :: q =>
    (Panic, {| BUF := BUF o; borrowed := borrowed o; printed := printed o; answers := q |})
  end.

(** What an event writes to is its buffer, before the state of the thread. *)
Abbreviation FMT A := (prog (bytes * Stdout) () A).

Definition put (t : bytes) : FMT () := λ '(b, o), (Ok (), (b ++ t, o)).

(** [Visitor::record_debug]: what is written before the value. *)
Definition field_head (name : bytes) : bytes :=
  if bool_decide (name = text "message") then []
  else
    let name := match name with
                | 114 :: 35 :: stripped => stripped
                | _ => name
                end in
    32 :: name ++ [61].

(** [ErrorSourceList]: a debug list of the texts. *)
Fixpoint separated (l : list bytes) : bytes :=
  match l with
  | [] => []
  | [x] => x
  | x :: l => x ++ text ", " ++ separated l
  end.
Definition source_list (l : list bytes) : bytes := text "[" ++ separated l ++ text "]".

(** [record_str] and [record_error]: the text that goes to [record_debug]. *)
Definition str_text (name display debug : bytes) : bytes :=
  if bool_decide (name = text "message") then display else debug.
Definition error_text (name display : bytes) (sources : list bytes) : bytes :=
  match sources with
  | [] => display
  | _ => display ++ text ", " ++ name ++ text ".sources: " ++ source_list sources
  end.

(** What comes before the fields. *)
Definition event_head (self : Logger) (time : DateTime) (lvl : Level) (module : option bytes) : bytes :=
  (if timestamp self then to_string time ++ text " " else [])
  ++ pad_right 5 (level_text lvl) ++ text " "
  ++ match module with Some m => m ++ text " " | None => [] end.

(** [BUF.with] around [body]: the buffer of the thread if nobody has it, else a new one.
    What [body] leaves in the buffer of the thread stays there, also after a panic. *)
Definition with_buffer (body : FMT ()) : LOG () := λ o,
  if borrowed o then let '(r, (_, o)) := body ([], o) in (r, o)
  else
    let '(r, (b, o)) := body (BUF o, set_borrowed true o) in
    (r, set_borrowed false (set_BUF b o)).

(** The buffer is written as it is, and cleared after that. *)
Definition print_line : FMT () :=
  put [10] ;;
  (λ '(b, o), let '(r, o) := write_stdout b o in (r, (b, o))) ;;
  (λ '(_, o), (Ok (), ([], o))).

(** [Subscriber::event], for an event that is enabled. *)
Fixpoint event (self : Logger) (e : Event) {struct e} : LOG () :=
  match e with
  | mkEvent time lvl module fields =>
    if negb (enabled self lvl) then sret ()
    else
      with_buffer (
        put (event_head self time lvl module) ;;
        (fix record (fs : list (bytes * Value)) : FMT () :=
           match fs with
           | [] => sret ()
           | (name, v) :: fs => put (field_head name) ;; value self name v ;; record fs
           end) fields ;;
        print_line)
  end
with value (self : Logger) (name : bytes) (v : Value) {struct v} : FMT () :=
  match v with
  | VStr display debug => put (str_text name display debug)
  | VError display sources => put (error_text name display sources)
  | VDebug code =>
    (fix run (ps : list Piece) : FMT () :=
       match ps with
       | [] => sret ()
       | p :: ps => piece self p ;; run ps
       end) code
  end
with piece (self : Logger) (p : Piece) {struct p} : FMT () :=
  match p with
  | Text t => put t
  | Log e => λ '(b, o), let '(r, o) := event self e o in (r, (b, o))
  | Crash => slift Panic
  end.

(** ** What an event means *)

(** The text of a value, and the lines that its code logs on the way. *)
Fixpoint event_lines (self : Logger) (e : Event) {struct e} : list bytes :=
  match e with
  | mkEvent time lvl module fields =>
    if negb (enabled self lvl) then []
    else
      let '(t, ls) :=
        (fix go (fs : list (bytes * Value)) : bytes * list bytes :=
           match fs with
           | [] => ([], [])
           | (name, v) :: fs =>
             let '(t1, l1) := value_text self name v in
             let '(t2, l2) := go fs in
             (field_head name ++ t1 ++ t2, l1 ++ l2)
           end) fields in
      ls ++ [event_head self time lvl module ++ t ++ [10]]
  end
with value_text (self : Logger) (name : bytes) (v : Value) {struct v} : bytes * list bytes :=
  match v with
  | VStr display debug => (str_text name display debug, [])
  | VError display sources => (error_text name display sources, [])
  | VDebug code =>
    (fix go (ps : list Piece) : bytes * list bytes :=
       match ps with
       | [] => ([], [])
       | p :: ps =>
         let '(t1, l1) := piece_text self p in
         let '(t2, l2) := go ps in
         (t1 ++ t2, l1 ++ l2)
       end) code
  end
with piece_text (self : Logger) (p : Piece) {struct p} : bytes * list bytes :=
  match p with
  | Text t => (t, [])
  | Log e => ([], event_lines self e)
  | Crash => ([], [])
  end.

(** No code of a value panics. *)
Fixpoint calm (e : Event) {struct e} : bool :=
  match e with
  | mkEvent _ _ _ fields =>
    (fix go (fs : list (bytes * Value)) :=
       match fs with [] => true | (_, v) :: fs => calm_value v && go fs end) fields
  end
with calm_value (v : Value) {struct v} : bool :=
  match v with
  | VDebug code =>
    (fix go (ps : list Piece) :=
       match ps with [] => true | p :: ps => calm_piece p && go ps end) code
  | _ => true
  end
with calm_piece (p : Piece) {struct p} : bool :=
  match p with Text _ => true | Log e => calm e | Crash => false end.

Definition print (ls : list bytes) (o : Stdout) : Stdout :=
  {| BUF := BUF o; borrowed := borrowed o; printed := printed o ++ concat ls; answers := answers o |}.

Lemma print_print l1 l2 o : print l2 (print l1 o) = print (l1 ++ l2) o.
Proof. unfold print. simpl. by rewrite concat_app, app_assoc. Qed.
Lemma print_nil o : print [] o = o.
Proof. destruct o. unfold print. simpl. by rewrite app_nil_r. Qed.

(** The standard output takes what it is given, and a buffer that can be borrowed is empty. *)
Definition ready (o : Stdout) : Prop := answers o = [] ∧ (borrowed o = false → BUF o = []).

Lemma ready_print ls o : ready o → ready (print ls o).
Proof. done. Qed.

(** The buffer of an event ends as its line. *)
Lemma with_buffer_line (body : FMT ()) h t ls o :
  ready o →
  (∀ b o', borrowed o' = true → answers o' = [] → body (b, o') = (Ok (), (b ++ t, print ls o'))) →
  with_buffer (put h ;; body ;; print_line) o = (Ok (), print (ls ++ [h ++ t ++ [10]]) o).
Proof.
  intros [Ha Hb] Hbody. destruct o as [buf bor pr an]. simpl in *. subst an.
  unfold with_buffer, sbind, print_line, put, write_stdout. simpl.
  assert (∀ pr, (pr ++ concat ls) ++ (h ++ t) ++ [10] = pr ++ concat (ls ++ [h ++ t ++ [10]])) as Hc.
  { intros pr'. rewrite concat_app. simpl. by rewrite app_nil_r, <- !app_assoc. }
  destruct bor; [|rewrite Hb by done]; rewrite Hbody by done; simpl;
    unfold print, set_borrowed, set_BUF; simpl; by rewrite Hc.
Qed.

(** Values write their text and log their lines. *)
Lemma event_spec self e o :
  ready o → calm e = true → event self e o = (Ok (), print (event_lines self e) o)
with value_spec self name v b o :
  borrowed o = true → answers o = [] → calm_value v = true →
  value self name v (b, o) = (Ok (), (b ++ (value_text self name v).1, print (value_text self name v).2 o))
with piece_spec self p b o :
  borrowed o = true → answers o = [] → calm_piece p = true →
  piece self p (b, o) = (Ok (), (b ++ (piece_text self p).1, print (piece_text self p).2 o)).
Proof.
  - intros Ho Hcalm. destruct e as [time lvl module fields]. simpl in *.
    destruct (enabled self lvl); simpl; [|by rewrite print_nil].
    match goal with |- context [with_buffer (put ?h ;; ?f fields ;; print_line)] => set (rec := f) end.
    match goal with |- context [print (let '(_, _) := ?g fields in _)] => set (go := g) end.
    rewrite (with_buffer_line _ _ (go fields).1 (go fields).2); [by destruct (go fields)|done|].
    clear Ho o. induction fields as [|[name v] fields IH]; intros b o Hbor Han; simpl in Hcalm |- *.
    { by rewrite app_nil_r, print_nil. }
    apply andb_true_iff in Hcalm as [Hv Hfs].
    unfold sbind at 1. unfold put at 1. unfold sbind at 1.
    rewrite value_spec by done. specialize (IH Hfs).
    destruct (value_text self name v) as [t1 l1] eqn:Ev. simpl.
    fold rec. fold go. rewrite IH by done. destruct (go fields) as [t2 l2]. simpl.
    by rewrite print_print, <- !app_assoc.
  - intros Hbor Han Hcalm. destruct v as [d g|d ss|code]; simpl in *.
    + by rewrite print_nil.
    + by rewrite print_nil.
    + match goal with |- ?f code (b, o) = _ => set (run := f) end.
      match goal with |- context [print (?g code).2 _] => set (go := g) end.
      revert b o Hbor Han. induction code as [|p code IH]; intros b o Hbor Han; simpl in Hcalm |- *.
      { by rewrite app_nil_r, print_nil. }
      apply andb_true_iff in Hcalm as [Hp Hps]. unfold sbind at 1. rewrite piece_spec by done.
      destruct (piece_text self p) as [t1 l1]. simpl. fold run. fold go.
      rewrite (IH Hps) by done. destruct (go code) as [t2 l2]. simpl.
      by rewrite print_print, <- !app_assoc.
  - intros Hbor Han Hcalm. destruct p as [t|e|]; simpl in *; [by rewrite print_nil| |done].
    rewrite event_spec; [by rewrite app_nil_r| |done]. split; [done|congruence].
Qed.

(** Events that a thread logs one after another. *)
Fixpoint log_all (self : Logger) (es : list Event) : LOG () :=
  match es with
  | [] => sret ()
  | e :: es => event self e ;; log_all self es
  end.

(** ** Properties *)


Module Demo.
Definition now : DateTime :=
  {| year := 2022; month := 7; day := 1; hour := 8; minute := 30; second := 15; nanos := 0 |}.
Definition logger : Logger := {| level := INFO; timestamp := false |}.
Definition inner : Event := mkEvent now WARN None [(text "message", VStr (text "inner") [])].
Definition outer : Event :=
  mkEvent now INFO (Some (text "roxy"))
    [(text "message", VStr (text "outer") []);
     (text "r#type", VDebug [Text (text "<"); Log inner; Text (text ">")]);
     (text "err", VError (text "refused") [text "io"; text "os"])].
Definition quiet : Event := mkEvent now TRACE None [(text "message", VStr (text "unseen") [])].
Definition fresh : Stdout := {| BUF := []; borrowed := false; printed := []; answers := [] |}.

Example outer_lines :
  event_lines logger outer
  = [text "WARN  inner" ++ [10];
     text "INFO  roxy outer type=<> err=refused, err.sources: [io, os]" ++ [10]].
Proof. vm_compute. reflexivity. Qed.

(** A line that the standard output refuses stays in the buffer: it is printed before the
    next one. *)
Example refused_line_stays :
  let o1 := (event logger inner (set_BUF [] {| BUF := []; borrowed := false; printed := [];
                                                answers := [None] |})).2 in
  BUF o1 = text "WARN  inner" ++ [10]
  ∧ printed (event logger inner o1).2 = text "WARN  inner" ++ [10] ++ text "WARN  inner" ++ [10].
Proof. vm_compute. split; reflexivity. Qed.

(** What a call of [write] does not take is lost. *)
Example short_write_loses :
  printed (event logger inner {| BUF := []; borrowed := false; printed := []; answers := [Some 4%nat] |}).2
  = text "WARN".
Proof. vm_compute. reflexivity. Qed.
End Demo.

