(* ===== verification/ProcStat.v ===== *)
(** * Process statistics (src/controller/stats/proc.rs)

    The numbers that the controller serves about the process, read from the files of
    /proc.  The operating system is a parameter ([ProcFs]); reading floating point numbers
    is that of the standard library ([core::num::dec2flt]), correctly rounded. *)

From Stdlib Require Import SpecFloat.
From stdpp Require Import strings.
From S2P Require Import Prelude RustStr Io Address NetAddr ServerConfig Float64.

(** ** [str::parse::<f64>()] *)

Fixpoint span_digits (s : list Z) : list Z * list Z :=
  match s with
  | c :: s' =>
    if is_ascii_digit c then let '(ds, rest) := span_digits s' in (c :: ds, rest) else ([], s)
  | [] => ([], [])
  end.

(** The sign at the front of a number. *)
Definition read_sign (s : list Z) : bool * list Z :=
  match s with
  | c :: s' => if c =? 45 then (true, s') else if c =? 43 then (false, s') else (false, s)
  | [] => (false, s)
  end.

(** [parse_scientific]: an exponent stops to grow once it is out of range. *)
Definition parse_scientific (s : list Z) : option (Z * list Z) :=
  let '(negative, s) := read_sign s in
  let '(ds, s) := span_digits s in
  let v := foldl (λ e c, if e <? 65536 then 10 * e + (c - 48) else e) 0 ds in
  if bool_decide (ds = []) then None else Some (if negative then - v else v, s).

(** [parse_number]: the digits as an integer and the exponent of ten. *)
Definition parse_number (s : list Z) : option (Z * Z) :=
  let '(int, s) := span_digits s in
  let '(frac, s) := match s with
                    | 46 :: s' => span_digits s'
                    | _ => ([], s)
                    end in
  if bool_decide (int ++ frac = []) then None
  else
    '(exp, s) ← match s with
                | c :: s' => if (c =? 101) || (c =? 69) then parse_scientific s' else Some (0, s)
                | [] => Some (0, s)
                end;
    if bool_decide (s = []) then Some (dec_val (int ++ frac), exp - Z.of_nat (length frac)) else None.

(** The double nearest to [m * 10^e]. *)
Definition f64_of_decimal (negative : bool) (m e : Z) : f64 :=
  if m =? 0 then S754_zero negative
  else if 0 <=? e
  then binary_normalize prec emax (if negative then - (m * 10 ^ e) else m * 10 ^ e) 0 negative
  else let '(q, e', l) := SFdiv_core_binary prec emax m 0 (10 ^ (- e)) 0 in
       binary_round_aux prec emax negative q e' l.

Definition to_lower (c : Z) : Z := if (65 <=? c) && (c <=? 90) then c + 32 else c.

Definition parse_inf_nan (negative : bool) (s : list Z) : option f64 :=
  let s := to_lower <$> s in
  if bool_decide (s = text "nan") then Some S754_nan
  else if bool_decide (s = text "inf") || bool_decide (s = text "infinity")
  then Some (S754_infinity negative) else None.

Definition parse_f64 (s : list Z) : option f64 :=
  let '(negative, s) := read_sign s in
  match parse_number s with
  | Some (m, e) => Some (f64_of_decimal negative m e)
  | None => parse_inf_nan negative s
  end.

(** ** The files of the process *)

Class ProcFs := {
  getpid : Z;
  page_size : Z;
  (** The entries of a directory; an entry, and then its type, may fail to be read. *)
  read_dir : bytes → res ErrorKind (list (res ErrorKind (res ErrorKind bool)));
  read_file : bytes → res ErrorKind bytes
}.

Definition MAXFD_PATTERN : list Z := text "Max open files".
Definition USER_HZ : f64 := f64_of_Z 100.

Record ProcStat := {
  open_fds_of : Z;
  max_fds_of : Z;
  cpu_seconds : f64;
  threads : Z;
  start_of : f64;
  vss : Z;
  rss : Z
}.

Section proc.
Context `{Profile} `{Fs : ProcFs}.

(** [format!("/proc/{}/fd", pid)] and the like. *)
Definition proc_path (root : bytes) (pid : Z) (file : bytes) : bytes :=
  root ++ [47] ++ decimal pid ++ [47] ++ file.

(** [read_to_string] *)
Definition read_to_string (path : bytes) : res ErrorKind (list Z) :=
  content ← read_file path;
  ok_or InvalidData (Utf8.decode content).

Definition count_entry (acc : res ErrorKind Z) (i : res ErrorKind (res ErrorKind bool)) : res ErrorKind Z :=
  acc ← acc;
  file_type ← i;
  is_dir ← file_type;
  if negb is_dir then arith_u 64 (acc + 1) else Ok acc.

Definition open_fds (pid : Z) : res ErrorKind Z :=
  entries ← read_dir (proc_path (text "/proc") pid (text "fd"));
  foldl count_entry (Ok 0) entries.

(** [all.find(pat)] *)
Fixpoint find (pat s : list Z) : option nat :=
  if bool_decide (pat `prefix_of` s) then Some 0%nat
  else match s with
       | [] => None
       | _ :: s' => Datatypes.S <$> find pat s'
       end.

Definition find_statistic (all pat : list Z) : res ErrorKind Z :=
  match find pat all with
  | Some idx =>
    match split_whitespace (drop (idx + length pat) all) with
    | v :: _ => map_err (λ _, InvalidInput) (parse_uint u64_max v)
    | [] => Err InvalidInput
    end
  | None => Err InvalidInput
  end.

Definition max_fds (pid : Z) : res ErrorKind Z :=
  buffer ← read_to_string (proc_path (text "/proc") pid (text "limits"));
  find_statistic buffer MAXFD_PATTERN.

(** [parts[i].parse().unwrap_or(0)]: an index past the fields panics. *)
Definition f64_field (parts : list (list Z)) (i : nat) : res ErrorKind f64 :=
  p ← expect (parts !! i);
  Ok (default (f64_of_Z 0) (parse_f64 p)).
Definition usize_field (parts : list (list Z)) (i : nat) : res ErrorKind Z :=
  p ← expect (parts !! i);
  Ok (match parse_uint u64_max p with Ok v => v | _ => 0 end).

Definition get_proc_stat (root : bytes) (pid : Z) : res ErrorKind (f64 * Z * f64 * Z * Z) :=
  content ← read_to_string (proc_path root pid (text "stat"));
  let parts := split_ascii_whitespace content in
  utime ← f64_field parts 13;
  stime ← f64_field parts 14;
  threads ← usize_field parts 19;
  start_time ← f64_field parts 21;
  vsize ← usize_field parts 22;
  rss ← usize_field parts 23;
  bytes ← arith_u 64 (rss * page_size);
  Ok (f64_div (f64_add utime stime) USER_HZ, threads, f64_div start_time USER_HZ, vsize, bytes).

Definition ProcStat_read : res ErrorKind ProcStat :=
  let pid := getpid in
  open_fds ← open_fds pid;
  max_fds ← max_fds pid;
  '(cpu_seconds, threads, start, vss, rss) ← get_proc_stat (text "/proc") pid;
  Ok {| open_fds_of := open_fds; max_fds_of := max_fds; cpu_seconds := cpu_seconds;
        threads := threads; start_of := start; vss := vss; rss := rss |}.
End proc.

(** ** Numbers *)

Lemma span_digits_all ds : Forall is_dec ds → span_digits ds = (ds, []).
Proof.
  induction 1 as [|c ds [Hc1 Hc2] _ IH]; [done|]. simpl. unfold is_ascii_digit.
  rewrite (proj2 (Z.leb_le 48 c)), (proj2 (Z.leb_le c 57)) by lia. simpl. by rewrite IH.
Qed.

Lemma read_sign_decimal n : 0 <= n → read_sign (decimal n) = (false, decimal n).
Proof.
  intros Hn. destruct (decimal_printed n Hn) as [Hd _ _ _ _]. unfold read_sign.
  destruct (decimal n) as [|c ds]; [done|]. inversion_clear Hd as [|?? [Hc1 Hc2] _].
  by rewrite (proj2 (Z.eqb_neq c 45)), (proj2 (Z.eqb_neq c 43)) by lia.
Qed.

(** The text of an integer is read as the double of the integer. *)
Lemma parse_f64_decimal n : 0 <= n → parse_f64 (decimal n) = Some (f64_of_Z n).
Proof.
  intros Hn. destruct (decimal_printed n Hn) as [Hd Hv _ Hne _].
  unfold parse_f64. rewrite read_sign_decimal by done. unfold parse_number.
  rewrite span_digits_all by done. rewrite app_nil_r, bool_decide_eq_false_2 by done. simpl.
  rewrite Hv. unfold f64_of_decimal. destruct (Z.eqb_spec n 0) as [->|]; [done|].
  simpl. by rewrite Z.mul_1_r.
Qed.

Section fields.
Context `{Profile} `{Fs : ProcFs}.

Lemma f64_field_decimal parts i n : 0 <= n → parts !! i = Some (decimal n) →
  f64_field parts i = Ok (f64_of_Z n).
Proof. intros Hn Hi. unfold f64_field. rewrite Hi. simpl. by rewrite parse_f64_decimal. Qed.

Lemma usize_field_decimal parts i n : 0 <= n <= u64_max → parts !! i = Some (decimal n) →
  usize_field parts i = Ok n.
Proof. intros Hn Hi. unfold usize_field. rewrite Hi. simpl. by rewrite parse_uint_decimal. Qed.

(** The number of the entries that are not directories. *)
Definition files (dirs : list bool) : Z := Z.of_nat (length (filter (λ d, d = false) dirs)).

Lemma files_cons d dirs : files (d :: dirs) = (if d then 0 else 1) + files dirs.
Proof. unfold files. destruct d; rewrite ?filter_cons_True, ?filter_cons_False by done; simpl length; lia. Qed.

Lemma count_entries dirs acc : 0 <= acc → acc + files dirs < 2 ^ 64 →
  foldl count_entry (Ok acc) ((λ d, Ok (Ok d)) <$> dirs) = Ok (acc + files dirs).
Proof.
  revert acc. induction dirs as [|d dirs IH]; intros acc Ha Hm; [simpl; f_equal; change (files []) with 0; lia|].
  rewrite files_cons in *. assert (0 <= files dirs) by (unfold files; lia). simpl.
  destruct d; simpl; [rewrite IH by lia; f_equal; lia|].
  rewrite arith_u_small by lia. rewrite IH by lia. f_equal. lia.
Qed.

(** The first occurrence of a pattern. *)
Definition first_at (pat pre s : list Z) : Prop :=
  ∀ i, (i < length pre)%nat → ¬ pat `prefix_of` drop i (pre ++ pat ++ s).

Lemma find_first pat pre s : first_at pat pre s → find pat (pre ++ pat ++ s) = Some (length pre).
Proof.
  unfold first_at. induction pre as [|c pre IH]; intros Hf.
  - assert (pat `prefix_of` pat ++ s) as Hp by (by exists s). simpl app in *.
    destruct (pat ++ s); cbn [find]; by rewrite bool_decide_eq_true_2.
  - simpl app. cbn [find]. rewrite bool_decide_eq_false_2 by (apply (Hf 0%nat); simpl; lia).
    rewrite IH; [done|]. intros i Hi. apply (Hf (Datatypes.S i)). simpl. lia.
Qed.

Lemma decimal_word n : 0 <= n → word (decimal n).
Proof.
  intros Hn. destruct (decimal_printed n Hn) as [Hd _ _ Hne _]. split; [done|].
  revert Hd. apply Forall_impl. intros c [??]. unfold is_whitespace. lia.
Qed.

Lemma find_statistic_first pat pre pad n c s : 0 <= n <= u64_max →
  Forall (λ c, is_whitespace c = true) pad → is_whitespace c = true →
  first_at pat pre (pad ++ decimal n ++ c :: s) →
  find_statistic (pre ++ pat ++ pad ++ decimal n ++ c :: s) pat = Ok n.
Proof.
  intros Hn Hpad Hc Hf. unfold find_statistic. rewrite find_first by done.
  rewrite app_assoc, <- length_app, drop_app_length. unfold split_whitespace.
  rewrite split_runs_seps by done. rewrite split_runs_cons by (done || by apply decimal_word; lia).
  by rewrite parse_uint_decimal.
Qed.
End fields.

(** ** What the kernel shows *)

Record Usage := {
  fds : list bool;
  soft_limit : Z;
  utime : Z;
  stime : Z;
  num_threads : Z;
  starttime : Z;
  vsize : Z;
  rss_pages : Z
}.

(** The files in the format of proc(5): the descriptors as the entries of a directory that
    are no directories themselves, the soft limit behind its name, and the line of the
    status, whose words are the fields if the name of the program has no whitespace. *)
Record shows `{Fs : ProcFs} (u : Usage) : Prop := {
  shows_fds : read_dir (proc_path (text "/proc") getpid (text "fd")) = Ok ((λ d, Ok (Ok d)) <$> fds u);
  shows_limits : ∃ content pre pad c s,
    read_file (proc_path (text "/proc") getpid (text "limits")) = Ok content
    ∧ Utf8.decode content = Some (pre ++ MAXFD_PATTERN ++ pad ++ decimal (soft_limit u) ++ c :: s)
    ∧ Forall (λ c, is_whitespace c = true) pad ∧ is_whitespace c = true
    ∧ first_at MAXFD_PATTERN pre (pad ++ decimal (soft_limit u) ++ c :: s);
  shows_stat : ∃ content fields tl,
    read_file (proc_path (text "/proc") getpid (text "stat")) = Ok content
    ∧ Utf8.decode content = Some (join 32 fields ++ tl)
    ∧ Forall (run is_ascii_whitespace) fields ∧ Forall (λ c, is_ascii_whitespace c = true) tl
    ∧ fields !! 13%nat = Some (decimal (utime u)) ∧ fields !! 14%nat = Some (decimal (stime u))
    ∧ fields !! 19%nat = Some (decimal (num_threads u)) ∧ fields !! 21%nat = Some (decimal (starttime u))
    ∧ fields !! 22%nat = Some (decimal (vsize u)) ∧ fields !! 23%nat = Some (decimal (rss_pages u))
}.

(** Numbers that fit: ticks that a double holds exactly and sizes of at most 64 bits. *)
Record fits `{Fs : ProcFs} (u : Usage) : Prop := {
  fits_fds : files (fds u) < 2 ^ 64;
  fits_soft : 0 <= soft_limit u <= u64_max;
  fits_ticks : 0 <= utime u ∧ 0 <= stime u ∧ utime u + stime u < 2 ^ 53 ∧ 0 <= starttime u;
  fits_threads : 0 <= num_threads u <= u64_max;
  fits_vsize : 0 <= vsize u <= u64_max;
  fits_rss : 0 <= rss_pages u <= u64_max ∧ 0 <= rss_pages u * page_size < 2 ^ 64
}.

(** The statistics of the process: numbers of files and of bytes, times in seconds. *)
Definition stats_of `{Fs : ProcFs} (u : Usage) : ProcStat :=
  {| open_fds_of := files (fds u);
     max_fds_of := soft_limit u;
     cpu_seconds := f64_div (f64_of_Z (utime u + stime u)) (f64_of_Z 100);
     threads := num_threads u;
     start_of := f64_div (f64_of_Z (starttime u)) (f64_of_Z 100);
     vss := vsize u;
     rss := rss_pages u * page_size |}.

Section read.
Context `{Profile} `{Fs : ProcFs}.

Lemma read_to_string_ok path content cs : read_file path = Ok content → Utf8.decode content = Some cs →
  read_to_string path = Ok cs.
Proof. intros Hr Hd. unfold read_to_string. rewrite Hr. simpl. by rewrite Hd. Qed.

Lemma get_proc_stat_shows u : shows u → fits u →
  get_proc_stat (text "/proc") getpid
  = Ok (cpu_seconds (stats_of u), num_threads u, start_of (stats_of u), vsize u, rss (stats_of u)).
Proof.
  intros [_ _ (content & fields & tl & Hr & Hd & Hrun & Htl & H13 & H14 & H19 & H21 & H22 & H23)]
         [_ _ (Hu & Hs & Hus & Hst) Hth Hv [Hrss Hbytes]].
  unfold get_proc_stat. rewrite (read_to_string_ok _ _ _ Hr Hd). simpl.
  unfold split_ascii_whitespace. rewrite split_runs_join by done.
  rewrite (f64_field_decimal _ _ _ Hu H13), (f64_field_decimal _ _ _ Hs H14). simpl.
  rewrite (usize_field_decimal _ _ _ Hth H19). simpl.
  rewrite (f64_field_decimal _ _ _ Hst H21). simpl.
  rewrite (usize_field_decimal _ _ _ Hv H22), (usize_field_decimal _ _ _ Hrss H23). simpl.
  rewrite arith_u_small by lia. simpl. by rewrite add_of_Z.
Qed.

Lemma read_shows u : shows u → fits u → ProcStat_read = Ok (stats_of u).
Proof.
  intros Hsh Hf. unfold ProcStat_read, open_fds, max_fds. rewrite (shows_fds u Hsh). simpl.
  rewrite (count_entries (fds u) 0) by (try apply Hf; lia). simpl.
  destruct (shows_limits u Hsh) as (content & pre & pad & c & s & Hr & Hd & Hpad & Hc & Hno).
  rewrite (read_to_string_ok _ _ _ Hr Hd). cbn [mbind res_bind].
  rewrite find_statistic_first by (done || apply Hf). simpl.
  by rewrite (get_proc_stat_shows u).
Qed.

(** A line with fewer than 24 words is not an error: the index of a field panics. *)
Lemma short_stat_panics content fields tl :
  read_file (proc_path (text "/proc") getpid (text "stat")) = Ok content →
  Utf8.decode content = Some (join 32 fields ++ tl) →
  Forall (run is_ascii_whitespace) fields → Forall (λ c, is_ascii_whitespace c = true) tl →
  (length fields < 24)%nat → get_proc_stat (text "/proc") getpid = Panic.
Proof.
  intros Hr Hd Hrun Htl Hlen. unfold get_proc_stat. rewrite (read_to_string_ok _ _ _ Hr Hd). simpl.
  unfold split_ascii_whitespace. rewrite split_runs_join by done.
  unfold f64_field, usize_field. rewrite (lookup_ge_None_2 fields 23) by lia.
  destruct (fields !! 13%nat); [|done]. destruct (fields !! 14%nat); [|done].
  destruct (fields !! 19%nat); [|done]. destruct (fields !! 21%nat); [|done].
  by destruct (fields !! 22%nat).
Qed.
End read.

(** ** Example: the statistics of a process *)

Module Demo.
Definition lim : list Z :=
  text "Limit                     Soft Limit           Hard Limit           Units     " ++ [10]
  ++ text "Max processes             63304                63304                processes " ++ [10]
  ++ text "Max open files            1024                 1048576              files     " ++ [10].

Definition words (comm : string) : list (list Z) :=
  text <$> ["4711"; comm; "S"; "1"; "4711"; "4711"; "0"; "-1"; "4194304"; "1532"; "0"; "12"; "0";
            "250"; "75"; "0"; "0"; "20"; "0"; "9"; "0"; "123456"; "725700608"; "4100"]%string.

Definition fs (comm : string) : ProcFs := {|
  getpid := 4711;
  page_size := 4096;
  read_dir p := Ok [Ok (Ok false); Ok (Ok false); Ok (Ok false)];
  read_file p := if bool_decide (p = text "/proc/4711/stat") then Ok (join 32 (words comm) ++ [10])
                 else if bool_decide (p = text "/proc/4711/limits") then Ok lim
                 else Err (KOs 2)
|}.

Definition usage : Usage :=
  {| fds := [false; false; false]; soft_limit := 1024; utime := 250; stime := 75; num_threads := 9;
     starttime := 123456; vsize := 725700608; rss_pages := 4100 |}.

(** A space in the name of the program moves every field by one: the times are those of
    other fields and the size of the memory is that of the number behind it. *)
Example spaced_name_shifts :
  ProcStat_read (H:=dev) (Fs:=fs "(my roxy)")
  = Ok {| open_fds_of := 3; max_fds_of := 1024; cpu_seconds := f64_div (f64_of_Z 250) (f64_of_Z 100);
          threads := 0; start_of := f64_of_Z 0; vss := 123456; rss := 725700608 * 4096 |}.
Proof. vm_compute. reflexivity. Qed.
End Demo.
