(* ===== verification/Controller.v ===== *)
(** * The controller (src/controller/server.rs, response.rs; Upstream::stats)

    The HTTP service that answers with the statistics of the process and with those of the
    servers of the pool.  [hyper] hands a request over as its method and path and takes a
    response as its status, content type and body.  A value that is serialised is what its
    implementation of [Serialize] hands to the serialiser; [serde_json::to_vec], the text of
    an [io::Error] and the two clocks are parameters. *)

From Stdlib Require Import SpecFloat.
From stdpp Require Import strings sets.
From S2P Require Import Prelude RustStr Io Address NetAddr ServerConfig Float64 Upstream PoolLife DateTime ProcStat.

(** The data model of serde, as far as it is used. *)
Inductive Ser :=
  | SStr (s : bytes)
  | SUint (n : Z)
  | SFloat (x : f64)
  | SNone
  | SSome (v : Ser)
  | SSeq (vs : list Ser)
  | SStruct (name : string) (fields : list (string * Ser)).

Class ControllerLib := {
  (** [serde_json::to_vec] *)
  to_vec : Ser → option bytes;
  error_text : ErrorKind → bytes;
  (** The [k]th reading of [SystemTime::now] and [Instant::now], in nanoseconds. *)
  clocks : nat → Z * Z
}.

(** The serialiser fails at no value of this model: its maps have names as keys. *)
Class ControllerLibOk (L : ControllerLib) : Prop := to_vec_total : ∀ v, is_Some (to_vec v).

Record Stat := { stat_remarks : option bytes; stat_address : bytes; stat_latencies : list Latency }.

Record Response := { status : Z; content_type : option bytes; body : bytes }.

Section controller.
Context `{Profile} `{Fs : ProcFs} `{L : ControllerLib} {E : Type}.

(** ** Statistics of the pool *)

(** [Server::stat] *)
Definition stat (s : Server) : Stat :=
  {| stat_remarks := remarks (config s);
     stat_address := Address_fmt (addr (config s));
     stat_latencies := latencies s |}.

(** [Upstream::stats] *)
Fixpoint stats_loop (h : list Server) (ps : list ptr) (stats : list Stat) : res E (list Stat) :=
  match ps with
  | [] => Ok stats
  | p :: ps => svr ← deref h p; stats_loop h ps (stats ++ [stat svr])
  end.
Definition stats (w : World) : res E (list Stat) := stats_loop (heap w) (servers (peers w)) [].

(** ** Serialisation

    The state is the number of readings of the clocks. *)

(** [impl Serialize for Latency]: the difference of two instants is not negative, and a
    time before the range of [SystemTime] panics. *)
Definition Latency_serialize (l : Latency) : prog nat E Ser := λ k,
  let '(system_now, instant_now) := clocks k in
  let approx := system_now - Z.max 0 (instant_now - timestamp l) in
  (_ ← assert_ (- 2 ^ 63 * 1000000000 <=? approx);
   datetime ← from_system_time approx;
   Ok (SStruct "Latency" [("timestamp"%string, SStr (to_string datetime));
                          ("value"%string, SUint (value l))]), Datatypes.S k).

Fixpoint serialize_seq {A} (serialize : A → prog nat E Ser) (l : list A) : prog nat E (list Ser) :=
  match l with
  | [] => sret []
  | a :: l => sbind (serialize a) (λ v, sbind (serialize_seq serialize l) (λ vs, sret (v :: vs)))
  end.

(** [#[derive(Serialize)]] on [Stat] and [ProcStat] *)
Definition Stat_serialize (s : Stat) : prog nat E Ser :=
  sbind (serialize_seq Latency_serialize (stat_latencies s)) (λ ls,
  sret (SStruct "Stat" [("remarks"%string, match stat_remarks s with Some r => SSome (SStr r) | None => SNone end);
                        ("address"%string, SStr (stat_address s));
                        ("latencies"%string, SSeq ls)])).

Definition ProcStat_serialize (s : ProcStat) : Ser :=
  SStruct "ProcStat" [("open_fds"%string, SUint (open_fds_of s)); ("max_fds"%string, SUint (max_fds_of s));
                      ("cpu_seconds"%string, SFloat (cpu_seconds s)); ("threads"%string, SUint (threads s));
                      ("start"%string, SFloat (start_of s)); ("vss"%string, SUint (vss s));
                      ("rss"%string, SUint (rss s))].

(** ** Responses *)

(** [into_resp] *)
Definition into_resp (v : Ser) : res E Response :=
  data ← expect (to_vec v);
  Ok {| status := 200; content_type := Some (text "application/json"); body := data |}.

Definition err_resp (status : Z) (err : ErrorKind) : Response :=
  {| status := status; content_type := Some (text "text/plain"); body := error_text err |}.

Definition not_found : Response :=
  {| status := 404; content_type := None; body := text "Not Found" |}.

(** [Server::handle], at a state [w] of the pool. *)
Definition handle (method path : bytes) (w : World) : prog nat E Response :=
  if bool_decide (method = text "GET") && bool_decide (path = text "/stats")
  then match ProcStat_read with
       | Ok stats => slift (into_resp (ProcStat_serialize stats))
       | Err err => sret (err_resp 500 err)
       | Panic => slift Panic
       end
  else if bool_decide (method = text "GET") && bool_decide (path = text "/upstream")
  then sbind (slift (stats w)) (λ stats,
       sbind (serialize_seq Stat_serialize stats) (λ vs,
       slift (into_resp (SSeq vs))))
  else sret not_found.
End controller.

(** ** What a response shows *)

(** A latency with the time of its check, when the system clock is [off] ahead of the
    monotonic one. *)
Definition shows_latency (off : Z) (l : Latency) (v : Ser) : Prop :=
  ∃ d, valid_date d ∧ nanos_of d = timestamp l + off
       ∧ v = SStruct "Latency" [("timestamp"%string, SStr (to_string d)); ("value"%string, SUint (value l))].

(** A server with its remarks, a text of its address that is read as the address, and its
    last latencies, at most ten, in the order of the checks. *)
Definition shows_server (off : Z) (h : list Server) (p : ptr) (v : Ser) : Prop :=
  ∃ s a ls, h !! p = Some s
    ∧ v = SStruct "Stat" [("remarks"%string, match remarks (config s) with Some r => SSome (SStr r) | None => SNone end);
                          ("address"%string, SStr a); ("latencies"%string, SSeq ls)]
    ∧ (text_ok (addr (config s)) → from_str a = Ok (addr (config s)))
    ∧ Forall2 (shows_latency off) (latencies s) ls ∧ (1 ≤ length ls ≤ 10)%nat.

Definition json_response `{L : ControllerLib} (v : Ser) (r : Response) : Prop :=
  status r = 200 ∧ content_type r = Some (text "application/json") ∧ to_vec v = Some (body r).

(** Both clocks go forward together, and the latencies were measured before. *)
Definition in_step `{L : ControllerLib} (off : Z) (w : World) : Prop :=
  ∀ k s l, s ∈ heap w → l ∈ latencies s →
    (clocks k).1 = (clocks k).2 + off ∧ timestamp l <= (clocks k).2
    ∧ - 2 ^ 63 * 1000000000 < timestamp l + off < 2 ^ 63 * 1000000000.

Section proofs.
Context `{Profile} `{Fs : ProcFs} `{L : ControllerLib} `{!ControllerLibOk L} {E : Type}.

Lemma Latency_serialize_shows off l k :
  (clocks k).1 = (clocks k).2 + off → timestamp l <= (clocks k).2 →
  - 2 ^ 63 * 1000000000 < timestamp l + off < 2 ^ 63 * 1000000000 →
  ∃ v, Latency_serialize (E:=E) l k = (Ok v, Datatypes.S k) ∧ shows_latency off l v.
Proof.
  intros Hoff Hle Hr. unfold Latency_serialize. destruct (clocks k) as [sys inst]. simpl in *.
  replace (sys - _) with (timestamp l + off) by lia.
  rewrite (proj2 (Z.leb_le _ _)) by lia. simpl.
  destruct (date_ok (E:=E) (timestamp l + off) Hr) as (d & -> & Hd & Hn). simpl.
  eexists. split; [done|]. by exists d.
Qed.

Lemma serialize_seq_spec {A} (serialize : A → prog nat E Ser) (R : A → Ser → Prop) (l : list A) k :
  (∀ a k, a ∈ l → ∃ v k', serialize a k = (Ok v, k') ∧ R a v) →
  ∃ vs k', serialize_seq serialize l k = (Ok vs, k') ∧ Forall2 R l vs.
Proof.
  revert k. induction l as [|a l IH]; intros k Hs; [eexists _, _; split; [done|constructor]|].
  destruct (Hs a k ltac:(set_solver)) as (v & k1 & Ev & Hv).
  destruct (IH k1) as (vs & k2 & Evs & Hvs); [intros; apply Hs; set_solver|].
  exists (v :: vs), k2. split; [|by constructor].
  cbn [serialize_seq]. unfold sbind. rewrite Ev, Evs. done.
Qed.

Lemma stats_loop_spec h ps acc : (∀ p, p ∈ ps → valid h p) →
  ∃ ss, Forall2 (λ p s, h !! p = Some s) ps ss
        ∧ stats_loop (E:=E) h ps acc = Ok (acc ++ (stat <$> ss)).
Proof.
  revert acc. induction ps as [|p ps IH]; intros acc Hv.
  { exists []. split; [constructor|]. by rewrite app_nil_r. }
  destruct (Hv p) as (s & Hs & _); [set_solver|].
  destruct (IH (acc ++ [stat s])) as (ss & Hss & E1); [set_solver|].
  exists (s :: ss). split; [by constructor|]. cbn [stats_loop]. unfold deref. rewrite Hs. simpl.
  by rewrite E1, <- app_assoc.
Qed.

Lemma Stat_serialize_shows off w p s k :
  pool_wf w → in_step off w → heap w !! p = Some s → checked s →
  ∃ v k', Stat_serialize (E:=E) (stat s) k = (Ok v, k') ∧ shows_server off (heap w) p v.
Proof.
  intros Hwf Hst Hs Hc. pose proof (list_elem_of_lookup_2 _ _ _ Hs) as Hin.
  destruct (serialize_seq_spec Latency_serialize (shows_latency off) (latencies s) k) as (ls & k' & El & Hls).
  { intros l k0 Hl. destruct (Hst k0 s l Hin Hl) as (? & ? & ?).
    destruct (Latency_serialize_shows off l k0) as (v & ? & ?); [done..|]. eauto. }
  eexists _, k'. split; [unfold Stat_serialize, sbind; simpl; by rewrite El|].
  exists s, (Address_fmt (addr (config s))), ls. split_and!; [done|done|apply from_str_fmt|done|..].
  - apply Forall2_length in Hls. rewrite <- Hls. unfold checked in Hc. destruct (latencies s); [done|simpl; lia].
  - apply Forall2_length in Hls. rewrite <- Hls.
    by eapply Forall_lookup_1 in Hs; [|apply (wf_history _ Hwf)].
Qed.

Lemma into_resp_json v : ∃ r, into_resp (E:=E) v = Ok r ∧ json_response v r.
Proof.
  destruct (to_vec_total v) as [b Hb]. unfold into_resp. rewrite Hb. simpl.
  eexists. split; [done|]. by split_and!.
Qed.

Lemma stats_shown off w k : pool_wf w → in_step off w →
  ∃ vs r k', handle (E:=E) (text "GET") (text "/upstream") w k = (Ok r, k')
    ∧ Forall2 (shows_server off (heap w)) (servers (peers w)) vs ∧ json_response (SSeq vs) r.
Proof.
  intros Hwf Hst. pose proof (pool_valid _ _ (wf_pool _ Hwf)) as Hv.
  destruct (stats_loop_spec (heap w) (servers (peers w)) [] Hv) as (ss & Hss & Es).
  assert (∃ vs k', serialize_seq (E:=E) Stat_serialize (stat <$> ss) k = (Ok vs, k')
            ∧ Forall2 (shows_server off (heap w)) (servers (peers w)) vs) as (vs & k' & Evs & Hvs).
  { clear Es. revert k. induction Hss as [|p s ps ss Hs _ IH]; intros k;
      [eexists _, _; split; [done|constructor]|].
    destruct (Hv p ltac:(set_solver)) as (s' & Hs' & Hc). rewrite Hs in Hs'. injection Hs' as <-.
    destruct (Stat_serialize_shows off w p s k Hwf Hst Hs Hc) as (v & k1 & Ev & Hsv).
    destruct (IH ltac:(set_solver) k1) as (vs & k2 & Evs & Hvs).
    exists (v :: vs), k2. split; [|by constructor].
    cbn [serialize_seq fmap list_fmap]. unfold sbind. rewrite Ev, Evs. done. }
  destruct (into_resp_json (SSeq vs)) as (r & Er & Hr).
  exists vs, r, k'. split; [|done]. unfold handle, sbind, slift, stats. rewrite Es. simpl. by rewrite Evs, Er.
Qed.
End proofs.

(** ** Properties *)

(** A failure to read the files of the process is answered with an error and its text. *)
Lemma stats_failure `{Profile} `{Fs : ProcFs} `{L : ControllerLib} {E : Type} (w : World) (err : ErrorKind) (k : nat) :
  ProcStat_read = Err err →
  handle (E:=E) (text "GET") (text "/stats") w k
  = (Ok {| status := 500; content_type := Some (text "text/plain"); body := error_text err |}, k).
Proof. intros He. unfold handle. simpl. by rewrite He. Qed.

(** C25: the controller tells the truth.  At a well-formed pool, with the files of /proc in
    their documented format, no request makes it panic: [GET /stats] is answered with the
    usage that the kernel shows, [GET /upstream] with one entry for every server of the
    current list, in its order, whose address is read back as that of the server and whose
    latencies, one to ten, carry the calendar dates of their checks, and every other
    request with 404. *)
Theorem controller_answers `{Profile} `{Fs : ProcFs} `{L : ControllerLib} `{!ControllerLibOk L} {E : Type}
    (method path : bytes) (w : World) (off : Z) (u : Usage) (k : nat)
    (Hwf : pool_wf w) (Hclocks : in_step off w) (Hshows : shows u) (Hfits : fits u) :
  ∃ r k', handle (E:=E) method path w k = (Ok r, k')
    ∧ ((method, path) = (text "GET", text "/stats") → json_response (ProcStat_serialize (stats_of u)) r)
    ∧ ((method, path) = (text "GET", text "/upstream") →
       ∃ vs, Forall2 (shows_server off (heap w)) (servers (peers w)) vs ∧ json_response (SSeq vs) r)
    ∧ ((method, path) ∉ [(text "GET", text "/stats"); (text "GET", text "/upstream")] → r = not_found).
Proof.
  destruct (decide (method = text "GET" ∧ path = text "/stats")) as [[-> ->]|Hns].
  { destruct (into_resp_json (E:=E) (ProcStat_serialize (stats_of u))) as (r & Er & Hr).
    exists r, k. split; [|split_and!; [done|done|set_solver]].
    unfold handle. simpl. rewrite (read_shows u Hshows Hfits). unfold slift. by rewrite Er. }
  destruct (decide (method = text "GET" ∧ path = text "/upstream")) as [[-> ->]|Hnu].
  { destruct (stats_shown (E:=E) off w k Hwf Hclocks) as (vs & r & k' & Hh & Hvs & Hr).
    exists r, k'. split; [done|]. split_and!; [done|eauto|set_solver]. }
  exists not_found, k. split; [|split_and!; [by intros [= -> ->]; destruct Hns|by intros [= -> ->]; destruct Hnu|done]].
  unfold handle. rewrite <- !bool_decide_and, !bool_decide_eq_false_2 by done. done.
Qed.

Module Demo.
(** A plain serialiser. *)
Fixpoint render (v : Ser) : bytes :=
  match v with
  | SStr s => 34 :: s ++ [34]
  | SUint n => decimal n
  | SFloat _ => text "0.0"
  | SNone => text "null"
  | SSome v => render v
  | SSeq vs => 91 :: join 44 (map render vs) ++ [93]
  | SStruct _ fields => 123 :: join 44 (map (λ '(k, v), 34 :: text k ++ [34; 58] ++ render v) fields) ++ [125]
  end.

(** The system was started at 2023-11-14T22:13:20Z. *)
Definition boot : Z := 1700000000 * 1000000000.
Definition lib : ControllerLib := {|
  to_vec v := Some (render v);
  error_text _ := text "error";
  clocks k := (boot + 5000000000 + Z.of_nat k, 5000000000 + Z.of_nat k)
|}.

Lemma lib_ok : ControllerLibOk lib.
Proof. by intros v; eexists. Qed.

Lemma world_wf : pool_wf Upstream.Demo.world.
Proof.
  split; [exact (reachable_pool_ok (H:=dev) _ Upstream.Demo.world_reachable)|].
  apply (bool_decide_unpack _). vm_compute. done.
Qed.

Lemma clocks_in_step : in_step (L:=lib) boot Upstream.Demo.world.
Proof.
  assert (Forall (λ s, Forall (λ l, timestamp l = 7) (latencies s)) (heap Upstream.Demo.world)) as Ht
    by (apply (bool_decide_unpack _); vm_compute; done).
  intros k s l Hs%list_elem_of_In Hl%list_elem_of_In. rewrite Forall_forall in Ht. specialize (Ht s Hs). rewrite Forall_forall in Ht.
  rewrite (Ht l Hl). simpl. unfold boot. lia.
Qed.

Lemma usage_shown : shows (Fs:=ProcStat.Demo.fs "(roxy)") ProcStat.Demo.usage.
Proof.
  split.
  - done.
  - exists ProcStat.Demo.lim, (take 158 ProcStat.Demo.lim), (replicate 12 32), 32, (drop 189 ProcStat.Demo.lim).
    split_and!; [vm_compute; done..| |done|].
    + by repeat constructor.
    + intros i Hi. apply (Forall_lookup_1 (λ i, ¬ MAXFD_PATTERN `prefix_of` drop i _) (seq 0 158) i i);
        [|apply lookup_seq; split; [done|exact Hi]].
      apply (bool_decide_unpack _). vm_compute. done.
  - exists (join 32 (ProcStat.Demo.words "(roxy)") ++ [10]), (ProcStat.Demo.words "(roxy)"), [10].
    split_and!; try (vm_compute; done); [apply (bool_decide_unpack _); vm_compute; done|by repeat constructor].
Qed.

Lemma usage_fits : fits (Fs:=ProcStat.Demo.fs "(roxy)") ProcStat.Demo.usage.
Proof. split; vm_compute; split_and?; done. Qed.

Definition get (path : string) : res () Response * nat :=
  handle (H:=dev) (Fs:=ProcStat.Demo.fs "(roxy)") (L:=lib) (text "GET") (text path) Upstream.Demo.world 0%nat.

(** The entry of the first server, with single quotation marks. *)
Example upstream_body :
  untext ((λ c, if c =? 34 then 39 else c)
          <$> take 115 (match (get "/upstream").1 with Ok r => body r | _ => [] end))
  = "[{'remarks':null,'address':'example.com:8388','latencies':[{'timestamp':'2023-11-14T22:13:20.000000Z','value':0}]},"%string.
Proof. vm_compute. reflexivity. Qed.

Lemma controller_answers_witness :
  ∃ r k, get "/upstream" = (Ok r, k)
    ∧ ∃ vs, Forall2 (shows_server boot (heap Upstream.Demo.world)) [0; 1; 2]%nat vs
            ∧ json_response (L:=lib) (SSeq vs) r.
Proof.
  destruct (controller_answers (H:=dev) (Fs:=ProcStat.Demo.fs "(roxy)") (L:=lib) (ControllerLibOk0:=lib_ok)
              (E:=()) (text "GET") (text "/upstream") Upstream.Demo.world boot ProcStat.Demo.usage 0
              world_wf clocks_in_step usage_shown usage_fits) as (r & k & Hh & _ & Hu & _).
  exists r, k. split; [exact Hh|exact (Hu eq_refl)].
Defined.
End Demo.
