(* ===== verification/Tasks.v ===== *)
(** * The tasks of the pool (upstream/mod.rs, relay/thp/server.rs, concurrently)

    The runtime has several threads.  The tasks of all the connections, the requests for
    statistics, the task that checks and the task that reloads share the heap of servers, the
    current list and the lock around it.  Here each of them is a machine that goes from one
    access to shared data to the next: a server's mutex is taken once for each [alive],
    [latency], [stat] and [push_latency], the index of the best server is loaded and stored
    once, and the guards of the lock are held as long as in the code: for the whole of a
    [pick], for the whole of a round of checks, with its awaits, and for the exchange of the
    list.  A label says who takes the next step and what it meets: the first bytes of a
    client, the outcome of an attempt, the result of a check, an answer of the provider.  A
    sequence of labels is a schedule of the threads. *)

From stdpp Require Import strings sets.
From S2P Require Import Prelude RustStr Io Address Crypto ServerConfig RwLock Upstream PoolLife Sniffing Relay Controller.

(** Who asks for the lock. *)
Inductive Who := Task (i : nat) | Checker | Reloader.

Global Instance Who_eq_dec : EqDecision Who.
Proof. solve_decision. Defined.

(** ** A pick, look by look *)

Inductive Look :=
  | LoadBest
  | LookBest (p : ptr)
  | LookEtld (attempts : nat) (key : Z)
  | LookFirst (rest : list ptr).

Section pick.
Context `{Profile} {E : Type} (effective_tld_plus_one : bytes → option bytes).
Context (lb : LoadBalanceType).

Definition first_look (host : bytes) : Look :=
  match lb with
  | Best => LoadBest
  | Etld => LookEtld 5 (fnv (default host (effective_tld_plus_one host)))
  end.

(** [None] if the fuel of the hash runs out. *)
Definition look_step (h : list Server) (peers : Peers) (l : Look) : option (res E (Look + ptr)) :=
  match l with
  | LoadBest =>
    Some ('(p, _) ← nth_server h (servers peers) (Z.of_nat (best_index peers)); Ok (inl (LookBest p)))
  | LookBest p =>
    Some (s ← deref h p;
          a ← alive s;
          Ok (if (a : bool) then inr p else inl (LookFirst (servers peers))))
  | LookEtld O _ => Some (Ok (inl (LookFirst (servers peers))))
  | LookEtld (Datatypes.S attempts) key =>
    index ← jumphash key (Z.of_nat (length (servers peers)));
    Some ('(p, s) ← nth_server h (servers peers) index;
          a ← alive s;
          if (a : bool) then Ok (inr p)
          else key ← arith_u 64 (key + 1); Ok (inl (LookEtld attempts key)))
  | LookFirst [] => Some ('(p, _) ← nth_server h (servers peers) 0; Ok (inr p))
  | LookFirst (p :: rest) =>
    Some (s ← deref h p;
          a ← alive s;
          Ok (if (a : bool) then inr p else inl (LookFirst rest)))
  end.

(** The looks of a pick that nobody interferes with. *)
Fixpoint looks_alone (fuel : nat) (h : list Server) (peers : Peers) (l : Look) : option (res E ptr) :=
  match fuel with
  | O => None
  | Datatypes.S fuel =>
    r ← look_step h peers l;
    match r with
    | Ok (inl l) => looks_alone fuel h peers l
    | Ok (inr p) => Some (Ok p)
    | Err e => Some (Err e)
    | Panic => Some Panic
    end
  end.
End pick.

(** ** A round of checks, step by step *)

Inductive Round :=
  | Probing (todo : list ptr)
  | Choosing (index : nat) (rest : list ptr) (best_index : nat) (best_latency : Z).

Inductive RoundEvent := Probed (k : nat) (now : Z) (pr : Probe) | Compare.

(** A check finishes; when all have, the latencies are compared one by one and the index of
    the best is the result.  [None]: the event cannot happen. *)
Definition round_step `{Profile} {E} (ev : RoundEvent) (ps : list ptr) (h : list Server) (r : Round)
  : option (res E (list Server * (Round + nat))) :=
  match ev, r with
  | Probed k now pr, Probing todo =>
    p ← todo !! k;
    Some (h ← check_update_score now pr p h; Ok (h, inl (Probing (delete k todo))))
  | Compare, Probing [] => Some (Ok (h, inl (Choosing 0 ps 0 u32_max)))
  | Compare, Choosing index (p :: rest) bi bl =>
    Some (s ← deref h p;
          v ← latency s;
          Ok (h, inl (if v =? 0 then Choosing (index + 1) rest bi bl
                      else if v <? bl then Choosing (index + 1) rest index v
                      else Choosing (index + 1) rest bi bl)))
  | Compare, Choosing _ [] bi _ =>
    Some (_ ← nth_server h ps (Z.of_nat bi); Ok (h, inr bi))
  | _, _ => None
  end.

(** ** The system *)

(** A connection, or a request for the statistics.  [more] attempts may follow the
    current one. *)
Inductive TaskState :=
  | Sniffing
  | Asking (host : bytes) (port : Z) (more : nat)
  | Looking (host : bytes) (port : Z) (more : nat) (l : Look)
  | Dialling (host : bytes) (port : Z) (more : nat) (p : ptr)
  | Relaying (host : bytes) (port : Z) (p : ptr)
  | Ended (r : res RelayError ptr)
  | StatsAsking
  | StatsReading (rest : list ptr) (stats : list Stat)
  | StatsEnded (stats : list Stat).

Inductive CheckerState := Sleeping | Waiting | Checking (r : Round).

Inductive ReloaderState :=
  | Idle
  | CheckingNew (new : Peers) (r : Round)
  | Replacing (new : Peers).

Record Sys (K : Type) := {
  sys_heap : list Server;
  sys_peers : Peers;
  sys_lock : K;
  sys_tasks : list TaskState;
  sys_checker : CheckerState;
  sys_reloader : ReloaderState
}.
Global Arguments sys_heap {K}.
Global Arguments sys_peers {K}.
Global Arguments sys_lock {K}.
Global Arguments sys_tasks {K}.
Global Arguments sys_checker {K}.
Global Arguments sys_reloader {K}.

Inductive Label :=
  | Accept
  | Sniff (i : nat) (peeked : res ErrorKind bytes)
  | Enter (i : nat)
  | LookAt (i : nat)
  | Dial (i : nat) (opened : res ErrorKind ()) (now : Z)
  | Finish (i : nat) (proxied : res ErrorKind ()) (now : Z)
  | AskStats
  | EnterStats (i : nat)
  | ReadStat (i : nat)
  | CheckWake
  | CheckEnter
  | CheckStep (ev : RoundEvent)
  | Reloaded (resp : res ExchangeError (Z * bytes))
  | ReloadStep (ev : RoundEvent)
  | ReloadSwap.

Section system.
Context `{Profile} `{L : ConfigLib} `{M : Memchr} {K : Type} `{!RwLock Who K}.
Context (effective_tld_plus_one : bytes → option bytes) (lb : LoadBalanceType).
Implicit Types s : Sys K.

Definition with_heap (h : list Server) s : Sys K :=
  {| sys_heap := h; sys_peers := sys_peers s; sys_lock := sys_lock s; sys_tasks := sys_tasks s;
     sys_checker := sys_checker s; sys_reloader := sys_reloader s |}.
Definition with_peers (ps : Peers) s : Sys K :=
  {| sys_heap := sys_heap s; sys_peers := ps; sys_lock := sys_lock s; sys_tasks := sys_tasks s;
     sys_checker := sys_checker s; sys_reloader := sys_reloader s |}.
Definition with_lock (k : K) s : Sys K :=
  {| sys_heap := sys_heap s; sys_peers := sys_peers s; sys_lock := k; sys_tasks := sys_tasks s;
     sys_checker := sys_checker s; sys_reloader := sys_reloader s |}.
Definition with_tasks (ts : list TaskState) s : Sys K :=
  {| sys_heap := sys_heap s; sys_peers := sys_peers s; sys_lock := sys_lock s; sys_tasks := ts;
     sys_checker := sys_checker s; sys_reloader := sys_reloader s |}.
Definition with_checker (c : CheckerState) s : Sys K :=
  {| sys_heap := sys_heap s; sys_peers := sys_peers s; sys_lock := sys_lock s; sys_tasks := sys_tasks s;
     sys_checker := c; sys_reloader := sys_reloader s |}.
Definition with_reloader (r : ReloaderState) s : Sys K :=
  {| sys_heap := sys_heap s; sys_peers := sys_peers s; sys_lock := sys_lock s; sys_tasks := sys_tasks s;
     sys_checker := sys_checker s; sys_reloader := r |}.

Definition put (i : nat) (t : TaskState) s : Sys K := with_tasks (<[i:=t]> (sys_tasks s)) s.
Definition ask (w : Who) (m : Mode) s : Sys K := with_lock (lock_request w m (sys_lock s)) s.
Definition drop_guard (w : Who) s : Sys K := with_lock (lock_release w (sys_lock s)) s.
Definition has_guard (w : Who) s : bool := bool_decide (w ∈ (guards (sys_lock s)).*1).

(** [server.report_failure()] on a server that a connection holds. *)
Definition report_server (now : Z) (p : ptr) s : Sys K :=
  with_heap (alter (report_failure now) p (sys_heap s)) s.

(** The loop of the attempts of a connection: the next one begins with [pick]. *)
Definition attempt (i : nat) (host : bytes) (port : Z) (more : nat) s : Sys K :=
  match more with
  | O => put i (Ended (Err NoProxy)) s
  | Datatypes.S more => ask (Task i) Shared (put i (Asking host port more) s)
  end.

(** A connection or a request for statistics goes on.  A panic of the sniffer, of connecting
    or of relaying happens in the task of one connection, which holds no guard then: it ends
    that task ([tokio::spawn]) and is recorded as its end, [Ended Panic].  A panic of a look
    or of [stat], within a guard, is one of the step. *)
Definition task_step (l : Label) s : option (res RelayError (Sys K)) :=
  match l with
  | Accept => Some (Ok (with_tasks (sys_tasks s ++ [Sniffing]) s))
  | Sniff i peeked =>
    match sys_tasks s !! i with
    | Some Sniffing =>
      Some match destination_addr peeked with
           | Some (Ok (host, port)) => Ok (attempt i host port 5 s)
           | Some (Err e) => Ok (put i (Ended (Err (SniffFailed e))) s)
           | Some Panic => Ok (put i (Ended Panic) s)
           | None => Panic
           end
    | _ => None
    end
  | Enter i =>
    match sys_tasks s !! i with
    | Some (Asking host port more) =>
      if has_guard (Task i) s
      then Some (Ok (put i (Looking host port more (first_look effective_tld_plus_one lb host)) s))
      else None
    | _ => None
    end
  | LookAt i =>
    match sys_tasks s !! i with
    | Some (Looking host port more l) =>
      Some match look_step (sys_heap s) (sys_peers s) l with
           | Some (Ok (inl l)) => Ok (put i (Looking host port more l) s)
           | Some (Ok (inr p)) => Ok (drop_guard (Task i) (put i (Dialling host port more p) s))
           | Some (Err e) => Err e
           | Some Panic | None => Panic
           end
    | _ => None
    end
  | Dial i opened now =>
    match sys_tasks s !! i with
    | Some (Dialling host port more p) =>
      Some (Ok match opened with
               | Ok _ => put i (Relaying host port p) s
               | Err _ => attempt i host port more (report_server now p s)
               | Panic => put i (Ended Panic) s
               end)
    | _ => None
    end
  | Finish i proxied now =>
    match sys_tasks s !! i with
    | Some (Relaying host port p) =>
      Some (Ok match proxied with
               | Ok _ => put i (Ended (Ok p)) s
               | Err _ => put i (Ended (Ok p)) (report_server now p s)
               | Panic => put i (Ended Panic) s
               end)
    | _ => None
    end
  | AskStats =>
    Some (Ok (ask (Task (length (sys_tasks s))) Shared (with_tasks (sys_tasks s ++ [StatsAsking]) s)))
  | EnterStats i =>
    match sys_tasks s !! i with
    | Some StatsAsking =>
      if has_guard (Task i) s then Some (Ok (put i (StatsReading (servers (sys_peers s)) []) s)) else None
    | _ => None
    end
  | ReadStat i =>
    match sys_tasks s !! i with
    | Some (StatsReading [] stats) => Some (Ok (drop_guard (Task i) (put i (StatsEnded stats) s)))
    | Some (StatsReading (p :: rest) stats) =>
      Some (svr ← deref (sys_heap s) p; Ok (put i (StatsReading rest (stats ++ [stat svr])) s))
    | _ => None
    end
  | _ => None
  end.

(** The task that checks the current servers keeps the guard for the whole round. *)
Definition checker_step (l : Label) s : option (res RelayError (Sys K)) :=
  match l, sys_checker s with
  | CheckWake, Sleeping => Some (Ok (ask Checker Shared (with_checker Waiting s)))
  | CheckEnter, Waiting =>
    if has_guard Checker s
    then Some (Ok match servers (sys_peers s) with
                  | [] => drop_guard Checker (with_checker Sleeping s)
                  | ps => with_checker (Checking (Probing ps)) s
                  end)
    else None
  | CheckStep ev, Checking r =>
    step ← round_step ev (servers (sys_peers s)) (sys_heap s) r;
    Some ('(h, r) ← step;
          let s := with_heap h s in
          Ok match r with
             | inl r => with_checker (Checking r) s
             | inr bi =>
               drop_guard Checker (with_checker Sleeping
                 (with_peers {| servers := servers (sys_peers s); best_index := bi |} s))
             end)
  | _, _ => None
  end.

(** The task that reloads checks the new servers before it asks for the lock. *)
Definition reloader_step (l : Label) s : option (res RelayError (Sys K)) :=
  match l, sys_reloader s with
  | Reloaded resp, Idle =>
    Some match fetch resp with
         | Some (Ok configs) =>
           let '(h, new) := load_peers (sys_heap s) configs in
           let s := with_heap h s in
           Ok match servers new with
              | [] => ask Reloader Exclusive (with_reloader (Replacing new) s)
              | ps => with_reloader (CheckingNew new (Probing ps)) s
              end
         | Some (Err _) => Ok s
         | Some Panic | None => Panic
         end
  | ReloadStep ev, CheckingNew new r =>
    step ← round_step ev (servers new) (sys_heap s) r;
    Some ('(h, r) ← step;
          let s := with_heap h s in
          Ok match r with
             | inl r => with_reloader (CheckingNew new r) s
             | inr bi =>
               ask Reloader Exclusive
                 (with_reloader (Replacing {| servers := servers new; best_index := bi |}) s)
             end)
  | ReloadSwap, Replacing new =>
    if has_guard Reloader s
    then Some (Ok (drop_guard Reloader (with_reloader Idle (with_peers new s))))
    else None
  | _, _ => None
  end.

(** [None]: the label cannot happen in this state. *)
Definition step (l : Label) s : option (res RelayError (Sys K)) :=
  match l with
  | CheckWake | CheckEnter | CheckStep _ => checker_step l s
  | Reloaded _ | ReloadStep _ | ReloadSwap => reloader_step l s
  | _ => task_step l s
  end.

Fixpoint run (ls : list Label) s : option (res RelayError (Sys K)) :=
  match ls with
  | [] => Some (Ok s)
  | l :: ls =>
    r ← step l s;
    match r with
    | Ok s => run ls s
    | Err e => Some (Err e)
    | Panic => Some Panic
    end
  end.

(** After [Upstream::new], which has more the pool [w]. *)
Definition sys_init (w : World) : Sys K :=
  {| sys_heap := heap w; sys_peers := peers w; sys_lock := lock_new; sys_tasks := [];
     sys_checker := Sleeping; sys_reloader := Idle |}.
End system.

(** ** The looks of a pick *)

(** What a pick that has the guard may rely on. *)
Definition look_ok `{Profile} (ps : list ptr) (l : Look) : Prop :=
  match l with
  | LoadBest => True
  | LookBest p => p ∈ ps
  | LookEtld attempts key => 0 <= key < 2 ^ 64 ∧ keys_fit attempts key
  | LookFirst rest => rest ⊆ ps
  end.

Section look_proofs.
Context `{Profile} {E : Type} (etld1 : bytes → option bytes) (lb : LoadBalanceType).

Lemma first_look_ok ps host : pickable etld1 lb host → look_ok ps (first_look etld1 lb host).
Proof. unfold pickable, first_look. destruct lb; [done|]. intros. split; [apply fnv_bound|done]. Qed.

(** A look at a pool that is well-formed at that moment never panics; it goes on with a
    look that is in order, or ends with a server of the list. *)
Lemma look_step_ok h ps l : pool_ok h ps → look_ok (servers ps) l →
  ∃ r, look_step (E:=E) h ps l = Some (Ok r)
    ∧ match r with inl l' => look_ok (servers ps) l' | inr p => p ∈ servers ps end.
Proof.
  intros Hok Hl. pose proof (pool_valid _ _ Hok) as Hv. pose proof (pool_ne _ _ Hok) as Hne.
  pose proof (pool_small _ _ Hok) as Hsm. pose proof (pool_best _ _ Hok) as Hb.
  assert (0 < Z.of_nat (length (servers ps))) as Hpos by (destruct (servers ps); [done|simpl; lia]).
  destruct l as [|p|[|n] key|[|p rest]]; cbn [look_step look_ok] in *.
  - destruct (nth_server_ok (E:=E) h (servers ps) (Z.of_nat (best_index ps)) Hv) as (p & s & -> & Hin & _);
      [lia|]. simpl. by eexists.
  - destruct (deref_valid (E:=E) h p (Hv p Hl)) as (s & -> & Hs & Hc). simpl.
    rewrite alive_checked by done. simpl. eexists. split; [done|]. case_bool_decide; set_solver.
  - eexists. split; [done|]. set_solver.
  - destruct Hl as [Hk Hf]. destruct (jumphash_range key (Z.of_nat (length (servers ps)))) as (i & -> & Hi);
      [done|lia|]. simpl. destruct (nth_server_ok (E:=E) h (servers ps) i Hv) as (p & s & -> & Hin & Hs & Hc); [lia|].
    simpl. rewrite alive_checked by done. simpl. case_bool_decide; [by eexists|].
    destruct (keys_fit_next (E:=E) n key Hk Hf) as (key' & -> & Hk'). by eexists.
  - destruct (nth_server_ok (E:=E) h (servers ps) 0 Hv) as (p & s & -> & Hin & _); [lia|]. by eexists.
  - destruct (deref_valid (E:=E) h p) as (s & -> & Hs & Hc); [apply Hv; set_solver|]. simpl.
    rewrite alive_checked by done. simpl. eexists. split; [done|]. case_bool_decide; set_solver.
Qed.

(** Without interference the looks of a pick are [pick]. *)
Lemma looks_first h ps rest fuel : (length rest < fuel)%nat →
  looks_alone (E:=E) fuel h ps (LookFirst rest)
  = Some (found ← first_alive h rest;
          match found with
          | Some p => Ok p
          | None => '(p, _) ← nth_server h (servers ps) 0; Ok p
          end).
Proof.
  revert fuel. induction rest as [|p rest IH]; intros [|fuel] Hf; simpl in Hf; try lia; cbn [looks_alone look_step].
  - cbn [mbind option_bind first_alive res_bind]. by destruct (nth_server h (servers ps) 0) as [[]| |].
  - cbn [mbind option_bind first_alive res_bind]. destruct (deref h p) as [s| |]; [|done..]. cbn [mbind res_bind].
    destruct (alive s) as [[]| |]; [done| |done..]. cbn [mbind res_bind]. by rewrite IH by lia.
Qed.

Lemma looks_etld h ps attempts key fuel : (attempts + length (servers ps) + 1 < fuel)%nat →
  looks_alone (E:=E) fuel h ps (LookEtld attempts key)
  = (found ← etld_loop attempts h (servers ps) key;
     Some (found ← found; match found with Some p => Ok p | None => fallback h ps end)).
Proof.
  revert key fuel. induction attempts as [|n IH]; intros key [|fuel] Hf; try lia; cbn [looks_alone look_step etld_loop].
  - cbn [mbind option_bind res_bind]. by rewrite looks_first by lia.
  - destruct (jumphash _ _) as [index|]; [|done]. cbn [mbind option_bind].
    destruct (nth_server h (servers ps) index) as [[p s]| |]; [|done..]. cbn [mbind res_bind].
    destruct (alive s) as [[]| |]; [done| |done..]. cbn [mbind res_bind].
    destruct (arith_u 64 (key + 1)) as [key'| |]; [|done..]. cbn [mbind res_bind]. apply IH. lia.
Qed.

Lemma looks_are_pick h ps host fuel : (length (servers ps) + 7 ≤ fuel)%nat →
  looks_alone (E:=E) fuel h ps (first_look etld1 lb host) = pick etld1 h ps lb host.
Proof.
  intros Hf. unfold first_look, pick. destruct lb; [|unfold by_etld; apply looks_etld; lia].
  destruct fuel as [|[|fuel]]; [lia..|]. cbn [looks_alone look_step]. unfold best.
  cbn [mbind option_bind]. destruct (nth_server h (servers ps) (Z.of_nat (best_index ps))) as [[p s]| |] eqn:En; [|done..].
  cbn [mbind res_bind looks_alone look_step].
  assert (deref (E:=E) h p = Ok s) as ->.
  { unfold nth_server in En. apply bind_Ok in En as (p' & _ & (s' & Hd & [= <- <-])%bind_Ok). done. }
  cbn [mbind res_bind option_bind]. destruct (alive s) as [[]| |]; [done| |done..]. cbn [mbind res_bind].
  by rewrite looks_first by lia.
Qed.
End look_proofs.

(** ** Heaps only grow, and servers stay checked *)

Definition heap_le (h h' : list Server) : Prop :=
  (length h ≤ length h')%nat ∧ ∀ p, valid h p → valid h' p.

Lemma heap_le_refl h : heap_le h h.
Proof. by split. Qed.

Lemma report_le now p h : heap_le h (alter (report_failure now) p h).
Proof. split; [by rewrite length_alter|]. intros q. by apply report_valid. Qed.

Lemma load_le h configs : heap_le h (load_peers h configs).1.
Proof.
  split; [simpl; rewrite length_app; lia|]. intros p (s & Hs & Hc). exists s. split; [|done].
  simpl. by apply lookup_app_l_Some.
Qed.

Lemma pool_ok_le h h' ps : heap_le h h' → pool_ok h ps → pool_ok h' ps.
Proof. intros [_ Hle] [??? ? Hv]. split; try done. intros p Hp. by apply Hle, Hv. Qed.

Lemma check_score_ok `{Profile} {E} now pr p h : prompt pr → (p < length h)%nat → histories h →
  ∃ h', check_update_score (E:=E) now pr p h = Ok h' ∧ heap_le h h' ∧ valid h' p ∧ histories h'.
Proof.
  intros Hp Hl Hh. unfold check_update_score. destruct (score_prompt (E:=E) pr Hp) as [-> _].
  destruct (lookup_lt_is_Some_2 h p Hl) as [s Hs]. unfold deref. rewrite Hs. simpl.
  set (s' := push_latency now (score_of pr) s). assert (checked s') as Hc by apply push_latency_checked.
  eexists. split; [done|]. assert (valid (<[p:=s']> h) p) as Hv.
  { exists s'. by rewrite list_lookup_insert_eq. }
  split_and!; [|done|].
  - split; [by rewrite length_insert|]. intros q (sq & Hq & Hcq). destruct (decide (q = p)) as [->|]; [done|].
    exists sq. by rewrite list_lookup_insert_ne.
  - apply Forall_insert; [done|]. apply push_latency_history. by eapply Forall_lookup_1 in Hh.
Qed.

(** ** The steps of a round *)

(** The servers of the list that are not to be checked any more have been; the comparison
    has gone through the first [index] of them. *)
Definition round_ok (h : list Server) (ps : list ptr) (r : Round) : Prop :=
  match r with
  | Probing todo =>
    todo ⊆ ps ∧ (∀ p, p ∈ ps → (p < length h)%nat) ∧ ∀ p, p ∈ ps → p ∈ todo ∨ valid h p
  | Choosing index rest bi _ =>
    rest ⊆ ps ∧ (index + length rest = length ps)%nat ∧ (bi < length ps)%nat ∧ ∀ p, p ∈ ps → valid h p
  end.

Lemma round_ok_le h h' ps r : heap_le h h' → round_ok h ps r → round_ok h' ps r.
Proof.
  intros [Hlen Hle]. destruct r as [todo|index rest bi bl]; simpl.
  - intros (Ht & Hp & Hv). split_and!; [done|intros p Hin; specialize (Hp p Hin); lia|].
    intros p Hin. destruct (Hv p Hin); auto.
  - intros (? & ? & ? & Hv). split_and!; auto.
Qed.

Definition round_event_ok (ev : RoundEvent) : Prop :=
  match ev with Probed _ _ pr => prompt pr | Compare => True end.

Lemma round_step_ok `{Profile} {E} ev ps h r x :
  ps ≠ [] → round_ok h ps r → histories h → round_event_ok ev →
  round_step (E:=E) ev ps h r = Some x →
  ∃ h' r', x = Ok (h', r') ∧ heap_le h h' ∧ histories h'
    ∧ match r' with
      | inl r => round_ok h' ps r
      | inr bi => (bi < length ps)%nat ∧ ∀ p, p ∈ ps → valid h' p
      end.
Proof.
  intros Hne Hr Hh Hev Hstep.
  destruct ev as [k now pr|], r as [todo|index rest bi bl]; cbn [round_step] in Hstep; [|done|..].
  - destruct (todo !! k) as [p|] eqn:Hk; [|done]. injection Hstep as <-. destruct Hr as (Ht & Hp & Hv).
    assert (p ∈ ps) as Hin by (apply Ht; by eapply list_elem_of_lookup_2).
    destruct (check_score_ok (E:=E) now pr p h Hev (Hp p Hin) Hh) as (h' & -> & [Hlen Hle] & Hvp & Hh').
    eexists h', _. split; [done|]. split; [done|]. split; [done|]. split_and!.
    + intros q Hq. apply Ht. rewrite (delete_Permutation todo k p Hk). by right.
    + intros q Hq. specialize (Hp q Hq). lia.
    + intros q Hq. destruct (Hv q Hq) as [Hq'|?]; [|auto].
      rewrite (delete_Permutation todo k p Hk) in Hq'. apply elem_of_cons in Hq' as [->|?]; auto.
  - destruct todo; [|done]. injection Hstep as <-. destruct Hr as (_ & _ & Hv). eexists h, _.
    split; [done|]. split; [apply heap_le_refl|]. split; [done|]. split_and!; [done|simpl; lia|destruct ps; [done|simpl; lia]|].
    intros p Hp. destruct (Hv p Hp) as [?%not_elem_of_nil|?]; done.
  - destruct Hr as (Ht & Hi & Hb & Hv). destruct rest as [|p rest]; injection Hstep as <-.
    + destruct (nth_server_ok (E:=E) h ps (Z.of_nat bi) Hv) as (p & s & -> & _); [lia|]. simpl.
      eexists h, _. split; [done|]. split; [apply heap_le_refl|done].
    + destruct (deref_valid (E:=E) h p) as (s & -> & Hs & Hc); [apply Hv, Ht; by left|]. simpl.
      rewrite latency_checked by done. simpl in *. eexists h, _. split; [done|].
      split; [apply heap_le_refl|]. split; [done|].
      repeat case_match; (split_and!; [set_solver|lia|lia|done]).
Qed.

(** *** A round that nobody interferes with is [check_once] *)

Fixpoint round_alone `{Profile} {E} (evs : list RoundEvent) (ps : list ptr) (h : list Server) (r : Round)
  : option (res E (list Server * (Round + nat))) :=
  match evs with
  | [] => Some (Ok (h, inl r))
  | ev :: evs =>
    x ← round_step ev ps h r;
    match x with
    | Ok (h, inl r) => round_alone evs ps h r
    | x => match evs with [] => Some x | _ => None end
    end
  end.

Section round_alone.
Context `{Profile} {E : Type}.

Lemma round_alone_app evs evs' ps h r h' r' :
  round_alone (E:=E) evs ps h r = Some (Ok (h', inl r')) →
  round_alone (E:=E) (evs ++ evs') ps h r = round_alone evs' ps h' r'.
Proof.
  revert h r. induction evs as [|ev evs IH]; intros h r; cbn [round_alone app]; [by intros [= -> ->]|].
  destruct (round_step ev ps h r) as [[[h1 [r1|bi]]| |]|]; cbn [mbind option_bind]; try done; [apply IH|..];
    by destruct evs.
Qed.

(** The checks in the order in which they finish. *)
Lemma probes_alone now probe order todo ps h h' : todo ≡ₚ order →
  run_checks (E:=E) now probe order h = Ok h' →
  ∃ evs, round_alone (E:=E) evs ps h (Probing todo) = Some (Ok (h', inl (Probing []))).
Proof.
  revert todo h. induction order as [|p order IH]; intros todo h Ho Hr.
  { apply Permutation_nil_r in Ho as ->. injection Hr as ->. by exists []. }
  assert (p ∈ todo) as [k Hk]%list_elem_of_lookup_1 by (rewrite Ho; by left).
  cbn [run_checks] in Hr. apply bind_Ok in Hr as (h1 & Hc & Hr).
  destruct (IH (delete k todo) h1) as [evs Hevs]; [|done|].
  { apply (inj (cons p)). by rewrite <- (delete_Permutation todo k p Hk). }
  exists (Probed k now (probe p) :: evs). cbn [round_alone round_step]. rewrite Hk. cbn [mbind option_bind].
  rewrite Hc. cbn [mbind res_bind]. done.
Qed.

Lemma compares_alone ps h rest index bi bl bi' : select_best (E:=E) h index rest bi bl = Ok bi' →
  (∃ p s, nth_server (E:=E) h ps (Z.of_nat bi') = Ok (p, s)) →
  round_alone (E:=E) (replicate (length rest + 1) Compare) ps h (Choosing index rest bi bl) = Some (Ok (h, inr bi')).
Proof.
  intros Hs (q & sq & Hn). revert index bi bl Hs. induction rest as [|p rest IH]; intros index bi bl Hs;
    cbn [select_best length Nat.add replicate round_alone round_step] in *.
  - injection Hs as ->. cbn [mbind option_bind]. by rewrite Hn.
  - apply bind_Ok in Hs as (s & Hd & (v & Hv & Hs)%bind_Ok). rewrite Hd. cbn [mbind option_bind res_bind].
    rewrite Hv. cbn [mbind option_bind res_bind]. destruct (v =? 0); [by apply IH|]. destruct (v <? bl); by apply IH.
Qed.

Lemma round_is_check_once now probe order h ps h' ps' : order ≡ₚ servers ps → servers ps ≠ [] →
  check_once (E:=E) now probe order h ps = Ok (h', ps') →
  ∃ evs, round_alone (E:=E) evs (servers ps) h (Probing (servers ps)) = Some (Ok (h', inr (best_index ps')))
    ∧ servers ps' = servers ps.
Proof.
  intros Ho Hne Hc. unfold check_once in Hc. destruct (servers ps) as [|p0 l] eqn:Eps; [done|]. rewrite <- Eps in *.
  apply bind_Ok in Hc as (h1 & Hr & (bi & Hb & ([q sq] & Hn & [= <- <-])%bind_Ok)%bind_Ok).
  destruct (probes_alone now probe order (servers ps) (servers ps) h h1) as [evs Hevs]; [by rewrite Ho|done|].
  exists (evs ++ Compare :: replicate (length (servers ps) + 1) Compare). split; [|done].
  rewrite (round_alone_app _ _ _ _ _ _ _ Hevs). cbn [round_alone round_step mbind option_bind].
  apply compares_alone; [done|by eexists _, _].
Qed.
End round_alone.

(** ** The invariant *)

Definition task_wants (t : TaskState) : option Mode :=
  match t with
  | Asking _ _ _ | Looking _ _ _ _ | StatsAsking | StatsReading _ _ => Some Shared
  | _ => None
  end.
Definition task_inside (t : TaskState) : Prop :=
  match t with Looking _ _ _ _ | StatsReading _ _ => True | _ => False end.

Section invariant.
Context `{Profile} {K : Type} `{!RwLock Who K} `{!RwLockOk Who K}.
Context (etld1 : bytes → option bytes) (lb : LoadBalanceType).
Implicit Types s : Sys K.

Definition wants s (w : Who) : option Mode :=
  match w with
  | Task i => sys_tasks s !! i ≫= task_wants
  | Checker => match sys_checker s with Sleeping => None | _ => Some Shared end
  | Reloader => match sys_reloader s with Replacing _ => Some Exclusive | _ => None end
  end.

Definition inside s (w : Who) : Prop :=
  match w with
  | Task i => from_option task_inside False (sys_tasks s !! i)
  | Checker => match sys_checker s with Checking _ => True | _ => False end
  | Reloader => False
  end.

(** A connection may pick for its host, and holds servers that exist and were checked,
    though maybe of a list that has been replaced; within a pick it sees the current list. *)
Definition task_ok (h : list Server) (ps : list ptr) (t : TaskState) : Prop :=
  match t with
  | Sniffing | StatsAsking | StatsEnded _ => True
  | Asking host _ more => pickable etld1 lb host ∧ (more < 5)%nat
  | Looking host _ more l => pickable etld1 lb host ∧ (more < 5)%nat ∧ look_ok ps l
  | Dialling host _ more p => pickable etld1 lb host ∧ (more < 5)%nat ∧ valid h p
  | Relaying _ _ p => valid h p
  | Ended r => match r with Ok p => valid h p | _ => True end
  | StatsReading rest _ => rest ⊆ ps
  end.

Definition checker_ok (h : list Server) (ps : list ptr) (c : CheckerState) : Prop :=
  match c with Checking r => round_ok h ps r | _ => True end.

(** The new list is one that can be put in force when its servers have been checked. *)
Definition reloader_ok (h : list Server) (r : ReloaderState) : Prop :=
  match r with
  | Idle => True
  | CheckingNew new r =>
    servers new ≠ [] ∧ Z.of_nat (length (servers new)) <= 2 ^ 31 ∧ NoDup (servers new)
    ∧ round_ok h (servers new) r
  | Replacing new => pool_ok h new
  end.

Record sys_ok s : Prop := {
  ok_pool : pool_ok (sys_heap s) (sys_peers s);
  ok_histories : histories (sys_heap s);
  ok_lock : lock_ok (sys_lock s) (wants s) (inside s);
  ok_tasks i t : sys_tasks s !! i = Some t → task_ok (sys_heap s) (servers (sys_peers s)) t;
  ok_checker : checker_ok (sys_heap s) (servers (sys_peers s)) (sys_checker s);
  ok_reloader : reloader_ok (sys_heap s) (sys_reloader s)
}.

Lemma task_ok_le h h' ps t : heap_le h h' → task_ok h ps t → task_ok h' ps t.
Proof. intros [_ Hle]. destruct t as [| | | | |[]| | |]; simpl; naive_solver. Qed.

Lemma reloader_ok_le h h' r : heap_le h h' → reloader_ok h r → reloader_ok h' r.
Proof.
  intros Hle. destruct r as [|new r|new]; simpl; [done| |by apply pool_ok_le].
  intros (? & ? & ? & ?). split_and!; [done..|by eapply round_ok_le].
Qed.

(** Someone changes servers. *)
Lemma sys_ok_heap s h' : sys_ok s → heap_le (sys_heap s) h' → histories h' → sys_ok (with_heap h' s).
Proof.
  intros [Hp Hh Hl Ht Hc Hr] Hle Hh'. split; simpl.
  - by eapply pool_ok_le.
  - done.
  - by eapply lock_ok_keep; [exact Hl|intros []|intros []; auto].
  - intros i t Hi. by eapply task_ok_le, Ht.
  - destruct (sys_checker s); simpl; [done..|]. by eapply round_ok_le.
  - by eapply reloader_ok_le.
Qed.

Lemma wants_put s i t t0 w : sys_tasks s !! i = Some t0 →
  wants (put i t s) w = if decide (w = Task i) then task_wants t else wants s w.
Proof.
  intros Hi. destruct w as [j| |]; simpl; [|done..]. destruct (decide (j = i)) as [->|Hne].
  - rewrite list_lookup_insert_eq by (by eapply lookup_lt_Some). by rewrite decide_True.
  - rewrite list_lookup_insert_ne by done. by rewrite decide_False by congruence.
Qed.

Lemma inside_put s i t t0 w : sys_tasks s !! i = Some t0 →
  inside (put i t s) w → w = Task i ∧ task_inside t ∨ w ≠ Task i ∧ inside s w.
Proof.
  intros Hi. destruct w as [j| |]; simpl; [|auto..]. destruct (decide (j = i)) as [->|Hne].
  - rewrite list_lookup_insert_eq by (by eapply lookup_lt_Some). auto.
  - rewrite list_lookup_insert_ne by done. right. split; [congruence|done].
Qed.

Lemma put_tasks_ok s i t : sys_ok s → task_ok (sys_heap s) (servers (sys_peers s)) t →
  ∀ j t', sys_tasks (put i t s) !! j = Some t' → task_ok (sys_heap s) (servers (sys_peers s)) t'.
Proof.
  intros Hok Ht j t'. simpl. intros [(<- & <- & _)|[_ Hj]]%list_lookup_insert_Some; [done|].
  by eapply ok_tasks.
Qed.

(** A task goes on and keeps what it has of the lock. *)
Lemma sys_ok_put s i t t0 : sys_ok s → sys_tasks s !! i = Some t0 → task_wants t = task_wants t0 →
  (task_inside t → has_guard (Task i) s = true) →
  task_ok (sys_heap s) (servers (sys_peers s)) t → sys_ok (put i t s).
Proof.
  intros Hok Hi Hw Hg Ht. destruct Hok as [Hp Hh Hl Hts Hc Hr] eqn:E. clear E.
  split; [done|done| |by apply put_tasks_ok|done..].
  eapply lock_ok_keep; [exact Hl| |].
  - intros w. rewrite (wants_put _ _ _ _ _ Hi). case_decide; [subst; simpl; by rewrite Hi|done].
  - intros w [[-> Hin]|[_ ?]]%(inside_put _ _ _ _ _ Hi); [right|by left].
    specialize (Hg Hin). by apply bool_decide_eq_true in Hg.
Qed.

(** A task asks for the lock. *)
Lemma sys_ok_put_ask s i t t0 : sys_ok s → sys_tasks s !! i = Some t0 → task_wants t0 = None →
  task_wants t = Some Shared → ¬ task_inside t → task_ok (sys_heap s) (servers (sys_peers s)) t →
  sys_ok (ask (Task i) Shared (put i t s)).
Proof.
  intros Hok Hi Hw0 Hw Hg Ht. destruct Hok as [Hp Hh Hl Hts Hc Hr] eqn:E. clear E.
  split; [done|done| |by apply put_tasks_ok|done..].
  eapply lock_ok_ask; [exact Hl|simpl; by rewrite Hi| |].
  - intros w. change (wants (ask _ _ ?x) w) with (wants x w). rewrite (wants_put _ _ _ _ _ Hi).
    case_decide; [done|]. done.
  - intros w Hin. change (inside (put i t s) w) in Hin.
    apply (inside_put _ _ _ _ _ Hi) in Hin as [[_ ?]|[_ ?]]; done.
Qed.

(** A task drops its guard. *)
Lemma sys_ok_put_drop s i t t0 : sys_ok s → sys_tasks s !! i = Some t0 → task_inside t0 →
  task_wants t = None → ¬ task_inside t → task_ok (sys_heap s) (servers (sys_peers s)) t →
  sys_ok (drop_guard (Task i) (put i t s)).
Proof.
  intros Hok Hi Hin0 Hw Hg Ht. destruct Hok as [Hp Hh Hl Hts Hc Hr] eqn:E. clear E.
  split; [done|done| |by apply put_tasks_ok|done..].
  eapply lock_ok_drop; [exact Hl| | |].
  - apply (lk_inside _ _ _ Hl). simpl. by rewrite Hi.
  - intros w. change (wants (drop_guard _ ?x) w) with (wants x w). rewrite (wants_put _ _ _ _ _ Hi).
    by case_decide.
  - intros w Hin. change (inside (put i t s) w) in Hin.
    apply (inside_put _ _ _ _ _ Hi) in Hin as [[_ ?]|[? ?]]; done.
Qed.
End invariant.

(** ** The steps keep the invariant *)

Section steps.
Context `{Profile} `{L : ConfigLib} `{M : Memchr} `{!MemchrOk M}.
Context {K : Type} `{!RwLock Who K} `{!RwLockOk Who K}.
Context (etld1 : bytes → option bytes) (lb : LoadBalanceType).
Implicit Types s : Sys K.
Abbreviation ok := (sys_ok etld1 lb).

(** A host that is sniffed can be picked for, a check comes to a result within the range of
    a latency, and the provider's list can be read without a panic and is not empty. *)
Definition label_ok (l : Label) : Prop :=
  match l with
  | Sniff _ peeked => ∀ host port, destination_addr peeked = Some (Ok (host, port)) → pickable etld1 lb host
  | CheckStep ev | ReloadStep ev => round_event_ok ev
  | Reloaded resp => answer_ok resp
  | _ => True
  end.

Lemma report_ok now p s : ok s → ok (report_server now p s).
Proof. intros Hok. apply sys_ok_heap; [done|apply report_le|]. apply report_histories. by eapply ok_histories. Qed.

Lemma attempt_ok i host port more s t0 : ok s → sys_tasks s !! i = Some t0 → task_wants t0 = None →
  pickable etld1 lb host → (more ≤ 5)%nat → ok (attempt i host port more s).
Proof.
  intros Hok Hi Hw Hp Hm. destruct more as [|more]; cbn [attempt].
  - by eapply sys_ok_put.
  - eapply sys_ok_put_ask; [done|exact Hi|done|done|by intros []|]. split; [done|lia].
Qed.

Lemma spawn_ok t s s' : ok s → task_ok etld1 lb (sys_heap s) (servers (sys_peers s)) t → ¬ task_inside t →
  s' = with_tasks (sys_tasks s ++ [t]) s →
  match task_wants t with
  | None => ok s'
  | Some m => ok (ask (Task (length (sys_tasks s))) m s')
  end.
Proof.
  intros Hok Ht Hin ->. set (s' := with_tasks _ s).
  assert (∀ w, wants s' w = if decide (w = Task (length (sys_tasks s))) then task_wants t else wants s w) as Hw.
  { intros [j| |]; simpl; [|done..]. destruct (decide (j = length (sys_tasks s))) as [->|Hne].
    - rewrite decide_True by done. by rewrite list_lookup_middle.
    - rewrite decide_False by congruence. destruct (decide (j < length (sys_tasks s))%nat).
      + by rewrite lookup_app_l.
      + rewrite !lookup_ge_None_2; [done|lia|rewrite length_app; simpl; lia]. }
  assert (∀ w, inside s' w → inside s w) as Hi.
  { intros [j| |]; simpl; [|done..]. destruct ((sys_tasks s ++ [t]) !! j) as [t'|] eqn:Ej; [|done].
    apply lookup_snoc_Some in Ej as [[_ ->]|[_ <-]]; [done|]. by intros ?%Hin. }
  assert (∀ j t', sys_tasks s' !! j = Some t' → task_ok etld1 lb (sys_heap s') (servers (sys_peers s')) t') as Hts.
  { intros j t' [[_ Hj]|[_ <-]]%lookup_snoc_Some; [exact (ok_tasks _ _ _ Hok _ _ Hj)|done]. }
  pose proof (ok_lock _ _ _ Hok) as Hl. destruct Hok as [? ? _ _ ? ?].
  destruct (task_wants t) as [m|]; (split; [done|done| |done..]).
  - eapply lock_ok_ask; [exact Hl| |exact Hw|exact Hi]. simpl. by rewrite lookup_ge_None_2.
  - eapply lock_ok_keep; [exact Hl| |auto]. intros w. rewrite Hw. case_decide; [subst|done].
    simpl. by rewrite lookup_ge_None_2.
Qed.

Lemma look_at_ok i s x : ok s → task_step etld1 lb (LookAt i) s = Some x → ∃ s', x = Ok s' ∧ ok s'.
Proof.
  intros Hok. cbn [task_step]. destruct (sys_tasks s !! i) as [[| |host port more l| | | | | |]|] eqn:Hi; try done.
  intros [= <-]. pose proof (ok_tasks _ _ _ Hok _ _ Hi) as (Hp & Hm & Hlk).
  destruct (look_step_ok (E:=RelayError) _ _ _ (ok_pool _ _ _ Hok) Hlk) as ([l'|p] & -> & Hr);
    (eexists; split; [done|]).
  - eapply sys_ok_put; [done|done|done| |by split_and!]. intros _. apply bool_decide_eq_true.
    apply (lk_inside _ _ _ (ok_lock _ _ _ Hok)). simpl. by rewrite Hi.
  - eapply sys_ok_put_drop; [done|exact Hi|done|done|by intros []|].
    split_and!; [done..|]. by apply (pool_valid _ _ (ok_pool _ _ _ Hok)).
Qed.

Lemma read_stat_ok i s x : ok s → task_step etld1 lb (ReadStat i) s = Some x → ∃ s', x = Ok s' ∧ ok s'.
Proof.
  intros Hok. cbn [task_step]. destruct (sys_tasks s !! i) as [[| | | | | | |[|p rest] stats|]|] eqn:Hi; try done;
    intros [= <-]; pose proof (ok_tasks _ _ _ Hok _ _ Hi) as Hsub; simpl in Hsub.
  - eexists. split; [done|]. eapply sys_ok_put_drop; [done|exact Hi|done|done|by intros []|done].
  - destruct (deref_valid (E:=RelayError) (sys_heap s) p) as (sv & -> & _).
    { apply (pool_valid _ _ (ok_pool _ _ _ Hok)). set_solver. }
    eexists. split; [done|]. eapply sys_ok_put; [done|done|done| |set_solver]. intros _. apply bool_decide_eq_true.
    apply (lk_inside _ _ _ (ok_lock _ _ _ Hok)). simpl. by rewrite Hi.
Qed.

Lemma task_step_ok l s x : ok s → label_ok l → task_step etld1 lb l s = Some x → ∃ s', x = Ok s' ∧ ok s'.
Proof.
  intros Hok Hl. destruct l as [|i peeked|i|i|i opened now|i proxied now| |i|i|
                               | | | | |]; try done; [..|by apply read_stat_ok]; [| | |by apply look_at_ok|..];
    cbn [task_step].
  - intros [= <-]. eexists. split; [done|]. apply (spawn_ok Sniffing s _ Hok); [done|by intros []|done].
  - destruct (sys_tasks s !! i) as [[]|] eqn:Hi; try done. intros [= <-].
    destruct (destination_addr peeked) as [[[host port]|e|]|] eqn:Ed;
      [|(eexists; split; [done|]; by eapply sys_ok_put)..|by destruct (sniffing_terminates peeked)].
    eexists. split; [done|]. apply (attempt_ok i host port 5 s Sniffing); [done|done|done|by eapply Hl|lia].
  - destruct (sys_tasks s !! i) as [[]|] eqn:Hi; try done. destruct (has_guard (Task i) s) eqn:Hg; [|done].
    intros [= <-]. eexists. split; [done|]. pose proof (ok_tasks _ _ _ Hok _ _ Hi) as [Hp Hm].
    eapply sys_ok_put; [done|done|done|done|]. split_and!; [done..|]. by apply first_look_ok.
  - destruct (sys_tasks s !! i) as [[]|] eqn:Hi; try done. intros [= <-]. eexists. split; [done|].
    pose proof (ok_tasks _ _ _ Hok _ _ Hi) as (Hp & Hm & Hv). destruct opened; [by eapply sys_ok_put| |by eapply sys_ok_put].
    eapply attempt_ok; [by apply report_ok|done|done|done|lia].
  - destruct (sys_tasks s !! i) as [[]|] eqn:Hi; try done. intros [= <-]. eexists. split; [done|].
    pose proof (ok_tasks _ _ _ Hok _ _ Hi) as Hv. destruct proxied; [by eapply sys_ok_put| |by eapply sys_ok_put].
    eapply sys_ok_put; [by apply report_ok|done|done|done|]. by apply report_valid.
  - intros [= <-]. eexists. split; [done|]. apply (spawn_ok StatsAsking s _ Hok); [done|by intros []|done].
  - destruct (sys_tasks s !! i) as [[]|] eqn:Hi; try done. destruct (has_guard (Task i) s) eqn:Hg; [|done].
    intros [= <-]. eexists. split; [done|]. eapply sys_ok_put; [done|done|done|done|]. simpl. set_solver.
Qed.

Lemma checker_inside s r : ok s → sys_checker s = Checking r → Checker ∈ (guards (sys_lock s)).*1.
Proof. intros Hok Hc. apply (lk_inside _ _ _ (ok_lock _ _ _ Hok)). simpl. by rewrite Hc. Qed.

(** The round of the current servers ends: the index of the best is stored. *)
Lemma checker_done s bi r : ok s → sys_checker s = Checking r →
  (bi < length (servers (sys_peers s)))%nat →
  ok (drop_guard Checker (with_checker Sleeping
        (with_peers {| servers := servers (sys_peers s); best_index := bi |} s))).
Proof.
  intros Hok Hc Hbi. pose proof (checker_inside s r Hok Hc) as Hg. destruct Hok as [[] Hh Hl Hts Hck Hr].
  split; simpl; [done|done| |done|done|done].
  eapply lock_ok_drop; [exact Hl|done|by intros []|]. by intros [].
Qed.

Lemma checker_step_ok l s x : ok s → label_ok l → checker_step l s = Some x → ∃ s', x = Ok s' ∧ ok s'.
Proof.
  intros Hok Hlab. destruct l as [| | | | | | | | | | |ev| | |]; try done;
    unfold checker_step; destruct (sys_checker s) as [| |r] eqn:Hc; try done.
  - intros [= <-]. eexists. split; [done|]. destruct Hok as [Hp Hh Hl Hts Hck Hr]. split; try done.
    eapply lock_ok_ask; [exact Hl|simpl; by rewrite Hc|by intros []|by intros []].
  - destruct (has_guard Checker s) eqn:Hg; [|done]. intros [= <-]. eexists. split; [done|].
    apply bool_decide_eq_true in Hg. pose proof (pool_ne _ _ (ok_pool _ _ _ Hok)) as Hne.
    destruct (servers (sys_peers s)) as [|p ps] eqn:Eps; [done|]. rewrite <- Eps. clear Eps Hne.
    destruct Hok as [Hp Hh Hl Hts Hck Hr]. split; simpl; try done.
    + eapply lock_ok_keep; [exact Hl|intros []; simpl; by rewrite ?Hc|]. intros []; simpl; auto.
    + split_and!; [set_solver| |by auto]. intros q Hq. by apply valid_pos, (pool_valid _ _ Hp).
  - destruct (round_step ev _ _ r) as [x'|] eqn:Es; [|done]. intros [= <-].
    pose proof (ok_checker _ _ _ Hok) as Hrd. rewrite Hc in Hrd.
    destruct (round_step_ok ev _ _ r x' (pool_ne _ _ (ok_pool _ _ _ Hok)) Hrd (ok_histories _ _ _ Hok) Hlab Es)
      as (h' & r' & -> & Hle & Hh' & Hr'). pose proof (sys_ok_heap _ _ s h' Hok Hle Hh') as Hok'.
    eexists. split; [done|]. destruct r' as [r'|bi].
    + destruct Hok' as [Hp Hh Hl Hts Hck Hr]. split; try done.
      eapply lock_ok_keep; [exact Hl|intros []; simpl; by rewrite ?Hc|].
      intros []; simpl; rewrite ?Hc; auto.
    + apply (checker_done (with_heap h' s) bi r Hok' Hc). by destruct Hr'.
Qed.

Lemma reloader_step_ok l s x : ok s → label_ok l → reloader_step l s = Some x → ∃ s', x = Ok s' ∧ ok s'.
Proof.
  intros Hok Hlab. destruct l as [| | | | | | | | | | | |resp|ev|]; try done;
    unfold reloader_step; destruct (sys_reloader s) as [|new r|new] eqn:Hc; try done.
  - intros [= <-]. unfold label_ok, answer_ok in Hlab.
    destruct (fetch resp) as [[configs|e|]|]; try done; [|by eexists].
    pose proof (load_le (sys_heap s) configs) as Hle.
    pose proof (sys_ok_heap _ _ s _ Hok Hle (load_histories _ configs (ok_histories _ _ _ Hok))) as Hok'.
    destruct Hlab as [Hne Hsm]. simpl in Hle, Hok' |- *. eexists. split; [done|].
    destruct (seq (length (sys_heap s)) (length configs)) as [|p ps] eqn:Eps; [by destruct configs|]. rewrite <- Eps.
    destruct Hok' as [Hp Hh Hl Hts Hck Hr]. split; try done.
    + eapply lock_ok_keep; [exact Hl|intros []; simpl; by rewrite ?Hc|]. intros []; simpl; auto.
    + simpl. split_and!; [by rewrite Eps|by rewrite length_seq|apply NoDup_seq|set_solver| |by auto].
      intros q Hq%elem_of_seq. rewrite length_app, length_fmap. lia.
  - destruct (round_step ev _ _ r) as [x'|] eqn:Es; [|done]. intros [= <-].
    pose proof (ok_reloader _ _ _ Hok) as Hrd. rewrite Hc in Hrd. destruct Hrd as (Hne & Hsm & Hnd & Hrd).
    destruct (round_step_ok ev _ _ r x' Hne Hrd (ok_histories _ _ _ Hok) Hlab Es)
      as (h' & r' & -> & Hle & Hh' & Hr'). pose proof (sys_ok_heap _ _ s h' Hok Hle Hh') as Hok'.
    destruct Hok' as [Hp Hh Hl Hts Hck Hr].
    eexists. split; [done|]. destruct r' as [r'|bi]; (split; try done).
    + eapply lock_ok_keep; [exact Hl|intros []; simpl; by rewrite ?Hc|]. intros []; simpl; auto.
    + eapply lock_ok_ask; [exact Hl|simpl; by rewrite Hc|by intros []|by intros []].
    + simpl. by destruct Hr'.
  - destruct (has_guard Reloader s) eqn:Hg; [|done]. intros [= <-]. eexists. split; [done|].
    apply bool_decide_eq_true in Hg. pose proof (ok_reloader _ _ _ Hok) as Hnew. rewrite Hc in Hnew.
    pose proof (ok_lock _ _ _ Hok) as Hl.
    assert (∀ w, ¬ inside s w) as Hnone.
    { intros w Hin. assert (w = Reloader) as ->; [|done].
      eapply lock_ok_alone; [exact Hl|exact Hg|simpl; by rewrite Hc|done]. }
    destruct Hok as [Hp Hh _ Hts Hck Hr]. split; try done; simpl.
    + eapply lock_ok_drop; [exact Hl|done|intros []; simpl; by rewrite ?Hc|].
      intros w Hin. exfalso. apply (Hnone w). by destruct w.
    + intros i t Hi. pose proof (Hts i t Hi) as Ht. specialize (Hnone (Task i)). simpl in Hnone. rewrite Hi in Hnone.
      destruct t; try done; by destruct Hnone.
    + specialize (Hnone Checker). simpl in Hnone. by destruct (sys_checker s).
Qed.

Lemma step_ok l s x : ok s → label_ok l → step etld1 lb l s = Some x → ∃ s', x = Ok s' ∧ ok s'.
Proof.
  intros Hok Hl. destruct l; first [by apply checker_step_ok|by apply reloader_step_ok|by apply task_step_ok].
Qed.

Lemma run_ok ls s x : ok s → Forall label_ok ls → run etld1 lb ls s = Some x → ∃ s', x = Ok s' ∧ ok s'.
Proof.
  intros Hok Hls. revert s Hok. induction Hls as [|l ls Hl _ IH]; intros s Hok; cbn [run].
  - intros [= <-]. by eexists.
  - destruct (step etld1 lb l s) as [x'|] eqn:Es; [|done].
    destruct (step_ok l s x' Hok Hl Es) as (s' & -> & Hok'). by apply IH.
Qed.

Lemma init_ok w : pool_wf w → ok (sys_init w).
Proof.
  intros [Hp Hh]. split; try done. eapply lock_ok_keep; [apply lock_ok_new|by intros []|by intros []].
Qed.
End steps.

(** ** Work *)

(** The most steps that are left to a pick, a task, a round, when the lists that are in
    force or may come in force have [m] servers. *)
Definition look_work (m : nat) (l : Look) : nat :=
  match l with
  | LoadBest => m + 3
  | LookBest _ => m + 2
  | LookEtld attempts _ => attempts + m + 2
  | LookFirst rest => length rest + 1
  end.

Definition task_work (m : nat) (t : TaskState) : nat :=
  match t with
  | Sniffing => 2 + 5 * (m + 12)
  | Asking _ _ more => 2 + more * (m + 12) + (m + 8)
  | Looking _ _ more l => 2 + more * (m + 12) + look_work m l
  | Dialling _ _ more _ => 2 + more * (m + 12)
  | Relaying _ _ _ => 1
  | Ended _ | StatsEnded _ => 0
  | StatsAsking => m + 2
  | StatsReading rest _ => length rest + 1
  end.

Definition round_work (m : nat) (r : Round) : nat :=
  match r with
  | Probing todo => length todo + m + 3
  | Choosing _ rest _ _ => length rest + 1
  end.

Definition checker_work (m : nat) (c : CheckerState) : nat :=
  match c with Sleeping => 0 | Waiting => m + m + 5 | Checking r => round_work m r end.

Definition reloader_work (m : nat) (r : ReloaderState) : nat :=
  match r with Idle => 0 | CheckingNew _ r => round_work m r + 1 | Replacing _ => 1 end.

Definition new_servers (r : ReloaderState) : nat :=
  match r with Idle => 0 | CheckingNew new _ | Replacing new => length (servers new) end.

Definition width {K} (s : Sys K) : nat := length (servers (sys_peers s)) + new_servers (sys_reloader s).

Definition tasks_work (m : nat) (ts : list TaskState) : nat := sum_list_with (task_work m) ts.

Definition work {K} (s : Sys K) : nat :=
  tasks_work (width s) (sys_tasks s) + checker_work (width s) (sys_checker s)
  + reloader_work (width s) (sys_reloader s).

(** Steps that bring no new work: no client comes, nobody asks for statistics, and the tasks
    that check and reload sleep on. *)
Definition quiet (l : Label) : Prop :=
  match l with Accept | AskStats | CheckWake | Reloaded _ => False | _ => True end.

Definition ended (t : TaskState) : Prop :=
  match t with Ended _ | StatsEnded _ => True | _ => False end.

Global Instance ended_dec t : Decision (ended t).
Proof. destruct t; simpl; apply _. Defined.

(** Every connection has come to its end, and nobody holds or waits for the lock. *)
Definition at_rest {K} (s : Sys K) : Prop :=
  Forall ended (sys_tasks s) ∧ sys_checker s = Sleeping ∧ sys_reloader s = Idle.

Lemma look_work_mono m m' l : (m ≤ m')%nat → (look_work m l ≤ look_work m' l)%nat.
Proof. destruct l; simpl; lia. Qed.

Lemma task_work_mono m m' t : (m ≤ m')%nat → (task_work m t ≤ task_work m' t)%nat.
Proof.
  intros Hm. assert (∀ k, k * (m + 12) ≤ k * (m' + 12))%nat as Hk by (intros k; apply Nat.mul_le_mono_l; lia).
  destruct t as [|? ? more|? ? more l|? ? more ?| | | | |]; cbn [task_work]; try lia; specialize (Hk more); [lia| |lia].
  pose proof (look_work_mono m m' l Hm). lia.
Qed.

Lemma tasks_work_mono m m' ts : (m ≤ m')%nat → (tasks_work m ts ≤ tasks_work m' ts)%nat.
Proof.
  intros Hm. unfold tasks_work. induction ts as [|t ts IH]; [done|]. simpl.
  pose proof (task_work_mono m m' t Hm). lia.
Qed.

Lemma checker_work_mono m m' c : (m ≤ m')%nat → (checker_work m c ≤ checker_work m' c)%nat.
Proof. intros Hm. destruct c as [| |[]]; simpl; lia. Qed.

Lemma tasks_work_put m ts i t t0 : ts !! i = Some t0 → (task_work m t < task_work m t0)%nat →
  (tasks_work m (<[i:=t]> ts) < tasks_work m ts)%nat.
Proof.
  unfold tasks_work. revert i. induction ts as [|t1 ts IH]; intros [|i] Hi Ht; try done; simpl in *.
  - injection Hi as ->. lia.
  - specialize (IH i Hi Ht). lia.
Qed.

Section work_proofs.
Context `{Profile} {K : Type} `{!RwLock Who K} `{L : ConfigLib} `{M : Memchr}.
Context (etld1 : bytes → option bytes) (lb : LoadBalanceType).
Implicit Types s : Sys K.

Lemma work_put s s' i t t0 : sys_tasks s !! i = Some t0 → (task_work (width s) t < task_work (width s) t0)%nat →
  sys_tasks s' = <[i:=t]> (sys_tasks s) → sys_peers s' = sys_peers s →
  sys_checker s' = sys_checker s → sys_reloader s' = sys_reloader s → (work s' < work s)%nat.
Proof.
  intros Hi Ht Hts Hp Hc Hr. unfold work, width in *. rewrite Hts, Hp, Hc, Hr.
  pose proof (tasks_work_put _ _ i t t0 Hi Ht). lia.
Qed.

Lemma work_attempt s i host port more t0 now p : sys_tasks s !! i = Some t0 →
  (2 + more * (width s + 12) ≤ task_work (width s) t0)%nat →
  (work (attempt i host port more s) < work s)%nat
  ∧ (work (attempt i host port more (report_server now p s)) < work s)%nat.
Proof.
  intros Hi Ht. destruct more as [|more]; (split; (eapply work_put; [exact Hi| |done..]; simpl in *; lia)).
Qed.

Lemma look_step_work {E} h ps l r m : look_step (E:=E) h ps l = Some (Ok r) →
  (length (servers ps) ≤ m)%nat →
  match r with inl l' => (look_work m l' < look_work m l)%nat | inr _ => (0 < look_work m l)%nat end.
Proof.
  intros Hs Hm. destruct r as [l'|p]; [|destruct l; simpl; lia].
  destruct l as [|p|[|n] key|[|p rest]]; cbn [look_step] in Hs.
  - injection Hs as ([p s] & _ & [= <-])%bind_Ok. simpl. lia.
  - injection Hs as (s & _ & (a & _ & Hr)%bind_Ok)%bind_Ok. destruct a; [done|]. injection Hr as <-. simpl. lia.
  - injection Hs as <-. simpl. lia.
  - destruct (jumphash _ _); [|done]. injection Hs as ([p s] & _ & (a & _ & Hr)%bind_Ok)%bind_Ok.
    destruct a; [done|]. apply bind_Ok in Hr as (key' & _ & [= <-]). simpl. lia.
  - by injection Hs as ([p s] & _ & Hr)%bind_Ok.
  - injection Hs as (s & _ & (a & _ & Hr)%bind_Ok)%bind_Ok. destruct a; [done|]. injection Hr as <-. simpl. lia.
Qed.

Lemma round_step_work {E} ev ps h r h' r' m : round_step (E:=E) ev ps h r = Some (Ok (h', r')) →
  (length ps ≤ m)%nat →
  match r' with inl r' => (round_work m r' < round_work m r)%nat | inr _ => (0 < round_work m r)%nat end.
Proof.
  intros Hs Hm. destruct ev as [k now pr|], r as [todo|index rest bi bl]; cbn [round_step] in Hs; try done.
  - destruct (todo !! k) as [p|] eqn:Hk; [|done]. injection Hs as (h1 & _ & [= _ <-])%bind_Ok.
    simpl. rewrite length_delete by eauto. apply lookup_lt_Some in Hk. lia.
  - destruct todo; [|done]. injection Hs as _ <-. simpl. lia.
  - destruct rest as [|p rest].
    + injection Hs as ([p s] & _ & [= _ <-])%bind_Ok. simpl. lia.
    + injection Hs as (s & _ & (v & _ & [= _ <-])%bind_Ok)%bind_Ok. repeat case_match; simpl; lia.
Qed.

Lemma task_step_work l s s' : quiet l → task_step etld1 lb l s = Some (Ok s') → (work s' < work s)%nat.
Proof.
  intros Hq Hs. assert (length (servers (sys_peers s)) ≤ width s)%nat as Hw by (unfold width; lia).
  destruct l as [|i peeked|i|i|i opened now|i proxied now| |i|i| | | | | |]; try done; cbn [task_step] in Hs;
    destruct (sys_tasks s !! i) as [t|] eqn:Hi; try done.
  - destruct t; try done. injection Hs as Hs.
    destruct (destination_addr peeked) as [[[host port]|e|]|]; [|injection Hs as <-..|done].
    + apply Ok_inj in Hs as <-. by apply (work_attempt s i host port 5 Sniffing 0 0).
    + eapply work_put; [exact Hi| |done..]. simpl. lia.
    + eapply work_put; [exact Hi| |done..]. simpl. lia.
  - destruct t as [|host port more| | | | | | |]; try done. destruct (has_guard _ _); [|done]. injection Hs as <-.
    eapply work_put; [exact Hi| |done..]. unfold first_look. destruct lb; cbn [task_work look_work]; lia.
  - destruct t as [| |host port more l| | | | | |]; try done. injection Hs as Hs.
    destruct (look_step _ _ l) as [[[l'|p]|e|]|] eqn:El; try done;
      apply (look_step_work _ _ _ _ (width s)) in El; try done; cbn beta iota in El; apply Ok_inj in Hs as <-;
      (eapply work_put; [exact Hi| |done..]); cbn [task_work]; lia.
  - destruct t as [| | |host port more p| | | | |]; try done. injection Hs as <-. destruct opened.
    + eapply work_put; [exact Hi| |done..]. simpl. lia.
    + by apply (work_attempt s i host port more (Dialling host port more p) now p).
    + eapply work_put; [exact Hi| |done..]. simpl. lia.
  - destruct t as [| | | |host port p| | | |]; try done. injection Hs as <-.
    destruct proxied; (eapply work_put; [exact Hi| |done..]); simpl; lia.
  - destruct t; try done. destruct (has_guard _ _); [|done]. injection Hs as <-.
    eapply work_put; [exact Hi| |done..]. simpl. lia.
  - destruct t as [| | | | | | |[|p rest] stats|]; try done; injection Hs as Hs.
    + subst s'. eapply work_put; [exact Hi| |done..]. simpl. lia.
    + apply bind_Ok in Hs as (svr & _ & [= <-]). eapply work_put; [exact Hi| |done..]. simpl. lia.
Qed.

Lemma work_checker s s' : sys_tasks s' = sys_tasks s → sys_reloader s' = sys_reloader s →
  servers (sys_peers s') = servers (sys_peers s) →
  (checker_work (width s) (sys_checker s') < checker_work (width s) (sys_checker s))%nat →
  (work s' < work s)%nat.
Proof. intros Ht Hr Hp Hc. unfold work, width in *. rewrite Ht, Hr, Hp. lia. Qed.

Lemma checker_step_work l s s' : quiet l → checker_step l s = Some (Ok s') → (work s' < work s)%nat.
Proof.
  intros Hq Hs. assert (length (servers (sys_peers s)) ≤ width s)%nat as Hw by (unfold width; lia).
  destruct l as [| | | | | | | | | | |ev| | |]; try done; unfold checker_step in Hs;
    destruct (sys_checker s) as [| |r] eqn:Hc; try done.
  - destruct (has_guard _ _); [|done]. injection Hs as <-.
    apply work_checker; destruct (servers (sys_peers s)) eqn:Eps; try done; rewrite Hc; simpl in *; lia.
  - destruct (round_step ev _ _ r) as [x|] eqn:Er; [|done]. injection Hs as ([h' r'] & -> & Hs)%bind_Ok.
    apply (round_step_work _ _ _ _ _ _ (width s)) in Er; [|done]. injection Hs as <-.
    apply work_checker; destruct r'; try done; by rewrite Hc.
Qed.

Lemma work_reloader s s' : sys_tasks s' = sys_tasks s → sys_checker s' = sys_checker s →
  (width s' ≤ width s)%nat →
  (reloader_work (width s') (sys_reloader s') < reloader_work (width s) (sys_reloader s))%nat →
  (work s' < work s)%nat.
Proof.
  intros Ht Hc Hw Hr. unfold work. rewrite Ht, Hc. pose proof (tasks_work_mono _ _ (sys_tasks s) Hw).
  pose proof (checker_work_mono _ _ (sys_checker s) Hw). lia.
Qed.

Lemma reloader_step_work l s s' : quiet l → reloader_step l s = Some (Ok s') → (work s' < work s)%nat.
Proof.
  intros Hq Hs. destruct l as [| | | | | | | | | | | |resp|ev|]; try done; unfold reloader_step in Hs;
    destruct (sys_reloader s) as [|new r|new] eqn:Hc; try done.
  - destruct (round_step ev _ _ r) as [x|] eqn:Er; [|done]. injection Hs as ([h' r'] & -> & Hs)%bind_Ok.
    assert (width s = length (servers (sys_peers s)) + length (servers new))%nat as Hw by (unfold width; by rewrite Hc).
    apply (round_step_work _ _ _ _ _ _ (width s)) in Er; [|lia]. injection Hs as <-.
    match goal with |- (work ?s1 < _)%nat => set (s' := s1) end.
    assert (width s' = width s) as Hw' by (rewrite Hw; by destruct r').
    apply work_reloader; [by destruct r'..|by rewrite Hw'|]. rewrite Hw', Hc. subst s'.
    destruct r'; cbn -[round_work]; lia.
  - destruct (has_guard _ _); [|done]. injection Hs as <-.
    apply work_reloader; try done; [|rewrite Hc; simpl; lia]. unfold width. rewrite Hc. simpl. lia.
Qed.

Lemma step_work l s s' : quiet l → step etld1 lb l s = Some (Ok s') → (work s' < work s)%nat.
Proof.
  intros Hq. destruct l; first [by apply checker_step_work|by apply reloader_step_work|by apply task_step_work].
Qed.

Lemma run_work ls s s' : Forall quiet ls → run etld1 lb ls s = Some (Ok s') → (length ls + work s' ≤ work s)%nat.
Proof.
  intros Hq. revert s. induction Hq as [|l ls Hl _ IH]; intros s; cbn [run].
  - by intros [= ->].
  - destruct (step etld1 lb l s) as [[s1| |]|] eqn:Es; try done. cbn [mbind option_bind]. intros Hr%IH.
    pose proof (step_work l s s1 Hl Es). simpl. lia.
Qed.
End work_proofs.

(** ** Progress *)

Section progress.
Context `{Profile} `{L : ConfigLib} `{M : Memchr} `{!MemchrOk M}.
Context {K : Type} `{!RwLock Who K} `{!RwLockOk Who K}.
Context (etld1 : bytes → option bytes) (lb : LoadBalanceType).
Implicit Types s : Sys K.
Abbreviation ok := (sys_ok etld1 lb).

(** A label that brings no new work and can happen. *)
Definition can_go s : Prop :=
  ∃ l, quiet l ∧ label_ok etld1 lb l ∧ is_Some (step etld1 lb l s).

Definition prompt_probe : Probe := {| took := 0; probe_result := Some (Ok ()) |}.

Lemma round_enabled ps h r : ∃ ev, round_event_ok ev ∧ is_Some (round_step (E:=RelayError) ev ps h r).
Proof.
  destruct r as [[|p todo]|index [|p rest] bi bl]; [by exists Compare; split|..|by exists Compare; split|by exists Compare; split].
  exists (Probed 0 0 prompt_probe). split; [split; [simpl; lia|done]|]. by eexists.
Qed.

(** Who has a guard can go on. *)
Lemma holder_goes s w : ok s → w ∈ (guards (sys_lock s)).*1 → can_go s.
Proof.
  intros Hok Hg. destruct (lock_ok_guard _ _ _ w (ok_lock _ _ _ Hok) Hg) as [m Hm].
  assert (has_guard w s = true) as Hh by (by apply bool_decide_eq_true).
  destruct w as [i| |]; simpl in Hm.
  - destruct (sys_tasks s !! i) as [t|] eqn:Hi; [|done].
    destruct t as [| | | | | | |rest stats|]; try done;
      [exists (Enter i)|exists (LookAt i)|exists (EnterStats i)|exists (ReadStat i)]; (split; [done|split; [done|]]);
      simpl; rewrite Hi, ?Hh; try by eexists. by destruct rest.
  - destruct (sys_checker s) as [| |r] eqn:Hc; [done|..].
    + exists CheckEnter. split; [done|]. split; [done|]. unfold step, checker_step. rewrite Hc, Hh. by eexists.
    + destruct (round_enabled (servers (sys_peers s)) (sys_heap s) r) as (ev & Hev & x & Hx).
      exists (CheckStep ev). split; [done|]. split; [done|]. unfold step, checker_step. rewrite Hc, Hx. by eexists.
  - destruct (sys_reloader s) as [| |new] eqn:Hc; try done. exists ReloadSwap. split; [done|]. split; [done|].
    unfold step, reloader_step. rewrite Hc, Hh. by eexists.
Qed.

Lemma task_goes s i t : ok s → sys_tasks s !! i = Some t → ¬ ended t → can_go s.
Proof.
  intros Hok Hi He. destruct (task_wants t) as [m|] eqn:Hw.
  { destruct (lock_ok_someone _ _ _ (Task i) m (ok_lock _ _ _ Hok)) as [w Hg]; [simpl; by rewrite Hi|].
    by apply (holder_goes s w). }
  destruct t; try done.
  - exists (Sniff i (Err OtherError)). split; [done|]. split; [done|]. simpl. rewrite Hi. by eexists.
  - exists (Dial i (Ok ()) 0). split; [done|]. split; [done|]. simpl. rewrite Hi. by eexists.
  - exists (Finish i (Ok ()) 0). split; [done|]. split; [done|]. simpl. rewrite Hi. by eexists.
Qed.

Lemma rest_or_go s : ok s → at_rest s ∨ can_go s.
Proof.
  intros Hok. destruct (decide (Forall ended (sys_tasks s))) as [Hall|Hex].
  2: { right. apply (not_Forall_Exists _), list.Exists_exists in Hex. destruct Hex as (t & (i & Hi)%list_elem_of_lookup_1 & He). by eapply task_goes. }
  destruct (sys_checker s) as [| |r] eqn:Hc.
  2,3: right; destruct (lock_ok_someone _ _ _ Checker Shared (ok_lock _ _ _ Hok)) as [w Hg];
    [simpl; by rewrite Hc|by apply (holder_goes s w)].
  destruct (sys_reloader s) as [|new r|new] eqn:Hr; [by left|right..].
  - destruct (round_enabled (servers new) (sys_heap s) r) as (ev & Hev & x & Hx).
    exists (ReloadStep ev). split; [done|]. split; [done|]. unfold step, reloader_step. rewrite Hr, Hx. by eexists.
  - destruct (lock_ok_someone _ _ _ Reloader Exclusive (ok_lock _ _ _ Hok)) as [w Hg];
      [simpl; by rewrite Hr|by apply (holder_goes s w)].
Qed.
End progress.

(** ** The attempts of a connection *)

Inductive Outcome := Opens | Refuses | Crashes.

Definition outcome_of_dial (r : res ErrorKind ()) : Outcome :=
  match r with Ok _ => Opens | Err _ => Refuses | Panic => Crashes end.

(** The outcomes of the attempts of task [i] in a schedule. *)
Definition dialled (i : nat) (l : Label) : list Outcome :=
  match l with
  | Dial j opened _ => if decide (j = i) then [outcome_of_dial opened] else []
  | _ => []
  end.
Definition dials (i : nat) (ls : list Label) : list Outcome := ls ≫= dialled i.

(** Where a task is after attempts with these outcomes. *)
Definition attempted (t : TaskState) (outcomes : list Outcome) : Prop :=
  match t with
  | Asking _ _ more | Looking _ _ more _ | Dialling _ _ more _ =>
    (more < 5)%nat ∧ outcomes = replicate (4 - more) Refuses
  | Relaying _ _ _ | Ended (Ok _) => ∃ n, (n < 5)%nat ∧ outcomes = replicate n Refuses ++ [Opens]
  | Ended (Err NoProxy) => outcomes = replicate 5 Refuses
  | Ended Panic => outcomes = [] ∨ ∃ n o, (n < 5)%nat ∧ o ≠ Refuses ∧ outcomes = replicate n Refuses ++ [o]
  | Sniffing | Ended _ | StatsAsking | StatsReading _ _ | StatsEnded _ => outcomes = []
  end.

Section attempts.
Context `{Profile} `{L : ConfigLib} `{M : Memchr} {K : Type} `{!RwLock Who K}.
Context (etld1 : bytes → option bytes) (lb : LoadBalanceType).
Implicit Types s : Sys K.

(** The outcomes so far, [f i] those of the task [i]. *)
Definition all_attempted (f : nat → list Outcome) s : Prop :=
  ∀ i, match sys_tasks s !! i with Some t => attempted t (f i) | None => f i = [] end.

Lemma attempted_ext f f' s s' : all_attempted f s → sys_tasks s' = sys_tasks s →
  (∀ i, f' i = f i) → all_attempted f' s'.
Proof. intros Hf Hts Hf' i. rewrite Hts, Hf'. apply Hf. Qed.

Lemma attempted_put f f' s s' i t t0 : all_attempted f s → sys_tasks s !! i = Some t0 →
  sys_tasks s' = <[i:=t]> (sys_tasks s) → attempted t (f' i) → (∀ j, j ≠ i → f' j = f j) → all_attempted f' s'.
Proof.
  intros Hf Hi Hts Ht Hf' j. rewrite Hts. destruct (decide (j = i)) as [->|Hne].
  - by rewrite list_lookup_insert_eq by (by eapply lookup_lt_Some).
  - rewrite list_lookup_insert_ne by done. rewrite Hf' by done. apply Hf.
Qed.

Lemma attempted_attempt f s i host port more : (more ≤ 5)%nat → is_Some (sys_tasks s !! i) →
  f i = replicate (5 - more) Refuses →
  (∀ j, j ≠ i → match sys_tasks s !! j with Some t => attempted t (f j) | None => f j = [] end) →
  all_attempted f (attempt i host port more s).
Proof.
  intros Hm [t0 Hi] Hf Hrest j. assert (i < length (sys_tasks s))%nat by (by eapply lookup_lt_Some).
  destruct more as [|more]; simpl; (destruct (decide (j = i)) as [->|Hne];
    [rewrite list_lookup_insert_eq by done|rewrite list_lookup_insert_ne by done; by apply Hrest]).
  - done.
  - split; [lia|]. rewrite Hf. f_equal.
Qed.

Lemma attempted_spawn f s s' t : all_attempted f s → sys_tasks s' = sys_tasks s ++ [t] →
  attempted t [] → all_attempted f s'.
Proof.
  intros Hf Hts Ht i. rewrite Hts. specialize (Hf i). destruct ((sys_tasks s ++ [t]) !! i) as [t'|] eqn:Hi.
  - apply lookup_snoc_Some in Hi as [[_ Hi]|[-> <-]]; [by rewrite Hi in Hf|].
    rewrite lookup_ge_None_2 in Hf by lia. by rewrite Hf.
  - apply lookup_ge_None in Hi. rewrite length_app in Hi. by rewrite lookup_ge_None_2 in Hf by lia.
Qed.

Lemma checker_tasks l s s' : checker_step l s = Some (Ok s') → sys_tasks s' = sys_tasks s.
Proof.
  intros Hs. destruct l; try done; unfold checker_step in Hs; destruct (sys_checker s); try done.
  - by injection Hs as <-.
  - destruct (has_guard _ _); [|done]. injection Hs as <-. by destruct (servers _).
  - destruct (round_step _ _ _ _); [|done]. injection Hs as ([h' r'] & _ & [= <-])%bind_Ok. by destruct r'.
Qed.

Lemma reloader_tasks l s s' : reloader_step l s = Some (Ok s') → sys_tasks s' = sys_tasks s.
Proof.
  intros Hs. destruct l as [| | | | | | | | | | | |resp|ev|]; try done; unfold reloader_step in Hs;
    destruct (sys_reloader s); try done.
  - injection Hs as Hs. destruct (fetch resp) as [[configs| |]|]; try done; simpl in Hs;
      apply Ok_inj in Hs as <-; [|done]. by destruct (seq _ _).
  - destruct (round_step _ _ _ _); [|done]. injection Hs as ([h' r'] & _ & [= <-])%bind_Ok. by destruct r'.
  - destruct (has_guard _ _); [|done]. by injection Hs as <-.
Qed.

Lemma dial_attempted f i opened now s s' : all_attempted f s →
  task_step etld1 lb (Dial i opened now) s = Some (Ok s') →
  all_attempted (λ j, f j ++ dialled j (Dial i opened now)) s'.
Proof.
  intros Hf Hs. specialize (Hf i) as Ht. cbn [task_step] in Hs.
  destruct (sys_tasks s !! i) as [[| | |host port more p| | | | |]|] eqn:Hi; try done.
  injection Hs as <-. destruct Ht as [Hm Hfi]. destruct opened.
  - eapply attempted_put; [exact Hf|exact Hi|done| |].
    + simpl. rewrite decide_True by done. exists (4 - more)%nat. rewrite Hfi. split; [lia|done].
    + intros j Hne. simpl. rewrite decide_False by done. by rewrite app_nil_r.
  - apply attempted_attempt; [lia|by eexists| |].
    + simpl. rewrite decide_True, Hfi by done. change [Refuses] with (replicate 1 Refuses).
      rewrite <- replicate_add. f_equal. lia.
    + intros j Hne. simpl. rewrite decide_False by done. rewrite app_nil_r. apply Hf.
  - eapply attempted_put; [exact Hf|exact Hi|done| |].
    + simpl. rewrite decide_True by done. right. exists (4 - more)%nat, Crashes. rewrite Hfi.
      split; [lia|done].
    + intros j Hne. simpl. rewrite decide_False by done. by rewrite app_nil_r.
Qed.

(** A step that is not an attempt leaves the number of attempts of its task as it is. *)
Lemma task_step_attempted f l s s' : all_attempted f s → (∀ i, dialled i l = []) →
  task_step etld1 lb l s = Some (Ok s') → all_attempted f s'.
Proof.
  intros Hf Hd Hs. destruct l as [|i peeked|i|i|i opened now|i proxied now| |i|i| | | | | |]; try done;
    cbn [task_step] in Hs; try (specialize (Hf i) as Ht; destruct (sys_tasks s !! i) as [[]|] eqn:Hi; try done).
  - injection Hs as <-. by eapply attempted_spawn.
  - injection Hs as Hs. destruct (destination_addr peeked) as [[[host port]|e|]|]; [| | |done]; apply Ok_inj in Hs as <-.
    + apply (attempted_attempt f s i host port 5); [lia|by eexists|done|]. intros j _. apply Hf.
    + by eapply attempted_put; [exact Hf|exact Hi|..].
    + eapply attempted_put; [exact Hf|exact Hi|done|by left|done].
  - destruct (has_guard _ _); [|done]. injection Hs as <-. by eapply attempted_put; [exact Hf|exact Hi|..].
  - injection Hs as Hs. destruct (look_step _ _ _) as [[[l'|p]|e|]|]; try done; apply Ok_inj in Hs as <-;
      by eapply attempted_put; [exact Hf|exact Hi|..].
  - specialize (Hd i). simpl in Hd. by rewrite decide_True in Hd.
  - injection Hs as <-. destruct proxied; [by eapply attempted_put; [exact Hf|exact Hi|..]..|].
    eapply attempted_put; [exact Hf|exact Hi|done| |done]. destruct Ht as (n & ? & ?). right. by exists n, Opens.
  - injection Hs as <-. by eapply attempted_spawn.
  - destruct (has_guard _ _); [|done]. injection Hs as <-. by eapply attempted_put; [exact Hf|exact Hi|..].
  - destruct rest as [|p rest]; injection Hs as Hs.
    + subst s'. by eapply attempted_put; [exact Hf|exact Hi|..].
    + apply bind_Ok in Hs as (svr & _ & [= <-]). by eapply attempted_put; [exact Hf|exact Hi|..].
Qed.

Lemma step_attempted f l s s' : all_attempted f s → step etld1 lb l s = Some (Ok s') →
  all_attempted (λ i, f i ++ dialled i l) s'.
Proof.
  intros Hf Hs. assert ((∀ i, dialled i l = []) → all_attempted f s' → all_attempted (λ i, f i ++ dialled i l) s') as Hnil.
  { intros Hd Hf'. eapply attempted_ext; [exact Hf'|done|]. intros i. by rewrite Hd, app_nil_r. }
  assert ((∀ i, dialled i l = []) → task_step etld1 lb l s = Some (Ok s') → all_attempted f s') as Htask
    by (by apply task_step_attempted).
  assert (sys_tasks s' = sys_tasks s → all_attempted f s') as Hsame.
  { intros Hts. by eapply attempted_ext. }
  destruct l; cbn [step] in Hs; try (by apply Hnil; [|apply Htask]).
  1: by eapply dial_attempted.
  1-3: apply Hnil; [done|]; by eapply Hsame, checker_tasks.
  all: apply Hnil; [done|]; by eapply Hsame, reloader_tasks.
Qed.

Lemma run_attempted f ls s s' : all_attempted f s → run etld1 lb ls s = Some (Ok s') →
  all_attempted (λ i, f i ++ dials i ls) s'.
Proof.
  revert f s. induction ls as [|l ls IH]; intros f s Hf; cbn [run].
  - intros [= ->]. eapply attempted_ext; [exact Hf|done|]. intros i. apply app_nil_r.
  - destruct (step etld1 lb l s) as [[s1| |]|] eqn:Es; try done. cbn [mbind option_bind]. intros Hr.
    eapply attempted_ext; [eapply IH; [by eapply step_attempted|done]|done|].
    intros i. simpl. by rewrite app_assoc.
Qed.
End attempts.

(** ** A connection that is alone

    The serial model of a connection ([Relay.serve_connection]) is one of the schedules. *)

Section serial.
Context `{Profile} `{L : ConfigLib} `{M : Memchr} `{!MemchrOk M}.
Context {K : Type} `{!RwLock Who K} `{!RwLockOk Who K}.
Context (etld1 : bytes → option bytes) (lb : LoadBalanceType).
Implicit Types s : Sys K.
Abbreviation ok := (sys_ok etld1 lb).
Abbreviation runs := (run etld1 lb).

Lemma run_app ls ls' s s' : runs ls s = Some (Ok s') → runs (ls ++ ls') s = runs ls' s'.
Proof.
  revert s. induction ls as [|l ls IH]; intros s; cbn [run app]; [by intros [= ->]|].
  destruct (step etld1 lb l s) as [[s1| |]|]; try done. cbn [mbind option_bind]. apply IH.
Qed.

Lemma put_put i t t' s : put i t (put i t' s) = put i t s.
Proof. unfold put, with_tasks. simpl. by rewrite list_insert_insert_eq. Qed.

Lemma looks_run fuel i host port more l p s :
  sys_tasks s !! i = Some (Looking host port more l) →
  looks_alone (E:=RelayError) fuel (sys_heap s) (sys_peers s) l = Some (Ok p) →
  ∃ n, runs (replicate n (LookAt i)) s = Some (Ok (drop_guard (Task i) (put i (Dialling host port more p) s))).
Proof.
  revert l s. induction fuel as [|fuel IH]; intros l s Hi Hl; [done|]. cbn [looks_alone] in Hl.
  destruct (look_step (sys_heap s) (sys_peers s) l) as [[[l'|q]| |]|] eqn:El; try done; cbn [mbind option_bind] in Hl.
  - destruct (IH l' (put i (Looking host port more l') s)) as [n Hn]; [|done|].
    { simpl. rewrite list_lookup_insert_eq by (by eapply lookup_lt_Some). done. }
    exists (Datatypes.S n). cbn [replicate run step task_step]. rewrite Hi, El. cbn [mbind option_bind].
    by rewrite Hn, put_put.
  - injection Hl as ->. exists 1%nat. cbn [replicate run step task_step]. rewrite Hi, El. done.
Qed.

(** Nobody asks for the lock. *)
Definition calm s : Prop := ∀ w, wants s w = None.

(** One attempt of a connection that is alone: it gets the lock at once, and its looks are
    [pick]. *)
Lemma attempt_alone i host port more t0 p s : ok s → calm s → sys_tasks s !! i = Some t0 →
  pickable etld1 lb host → (more < 5)%nat →
  pick (E:=RelayError) etld1 (sys_heap s) (sys_peers s) lb host = Some (Ok p) →
  ∃ ls s', runs ls (attempt i host port (Datatypes.S more) s) = Some (Ok s') ∧ calm s' ∧ ok s'
    ∧ sys_heap s' = sys_heap s ∧ sys_peers s' = sys_peers s
    ∧ sys_tasks s' = <[i:=Dialling host port more p]> (sys_tasks s).
Proof.
  intros Hok Hcalm Hi Hp Hm Hpick. assert (task_wants t0 = None) as Hw0.
  { specialize (Hcalm (Task i)). simpl in Hcalm. by rewrite Hi in Hcalm. }
  set (s1 := attempt i host port (Datatypes.S more) s).
  assert (ok s1) as Hok1 by (eapply attempt_ok; [done|done|done|done|lia]).
  assert (∀ w, wants s1 w = if decide (w = Task i) then Some Shared else None) as Hw1.
  { intros w. change (wants s1 w) with (wants (put i (Asking host port more) s) w).
    rewrite (wants_put _ _ _ _ _ Hi). case_decide; [done|apply Hcalm]. }
  assert (i < length (sys_tasks s))%nat as Hlen by (by eapply lookup_lt_Some).
  assert (has_guard (Task i) s1 = true) as Hg.
  { destruct (lock_ok_someone _ _ _ (Task i) Shared (ok_lock _ _ _ Hok1)) as [w Hw]; [by rewrite Hw1, decide_True|].
    destruct (lock_ok_guard _ _ _ w (ok_lock _ _ _ Hok1) Hw) as [m Hmw]. rewrite Hw1 in Hmw.
    case_decide; [subst|done]. by apply bool_decide_eq_true. }
  set (s2 := put i (Looking host port more (first_look etld1 lb host)) s1).
  destruct (looks_run (length (servers (sys_peers s)) + 7) i host port more (first_look etld1 lb host) p s2) as [n Hn].
  { simpl. rewrite list_lookup_insert_eq; [done|by rewrite length_insert]. }
  { rewrite looks_are_pick; done. }
  exists (Enter i :: replicate n (LookAt i)). eexists.
  assert (runs (Enter i :: replicate n (LookAt i)) s1
          = Some (Ok (drop_guard (Task i) (put i (Dialling host port more p) s2)))) as Hrun.
  { cbn [run step task_step]. simpl (sys_tasks s1). rewrite list_lookup_insert_eq by done. rewrite Hg. exact Hn. }
  split; [exact Hrun|]. split_and!; [|..|done|done|].
  - intros w. change (wants (drop_guard _ ?x) w) with (wants x w). unfold s2. rewrite put_put.
    erewrite wants_put; [|simpl; by rewrite list_lookup_insert_eq]. case_decide; [done|].
    by rewrite Hw1, decide_False.
  - assert (Forall (label_ok etld1 lb) (Enter i :: replicate n (LookAt i))) as Hlab.
    { apply Forall_cons_2; [done|]. by apply Forall_replicate. }
    by destruct (run_ok etld1 lb _ _ _ Hok1 Hlab Hrun) as (? & [= <-] & ?).
  - simpl. by rewrite !list_insert_insert_eq.
Qed.

(** What an outcome of the serial loop is for the task. *)
Definition outcome_of (a : res RelayError Attempt) : res RelayError ptr :=
  match a with
  | Ok (Connected p) => Ok p
  | Ok NoAvailableProxy => Err NoProxy
  | Err e => Err e
  | Panic => Panic
  end.

Lemma calm_report now p s : calm s → calm (report_server now p s).
Proof. intros Hc w. rewrite <- (Hc w). by destruct w. Qed.

Lemma attempts_alone connect proxied n now i host port t0 a h' s : ok s → calm s →
  sys_tasks s !! i = Some t0 → pickable etld1 lb host → (n ≤ 5)%nat →
  connect_loop (E:=RelayError) etld1 connect proxied n now lb host (sys_peers s) (sys_heap s) = Some (a, h') →
  ∃ ls s', runs ls (attempt i host port n s) = Some (Ok s')
    ∧ sys_heap s' = h' ∧ sys_peers s' = sys_peers s
    ∧ sys_tasks s' = <[i:=Ended (outcome_of a)]> (sys_tasks s).
Proof.
  revert t0 s. induction n as [|n IH]; intros t0 s Hok Hcalm Hi Hp Hn Hl; cbn [connect_loop] in Hl.
  { injection Hl as <- <-. exists []. eexists. by split. }
  destruct (pick_good (E:=RelayError) etld1 (sys_heap s) (sys_peers s) lb host) as (p & Hpick & _);
    [by eapply ok_pool|done|]. rewrite Hpick in Hl. cbn [mbind option_bind] in Hl.
  destruct (attempt_alone i host port n t0 p s) as (ls & s' & Hrun & Hc' & Hok' & Hh & Hps & Hts); [done..|].
  assert (i < length (sys_tasks s))%nat as Hlen by (by eapply lookup_lt_Some).
  assert (sys_tasks s' !! i = Some (Dialling host port n p)) as Hi' by (by rewrite Hts, list_lookup_insert_eq).
  destruct (connect p) as [[]|e|].
  - injection Hl as Hl. exists (ls ++ [Dial i (Ok ()) now; Finish i (proxied p) now]). eexists.
    rewrite (run_app _ _ _ _ Hrun). cbn [run step task_step]. rewrite Hi'. cbn [mbind option_bind].
    simpl (sys_tasks (put _ _ _)). rewrite Hts, list_lookup_insert_eq by (by rewrite length_insert).
    cbn [mbind option_bind]. split; [done|].
    destruct (proxied p); injection Hl as <- <-; simpl; rewrite Hh, Hts, !list_insert_insert_eq; done.
  - destruct (IH (Dialling host port n p) (report_server now p s')) as (ls2 & s2 & Hrun2 & Hh2 & Hps2 & Hts2);
      [by apply report_ok|by apply calm_report|done|done|lia|by simpl; rewrite Hps, Hh|].
    exists (ls ++ Dial i (Err e) now :: ls2), s2. rewrite (run_app _ _ _ _ Hrun). cbn [run step task_step].
    rewrite Hi'. cbn [mbind option_bind]. split_and!; [done|done|by rewrite Hps2|].
    rewrite Hts2. simpl. by rewrite Hts, list_insert_insert_eq.
  - injection Hl as <- <-. exists (ls ++ [Dial i Panic now]). eexists.
    rewrite (run_app _ _ _ _ Hrun). cbn [run step task_step]. rewrite Hi'. cbn [mbind option_bind].
    split; [done|]. simpl. by rewrite Hh, Hts, !list_insert_insert_eq.
Qed.
End serial.

(** ** A pick under interference *)

(** The task of a label. *)
Definition about (l : Label) : option nat :=
  match l with
  | Sniff i _ | Enter i | LookAt i | Dial i _ _ | Finish i _ _ | EnterStats i | ReadStat i => Some i
  | _ => None
  end.

(** The look has not gone past the server at [q]. *)
Definition ahead (q : ptr) (l : Look) : Prop :=
  match l with LookFirst rest => q ∈ rest | _ => True end.

Section interference.
Context `{Profile} `{L : ConfigLib} `{M : Memchr} `{!MemchrOk M}.
Context {K : Type} `{!RwLock Who K} `{!RwLockOk Who K}.
Context (etld1 : bytes → option bytes) (lb : LoadBalanceType).
Implicit Types s : Sys K.
Abbreviation ok := (sys_ok etld1 lb).

(** A step of a task changes this task only, or adds one at its beginning, and leaves the
    current list alone. *)
Lemma task_step_shape l s s' : task_step etld1 lb l s = Some (Ok s') →
  sys_peers s' = sys_peers s
  ∧ ((∃ j t, about l = Some j ∧ sys_tasks s' = <[j:=t]> (sys_tasks s))
     ∨ ∃ t, sys_tasks s' = sys_tasks s ++ [t] ∧ (t = Sniffing ∨ t = StatsAsking)).
Proof.
  intros Hs. assert (∀ j t s', about l = Some j → sys_peers s' = sys_peers s → sys_tasks s' = <[j:=t]> (sys_tasks s) →
    sys_peers s' = sys_peers s ∧ ((∃ j t, about l = Some j ∧ sys_tasks s' = <[j:=t]> (sys_tasks s))
     ∨ ∃ t, sys_tasks s' = sys_tasks s ++ [t] ∧ (t = Sniffing ∨ t = StatsAsking))) as Hput by eauto 10.
  destruct l as [|j peeked|j|j|j opened now|j proxied now| |j|j| | | | | |]; try done; cbn [task_step] in Hs;
    try (destruct (sys_tasks s !! j) as [[| |? ? ? l|host port more p| | | |[|p rest] stats|]|]; try done).
  - injection Hs as <-. eauto 10.
  - injection Hs as Hs. destruct (destination_addr peeked) as [[[host port]|e|]|]; [| | |done];
      apply Ok_inj in Hs as <-; by eapply Hput.
  - destruct (has_guard _ _); [|done]. injection Hs as <-. by eapply Hput.
  - injection Hs as Hs. destruct (look_step _ _ l) as [[[l'|p]|e|]|]; try done; apply Ok_inj in Hs as <-; by eapply Hput.
  - injection Hs as <-. destruct opened; [by eapply Hput|destruct more; by eapply Hput|by eapply Hput].
  - injection Hs as <-. destruct proxied; by eapply Hput.
  - injection Hs as <-. eauto 10.
  - destruct (has_guard _ _); [|done]. injection Hs as <-. by eapply Hput.
  - injection Hs as <-. by eapply Hput.
  - injection Hs as (svr & _ & [= <-])%bind_Ok. by eapply Hput.
Qed.

(** A step of another task leaves a task alone. *)
Lemma task_step_other i t l s s' : sys_tasks s !! i = Some t → about l ≠ Some i →
  task_step etld1 lb l s = Some (Ok s') → sys_tasks s' !! i = Some t ∧ sys_peers s' = sys_peers s.
Proof.
  intros Hi Ha [Hp [(j & t' & Hj & ->)|(t' & -> & _)]]%task_step_shape; (split; [|done]).
  - rewrite list_lookup_insert_ne; [done|congruence].
  - by apply lookup_app_l_Some.
Qed.

Lemma checker_servers l s s' : checker_step l s = Some (Ok s') →
  servers (sys_peers s') = servers (sys_peers s).
Proof.
  intros Hs. destruct l; try done; unfold checker_step in Hs; destruct (sys_checker s); try done.
  - by injection Hs as <-.
  - destruct (has_guard _ _); [|done]. injection Hs as <-. by destruct (servers (sys_peers s)) eqn:E.
  - destruct (round_step _ _ _ _); [|done]. injection Hs as ([h' r'] & _ & [= <-])%bind_Ok. by destruct r'.
Qed.

(** The list is not exchanged while a task is inside. *)
Lemma reloader_servers w l s s' : ok s → inside s w → reloader_step l s = Some (Ok s') →
  servers (sys_peers s') = servers (sys_peers s).
Proof.
  intros Hok Hin Hs. destruct l as [| | | | | | | | | | | |resp|ev|]; try done; unfold reloader_step in Hs;
    destruct (sys_reloader s) as [| |new] eqn:Hc; try done.
  - injection Hs as Hs. destruct (fetch resp) as [[configs| |]|]; try done; simpl in Hs;
      apply Ok_inj in Hs as <-; [|done]. by destruct (seq _ _).
  - destruct (round_step _ _ _ _); [|done]. injection Hs as ([h' r'] & _ & [= <-])%bind_Ok. by destruct r'.
  - destruct (has_guard Reloader s) eqn:Hg; [|done]. apply bool_decide_eq_true in Hg.
    assert (w = Reloader) as ->; [|done].
    eapply lock_ok_alone; [by eapply ok_lock|exact Hg|simpl; by rewrite Hc|done].
Qed.

Lemma look_step_alive {E} h ps l q : pool_ok h ps → look_ok (servers ps) l → q ∈ servers ps →
  alive_at h q → ahead q l →
  ∃ r, look_step (E:=E) h ps l = Some (Ok r)
    ∧ match r with inl l' => ahead q l' | inr p => p ∈ servers ps ∧ alive_at h p end.
Proof.
  intros Hok Hl Hq Ha Hah. destruct (look_step_ok (E:=E) h ps l Hok Hl) as (r & Hr & Hin).
  exists r. split; [done|]. enough (match r with inl l' => ahead q l' | inr p => alive_at h p end) by (by destruct r).
  clear Hin. pose proof (pool_valid _ _ Hok) as Hv.
  destruct l as [|p|[|n] key|[|p rest]]; cbn [look_step] in Hr.
  - injection Hr as ([p s] & _ & [= <-])%bind_Ok. done.
  - injection Hr as (s & Hs & Hr)%bind_Ok. destruct (deref_valid (E:=E) h p (Hv p Hl)) as (s0 & Hd & Hp & Hc).
    rewrite Hs in Hd. apply Ok_inj in Hd as <-.
    destruct (alive_at_dec (E:=E) h p s Hp Hc) as [[Hal Hy]|[Hal Hn]]; rewrite Hal in Hr; injection Hr as <-; done.
  - by injection Hr as <-.
  - destruct Hl as [Hk Hf]. pose proof (pool_small _ _ Hok). pose proof (pool_ne _ _ Hok) as Hne.
    destruct (jumphash_range key (Z.of_nat (length (servers ps)))) as (i & Hi & Hir);
      [done|destruct (servers ps); [done|simpl in *; lia]|]. rewrite Hi in Hr. cbn [mbind option_bind] in Hr.
    destruct (nth_server_ok (E:=E) h (servers ps) i Hv) as (p & s & Hn & Hin & Hs & Hc); [lia|].
    rewrite Hn in Hr. cbn [mbind res_bind] in Hr.
    destruct (alive_at_dec (E:=E) h p s Hs Hc) as [[Hal Hy]|[Hal Hno]]; rewrite Hal in Hr; injection Hr as Hr.
    + by subst r.
    + by apply bind_Ok in Hr as (key' & _ & [= <-]).
  - by apply not_elem_of_nil in Hah.
  - injection Hr as (s & Hs & Hr)%bind_Ok.
    destruct (deref_valid (E:=E) h p) as (s0 & Hd & Hp & Hc); [apply Hv, Hl; by left|].
    rewrite Hs in Hd. apply Ok_inj in Hd as <-.
    destruct (alive_at_dec (E:=E) h p s Hp Hc) as [[Hal Hy]|[Hal Hn]]; rewrite Hal in Hr; injection Hr as <-; [done|].
    simpl in *. apply elem_of_cons in Hah as [->|?]; done.
Qed.

(** Within a pick of task [i] from the list [ps], [q] is not yet passed over. *)
Definition picking (i : nat) (host : bytes) (port : Z) (more : nat) (ps : list ptr) (q : ptr) s : Prop :=
  ok s ∧ servers (sys_peers s) = ps ∧ q ∈ ps
  ∧ ∃ l, sys_tasks s !! i = Some (Looking host port more l) ∧ ahead q l.

Lemma picking_step i host port more ps q l s s' : picking i host port more ps q s → label_ok etld1 lb l →
  step etld1 lb l s = Some (Ok s') → alive_at (sys_heap s) q →
  picking i host port more ps q s'
  ∨ l = LookAt i ∧ ∃ p, sys_tasks s' !! i = Some (Dialling host port more p) ∧ p ∈ ps ∧ alive_at (sys_heap s) p.
Proof.
  intros (Hok & Hps & Hq & lk & Hi & Hah) Hlab Hs Ha.
  destruct (step_ok etld1 lb l s _ Hok Hlab Hs) as (? & [= <-] & Hok').
  assert (inside s (Task i)) as Hin by (simpl; by rewrite Hi).
  assert (servers (sys_peers s') = servers (sys_peers s) → sys_tasks s' !! i = sys_tasks s !! i →
          picking i host port more ps q s') as Hsame.
  { intros Hp Ht. split_and!; [done|by rewrite Hp|done|]. exists lk. by rewrite Ht. }
  destruct (decide (about l = Some i)) as [Habout|Hother].
  - destruct l; simpl in Habout; try discriminate; injection Habout as ->; cbn [step task_step] in Hs; rewrite Hi in Hs; try done.
    pose proof (ok_tasks _ _ _ Hok _ _ Hi) as (_ & _ & Hlk).
    destruct (look_step_alive (E:=RelayError) _ _ _ q (ok_pool _ _ _ Hok) Hlk ltac:(by rewrite Hps) Ha Hah)
      as ([lk'|p] & Hr & Hres); rewrite Hr in Hs; injection Hs as <-; [left|right].
    + split_and!; [done|done|done|]. exists lk'. simpl.
      by rewrite list_lookup_insert_eq by (by eapply lookup_lt_Some).
    + split; [done|]. exists p. rewrite Hps in Hres. simpl.
      by rewrite list_lookup_insert_eq by (by eapply lookup_lt_Some).
  - left. destruct l; cbn [step] in Hs;
      first [by apply Hsame; [by eapply checker_servers|by erewrite checker_tasks by exact Hs]
            |by apply Hsame; [by eapply reloader_servers|by erewrite reloader_tasks by exact Hs]
            |destruct (task_step_other i _ _ _ _ Hi Hother Hs) as [Ht Hp]; apply Hsame; [by rewrite Hp|by rewrite Ht, Hi]].
Qed.

(** The heaps of all states of a schedule satisfy [P]. *)
Definition throughout (P : list Server → Prop) (ls : list Label) s : Prop :=
  ∀ ls' s', ls' `prefix_of` ls → run etld1 lb ls' s = Some (Ok s') → P (sys_heap s').

Lemma throughout_step P l ls s s1 : throughout P (l :: ls) s → step etld1 lb l s = Some (Ok s1) →
  P (sys_heap s) ∧ throughout P ls s1.
Proof.
  intros Ht Hs. split; [by apply (Ht [] s); [apply prefix_nil|]|]. intros ls' s' Hp Hr.
  apply (Ht (l :: ls') s'); [by apply prefix_cons|]. cbn [run]. by rewrite Hs.
Qed.

Lemma throughout_take P ls s :
  (∀ n, (n ≤ length ls)%nat → match run etld1 lb (take n ls) s with Some (Ok s') => P (sys_heap s') | _ => True end) →
  throughout P ls s.
Proof.
  intros Hn ls' s' [rest ->] Hr. specialize (Hn (length ls')). rewrite length_app, take_app_length in Hn.
  rewrite Hr in Hn. apply Hn. lia.
Qed.

Lemma picking_run i host port more ps q ls s s' : picking i host port more ps q s →
  Forall (label_ok etld1 lb) ls → run etld1 lb ls s = Some (Ok s') → throughout (λ h, alive_at h q) ls s →
  picking i host port more ps q s'
  ∨ ∃ before after s1 s2 p, ls = before ++ LookAt i :: after ∧ run etld1 lb before s = Some (Ok s1)
      ∧ step etld1 lb (LookAt i) s1 = Some (Ok s2) ∧ sys_tasks s2 !! i = Some (Dialling host port more p)
      ∧ p ∈ ps ∧ alive_at (sys_heap s1) p.
Proof.
  intros Hpk Hls. revert s Hpk. induction Hls as [|l ls Hl Hls IH]; intros s Hpk; cbn [run]; [intros [= <-]; by left|].
  destruct (step etld1 lb l s) as [[s1| |]|] eqn:Es; try done. cbn [mbind option_bind]. intros Hr Ht.
  destruct (throughout_step _ _ _ _ _ Ht Es) as [Ha Ht1].
  destruct (picking_step i host port more ps q l s s1 Hpk Hl Es Ha) as [Hpk1|(-> & p & Hp & Hin & Hal)].
  - destruct (IH s1 Hpk1 Hr Ht1) as [?|(before & after & s2 & s3 & p & -> & Hb & Hrest)]; [by left|right].
    exists (l :: before), after, s2, s3, p. split; [done|]. split; [cbn [run]; by rewrite Es|done].
  - right. exists [], ls, s, s1, p. by split_and!.
Qed.
End interference.

(** ** The target of a connection *)

Definition target_of (t : TaskState) : option (bytes * Z) :=
  match t with
  | Asking host port _ | Looking host port _ _ | Dialling host port _ _ | Relaying host port _ => Some (host, port)
  | _ => None
  end.

Section targets.
Context `{Profile} `{L : ConfigLib} `{M : Memchr} `{!MemchrOk M}.
Context {K : Type} `{!RwLock Who K} `{!RwLockOk Who K}.
Context (etld1 : bytes → option bytes) (lb : LoadBalanceType).
Implicit Types s : Sys K.

(** Task [i] has the target [d]. *)
Definition has_target (i : nat) (d : bytes * Z) s : Prop :=
  ∃ t, sys_tasks s !! i = Some t ∧ target_of t = Some d.

Lemma has_target_put i t d s s' t0 : sys_tasks s !! i = Some t0 → sys_tasks s' = <[i:=t]> (sys_tasks s) →
  has_target i d s' → target_of t = Some d.
Proof.
  intros Hi Hts (t' & Ht' & Hd). rewrite Hts, list_lookup_insert_eq in Ht' by (by eapply lookup_lt_Some). congruence.
Qed.

Lemma has_target_attempt i host port more d s t0 : sys_tasks s !! i = Some t0 →
  has_target i d (attempt i host port more s) → d = (host, port).
Proof.
  intros Hi Hd. destruct more as [|more].
  - by apply (has_target_put i (Ended (Err NoProxy)) d s (attempt i host port 0 s) t0 Hi eq_refl) in Hd.
  - apply (has_target_put i (Asking host port more) d s (attempt i host port (Datatypes.S more) s) t0 Hi eq_refl) in Hd. by injection Hd as <-.
Qed.

(** A task gets its target from its first bytes, and keeps it. *)
Lemma own_step_target i l d s s' : about l = Some i → task_step etld1 lb l s = Some (Ok s') → has_target i d s' →
  has_target i d s ∨ ∃ peeked, l = Sniff i peeked ∧ destination_addr peeked = Some (Ok d).
Proof.
  intros Ha Hs Hd. destruct l; simpl in Ha; try discriminate; injection Ha as ->; cbn [task_step] in Hs;
    destruct (sys_tasks s !! i) as [t|] eqn:Hi; try done; destruct t as [| | |host port more p| | | |rest stats|] eqn:Et; try done.
  - injection Hs as Hs. destruct (destination_addr peeked) as [[[host port]|e|]|] eqn:Ed; [| | |done];
      apply Ok_inj in Hs as <-; [|by eapply has_target_put in Hd; [|exact Hi|done]..].
    right. exists peeked. split; [done|]. by rewrite (has_target_attempt i host port 5 d s Sniffing Hi Hd).
  - destruct (has_guard _ _); [|done]. injection Hs as <-. left. eapply has_target_put in Hd; [|exact Hi|done]. by eexists.
  - injection Hs as Hs. left. destruct (look_step _ _ _) as [[[l'|p]|e|]|]; try done; apply Ok_inj in Hs as <-;
      (eapply has_target_put in Hd; [|exact Hi|done]); by eexists.
  - injection Hs as <-. left. exists (Dialling host port more p). split; [done|]. destruct opened.
    + by eapply has_target_put in Hd; [|exact Hi|done].
    + by rewrite (has_target_attempt i host port more d (report_server now p s) _ Hi Hd).
    + by eapply has_target_put in Hd; [|exact Hi|done].
  - injection Hs as <-. destruct proxied; by eapply has_target_put in Hd; [|exact Hi|done].
  - destruct (has_guard _ _); [|done]. injection Hs as <-. by eapply has_target_put in Hd; [|exact Hi|done].
  - destruct rest as [|p rest]; injection Hs as Hs; [subst s'|apply bind_Ok in Hs as (svr & _ & [= <-])];
      by eapply has_target_put in Hd; [|exact Hi|done].
Qed.

Lemma step_target i l d s s' : step etld1 lb l s = Some (Ok s') → has_target i d s' →
  has_target i d s ∨ ∃ peeked, l = Sniff i peeked ∧ destination_addr peeked = Some (Ok d).
Proof.
  intros Hs Hd. destruct (decide (about l = Some i)) as [Ha|Ha].
  { destruct l; try discriminate; by apply (own_step_target i _ d s s'). }
  left. destruct Hd as (t & Ht & Hd).
  assert (sys_tasks s' = sys_tasks s ∨ task_step etld1 lb l s = Some (Ok s')) as [Hts|Htask].
  { destruct l; cbn [step] in Hs; eauto using checker_tasks, reloader_tasks. }
  - exists t. by rewrite <- Hts.
  - apply task_step_shape in Htask as [_ [(j & t' & Hj & Hts)|(t' & Hts & Hnew)]]; rewrite Hts in Ht.
    + exists t. rewrite list_lookup_insert_ne in Ht; [done|congruence].
    + apply lookup_snoc_Some in Ht as [[_ Ht]|[_ <-]]; [by exists t|]. by destruct Hnew as [->| ->].
Qed.

Lemma run_target i d ls s s' : run etld1 lb ls s = Some (Ok s') → has_target i d s' →
  has_target i d s ∨ ∃ peeked, Sniff i peeked ∈ ls ∧ destination_addr peeked = Some (Ok d).
Proof.
  revert s. induction ls as [|l ls IH]; intros s; cbn [run]; [intros [= ->]; by left|].
  destruct (step etld1 lb l s) as [[s1| |]|] eqn:Es; try done. cbn [mbind option_bind]. intros Hr Hd.
  destruct (IH s1 Hr Hd) as [Hd1|(peeked & Hin & Hp)]; [|right; exists peeked; split; [by right|done]].
  destruct (step_target i l d s s1 Es Hd1) as [|(peeked & -> & Hp)]; [by left|].
  right. exists peeked. split; [by left|done].
Qed.

(** What makes the task [i] panic: its sniffer, its connecting or its relaying. *)
Definition panics_in (i : nat) (l : Label) : Prop :=
  match l with
  | Sniff j peeked => j = i ∧ destination_addr peeked = Some Panic
  | Dial j Panic _ | Finish j Panic _ => j = i
  | _ => False
  end.

Lemma put_end i t r s s' t0 : sys_tasks s !! i = Some t0 → sys_tasks s' = <[i:=t]> (sys_tasks s) →
  sys_tasks s' !! i = Some (Ended r) → t = Ended r.
Proof. intros Hi ->. rewrite list_lookup_insert_eq by (by eapply lookup_lt_Some). congruence. Qed.

Lemma attempt_no_panic i host port more s t0 : sys_tasks s !! i = Some t0 →
  sys_tasks (attempt i host port more s) !! i ≠ Some (Ended Panic).
Proof. intros Hi. destruct more; simpl; by rewrite list_lookup_insert_eq by (by eapply lookup_lt_Some). Qed.

Lemma own_step_panic i l s s' : about l = Some i → task_step etld1 lb l s = Some (Ok s') →
  sys_tasks s' !! i = Some (Ended Panic) → panics_in i l.
Proof.
  intros Ha Hs Hd. destruct l; simpl in Ha; try discriminate; injection Ha as ->; cbn [task_step] in Hs;
    destruct (sys_tasks s !! i) as [t|] eqn:Hi; try done; destruct t as [| | |host port more p| | | |rest stats|] eqn:Et; try done.
  - injection Hs as Hs. destruct (destination_addr peeked) as [[[host port]|e|]|] eqn:Ed; [| | |done];
      apply Ok_inj in Hs as <-; [by destruct (attempt_no_panic i host port 5 s _ Hi)| |by split].
    by eapply put_end in Hd; [|exact Hi|done].
  - destruct (has_guard _ _); [|done]. injection Hs as <-. by eapply put_end in Hd; [|exact Hi|done].
  - injection Hs as Hs. destruct (look_step _ _ _) as [[[l'|p]|e|]|]; try done; apply Ok_inj in Hs as <-;
      by eapply put_end in Hd; [|exact Hi|done].
  - injection Hs as <-. destruct opened; [|by destruct (attempt_no_panic i host port more (report_server now p s) _ Hi)|done].
    by eapply put_end in Hd; [|exact Hi|done].
  - injection Hs as <-. destruct proxied; [by eapply put_end in Hd; [|exact Hi|done]..|done].
  - destruct (has_guard _ _); [|done]. injection Hs as <-. by eapply put_end in Hd; [|exact Hi|done].
  - destruct rest as [|p rest]; injection Hs as Hs; [subst s'|apply bind_Ok in Hs as (svr & _ & [= <-])];
      by eapply put_end in Hd; [|exact Hi|done].
Qed.

Lemma run_panic i ls s s' : run etld1 lb ls s = Some (Ok s') → sys_tasks s' !! i = Some (Ended Panic) →
  sys_tasks s !! i = Some (Ended Panic) ∨ ∃ l, l ∈ ls ∧ panics_in i l.
Proof.
  revert s. induction ls as [|l ls IH]; intros s; cbn [run]; [intros [= ->]; by left|].
  destruct (step etld1 lb l s) as [[s1| |]|] eqn:Es; try done. cbn [mbind option_bind]. intros Hr Hd.
  destruct (IH s1 Hr Hd) as [Hd1|(l' & Hin & Hp)]; [|right; exists l'; split; [by right|done]].
  destruct (decide (about l = Some i)) as [Ha|Ha].
  { right. exists l. split; [by left|]. destruct l; try discriminate; by apply (own_step_panic i _ s s1). }
  left. assert (sys_tasks s1 = sys_tasks s ∨ task_step etld1 lb l s = Some (Ok s1)) as [Hts|Htask].
  { destruct l; cbn [step] in Es; eauto using checker_tasks, reloader_tasks. }
  - by rewrite <- Hts.
  - apply task_step_shape in Htask as [_ [(j & t' & Hj & Hts)|(t' & Hts & Hnew)]]; rewrite Hts in Hd1.
    + rewrite list_lookup_insert_ne in Hd1; [done|congruence].
    + apply lookup_snoc_Some in Hd1 as [[_ ?]|[_ ->]]; [done|]. by destruct Hnew.
Qed.
End targets.

(** ** Properties *)

Section properties.
Context `{Profile} `{L : ConfigLib} `{M : Memchr} `{!MemchrOk M}.
Context {K : Type} `{!RwLock Who K} `{!RwLockOk Who K}.
Context (etld1 : bytes → option bytes) (lb : LoadBalanceType).

(** C12: every schedule keeps the pool sound, as long as the provider answers with lists of
    one to 2^31 servers whose URLs can be read without a panic, or fails; the checks of
    servers end without a panic and within the milliseconds that a [u32] can count; and, in
    a build that checks overflow, no host is sniffed whose hash is within five of the
    largest.  Then, however the steps of any number of connections, requests for
    statistics, rounds of checks and reloads are interleaved, down to the single access to
    a server, no step of a pick, of the statistics, of a check or of a reload panics, and in
    every state that is reached: the current list is not empty, without duplicates and of
    checked servers, with the best among them; no server remembers more than ten latencies;
    the guards of the lock are held by exactly those who asked for them and have not dropped
    them, and whoever is within a pick, a request for statistics or a round has one, so that
    the list is never exchanged under them; every server a connection holds exists and was
    checked; a connection has made at most five attempts, all to the destination that its
    own first bytes name: it relays or has ended well after at most four refusals and one
    success, and ends without a proxy after five refusals exactly; and a connection whose
    task has panicked has met a panic of its own sniffer, connecting or relaying, with the
    pool and the other tasks sound as before. *)
Theorem every_schedule_safe (w : World) (ls : list Label) (x : res RelayError (Sys K))
    (Hw : pool_wf w) (Hls : Forall (label_ok etld1 lb) ls)
    (Hrun : run etld1 lb ls (sys_init w) = Some x) :
  ∃ s, x = Ok s ∧ sys_ok etld1 lb s
    ∧ (∀ i t, sys_tasks s !! i = Some t → attempted t (dials i ls))
    ∧ (∀ i t d, sys_tasks s !! i = Some t → target_of t = Some d →
        ∃ peeked, Sniff i peeked ∈ ls ∧ destination_addr peeked = Some (Ok d))
    ∧ ∀ i, sys_tasks s !! i = Some (Ended Panic) → ∃ l, l ∈ ls ∧ panics_in i l.
Proof.
  destruct (run_ok etld1 lb ls _ _ (init_ok etld1 lb w Hw) Hls Hrun) as (s & -> & Hok).
  exists s. split_and!; [done..| | |].
  - intros i t Hi. assert (all_attempted (λ _, []) (sys_init (K:=K) w)) as H0 by done.
    specialize (run_attempted etld1 lb _ _ _ _ H0 Hrun i). by rewrite Hi.
  - intros i t d Hi Hd. by destruct (run_target etld1 lb i d ls _ s Hrun) as [(? & ? & _)|?]; [exists t| |].
  - intros i Hi. by destruct (run_panic etld1 lb i ls _ s Hrun Hi).
Qed.

(** C13: the service settles.  From every state that a schedule reaches, the steps that bring no
    new work are bounded in number, whatever they meet: refusals, failed checks and
    connections that break included; and as long as some connection or request has not ended
    or a task checks or reloads, one of these steps can be taken: nobody waits for the lock
    for ever and there is no deadlock. *)
Theorem service_settles (w : World) (ls : list Label) (s : Sys K)
    (Hw : pool_wf w) (Hls : Forall (label_ok etld1 lb) ls)
    (Hrun : run etld1 lb ls (sys_init w) = Some (Ok s)) :
  ∃ n, ∀ more s', Forall quiet more → Forall (label_ok etld1 lb) more →
    run etld1 lb more s = Some (Ok s') →
    (length more ≤ n)%nat
    ∧ (at_rest s' ∨ ∃ l s'', quiet l ∧ label_ok etld1 lb l ∧ step etld1 lb l s' = Some (Ok s'')).
Proof.
  destruct (run_ok etld1 lb ls _ _ (init_ok etld1 lb w Hw) Hls Hrun) as (? & [= <-] & Hok).
  exists (work s). intros more s' Hq Hlab Hr. split; [pose proof (run_work _ _ _ _ _ Hq Hr); lia|].
  destruct (run_ok etld1 lb more _ _ Hok Hlab Hr) as (? & [= <-] & Hok').
  destruct (rest_or_go etld1 lb s' Hok') as [|(l & Hl & Hlb & x & Hx)]; [by left|right].
  destruct (step_ok etld1 lb l s' x Hok' Hlb Hx) as (s'' & -> & _). by exists l, s''.
Qed.

(** C14: a pick finds a live server in spite of interference.  When a connection enters a pick,
    and some server of the current list is alive in every state from then on, then, whatever
    the other tasks do in between, checks and failures of other servers, a new best server or
    a reload that waits included, the pick is either still going on or has ended: with a
    server of that very list which was alive at the moment it was looked at. *)
Theorem pick_survives_interference (w : World) (ls during : list Label) (s s' : Sys K) (i : nat)
    (host : bytes) (port : Z) (more : nat) (q : ptr)
    (Hw : pool_wf w) (Hls : Forall (label_ok etld1 lb) (ls ++ during))
    (Hrun : run etld1 lb ls (sys_init w) = Some (Ok s))
    (Hi : sys_tasks s !! i = Some (Looking host port more (first_look etld1 lb host)))
    (Hq : q ∈ servers (sys_peers s)) (Hduring : run etld1 lb during s = Some (Ok s'))
    (Halive : throughout etld1 lb (λ h, alive_at h q) during s) :
  (∃ l, sys_tasks s' !! i = Some (Looking host port more l))
  ∨ ∃ before after s1 s2 p, during = before ++ LookAt i :: after
      ∧ run etld1 lb before s = Some (Ok s1) ∧ step etld1 lb (LookAt i) s1 = Some (Ok s2)
      ∧ sys_tasks s2 !! i = Some (Dialling host port more p)
      ∧ p ∈ servers (sys_peers s) ∧ alive_at (sys_heap s1) p.
Proof.
  apply Forall_app in Hls as [Hls Hls'].
  destruct (run_ok etld1 lb ls _ _ (init_ok etld1 lb w Hw) Hls Hrun) as (? & [= <-] & Hok).
  destruct (picking_run etld1 lb i host port more (servers (sys_peers s)) q during s s') as [(_ & _ & _ & l & Hl & _)|Hp];
    [|done|done|done|left; by exists l|by right].
  split_and!; [done..|]. eexists. split; [exact Hi|]. unfold first_look. by destruct lb.
Qed.

(** The serial model is a schedule: what [serve_connection] does to a pool that nobody else
    uses, a connection does in the concurrent one. *)
Lemma serial_is_schedule (connect proxied : ServerConfig → Address → res ErrorKind ()) (peeked : res ErrorKind bytes)
    (now : Z) (s : Sys K) r w' : sys_ok etld1 lb s → calm s →
  (∀ host, pickable etld1 lb host) →
  serve_connection etld1 connect proxied peeked now lb {| heap := sys_heap s; peers := sys_peers s |}
  = Some (r, w') →
  ∃ ls s', run etld1 lb ls s = Some (Ok s') ∧ sys_heap s' = heap w' ∧ sys_peers s' = peers w'
    ∧ sys_tasks s' = sys_tasks s ++ [Ended r].
Proof.
  intros Hok Hcalm Hp Hserve. set (i := length (sys_tasks s)).
  set (s1 := with_tasks (sys_tasks s ++ [Sniffing]) s).
  assert (sys_tasks s1 !! i = Some Sniffing) as Hi by (simpl; by apply list_lookup_middle).
  assert (∀ t, <[i:=t]> (sys_tasks s1) = sys_tasks s ++ [t]) as Hins.
  { intros t. simpl. unfold i. by rewrite insert_app_r_alt, Nat.sub_diag by lia. }
  assert (sys_ok etld1 lb s1) as Hok1.
  { apply (spawn_ok etld1 lb Sniffing s _ Hok); [done|by intros []|done]. }
  assert (calm s1) as Hcalm1.
  { intros [j| |]; [|apply (Hcalm Checker)|apply (Hcalm Reloader)]. simpl.
    destruct ((sys_tasks s ++ [Sniffing]) !! j) as [t|] eqn:Hj; [|done].
    apply lookup_snoc_Some in Hj as [[_ Hj]|[_ <-]]; [|done]. specialize (Hcalm (Task j)). simpl in Hcalm.
    by rewrite Hj in Hcalm. }
  unfold serve_connection in Hserve. destruct (destination_addr peeked) as [[[host port]|e|]|] eqn:Hd; [| | |done];
    cbn [mbind option_bind] in Hserve.
  2,3: injection Hserve as <- <-; exists [Accept; Sniff i peeked]; eexists; cbn [run step task_step mbind option_bind];
    fold s1; rewrite Hi, Hd; (split_and!; [done|done|done|apply Hins]).
  unfold connect_upstream in Hserve. cbn [heap peers] in Hserve.
  destruct (connect_loop_total (E:=RelayError) etld1 (asks connect (sys_heap s) (DomainNameAddress host port))
    (asks proxied (sys_heap s) (DomainNameAddress host port)) 5 now lb host (sys_peers s) (sys_heap s))
    as (a & h' & Hl & _); [by eapply ok_pool|done|]. rewrite Hl in Hserve. cbn [mbind option_bind] in Hserve. injection Hserve as <- <-.
  destruct (attempts_alone etld1 lb _ _ 5 now i host port Sniffing a h' s1 Hok1 Hcalm1 Hi (Hp host) ltac:(lia) Hl)
    as (ls & s' & Hr & Hh & Hps & Hts).
  exists (Accept :: Sniff i peeked :: ls), s'. cbn [run step task_step mbind option_bind]. fold s1. rewrite Hi, Hd.
  split_and!; [exact Hr|done|done|]. rewrite Hts, Hins. by destruct a as [[]| |].
Qed.
End properties.

(** ** The pool of [Upstream.Demo] with two connections *)

Module Demo.
Abbreviation Lib := ServerConfig.Demo.lib.
Abbreviation Find := Sniffing.Demo.find.
Abbreviation runs := (run (H:=dev) (L:=Lib) (M:=Find) (K:=Fifo Who) Upstream.Demo.etld1 Best).
Definition start : Sys (Fifo Who) := sys_init Upstream.Demo.world.
Definition probe : Probe := {| took := 20000000; probe_result := Some (Ok ()) |}.
Definition probed (k : nat) : RoundEvent := Probed k 9 probe.

(** A round begins while the first connection, refused by the best server, picks again; the
    list is loaded anew, and its one server is checked. *)
Definition busy : list Label :=
  [Accept; Accept; Sniff 0 (Ok Sniffing.Demo.request); Enter 0; LookAt 0; LookAt 0;
   CheckWake; CheckEnter; CheckStep (probed 1); Dial 0 (Err OtherError) 8; Enter 0; LookAt 0;
   Reloaded PoolLife.Demo.answer; ReloadStep (probed 0); ReloadStep Compare; ReloadStep Compare; ReloadStep Compare;
   LookAt 0; LookAt 0; LookAt 0; Dial 0 (Ok ()) 9].

(** Then the second connection asks for a server. *)
Definition stalled : list Label := busy ++ [Sniff 1 (Ok Sniffing.Demo.request)].

(** The rest of the round, the exchange, and the pick of the second connection. *)
Definition resumed : list Label :=
  stalled ++ [CheckStep (probed 0); CheckStep (probed 0)] ++ replicate 5 (CheckStep Compare)
  ++ [ReloadSwap; Enter 1; LookAt 1; LookAt 1; Finish 0 (Err OtherError) 10].

Definition view (r : option (res RelayError (Sys (Fifo Who)))) :=
  match r with
  | Some (Ok s) => Some (sys_tasks s, servers (sys_peers s), guards (sys_lock s), queue (sys_lock s))
  | _ => None
  end.

(** While the round of checks goes on, the waiting exchange keeps new connections from
    their pick. *)
Example writer_stalls_picks :
  ((λ '(_, ps, g, q), (ps, g, q)) <$> view (runs stalled start),
   view (runs (stalled ++ [Enter 1]) start))
  = (Some ([0; 1; 2]%nat, [(Checker, Shared)], [(Reloader, Exclusive); (Task 1, Shared)]), None).
Proof. vm_compute. reflexivity. Qed.

(** The first connection still reports to its server of the list that was replaced. *)
Example old_server_reported :
  match runs resumed start with
  | Some (Ok s) =>
    (sys_tasks s !! 0%nat, servers (sys_peers s),
     match sys_tasks s !! 1%nat with Some (Dialling _ _ more p) => Some (more, p) | _ => None end,
     (λ sv, last_value sv) <$> (sys_heap s !! 1%nat))
  | _ => (None, [], None, None)
  end = (Some (Ended (Ok 1%nat)), [3]%nat, Some (4%nat, 3%nat), Some 0).
Proof. vm_compute. reflexivity. Qed.

(** The second pick of the first connection. *)
Definition entered : list Label := take 11 busy.
Definition during : list Label := drop 11 busy.
Definition state (ls : list Label) : Sys (Fifo Who) :=
  match runs ls start with Some (Ok s) => s | _ => start end.

Lemma second_stays_alive :
  throughout (H:=dev) (L:=Lib) (M:=Find) (K:=Fifo Who) Upstream.Demo.etld1 Best (λ h, alive_at h 1) during (state entered).
Proof.
  apply throughout_take. intros n Hn.
  assert (forallb (λ n, match runs (take n during) (state entered) with
                        | Some (Ok s') => aliveb (sys_heap s') 1 | _ => true end) (seq 0 11) = true) as Hall
    by (vm_compute; reflexivity).
  rewrite forallb_forall in Hall. specialize (Hall n ltac:(apply in_seq; simpl in Hn; lia)).
  destruct (runs (take n during) (state entered)) as [[]|]; try done. by apply aliveb_spec.
Qed.

Lemma resumed_ok : Forall (label_ok (H:=dev) (L:=Lib) (M:=Find) Upstream.Demo.etld1 Best) resumed.
Proof.
  assert (answer_ok (L:=Lib) PoolLife.Demo.answer) as Ha by (vm_compute; split; discriminate).
  assert (prompt probe) as Hp by (split; [simpl; lia|done]).
  repeat (apply Forall_cons_2; [first [exact I|exact Ha|exact Hp|by intros ? ? _]|]). constructor.
Qed.
End Demo.

Lemma every_schedule_safe_witness :
  ∃ s, Demo.runs Demo.resumed Demo.start = Some (Ok s)
    ∧ sys_ok (H:=dev) Upstream.Demo.etld1 Best s ∧ dials 0 Demo.resumed = [Refuses; Opens].
Proof.
  destruct (Demo.runs Demo.resumed Demo.start) as [x|] eqn:E; [|vm_compute in E; discriminate].
  destruct (every_schedule_safe (H:=dev) (L:=Demo.Lib) (M:=Demo.Find) (K:=Fifo Who) Upstream.Demo.etld1 Best
    Upstream.Demo.world Demo.resumed x) as (s & -> & Hok & _).
  - exact Relay.Demo.demo_world_wf.
  - exact Demo.resumed_ok.
  - exact E.
  - exists s. split; [reflexivity|]. split; [exact Hok|]. vm_compute. reflexivity.
Defined.

Lemma service_settles_witness :
  ∃ s n, Demo.runs Demo.resumed Demo.start = Some (Ok s)
    ∧ ∀ more s', Forall quiet more → Forall (label_ok (H:=dev) (L:=Demo.Lib) (M:=Demo.Find) Upstream.Demo.etld1 Best) more →
        Demo.runs more s = Some (Ok s') → (length more ≤ n)%nat.
Proof.
  destruct (Demo.runs Demo.resumed Demo.start) as [[s| |]|] eqn:E; [|vm_compute in E; discriminate..].
  destruct (service_settles (H:=dev) (L:=Demo.Lib) (M:=Demo.Find) (K:=Fifo Who) Upstream.Demo.etld1 Best
    Upstream.Demo.world Demo.resumed s) as (n & Hn).
  - exact Relay.Demo.demo_world_wf.
  - exact Demo.resumed_ok.
  - exact E.
  - exists s, n. split; [reflexivity|]. intros more s' Hq Hl Hr. by destruct (Hn more s' Hq Hl Hr).
Defined.

(** The best server, which has refused, is passed over, and the second server of the list is
    picked while a reload comes and waits. *)
Lemma pick_survives_interference_witness :
  ∃ before after s1 s2 p, Demo.during = before ++ LookAt 0 :: after
    ∧ Demo.runs before (Demo.state Demo.entered) = Some (Ok s1)
    ∧ step (H:=dev) (L:=Demo.Lib) (M:=Demo.Find) Upstream.Demo.etld1 Best (LookAt 0) s1 = Some (Ok s2)
    ∧ p ∈ [0; 1; 2]%nat ∧ alive_at (sys_heap s1) p.
Proof.
  destruct (pick_survives_interference (H:=dev) (L:=Demo.Lib) (M:=Demo.Find) (K:=Fifo Who) Upstream.Demo.etld1 Best
    Upstream.Demo.world Demo.entered Demo.during (Demo.state Demo.entered) (Demo.state Demo.busy) 0
    (text "example.com") 80 3 1) as [[l Hl]|(before & after & s1 & s2 & p & Hd & Hr & Hs & _ & Hin & Ha)].
  - exact Relay.Demo.demo_world_wf.
  - pose proof Demo.resumed_ok as Hok. unfold Demo.resumed, Demo.stalled in Hok. rewrite <- !app_assoc in Hok.
    apply Forall_app in Hok as [Hok _]. exact Hok.
  - vm_compute. reflexivity.
  - vm_compute. reflexivity.
  - apply (bool_decide_unpack _). vm_compute. exact I.
  - vm_compute. reflexivity.
  - exact Demo.second_stays_alive.
  - vm_compute in Hl. discriminate.
  - exists before, after, s1, s2, p. split_and!; [exact Hd|exact Hr|exact Hs| |exact Ha].
    vm_compute in Hin. exact Hin.
Defined.
