(* ===== verification/Cron.v ===== *)
(** * Cron expressions (lib/cron/src/parse.rs)

    The parser of schedules: fields of comma separated items, an item being a value, a
    range, or either of them with a step.  Values of months and of days of the week may be
    names.  The meaning of an item is the relation [item_denotes] on its text; the parser
    is shown to compute it.  [Cron::next] and [Cron::years] have no body in the source. *)

From stdpp Require Import gmap strings.
From S2P Require Import Prelude RustStr Io Address NetAddr.

Definition MIN_YEAR : Z := 1970.
Definition MAX_YEAR : Z := 2099.

Inductive Error :=
  | ParseInt (e : ParseIntError)
  | ArgumentCount
  | InvalidStepRange (s : list Z)
  | InvalidRange (s : list Z)
  | InvalidMonthIndicator (s : list Z)
  | InvalidDayOfWeekIndicator (s : list Z).

Inductive Seconds := Seconds_Ignore | Seconds_All | Seconds_Constrained (set : gset Z).
Inductive Years := Years_All | Years_Unbound | Years_Constrained (set : gset Z).
Inductive TimeRange := TimeRange_All | TimeRange_Constrained (set : gset Z).

Record Cron := {
  seconds : Seconds;
  minutes : TimeRange;
  hours : TimeRange;
  days_of_month : TimeRange;
  months : TimeRange;
  days_of_week : TimeRange;
  years : Years
}.

(** ** Names *)

(** [str::to_uppercase] as a comparison with ASCII text sees it: the letters, and the
    other characters whose uppercase is ASCII.  Every other character has an uppercase
    with a character that is not ASCII; here it stays what it is. *)
Definition upper_char (c : Z) : list Z :=
  if (97 <=? c) && (c <=? 122) then [c - 32]
  else if c =? 223 then text "SS"
  else if c =? 305 then text "I"
  else if c =? 383 then text "S"
  else if c =? 64256 then text "FF"
  else if c =? 64257 then text "FI"
  else if c =? 64258 then text "FL"
  else if c =? 64259 then text "FFI"
  else if c =? 64260 then text "FFL"
  else if (c =? 64261) || (c =? 64262) then text "ST"
  else [c].
Definition to_uppercase (s : list Z) : list Z := s ≫= upper_char.

(** One arm ["A" | "B" => ..] of a [match] on text. *)
Definition one_of (s : list Z) (lits : list string) : bool :=
  bool_decide (s ∈ text <$> lits).

Definition month (value : list Z) : res Error Z :=
  let u := to_uppercase value in
  if one_of u ["JAN"; "1"] then Ok 1
  else if one_of u ["FEB"; "2"] then Ok 2
  else if one_of u ["MAR"; "3"] then Ok 3
  else if one_of u ["APR"; "4"] then Ok 4
  else if one_of u ["MAY"; "5"] then Ok 5
  else if one_of u ["JUN"; "6"] then Ok 6
  else if one_of u ["JUL"; "7"] then Ok 7
  else if one_of u ["AUG"; "8"] then Ok 8
  else if one_of u ["SEP"; "9"] then Ok 9
  else if one_of u ["OCT"; "10"] then Ok 10
  else if one_of u ["NOV"; "11"] then Ok 11
  else if one_of u ["DEC"; "12"] then Ok 12
  else Err (InvalidMonthIndicator value).

Definition day_of_week (value : list Z) (is_vixie : bool) : res Error Z :=
  let u := to_uppercase value in
  if is_vixie then
    if one_of u ["SUN"; "1"] then Ok 1
    else if one_of u ["MON"; "2"] then Ok 2
    else if one_of u ["TUE"; "3"] then Ok 3
    else if one_of u ["WED"; "4"] then Ok 4
    else if one_of u ["THU"; "5"] then Ok 5
    else if one_of u ["FRI"; "6"] then Ok 6
    else if one_of u ["SAT"; "7"] then Ok 7
    else Err (InvalidDayOfWeekIndicator value)
  else
    if one_of u ["SUN"; "0"; "7"] then Ok 1
    else if one_of u ["MON"; "1"] then Ok 2
    else if one_of u ["TUE"; "2"] then Ok 3
    else if one_of u ["WED"; "3"] then Ok 4
    else if one_of u ["THU"; "4"] then Ok 5
    else if one_of u ["FRI"; "5"] then Ok 6
    else if one_of u ["SAT"; "6"] then Ok 7
    else Err (InvalidDayOfWeekIndicator value).

Definition parse_time_unit (s : list Z) (is_vixie is_dom is_dow : bool) : res Error Z :=
  if is_dom then month s
  else if is_dow then day_of_week s is_vixie
  else map_err ParseInt (parse_uint u32_max s).

Definition parse_range (left_range right_range : list Z) (is_vixie is_dom is_dow : bool)
  : res Error (Z * Z) :=
  l ← parse_time_unit left_range is_vixie is_dom is_dow;
  r ← parse_time_unit right_range is_vixie is_dom is_dow;
  Ok (l, r).

(** ** Fields *)

Definition comma : Z := 44.
Definition dash : Z := 45.
Definition slash : Z := 47.

(** [(l..=r).step_by(n)], which panics when [n] is zero. *)
Definition step_by {E} (l r n : Z) : res E (list Z) :=
  _ ← assert_ (negb (n =? 0));
  Ok ((λ k, l + n * k) <$> seqZ 0 ((r - l) / n + 1)).

(** [step_value.parse()?] as the [usize] of [step_by]. *)
Definition parse_step (s : list Z) : res Error Z := map_err ParseInt (parse_uint u64_max s).

(** The body of the loop over the items: the values inserted, or [None] where the code
    returns [Ok(TimeRange::All)]. *)
Definition parse_item (v : list Z) (min max : Z) (is_vixie is_dow is_dom : bool)
  : res Error (option (list Z)) :=
  let '(left_step, right_step) := splitn2 slash v in
  let '(left_dash, right_dash) := splitn2 dash left_step in
  match left_dash, right_dash, right_step with
  | left_range, Some right_range, Some step_value =>
    '(l, r) ← parse_range left_range right_range is_vixie is_dom is_dow;
    _ ← fail_if ((l <? min) || (max <? l) || (r <? min) || (max <? r) || (r <? l))
                (InvalidRange v);
    n ← parse_step step_value;
    xs ← step_by l r n;
    Ok (Some xs)
  | left_range, Some right_range, None =>
    '(l, r) ← parse_range left_range right_range is_vixie is_dom is_dow;
    _ ← fail_if ((l <? min) || (max <? l) || (r <? min) || (max <? r) || (r <? l))
                (InvalidRange v);
    if (l =? min) && (r =? max) then Ok None
    else xs ← step_by l r 1; Ok (Some xs)
  | left_most, None, Some step_value =>
    if bool_decide (left_most = text "*") then
      n ← parse_step step_value;
      xs ← step_by min max n;
      Ok (Some xs)
    else
      left ← parse_time_unit left_most is_vixie is_dom is_dow;
      n ← parse_step step_value;
      xs ← step_by left max n;
      Ok (Some xs)
  | left_most, None, None =>
    if bool_decide (left_most = text "*") then Ok None
    else
      i ← parse_time_unit left_most is_vixie is_dom is_dow;
      Ok (Some [i])
  end.

(** [for v in value.split(',')] *)
Fixpoint parse_items (items : list (list Z)) (set : gset Z) (min max : Z)
    (is_vixie is_dow is_dom : bool) : res Error TimeRange :=
  match items with
  | [] => Ok (TimeRange_Constrained set)
  | v :: items =>
    r ← parse_item v min max is_vixie is_dow is_dom;
    match r with
    | None => Ok TimeRange_All
    | Some xs => parse_items items (list_to_set xs ∪ set) min max is_vixie is_dow is_dom
    end
  end.

Definition parse_field (value : list Z) (min max : Z) (is_vixie is_dow is_dom : bool)
  : res Error TimeRange :=
  parse_items (split comma value) ∅ min max is_vixie is_dow is_dom.

Definition seconds_of (r : TimeRange) : Seconds :=
  match r with TimeRange_All => Seconds_All | TimeRange_Constrained set => Seconds_Constrained set end.
Definition years_of (r : TimeRange) : Years :=
  match r with TimeRange_All => Years_All | TimeRange_Constrained f => Years_Constrained f end.

(** [impl FromStr for Cron] *)
Definition from_str (s : list Z) : res Error Cron :=
  match split_whitespace s with
  | [f0; f1; f2; f3; f4] =>
    minutes ← parse_field f0 0 59 false false false;
    hours ← parse_field f1 0 23 false false false;
    days_of_month ← parse_field f2 1 31 false false false;
    months ← parse_field f3 1 12 false false true;
    days_of_week ← parse_field f4 1 7 false true false;
    Ok {| seconds := Seconds_Ignore; minutes := minutes; hours := hours;
          days_of_month := days_of_month; months := months; days_of_week := days_of_week;
          years := Years_Unbound |}
  | [f0; f1; f2; f3; f4; f5] =>
    seconds ← parse_field f0 0 59 true false false;
    minutes ← parse_field f1 0 59 true false false;
    hours ← parse_field f2 0 23 true false false;
    days_of_month ← parse_field f3 1 31 true false false;
    months ← parse_field f4 1 12 true false true;
    days_of_week ← parse_field f5 1 7 true true false;
    Ok {| seconds := seconds_of seconds; minutes := minutes; hours := hours;
          days_of_month := days_of_month; months := months; days_of_week := days_of_week;
          years := Years_All |}
  | [f0; f1; f2; f3; f4; f5; f6] =>
    seconds ← parse_field f0 0 59 true false false;
    minutes ← parse_field f1 0 59 true false false;
    hours ← parse_field f2 0 23 true false false;
    days_of_month ← parse_field f3 1 31 true false false;
    months ← parse_field f4 1 12 true false true;
    days_of_week ← parse_field f5 1 7 true true false;
    years ← parse_field f6 MIN_YEAR MAX_YEAR true false false;
    Ok {| seconds := seconds_of seconds; minutes := minutes; hours := hours;
          days_of_month := days_of_month; months := months; days_of_week := days_of_week;
          years := years_of years |}
  | _ => Err ArgumentCount
  end.

(** The test of the source. *)
Example parse_linux_crontab :
  from_str (text "*/5 * * * *")
  = Ok {| seconds := Seconds_Ignore;
          minutes := TimeRange_Constrained (list_to_set ((λ k, 5 * k) <$> seqZ 0 12));
          hours := TimeRange_All; days_of_month := TimeRange_All; months := TimeRange_All;
          days_of_week := TimeRange_All; years := Years_Unbound |}.
Proof. vm_compute. reflexivity. Qed.

(** ** The meaning of the items *)

Section denotation.
Context (min max : Z) (is_vixie is_dow is_dom : bool).

Definition is_unit (u : list Z) (a : Z) : Prop :=
  parse_time_unit u is_vixie is_dom is_dow = Ok a.
Definition is_step (n : list Z) (k : Z) : Prop := parse_uint u64_max n = Ok k ∧ 0 < k.

(** Text in which no separator is left. *)
Definition plain (s : list Z) : Prop := dash ∉ s ∧ slash ∉ s.

(** [item_denotes v x]: the item [v] stands for a set of values, and [x] is one of them. *)
Inductive item_denotes : list Z → Z → Prop :=
  | den_all x : min <= x <= max → item_denotes (text "*") x
  | den_value u x : plain u → is_unit u x → item_denotes u x
  | den_range l r a b x :
      plain l → slash ∉ r → is_unit l a → is_unit r b → min <= a → b <= max →
      a <= x <= b → item_denotes (l ++ dash :: r) x
  | den_all_step n k x :
      is_step n k → min <= x <= max → (k | x - min) → item_denotes (text "*" ++ slash :: n) x
  | den_from_step l n a k x :
      plain l → is_unit l a → is_step n k → a <= x <= max → (k | x - a) →
      item_denotes (l ++ slash :: n) x
  | den_range_step l r n a b k x :
      plain l → slash ∉ r → is_unit l a → is_unit r b → min <= a → b <= max →
      is_step n k → a <= x <= b → (k | x - a) →
      item_denotes ((l ++ dash :: r) ++ slash :: n) x.

Lemma elem_of_step_by {E} l r n xs x :
  step_by (E:=E) l r n = Ok xs → 0 <= n → x ∈ xs ↔ l <= x <= r ∧ (n | x - l).
Proof.
  unfold step_by. intros (? & Hn%assert_Ok & [= <-])%bind_Ok Hn0.
  apply negb_true_iff, Z.eqb_neq in Hn. rewrite list_elem_of_fmap.
  setoid_rewrite elem_of_seqZ. split.
  - intros (k & -> & Hk). split; [|exists k; lia].
    assert (n * k <= r - l); [|nia]. pose proof (Z.mul_div_le (r - l) n ltac:(lia)). nia.
  - intros [Hx [k Hk]]. exists k. split; [lia|].
    assert (k <= (r - l) / n) by (apply Z.div_le_lower_bound; lia). nia.
Qed.

Lemma star_not_unit a : ¬ is_unit (text "*") a.
Proof. unfold is_unit, parse_time_unit. by destruct is_dom, is_dow, is_vixie. Qed.

Lemma parse_uint_nonneg m s k : parse_uint m s = Ok k → 0 <= k.
Proof.
  assert (∀ s acc, 0 <= acc → ∀ k, parse_digits m acc s = Ok k → 0 <= k) as Hd.
  { clear s k. induction s as [|c s IH]; simpl; intros acc Ha k; [congruence|].
    unfold is_ascii_digit. destruct (48 <=? c) eqn:E1, (c <=? 57) eqn:E2; try done. simpl.
    case_match; [done|]. apply IH. lia. }
  destruct s as [|c [|c' s]]; [done| |]; unfold parse_uint; case_match; try done; by apply Hd.
Qed.

Lemma parse_uint_no_panic m s : parse_uint m s ≠ Panic.
Proof.
  assert (∀ s acc, parse_digits m acc s ≠ Panic) as Hd.
  { clear s. induction s as [|c s IH]; intros acc; simpl; [done|]. by repeat case_match. }
  destruct s as [|c [|c' s]]; [done| |]; unfold parse_uint; case_match; try done; apply Hd.
Qed.

Lemma star_plain : plain (text "*").
Proof. split; apply (bool_decide_unpack _); vm_compute; exact I. Qed.

(** How the code cuts an item of each form. *)
Lemma cut_value u : plain u → splitn2 slash u = (u, None) ∧ splitn2 dash u = (u, None).
Proof. intros [? ?]. by rewrite !splitn2_none. Qed.

Lemma slash_range l r : plain l → slash ∉ r → slash ∉ l ++ dash :: r.
Proof. intros [? ?] ?. rewrite elem_of_app, elem_of_cons. unfold slash, dash in *. naive_solver. Qed.

(** The values of an item, from the pieces the code cuts it into. *)
Definition pieces_denote (left_dash : list Z) (right_dash right_step : option (list Z))
    (x : Z) : Prop :=
  match right_dash, right_step with
  | None, None =>
    (left_dash = text "*" ∧ min <= x <= max) ∨ is_unit left_dash x
  | Some r, None =>
    ∃ a b, is_unit left_dash a ∧ is_unit r b ∧ min <= a ∧ b <= max ∧ a <= x <= b
  | None, Some n =>
    ∃ k, is_step n k ∧
      ((left_dash = text "*" ∧ min <= x <= max ∧ (k | x - min))
       ∨ ∃ a, is_unit left_dash a ∧ a <= x <= max ∧ (k | x - a))
  | Some r, Some n =>
    ∃ a b k, is_unit left_dash a ∧ is_unit r b ∧ min <= a ∧ b <= max ∧ is_step n k
      ∧ a <= x <= b ∧ (k | x - a)
  end.

Lemma denotes_pieces v ls rs ld rd x :
  splitn2 slash v = (ls, rs) → splitn2 dash ls = (ld, rd) →
  item_denotes v x ↔ pieces_denote ld rd rs x.
Proof.
  intros Hs Hd. split.
  - destruct 1 as [x ?|u x Hu ?|l r a b x Hl ? ? ? ? ? ?|n k x ? ? ?|l n a k x Hl ? ? ? ?
                   |l r n a b k x Hl Hr ? ? ? ? ? ? ?].
    + rewrite (proj1 (cut_value _ star_plain)) in Hs. simplify_eq.
      rewrite (proj2 (cut_value _ star_plain)) in Hd. simplify_eq/=. by left.
    + rewrite (proj1 (cut_value _ Hu)) in Hs. simplify_eq.
      rewrite (proj2 (cut_value _ Hu)) in Hd. simplify_eq/=. by right.
    + rewrite splitn2_none in Hs by by apply slash_range. simplify_eq.
      rewrite splitn2_app in Hd by apply Hl. simplify_eq/=. naive_solver.
    + rewrite splitn2_app in Hs by apply star_plain. simplify_eq.
      rewrite (proj2 (cut_value _ star_plain)) in Hd. simplify_eq/=. eauto 10.
    + rewrite splitn2_app in Hs by apply Hl. simplify_eq.
      rewrite (proj2 (cut_value _ Hl)) in Hd. simplify_eq/=. eauto 10.
    + rewrite splitn2_app in Hs by by apply slash_range. simplify_eq.
      rewrite splitn2_app in Hd by apply Hl. simplify_eq/=. naive_solver.
  - apply splitn2_inv in Hs as [Hs Ev]. apply splitn2_inv in Hd as [Hd El].
    destruct rd as [r|], rs as [n|]; subst; simpl.
    + intros (a & b & k & ?). apply not_elem_of_app in Hs as [? [? ?]%not_elem_of_cons].
      destruct_and?. by apply (den_range_step ld r n a b k).
    + intros (a & b & ?). apply not_elem_of_app in Hs as [? [? ?]%not_elem_of_cons].
      destruct_and?. by apply (den_range ld r a b).
    + intros (k & Hk & [(-> & ? & ?)|(a & ? & ? & ?)]).
      * by apply (den_all_step n k).
      * by apply (den_from_step ld n a k).
    + intros [[-> ?]|?]; [by apply den_all|by apply den_value].
Qed.

(** The outcome of the loop's body on an item: the values it stands for; the whole range;
    an error only for an item that stands for nothing; a panic only for a step of zero. *)
Definition zero_step (v : list Z) : Prop :=
  ∃ l n, v = l ++ slash :: n ∧ parse_uint u64_max n = Ok 0.

Definition item_outcome (v : list Z) (o : res Error (option (list Z))) : Prop :=
  match o with
  | Ok (Some xs) => ∀ x, x ∈ xs ↔ item_denotes v x
  | Ok None => ∀ x, item_denotes v x ↔ min <= x <= max
  | Err _ => ∀ x, ¬ item_denotes v x
  | Panic => zero_step v
  end.

(** The tail all forms with a step share. *)
Lemma step_outcome v l n lo hi :
  v = l ++ slash :: n →
  (∀ x, item_denotes v x ↔ ∃ k, is_step n k ∧ lo <= x <= hi ∧ (k | x - lo)) →
  item_outcome v (k ← parse_step n; xs ← step_by lo hi k; Ok (Some xs)).
Proof.
  intros Hv Hden. unfold parse_step, is_step in *.
  destruct (parse_uint u64_max n) as [k|e|] eqn:En; cbn [map_err mbind res_bind].
  - pose proof (parse_uint_nonneg _ _ _ En) as Hk. destruct (decide (k = 0)) as [->|Hk0].
    + simpl. by exists l, n.
    + destruct (step_by (E:=Error) lo hi k) as [xs|e|] eqn:Ex; cbn [mbind res_bind].
      * intros x. rewrite (elem_of_step_by _ _ _ _ _ Ex), Hden by done.
        split; [exists k; split_and!; naive_solver lia|].
        by intros (k' & [[= <-] ?] & ? & ?).
      * unfold step_by in Ex. by destruct (k =? 0).
      * unfold step_by in Ex. rewrite (proj2 (Z.eqb_neq k 0) Hk0) in Ex. done.
  - intros x. rewrite Hden. by intros (k & [? ?] & _).
  - by destruct (parse_uint_no_panic u64_max n).
Qed.

Lemma unit_no_panic u : parse_time_unit u is_vixie is_dom is_dow ≠ Panic.
Proof.
  unfold parse_time_unit, month, day_of_week.
  destruct is_dom; [by repeat case_match|].
  destruct is_dow; [by repeat case_match|].
  pose proof (parse_uint_no_panic u32_max u). by destruct (parse_uint u32_max u).
Qed.

Definition range_bad (l r : Z) : bool :=
  (l <? min) || (max <? l) || (r <? min) || (max <? r) || (r <? l).

Lemma range_bad_false l r : range_bad l r = false ↔ min <= l ∧ l <= r ∧ r <= max.
Proof. unfold range_bad. rewrite !orb_false_iff, !Z.ltb_ge. lia. Qed.

(** The head both forms with a range share: either it fails, and the item stands for
    nothing, or the ends of the range are what the tail starts from. *)
Lemma range_outcome v l r (D : Z → Z → Z → Prop) (tail : Z * Z → res Error (option (list Z))) :
  (∀ x, item_denotes v x ↔ ∃ a b, is_unit l a ∧ is_unit r b ∧ min <= a ∧ b <= max
                                  ∧ a <= x <= b ∧ D a b x) →
  (∀ a b, min <= a → a <= b → b <= max →
          (∀ x, item_denotes v x ↔ a <= x <= b ∧ D a b x) → item_outcome v (tail (a, b))) →
  item_outcome v ('(a, b) ← parse_range l r is_vixie is_dom is_dow;
                  _ ← fail_if (range_bad a b) (InvalidRange v); tail (a, b)).
Proof.
  intros Hden Htail. unfold parse_range, is_unit in *.
  pose proof (unit_no_panic l) as Pl. pose proof (unit_no_panic r) as Pr.
  destruct (parse_time_unit l _ _ _) as [a|e|] eqn:El; cbn [mbind res_bind];
    [|intros x; rewrite Hden; naive_solver|done].
  destruct (parse_time_unit r _ _ _) as [b|e|] eqn:Er; cbn [mbind res_bind];
    [|intros x; rewrite Hden; naive_solver|done].
  destruct (range_bad a b) eqn:Eb; cbn [mbind res_bind fail_if].
  - intros x. rewrite Hden. intros (a' & b' & [= <-] & [= <-] & ? & ? & ? & ?).
    assert (range_bad a b = false) by (apply range_bad_false; lia). congruence.
  - apply range_bad_false in Eb. destruct_and?. apply Htail; [done..|].
    intros x. rewrite Hden. naive_solver.
Qed.

Lemma parse_item_outcome v :
  item_outcome v (parse_item v min max is_vixie is_dow is_dom).
Proof.
  unfold parse_item. destruct (splitn2 slash v) as [ls rs] eqn:Es.
  destruct (splitn2 dash ls) as [ld rd] eqn:Ed.
  pose proof (λ x, denotes_pieces v ls rs ld rd x Es Ed) as Hden.
  apply splitn2_inv in Es as [_ Ev]. destruct rd as [r|], rs as [n|]; simpl in Hden.
  - apply (range_outcome v ld r (λ a b x, ∃ k, is_step n k ∧ (k | x - a))
             (λ '(a, b), n ← parse_step n; xs ← step_by a b n; Ok (Some xs))).
    + intros x. rewrite Hden. naive_solver.
    + intros a b ? ? ? Hd. apply (step_outcome v ls); [done|]. intros x. rewrite Hd. naive_solver.
  - apply (range_outcome v ld r (λ _ _ _, True)
             (λ '(a, b), if (a =? min) && (b =? max) then Ok None
                         else xs ← step_by a b 1; Ok (Some xs))).
    + intros x. rewrite Hden. naive_solver.
    + intros a b ? ? ? Hd. destruct (Z.eqb_spec a min), (Z.eqb_spec b max);
        cbn [andb]; [intros x; rewrite Hd; naive_solver| | |];
        (destruct (step_by (E:=Error) a b 1) as [xs|err|] eqn:Ex; [|done..]; intros x;
         rewrite (elem_of_step_by _ _ _ _ _ Ex), Hd by done;
         split; [tauto|]; intros [? _]; split; [done|apply Z.divide_1_l]).
  - case_bool_decide as Hs.
    + apply (step_outcome v ls); [done|]. intros x. rewrite Hden. subst ld.
      split; [|naive_solver]. intros (k & ? & [(_ & ? & ?)|(a & Ha & _)]); [naive_solver|].
      by apply star_not_unit in Ha.
    + pose proof (unit_no_panic ld). unfold is_unit in *.
      destruct (parse_time_unit ld _ _ _) as [a|e|] eqn:El; cbn [mbind res_bind];
        [|intros x; rewrite Hden; naive_solver|done].
      apply (step_outcome v ls); [done|]. intros x. rewrite Hden. naive_solver.
  - case_bool_decide as Hs; simpl.
    + intros x. rewrite Hden. subst ld. split; [|naive_solver]. intros [[_ ?]|Hu]; [done|].
      by apply star_not_unit in Hu.
    + pose proof (unit_no_panic ld). unfold is_unit in *.
      destruct (parse_time_unit ld _ _ _) as [a|e|] eqn:El; cbn [mbind res_bind];
        [|intros x; rewrite Hden; naive_solver|done].
      intros x. rewrite Hden, list_elem_of_singleton. naive_solver.
Qed.
End denotation.

(** What a parsed field means, in terms of its items. *)
Definition field_outcome (value : list Z) (min max : Z) (is_vixie is_dow is_dom : bool)
    (o : res Error TimeRange) : Prop :=
  let denotes := item_denotes min max is_vixie is_dow is_dom in
  match o with
  | Ok (TimeRange_Constrained set) =>
    ∀ x, x ∈ set ↔ ∃ v, v ∈ split comma value ∧ denotes v x
  | Ok TimeRange_All => ∃ v, v ∈ split comma value ∧ ∀ x, denotes v x ↔ min <= x <= max
  | Err _ => ∃ v, v ∈ split comma value ∧ ∀ x, ¬ denotes v x
  | Panic => ∃ v, v ∈ split comma value ∧ zero_step v
  end.

(** C31: the cron parser computes the meaning of its text.  A field that is accepted as a
    set is exactly the set of the values its comma separated items stand for (a value, a
    range, and either with a step counted from its start); a field is accepted as the
    whole range only if one of its items stands for the whole range; it is rejected only
    for an item that stands for no value at all; and the parser panics only at a step
    that is written as zero. *)
Theorem parse_field_denotes (value : list Z) (min max : Z) (is_vixie is_dow is_dom : bool) :
  field_outcome value min max is_vixie is_dow is_dom
    (parse_field value min max is_vixie is_dow is_dom).
Proof.
  unfold parse_field, field_outcome.
  assert (∀ items set, ∀ o, parse_items items set min max is_vixie is_dow is_dom = o →
    match o with
    | Ok (TimeRange_Constrained s) =>
      ∀ x, x ∈ s ↔ x ∈ set ∨ ∃ v, v ∈ items ∧ item_denotes min max is_vixie is_dow is_dom v x
    | Ok TimeRange_All =>
      ∃ v, v ∈ items ∧ ∀ x, item_denotes min max is_vixie is_dow is_dom v x ↔ min <= x <= max
    | Err _ => ∃ v, v ∈ items ∧ ∀ x, ¬ item_denotes min max is_vixie is_dow is_dom v x
    | Panic => ∃ v, v ∈ items ∧ zero_step v
    end) as Hgen.
  { induction items as [|v items IH]; intros set o <-; simpl; [set_solver|].
    pose proof (parse_item_outcome min max is_vixie is_dow is_dom v) as Hv.
    destruct (parse_item v _ _ _ _ _) as [[xs|]|e|]; cbn [mbind res_bind].
    - specialize (IH (list_to_set xs ∪ set) _ eq_refl). simpl in Hv.
      destruct (parse_items items _ _ _ _ _ _) as [[|s]|e|]; [set_solver| |set_solver..].
      intros x. rewrite IH, elem_of_union, elem_of_list_to_set, Hv. set_solver.
    - exists v. split; [left|done].
    - exists v. split; [left|done].
    - exists v. split; [left|done]. }
  specialize (Hgen (split comma value) ∅ _ eq_refl).
  destruct (parse_items _ _ _ _ _ _ _) as [[|s]|e|]; [done| |done..].
  intros x. rewrite Hgen. set_solver.
Qed.

(** ** Schedules in text

    Every schedule can be written: [show] prints one, and the parser reads it back. *)

Definition show_range (shown : Z → list Z) (r : TimeRange) : list Z :=
  match r with
  | TimeRange_All => text "*"
  | TimeRange_Constrained set => join comma (shown <$> elements set)
  end.

Definition range_of_seconds (s : Seconds) : option TimeRange :=
  match s with
  | Seconds_Ignore => None
  | Seconds_All => Some TimeRange_All
  | Seconds_Constrained set => Some (TimeRange_Constrained set)
  end.
Definition range_of_years (y : Years) : TimeRange :=
  match y with
  | Years_All | Years_Unbound => TimeRange_All
  | Years_Constrained set => TimeRange_Constrained set
  end.

Definition show (c : Cron) : list Z :=
  let common := [show_range decimal (minutes c); show_range decimal (hours c);
                 show_range decimal (days_of_month c); show_range decimal (months c)] in
  join 32 (match range_of_seconds (seconds c) with
    | None => common ++ [show_range (λ d, decimal (d - 1)) (days_of_week c)]
    | Some secs =>
      show_range decimal secs :: common
      ++ [show_range decimal (days_of_week c); show_range decimal (range_of_years (years c))]
    end).

(** A range with at least one value, and values between [lo] and [hi]. *)
Definition range_within (lo hi : Z) (r : TimeRange) : Prop :=
  match r with
  | TimeRange_All => True
  | TimeRange_Constrained set => set ≠ ∅ ∧ ∀ x, x ∈ set → lo <= x <= hi
  end.

Record schedule (c : Cron) : Prop := {
  sched_seconds : ∀ r, range_of_seconds (seconds c) = Some r → range_within 0 u32_max r;
  sched_minutes : range_within 0 u32_max (minutes c);
  sched_hours : range_within 0 u32_max (hours c);
  sched_days : range_within 0 u32_max (days_of_month c);
  sched_months : range_within 1 12 (months c);
  sched_week : range_within 1 7 (days_of_week c);
  sched_years : range_within 0 u32_max (range_of_years (years c));
  sched_form : seconds c = Seconds_Ignore ↔ years c = Years_Unbound
}.

(** Texts of values: no separator, no space, and the parser reads the value. *)
Record shows (is_vixie is_dow is_dom : bool) (shown : Z → list Z) (lo hi : Z) : Prop := {
  shows_unit : ∀ x, lo <= x <= hi → is_unit is_vixie is_dow is_dom (shown x) x;
  shows_digits : ∀ x, lo <= x <= hi → Forall is_dec (shown x) ∧ shown x ≠ []
}.

Lemma digits_plain ds : Forall is_dec ds → plain ds ∧ comma ∉ ds ∧ ds ≠ text "*".
Proof.
  intros Hd. assert (∀ c, c ∈ ds → 48 <= c <= 57) as Hc.
  { intros c Hin. rewrite list_elem_of_In in Hin. by apply (proj1 (List.Forall_forall _ _) Hd). }
  unfold plain, dash, slash, comma. split_and!; [| | |intros ->].
  - intros ?%Hc; lia.
  - intros ?%Hc; lia.
  - intros ?%Hc; lia.
  - inversion Hd as [|?? H]. unfold is_dec in H. simpl in H. lia.
Qed.

Section show_field.
Context (is_vixie is_dow is_dom : bool) (shown : Z → list Z) (lo hi min max : Z).
Hypothesis Hshows : shows is_vixie is_dow is_dom shown lo hi.

Lemma parse_item_shown x :
  lo <= x <= hi → parse_item (shown x) min max is_vixie is_dow is_dom = Ok (Some [x]).
Proof.
  intros Hx. destruct Hshows as [Hu Hd]. destruct (Hd x Hx) as [Hds _].
  destruct (digits_plain _ Hds) as (Hp & _ & Hs). destruct (cut_value _ Hp) as [E1 E2].
  unfold parse_item. rewrite E1, E2. rewrite bool_decide_eq_false_2 by done.
  by rewrite (Hu x Hx).
Qed.

Lemma parse_items_shown xs set :
  Forall (λ x, lo <= x <= hi) xs →
  parse_items (shown <$> xs) set min max is_vixie is_dow is_dom
  = Ok (TimeRange_Constrained (list_to_set xs ∪ set)).
Proof.
  intros Hxs. revert set. induction Hxs as [|x xs Hx _ IH]; intros set.
  - simpl. do 2 f_equal. set_solver.
  - cbn [fmap list_fmap parse_items]. rewrite parse_item_shown by done.
    cbn [mbind res_bind]. rewrite IH. do 2 f_equal. set_solver.
Qed.

Lemma range_elements set :
  range_within lo hi (TimeRange_Constrained set) →
  Forall (λ x, lo <= x <= hi) (elements set) ∧ shown <$> elements set ≠ [].
Proof.
  intros [Hne Hw]. split; [by apply list.Forall_forall; intros x ?%elem_of_elements; apply Hw|].
  intros E%fmap_nil_inv. by apply elements_empty_inv, leibniz_equiv in E.
Qed.

Lemma parse_field_shown r :
  range_within lo hi r →
  parse_field (show_range shown r) min max is_vixie is_dow is_dom = Ok r.
Proof.
  unfold parse_field. destruct r as [|set]; [done|]. intros Hr. unfold show_range.
  destruct (range_elements set Hr) as [Hxs Hne].
  rewrite split_join; [|done|].
  - rewrite parse_items_shown by done. do 2 f_equal. set_solver.
  - apply Forall_fmap. eapply Forall_impl; [|exact Hxs]. intros x Hx. simpl.
    by apply digits_plain, Hshows.
Qed.

Lemma show_range_word r : range_within lo hi r → word (show_range shown r).
Proof.
  destruct r as [|set]; intros Hr; [split; [done|repeat constructor]|]. unfold show_range.
  destruct (range_elements set Hr) as [Hxs Hne]. clear Hr. revert Hxs Hne.
  generalize (elements set). intros xs Hxs. assert (∀ x, lo <= x <= hi → word (shown x)) as Hw.
  { intros x Hx. destruct Hshows as [_ Hd]. destruct (Hd x Hx) as [Hds ?]. split; [done|].
    eapply Forall_impl; [|exact Hds]. intros c [? ?]. unfold is_whitespace. lia. }
  induction Hxs as [|x xs Hx Hxs IH]; [done|]. intros _.
  destruct xs as [|y xs]; [by apply Hw|].
  change (shown <$> x :: y :: xs) with (shown x :: (shown <$> y :: xs)).
  rewrite join_cons by done. destruct (Hw x Hx) as [? ?]. destruct (IH ltac:(done)) as [? ?].
  split; [by destruct (shown x)|]. apply Forall_app. split; [done|]. by constructor.
Qed.
End show_field.

Lemma decimal_digits n : 0 <= n → Forall is_dec (decimal n) ∧ decimal n ≠ [].
Proof. intros Hn. destruct (decimal_printed n Hn) as [Hd _ _ Hne _]. by split. Qed.

Lemma shows_number v : shows v false false decimal 0 u32_max.
Proof.
  split; intros x Hx; [|apply decimal_digits; lia].
  unfold is_unit, parse_time_unit. by rewrite parse_uint_decimal.
Qed.

(** A range of at most twelve values, checked value by value. *)
Ltac by_values x Hx :=
  let H := fresh in
  assert (x = 1 ∨ x = 2 ∨ x = 3 ∨ x = 4 ∨ x = 5 ∨ x = 6 ∨ x = 7 ∨ x = 8 ∨ x = 9 ∨ x = 10
          ∨ x = 11 ∨ x = 12) as H by lia; clear Hx; repeat destruct H as [->|H]; subst; first [done | lia].

Lemma shows_month v : shows v false true decimal 1 12.
Proof.
  split; intros x Hx; [|apply decimal_digits; lia]. by_values x Hx.
Qed.

Lemma shows_week : shows true true false decimal 1 7.
Proof.
  split; intros x Hx; [|apply decimal_digits; lia].
  assert (1 <= x <= 7) as H0 by lia. by_values x Hx.
Qed.

Lemma shows_week_linux : shows false true false (λ d, decimal (d - 1)) 1 7.
Proof.
  split; intros x Hx; [|apply decimal_digits; lia].
  assert (1 <= x <= 7) as H0 by lia. by_values x Hx.
Qed.

Definition number_word := show_range_word _ _ _ _ _ _ (shows_number true).
Definition month_word := show_range_word _ _ _ _ _ _ (shows_month true).
Definition week_word := show_range_word _ _ _ _ _ _ shows_week.
Definition week_linux_word := show_range_word _ _ _ _ _ _ shows_week_linux.

Lemma seconds_of_range s r : range_of_seconds s = Some r → seconds_of r = s.
Proof. destruct s; simpl; intros; simplify_eq; done. Qed.
Lemma years_of_range y : y ≠ Years_Unbound → years_of (range_of_years y) = y.
Proof. by destruct y. Qed.

(** C32: every schedule can be written and is read back: of a schedule in the form of
    Linux crontabs or in the form with seconds and years, whose fields are the whole range
    or any non-empty set of values (of months and days of the week, the existing ones),
    the parser reads from its text exactly that schedule. *)
Theorem cron_roundtrip (c : Cron) (Hc : schedule c) : from_str (show c) = Ok c.
Proof.
  destruct c as [secs mins hrs days mons week yrs].
  destruct Hc as [Hsec Hmin Hhr Hday Hmon Hweek Hyr Hform]; simpl in *.
  unfold show, from_str; cbn [seconds minutes hours days_of_month months days_of_week years].
  destruct (range_of_seconds secs) as [r|] eqn:Er.
  - specialize (Hsec _ eq_refl). rewrite split_whitespace_join; cycle 1.
    { simpl. repeat (constructor; [eauto using number_word, month_word, week_word|]). constructor. }
    simpl app. cbv iota beta.
    rewrite !(parse_field_shown _ _ _ _ _ _ _ _ (shows_number true)) by done.
    cbn [mbind res_bind].
    rewrite (parse_field_shown _ _ _ _ _ _ _ _ (shows_month true)) by done.
    cbn [mbind res_bind].
    rewrite (parse_field_shown _ _ _ _ _ _ _ _ shows_week) by done. cbn [mbind res_bind].
    rewrite (seconds_of_range _ _ Er), years_of_range; [done|].
    intros Hy. apply Hform in Hy as ->. done.
  - destruct secs; try done. rewrite (proj1 Hform eq_refl).
    rewrite split_whitespace_join; cycle 1.
    { simpl. repeat (constructor; [eauto using number_word, month_word, week_linux_word|]). constructor. }
    simpl app. cbv iota beta.
    rewrite !(parse_field_shown _ _ _ _ _ _ _ _ (shows_number false)) by done.
    cbn [mbind res_bind].
    rewrite (parse_field_shown _ _ _ _ _ _ _ _ (shows_month false)) by done.
    cbn [mbind res_bind].
    by rewrite (parse_field_shown _ _ _ _ _ _ _ _ shows_week_linux) by done.
Qed.

Definition weekdays : Cron :=
  {| seconds := Seconds_Ignore; minutes := TimeRange_Constrained {[ 0; 30 ]};
     hours := TimeRange_Constrained {[ 9 ]}; days_of_month := TimeRange_All;
     months := TimeRange_All; days_of_week := TimeRange_Constrained {[ 2; 3; 4; 5; 6 ]};
     years := Years_Unbound |}.

Lemma cron_roundtrip_witness :
  show weekdays = text "30,0 9 * * 4,2,5,3,1" ∧ from_str (show weekdays) = Ok weekdays.
Proof.
  split; [vm_compute; reflexivity|]. apply cron_roundtrip.
  split; simpl; try done; unfold u32_max; split; first [set_solver|intros x Hx].
  all: rewrite ?elem_of_union, ?elem_of_singleton in Hx; lia.
Defined.

(** A value on its own, and the start of a step, are not compared with the bounds of the
    field: a schedule may name the minute 99, or the day 0. *)
Lemma out_of_range_accepted :
  parse_field (text "99") 0 59 false false false = Ok (TimeRange_Constrained {[ 99 ]})
  ∧ parse_field (text "0/30") 1 31 false false false = Ok (TimeRange_Constrained {[ 0; 30 ]}).
Proof. split; vm_compute; reflexivity. Qed.

(** A step of zero panics. *)
Lemma zero_step_panics : from_str (text "*/0 * * * *") = Panic.
Proof. vm_compute. reflexivity. Qed.
