(* ===== verification/Settings.v ===== *)
(** * The configuration file (src/config.rs, upstream/config.rs, dns/config.rs, serde/duration.rs;
      the [Config] of controller/server.rs and relay/thp/server.rs)

    The structs of the configuration and how serde reads them from a document.  The text of
    a document is parsed by [serde_yaml], a parameter: it gives a tree whose scalars can be
    asked for a string, a number and so on.  From there on the reading is what the
    [Deserialize] that the structs derive does with their attributes: the entries of a
    mapping are taken in their order, a field twice is an error, an unknown field is one
    where [deny_unknown_fields] says so, and a missing field is an error unless it is an
    [Option] or has a default.  (Two other spellings that serde takes, a sequence for a struct
    and a mapping for a variant, are refused here.) *)

From stdpp Require Import strings.
From S2P Require Import Prelude RustStr Io Address NetAddr Duration Resolver DnsServer Upstream Logger.

(** ** The structs *)

Record CheckConfig := { check_timeout : Z; check_interval : Z }.
Record ProviderConfig := { provider_endpoint : bytes; provider_interval : Z }.

Record UpstreamConfig := {
  up_load_balance : LoadBalanceType;
  up_check : CheckConfig;
  up_provider : ProviderConfig
}.

Record DnsConfig := {
  dns_listen : bytes;
  dns_cache : option CacheConfig;
  dns_nameservers : list SocketAddr;
  dns_hosts : option (list (bytes * bytes));
  dns_reject : option RejectConfig;
  dns_hijack : option HijackConfig
}.

Definition Log_default : Logger := {| level := INFO; timestamp := true |}.
Definition default_timestamp : bool := true.
Definition DEFAULT_CHECK_INTERVAL : Z := 10 * SECOND.
Definition DEFAULT_CHECK_TIMEOUT : Z := 5 * SECOND.

Record Config := {
  worker_of : option Z;
  resolvers : list SocketAddr;
  log : Logger;
  dns : DnsConfig;
  controller : option bytes;
  upstream : UpstreamConfig;
  thp : option (list SocketAddr)
}.

(** ** Documents *)

(** What the YAML parser and [tracing::Level] are asked for: a scalar as a string
    ([deserialize_str]), as what it looks like if that is a string ([deserialize_any]), as a
    boolean, as a number, and whether it is null. *)
Class YamlLib := {
  scalar : Type;
  scalar_str : scalar → option bytes;
  scalar_any_str : scalar → option bytes;
  scalar_bool : scalar → option bool;
  scalar_uint : scalar → option Z;
  scalar_null : scalar → bool;
  level_from_str : bytes → option Level
}.

Inductive Yaml `{YamlLib} :=
  | Scalar (s : scalar)
  | Sequence (l : list Yaml)
  | Mapping (m : list (bytes * Yaml)).

Inductive DeError :=
  | InvalidType
  | MissingField (name : bytes)
  | DuplicateField (name : bytes)
  | UnknownField (name : bytes)
  | UnknownVariant (name : bytes)
  | Custom (msg : bytes).

(** ** The adapters for durations *)

Definition ParseError_fmt (e : ParseError) : bytes :=
  match e with
  | BadInteger => text "bad integer"
  | InvalidDuration => text "invalid duration"
  | MissingUnit => text "missing unit"
  | UnknownUnit => text "unknown unit"
  end.

Section adapters.
Context `{Profile}.

(** [duration::deserialize] and [duration::option::deserialize], from the text that the
    deserialiser gives.  ([parse_duration] always has a result.) *)
Definition deserialize (s : res DeError bytes) : res DeError Z :=
  t ← s;
  match parse_duration t with
  | Some r => map_err (λ e, Custom (ParseError_fmt e)) r
  | None => Panic
  end.

Definition deserialize_option (s : res DeError (option bytes)) : res DeError (option Z) :=
  t ← s;
  match t with
  | Some t => d ← deserialize (Ok t); Ok (Some d)
  | None => Ok None
  end.

(** [duration::serialize] and [duration::option::serialize], to the text for the serialiser. *)
Definition serialize {E} (d : Z) : res E bytes := duration d.
Definition serialize_option {E} (d : option Z) : res E (option bytes) :=
  match d with
  | Some d => t ← duration d; Ok (Some t)
  | None => Ok None
  end.
End adapters.

(** [serialize_log_level] *)
Definition serialize_log_level (l : Level) : bytes := level_text l.

(** ** Reading *)

Section reading.
Context `{Profile} `{Y : YamlLib}.
Abbreviation de A := (Yaml → res DeError A).

Definition de_scalar {A} (f : scalar → option A) : de A := λ v,
  match v with Scalar s => ok_or InvalidType (f s) | _ => Err InvalidType end.
Definition de_string : de bytes := de_scalar scalar_str.
Definition de_bool : de bool := de_scalar scalar_bool.
Definition de_usize : de Z := de_scalar scalar_uint.

Definition is_null (v : Yaml) : bool := match v with Scalar s => scalar_null s | _ => false end.
Definition de_option {A} (f : de A) : de (option A) := λ v,
  if is_null v then Ok None else a ← f v; Ok (Some a).

Fixpoint de_list {A} (f : de A) (l : list Yaml) : res DeError (list A) :=
  match l with
  | [] => Ok []
  | v :: l => a ← f v; rest ← de_list f l; Ok (a :: rest)
  end.
Definition de_seq {A} (f : de A) : de (list A) := λ v,
  match v with Sequence l => de_list f l | _ => Err InvalidType end.

(** A type that is read with [FromStr]. *)
Definition de_parsed {A} (parse : bytes → option A) : de A := λ v,
  t ← de_string v; ok_or (Custom t) (parse t).

Definition de_socket_addr : de SocketAddr := de_parsed parse_socket_addr.

(** [IpAddr::from_str]: the whole text is an address of either family. *)
Definition parse_ip_addr (s : bytes) : option IpAddr :=
  match read_ipv4_addr s with
  | Some (ip, []) => Some (IpV4 ip)
  | Some _ => None
  | None => match read_ipv6_addr s with Some (ip, []) => Some (IpV6 ip) | _ => None end
  end.
Definition de_ip_addr : de IpAddr := de_parsed parse_ip_addr.

Definition de_duration : de Z := λ v, deserialize (de_string v).
Definition de_duration_option : de (option Z) := λ v, deserialize_option (de_option de_string v).

(** [deserialize_log_level]: its visitor takes a string only. *)
Definition deserialize_log_level : de Level := λ v,
  t ← de_scalar scalar_any_str v;
  ok_or (Custom (text "invalid level")) (level_from_str t).

(** The order of [String]. *)
Fixpoint bytes_compare (a b : bytes) : comparison :=
  match a, b with
  | [], [] => Eq
  | [], _ => Lt
  | _, [] => Gt
  | x :: a, y :: b => match x ?= y with Eq => bytes_compare a b | c => c end
  end.

(** A [BTreeMap]: ordered by key, a later entry replaces an earlier one. *)
Fixpoint btree_insert (k v : bytes) (m : list (bytes * bytes)) : list (bytes * bytes) :=
  match m with
  | [] => [(k, v)]
  | (k', v') :: m' =>
    match bytes_compare k k' with
    | Lt => (k, v) :: m
    | Eq => (k, v) :: m'
    | Gt => (k', v') :: btree_insert k v m'
    end
  end.
Fixpoint de_btree_map (m : list (bytes * Yaml)) (acc : list (bytes * bytes))
  : res DeError (list (bytes * bytes)) :=
  match m with
  | [] => Ok acc
  | (k, v) :: m => t ← de_string v; de_btree_map m (btree_insert k t acc)
  end.
Definition de_hosts : de (list (bytes * bytes)) := λ v,
  match v with Mapping m => de_btree_map m [] | _ => Err InvalidType end.

(** *** Structs *)

Fixpoint find_entry {A} (k : bytes) (m : list (bytes * A)) : option A :=
  match m with
  | [] => None
  | (k', a) :: m => if bool_decide (k' = k) then Some a else find_entry k m
  end.

(** The entries of the mapping in their order; [fields] are the names and readers of the
    fields, [seen] those that have come. *)
Fixpoint visit_map (deny_unknown_fields : bool) (fields : list (bytes * de ())) (seen : list bytes)
    (m : list (bytes * Yaml)) : res DeError () :=
  match m with
  | [] => Ok ()
  | (k, v) :: m =>
    match find_entry k fields with
    | Some f =>
      if bool_decide (k ∈ seen) then Err (DuplicateField k)
      else _ ← f v; visit_map deny_unknown_fields fields (k :: seen) m
    | None => if deny_unknown_fields then Err (UnknownField k) else visit_map deny_unknown_fields fields seen m
    end
  end.

Definition reads {A} (name : string) (f : de A) : bytes * de () := (text name, λ v, _ ← f v; Ok ()).

Definition struct_of (deny_unknown_fields : bool) (fields : list (bytes * de ())) : de (list (bytes * Yaml)) := λ v,
  match v with
  | Mapping m => _ ← visit_map deny_unknown_fields fields [] m; Ok m
  | _ => Err InvalidType
  end.

Definition defaulted {A} (name : string) (f : de A) (default : A) (m : list (bytes * Yaml)) : res DeError A :=
  match find_entry (text name) m with Some v => f v | None => Ok default end.
Definition required {A} (name : string) (f : de A) (m : list (bytes * Yaml)) : res DeError A :=
  match find_entry (text name) m with Some v => f v | None => Err (MissingField (text name)) end.
(** A field of an [Option] type. *)
Definition optional {A} (name : string) (f : de A) (m : list (bytes * Yaml)) : res DeError (option A) :=
  defaulted name (de_option f) None m.

(** *** The structs of the configuration *)

Definition de_log : de Logger := λ v,
  m ← struct_of true [reads "level" deserialize_log_level; reads "timestamp" de_bool] v;
  level ← required "level" deserialize_log_level m;
  timestamp ← defaulted "timestamp" de_bool default_timestamp m;
  Ok {| level := level; timestamp := timestamp |}.

Definition de_load_balance : de LoadBalanceType := λ v,
  t ← de_string v;
  if bool_decide (t = text "best") then Ok Best
  else if bool_decide (t = text "etld") then Ok Etld
  else Err (UnknownVariant t).

Definition de_check : de CheckConfig := λ v,
  m ← struct_of false [reads "timeout" de_duration; reads "interval" de_duration] v;
  timeout ← defaulted "timeout" de_duration DEFAULT_CHECK_TIMEOUT m;
  interval ← defaulted "interval" de_duration DEFAULT_CHECK_INTERVAL m;
  Ok {| check_timeout := timeout; check_interval := interval |}.

Definition de_provider : de ProviderConfig := λ v,
  m ← struct_of false [reads "endpoint" de_string; reads "interval" de_duration] v;
  endpoint ← required "endpoint" de_string m;
  interval ← required "interval" de_duration m;
  Ok {| provider_endpoint := endpoint; provider_interval := interval |}.

Definition de_upstream : de UpstreamConfig := λ v,
  m ← struct_of false [reads "load_balance" de_load_balance; reads "check" de_check; reads "provider" de_provider] v;
  lb ← defaulted "load_balance" de_load_balance Best m;
  check ← required "check" de_check m;
  provider ← required "provider" de_provider m;
  Ok {| up_load_balance := lb; up_check := check; up_provider := provider |}.

Definition de_cache : de CacheConfig := λ v,
  m ← struct_of false [reads "size" de_usize; reads "ttl" de_duration] v;
  size ← required "size" de_usize m;
  ttl ← required "ttl" de_duration m;
  Ok {| cc_size := Z.to_nat size; cc_ttl := ttl |}.

Definition de_nameservers : de (list SocketAddr) := λ v,
  m ← struct_of false [reads "nameservers" (de_seq de_socket_addr)] v;
  required "nameservers" (de_seq de_socket_addr) m.

Definition de_reject : de RejectConfig := λ v,
  m ← struct_of false [reads "endpoint" de_string; reads "interval" de_duration_option] v;
  endpoint ← required "endpoint" de_string m;
  interval ← defaulted "interval" de_duration_option None m;
  Ok {| rc_endpoint := endpoint; rc_interval := interval |}.

Definition de_hijack : de HijackConfig := λ v,
  m ← struct_of false [reads "endpoint" de_string; reads "hijack" de_ip_addr; reads "interval" de_duration_option] v;
  endpoint ← required "endpoint" de_string m;
  hijack ← required "hijack" de_ip_addr m;
  interval ← defaulted "interval" de_duration_option None m;
  Ok {| hc_endpoint := endpoint; hc_hijack := hijack; hc_interval := interval |}.

Definition de_dns : de DnsConfig := λ v,
  m ← struct_of false [reads "listen" de_string; reads "cache" (de_option de_cache); reads "upstream" de_nameservers;
                       reads "hosts" (de_option de_hosts); reads "reject" (de_option de_reject);
                       reads "hijack" (de_option de_hijack)] v;
  listen ← required "listen" de_string m;
  cache ← optional "cache" de_cache m;
  nameservers ← required "upstream" de_nameservers m;
  hosts ← optional "hosts" de_hosts m;
  reject ← optional "reject" de_reject m;
  hijack ← optional "hijack" de_hijack m;
  Ok {| dns_listen := listen; dns_cache := cache; dns_nameservers := nameservers;
        dns_hosts := hosts; dns_reject := reject; dns_hijack := hijack |}.

Definition de_controller : de bytes := λ v,
  m ← struct_of false [reads "listen" de_string] v; required "listen" de_string m.

Definition de_thp : de (list SocketAddr) := λ v,
  m ← struct_of false [reads "listen" (de_seq de_socket_addr)] v; required "listen" (de_seq de_socket_addr) m.

Definition de_config : de Config := λ v,
  m ← struct_of false [reads "worker" (de_option de_usize); reads "resolvers" (de_seq de_socket_addr);
                       reads "log" de_log; reads "dns" de_dns; reads "controller" (de_option de_controller);
                       reads "upstream" de_upstream; reads "thp" (de_option de_thp)] v;
  worker ← optional "worker" de_usize m;
  resolvers ← defaulted "resolvers" (de_seq de_socket_addr) [] m;
  log ← defaulted "log" de_log Log_default m;
  dns ← required "dns" de_dns m;
  controller ← optional "controller" de_controller m;
  upstream ← required "upstream" de_upstream m;
  thp ← optional "thp" de_thp m;
  Ok {| worker_of := worker; resolvers := resolvers; log := log; dns := dns;
        controller := controller; upstream := upstream; thp := thp |}.
End reading.

(** ** Documents that spell out a configuration *)

(** Scalars for strings, booleans, numbers and null, which are read as what they were
    written for, and levels, which are read from their names. *)
Class YamlLibOk (Y : YamlLib) := {
  str_scalar : bytes → scalar;
  bool_scalar : bool → scalar;
  uint_scalar : Z → scalar;
  null_scalar : scalar;
  str_scalar_ok t : scalar_str (str_scalar t) = Some t ∧ scalar_any_str (str_scalar t) = Some t
                    ∧ scalar_null (str_scalar t) = false;
  bool_scalar_ok b : scalar_bool (bool_scalar b) = Some b;
  uint_scalar_ok n : 0 <= n <= u64_max → scalar_uint (uint_scalar n) = Some n ∧ scalar_null (uint_scalar n) = false;
  null_scalar_ok : scalar_null null_scalar = true;
  level_named l : level_from_str (level_text l) = Some l
}.

Section writing.
Context `{Profile} `{Y : YamlLib} `{!YamlLibOk Y}.

Definition w_str (t : bytes) : Yaml := Scalar (str_scalar t).
Definition w_uint (n : Z) : Yaml := Scalar (uint_scalar n).
Definition w_option {A} (f : A → Yaml) (o : option A) : Yaml :=
  match o with Some a => f a | None => Scalar null_scalar end.
Definition w_duration (d : Z) : Yaml :=
  match serialize (E:=()) d with Ok t => w_str t | _ => Scalar null_scalar end.
Definition w_entries (fields : list (string * Yaml)) : Yaml := Mapping ((λ f, (text f.1, f.2)) <$> fields).
Definition w_socket_addr (a : SocketAddr) : Yaml := w_str (socket_addr_text a).
Definition w_ip_addr (ip : IpAddr) : Yaml :=
  w_str match ip with IpV4 o => ipv4_text o | IpV6 segs => ipv6_text segs end.

Definition w_log (l : Logger) : Yaml :=
  w_entries [("level"%string, w_str (serialize_log_level (level l)));
             ("timestamp"%string, Scalar (bool_scalar (timestamp l)))].
Definition w_check (c : CheckConfig) : Yaml :=
  w_entries [("timeout"%string, w_duration (check_timeout c)); ("interval"%string, w_duration (check_interval c))].
Definition w_provider (c : ProviderConfig) : Yaml :=
  w_entries [("endpoint"%string, w_str (provider_endpoint c)); ("interval"%string, w_duration (provider_interval c))].
Definition w_upstream (c : UpstreamConfig) : Yaml :=
  w_entries [("load_balance"%string, w_str match up_load_balance c with Best => text "best" | Etld => text "etld" end);
             ("check"%string, w_check (up_check c)); ("provider"%string, w_provider (up_provider c))].
Definition w_cache (c : CacheConfig) : Yaml :=
  w_entries [("size"%string, w_uint (Z.of_nat (cc_size c))); ("ttl"%string, w_duration (cc_ttl c))].
Definition w_reject (c : RejectConfig) : Yaml :=
  w_entries [("endpoint"%string, w_str (rc_endpoint c)); ("interval"%string, w_option w_duration (rc_interval c))].
Definition w_hijack (c : HijackConfig) : Yaml :=
  w_entries [("endpoint"%string, w_str (hc_endpoint c)); ("hijack"%string, w_ip_addr (hc_hijack c));
             ("interval"%string, w_option w_duration (hc_interval c))].
Definition w_hosts (m : list (bytes * bytes)) : Yaml := Mapping ((λ e, (e.1, w_str e.2)) <$> m).
Definition w_dns (c : DnsConfig) : Yaml :=
  w_entries [("listen"%string, w_str (dns_listen c)); ("cache"%string, w_option w_cache (dns_cache c));
             ("upstream"%string, w_entries [("nameservers"%string, Sequence (w_socket_addr <$> dns_nameservers c))]);
             ("hosts"%string, w_option w_hosts (dns_hosts c)); ("reject"%string, w_option w_reject (dns_reject c));
             ("hijack"%string, w_option w_hijack (dns_hijack c))].
Definition w_controller (listen : bytes) : Yaml := w_entries [("listen"%string, w_str listen)].
Definition w_thp (listen : list SocketAddr) : Yaml :=
  w_entries [("listen"%string, Sequence (w_socket_addr <$> listen))].
Definition w_config (c : Config) : Yaml :=
  w_entries [("worker"%string, w_option w_uint (worker_of c)); ("resolvers"%string, Sequence (w_socket_addr <$> resolvers c));
             ("log"%string, w_log (log c)); ("dns"%string, w_dns (dns c));
             ("controller"%string, w_option w_controller (controller c)); ("upstream"%string, w_upstream (upstream c));
             ("thp"%string, w_option w_thp (thp c))].
End writing.

(** *** What can be spelled out *)

Definition duration_ok (d : Z) : Prop := 0 <= d < 2 ^ 64.
Definition socket_ok (a : SocketAddr) : Prop := text_ok (SocketAddress a).
Definition ip_ok (ip : IpAddr) : Prop :=
  match ip with
  | IpV4 o => length o = 4%nat ∧ bytes_ok o
  | IpV6 segs => length segs = 8%nat ∧ Forall is_u16 segs
  end.
Definition option_ok {A} (P : A → Prop) (o : option A) : Prop := match o with Some a => P a | None => True end.

(** The keys of a [BTreeMap] are in order. *)
Fixpoint btree_ok (m : list (bytes * bytes)) : Prop :=
  match m with
  | [] => True
  | e :: m => Forall (λ e', bytes_compare e'.1 e.1 = Gt) m ∧ btree_ok m
  end.

Definition check_ok (c : CheckConfig) : Prop := duration_ok (check_timeout c) ∧ duration_ok (check_interval c).
Definition upstream_ok (c : UpstreamConfig) : Prop :=
  check_ok (up_check c) ∧ duration_ok (provider_interval (up_provider c)).
Definition dns_ok (c : DnsConfig) : Prop :=
  option_ok (λ cc, Z.of_nat (cc_size cc) <= u64_max ∧ duration_ok (cc_ttl cc)) (dns_cache c)
  ∧ Forall socket_ok (dns_nameservers c)
  ∧ option_ok btree_ok (dns_hosts c)
  ∧ option_ok (λ rc, option_ok duration_ok (rc_interval rc)) (dns_reject c)
  ∧ option_ok (λ hc, ip_ok (hc_hijack hc) ∧ option_ok duration_ok (hc_interval hc)) (dns_hijack c).
Definition config_ok (c : Config) : Prop :=
  option_ok (λ n, 0 <= n <= u64_max) (worker_of c)
  ∧ Forall socket_ok (resolvers c)
  ∧ dns_ok (dns c)
  ∧ upstream_ok (upstream c)
  ∧ option_ok (Forall socket_ok) (thp c).

(** *** They are read back *)

(** Names of fields are compared by evaluation. *)
Ltac decide_names :=
  repeat match goal with
  | |- context [bool_decide ?P] =>
    let b := eval vm_compute in (bool_decide P) in
    match b with
    | true => change (bool_decide P) with true
    | false => change (bool_decide P) with false
    end; cbn [visit_map find_entry]
  end.

Ltac read_fields :=
  unfold struct_of, optional, required, defaulted, w_entries, reads;
  cbn [fmap list_fmap fst snd visit_map find_entry]; decide_names.

Ltac next_field :=
  unfold required, defaulted, optional; cbn [mbind res_bind visit_map find_entry]; decide_names;
  cbn [mbind res_bind].

(** Reads a struct whose fields the equations of the context read. *)
Ltac read_struct :=
  read_fields;
  repeat (match goal with E : _ = Ok _ |- _ => rewrite E end; next_field).

Section read_back.
Context `{Profile} `{Y : YamlLib} `{!YamlLibOk Y}.

Lemma de_string_written t : de_string (w_str t) = Ok t.
Proof. unfold de_string, w_str. simpl. by rewrite (proj1 (str_scalar_ok t)). Qed.

Lemma de_usize_written n : 0 <= n <= u64_max → de_usize (w_uint n) = Ok n.
Proof. intros Hn. unfold de_usize, w_uint. simpl. by rewrite (proj1 (uint_scalar_ok n Hn)). Qed.

Lemma w_duration_written d : duration_ok d → ∃ t, w_duration d = w_str t ∧ parse_duration t = Some (Ok d).
Proof.
  intros Hd. destruct (printed_parses (E:=()) d Hd) as (t & Ht & Hp). exists t. split; [|done].
  unfold w_duration, serialize. by rewrite Ht.
Qed.

Lemma de_duration_written d : duration_ok d → de_duration (w_duration d) = Ok d.
Proof.
  intros (t & -> & Ht)%w_duration_written. unfold de_duration. rewrite de_string_written. simpl. by rewrite Ht.
Qed.

(** An option is read back if its values are, and are not written as null. *)
Lemma de_option_written {A} (f : Yaml → res DeError A) (w : A → Yaml) (o : option A) :
  option_ok (λ a, f (w a) = Ok a ∧ is_null (w a) = false) o → de_option f (w_option w o) = Ok o.
Proof.
  destruct o as [a|]; simpl; unfold de_option; simpl.
  - intros [Hf ->]. by rewrite Hf.
  - intros _. by rewrite null_scalar_ok.
Qed.

Lemma w_str_not_null t : is_null (w_str t) = false.
Proof. simpl. apply str_scalar_ok. Qed.

Lemma de_duration_option_written o : option_ok duration_ok o →
  de_duration_option (w_option w_duration o) = Ok o.
Proof.
  destruct o as [d|]; unfold de_duration_option; simpl.
  - intros (t & -> & Ht)%w_duration_written. unfold de_option. rewrite w_str_not_null, de_string_written. simpl.
    by rewrite Ht.
  - intros _. unfold de_option. simpl. by rewrite null_scalar_ok.
Qed.

Lemma de_list_written {A} (f : Yaml → res DeError A) (w : A → Yaml) (l : list A) :
  Forall (λ a, f (w a) = Ok a) l → de_list f (w <$> l) = Ok l.
Proof. induction 1 as [|a l Ha _ IH]; [done|]. rewrite fmap_cons. cbn [de_list]. rewrite Ha. cbn [mbind res_bind]. by rewrite IH. Qed.

Lemma de_socket_written a : socket_ok a → de_socket_addr (w_socket_addr a) = Ok a.
Proof.
  intros Ha. unfold de_socket_addr, de_parsed, w_socket_addr. rewrite de_string_written. simpl.
  destruct a as [ip port|ip port flow scope_id]; simpl in Ha.
  - destruct Ha as (? & ? & ?). simpl. by rewrite parse_v4_text.
  - destruct Ha as (? & ? & ? & -> & ?). by rewrite parse_v6_text.
Qed.

Lemma de_sockets_written l : Forall socket_ok l →
  de_seq de_socket_addr (Sequence (w_socket_addr <$> l)) = Ok l.
Proof. intros Hl. simpl. apply de_list_written. eapply list.Forall_impl; [exact Hl|]. apply de_socket_written. Qed.

Lemma fmt_subslice_dots segs : Forall is_u16 segs → Forall (λ c, c ≠ full_stop) (fmt_subslice segs).
Proof.
  intros Hs. unfold fmt_subslice. induction Hs as [|g segs Hg _ IH]; [done|]. destruct segs as [|g' segs]; simpl in *.
  - by apply hex_chars.
  - apply Forall_app. split; [by apply hex_chars|]. constructor; [done|exact IH].
Qed.

(** The text of an IPv6 address does not begin like an IPv4 address. *)
Lemma v6_text_not_v4 segs : Forall is_u16 segs → read_ipv4_addr (ipv6_text segs) = None.
Proof.
  intros Hs. unfold ipv6_text. case_bool_decide; [done|]. case_bool_decide; [done|].
  destruct (to_ipv4 segs); [by case_match|].
  set (z := longest_zeroes _ _ _ _). rewrite <- (app_nil_r (if bool_decide _ then _ else _)).
  apply no_ipv4; [|by intros c].
  case_bool_decide; [|by apply fmt_subslice_dots].
  apply Forall_app. split; [by apply fmt_subslice_dots, Forall_take|].
  do 2 (constructor; [done|]). by apply fmt_subslice_dots, Forall_drop.
Qed.

Lemma parse_ip_text ip : ip_ok ip →
  parse_ip_addr match ip with IpV4 o => ipv4_text o | IpV6 segs => ipv6_text segs end = Some ip.
Proof.
  destruct ip as [o|segs]; simpl; intros [Hl Hok]; unfold parse_ip_addr.
  - unfold read_ipv4_addr, ipv4_text. pose proof (read_octets_printed o 0 [] Hok) as Hr.
    rewrite Hl, app_nil_l, app_nil_r in Hr. rewrite Hr; [done|by intros c|by destruct o].
  - rewrite v6_text_not_v4 by done. rewrite <- (app_nil_r (ipv6_text segs)).
    rewrite read_ipv6_text; [done|done|done| |by intros c]. split; [by intros c|done].
Qed.

Lemma de_ip_written ip : ip_ok ip → de_ip_addr (w_ip_addr ip) = Ok ip.
Proof.
  intros Hip. unfold de_ip_addr, de_parsed, w_ip_addr. rewrite de_string_written. simpl. by rewrite parse_ip_text.
Qed.

Lemma btree_insert_last k v m : Forall (λ e, bytes_compare k e.1 = Gt) m → btree_insert k v m = m ++ [(k, v)].
Proof. induction 1 as [|[k' v'] m Hk _ IH]; [done|]. simpl in *. by rewrite Hk, IH. Qed.

Lemma de_btree_written m acc : btree_ok m →
  Forall (λ e, Forall (λ e', bytes_compare e'.1 e.1 = Gt) m) acc →
  de_btree_map ((λ e, (e.1, w_str e.2)) <$> m) acc = Ok (acc ++ m).
Proof.
  revert acc. induction m as [|[k v] m IH]; intros acc Hm Hacc; [by rewrite app_nil_r|].
  destruct Hm as [Hk Hm]. cbn [fmap list_fmap fst snd de_btree_map]. rewrite de_string_written. cbn [mbind res_bind].
  rewrite btree_insert_last.
  - rewrite IH; [by rewrite <- app_assoc|done|]. apply Forall_app. split; [|by constructor].
    eapply list.Forall_impl; [exact Hacc|]. intros e He. by inversion He.
  - eapply list.Forall_impl; [exact Hacc|]. intros e He. by inversion He.
Qed.

Lemma de_log_written l : de_log (w_log l) = Ok l.
Proof.
  assert (deserialize_log_level (w_str (serialize_log_level (level l))) = Ok (level l)) as Hl.
  { unfold deserialize_log_level, w_str, de_scalar. rewrite (proj1 (proj2 (str_scalar_ok _))). simpl.
    unfold serialize_log_level. by rewrite level_named. }
  assert (de_bool (Scalar (bool_scalar (timestamp l))) = Ok (timestamp l)) as Hb.
  { unfold de_bool. simpl. by rewrite bool_scalar_ok. }
  unfold de_log, w_log. read_struct. by destruct l.
Qed.

Lemma de_check_written c : check_ok c → de_check (w_check c) = Ok c.
Proof.
  intros [Ht%de_duration_written Hi%de_duration_written]. unfold de_check, w_check. read_struct. by destruct c.
Qed.

Lemma de_provider_written c : duration_ok (provider_interval c) → de_provider (w_provider c) = Ok c.
Proof.
  intros Hi%de_duration_written. pose proof (de_string_written (provider_endpoint c)).
  unfold de_provider, w_provider. read_struct. by destruct c.
Qed.

Lemma de_upstream_written c : upstream_ok c → de_upstream (w_upstream c) = Ok c.
Proof.
  intros [Hc%de_check_written Hp%de_provider_written].
  assert (de_load_balance (w_str match up_load_balance c with Best => text "best" | Etld => text "etld" end)
          = Ok (up_load_balance c)) as Hlb.
  { unfold de_load_balance. rewrite de_string_written. by destruct (up_load_balance c). }
  unfold de_upstream, w_upstream. read_struct. by destruct c.
Qed.

Lemma de_cache_written c : Z.of_nat (cc_size c) <= u64_max ∧ duration_ok (cc_ttl c) → de_cache (w_cache c) = Ok c.
Proof.
  intros [Hs Ht%de_duration_written]. pose proof (de_usize_written (Z.of_nat (cc_size c)) ltac:(lia)).
  unfold de_cache, w_cache. read_struct. rewrite Nat2Z.id. by destruct c.
Qed.

Lemma de_reject_written c : option_ok duration_ok (rc_interval c) → de_reject (w_reject c) = Ok c.
Proof.
  intros Hi%de_duration_option_written. pose proof (de_string_written (rc_endpoint c)).
  unfold de_reject, w_reject. read_struct. by destruct c.
Qed.

Lemma de_hijack_written c : ip_ok (hc_hijack c) → option_ok duration_ok (hc_interval c) →
  de_hijack (w_hijack c) = Ok c.
Proof.
  intros Hip%de_ip_written Hi%de_duration_option_written. pose proof (de_string_written (hc_endpoint c)).
  unfold de_hijack, w_hijack. read_struct. by destruct c.
Qed.

Lemma de_nameservers_written l : Forall socket_ok l →
  de_nameservers (w_entries [("nameservers"%string, Sequence (w_socket_addr <$> l))]) = Ok l.
Proof. intros Hl%de_sockets_written. unfold de_nameservers. by read_struct. Qed.

Lemma de_controller_written t : de_controller (w_controller t) = Ok t.
Proof. pose proof (de_string_written t). unfold de_controller, w_controller. by read_struct. Qed.

Lemma de_thp_written l : Forall socket_ok l → de_thp (w_thp l) = Ok l.
Proof. intros Hl%de_sockets_written. unfold de_thp, w_thp. by read_struct. Qed.

Lemma de_hosts_written m : btree_ok m → de_hosts (w_hosts m) = Ok m.
Proof. intros Hm. unfold de_hosts, w_hosts. by rewrite de_btree_written. Qed.

(** An option of a value that is written as a mapping. *)
Lemma de_option_mapping {A} (f : Yaml → res DeError A) (w : A → Yaml) (P : A → Prop) (o : option A) :
  (∀ a, P a → f (w a) = Ok a) → (∀ a, is_null (w a) = false) → option_ok P o →
  de_option f (w_option w o) = Ok o.
Proof. intros Hf Hn Ho. apply de_option_written. destruct o; simpl in *; auto. Qed.

Lemma de_dns_written c : dns_ok c → de_dns (w_dns c) = Ok c.
Proof.
  intros (Hca & Hns%de_nameservers_written & Hho & Hre & Hhi).
  apply (de_option_mapping de_cache w_cache) in Hca; [|by apply de_cache_written|done].
  apply (de_option_mapping de_hosts w_hosts) in Hho; [|by apply de_hosts_written|done].
  apply (de_option_mapping de_reject w_reject) in Hre; [|by apply de_reject_written|done].
  apply (de_option_mapping de_hijack w_hijack) in Hhi; [|by intros a [??]; apply de_hijack_written|done].
  pose proof (de_string_written (dns_listen c)). unfold de_dns, w_dns.
  set (ns := w_entries [("nameservers"%string, _)]) in *. read_struct. by destruct c.
Qed.

Lemma de_config_written c : config_ok c → de_config (w_config c) = Ok c.
Proof.
  intros (Hw & Hr%de_sockets_written & Hd%de_dns_written & Hu%de_upstream_written & Ht).
  assert (de_option de_usize (w_option w_uint (worker_of c)) = Ok (worker_of c)) as Ew.
  { apply de_option_written. destruct (worker_of c) as [n|]; [|done]. simpl in Hw.
    split; [by apply de_usize_written|]. by apply uint_scalar_ok. }
  apply (de_option_mapping de_thp w_thp) in Ht; [|by apply de_thp_written|done].
  assert (de_option de_controller (w_option w_controller (controller c)) = Ok (controller c)) as Ec.
  { apply (de_option_mapping _ _ (λ _, True)); [intros; apply de_controller_written|done|by destruct (controller c)]. }
  pose proof (de_log_written (log c)). unfold de_config, w_config. read_struct. by destruct c.
Qed.
End read_back.

(** ** Reading never panics

    In a build that wraps: a duration that overflows panics in one that checks. *)

Section total.
Context `{Profile} `{Y : YamlLib}.

Lemma safe_map_err {E F A} (f : E → F) (m : res E A) : safe m → safe (map_err f m).
Proof. intros Hm Ho. specialize (Hm Ho). by destruct m. Qed.

Lemma safe_ok_or {E A} (e : E) (o : option A) : safe (ok_or e o).
Proof. by destruct o. Qed.

Definition safe_de {A} (f : Yaml → res DeError A) : Prop := ∀ v, safe (f v).

Lemma safe_scalar {A} (f : scalar → option A) : safe_de (de_scalar f).
Proof. intros [s| |]; [apply safe_ok_or|done..]. Qed.

Lemma safe_de_bind {A B} (f : Yaml → res DeError A) (g : A → res DeError B) :
  safe_de f → (∀ a, safe (g a)) → safe_de (λ v, f v ≫= g).
Proof. intros Hf Hg v. apply safe_bind; [apply Hf|done]. Qed.

Lemma safe_option {A} (f : Yaml → res DeError A) : safe_de f → safe_de (de_option f).
Proof. intros Hf v. unfold de_option. destruct (is_null v); [done|]. by apply safe_bind. Qed.

Lemma safe_seq {A} (f : Yaml → res DeError A) : safe_de f → safe_de (de_seq f).
Proof.
  intros Hf [|l|]; [done| |done]. simpl. induction l as [|v l IH]; [done|]. simpl.
  apply safe_bind; [done|]. intros a. by apply safe_bind.
Qed.

Lemma safe_parsed {A} (parse : bytes → option A) : safe_de (de_parsed parse).
Proof. apply safe_de_bind; [apply safe_scalar|]. intros. apply safe_ok_or. Qed.

Lemma safe_deserialize s : safe s → safe (deserialize s).
Proof.
  intros Hs. apply safe_bind; [done|]. intros t. destruct (parse_duration_total t) as (r & -> & Hr & _).
  by apply safe_map_err.
Qed.

Lemma safe_duration : safe_de de_duration.
Proof. intros v. apply safe_deserialize, safe_scalar. Qed.

Lemma safe_duration_option : safe_de de_duration_option.
Proof.
  intros v. apply safe_bind; [apply safe_option, safe_scalar|]. intros [t|]; [|done].
  apply safe_bind; [by apply safe_deserialize|done].
Qed.

Lemma safe_level : safe_de deserialize_log_level.
Proof. apply safe_de_bind; [apply safe_scalar|]. intros. apply safe_ok_or. Qed.

Lemma safe_load_balance : safe_de de_load_balance.
Proof. apply safe_de_bind; [apply safe_scalar|]. intros t. by repeat case_bool_decide. Qed.

Lemma safe_hosts : safe_de de_hosts.
Proof.
  intros [| |m]; [done..|]. simpl. generalize (@nil (bytes * bytes)).
  induction m as [|[k v] m IH]; intros acc; [done|]. simpl. apply safe_bind; [apply safe_scalar|]. intros. apply IH.
Qed.

Lemma safe_reads {A} name (f : Yaml → res DeError A) : safe_de f → safe_de (reads name f).2.
Proof. intros Hf v. by apply safe_bind. Qed.

Lemma safe_struct deny fields : Forall (λ f, safe_de f.2) fields → safe_de (struct_of deny fields).
Proof.
  intros Hf [| |m]; [done..|]. simpl. apply safe_bind; [|done]. generalize (@nil bytes).
  induction m as [|[k v] m IH]; intros seen; [done|]. cbn [visit_map].
  destruct (find_entry k fields) as [f|] eqn:Ef; [|by destruct deny]. case_bool_decide; [done|].
  apply safe_bind; [|intros; apply IH]. clear -Hf Ef.
  induction Hf as [|[k' f'] fields Hk _ IH]; [done|]. simpl in Ef. case_bool_decide; [by simplify_eq|auto].
Qed.

Lemma safe_defaulted {A} name (f : Yaml → res DeError A) d m : safe_de f → safe (defaulted name f d m).
Proof. intros Hf. unfold defaulted. by destruct (find_entry _ m). Qed.
Lemma safe_required {A} name (f : Yaml → res DeError A) m : safe_de f → safe (required name f m).
Proof. intros Hf. unfold required. by destruct (find_entry _ m). Qed.
End total.

(** The readers of the fields, and the walk through a struct. *)
Create HintDb settings discriminated.
#[export] Hint Resolve safe_option safe_seq safe_parsed safe_duration safe_duration_option safe_level
  safe_load_balance safe_hosts safe_reads safe_defaulted safe_required safe_ok : settings.
#[export] Hint Extern 0 (safe_de de_string) => apply safe_scalar : settings.
#[export] Hint Extern 0 (safe_de de_bool) => apply safe_scalar : settings.
#[export] Hint Extern 0 (safe_de de_usize) => apply safe_scalar : settings.
#[export] Hint Extern 0 (safe_de de_socket_addr) => apply safe_parsed : settings.
#[export] Hint Extern 0 (safe_de de_ip_addr) => apply safe_parsed : settings.

Ltac safe_fields :=
  intros v; apply safe_bind;
  [apply safe_struct; repeat (apply Forall_cons_2; [by auto with settings|]); constructor
  |intros ?; repeat (apply safe_bind; [unfold optional; by auto with settings|intros ?]); by auto with settings].

Section config_total.
Context `{Profile} `{Y : YamlLib}.

Lemma safe_log : safe_de de_log.
Proof. safe_fields. Qed.
Lemma safe_check : safe_de de_check.
Proof. safe_fields. Qed.
Lemma safe_provider : safe_de de_provider.
Proof. safe_fields. Qed.
Lemma safe_cache : safe_de de_cache.
Proof. safe_fields. Qed.
Lemma safe_nameservers : safe_de de_nameservers.
Proof. safe_fields. Qed.
Lemma safe_reject : safe_de de_reject.
Proof. safe_fields. Qed.
Lemma safe_hijack : safe_de de_hijack.
Proof. safe_fields. Qed.
Lemma safe_controller : safe_de de_controller.
Proof. safe_fields. Qed.
Lemma safe_thp : safe_de de_thp.
Proof. safe_fields. Qed.
#[local] Hint Resolve safe_log safe_check safe_provider safe_cache safe_nameservers safe_reject safe_hijack
  safe_controller safe_thp : settings.

Lemma safe_upstream : safe_de de_upstream.
Proof. safe_fields. Qed.
Lemma safe_dns : safe_de de_dns.
Proof. safe_fields. Qed.
#[local] Hint Resolve safe_upstream safe_dns : settings.

Lemma safe_config : safe_de de_config.
Proof. safe_fields. Qed.
End config_total.

(** ** Properties *)

(** C26: the configuration is read as it is written.  A document that spells out a
    configuration, with its durations, addresses and level printed by the program's own
    printers and null for what is absent, is read as that configuration, whatever it is; and
    in a build that wraps no document at all makes the reading panic. *)
Theorem config_read_back `{Profile} `{Y : YamlLib} `{!YamlLibOk Y} (c : Config) (Hc : config_ok c) :
  de_config (w_config c) = Ok c ∧ (overflow_checks = false → ∀ v, de_config v ≠ Panic).
Proof. split; [by apply de_config_written|]. intros Ho v. by apply safe_config. Qed.

(** Without its interval the provider is refused; the checks have defaults. *)
Lemma provider_interval_required `{Profile} `{Y : YamlLib} `{!YamlLibOk Y} (endpoint : bytes) :
  de_provider (w_entries [("endpoint"%string, w_str endpoint)]) = Err (MissingField (text "interval")).
Proof. pose proof (de_string_written endpoint). unfold de_provider. by read_struct. Qed.

Lemma check_defaults `{Profile} `{Y : YamlLib} :
  de_check (Mapping []) = Ok {| check_timeout := DEFAULT_CHECK_TIMEOUT; check_interval := DEFAULT_CHECK_INTERVAL |}.
Proof. done. Qed.

(** ** The example of the repository (examples/config.yaml) *)

Module Demo.
Inductive demo_scalar := Plain (t : bytes) | Quoted (t : bytes).

Definition lower (t : bytes) : bytes := (λ c, if (65 <=? c) && (c <=? 90) then c + 32 else c) <$> t.

Definition levels : list Level := [ERROR; WARN; INFO; DEBUG; TRACE].

Definition demo : YamlLib := {|
  scalar := demo_scalar;
  scalar_str s := match s with Plain t | Quoted t => Some t end;
  scalar_any_str s :=
    match s with
    | Quoted t => Some t
    | Plain t => if bool_decide (t ∈ [text "true"; text "false"; text "~"]) || is_ok (parse_uint u64_max t)
                 then None else Some t
    end;
  scalar_bool s :=
    match s with
    | Plain t => if bool_decide (t = text "true") then Some true
                 else if bool_decide (t = text "false") then Some false else None
    | Quoted _ => None
    end;
  scalar_uint s := match s with
                   | Plain t => match parse_uint u64_max t with Ok n => Some n | _ => None end
                   | Quoted _ => None
                   end;
  scalar_null s := match s with Plain t => bool_decide (t = text "~") | Quoted _ => false end;
  level_from_str t := list_find (λ l, lower (level_text l) = lower t) levels ≫= λ '(_, l), Some l
|}.

Abbreviation yaml := (Yaml (H:=demo)).
Definition str (t : string) : yaml := Scalar (H:=demo) (Plain (text t)).
Definition seq_of (l : list string) : yaml := Sequence (H:=demo) (str <$> l).
Definition map_of (m : list (string * yaml)) : yaml := Mapping (H:=demo) ((λ e, (text e.1, e.2)) <$> m).

Definition dns_part : yaml := map_of
  [("listen"%string, str "0.0.0.0:53"); ("hosts"%string, map_of [("foo.com"%string, str "127.0.0.2")]);
   ("cache"%string, map_of [("ttl"%string, str "30s"); ("size"%string, str "512")]);
   ("reject"%string, map_of [("endpoint"%string, str "https://reject.txt"); ("interval"%string, str "1h")]);
   ("hijack"%string, map_of [("endpoint"%string, str "https://gfw.txt"); ("interval"%string, str "1h");
                             ("hijack"%string, str "127.0.0.1")]);
   ("upstream"%string, map_of [("nameservers"%string, seq_of ["114.114.114.114:53"%string])])].

(** The document, with the part of the provider. *)
Definition document (provider : list (string * yaml)) : yaml := map_of
  [("resolvers"%string, seq_of ["114.114.114.114:53"%string]);
   ("log"%string, map_of [("level"%string, str "info"); ("timestamp"%string, str "true")]);
   ("controller"%string, map_of [("listen"%string, str "0.0.0.0:9000")]);
   ("dns"%string, dns_part);
   ("upstream"%string, map_of
      [("load_balance"%string, str "best");
       ("check"%string, map_of [("interval"%string, str "30s"); ("timeout"%string, str "5s")]);
       ("provider"%string, map_of provider)]);
   ("thp"%string, map_of [("listen"%string, seq_of ["0.0.0.0:80"%string; "0.0.0.0:443"%string])])].

Definition provider : list (string * yaml) :=
  [("endpoint"%string, str "https://for.example.com/blah/blah"); ("interval"%string, str "24h")].

Definition conf : Config :=
  {| worker_of := None; resolvers := [V4 [114; 114; 114; 114] 53]; log := {| level := INFO; timestamp := true |};
     dns := {| dns_listen := text "0.0.0.0:53"; dns_cache := Some {| cc_size := 512; cc_ttl := 30 * SECOND |};
               dns_nameservers := [V4 [114; 114; 114; 114] 53];
               dns_hosts := Some [(text "foo.com", text "127.0.0.2")];
               dns_reject := Some {| rc_endpoint := text "https://reject.txt"; rc_interval := Some HOUR |};
               dns_hijack := Some {| hc_endpoint := text "https://gfw.txt"; hc_hijack := IpV4 [127; 0; 0; 1];
                                     hc_interval := Some HOUR |} |};
     controller := Some (text "0.0.0.0:9000");
     upstream := {| up_load_balance := Best;
                    up_check := {| check_timeout := 5 * SECOND; check_interval := 30 * SECOND |};
                    up_provider := {| provider_endpoint := text "https://for.example.com/blah/blah";
                                      provider_interval := DAY |} |};
     thp := Some [V4 [0; 0; 0; 0] 80; V4 [0; 0; 0; 0] 443] |}.

Example example_is_read : de_config (H:=dev) (Y:=demo) (document provider) = Ok conf.
Proof. vm_compute. reflexivity. Qed.

(** The comment in the example calls the interval of the provider optional. *)
Example interval_not_optional :
  de_config (H:=dev) (Y:=demo) (document (take 1 provider)) = Err (MissingField (text "interval")).
Proof. vm_compute. reflexivity. Qed.

(** An unknown entry is an error in the part for the logs, and ignored elsewhere. *)
Example unknown_entries :
  (de_log (Y:=demo) (map_of [("level"%string, str "info"); ("colour"%string, str "true")]),
   is_ok (de_check (H:=dev) (Y:=demo) (map_of [("colour"%string, str "true")])))
  = (Err (UnknownField (text "colour")), true).
Proof. vm_compute. reflexivity. Qed.

Global Program Instance demo_ok : YamlLibOk demo := {|
  str_scalar := Quoted;
  bool_scalar b := Plain (if b then text "true" else text "false");
  uint_scalar n := Plain (decimal n);
  null_scalar := Plain (text "~")
|}.
Next Obligation. done. Qed.
Next Obligation. by intros []. Qed.
Next Obligation.
  intros n Hn. simpl. rewrite parse_uint_decimal by done. split; [done|].
  apply bool_decide_eq_false. intros Heq. assert (NetAddr.printed n (decimal n)) as Hp by (apply decimal_printed; lia).
  rewrite Heq in Hp. destruct Hp as [Hd]. apply Forall_inv in Hd. unfold is_dec in Hd. simpl in Hd. lia.
Qed.
Next Obligation. done. Qed.
Next Obligation. by intros []. Qed.
End Demo.

Lemma config_read_back_witness :
  de_config (H:=dev) (Y:=Demo.demo) (w_config Demo.conf) = Ok Demo.conf.
Proof.
  apply (config_read_back (H:=dev) (Y:=Demo.demo) Demo.conf).
  assert (∀ d, bool_decide (0 <= d < 2 ^ 64) = true → duration_ok d) as Hd by (intros d; apply bool_decide_eq_true).
  assert (∀ a b c d port, bool_decide (Forall is_byte [a; b; c; d] ∧ 0 <= port < 65536) = true → socket_ok (V4 [a; b; c; d] port)) as Hs.
  { intros a b c d port [Hb Hp]%bool_decide_eq_true. split_and!; [reflexivity|exact Hb|unfold is_u16; lia]. }
  split_and!; try exact I.
  - repeat (apply Forall_cons_2; [apply Hs; reflexivity|]). constructor.
  - split_and!; [split; [vm_compute; discriminate|apply Hd; reflexivity]| | |apply Hd; reflexivity|].
    + repeat (apply Forall_cons_2; [apply Hs; reflexivity|]). constructor.
    + split; [constructor|exact I].
    + split; [split; [reflexivity|]|apply Hd; reflexivity]. apply (bool_decide_unpack _). vm_compute. exact I.
  - split; [split; apply Hd; reflexivity|apply Hd; reflexivity].
  - repeat (apply Forall_cons_2; [apply Hs; reflexivity|]). constructor.
Defined.
