(* ===== verification/Program.v ===== *)
(** * The program (src/main.rs, config.rs; relay/thp/server.rs [serve], dns/server/mod.rs [serve])

    The configuration is read, the services are built in order, each with [expect], and
    put in a group of tasks; the program then waits for a signal or for the group.  What
    the operating system, the configuration parser and the servers on the network answer is
    a parameter.  The services are state machines of the events that can end them. *)

From stdpp Require Import strings gmap.
From S2P Require Import Prelude RustStr Io Address NetAddr Resolver ServerConfig Trie Dns DnsServer Upstream PoolLife Logger Settings.

(** ** Configuration *)

Inductive ConfigError := ConfigIo (e : ErrorKind) | Deserialize.

Class Environment `{Y : YamlLib} := {
  env_var : bytes → option bytes;
  fs_read : bytes → res ErrorKind bytes;
  (** The parser of [serde_yaml::from_slice]. *)
  yaml_slice : bytes → option Yaml;
  num_cpus : Z;
  (** The runtime with a number of threads; the builder panics at none. *)
  build_runtime : Z → res ErrorKind ();
  (** [TokioAsyncResolver::tokio] with a number of concurrent requests and name servers. *)
  tokio_resolver : nat → list SocketAddr → res ResolveError ();
  (** The answers of the endpoints of the rules and of the list of servers. *)
  rules_at : bytes → res RuleError (Z * bytes);
  servers_at : bytes → res ExchangeError (Z * bytes);
  (** The first round of checks. *)
  first_checks : Checking
}.

Section program.
Context `{P : DnsProto} {C : Type} `{!LruCache P C} {St : Type} `{Entries St} `{Profile}.
Context `{L : ConfigLib} `{Y : YamlLib} `{Env : !Environment}.

(** [Config::load] *)
Definition Config_load : res ConfigError Config :=
  content ← map_err ConfigIo match env_var (text "ROXY_CONFIG") with
                             | Some path => fs_read path
                             | None => fs_read (text "config.yaml")
                             end;
  doc ← ok_or Deserialize (yaml_slice content);
  map_err (λ _, Deserialize) (de_config doc).

(** [Config::worker] *)
Definition worker (self : Config) : Z :=
  match worker_of self with
  | Some worker => worker
  | None => num_cpus
  end.

(** ** Services *)

(** [Resolver::new] *)
Definition Resolver_new (addrs : list SocketAddr) : res ResolveError () := tokio_resolver 128 addrs.

(** [handle::Upstream::new] *)
Definition DnsUpstream_new (addrs : list SocketAddr) : res ResolveError () := tokio_resolver 64 addrs.

(** [dns::Server::new]: the handler, whose upstream resolver is built from the name servers. *)
Definition Dns_new (config : DnsConfig)
  : option (res (DnsError (ResolveError:=ResolveError)) (Handler (C:=C) (St:=St))) :=
  Handler_new rules_at (dns_cache config) (dns_reject config) (dns_hijack config)
    (DnsUpstream_new (dns_nameservers config)).

(** [controller::Server::new] *)
Definition Controller_new (listen : bytes) : option SocketAddr := parse_socket_addr listen.

(** What a service of the group is doing. *)
Inductive Service :=
  | DnsServing
  | ControllerServing (listen : SocketAddr)
  | ThpStarting (listen : list SocketAddr)
  | ThpServing (accepting : list bool).

(** What can happen to it: sockets are bound, connections are accepted, datagrams come,
    [hyper]'s server ends. *)
Inductive Happening :=
  | TcpBind (r : res ErrorKind ())
  | TcpAccept (r : res ErrorKind SocketAddr)
  | UdpBind (r : res ErrorKind ())
  | UdpNext (r : option (res ErrorKind bytes))
  | HyperBind (bound : bool)
  | HyperEnd (r : res ErrorKind ())
  | ThpBind (bind : SocketAddr → res ErrorKind ())
  | ThpAccept (i : nat) (r : res ErrorKind SocketAddr).

(** [serve_tcp] and [serve_udp]; the select of both ends with the first. *)
Definition dns_turn (ev : Happening) : option (res ErrorKind ()) :=
  match ev with
  | TcpBind (Err e) | TcpAccept (Err e) | UdpBind (Err e) | UdpNext (Some (Err e)) => Some (Err e)
  | UdpNext None => Some (Err OtherError)
  | _ => None
  end.

(** [controller::Server::serve]: [hyper::Server::bind] panics if it fails, and an error of
    the server is only logged. *)
Definition controller_turn (ev : Happening) : option (res ErrorKind ()) :=
  match ev with
  | HyperBind false => Some Panic
  | HyperEnd (Ok ()) | HyperEnd (Err _) => Some (Ok ())
  | HyperEnd Panic => Some Panic
  | _ => None
  end.

(** [thp::serve]: one loop of [accept] for every address; the first address that cannot be
    bound ends the service. *)
Fixpoint thp_bind (bind : SocketAddr → res ErrorKind ()) (listen : list SocketAddr)
    (tasks : list bool) : res ErrorKind (list bool) :=
  match listen with
  | [] => Ok tasks
  | addr :: listen => _ ← bind addr; thp_bind bind listen (tasks ++ [true])
  end.

(** [join_all] waits for the end of every loop and forgets how it ended. *)
Definition join_all (accepting : list bool) : Service + res ErrorKind () :=
  if existsb (λ b, b) accepting then inl (ThpServing accepting) else inr (Ok ()).

(** A failed [accept] panics its loop ([expect]). *)
Definition thp_turn (ev : Happening) (s : Service) : Service + res ErrorKind () :=
  match ev, s with
  | ThpBind bind, ThpStarting listen =>
    match thp_bind bind listen [] with
    | Ok tasks => join_all tasks
    | Err e => inr (Err e)
    | Panic => inr Panic
    end
  | ThpAccept i (Err _), ThpServing accepting => join_all (<[i:=false]> accepting)
  | _, _ => inl s
  end.

Definition service_turn (ev : Happening) (s : Service) : Service + res ErrorKind () :=
  match s with
  | DnsServing => match dns_turn ev with Some r => inr r | None => inl s end
  | ControllerServing _ => match controller_turn ev with Some r => inr r | None => inl s end
  | ThpStarting _ | ThpServing _ => thp_turn ev s
  end.

(** ** The group of tasks *)

Inductive Outcome :=
  | Running (tasks : list Service)
  | Returned
  | Exited (code : Z)
  | Panicked.

Inductive ProgramEvent := Signal | At (i : nat) (ev : Happening).

(** One turn of the select: a signal, or the end of a task, which is one of [Ok(Ok(()))],
    [Ok(Err(_))] and a join error. *)
Definition group_turn (ev : ProgramEvent) (tasks : list Service) : Outcome :=
  match ev with
  | Signal => Returned
  | At i ev =>
    match tasks !! i with
    | None => Running tasks
    | Some s =>
      match service_turn ev s with
      | inl s => Running (<[i:=s]> tasks)
      | inr (Ok ()) =>
        let tasks := delete i tasks in
        if bool_decide (tasks = []) then Returned else Running tasks
      | inr (Err _) => Exited 1
      | inr Panic => Panicked
      end
    end
  end.

Fixpoint group_run (evs : list ProgramEvent) (o : Outcome) : Outcome :=
  match evs, o with
  | ev :: evs, Running tasks => group_run evs (group_turn ev tasks)
  | _, _ => o
  end.

(** ** Start (main.rs)

    [expect] panics; the pool is built when the DNS server is already in the group. *)
Definition expect_ok {E A B} (r : res E A) (k : A → Outcome * option B) : Outcome * option B :=
  match r with Ok a => k a | _ => (Panicked, None) end.

Definition main : option (Outcome * option (Config * Handler (C:=C) (St:=St) * World)) :=
  match Config_load with
  | Err _ => Some (Exited 1, None)
  | Panic => Some (Panicked, None)
  | Ok conf =>
    match _ ← map_err (λ _, ResolveFailed) (build_runtime (worker conf)); Resolver_new (resolvers conf) with
    | Ok _ =>
      handler ← Dns_new (dns conf);
      match handler with
      | Ok handler =>
        let tasks := [DnsServing] in
        pool ← Upstream_new (servers_at (provider_endpoint (up_provider (upstream conf)))) first_checks;
        Some (expect_ok pool (λ pool,
              expect_ok (E:=()) match controller conf with
                        | Some cc => listen ← expect (Controller_new cc); Ok (tasks ++ [ControllerServing listen])
                        | None => Ok tasks
                        end (λ tasks,
              let tasks := match thp conf with
                           | Some tc => tasks ++ [ThpStarting tc]
                           | None => tasks
                           end in
              (Running tasks, Some (conf, handler, pool)))))
      | _ => Some (Panicked, None)
      end
    | _ => Some (Panicked, None)
    end
  end.
End program.

(** ** The life of the program *)

(** What ends the program: a signal, a failed socket of the DNS server, or an address of
    the controller or of the proxy that cannot be bound. *)
Definition fatal (ev : ProgramEvent) : Prop :=
  match ev with
  | Signal => True
  | At _ (TcpBind r) | At _ (UdpBind r) => ∃ e, r = Err e
  | At _ (TcpAccept r) => ∃ e, r = Err e
  | At _ (UdpNext r) => r = None ∨ ∃ e, r = Some (Err e)
  | At _ (HyperBind bound) => bound = false
  | At _ (HyperEnd r) => r = Panic
  | At _ (ThpBind bind) => ∃ addr, bind addr ≠ Ok ()
  | At _ (ThpAccept _ _) => False
  end.

Lemma thp_bind_ok bind listen tasks : (∀ addr, bind addr = Ok ()) →
  ∃ tasks', thp_bind bind listen tasks = Ok tasks'.
Proof.
  intros Hb. revert tasks. induction listen as [|a listen IH]; intros tasks; simpl; [by eexists|].
  rewrite Hb. apply IH.
Qed.

(** A service goes on, or ends without an error; the DNS server goes on. *)
Lemma service_turn_calm i ev s : ¬ fatal (At i ev) →
  match service_turn ev s with
  | inl s' => s = DnsServing → s' = DnsServing
  | inr r => r = Ok () ∧ s ≠ DnsServing
  end.
Proof.
  intros Hf. destruct s as [|a|listen|accepting].
  1-2: destruct ev as [[[]| |]|[| |]|[[]| |]|[[| |]|]|[]|[[]| |]|bind|j [| |]]; simpl in *;
    try done; exfalso; apply Hf; eauto.
  - destruct ev as [| | | | | |bind|j [| |]]; try discriminate. simpl.
    assert (∀ addr, bind addr = Ok ()) as Hb.
    { intros addr. destruct (bind addr) as [[]| |] eqn:E; [done|..];
        (exfalso; apply Hf; exists addr; by rewrite E). }
    destruct (thp_bind_ok bind listen [] Hb) as [tasks ->]. unfold join_all.
    destruct (existsb _ _); [discriminate|split; [done|discriminate]].
  - destruct ev as [| | | | | | |j [| |]]; try discriminate. simpl. unfold join_all.
    destruct (existsb _ _); [discriminate|split; [done|discriminate]].
Qed.

Lemma group_turn_calm ev tasks : ¬ fatal ev → DnsServing ∈ tasks →
  ∃ tasks', group_turn ev tasks = Running tasks' ∧ DnsServing ∈ tasks'.
Proof.
  intros Hf Hin. destruct ev as [|i ev]; [by destruct Hf|]. simpl.
  destruct (tasks !! i) as [s|] eqn:Hi; [|by eexists].
  pose proof (service_turn_calm i ev s Hf) as Hs.
  apply list_elem_of_lookup in Hin as [j Hj].
  destruct (service_turn ev s) as [s'|r].
  - eexists. split; [done|]. apply list_elem_of_lookup. exists j.
    destruct (decide (j = i)) as [->|]; [|by rewrite list_lookup_insert_ne].
    rewrite list_lookup_insert_eq by (by eapply lookup_lt_Some). rewrite Hs by congruence. done.
  - destruct Hs as [-> Hne]. assert (j ≠ i) by congruence.
    assert (DnsServing ∈ delete i tasks) as Hd.
    { destruct (decide (j < i)%nat).
      - apply (list_elem_of_lookup_2 _ j). by rewrite list_lookup_delete_lt.
      - apply (list_elem_of_lookup_2 _ (j - 1)). rewrite list_lookup_delete_ge by lia.
        by replace (Datatypes.S (j - 1)) with j by lia. }
    rewrite bool_decide_eq_false_2; [by eexists|]. intros E. rewrite E in Hd. by apply not_elem_of_nil in Hd.
Qed.

Lemma group_run_calm evs tasks : Forall (λ ev, ¬ fatal ev) evs → DnsServing ∈ tasks →
  ∃ tasks', group_run evs (Running tasks) = Running tasks' ∧ DnsServing ∈ tasks'.
Proof.
  intros Hevs. revert tasks. induction Hevs as [|ev evs Hev _ IH]; intros tasks Hin; [by eexists|].
  simpl. destruct (group_turn_calm ev tasks Hev Hin) as (tasks1 & -> & H1). by apply IH.
Qed.

(** ** Properties *)

(** C27: the program starts and stays up.  If the configuration can be read, the runtime, the
    resolver and the DNS handler can be built, the provider answers with a list of servers and the address
    of the controller is one, the program starts its services with a well-formed pool; and
    whatever happens then that is not a signal, a failed socket of the DNS server or an
    address that cannot be bound, failed [accept]s of the proxy and the end of the
    controller included, it goes on and its DNS server with it. *)
Theorem program_stays_up `{P : DnsProto} {C : Type} `{!LruCache P C} {St : Type} `{Entries St} `{Profile}
    `{L : ConfigLib} `{Y : YamlLib} `{Env : !Environment} (conf : Config) (handler : Handler (C:=C) (St:=St))
    (configs : list ServerConfig) (evs : list ProgramEvent)
    (Hload : Config_load = Ok conf) (Hrt : build_runtime (worker conf) = Ok ())
    (Hres : Resolver_new (resolvers conf) = Ok ())
    (Hdns : Dns_new (dns conf) = Some (Ok handler))
    (Hfetch : fetch (servers_at (provider_endpoint (up_provider (upstream conf)))) = Some (Ok configs))
    (Hsome : some_servers configs) (Hfirst : checking_ok first_checks)
    (Hlisten : ∀ l, controller conf = Some l → is_Some (parse_socket_addr l))
    (Hevs : Forall (λ ev, ¬ fatal ev) evs) :
  ∃ tasks w tasks', main = Some (Running tasks, Some (conf, handler, w)) ∧ pool_wf w
    ∧ length tasks = (1 + (if controller conf then 1 else 0) + (if thp conf then 1 else 0))%nat
    ∧ group_run evs (Running tasks) = Running tasks' ∧ DnsServing ∈ tasks'.
Proof.
  destruct (Upstream_new_wf _ configs first_checks Hfetch Hsome Hfirst) as (w & Hw & Hwf).
  assert (∃ tasks, main = Some (Running tasks, Some (conf, handler, w)) ∧ DnsServing ∈ tasks
    ∧ length tasks = (1 + (if controller conf then 1 else 0) + (if thp conf then 1 else 0))%nat)
    as (tasks & Hmain & Hin & Hlen).
  { unfold main. rewrite Hload, Hrt, Hres. cbn [mbind res_bind map_err]. rewrite Hdns.
    cbn [mbind option_bind]. rewrite Hw. cbn [mbind option_bind expect_ok].
    destruct (controller conf) as [l|]; [destruct (Hlisten l eq_refl) as [sa Hsa]; unfold Controller_new; rewrite Hsa|];
      simpl; destruct (thp conf); eexists; split_and!; try done; by left. }
  destruct (group_run_calm evs tasks Hevs Hin) as (tasks' & Hrun & Hin').
  by exists tasks, w, tasks'.
Qed.

(** A configuration that cannot be read ends the program with code 1; whatever cannot be
    built after it panics. *)
Lemma startup_failures `{P : DnsProto} {C : Type} `{!LruCache P C} {St : Type} `{Entries St} `{Profile}
    `{L : ConfigLib} `{Y : YamlLib} `{Env : !Environment} o started :
  main (C:=C) (St:=St) = Some (o, started) →
  (∃ e, Config_load = Err e) ∧ o = Exited 1 ∨ o = Panicked ∧ started = None
  ∨ ∃ tasks conf handler w, o = Running tasks ∧ started = Some (conf, handler, w)
                            ∧ Config_load = Ok conf ∧ tasks !! 0%nat = Some DnsServing.
Proof.
  unfold main. destruct Config_load as [conf|e|]; [|intros [= <- <-]; left; eauto|intros [= <- <-]; eauto].
  destruct (_ ← _; _) as [u| |]; [|intros [= <- <-]; eauto..].
  destruct (Dns_new _) as [[handler| |]|]; [|intros [= <- <-]; eauto..|done]. cbn [mbind option_bind].
  destruct (Upstream_new _ _) as [[w| |]|]; [|intros [= <- <-]; eauto..|done].
  cbn [mbind option_bind expect_ok]. intros [= Heq]. right.
  destruct (controller conf) as [l|]; [destruct (Controller_new l) as [sa|]|]; simpl in Heq;
    injection Heq as <- <-; eauto; right; eexists _, conf, handler, w; split_and!; try done;
    by destruct (thp conf).
Qed.

(** ** A program with all its services *)

Module Demo.
Import Dns.Toy.
Definition conf : Config :=
  {| worker_of := None; resolvers := [V4 [1; 1; 1; 1] 53]; log := Log_default;
     dns := {| dns_listen := text "127.0.0.1:53"; dns_cache := None;
               dns_nameservers := [V4 [8; 8; 8; 8] 53]; dns_hosts := None;
               dns_reject := Some {| rc_endpoint := []; rc_interval := None |}; dns_hijack := None |};
     controller := Some (text "127.0.0.1:9000");
     upstream := {| up_load_balance := Best;
                    up_check := {| check_timeout := 5 * Duration.SECOND; check_interval := 10 * Duration.SECOND |};
                    up_provider := {| provider_endpoint := []; provider_interval := Duration.HOUR |} |};
     thp := Some [V4 [0; 0; 0; 0] 80; V4 [0; 0; 0; 0] 443] |}.

Definition env : Environment (Y:=Settings.Demo.demo) := {|
  env_var _ := None;
  fs_read path := if bool_decide (path = text "config.yaml") then Ok [] else Err (KOs 2);
  yaml_slice _ := Some (w_config conf);
  num_cpus := 8;
  build_runtime n := if 0 <? n then Ok () else Panic;
  tokio_resolver _ _ := Ok ();
  rules_at _ := Ok (200, Trie.Demo.foo_com);
  servers_at _ := PoolLife.Demo.answer;
  first_checks := PoolLife.Demo.round
|}.

Definition started :=
  main (P:=toy_proto) (C:=assoc) (St:=gset bytes) (H0:=dev) (L:=ServerConfig.Demo.lib) (Env:=env).

(** Both listeners of the proxy fail to accept a connection, and the controller ends. *)
Definition failures : list ProgramEvent :=
  [At 2 (ThpBind (λ _, Ok ())); At 2 (ThpAccept 0 (Err (KOs 24))); At 1 (HyperEnd (Err (KOs 1)));
   At 1 (ThpAccept 1 (Err (KOs 24)))].

(** The program goes on as if nothing had happened, without a proxy. *)
Example proxy_stops_silently :
  match started with
  | Some (Running tasks, _) => (tasks, group_run failures (Running tasks))
  | _ => ([], Panicked)
  end
  = ([DnsServing; ControllerServing (V4 [127; 0; 0; 1] 9000); ThpStarting [V4 [0; 0; 0; 0] 80; V4 [0; 0; 0; 0] 443]],
     Running [DnsServing]).
Proof. vm_compute. reflexivity. Qed.

Lemma failures_calm : Forall (λ ev, ¬ fatal ev) failures.
Proof.
  apply Forall_cons_2; [by intros [addr Hne]; destruct Hne|].
  do 3 (apply Forall_cons_2; [by intros Hf; vm_compute in Hf|]). constructor.
Qed.

Definition built := Dns_new (P:=toy_proto) (C:=assoc) (St:=gset bytes) (H0:=dev) (Env:=env) (dns conf).
Definition handler : Handler (C:=assoc) (St:=gset bytes) :=
  match built with
  | Some (Ok h) => h
  | _ => {| h_cache := None; h_hijacker := None; h_reject := None |}
  end.
End Demo.

Lemma program_stays_up_witness :
  ∃ tasks w tasks', Demo.started = Some (Running tasks, Some (Demo.conf, Demo.handler, w)) ∧ pool_wf w
    ∧ length tasks = 3%nat ∧ group_run Demo.failures (Running tasks) = Running tasks' ∧ DnsServing ∈ tasks'.
Proof.
  apply (program_stays_up (P:=Dns.Toy.toy_proto) (C:=Dns.Toy.assoc) (St:=gset bytes) (H0:=dev)
           (L:=ServerConfig.Demo.lib) (Env:=Demo.env) Demo.conf Demo.handler [ServerConfig.Demo.config] Demo.failures).
  - vm_compute. reflexivity.
  - reflexivity.
  - reflexivity.
  - vm_compute. reflexivity.
  - vm_compute. reflexivity.
  - split; [done|simpl; lia].
  - exact PoolLife.Demo.round_ok.
  - intros l [= <-]. vm_compute. eexists. reflexivity.
  - exact Demo.failures_calm.
Defined.
